(* ===== verification/_CoqProject ===== *)
-Q . S2P
Prelude.v
Coding.v
Crc32c.v
DbFormat.v
Config.v
Committer.v
Szd.v
Wal.v
WalManager.v
WriteBatch.v
SSTable.v
SSTableIter.v
VersionEdit.v
Version.v
Memtable.v
VersionBuilder.v
CommitLog.v
Manifest.v
VersionSet.v
PickCompaction.v
L0SSTable.v
LNSSTable.v
ReadQueue.v
DeferredWriter.v
SSTableManager.v
TableCache.v
Iterators.v
Prefetch.v
LNIterator.v
Compaction.v
CompactionSafety.v
L0Flush.v
Database.v
DBIter.v
ThreadPool.v
BackgroundCompaction.v
CompactingStore.v
Opening.v
