(* ===== verification/Prelude.v ===== *)
(** * TropoDB: a verification library

    TropoDB is a key-value store for zoned (ZNS) devices, a part of a RocksDB tree.  Its
    sources are under [src/implementation/rocksdb/db/tropodb/]; paths below are relative to
    that directory, or to [src/implementation/rocksdb/] for the files of RocksDB itself.
    The library is a shallow embedding: every mapped definition translates the code that its
    comment names, and is executable.

    ** The program

    A write puts a batch into the write-ahead log and then into the memtable.  A full
    memtable becomes immutable and is flushed to tables of level 0 in a circular log.  The
    compactions merge the tables of a level into the next one, in a fragmented log.  The
    version set knows the tables of every level and writes a snapshot of them to the manifest
    with every change.  A lookup asks the memtables and then the tables of the current version,
    through a cache of table iterators.  A restart reads the manifest and replays the logs.

    ** Conventions

    Bytes are [list byte]; an integer of the program is a [Z], with [u8], [u32] and [u64] where
    the code can wrap.  A state is a record that operations take and return.  [Status] is the
    status of the code.  [None] is an access outside of an allocation, a violated
    assertion, the end of the process, or a loop that ran out of fuel; where fuel is used, a
    lemma shows for which fuel the result exists.  Code that is not in the sources is an
    argument: a class of operations and a class of laws, each with an instance in memory that
    is used in the witnesses.  This concerns the SZD library (a git submodule), the skip list of
    the memtable and the cache of RocksDB.  Code that runs in several threads is a step relation;
    a step lasts from taking the mutex to giving it up.

    ** Files

    Encodings
    - [Prelude]: bytes, words, comparison functions, lists; tactics ([obind], [word], [len]) and
      hint databases.
    - [Coding]: [util/coding.h], [coding.cc], [coding_lean.h].
    - [Crc32c]: [util/crc32c.cc], [crc32c.h]; the sliced loop computes the bit-serial CRC
      ([crc32c_extend_correct]).
    - [DbFormat]: [db/dbformat.h], [dbformat.cc], [db/lookup_key.h]; internal keys and their order.
    - [Config]: constants, table metadata, reference counts, status codes and counters.

    Logs and manifest
    - [Committer], [CommitLog]: [persistence/tropodb_committer.*]; checksummed records in blocks, in a
      string and in a circular log.
    - [Szd]: the interfaces of the logs of SZD with their laws and instances.
    - [Wal]: [persistence/tropodb_wal.*]; replay gives back what was appended
      ([wal_replay_roundtrip]), except for synchronous appends in group-commit mode
      ([wal_sync_append_lost]).
    - [WalManager]: [persistence/tropodb_wal_manager.*]; the circle of logs keeps everything that is
      not flushed ([wal_manager_keeps_unflushed]).
    - [WriteBatch]: [db/write_batch.cc].
    - [Manifest]: [persistence/tropodb_manifest.*]; installing and recovering
      ([manifest_install_recover]), and the reclaim that comes too early
      ([manifest_reclaim_too_early]).

    Tables
    - [SSTable], [SSTableIter]: [table/tropodb_sstable_builder.*], [tropodb_sstable_reader.*] and
      [table/iterators/sstable_iterator_compressed.*]; building and scanning are inverse, and a seek
      finds the first entry ([sstable_build_scan], [sstable_seek]).
    - [L0SSTable], [L0Flush], [DeferredWriter]: [table/tropodb_l0_sstable.*]; tables in a circular log,
      the flush of a memtable, and its second thread ([l0_reclaim_safe], [deferred_writes_all],
      [deferred_undefined]).
    - [LNSSTable], [ReadQueue]: [table/tropodb_ln_sstable.*]; tables in a fragmented log, and the sharing
      of its readers ([ln_store_refines], [read_queue_exclusive]).
    - [SSTableManager]: [table/tropodb_sstable_manager.*]; reclaiming keeps the live tables
      ([reclaim_keeps_live_tables]).
    - [TableCache]: [table/tropodb_table_cache.*]; lookups through all of these layers return the newest
      entry ([lookups_newest]).
    - [Memtable]: [memtable/tropodb_memtable.*] and [db/memtable.cc] ([memtable_write_get]).

    Iterators
    - [Iterators]: [table/iterators/iterator_wrapper.h] and [merging_iterator.*] ([merging_scan]).
    - [LNIterator], [Prefetch]: [table/iterators/sstable_ln_iterator.*]; the iterator over a level, and
      its prefetching as two threads ([prefetch_scan]).
    - [DBIter]: [table/iterators/db_iter.*] and the generator of [util/random.h]; the iterator is a cursor
      over the map of a snapshot ([dbiter_refines_map]).

    Index
    - [VersionEdit]: [index/tropodb_version_edit.*] ([version_edit_roundtrip]).
    - [Version]: [index/tropodb_version.*]; lookup and overlap.
    - [VersionBuilder]: [index/tropodb_version_set_builder.cc] ([version_edit_applied]).
    - [VersionSet], [PickCompaction]: [index/tropodb_version_set.*]; committed versions are recovered
      ([version_recovery]); what a compaction may take ([pick_compaction_keeps_order],
      [pick_compaction_stale]).
    - [Compaction], [CompactionSafety]: [index/tropodb_compaction.*]; the output of a merge
      ([compaction_output]), every answer is kept ([compaction_preserves_answers]), except when a table
      is not written ([compaction_write_error_lost]).

    The store
    - [Database]: [tropodb_impl.h], [impl/tropodb_impl_client.cc] and parts of [impl/tropodb_impl.cc] and
      [impl/tropodb_impl_background.cc]; the store without compactions refines a map
      ([db_refines_map]), also after a crash ([db_crash_recovery]), lookups and writes return
      ([db_serves]), and what a failed flush loses ([flush_error_drops]).
    - [BackgroundCompaction]: [impl/tropodb_impl_background.cc]; the two compaction threads as a transition
      system ([compactions_exclusive], [failed_compaction_blocks], [stale_level_ptrs]).
    - [ThreadPool]: the pool in which compactions and their helpers run, [util/threadpool_imp.cc]
      ([low_pool_enough], [low_pool_deadlock]).
    - [CompactingStore]: the store refines a map while it compacts ([store_refines_map]).
    - [Opening]: [impl/tropodb_impl.cc]; the division of the device ([zone_division]), the opening of a new
      device, which leads to a state of [store_refines_map] ([open_new_device]), and of one without a
      manifest ([open_without_manifest]).

    ** Interfaces

    A component is proved against a class and implemented by an instance where the code has such
    a boundary: [UserComparator] and [CmpLaws] for orders, the log classes of [Szd], [Iterator] with
    [ForwardIterator] (for the merging iterator) and [CursorIterator] (for [DBIter]), the manifest of the
    version set, the tables of the manager and the cache of a lookup.

    ** Fuel

    Loops over data recurse on it where they can.  The others take fuel.  Where the code bounds the
    rounds by the length of its input (bytes of a record, entries of a table, tables of a level, blocks
    of a log, logs of a manager) the caller passes that length, and lemmas show that it is enough;
    elsewhere the theorems say that every fuel from some bound on gives the result.  The sampling loop of [DBIter] needs at most half a cycle of the generator per
    byte, [sample_fuel].

    ** Assumptions of the large theorems

    [store_refines_map] runs one compaction at a time, with everything else in between; the
    two threads together are treated in [BackgroundCompaction], where [stale_level_ptrs] shows that
    two of them are not independent.  Its compactions write all their tables, a compaction of level
    0 has room for the whole level, and reclaiming is treated apart, in [SSTableManager] and
    [L0SSTable].  The store has one stripe of memtable and logs, as the configuration of the sources has.

    ** Not modelled

    - [impl/tropodb_impl_not_supported.cc]: every method returns NotSupported.
    - [impl/tropodb_impl_diagnostics.cc], [utils/tropodb_logger.*], and all printing: output only.
    - [table/iterators/sstable_iterator.*]: the iterator of tables without prefix compression, which the
      configuration of the sources does not use.
    - The device and its logs: SZD is not part of the sources.
    - The inside of the cache and of the skip list of RocksDB; they are interfaces here.
    - The hardware paths of the CRC, and the options of RocksDB that TropoDB leaves off.
    - The release of objects in destructors, and the resizing of the thread pool. *)

From Stdlib Require Export ZArith Lia Strings.Byte.
From stdpp Require Export base list numbers sorting gmap.

(** stdpp opens [nat_scope]; every number of the program is a [Z]. *)
#[export] Set Default Goal Selector "!".
Global Open Scope Z_scope.

(** ** Bytes and machine words *)

Abbreviation byte := Byte.byte.

(** C++ [std::string], [Slice] and [char*] buffers. *)
Abbreviation bytes := (list Byte.byte).

#[export] Instance byte_eq_dec : EqDecision byte := Byte.byte_eq_dec.

Declare Scope tropo_scope.
Delimit Scope tropo_scope with tropo.

(** Wrap-around of an unsigned machine word. *)
Definition u8 (z : Z) : Z := z mod 2 ^ 8.
Definition u32 (z : Z) : Z := z mod 2 ^ 32.
Definition u64 (z : Z) : Z := z mod 2 ^ 64.

Notation "x +64 y" := (u64 (x + y)) (at level 50, left associativity) : tropo_scope.
Notation "x -64 y" := (u64 (x - y)) (at level 50, left associativity) : tropo_scope.
Notation "x *64 y" := (u64 (x * y)) (at level 40, left associativity) : tropo_scope.

Definition is_u8 (z : Z) : Prop := 0 <= z < 2 ^ 8.
Definition is_u32 (z : Z) : Prop := 0 <= z < 2 ^ 32.
Definition is_u64 (z : Z) : Prop := 0 <= z < 2 ^ 64.

Create HintDb word discriminated.

Lemma u8_small z : is_u8 z -> u8 z = z.
Proof. apply Z.mod_small. Qed.
Lemma u32_small z : is_u32 z -> u32 z = z.
Proof. apply Z.mod_small. Qed.
Lemma u64_small z : is_u64 z -> u64 z = z.
Proof. apply Z.mod_small. Qed.
Lemma u8_range z : is_u8 (u8 z).
Proof. apply Z.mod_pos_bound; lia. Qed.
Lemma u32_range z : is_u32 (u32 z).
Proof. apply Z.mod_pos_bound; lia. Qed.
Lemma u64_range z : is_u64 (u64 z).
Proof. apply Z.mod_pos_bound; lia. Qed.

Lemma u32_add_sub y d : u32 (u32 (y + d) - d) = u32 y.
Proof. unfold u32. rewrite Zminus_mod_idemp_l. f_equal. lia. Qed.
Lemma u32_sub_add y d : u32 (u32 (y - d) + d) = u32 y.
Proof. unfold u32. rewrite Zplus_mod_idemp_l. f_equal. lia. Qed.

#[export] Hint Resolve u8_range u32_range u64_range : word.

(** Arithmetic on words: unfold the range predicates and call [lia]. *)
Ltac word := unfold is_u8, is_u32, is_u64 in *; lia.

(** ** The value of a byte *)

Definition b2z (b : byte) : Z := Z.of_N (Byte.to_N b).
Definition z2b (z : Z) : byte :=
  match Byte.of_N (Z.to_N (z mod 256)) with Some b => b | None => x00 end.

Lemma b2z_range b : 0 <= b2z b < 256.
Proof. unfold b2z. pose proof (Byte.to_N_bounded b). lia. Qed.

Lemma z2b_b2z b : z2b (b2z b) = b.
Proof.
  unfold z2b. rewrite Z.mod_small by apply b2z_range.
  unfold b2z. by rewrite N2Z.id, Byte.of_to_N.
Qed.

Lemma b2z_z2b z : b2z (z2b z) = z mod 256.
Proof.
  unfold z2b, b2z. pose proof (Z.mod_pos_bound z 256 ltac:(lia)).
  destruct (Byte.of_N _) as [b|] eqn:E.
  - apply Byte.to_of_N in E. rewrite E. lia.
  - apply Byte.of_N_None_iff in E. lia.
Qed.

Lemma b2z_inj a b : b2z a = b2z b -> a = b.
Proof. intros H. by rewrite <-(z2b_b2z a), H, z2b_b2z. Qed.

(** ** Lengths and slices of buffers *)

Definition blen {A} (l : list A) : Z := Z.of_nat (length l).
Definition ztake {A} (n : Z) (l : list A) : list A := take (Z.to_nat n) l.
Definition zdrop {A} (n : Z) (l : list A) : list A := drop (Z.to_nat n) l.

(** [Slice(data + off, n)]: [None] when the range leaves the buffer, which in
    the program is an out-of-bounds access. *)
Definition slice {A} (off n : Z) (l : list A) : option (list A) :=
  if (0 <=? off) && (0 <=? n) && (off + n <=? blen l)
  then Some (ztake n (zdrop off l)) else None.

(** [memcpy(buf + off, d, |d|)]: [None] when the range leaves the buffer. *)
Definition put {A} (off : Z) (d buf : list A) : option (list A) :=
  if (0 <=? off) && (off + blen d <=? blen buf)
  then Some (ztake off buf ++ d ++ zdrop (off + blen d) buf) else None.

Create Rewrite HintDb len.

Lemma blen_nil {A} : blen (@nil A) = 0.
Proof. done. Qed.
Lemma blen_cons {A} (x : A) l : blen (x :: l) = 1 + blen l.
Proof. unfold blen. simpl. lia. Qed.
Lemma blen_app {A} (l k : list A) : blen (l ++ k) = blen l + blen k.
Proof. unfold blen. rewrite length_app. lia. Qed.
Lemma blen_nonneg {A} (l : list A) : 0 <= blen l.
Proof. unfold blen. lia. Qed.
Lemma blen_ztake {A} n (l : list A) : blen (ztake n l) = Z.min (Z.max 0 n) (blen l).
Proof. unfold blen, ztake. rewrite length_take. lia. Qed.
Lemma blen_zdrop {A} n (l : list A) : blen (zdrop n l) = Z.max 0 (blen l - Z.max 0 n).
Proof. unfold blen, zdrop. rewrite length_drop. lia. Qed.
Lemma blen_replicate {A} n (x : A) : blen (replicate n x) = Z.of_nat n.
Proof. unfold blen. by rewrite length_replicate. Qed.
Lemma blen_fmap {A B} (f : A -> B) l : blen (f <$> l) = blen l.
Proof. unfold blen. by rewrite length_fmap. Qed.

#[export] Hint Rewrite @blen_nil @blen_cons @blen_app @blen_ztake @blen_zdrop
  @blen_replicate @blen_fmap : len.

(** Arithmetic goals that mention buffer lengths. *)
Ltac pose_blen :=
  repeat match goal with
  | |- context [blen ?l] =>
      lazymatch goal with
      | _ : 0 <= blen l |- _ => fail
      | _ => pose proof (blen_nonneg l)
      end
  | _ : context [blen ?l] |- _ =>
      lazymatch goal with
      | _ : 0 <= blen l |- _ => fail
      | _ => pose proof (blen_nonneg l)
      end
  end.
Ltac len := autorewrite with len in *; pose_blen; lia.

Section Slices.
Context {A : Type}.
Implicit Types (l k : list A).

Lemma ztake_app_exact n l k : n = blen l -> ztake n (l ++ k) = l.
Proof. intros ->. unfold ztake, blen. rewrite Nat2Z.id. apply take_app_length. Qed.

Lemma zdrop_app_exact n l k : n = blen l -> zdrop n (l ++ k) = k.
Proof. intros ->. unfold zdrop, blen. rewrite Nat2Z.id. apply drop_app_length. Qed.

Lemma ztake_all n l : blen l <= n -> ztake n l = l.
Proof. unfold ztake, blen. intros. apply take_ge. lia. Qed.

Lemma zdrop_0 l : zdrop 0 l = l.
Proof. done. Qed.

Lemma ztake_zdrop n l : ztake n l ++ zdrop n l = l.
Proof. apply take_drop. Qed.

Lemma zdrop_zdrop n m l : 0 <= n -> 0 <= m -> zdrop n (zdrop m l) = zdrop (m + n) l.
Proof. unfold zdrop. intros. rewrite drop_drop. f_equal. lia. Qed.

Lemma zdrop_app_ge n l k : blen l <= n -> zdrop n (l ++ k) = zdrop (n - blen l) k.
Proof. unfold zdrop, blen. intros. rewrite drop_app_ge by lia. f_equal. lia. Qed.

Lemma slice_app_mid l m k off n :
  off = blen l -> n = blen m -> slice off n (l ++ m ++ k) = Some m.
Proof.
  intros -> ->. unfold slice. autorewrite with len. pose_blen.
  replace (_ && _) with true.
  - by rewrite zdrop_app_exact, ztake_app_exact.
  - symmetry. rewrite !andb_true_iff, !Z.leb_le. lia.
Qed.

Lemma slice_0_app l k n : n = blen l -> slice 0 n (l ++ k) = Some l.
Proof. intros ->. by apply (slice_app_mid []). Qed.

Lemma slice_Some off n l s :
  slice off n l = Some s <->
  0 <= off /\ 0 <= n /\ off + n <= blen l /\ s = ztake n (zdrop off l).
Proof.
  unfold slice. destruct (_ && _) eqn:E.
  - rewrite !andb_true_iff, !Z.leb_le in E. naive_solver.
  - split; [done|]. intros (?&?&?&?).
    rewrite !andb_false_iff, !Z.leb_gt in E. lia.
Qed.
Lemma put_mid l m k d off :
  off = blen l -> blen d = blen m -> put off d (l ++ m ++ k) = Some (l ++ d ++ k).
Proof.
  intros -> Hd. unfold put. autorewrite with len. rewrite Hd. pose_blen.
  replace (_ && _) with true.
  - rewrite ztake_app_exact by done. do 3 f_equal. rewrite zdrop_app_ge by lia.
    apply zdrop_app_exact. lia.
  - symmetry. rewrite !andb_true_iff, !Z.leb_le. lia.
Qed.

Lemma put_app l k d off :
  off = blen l -> blen d <= blen k -> put off d (l ++ k) = Some (l ++ d ++ zdrop (blen d) k).
Proof.
  intros -> Hd. rewrite <-(ztake_zdrop (blen d) k) at 1. apply put_mid; [done|]. len.
Qed.

Lemma put_None off d (buf : list A) : blen buf < off + blen d -> put off d buf = None.
Proof.
  intros H. unfold put. rewrite (proj2 (Z.leb_gt _ _) H). by rewrite andb_false_r.
Qed.

Lemma put_length off d (buf buf' : list A) : put off d buf = Some buf' -> blen buf' = blen buf.
Proof.
  unfold put. case_match eqn:E; [|done]. intros [= <-].
  rewrite andb_true_iff, !Z.leb_le in E. len.
Qed.
End Slices.

(** ** Fixed-width little-endian values *)

Fixpoint le_bytes (n : nat) (v : Z) : bytes :=
  match n with
  | O => []
  | S n => z2b (Z.land v 255) :: le_bytes n (Z.shiftr v 8)
  end.

Fixpoint le_val (l : bytes) : Z :=
  match l with
  | [] => 0
  | b :: l => Z.lor (b2z b) (Z.shiftl (le_val l) 8)
  end.

Lemma lor_shiftl_add a b n :
  0 <= n -> 0 <= a < 2 ^ n -> Z.lor a (Z.shiftl b n) = a + b * 2 ^ n.
Proof.
  intros Hn Ha. rewrite <-Z.shiftl_mul_pow2 by done.
  rewrite <-Z.add_lor_land. enough (Z.land a (Z.shiftl b n) = 0) by lia.
  apply Z.bits_inj'. intros i Hi. rewrite Z.land_spec, Z.bits_0.
  destruct (Z.ltb_spec i n).
  - by rewrite Z.shiftl_spec_low, andb_false_r.
  - rewrite <-(Z.mod_small a (2 ^ n)), Z.mod_pow2_bits_high by lia. done.
Qed.

Lemma log2_lt_pow2_nonneg a n : 0 < n -> 0 <= a < 2 ^ n <-> 0 <= a /\ Z.log2 a < n.
Proof.
  intros Hn. destruct (Z.eq_dec a 0) as [->|]; [simpl; lia|].
  split; intros [? ?]; (split; [done|]); apply Z.log2_lt_pow2; lia.
Qed.

Lemma lxor_range a b n :
  0 < n -> 0 <= a < 2 ^ n -> 0 <= b < 2 ^ n -> 0 <= Z.lxor a b < 2 ^ n.
Proof.
  intros Hn. rewrite !log2_lt_pow2_nonneg by done. intros [? ?] [? ?].
  split; [apply Z.lxor_nonneg; lia|].
  pose proof (Z.log2_lxor a b). lia.
Qed.

Lemma lor_range a b n :
  0 < n -> 0 <= a < 2 ^ n -> 0 <= b < 2 ^ n -> 0 <= Z.lor a b < 2 ^ n.
Proof.
  intros Hn. rewrite !log2_lt_pow2_nonneg by done. intros [? ?] [? ?].
  split; [apply Z.lor_nonneg; lia|].
  rewrite Z.log2_lor by done. lia.
Qed.

Lemma land_255 v : Z.land v 255 = v mod 256.
Proof. apply (Z.land_ones v 8). lia. Qed.

Lemma le_val_cons b l : le_val (b :: l) = b2z b + le_val l * 256.
Proof. simpl. apply lor_shiftl_add; [lia|]. apply b2z_range. Qed.

Lemma length_le_bytes n v : length (le_bytes n v) = n.
Proof. revert v. induction n; intros; simpl; auto. Qed.
Lemma blen_le_bytes n v : blen (le_bytes n v) = Z.of_nat n.
Proof. unfold blen. by rewrite length_le_bytes. Qed.
#[export] Hint Rewrite blen_le_bytes : len.

Lemma le_bytes_S n v : le_bytes (S n) v = z2b v :: le_bytes n (v / 256).
Proof.
  simpl. rewrite Z.shiftr_div_pow2 by lia. f_equal.
  apply b2z_inj. rewrite land_255, !b2z_z2b, Zmod_mod. done.
Qed.

(** Decoding what was encoded is reduction to the width of the field. *)
Lemma le_val_bytes n v : le_val (le_bytes n v) = v mod 256 ^ Z.of_nat n.
Proof.
  revert v. induction n as [|n IH]; intros v; [by rewrite Z.mod_1_r|].
  rewrite le_bytes_S, le_val_cons, IH, b2z_z2b.
  rewrite Nat2Z.inj_succ, Z.pow_succ_r by lia.
  rewrite Z.rem_mul_r by lia. lia.
Qed.

Lemma le_val_range l : 0 <= le_val l < 256 ^ blen l.
Proof.
  induction l as [|b l IH]; [done|].
  rewrite le_val_cons, blen_cons, Z.pow_add_r by len.
  pose proof (b2z_range b). lia.
Qed.

Lemma le_bytes_val l : le_bytes (length l) (le_val l) = l.
Proof.
  induction l as [|b l IH]; [done|].
  rewrite le_val_cons. cbn [length]. rewrite le_bytes_S. f_equal.
  - apply b2z_inj. rewrite b2z_z2b, Z.mod_add by lia. apply Z.mod_small, b2z_range.
  - rewrite Z.div_add, Z.div_small by (apply b2z_range || lia). done.
Qed.

#[global] Arguments le_bytes : simpl never.
#[global] Arguments le_val : simpl never.
#[global] Arguments z2b : simpl never.
#[global] Arguments b2z : simpl never.
#[global] Arguments blen : simpl never.
#[global] Arguments ztake : simpl never.
#[global] Arguments zdrop : simpl never.
#[global] Arguments slice : simpl never.
#[global] Opaque le_bytes le_val.

(** Compute the binds of a decoder without unfolding the buffers. *)
Ltac obind := cbn [mbind option_bind fmap option_fmap option_map].

(** ** Three-way comparison functions

    A C++ comparator returns a negative, zero or positive [int]; here a
    [comparison].  [CmpLaws] says that it is a total preorder. *)

Class CmpLaws {A} (cmp : A -> A -> comparison) : Prop := {
  cmp_opp : forall a b, cmp b a = CompOpp (cmp a b);
  cmp_trans : forall a b c, cmp a b <> Gt -> cmp b c <> Gt -> cmp a c <> Gt
}.

Definition cle {A} (cmp : A -> A -> comparison) (a b : A) : Prop := cmp a b <> Gt.
Definition clt {A} (cmp : A -> A -> comparison) (a b : A) : Prop := cmp a b = Lt.

#[export] Instance comparison_eq_dec : EqDecision comparison.
Proof. solve_decision. Defined.
#[export] Instance cle_dec {A} (cmp : A -> A -> comparison) : RelDecision (cle cmp).
Proof. intros a b. unfold cle. solve_decision. Defined.
#[export] Instance clt_dec {A} (cmp : A -> A -> comparison) : RelDecision (clt cmp).
Proof. intros a b. unfold clt. solve_decision. Defined.

Section Cmp.
Context {A : Type} (cmp : A -> A -> comparison) `{!CmpLaws cmp}.

#[export] Instance cle_preorder : PreOrder (cle cmp).
Proof.
  split; [|intros a b c; apply cmp_trans].
  intros a E. pose proof (cmp_opp (cmp:=cmp) a a) as H. rewrite E in H. done.
Qed.

#[export] Instance cle_total : Total (cle cmp).
Proof.
  intros a b. unfold cle. rewrite (cmp_opp (cmp:=cmp) a b). destruct (cmp a b); simpl; auto.
Qed.

Lemma cle_refl a : cle cmp a a.
Proof. reflexivity. Qed.
Lemma cmp_refl a : cmp a a = Eq.
Proof.
  pose proof (cmp_opp (cmp:=cmp) a a). pose proof (cle_refl a).
  unfold cle in *. by destruct (cmp a a).
Qed.
Lemma clt_nle a b : clt cmp a b <-> ~ cle cmp b a.
Proof. unfold clt, cle. rewrite (cmp_opp (cmp:=cmp) a b). destruct (cmp a b); simpl; naive_solver. Qed.
Lemma nclt_le a b : ~ clt cmp a b <-> cle cmp b a.
Proof. unfold clt, cle. rewrite (cmp_opp (cmp:=cmp) a b). destruct (cmp a b); simpl; naive_solver. Qed.
Lemma clt_le a b : clt cmp a b -> cle cmp a b.
Proof. unfold clt, cle. by intros ->. Qed.
Lemma cmp_eq_le a b : cmp a b = Eq <-> cle cmp a b /\ cle cmp b a.
Proof. unfold cle. rewrite (cmp_opp (cmp:=cmp) a b). destruct (cmp a b); simpl; naive_solver. Qed.
Lemma cmp_gt_lt a b : cmp a b = Gt <-> clt cmp b a.
Proof. unfold clt. rewrite (cmp_opp (cmp:=cmp) a b). destruct (cmp a b); simpl; naive_solver. Qed.
Lemma clt_le_trans a b c : clt cmp a b -> cle cmp b c -> clt cmp a c.
Proof. rewrite !clt_nle. intros H1 H2 H3. apply H1. by trans c. Qed.
Lemma cle_lt_trans a b c : cle cmp a b -> clt cmp b c -> clt cmp a c.
Proof. rewrite !clt_nle. intros H1 H2 H3. apply H2. by trans a. Qed.
Lemma clt_trans a b c : clt cmp a b -> clt cmp b c -> clt cmp a c.
Proof. intros H1 H2. eapply clt_le_trans; [done|]. by apply clt_le. Qed.
Lemma clt_irrefl a : ~ clt cmp a a.
Proof. unfold clt. by rewrite cmp_refl. Qed.
Lemma cmp_eq_l a b c : cmp a b = Eq -> cmp a c = cmp b c.
Proof.
  rewrite cmp_eq_le. intros [H1 H2].
  destruct (cmp b c) eqn:E.
  - apply cmp_eq_le in E as [? ?]. apply cmp_eq_le. split; by trans b.
  - by apply (cle_lt_trans a b c).
  - apply cmp_gt_lt in E. apply cmp_gt_lt. by apply (clt_le_trans c b a).
Qed.
End Cmp.

Lemma Z_cmp_laws : CmpLaws Z.compare.
Proof.
  split; [intros a b; apply Z.compare_antisym|]. intros a b c. rewrite !Z.compare_le_iff. lia.
Qed.
#[export] Existing Instance Z_cmp_laws.

(** Lexicographic combination, and pulling an order back along a function. *)
Definition cmp_lex (c d : comparison) : comparison := match c with Eq => d | _ => c end.

Lemma cmp_lex_laws {A B C} (f : A -> B) (g : A -> C) cmpB cmpC :
  CmpLaws cmpB -> CmpLaws cmpC ->
  CmpLaws (fun a b => cmp_lex (cmpB (f a) (f b)) (cmpC (g a) (g b))).
Proof.
  intros HB HC. split.
  - intros a b. rewrite (cmp_opp (cmp:=cmpB) (f a)), (cmp_opp (cmp:=cmpC) (g a)).
    by destruct (cmpB (f a) (f b)).
  - intros a b c. destruct (cmpB (f a) (f b)) eqn:E1; simpl; [|intros _|done].
    + rewrite <-(cmp_eq_l cmpB _ _ (f c) E1).
      destruct (cmpB (f a) (f c)); simpl; [|done..]. apply cmp_trans.
    + intros H. assert (Hle : cle cmpB (f b) (f c)).
      { unfold cle. by destruct (cmpB (f b) (f c)). }
      by rewrite (clt_le_trans cmpB _ _ _ E1 Hle).
Qed.

Lemma cmp_flip_laws {A} (cmp : A -> A -> comparison) : CmpLaws cmp -> CmpLaws (flip cmp).
Proof.
  intros H. split; unfold flip; [intros a b; apply (cmp_opp (cmp:=cmp))|].
  intros a b c H1 H2. by apply (cmp_trans (cmp:=cmp) c b a).
Qed.
(** ** Sorted and filtered lists *)

Lemma filter_all {A} (P : A -> Prop) `{!forall x, Decision (P x)} (l : list A) :
  (forall x, x ∈ l -> P x) -> filter P l = l.
Proof.
  induction l as [|a l IH]; intros Hl; [done|]. rewrite filter_cons_True by (apply Hl; by left).
  f_equal. apply IH. intros x Hx. apply Hl. by right.
Qed.

Lemma StronglySorted_head {A} (R : A -> A -> Prop) l a x :
  StronglySorted R l -> head l = Some a -> x ∈ l -> x = a \/ R a x.
Proof.
  intros Hs Ha Hx. destruct l as [|y l]; [done|]. injection Ha as ->. inversion Hs as [|? ? _ Hf]; subst.
  apply elem_of_cons in Hx as [->|Hx]; [by left|]. right. by eapply Forall_forall in Hf.
Qed.

Lemma StronglySorted_last {A} (R : A -> A -> Prop) l a x :
  StronglySorted R l -> last l = Some a -> x ∈ l -> x = a \/ R x a.
Proof.
  intros Hs [l' ->]%last_Some Hx. apply elem_of_app in Hx as [Hx|Hx%list_elem_of_singleton]; [right|by left].
  clear -Hs Hx. induction l' as [|y l' IH]; [by apply elem_of_nil in Hx|]. simpl in Hs.
  inversion Hs as [|? ? Hs' Hf]; subst. apply elem_of_cons in Hx as [->|Hx]; [|by apply IH].
  rewrite Forall_app in Hf. destruct Hf as [_ Hf]. by inversion Hf.
Qed.

Lemma StronglySorted_sublist {A} (R : A -> A -> Prop) l k : l `sublist_of` k -> StronglySorted R k -> StronglySorted R l.
Proof.
  induction 1 as [|x l k Hlk IH|x l k Hlk IH]; intros Hs; [done|..]; apply StronglySorted_inv in Hs as [Hs Hf]; [|by apply IH].
  constructor; [by apply IH|]. rewrite Forall_forall in Hf |- *. intros y Hy. eapply Hf, elem_of_sublist; done.
Qed.

Lemma StronglySorted_filter {A} (R : A -> A -> Prop) (P : A -> Prop) `{!forall x, Decision (P x)} l :
  StronglySorted R l -> StronglySorted R (filter P l).
Proof.
  induction 1 as [|a l Hs IH Hf]; [constructor|]. rewrite filter_cons. case_decide; [|done].
  constructor; [done|]. apply Forall_forall. intros x [_ Hx]%list_elem_of_filter. by eapply Forall_forall in Hf.
Qed.

Lemma StronglySorted_weaken {A} (R R' : A -> A -> Prop) l :
  (forall a b, R a b -> R' a b) -> StronglySorted R l -> StronglySorted R' l.
Proof.
  intros HR. induction 1 as [|a l Hs IH Hf]; constructor; [done|]. eapply Forall_impl; [exact Hf|]. apply HR.
Qed.

Lemma StronglySorted_lookup {A} (R : A -> A -> Prop) l i j a b :
  StronglySorted R l -> (i < j)%nat -> l !! i = Some a -> l !! j = Some b -> R a b.
Proof.
  intros Hs Hij Ha Hb. rewrite <-(take_drop j l) in Hs.
  apply (StronglySorted_app_1_elem_of _ _ _ a b Hs).
  - apply elem_of_take. eauto.
  - apply list_elem_of_lookup. exists 0%nat. rewrite lookup_drop, <-Hb. f_equal. lia.
Qed.

Lemma NoDup_fmap_inj_on {A B} (f : A -> B) l x y :
  NoDup (f <$> l) -> x ∈ l -> y ∈ l -> f x = f y -> x = y.
Proof.
  intros Hn [i Hi]%list_elem_of_lookup [j Hj]%list_elem_of_lookup E.
  assert (i = j); [|congruence].
  apply (NoDup_lookup (f <$> l) i j (f x) Hn); rewrite list_lookup_fmap, ?Hi, ?Hj; simpl; congruence.
Qed.

Lemma StronglySorted_trichotomy {A} (R : A -> A -> Prop) l a b :
  StronglySorted R l -> a ∈ l -> b ∈ l -> a = b \/ R a b \/ R b a.
Proof.
  intros Hs [i Ha]%list_elem_of_lookup [j Hb]%list_elem_of_lookup.
  destruct (Nat.lt_trichotomy i j) as [Hij|[->|Hij]].
  - right; left. by eapply StronglySorted_lookup.
  - left. congruence.
  - right; right. by eapply StronglySorted_lookup.
Qed.

#[global] Arguments put : simpl never.
