(* ===== verification/Coding.v ===== *)
(** * Coding: byte-level encodings of RocksDB used by every on-storage format

    [util/coding.h], [util/coding.cc] and [util/coding_lean.h]: fixed-width
    little-endian integers, varints and length-prefixed slices.  A [Put]
    function appends to a byte string; a [Get] function consumes a prefix of
    its input and returns the value with the remaining input, [None] when the
    C++ function returns [false] (or [nullptr]).  The host is little-endian
    ([port::kLittleEndian]). *)

From S2P Require Import Prelude.

(** ** Fixed-width integers *)

(** [DecodeFixed8], util/coding_lean.h:66-71.  The decoders read at an offset
    of a buffer without a bounds check: [None] is an access outside of it. *)
Definition DecodeFixed8 (data : bytes) (off : Z) : option Z := le_val <$> slice off 1 data.

(** [DecodeFixed32], util/coding_lean.h:85-97 *)
Definition DecodeFixed32 (data : bytes) (off : Z) : option Z := le_val <$> slice off 4 data.

(** [DecodeFixed64], util/coding_lean.h:99-110 *)
Definition DecodeFixed64 (data : bytes) (off : Z) : option Z := le_val <$> slice off 8 data.

(** [EncodeFixed8], util/coding_lean.h:24-26 *)
Definition EncodeFixed8 (v : Z) : bytes := le_bytes 1 v.

(** [EncodeFixed32], util/coding_lean.h:37-46 *)
Definition EncodeFixed32 (v : Z) : bytes := le_bytes 4 v.

(** [EncodeFixed64], util/coding_lean.h:48-61 *)
Definition EncodeFixed64 (v : Z) : bytes := le_bytes 8 v.

(** [PutFixed8], util/coding.h:122-125 *)
Definition PutFixed8 (dst : bytes) (v : Z) : bytes := dst ++ EncodeFixed8 v.

(** [PutFixed32], util/coding.h:139-148 *)
Definition PutFixed32 (dst : bytes) (v : Z) : bytes := dst ++ EncodeFixed32 v.

(** [PutFixed64], util/coding.h:150-159 *)
Definition PutFixed64 (dst : bytes) (v : Z) : bytes := dst ++ EncodeFixed64 v.

(** [GetFixed8], util/coding.h:293-300 *)
Definition GetFixed8 (input : bytes) : option (Z * bytes) :=
  if blen input <? 1 then None
  else v ← DecodeFixed8 input 0; Some (v, zdrop 1 input).

(** [GetFixed32], util/coding.h:275-282 *)
Definition GetFixed32 (input : bytes) : option (Z * bytes) :=
  if blen input <? 4 then None
  else v ← DecodeFixed32 input 0; Some (v, zdrop 4 input).

(** [GetFixed64], util/coding.h:266-273 *)
Definition GetFixed64 (input : bytes) : option (Z * bytes) :=
  if blen input <? 8 then None
  else v ← DecodeFixed64 input 0; Some (v, zdrop 8 input).

(** ** Varints *)

(** [EncodeVarint32], util/coding.cc:24-50.  The stores through
    [unsigned char*] truncate to a byte, which [z2b] does. *)
Definition EncodeVarint32 (v : Z) : bytes :=
  let B := 128 in
  if v <? Z.shiftl 1 7 then [z2b v]
  else if v <? Z.shiftl 1 14 then [z2b (Z.lor v B); z2b (Z.shiftr v 7)]
  else if v <? Z.shiftl 1 21 then
    [z2b (Z.lor v B); z2b (Z.lor (Z.shiftr v 7) B); z2b (Z.shiftr v 14)]
  else if v <? Z.shiftl 1 28 then
    [z2b (Z.lor v B); z2b (Z.lor (Z.shiftr v 7) B); z2b (Z.lor (Z.shiftr v 14) B);
     z2b (Z.shiftr v 21)]
  else
    [z2b (Z.lor v B); z2b (Z.lor (Z.shiftr v 7) B); z2b (Z.lor (Z.shiftr v 14) B);
     z2b (Z.lor (Z.shiftr v 21) B); z2b (Z.shiftr v 28)].

(** The [while (v >= B)] loop of [EncodeVarint64]; each round shifts [v] right
    by seven bits, so nine rounds before the last byte are enough for 64 bits. *)
Fixpoint EncodeVarint64_loop (fuel : nat) (v : Z) : bytes :=
  match fuel with
  | O => [z2b v]
  | S fuel =>
      if 128 <=? v
      then z2b (Z.lor (Z.land v 127) 128) :: EncodeVarint64_loop fuel (Z.shiftr v 7)
      else [z2b v]
  end.

(** [EncodeVarint64], util/coding.h:183-192 *)
Definition EncodeVarint64 (v : Z) : bytes := EncodeVarint64_loop 9 v.

(** [PutVarint32], util/coding.h:161-165 *)
Definition PutVarint32 (dst : bytes) (v : Z) : bytes := dst ++ EncodeVarint32 (u32 v).

(** [PutVarint64], util/coding.h:194-198 *)
Definition PutVarint64 (dst : bytes) (v : Z) : bytes := dst ++ EncodeVarint64 (u64 v).

(** The [while (v >= 128)] loop of [VarintLength]. *)
Fixpoint VarintLength_loop (fuel : nat) (v len : Z) : Z :=
  match fuel with
  | O => len
  | S fuel => if 128 <=? v then VarintLength_loop fuel (Z.shiftr v 7) (len + 1) else len
  end.

(** [VarintLength], util/coding.h:257-264 *)
Definition VarintLength (v : Z) : Z := VarintLength_loop 9 v 1.

(** The loop shared by the two decoders: [wrap] is the width of [result] and
    [last] the largest shift.  The input is the bytes from [p] to [limit]. *)
Fixpoint GetVarint_loop (wrap : Z -> Z) (last shift result : Z) (l : bytes) : option (Z * bytes) :=
  match l with
  | [] => None
  | b :: l =>
      if shift <=? last then
        let byte := b2z b in
        if Z.land byte 128 =? 0
        then Some (Z.lor result (wrap (Z.shiftl byte shift)), l)
        else GetVarint_loop wrap last (shift + 7)
               (Z.lor result (wrap (Z.shiftl (Z.land byte 127) shift))) l
      else None
  end.

(** [GetVarint32PtrFallback], util/coding.cc:55-71 *)
Definition GetVarint32PtrFallback (l : bytes) : option (Z * bytes) :=
  GetVarint_loop u32 28 0 0 l.

(** [GetVarint32Ptr], util/coding.h:110-120 *)
Definition GetVarint32Ptr (l : bytes) : option (Z * bytes) :=
  match l with
  | b :: l' => if Z.land (b2z b) 128 =? 0 then Some (b2z b, l') else GetVarint32PtrFallback l
  | [] => GetVarint32PtrFallback l
  end.

(** [GetVarint64Ptr], util/coding.cc:73-88 *)
Definition GetVarint64Ptr (l : bytes) : option (Z * bytes) := GetVarint_loop u64 63 0 0 l.

(** [GetVarint32], util/coding.h:302-312 *)
Definition GetVarint32 (input : bytes) : option (Z * bytes) := GetVarint32Ptr input.

(** [GetVarint64], util/coding.h:314-324 *)
Definition GetVarint64 (input : bytes) : option (Z * bytes) := GetVarint64Ptr input.

(** [PutLengthPrefixedSlice], util/coding.h:230-233 *)
Definition PutLengthPrefixedSlice (dst value : bytes) : bytes :=
  PutVarint32 dst (u32 (blen value)) ++ value.

(** [GetLengthPrefixedSlice], util/coding.h:338-347 *)
Definition GetLengthPrefixedSlice (input : bytes) : option (bytes * bytes) :=
  '(n, rest) ← GetVarint32 input;
  if n <=? blen rest then Some (ztake n rest, zdrop n rest) else None.

#[global] Arguments EncodeFixed8 : simpl never.
#[global] Arguments EncodeFixed32 : simpl never.
#[global] Arguments EncodeFixed64 : simpl never.

(** ** Fixed-width round trips *)

Section Fixed.
Lemma DecodeFixed_at n pre post v off :
  off = blen pre ->
  le_val <$> slice off (Z.of_nat n) (pre ++ le_bytes n v ++ post) = Some (v mod 256 ^ Z.of_nat n).
Proof.
  intros ->. rewrite slice_app_mid by (autorewrite with len; done).
  simpl. by rewrite le_val_bytes.
Qed.

Lemma DecodeFixed64_at pre post v off :
  is_u64 v -> off = blen pre -> DecodeFixed64 (pre ++ EncodeFixed64 v ++ post) off = Some v.
Proof. intros. unfold DecodeFixed64, EncodeFixed64. rewrite (DecodeFixed_at 8) by done.
  by rewrite Z.mod_small. Qed.
Lemma DecodeFixed32_at pre post v off :
  is_u32 v -> off = blen pre -> DecodeFixed32 (pre ++ EncodeFixed32 v ++ post) off = Some v.
Proof. intros. unfold DecodeFixed32, EncodeFixed32. rewrite (DecodeFixed_at 4) by done.
  by rewrite Z.mod_small. Qed.
Lemma DecodeFixed8_at pre post v off :
  is_u8 v -> off = blen pre -> DecodeFixed8 (pre ++ EncodeFixed8 v ++ post) off = Some v.
Proof. intros. unfold DecodeFixed8, EncodeFixed8. rewrite (DecodeFixed_at 1) by done.
  by rewrite Z.mod_small. Qed.

Lemma GetFixed64_Put v rest : is_u64 v -> GetFixed64 (EncodeFixed64 v ++ rest) = Some (v, rest).
Proof.
  intros Hv. unfold GetFixed64. rewrite (proj2 (Z.ltb_ge _ _)) by (unfold EncodeFixed64; len).
  pose proof (DecodeFixed64_at [] rest v 0 Hv eq_refl) as E.
  rewrite app_nil_l in E. rewrite E. obind.
  by rewrite zdrop_app_exact by (unfold EncodeFixed64; by autorewrite with len).
Qed.
Lemma GetFixed8_Put v rest : is_u8 v -> GetFixed8 (EncodeFixed8 v ++ rest) = Some (v, rest).
Proof.
  intros Hv. unfold GetFixed8. rewrite (proj2 (Z.ltb_ge _ _)) by (unfold EncodeFixed8; len).
  pose proof (DecodeFixed8_at [] rest v 0 Hv eq_refl) as E.
  rewrite app_nil_l in E. rewrite E. obind.
  by rewrite zdrop_app_exact by (unfold EncodeFixed8; by autorewrite with len).
Qed.
End Fixed.

Lemma blen_EncodeFixed8 v : blen (EncodeFixed8 v) = 1.
Proof. apply blen_le_bytes. Qed.
Lemma blen_EncodeFixed32 v : blen (EncodeFixed32 v) = 4.
Proof. apply blen_le_bytes. Qed.
Lemma blen_EncodeFixed64 v : blen (EncodeFixed64 v) = 8.
Proof. apply blen_le_bytes. Qed.
#[export] Hint Rewrite blen_EncodeFixed8 blen_EncodeFixed32 blen_EncodeFixed64 : len.

(** ** Varint round trips *)

Lemma z2b_mod a b : a mod 256 = b mod 256 -> z2b a = z2b b.
Proof. intros H. apply b2z_inj. by rewrite !b2z_z2b. Qed.

(** The continuation byte of the unrolled encoder is that of the loop. *)
Lemma z2b_continuation v : z2b (Z.lor v 128) = z2b (Z.lor (Z.land v 127) 128).
Proof.
  apply z2b_mod. rewrite <-!(Z.land_ones _ 8) by lia.
  apply Z.bits_inj'. intros i Hi. rewrite !Z.land_spec, !Z.lor_spec, Z.land_spec.
  destruct (Z.ltb_spec i 8).
  - assert (i = 0 \/ i = 1 \/ i = 2 \/ i = 3 \/ i = 4 \/ i = 5 \/ i = 6 \/ i = 7) by lia.
    destruct_or!; subst i; by destruct (Z.testbit v _).
  - by rewrite Z.ones_spec_high, !andb_false_r by lia.
Qed.

Lemma land_127 v : Z.land v 127 = v mod 128.
Proof. apply (Z.land_ones v 7). lia. Qed.

Lemma b2z_continuation v :
  b2z (z2b (Z.lor (Z.land v 127) 128)) = v mod 128 + 128.
Proof.
  pose proof (Z.mod_pos_bound v 128 ltac:(lia)). rewrite b2z_z2b, land_127.
  change 128 with (Z.shiftl 1 7) at 2. rewrite lor_shiftl_add by lia.
  rewrite Z.mod_small by lia. lia.
Qed.

Lemma land_128_high x : 0 <= x < 128 -> Z.land x 128 = 0.
Proof.
  intros Hx. apply Z.bits_inj'. intros i Hi. rewrite Z.land_spec, Z.bits_0.
  destruct (Z.eqb_spec i 7) as [->|].
  - rewrite <-(Z.mod_small x (2 ^ 7)), Z.mod_pow2_bits_high by lia. done.
  - change 128 with (2 ^ 7). by rewrite Z.pow2_bits_false, andb_false_r by lia.
Qed.

Lemma land_128_cont x : 0 <= x < 128 -> (Z.land (x + 128) 128 =? 0) = false.
Proof.
  intros Hx. apply Z.eqb_neq. intros E. apply (f_equal (fun z => Z.testbit z 7)) in E.
  change (x + 128) with (x + 1 * 2 ^ 7) in E. rewrite <-lor_shiftl_add in E by lia.
  rewrite Z.land_spec, Z.lor_spec, Z.shiftl_spec in E by lia. simpl in E.
  by rewrite orb_true_r in E.
Qed.

Lemma land_127_cont x : 0 <= x < 128 -> Z.land (x + 128) 127 = x.
Proof.
  intros Hx. rewrite land_127.
  rewrite <-(Z.mul_1_l 128) at 1. by rewrite Z.mod_add, Z.mod_small by lia.
Qed.

(** The decoding loop, for a word of [W] bits with the shifts [0, 7, .., last]. *)
Section Varint.
Context (W last : Z).
Hypothesis HW : 7 < W.
Hypothesis Hlast : forall s, (7 | s) -> s < W -> s <= last.

Let wrap (z : Z) : Z := z mod 2 ^ W.

Lemma GetVarint_loop_last v shift result rest :
  0 <= v < 128 -> 0 <= shift <= last -> 0 <= result < 2 ^ shift -> v * 2 ^ shift < 2 ^ W ->
  GetVarint_loop wrap last shift result ([z2b v] ++ rest) = Some (result + v * 2 ^ shift, rest).
Proof.
  intros Hv Hs Hr Hw. simpl. rewrite (proj2 (Z.leb_le _ _)) by lia.
  rewrite b2z_z2b, Z.mod_small, land_128_high by lia. simpl.
  unfold wrap. rewrite Z.mod_small by (rewrite Z.shiftl_mul_pow2 by lia; nia).
  by rewrite lor_shiftl_add by lia.
Qed.

Lemma GetVarint_loop_more v shift result rest :
  0 <= v -> 0 <= shift <= last -> 0 <= result < 2 ^ shift -> shift + 7 <= W ->
  GetVarint_loop wrap last shift result (z2b (Z.lor (Z.land v 127) 128) :: rest)
  = GetVarint_loop wrap last (shift + 7) (result + v mod 128 * 2 ^ shift) rest.
Proof.
  intros Hv Hs Hr Hw. simpl. rewrite (proj2 (Z.leb_le _ _)) by lia.
  pose proof (Z.mod_pos_bound v 128 ltac:(lia)).
  rewrite b2z_continuation, land_128_cont, land_127_cont by lia.
  assert (2 ^ (shift + 7) <= 2 ^ W) by (apply Z.pow_le_mono_r; lia).
  rewrite Z.pow_add_r in * by lia. unfold wrap at 2.
  rewrite Z.mod_small by (rewrite Z.shiftl_mul_pow2 by lia; nia).
  by rewrite lor_shiftl_add by lia.
Qed.

Lemma GetVarint_loop_encode fuel v shift result rest :
  0 <= v < 2 ^ (7 * Z.of_nat (S fuel)) -> (7 | shift) -> 0 <= shift <= last ->
  0 <= result < 2 ^ shift -> v * 2 ^ shift < 2 ^ W ->
  GetVarint_loop wrap last shift result (EncodeVarint64_loop fuel v ++ rest)
  = Some (result + v * 2 ^ shift, rest).
Proof.
  revert v shift result. induction fuel as [|fuel IH]; intros v shift result Hv Hd Hs Hr Hw.
  { apply GetVarint_loop_last; simpl in *; lia. }
  cbn [EncodeVarint64_loop]. destruct (Z.leb_spec 128 v).
  2: { apply GetVarint_loop_last; lia. }
  rewrite Z.shiftr_div_pow2 by lia. change (2 ^ 7) with 128.
  assert (Hp : 2 ^ (shift + 7) = 2 ^ shift * 128) by (rewrite Z.pow_add_r by lia; done).
  assert (shift + 7 < W) by (apply (Z.pow_lt_mono_r_iff 2); [lia..|]; rewrite Hp; nia).
  pose proof (Z.mod_pos_bound v 128 ltac:(lia)). pose proof (Z.div_mod v 128 ltac:(lia)).
  assert (Hd' : (7 | shift + 7)) by (apply Z.divide_add_r; [done|by exists 1]).
  cbn [app]. rewrite GetVarint_loop_more by lia. rewrite IH; try done.
  - f_equal. f_equal. rewrite Hp. nia.
  - split; [nia|]. apply Z.div_lt_upper_bound; [lia|].
    replace (7 * Z.of_nat (S (S fuel))) with (7 + 7 * Z.of_nat (S fuel)) in Hv by lia.
    rewrite Z.pow_add_r in Hv by lia. lia.
  - split; [lia|]. by apply Hlast.
  - rewrite Hp. nia.
  - rewrite Hp. nia.
Qed.

(** Decoding consumes at least one byte, and its result is a [W]-bit word. *)
Lemma GetVarint_loop_consumes l shift result v rest :
  0 <= shift -> 0 <= result < 2 ^ W ->
  GetVarint_loop wrap last shift result l = Some (v, rest) ->
  0 <= v < 2 ^ W /\ exists pre, l = pre ++ rest /\ 1 <= blen pre <= (last - shift) / 7 + 1.
Proof.
  revert shift result. induction l as [|b l IH]; intros shift result Hs Hr; simpl; [done|].
  destruct (Z.leb_spec shift last); [|done].
  assert (Hbits : forall x y, 0 <= x < 2 ^ W -> 0 <= y < 2 ^ W -> 0 <= Z.lor x y < 2 ^ W)
    by (intros; apply lor_range; lia).
  assert (Hwr : forall z, 0 <= wrap z < 2 ^ W) by (intros; apply Z.mod_pos_bound; lia).
  case_match.
  - intros [= <- <-]. split; [by apply Hbits|]. exists [b]. split; [done|].
    assert (0 <= (last - shift) / 7) by (apply Z.div_pos; lia). len.
  - intros Hl. apply IH in Hl as (?&pre&->&Hpre); [|lia|by apply Hbits].
    split; [done|]. exists (b :: pre). split; [done|].
    replace (last - shift) with (last - (shift + 7) + 1 * 7) by lia.
    rewrite Z.div_add by lia. len.
Qed.
End Varint.

Lemma GetVarint64_Encode v rest :
  is_u64 v -> GetVarint64 (EncodeVarint64 v ++ rest) = Some (v, rest).
Proof.
  intros Hv. unfold GetVarint64, GetVarint64Ptr, EncodeVarint64.
  rewrite (GetVarint_loop_encode 64 63); [by rewrite Z.mul_1_r|..]; try done.
  - intros s [k ->]. lia.
  - change (2 ^ _) with (2 ^ 70). word.
  - by exists 0.
  - word.
Qed.

Lemma EncodeVarint64_loop_more fuel v :
  128 <= v ->
  EncodeVarint64_loop (S fuel) v = z2b (Z.lor v 128) :: EncodeVarint64_loop fuel (Z.shiftr v 7).
Proof. intros H. simpl. rewrite (proj2 (Z.leb_le _ _) H). by rewrite (z2b_continuation v). Qed.

Lemma EncodeVarint64_loop_last fuel v : v < 128 -> EncodeVarint64_loop fuel v = [z2b v].
Proof. intros H. destruct fuel; simpl; [done|]. by rewrite (proj2 (Z.leb_gt _ _) H). Qed.

Lemma shiftr_bounds v n a b :
  0 <= n -> a * 2 ^ n <= v < b * 2 ^ n -> a <= Z.shiftr v n < b.
Proof.
  intros Hn H. rewrite Z.shiftr_div_pow2 by lia. split.
  - apply Z.div_le_lower_bound; lia.
  - apply Z.div_lt_upper_bound; lia.
Qed.

(** The unrolled 32-bit encoder computes the bytes of the 64-bit loop. *)
Lemma EncodeVarint32_loop v : is_u32 v -> EncodeVarint32 v = EncodeVarint64 v.
Proof.
  intros Hv. unfold EncodeVarint32, EncodeVarint64. rewrite !Z.shiftl_1_l.
  repeat (case_match; rewrite ?Z.ltb_lt, ?Z.ltb_ge in * ).
  all: repeat (rewrite EncodeVarint64_loop_more, ?Z.shiftr_shiftr by
    (try lia; eapply (shiftr_bounds _ _ 128 (2 ^ 64)); word)).
  all: rewrite EncodeVarint64_loop_last; [done|].
  all: try lia; eapply (shiftr_bounds _ _ 0 128); word.
Qed.

Lemma GetVarint32_Encode v rest :
  is_u32 v -> GetVarint32 (EncodeVarint32 v ++ rest) = Some (v, rest).
Proof.
  intros Hv. rewrite EncodeVarint32_loop by done.
  enough (Hf : GetVarint32PtrFallback (EncodeVarint64 v ++ rest) = Some (v, rest)).
  { unfold GetVarint32, GetVarint32Ptr. destruct (_ ++ _) as [|b l] eqn:E; [done|].
    destruct (Z.land (b2z b) 128 =? 0) eqn:Hb; [|done].
    unfold GetVarint32PtrFallback in Hf. cbn [GetVarint_loop] in Hf. rewrite Hb in Hf.
    pose proof (b2z_range b). simpl in Hf. rewrite Z.shiftl_0_r, u32_small in Hf by word. done. }
  unfold GetVarint32PtrFallback, EncodeVarint64.
  rewrite (GetVarint_loop_encode 32 28); [by rewrite Z.mul_1_r|..]; try done.
  - intros s [k ->]. lia.
  - change (2 ^ _) with (2 ^ 70). word.
  - by exists 0.
  - word.
Qed.

Lemma VarintLength_loop_add fuel v n : VarintLength_loop fuel v n = n - 1 + VarintLength_loop fuel v 1.
Proof.
  revert v n. induction fuel as [|fuel IH]; intros v n; simpl; [lia|].
  case_match; [|lia]. rewrite (IH _ (n + 1)), (IH _ 2). lia.
Qed.

Lemma blen_EncodeVarint64 v : blen (EncodeVarint64 v) = VarintLength v.
Proof.
  unfold EncodeVarint64, VarintLength. generalize 9%nat as fuel. intros fuel.
  revert v. induction fuel as [|fuel IH]; intros v; simpl; [done|].
  case_match; [|done]. rewrite blen_cons, IH, (VarintLength_loop_add _ _ 2). lia.
Qed.

Lemma VarintLength_loop_bound fuel v : 1 <= VarintLength_loop fuel v 1 <= 1 + Z.of_nat fuel.
Proof.
  revert v. induction fuel as [|fuel IH]; intros v; simpl; [lia|].
  case_match; [|lia]. rewrite VarintLength_loop_add. specialize (IH (Z.shiftr v 7)). lia.
Qed.

Lemma VarintLength_bound v : 1 <= VarintLength v <= 10.
Proof. apply (VarintLength_loop_bound 9). Qed.

Lemma blen_EncodeVarint32_bound v : 1 <= blen (EncodeVarint32 v) <= 5.
Proof. unfold EncodeVarint32. repeat case_match; by vm_compute. Qed.

Lemma GetLengthPrefixedSlice_Put value rest :
  is_u32 (blen value) ->
  GetLengthPrefixedSlice (PutLengthPrefixedSlice [] value ++ rest) = Some (value, rest).
Proof.
  intros Hv. unfold GetLengthPrefixedSlice, PutLengthPrefixedSlice, PutVarint32.
  rewrite !(u32_small (blen value)), app_nil_l, <-app_assoc by done.
  rewrite GetVarint32_Encode by done. obind.
  rewrite (proj2 (Z.leb_le _ _)) by len. by rewrite ztake_app_exact, zdrop_app_exact.
Qed.

(** Appending to a buffer that already holds data. *)
Lemma PutFixed8_app dst v : PutFixed8 dst v = dst ++ EncodeFixed8 v.
Proof. done. Qed.
Lemma PutVarint32_app dst v : PutVarint32 dst v = dst ++ PutVarint32 [] v.
Proof. done. Qed.
Lemma PutVarint64_app dst v : PutVarint64 dst v = dst ++ PutVarint64 [] v.
Proof. done. Qed.
Lemma PutLengthPrefixedSlice_app dst v :
  PutLengthPrefixedSlice dst v = dst ++ PutLengthPrefixedSlice [] v.
Proof. unfold PutLengthPrefixedSlice. rewrite PutVarint32_app. by rewrite <-app_assoc. Qed.

Lemma GetVarint32_consumes l v rest :
  GetVarint32 l = Some (v, rest) ->
  is_u32 v /\ exists pre, l = pre ++ rest /\ 1 <= blen pre <= 5.
Proof.
  intros H. assert (H' : GetVarint32PtrFallback l = Some (v, rest)).
  { unfold GetVarint32, GetVarint32Ptr in H. destruct l as [|b l]; [done|].
    destruct (Z.land (b2z b) 128 =? 0) eqn:Hb; [|done].
    unfold GetVarint32PtrFallback. cbn [GetVarint_loop]. rewrite Hb.
    pose proof (b2z_range b). simpl. rewrite Z.shiftl_0_r, u32_small by word. done. }
  apply (GetVarint_loop_consumes 32 28) in H'; [done|lia..].
Qed.

Lemma GetVarint64_consumes l v rest :
  GetVarint64 l = Some (v, rest) ->
  is_u64 v /\ exists pre, l = pre ++ rest /\ 1 <= blen pre <= 10.
Proof. intros H. apply (GetVarint_loop_consumes 64 63) in H; [done|lia..]. Qed.

(** ** Properties *)

(** For every 32-bit value the unrolled [EncodeVarint32] writes the bytes
    of the loop of [EncodeVarint64], [VarintLength] of them and never more than
    the five of the stack buffer, and both decoders read the value back and
    leave exactly the bytes that follow it. *)
Theorem varint32_roundtrip v rest :
  is_u32 v ->
  EncodeVarint32 v = EncodeVarint64 v /\
  blen (EncodeVarint32 v) = VarintLength v /\ VarintLength v <= 5 /\
  GetVarint32 (EncodeVarint32 v ++ rest) = Some (v, rest) /\
  GetVarint64 (EncodeVarint32 v ++ rest) = Some (v, rest).
Proof.
  intros Hv. pose proof (EncodeVarint32_loop v Hv) as E.
  pose proof (blen_EncodeVarint32_bound v). rewrite <-blen_EncodeVarint64, <-E.
  rewrite GetVarint32_Encode, E, GetVarint64_Encode by word. rewrite <-E. split_and!; done || lia.
Qed.

Lemma varint32_roundtrip_witness :
  GetVarint32 (EncodeVarint32 300 ++ [x07]) = Some (300, [x07]).
Proof. apply (varint32_roundtrip 300 [x07]). vm_compute. by split. Defined.

(** A length-prefixed slice shorter than 4 GiB, appended to any buffer, is
    read back with exactly the bytes after it; and whatever bytes
    [GetLengthPrefixedSlice] accepts, the slice and the rest are disjoint parts
    of the input behind a varint prefix, so it never reads past the end. *)
Theorem length_prefixed_roundtrip value rest :
  (is_u32 (blen value) ->
   GetLengthPrefixedSlice (PutLengthPrefixedSlice [] value ++ rest) = Some (value, rest)) /\
  (forall input s r, GetLengthPrefixedSlice input = Some (s, r) ->
   exists pre, input = pre ++ s ++ r /\ 1 <= blen pre <= 5 /\ is_u32 (blen s)).
Proof.
  split; [apply GetLengthPrefixedSlice_Put|]. intros input s r. unfold GetLengthPrefixedSlice.
  destruct (GetVarint32 input) as [[n l]|] eqn:E; [|done]. obind.
  apply GetVarint32_consumes in E as (Hn & pre & -> & Hpre).
  destruct (Z.leb_spec n (blen l)); [|done]. intros [= <- <-]. exists pre.
  rewrite ztake_zdrop. split_and!; try done; len || (unfold is_u32 in *; len).
Qed.

Lemma length_prefixed_roundtrip_witness :
  GetLengthPrefixedSlice (PutLengthPrefixedSlice [] [x61; x62] ++ [x63]) = Some ([x61; x62], [x63]).
Proof. apply (length_prefixed_roundtrip [x61; x62] [x63]). vm_compute. by split. Defined.
