(* ===== verification/DbFormat.v ===== *)
(** * DbFormat: internal keys and their order

    [db/dbformat.h], [db/dbformat.cc], [db/lookup_key.h] and the comparators of
    [include/rocksdb/slice.h] and [util/comparator.cc].  An internal key is the
    user key followed by a fixed64 that packs the sequence number (56 bits) and
    the value type (8 bits); internal keys are ordered by user key, newest
    sequence number first.  The user comparator is an interface (a type class
    with its laws); the bytewise comparator that TropoDB installs is its
    instance. *)

From S2P Require Import Prelude Coding.

(** ** Comparators *)

(** [memcmp] on the first [n] bytes. *)
Fixpoint memcmp (n : nat) (a b : bytes) : comparison :=
  match n, a, b with
  | S n, x :: a, y :: b => cmp_lex (Z.compare (b2z x) (b2z y)) (memcmp n a b)
  | _, _, _ => Eq
  end.

(** [Slice::compare], include/rocksdb/slice.h:240-251 *)
Definition slice_compare (a b : bytes) : comparison :=
  let min_len := if blen a <? blen b then blen a else blen b in
  match memcmp (Z.to_nat min_len) a b with
  | Eq => if blen a <? blen b then Lt else if blen b <? blen a then Gt else Eq
  | r => r
  end.

(** [BytewiseComparatorImpl::Compare], util/comparator.cc:35-37 *)
Definition BytewiseCompare (a b : bytes) : comparison := slice_compare a b.

(** What the store needs of the user's comparator: a total order. *)
Class UserComparator := {
  Compare : bytes -> bytes -> comparison;
  Compare_laws :: CmpLaws Compare;
  Compare_eq : forall a b, Compare a b = Eq -> a = b
}.

(** ** Internal keys *)

(** [ValueType], db/dbformat.h:39-70.  The enum is an [unsigned char]; a byte
    read from storage is cast to it unchecked, so it is the byte's value here,
    with the constants the store uses. *)
Definition ValueType : Type := Z.
Definition kTypeDeletion : ValueType := 0x0.
Definition kTypeValue : ValueType := 0x1.
Definition kTypeMerge : ValueType := 0x2.
Definition kTypeSingleDeletion : ValueType := 0x7.
Definition kTypeRangeDeletion : ValueType := 0xF.
Definition kTypeBlobIndex : ValueType := 0x11.
Definition kTypeDeletionWithTimestamp : ValueType := 0x14.

(** [kValueTypeForSeek], db/dbformat.cc:29-29 *)
Definition kValueTypeForSeek : ValueType := kTypeDeletionWithTimestamp.

(** [kMaxSequenceNumber], db/dbformat.h:91-91 *)
Definition kMaxSequenceNumber : Z := Z.shiftl 1 56 - 1.

(** [kNumInternalBytes], db/dbformat.h:95-95 *)
Definition kNumInternalBytes : Z := 8.

(** [IsValueType], db/dbformat.h:78-81 *)
Definition IsValueType (t : ValueType) : bool :=
  (t <=? kTypeMerge) || (t =? kTypeSingleDeletion) || (t =? kTypeBlobIndex)
  || (kTypeDeletionWithTimestamp =? t).

(** [IsExtendedValueType], db/dbformat.h:85-87 *)
Definition IsExtendedValueType (t : ValueType) : bool :=
  IsValueType t || (t =? kTypeRangeDeletion).

(** [ParsedInternalKey], db/dbformat.h:102-114 *)
Record ParsedInternalKey := mkPIK {
  pik_user_key : bytes;
  pik_sequence : Z;
  pik_type : ValueType
}.

(** [PackSequenceAndType], db/dbformat.h:135-139 *)
Definition PackSequenceAndType (seq : Z) (t : ValueType) : Z := Z.lor (u64 (Z.shiftl seq 8)) t.

(** [UnPackSequenceAndType], db/dbformat.h:143-152 *)
Definition UnPackSequenceAndType (packed : Z) : Z * ValueType :=
  (Z.shiftr packed 8, Z.land packed 0xff).

(** [AppendInternalKey], db/dbformat.cc:54-57 *)
Definition AppendInternalKey (result : bytes) (key : ParsedInternalKey) : bytes :=
  PutFixed64 (result ++ pik_user_key key) (PackSequenceAndType (pik_sequence key) (pik_type key)).

(** [InternalKey::InternalKey], db/dbformat.h:284-286 *)
Definition InternalKey (user_key : bytes) (s : Z) (t : ValueType) : bytes :=
  AppendInternalKey [] (mkPIK user_key s t).

(** [ExtractUserKey], db/dbformat.h:187-190.  The assertion on the size is the
    caller's obligation [is_ikey]. *)
Definition ExtractUserKey (internal_key : bytes) : bytes :=
  ztake (blen internal_key - kNumInternalBytes) internal_key.

(** [ParseInternalKey], db/dbformat.h:346-368.  [None] is [Status::Corruption]. *)
Definition ParseInternalKey (internal_key : bytes) : option ParsedInternalKey :=
  let n := blen internal_key in
  if n <? kNumInternalBytes then None
  else
    num ← DecodeFixed64 internal_key (n - kNumInternalBytes);
    let c := Z.land num 0xff in
    let result := mkPIK (ztake (n - kNumInternalBytes) internal_key) (Z.shiftr num 8) c in
    if IsExtendedValueType c then Some result else None.

(** The packed number of an internal key, as [InternalKeyComparator::Compare]
    reads it. *)
Definition ikey_num (k : bytes) : Z := default 0 (DecodeFixed64 k (blen k - kNumInternalBytes)).

(** [InternalKeyComparator::Compare], db/dbformat.h:708-727 *)
Definition InternalCompare `{UserComparator} (akey bkey : bytes) : comparison :=
  match Compare (ExtractUserKey akey) (ExtractUserKey bkey) with
  | Eq =>
      let anum := ikey_num akey in
      let bnum := ikey_num bkey in
      if bnum <? anum then Lt else if anum <? bnum then Gt else Eq
  | r => r
  end.

(** [LookupKey], db/lookup_key.h:19-59 *)
Record LookupKey := mkLookupKey {
  lk_rep : bytes;      (** from [start_] to [end_] *)
  lk_kstart : Z        (** [kstart_ - start_] *)
}.

(** [LookupKey::LookupKey], db/dbformat.cc:179-204, without a timestamp *)
Definition newLookupKey (user_key : bytes) (s : Z) : LookupKey :=
  let usize := blen user_key in
  let dst := EncodeVarint32 (u32 (usize + 8)) in
  let kstart := blen dst in
  let dst := dst ++ user_key in
  let dst := dst ++ EncodeFixed64 (PackSequenceAndType s kValueTypeForSeek) in
  mkLookupKey dst kstart.

(** [LookupKey::memtable_key], db/lookup_key.h:29-31 *)
Definition memtable_key (k : LookupKey) : bytes := lk_rep k.

(** [LookupKey::internal_key], db/lookup_key.h:34-36 *)
Definition internal_key (k : LookupKey) : bytes := zdrop (lk_kstart k) (lk_rep k).

(** [LookupKey::user_key], db/lookup_key.h:39-41 *)
Definition lookup_user_key (k : LookupKey) : bytes :=
  let n := blen (lk_rep k) - lk_kstart k - 8 in ztake n (zdrop (lk_kstart k) (lk_rep k)).

(** ** The bytewise order *)

(** The same order as one recursion over both strings. *)
Fixpoint lex_compare (a b : bytes) : comparison :=
  match a, b with
  | [], [] => Eq
  | [], _ :: _ => Lt
  | _ :: _, [] => Gt
  | x :: a, y :: b => cmp_lex (Z.compare (b2z x) (b2z y)) (lex_compare a b)
  end.

Lemma slice_compare_lex a b : slice_compare a b = lex_compare a b.
Proof.
  unfold slice_compare. revert b.
  assert (Hmin : forall a b : bytes, Z.to_nat (if blen a <? blen b then blen a else blen b)
                 = (length a `min` length b)%nat).
  { intros a' b'. unfold blen. case_match; lia. }
  intros b. rewrite Hmin. revert b. induction a as [|x a IH]; intros [|y b].
  - done.
  - cbn [length Nat.min memcmp lex_compare]. by rewrite (proj2 (Z.ltb_lt _ _)) by len.
  - cbn [length Nat.min memcmp lex_compare].
    by rewrite (proj2 (Z.ltb_ge (blen _) _)), (proj2 (Z.ltb_lt _ _)) by len.
  - cbn [length Nat.min memcmp lex_compare]. rewrite <-IH. destruct (b2z x ?= b2z y); simpl; [|done..].
    rewrite !blen_cons. destruct (memcmp _ _ _); [|done..].
    repeat case_match; rewrite ?Z.ltb_lt, ?Z.ltb_ge in *; done || lia.
Qed.

Lemma lex_compare_eq a b : lex_compare a b = Eq -> a = b.
Proof.
  revert b. induction a as [|x a IH]; intros [|y b]; simpl; try done.
  destruct (b2z x ?= b2z y) eqn:E; simpl; try done. intros H.
  apply Z.compare_eq, b2z_inj in E as ->. by rewrite (IH b).
Qed.

#[export] Instance lex_compare_laws : CmpLaws lex_compare.
Proof.
  split.
  - intros a. induction a as [|x a IH]; intros [|y b]; simpl; try done.
    rewrite IH, (Z.compare_antisym (b2z x)). by destruct (b2z x ?= b2z y).
  - intros a. induction a as [|x a IH]; intros [|y b] [|z c]; simpl; try done.
    destruct (Z.compare_spec (b2z x) (b2z y)), (Z.compare_spec (b2z y) (b2z z)),
      (Z.compare_spec (b2z x) (b2z z)); simpl; try done || lia. apply IH.
Qed.

(** The comparator [BytewiseComparator()] that [TropoDBImpl] uses. *)
#[export] Instance BytewiseComparator : UserComparator.
Proof.
  refine {| Compare := BytewiseCompare |}.
  - unfold BytewiseCompare. split; intros *; rewrite !slice_compare_lex.
    + apply cmp_opp.
    + apply cmp_trans.
  - intros a b. unfold BytewiseCompare. rewrite slice_compare_lex. apply lex_compare_eq.
Defined.

(** ** Packing and parsing *)

(** The fields that fit their bits. *)
Definition valid_seq (s : Z) : Prop := 0 <= s <= kMaxSequenceNumber.
Definition is_ikey (k : bytes) : Prop := kNumInternalBytes <= blen k.

Lemma Pack_value s t :
  valid_seq s -> 0 <= t < 256 -> PackSequenceAndType s t = s * 256 + t /\ is_u64 (s * 256 + t).
Proof.
  unfold valid_seq, kMaxSequenceNumber. intros Hs Ht. rewrite Z.shiftl_1_l in Hs.
  unfold PackSequenceAndType. rewrite u64_small by (rewrite Z.shiftl_mul_pow2 by lia; word).
  rewrite Z.lor_comm, lor_shiftl_add by lia. word.
Qed.

Lemma Unpack_value s t :
  0 <= t < 256 -> UnPackSequenceAndType (s * 256 + t) = (s, t).
Proof.
  intros Ht. unfold UnPackSequenceAndType. rewrite Z.shiftr_div_pow2, land_255 by lia.
  change (2 ^ 8) with 256. rewrite (Z.add_comm (s * 256)), Z.div_add, Z.mod_add by lia.
  by rewrite Z.div_small, Z.mod_small by lia.
Qed.

(** An internal key is its user key followed by its number. *)
Lemma ikey_split k :
  is_ikey k -> k = ExtractUserKey k ++ EncodeFixed64 (ikey_num k) /\ is_u64 (ikey_num k).
Proof.
  unfold is_ikey, ExtractUserKey, ikey_num. intros Hk.
  set (n := blen k - kNumInternalBytes). unfold kNumInternalBytes in *.
  assert (Hn : n + 8 = blen k) by (unfold n; lia).
  unfold DecodeFixed64. erewrite (proj2 (slice_Some n 8 k _)) by (split_and!; [lia..|done]). simpl.
  assert (Hl : blen (zdrop n k) = 8) by len. rewrite (ztake_all 8) by lia.
  split.
  - rewrite <-(ztake_zdrop n k) at 1. f_equal. unfold EncodeFixed64.
    replace 8%nat with (length (zdrop n k)) by (unfold blen in Hl; lia).
    by rewrite le_bytes_val.
  - pose proof (le_val_range (zdrop n k)) as Hr. rewrite Hl in Hr. done.
Qed.

Lemma ExtractUserKey_app u v : ExtractUserKey (u ++ EncodeFixed64 v) = u.
Proof.
  unfold ExtractUserKey, kNumInternalBytes. apply ztake_app_exact. len.
Qed.

Lemma ikey_num_app u v : is_u64 v -> ikey_num (u ++ EncodeFixed64 v) = v.
Proof.
  intros Hv. unfold ikey_num, kNumInternalBytes.
  pose proof (DecodeFixed64_at u [] v (blen (u ++ EncodeFixed64 v) - 8) Hv) as E.
  rewrite app_nil_r in E. rewrite E by len. done.
Qed.

Lemma InternalKey_app u s t : InternalKey u s t = u ++ EncodeFixed64 (PackSequenceAndType s t).
Proof. done. Qed.

Lemma InternalKey_is_ikey u s t : is_ikey (InternalKey u s t).
Proof. rewrite InternalKey_app. unfold is_ikey, kNumInternalBytes. len. Qed.

Lemma ExtractUserKey_InternalKey u s t : ExtractUserKey (InternalKey u s t) = u.
Proof. apply ExtractUserKey_app. Qed.

Lemma ikey_num_InternalKey u s t :
  valid_seq s -> 0 <= t < 256 -> ikey_num (InternalKey u s t) = s * 256 + t.
Proof.
  intros Hs Ht. destruct (Pack_value s t Hs Ht) as [E ?].
  rewrite InternalKey_app, ikey_num_app by (by rewrite E). done.
Qed.

Lemma ParseInternalKey_spec k :
  is_ikey k ->
  let '(s, t) := UnPackSequenceAndType (ikey_num k) in
  ParseInternalKey k = if IsExtendedValueType t then Some (mkPIK (ExtractUserKey k) s t) else None.
Proof.
  intros Hk. unfold UnPackSequenceAndType, ParseInternalKey, ikey_num.
  unfold is_ikey in Hk. rewrite (proj2 (Z.ltb_ge _ _)) by done.
  unfold DecodeFixed64. erewrite (proj2 (slice_Some _ 8 k _))
    by (unfold kNumInternalBytes in *; split_and!; [lia..|done]).
  done.
Qed.

Lemma ParseInternalKey_InternalKey u s t :
  valid_seq s -> 0 <= t < 256 -> IsExtendedValueType t = true ->
  ParseInternalKey (InternalKey u s t) = Some (mkPIK u s t).
Proof.
  intros Hs Ht Hv. pose proof (ParseInternalKey_spec _ (InternalKey_is_ikey u s t)) as E.
  rewrite ikey_num_InternalKey, Unpack_value in E by done.
  by rewrite E, Hv, ExtractUserKey_InternalKey.
Qed.

(** ** The internal order *)

Section InternalOrder.
Context `{UserComparator}.

Lemma InternalCompare_lex a b :
  InternalCompare a b =
  cmp_lex (Compare (ExtractUserKey a) (ExtractUserKey b)) (flip Z.compare (ikey_num a) (ikey_num b)).
Proof.
  unfold InternalCompare, flip. destruct (Compare _ _); simpl; [|done..].
  destruct (Z.compare_spec (ikey_num b) (ikey_num a)) as [E|E|E];
    repeat case_match; rewrite ?Z.ltb_lt, ?Z.ltb_ge in *; done || lia.
Qed.

#[export] Instance InternalCompare_laws : CmpLaws InternalCompare.
Proof.
  pose proof (cmp_lex_laws ExtractUserKey ikey_num Compare (flip Z.compare)
    Compare_laws (cmp_flip_laws _ Z_cmp_laws)) as [H1 H2].
  split; intros *; rewrite !InternalCompare_lex; [apply H1|apply H2].
Qed.

Lemma Compare_refl u : Compare u u = Eq.
Proof. apply cmp_refl, Compare_laws. Qed.

(** Different internal keys never compare equal. *)
Lemma InternalCompare_eq a b :
  is_ikey a -> is_ikey b -> InternalCompare a b = Eq -> a = b.
Proof.
  intros Ha Hb. rewrite InternalCompare_lex. unfold flip.
  destruct (Compare _ _) eqn:E; simpl; try done. intros Hn. apply Z.compare_eq in Hn.
  apply Compare_eq in E. destruct (ikey_split a Ha) as [-> _], (ikey_split b Hb) as [-> _].
  by rewrite E, Hn.
Qed.

Lemma InternalCompare_keys u s t u' s' t' :
  valid_seq s -> 0 <= t < 256 -> valid_seq s' -> 0 <= t' < 256 ->
  InternalCompare (InternalKey u s t) (InternalKey u' s' t') =
  cmp_lex (Compare u u') (cmp_lex (Z.compare s' s) (Z.compare t' t)).
Proof.
  intros. rewrite InternalCompare_lex. unfold flip.
  rewrite !ExtractUserKey_InternalKey, !ikey_num_InternalKey by done. f_equal.
  destruct (Z.compare_spec s' s), (Z.compare_spec t' t); subst; simpl;
    (apply Z.compare_eq_iff || apply Z.compare_lt_iff || apply Z.compare_gt_iff); lia.
Qed.

(** Internal keys order by user key first, then newest sequence number,
    then highest type; parsing a key returns the three parts it was built
    from; and two keys compare equal only when they are the same bytes. *)
Theorem internal_key_order u s t u' s' t' :
  valid_seq s -> IsExtendedValueType t = true -> 0 <= t < 256 ->
  valid_seq s' -> 0 <= t' < 256 ->
  ParseInternalKey (InternalKey u s t) = Some (mkPIK u s t) /\
  InternalCompare (InternalKey u s t) (InternalKey u' s' t') =
    cmp_lex (Compare u u') (cmp_lex (Z.compare s' s) (Z.compare t' t)) /\
  (InternalCompare (InternalKey u s t) (InternalKey u' s' t') = Eq ->
   InternalKey u s t = InternalKey u' s' t').
Proof.
  intros. split; [by apply ParseInternalKey_InternalKey|].
  split; [by apply InternalCompare_keys|].
  apply InternalCompare_eq; apply InternalKey_is_ikey.
Qed.

Lemma internal_key_newLookupKey u s :
  internal_key (newLookupKey u s) = InternalKey u s kValueTypeForSeek.
Proof.
  unfold internal_key, newLookupKey. simpl. rewrite <-app_assoc. by rewrite zdrop_app_exact.
Qed.

Lemma lookup_user_key_newLookupKey u s : lookup_user_key (newLookupKey u s) = u.
Proof.
  unfold lookup_user_key, newLookupKey. simpl. rewrite <-app_assoc, zdrop_app_exact by done.
  apply ztake_app_exact. len.
Qed.

(** The lookup key of a user key at a snapshot is a length-prefixed
    memtable key whose slice is the internal seek key; that seek key sorts at
    or before exactly the entries of the user key that the snapshot can see. *)
Theorem lookup_key_visibility u s s' t' :
  valid_seq s -> valid_seq s' -> 0 <= t' <= kValueTypeForSeek -> is_u32 (blen u + 8) ->
  lookup_user_key (newLookupKey u s) = u /\
  GetLengthPrefixedSlice (memtable_key (newLookupKey u s))
    = Some (internal_key (newLookupKey u s), []) /\
  (cle InternalCompare (internal_key (newLookupKey u s)) (InternalKey u s' t') <-> s' <= s).
Proof.
  intros Hs Hs' Ht Hu. split; [apply lookup_user_key_newLookupKey|].
  rewrite internal_key_newLookupKey. split.
  - pose proof (GetLengthPrefixedSlice_Put (InternalKey u s kValueTypeForSeek) []) as E.
    unfold PutLengthPrefixedSlice, PutVarint32 in E. rewrite InternalKey_app in *.
    assert (Hl : blen (u ++ EncodeFixed64 (PackSequenceAndType s kValueTypeForSeek)) = blen u + 8)
      by len.
    rewrite Hl, !(u32_small (blen u + 8)), app_nil_r, app_nil_l in E by done.
    unfold memtable_key, newLookupKey. simpl. rewrite u32_small by done.
    rewrite <-app_assoc. by apply E.
  - unfold cle, kValueTypeForSeek, kTypeDeletionWithTimestamp in *.
    rewrite InternalCompare_keys, Compare_refl by (done || lia). simpl.
    destruct (Z.compare_spec s' s), (Z.compare_spec t' 20); simpl; naive_solver lia.
Qed.
End InternalOrder.

Lemma internal_key_order_witness :
  InternalCompare (InternalKey [x61] 7 kTypeValue) (InternalKey [x61] 3 kTypeDeletion) = Lt.
Proof.
  destruct (internal_key_order [x61] 7 kTypeValue [x61] 3 kTypeDeletion) as (_ & -> & _);
    vm_compute; (reflexivity || split; congruence).
Defined.

Lemma lookup_key_visibility_witness :
  cle InternalCompare (internal_key (newLookupKey [x61] 7)) (InternalKey [x61] 3 kTypeValue).
Proof.
  apply (lookup_key_visibility [x61] 7 3 kTypeValue); vm_compute; (split; congruence) || congruence.
Defined.
