(* ===== verification/Config.v ===== *)
(** * Config: constants, status codes, table metadata and counters

    [tropodb_config_default.h] (the compile-time configuration and its
    [static_assert]s), [io/szd_port.cc] (translation of device status codes),
    [table/tropodb_zonemetadata.h] (metadata of an SSTable), [ref_counter.h]
    and [utils/tropodb_diagnostics.cc]. *)

From S2P Require Import Prelude Coding DbFormat.

(** ** Compile-time configuration *)

(** [manifest_zones], tropodb_config_default.h:28-29 *)
Definition manifest_zones : Z := 4.
(** [zones_foreach_wal], tropodb_config_default.h:32-33 *)
Definition zones_foreach_wal : Z := 4.
(** [wal_allow_buffering], tropodb_config_default.h:34-36 *)
Definition wal_allow_buffering : bool := true.
(** [wal_buffered_pages], tropodb_config_default.h:37-39 *)
Definition wal_buffered_pages : Z := 1.
(** [wal_allow_group_commit], tropodb_config_default.h:40-42 *)
Definition wal_allow_group_commit : bool := true.
(** [wal_count], tropodb_config_default.h:43-43 *)
Definition wal_count : Z := 40.
(** [wal_unordered], tropodb_config_default.h:44-44 *)
Definition wal_unordered : bool := true.
(** [wal_iodepth], tropodb_config_default.h:45-46 *)
Definition wal_iodepth : Z := 4.
(** [level_count], tropodb_config_default.h:52-53 *)
Definition level_count : Z := 6.
(** [L0_zones], tropodb_config_default.h:54-55 *)
Definition L0_zones : Z := 100.
(** [lower_concurrency], tropodb_config_default.h:56-57 *)
Definition lower_concurrency : Z := 1.
(** [wal_manager_zone_count], tropodb_config_default.h:58-58 *)
Definition wal_manager_zone_count : Z := wal_count / lower_concurrency.
(** [L0_slow_down], tropodb_config_default.h:59-62 *)
Definition L0_slow_down : Z := 80.
(** [number_of_concurrent_L0_readers], tropodb_config_default.h:63-64 *)
Definition number_of_concurrent_L0_readers : Z := 4.
(** [number_of_concurrent_LN_readers], tropodb_config_default.h:65-66 *)
Definition number_of_concurrent_LN_readers : Z := 4.
(** [min_ss_zone_count], tropodb_config_default.h:67-68 *)
Definition min_ss_zone_count : Z := 5.
(** [max_bytes_sstable_l0], tropodb_config_default.h:90-93 *)
Definition max_bytes_sstable_l0 : Z := 1024 * 1024 * 512.
(** [max_bytes_sstable_], tropodb_config_default.h:94-98.  The double product
    1073741824 * 2 * 0.95 truncated to an integer. *)
Definition max_bytes_sstable_ : Z := 2040109465.
(** [max_lbas_compaction_l0], tropodb_config_default.h:99-100 *)
Definition max_lbas_compaction_l0 : Z := 2097152 * 12.
(** [flushes_allow_deferring_writes], tropodb_config_default.h:103-106 *)
Definition flushes_allow_deferring_writes : bool := true.
(** [flushing_maximum_deferred_writes], tropodb_config_default.h:107-109 *)
Definition flushing_maximum_deferred_writes : Z := 4.
(** [compaction_allow_prefetching], tropodb_config_default.h:112-114 *)
Definition compaction_allow_prefetching : bool := true.
(** [compaction_maximum_prefetches], tropodb_config_default.h:115-117 *)
Definition compaction_maximum_prefetches : Z := 6.
(** [compaction_allow_deferring_writes], tropodb_config_default.h:118-121 *)
Definition compaction_allow_deferring_writes : bool := true.
(** [compaction_maximum_deferred_writes], tropodb_config_default.h:122-124 *)
Definition compaction_maximum_deferred_writes : Z := 6.
(** [compaction_max_grandparents_overlapping_tables], tropodb_config_default.h:125-127 *)
Definition compaction_max_grandparents_overlapping_tables : Z := 10.
(** [min_zone], tropodb_config_default.h:130-130 *)
Definition min_zone : Z := 0.
(** [max_zone], tropodb_config_default.h:131-132 *)
Definition max_zone : Z := 0.
(** [use_sstable_encoding], tropodb_config_default.h:140-141 *)
Definition use_sstable_encoding : bool := true.
(** [max_sstable_encoding], tropodb_config_default.h:142-142 *)
Definition max_sstable_encoding : Z := 16.
(** [deadbeef], tropodb_config_default.h:143-144 *)
Definition deadbeef : bytes := [xaf; xeb; xad; xde].

(** ** Status codes *)

(** The codes of [rocksdb::Status] that the store returns; messages are
    dropped. *)
Inductive Status :=
  | OK | NotFound | Corruption | NotSupported | InvalidArgument | IOError
  | MemoryLimit | NoSpace | Busy | TryAgain.

#[export] Instance Status_eq_dec : EqDecision Status.
Proof. solve_decision. Defined.

Definition ok (s : Status) : bool := match s with OK => true | _ => false end.

(** The codes of the device library. *)
Inductive SZDStatus := Success | InvalidArguments | SZDIOError | SZDOther.

#[export] Instance SZDStatus_eq_dec : EqDecision SZDStatus.
Proof. solve_decision. Defined.

(** [FromStatus], io/szd_port.cc:6-17 *)
Definition FromStatus (s : SZDStatus) : Status :=
  match s with
  | Success => OK
  | InvalidArguments => InvalidArgument
  | SZDIOError => IOError
  | SZDOther => Corruption
  end.

Lemma FromStatus_ok s : FromStatus s = OK <-> s = Success.
Proof. by destruct s. Qed.

(** ** Metadata of an SSTable *)

(** [SSZoneMetaData], table/tropodb_zonemetadata.h:29-46.  The arrays
    [LN.lbas] and [LN.lba_region_sizes] are lists of eight slots, of which the
    first [lba_regions] are in use. *)
Record SSZoneMetaData := mkMeta {
  m_refs : Z;
  m_allowed_seeks : Z;
  m_number : Z;
  m_L0_lba : Z;
  m_L0_log_number : Z;
  m_L0_number : Z;
  m_LN_lba_regions : Z;
  m_LN_lbas : list Z;
  m_LN_lba_region_sizes : list Z;
  m_numbers : Z;
  m_lba_count : Z;
  m_smallest : bytes;
  m_largest : bytes
}.

(** [SSZoneMetaData::SSZoneMetaData], table/tropodb_zonemetadata.h:10-11.  The
    members without an initialiser hold arbitrary values, which are arguments. *)
Definition newSSZoneMetaData (L0_number : Z) (lbas sizes : list Z) : SSZoneMetaData :=
  mkMeta 0 (Z.shiftl 1 30) 0 0 0 L0_number 0 lbas sizes 0 0 [] [].

(** [SSZoneMetaData::copy], table/tropodb_zonemetadata.h:12-28.  The aggregate
    assignments zero what they do not name: [L0.number] and the arrays. *)
Definition meta_copy (m : SSZoneMetaData) : SSZoneMetaData :=
  let zeros := replicate 8 0 in
  let n := m_LN_lba_regions m in
  mkMeta (m_refs m) (m_allowed_seeks m) (m_number m)
    (m_L0_lba m) (m_L0_log_number m) 0
    n (ztake n (m_LN_lbas m) ++ zdrop n zeros)
    (ztake n (m_LN_lba_region_sizes m) ++ zdrop n zeros)
    (m_numbers m) (m_lba_count m) (m_smallest m) (m_largest m).

#[export] Instance SSZoneMetaData_eq_dec : EqDecision SSZoneMetaData.
Proof. solve_decision. Defined.

(** ** Reference counting *)

(** [RefCounter], ref_counter.h:13-29 *)
Inductive RefCounter := Live (refs : Z) | Deleted.

(** [RefCounter::Ref], ref_counter.h:17-17.  [None] is a use after free. *)
Definition Ref (r : RefCounter) : option RefCounter :=
  match r with Live n => Some (Live (n + 1)) | Deleted => None end.

(** [RefCounter::Unref], ref_counter.h:18-23 *)
Definition Unref (r : RefCounter) : option RefCounter :=
  match r with
  | Live n => if n <? 1 then None else Some (if n - 1 <=? 0 then Deleted else Live (n - 1))
  | Deleted => None
  end.

(** [RefCounter::Getref], ref_counter.h:25-25 *)
Definition Getref (r : RefCounter) : option Z :=
  match r with Live n => Some n | Deleted => None end.

(** ** Timing counters *)

(** [TimingCounter], utils/tropodb_diagnostics.h:14-34 *)
Record TimingCounter := mkTC {
  tc_num : Z; tc_sum : Z; tc_sum_squared : Z; tc_min : Z; tc_max : Z
}.

(** [TimingCounter::TimingCounter], utils/tropodb_diagnostics.cc:7-12 *)
Definition newTimingCounter : TimingCounter := mkTC 0 0 0 (2 ^ 64 - 1) 0.

(** [TimingCounter::operator+], utils/tropodb_diagnostics.cc:16-32 *)
Definition tc_plus (a tc : TimingCounter) : TimingCounter :=
  let num := u64 (tc_num a + tc_num tc) in
  let sum := u64 (tc_sum a + tc_sum tc) in
  let sq := u64 (tc_sum_squared a + tc_sum_squared tc) in
  if tc_num a =? 0 then mkTC num sum sq (tc_min tc) (tc_max tc)
  else if tc_num tc =? 0 then mkTC num sum sq (tc_min a) (tc_max a)
  else mkTC num sum sq (Z.min (tc_min a) (tc_min tc)) (Z.max (tc_max a) (tc_max tc)).

(** [TimingCounter::operator+=], utils/tropodb_diagnostics.cc:34-47.  The tests
    read [num_] after the addition. *)
Definition tc_add (a tc : TimingCounter) : TimingCounter :=
  let num := u64 (tc_num a + tc_num tc) in
  let sum := u64 (tc_sum a + tc_sum tc) in
  let sq := u64 (tc_sum_squared a + tc_sum_squared tc) in
  if num =? 0 then mkTC num sum sq (tc_min tc) (tc_max tc)
  else if tc_num tc =? 0 then mkTC num sum sq (tc_min a) (tc_max a)
  else mkTC num sum sq (Z.min (tc_min a) (tc_min tc)) (Z.max (tc_max a) (tc_max tc)).

(** [TimingCounter::AddTiming], utils/tropodb_diagnostics.cc:49-59 *)
Definition AddTiming (tc : TimingCounter) (time : Z) : TimingCounter :=
  let mx := if tc_max tc <? time then time else tc_max tc in
  let mn := if time <? tc_min tc then time else tc_min tc in
  mkTC (u64 (tc_num tc + 1)) (u64 (tc_sum tc + time)) (u64 (tc_sum_squared tc + u64 (time * time)))
    mn mx.

(** [TimingCounter::GetNum], utils/tropodb_diagnostics.cc:61-61 *)
Definition GetNum (tc : TimingCounter) : Z := tc_num tc.

(** ** Properties of counters *)

(** The counter that saw the timings [ts]. *)
Definition tc_of (ts : list Z) : TimingCounter := fold_left AddTiming ts newTimingCounter.

(** What a counter that saw [ts] holds. *)
Definition tc_spec (ts : list Z) : TimingCounter :=
  mkTC (u64 (blen ts)) (u64 (foldr (fun t s => t + s) 0 ts)) (u64 (foldr (fun t s => t * t + s) 0 ts))
    (foldr Z.min (2 ^ 64 - 1) ts) (foldr Z.max 0 ts).

Lemma u64_add_l a b : u64 (u64 a + b) = u64 (a + b).
Proof. apply Zplus_mod_idemp_l. Qed.
Lemma u64_add_r a b : u64 (a + u64 b) = u64 (a + b).
Proof. apply Zplus_mod_idemp_r. Qed.

Lemma foldr_add_app (f : Z -> Z) l k :
  foldr (fun t s => f t + s) 0 (l ++ k) = foldr (fun t s => f t + s) 0 l + foldr (fun t s => f t + s) 0 k.
Proof. induction l as [|x l IH]; simpl; [done|]. rewrite IH. lia. Qed.

Lemma foldr_min_app M l k :
  foldr Z.min M k <= M -> foldr Z.min M (l ++ k) = Z.min (foldr Z.min M l) (foldr Z.min M k).
Proof. intros. induction l as [|x l IH]; simpl; [lia|]. rewrite IH. lia. Qed.
Lemma foldr_min_le M l : foldr Z.min M l <= M.
Proof. induction l; simpl; lia. Qed.
Lemma foldr_max_ge M l : M <= foldr Z.max M l.
Proof. induction l; simpl; lia. Qed.
Lemma foldr_max_app M l k :
  foldr Z.max M (l ++ k) = Z.max (foldr Z.max M l) (foldr Z.max M k).
Proof. pose proof (foldr_max_ge M k). induction l as [|x l IH]; simpl; [lia|]. rewrite IH. lia. Qed.

Lemma tc_of_spec ts : tc_of ts = tc_spec ts.
Proof.
  induction ts as [|t ts IH] using rev_ind; [done|].
  unfold tc_of. rewrite fold_left_app. simpl. fold (tc_of ts). rewrite IH.
  unfold tc_spec, AddTiming; simpl.
  pose proof (foldr_add_app id ts [t]) as E1. pose proof (foldr_add_app (fun t => t * t) ts [t]) as E2.
  unfold id in E1. simpl in E1, E2.
  pose proof (foldr_min_app (2 ^ 64 - 1) ts [t] (foldr_min_le _ _)) as E3.
  pose proof (foldr_max_app 0 ts [t]) as E4.
  pose proof (foldr_min_le (2 ^ 64 - 1) ts). pose proof (foldr_max_ge 0 ts).
  simpl foldr in E3, E4. f_equal.
  - rewrite u64_add_l. f_equal. len.
  - rewrite u64_add_l. f_equal. lia.
  - rewrite u64_add_l, u64_add_r. f_equal. lia.
  - rewrite E3. case_match; rewrite ?Z.ltb_lt, ?Z.ltb_ge in *; lia.
  - rewrite E4. case_match; rewrite ?Z.ltb_lt, ?Z.ltb_ge in *; lia.
Qed.

(** Merging two timing counters, by [operator+] or by [operator+=], gives
    the counter that saw the timings of both, as long as fewer than 2^64
    timings were added; in particular the two operators agree although
    [operator+=] tests the count after adding to it. *)
Theorem timing_merge l k :
  blen l + blen k < 2 ^ 64 ->
  tc_plus (tc_of l) (tc_of k) = tc_of (l ++ k) /\ tc_add (tc_of l) (tc_of k) = tc_of (l ++ k).
Proof.
  intros Hn. rewrite !tc_of_spec. unfold tc_plus, tc_add, tc_spec; simpl.
  pose proof (foldr_add_app id l k) as E1. pose proof (foldr_add_app (fun t => t * t) l k) as E2.
  unfold id in E1. rewrite E1, E2, foldr_max_app, foldr_min_app by apply foldr_min_le.
  rewrite !u64_add_l, !u64_add_r, blen_app.
  pose proof (blen_nonneg l). pose proof (blen_nonneg k).
  rewrite !(u64_small (blen _)), (u64_small (blen _ + _)) by word.
  pose proof (foldr_min_le (2 ^ 64 - 1) l). pose proof (foldr_min_le (2 ^ 64 - 1) k).
  pose proof (foldr_max_ge 0 l). pose proof (foldr_max_ge 0 k).
  destruct l as [|x l], k as [|y k]; try done; rewrite ?blen_nil, ?blen_cons in *; pose_blen.
  all: split; repeat case_match; rewrite ?Z.eqb_eq, ?Z.eqb_neq in *; try lia; simpl foldr in *.
  all: f_equal; lia.
Qed.

Lemma timing_merge_witness : tc_add (tc_of [5; 3]) (tc_of [9]) = mkTC 3 17 115 3 9.
Proof.
  destruct (timing_merge [5; 3] [9]) as [_ ->]; vm_compute; reflexivity.
Defined.
