(* ===== verification/Committer.v ===== *)
(** * Committer: checksummed records in blocks

    [persistence/tropodb_committer.h] and [.cc].  A record is cut into
    fragments of at most [lba_size - 8] bytes, one per logical block, each with
    an eight byte header: masked CRC (4 bytes), length (3 bytes), type (1 byte).
    The state of the committer is the log it writes to and its scratch buffer;
    the readers carry their own cursor.  Every store into a buffer and every
    load from one is bounds-checked in the model: [None] is an access outside of
    the allocation. *)

From S2P Require Import Prelude Coding Crc32c DbFormat Config.

(** ** Record types and headers *)

(** [TropoRecordType], persistence/tropodb_committer.h:15-24 *)
Inductive TropoRecordType := kInvalid | kFullType | kFirstType | kMiddleType | kLastType.

#[export] Instance TropoRecordType_eq_dec : EqDecision TropoRecordType.
Proof. solve_decision. Defined.

Definition type_code (t : TropoRecordType) : Z :=
  match t with kInvalid => 0 | kFullType => 1 | kFirstType => 2 | kMiddleType => 3 | kLastType => 4 end.

(** [static_cast<TropoRecordType>(d)] for [d <= 5]; five is no enumerator and,
    like zero, falls into the default case of every [switch]. *)
Definition type_of_code (d : Z) : TropoRecordType :=
  if d =? 1 then kFullType else if d =? 2 then kFirstType
  else if d =? 3 then kMiddleType else if d =? 4 then kLastType else kInvalid.

(** [kTropoHeaderSize], persistence/tropodb_committer.h:26-26 *)
Definition kTropoHeaderSize : Z := 4 + 3 + 1.

(** [kTropoRecordTypeLast], persistence/tropodb_committer.h:27-29 *)
Definition kTropoRecordTypeLast : Z := type_code kLastType + 1.

(** One store of [InitTypeCrc] per step; a store outside of the array is
    recorded apart, as the language gives it no meaning. *)
Fixpoint InitTypeCrc_loop (n : nat) (i : Z) (type_crc : list Z) (oob : list (Z * Z))
    : list Z * list (Z * Z) :=
  match n with
  | O => (type_crc, oob)
  | S n =>
      let v := Value [z2b i] in
      if i <? blen type_crc
      then InitTypeCrc_loop n (i + 1) (<[Z.to_nat i := v]> type_crc) oob
      else InitTypeCrc_loop n (i + 1) type_crc (oob ++ [(i, v)])
  end.

(** [InitTypeCrc], persistence/tropodb_committer.cc:18-24.  The loop runs while
    [i <= type_crc.size()]. *)
Definition InitTypeCrc (type_crc : list Z) : list Z * list (Z * Z) :=
  InitTypeCrc_loop (length type_crc + 1) 0 type_crc [].

(** [TropoCommitter::type_crc_], persistence/tropodb_committer.h:95-95, after
    the constructor. *)
Definition type_crc : list Z :=
  fst (InitTypeCrc (replicate (Z.to_nat (kTropoRecordTypeLast + 1)) 0)).

Definition type_crc_at (t : TropoRecordType) : Z := nth (Z.to_nat (type_code t)) type_crc 0.

(** ** Writing *)

Section Writer.
Context (lba_size : Z).

(** [TropoCommitter::SpaceNeeded], persistence/tropodb_committer.cc:50-55 *)
Definition SpaceNeeded (data_size : Z) : Z :=
  let fragcount := data_size / lba_size + 1 in
  let size_needed := fragcount * kTropoHeaderSize + data_size in
  (size_needed + lba_size - 1) / lba_size * lba_size.

(** The stores of one round of the fragment loop at [walker]. *)
Definition put_fragment (buf : bytes) (walker : Z) (type : TropoRecordType) (body : bytes)
    : option bytes :=
  let len := blen body in
  buf ← put walker (replicate (Z.to_nat lba_size) x00) buf;
  buf ← put (walker + kTropoHeaderSize) body buf;
  buf ← put (walker + 4) [z2b (Z.land len 0xff)] buf;
  buf ← put (walker + 5) [z2b (Z.land (Z.shiftr len 8) 0xff)] buf;
  buf ← put (walker + 6) [z2b (Z.land (Z.shiftr len 16) 0xff)] buf;
  buf ← put (walker + 7) [z2b (type_code type)] buf;
  let crc := Mask (Extend (type_crc_at type) body) in
  put walker (EncodeFixed32 crc) buf.

(** The [do .. while (left > 0)] loop of [CommitToCharArray] and [Commit]:
    [data] is the [left] bytes from [ptr].  With [lba_size > 8] each round
    consumes a byte of [data], so the length of [data] bounds the rounds. *)
Fixpoint commit_loop (fuel : nat) (buf : bytes) (walker : Z) (data : bytes) (begin : bool)
    : option bytes :=
  match fuel with
  | O => None
  | S fuel =>
      let left := blen data in
      let avail := if kTropoHeaderSize <? lba_size then lba_size - kTropoHeaderSize else 0 in
      let fragment_length := if left <? avail then left else avail in
      let end_ := left =? fragment_length in
      let type :=
        if begin && end_ then kFullType
        else if begin then kFirstType
        else if end_ then kLastType
        else kMiddleType in
      buf ← put_fragment buf walker type (ztake fragment_length data);
      let walker := walker + (fragment_length + kTropoHeaderSize) in
      let data := zdrop fragment_length data in
      let left := left - fragment_length in
      if 0 <? left then commit_loop fuel buf walker data false else Some buf
  end.

(** [TropoCommitter::CommitToCharArray], persistence/tropodb_committer.cc:65-117.
    [mem] is what [new char[size_needed]] happens to contain. *)
Definition CommitToCharArray (mem : Z -> bytes) (data : bytes) : option bytes :=
  commit_loop (S (length data)) (mem (SpaceNeeded (blen data))) 0 data true.

End Writer.

(** ** Reading from a string *)

(** [TropoCommitReaderString], persistence/tropodb_committer.h:39-45 *)
Record TropoCommitReaderString := mkReaderString {
  rs_commit_start : Z;
  rs_commit_end : Z;
  rs_commit_ptr : Z;
  rs_in : bytes;
  rs_scratch : bytes
}.

(** [static_cast<uint32_t>] of a (signed) [char]. *)
Definition char_to_u32 (b : byte) : Z := if b2z b <? 128 then b2z b else u32 (b2z b - 256).

(** The parsed header of a fragment: length, type and checksum, with the test
    of the length against [to_read] and of the checksum. *)
Definition parse_fragment (header : bytes) (to_read : Z) : option (Z * TropoRecordType) :=
  h4 ← header !! 4%nat; h5 ← header !! 5%nat; h6 ← header !! 6%nat; h7 ← header !! 7%nat;
  let a := Z.land (char_to_u32 h4) 0xff in
  let b := Z.land (char_to_u32 h5) 0xff in
  let c := Z.land (char_to_u32 h6) 0xff in
  let d := char_to_u32 h7 in
  let type := if kTropoRecordTypeLast <? d then kInvalid else type_of_code d in
  let length := Z.lor (Z.lor a (Z.shiftl b 8)) (Z.shiftl c 16) in
  let type := if to_read <? kTropoHeaderSize + length then kInvalid else type in
  stored ← DecodeFixed32 header 0;
  let expected_crc := Unmask stored in
  checked ← slice 7 (1 + length) header;
  let actual_crc := Value checked in
  Some (length, if actual_crc =? expected_crc then type else kInvalid).

(** What the [switch] on the type does with the scratch string: the record that
    is returned, a failed seek, or the scratch and flag of the next round. *)
Inductive fragment_result :=
  | Return (record : bytes)
  | Reject
  | Continue (scratch : bytes) (in_fragmented_record : bool).

Definition handle_fragment (type : TropoRecordType) (body scratch : bytes) (in_frag : bool)
    : fragment_result :=
  match type with
  | kFullType => Return body
  | kFirstType => Continue body true
  | kMiddleType => Continue (if in_frag then scratch ++ body else scratch) in_frag
  | kLastType => if in_frag then Return (scratch ++ body) else Continue scratch in_frag
  | kInvalid => Reject
  end.

Section StringReader.
Context (lba_size : Z).

(** [TropoCommitter::GetCommitReaderString], persistence/tropodb_committer.cc:330-338 *)
Definition GetCommitReaderString (input : bytes) : TropoCommitReaderString :=
  mkReaderString 0 (blen input) 0 input deadbeef.

(** The [while] loop of [SeekCommitReaderString].  Every round moves
    [commit_ptr] forward by at least a block. *)
Fixpoint seek_string_loop (fuel : nat) (r : TropoCommitReaderString) (in_frag : bool)
    : option (option bytes * TropoCommitReaderString) :=
  match fuel with
  | O => None
  | S fuel =>
      if (rs_commit_ptr r <? rs_commit_end r) && (rs_commit_start r <=? rs_commit_ptr r) then
        let left := rs_commit_end r - rs_commit_ptr r in
        let to_read := if lba_size <? left then lba_size else left in
        let header := zdrop (rs_commit_ptr r) (rs_in r) in
        '(length, type) ← parse_fragment header to_read;
        let ptr := rs_commit_ptr r +
          (length + kTropoHeaderSize + lba_size - 1) / lba_size * lba_size in
        let upd s := mkReaderString (rs_commit_start r) (rs_commit_end r) ptr (rs_in r) s in
        let body := ztake length (zdrop kTropoHeaderSize header) in
        match handle_fragment type body (rs_scratch r) in_frag with
        | Return record => Some (Some record, upd record)
        | Reject => Some (None, upd [])
        | Continue scratch in_frag => seek_string_loop fuel (upd scratch) in_frag
        end
      else Some (None, r)
  end.

(** [TropoCommitter::SeekCommitReaderString], persistence/tropodb_committer.cc:340-412.
    The result is the record when the function returns [true]. *)
Definition SeekCommitReaderString (r : TropoCommitReaderString)
    : option (option bytes * TropoCommitReaderString) :=
  if rs_commit_end r <=? rs_commit_ptr r then Some (None, r)
  else
    let r := mkReaderString (rs_commit_start r) (rs_commit_end r) (rs_commit_ptr r) (rs_in r) [] in
    seek_string_loop (S (Z.to_nat (rs_commit_end r - rs_commit_ptr r))) r false.

(** [TropoCommitter::CloseCommitString], persistence/tropodb_committer.cc:414-417 *)
Definition CloseCommitString (r : TropoCommitReaderString) : bool * TropoCommitReaderString :=
  (true, mkReaderString (rs_commit_start r) (rs_commit_end r) (rs_commit_ptr r) (rs_in r) []).

End StringReader.

(** ** The image of a record *)

Definition frag_block (lba_size : Z) (type : TropoRecordType) (body : bytes) : bytes :=
  let len := blen body in
  EncodeFixed32 (Mask (Extend (type_crc_at type) body)) ++
  [z2b len; z2b (Z.shiftr len 8); z2b (Z.shiftr len 16); z2b (type_code type)] ++
  body ++ replicate (Z.to_nat (lba_size - kTropoHeaderSize - len)) x00.

(** The fragments a record is cut into. *)
Fixpoint frags (avail : Z) (fuel : nat) (begin : bool) (data : bytes)
    : list (TropoRecordType * bytes) :=
  match fuel with
  | O => []
  | S fuel =>
      if blen data <=? avail then [(if begin then kFullType else kLastType, data)]
      else (if begin then kFirstType else kMiddleType, ztake avail data)
           :: frags avail fuel false (zdrop avail data)
  end.

Definition record_frags (lba_size : Z) (data : bytes) : list (TropoRecordType * bytes) :=
  frags (lba_size - kTropoHeaderSize) (S (length data)) true data.

Definition blocks_of (lba_size : Z) (fs : list (TropoRecordType * bytes)) : bytes :=
  concat (map (fun f => frag_block lba_size (fst f) (snd f)) fs).

Definition record_image (lba_size : Z) (data : bytes) : bytes :=
  blocks_of lba_size (record_frags lba_size data).

(** How many blocks a record of [n] bytes fills. *)
Definition frag_count (lba_size n : Z) : Z :=
  Z.max 1 ((n + (lba_size - 8) - 1) / (lba_size - 8)).

Section WriterProofs.
Context (lba_size : Z) (HL : 8 < lba_size <= 2 ^ 24).

Lemma z2b_land_255 x : z2b (Z.land x 0xff) = z2b x.
Proof. apply z2b_mod. rewrite land_255. by rewrite Zmod_mod. Qed.

Lemma blen_frag_block type body :
  blen body <= lba_size - 8 -> blen (frag_block lba_size type body) = lba_size.
Proof. intros. unfold frag_block, kTropoHeaderSize. len. Qed.

Lemma put_at (l m k d : bytes) off buf :
  buf = l ++ m ++ k -> off = blen l -> blen d = blen m -> put off d buf = Some (l ++ d ++ k).
Proof. intros ->. apply put_mid. Qed.

Lemma put_fragment_spec pre X post walker type body :
  walker = blen pre -> blen X = lba_size -> blen body <= lba_size - 8 ->
  put_fragment lba_size (pre ++ X ++ post) walker type body
  = Some (pre ++ frag_block lba_size type body ++ post).
Proof.
  intros -> HX Hb. unfold put_fragment, kTropoHeaderSize.
  rewrite (put_mid pre X) by len. obind.
  set (zb := replicate (length body) x00 : bytes).
  set (zr := replicate (Z.to_nat (lba_size - 8 - blen body)) x00 : bytes).
  assert (Hz : replicate (Z.to_nat lba_size) x00
    = [x00; x00; x00; x00] ++ [x00] ++ [x00] ++ [x00] ++ [x00] ++ zb ++ zr).
  { transitivity (replicate 8 x00 ++ zb ++ zr); [|done]. unfold zb, zr. rewrite <-!replicate_add.
    f_equal. pose_blen. unfold blen in *. lia. }
  rewrite Hz.
  erewrite (put_at (pre ++ replicate 8 x00) zb (zr ++ post));
    [|by rewrite <-!app_assoc|len|unfold zb; unfold blen; by rewrite length_replicate]. obind.
  erewrite (put_at (pre ++ replicate 4 x00) [x00]);
    [|rewrite <-!app_assoc; simpl; reflexivity|len|done]. obind.
  erewrite (put_at (pre ++ replicate 4 x00 ++ [_]) [x00]);
    [|rewrite <-!app_assoc; simpl; reflexivity|len|done]. obind.
  erewrite (put_at (pre ++ replicate 4 x00 ++ [_; _]) [x00]);
    [|rewrite <-!app_assoc; simpl; reflexivity|len|done]. obind.
  erewrite (put_at (pre ++ replicate 4 x00 ++ [_; _; _]) [x00]);
    [|rewrite <-!app_assoc; simpl; reflexivity|len|done]. obind.
  erewrite (put_at pre (replicate 4 x00));
    [|rewrite <-!app_assoc; simpl; reflexivity|done|len].
  unfold frag_block, kTropoHeaderSize. rewrite !z2b_land_255. f_equal.
  rewrite <-!app_assoc. done.
Qed.

Lemma frags_bound avail fuel begin data :
  0 <= avail -> Forall (fun f => blen (snd f) <= avail) (frags avail fuel begin data).
Proof.
  intros Ha. revert begin data. induction fuel as [|fuel IH]; intros begin data; simpl; [done|].
  case_match; rewrite ?Z.leb_le, ?Z.leb_gt in *; repeat constructor; simpl; [done|len|apply IH].
Qed.

Lemma blocks_of_length fs :
  Forall (fun f => blen (snd f) <= lba_size - 8) fs ->
  blen (blocks_of lba_size fs) = blen fs * lba_size.
Proof.
  unfold blocks_of. induction 1 as [|[t b] fs Hb _ IH]; [done|]. simpl.
  rewrite blen_app, IH, blen_frag_block, blen_cons by done. lia.
Qed.

(** The loop fills its buffer with the blocks of the fragments. *)
Lemma commit_loop_spec fuel pre X walker data begin :
  (length data < fuel)%nat -> walker = blen pre ->
  let fs := frags (lba_size - 8) fuel begin data in
  commit_loop lba_size fuel (pre ++ X) walker data begin =
    if blen fs * lba_size <=? blen X
    then Some (pre ++ blocks_of lba_size fs ++ zdrop (blen fs * lba_size) X) else None.
Proof.
  revert pre X walker data begin. induction fuel as [|fuel IH]; intros pre X walker data begin Hf Hw; [lia|].
  cbn [commit_loop frags]. change kTropoHeaderSize with 8.
  rewrite (proj2 (Z.ltb_lt 8 lba_size)) by lia.
  set (av := lba_size - 8).
  destruct (Z.leb_spec (blen data) av) as [Hle|Hgt].
  - (* the last fragment *)
    assert ((if blen data <? av then blen data else av) = blen data) as -> by (case_match; lia).
    rewrite Z.eqb_refl, andb_true_r, ztake_all, Z.sub_diag by lia. simpl.
    assert ((if begin then kFullType else if begin then kFirstType else kLastType)
            = if begin then kFullType else kLastType) as -> by by destruct begin.
    rewrite blen_cons, blen_nil, Z.mul_1_l. destruct (Z.leb_spec lba_size (blen X)).
    + rewrite <-(ztake_zdrop lba_size X) at 1.
      rewrite put_fragment_spec by (done || len). obind. unfold blocks_of. simpl.
      by rewrite app_nil_r.
    + unfold put_fragment. rewrite put_None; [done|]. len.
  - assert ((if blen data <? av then blen data else av) = av) as -> by (case_match; lia).
    rewrite (proj2 (Z.eqb_neq (blen data) av)), andb_false_r by lia.
    rewrite (proj2 (Z.ltb_lt 0 _)) by lia.
    rewrite blen_cons. set (fs := frags av fuel false (zdrop av data)).
    destruct (Z.leb_spec lba_size (blen X)).
    + rewrite <-(ztake_zdrop lba_size X) at 1.
      rewrite put_fragment_spec by (done || (unfold av; len)). obind.
      set (t := if begin then kFirstType else kMiddleType).
      rewrite app_assoc, IH;
        [|assert (blen (zdrop av data) < blen data) by (unfold av; len); unfold blen in *; lia
         |rewrite blen_app, blen_frag_block; unfold kTropoHeaderSize, av; len].
      fold av fs. rewrite blen_zdrop.
      assert (blen fs >= 0) by (pose_blen; lia).
      destruct (Z.leb_spec (blen fs * lba_size) (Z.max 0 (blen X - Z.max 0 lba_size))),
        (Z.leb_spec ((1 + blen fs) * lba_size) (blen X)); try lia; [|done].
      unfold blocks_of. simpl. rewrite zdrop_zdrop, <-!app_assoc by lia.
      by replace (lba_size + blen fs * lba_size) with ((1 + blen fs) * lba_size) by lia.
    + unfold put_fragment. rewrite put_None by len. simpl.
      assert (0 <= blen fs) by (pose_blen; lia).
      destruct (Z.leb_spec ((1 + blen fs) * lba_size) (blen X)); [nia|done].
Qed.
End WriterProofs.

(** ** Space *)

Section Space.
Context (lba_size : Z) (HL : 8 < lba_size <= 2 ^ 24).

Lemma frag_count_bounds n :
  0 <= n -> let m := frag_count lba_size n in
  1 <= m /\ n <= m * (lba_size - 8) /\ (m = 1 \/ (m - 1) * (lba_size - 8) < n).
Proof.
  intros Hn. unfold frag_count. cbv zeta. set (av := lba_size - 8).
  assert (0 < av) by (unfold av; lia).
  pose proof (Z.div_mod (n + av - 1) av). pose proof (Z.mod_pos_bound (n + av - 1) av).
  nia.
Qed.

Lemma frag_count_unique n m :
  0 <= n -> 1 <= m -> n <= m * (lba_size - 8) -> (m = 1 \/ (m - 1) * (lba_size - 8) < n) ->
  m = frag_count lba_size n.
Proof. intros Hn H1 H2 H3. pose proof (frag_count_bounds n Hn). cbv zeta in *. nia. Qed.

Lemma frags_count fuel begin data :
  (length data < fuel)%nat ->
  blen (frags (lba_size - 8) fuel begin data) = frag_count lba_size (blen data).
Proof.
  revert begin data. induction fuel as [|fuel IH]; intros begin data Hf; [lia|].
  cbn [frags]. set (av := lba_size - 8) in *. pose proof (blen_nonneg data).
  destruct (Z.leb_spec (blen data) av).
  - apply frag_count_unique; rewrite ?blen_cons, ?blen_nil; unfold av in *; lia.
  - assert (Hd : blen (zdrop av data) = blen data - av) by (unfold av in *; len).
    rewrite blen_cons, IH, Hd by (unfold blen in *; lia).
    pose proof (frag_count_bounds (blen data - av)). cbv zeta in *.
    apply frag_count_unique; fold av; unfold av in *; nia.
Qed.

Lemma record_frags_count data :
  blen (record_frags lba_size data) = frag_count lba_size (blen data).
Proof. apply frags_count. lia. Qed.

(** The space the committer asks for is at most the blocks it writes ... *)
Lemma SpaceNeeded_le n : 0 <= n -> SpaceNeeded lba_size n <= frag_count lba_size n * lba_size.
Proof.
  intros Hn. destruct (frag_count_bounds n Hn) as (H1 & H2 & _). unfold SpaceNeeded, kTropoHeaderSize.
  apply Z.mul_le_mono_nonneg_r; [lia|]. apply Z.lt_succ_r, Z.div_lt_upper_bound; [lia|].
  assert (n / lba_size < frag_count lba_size n) by (apply Z.div_lt_upper_bound; nia). nia.
Qed.

(** ... and exactly that as long as the headers fit one more block. *)
Lemma SpaceNeeded_exact n :
  0 <= n <= (lba_size / 8 + 1) * (lba_size - 8) ->
  SpaceNeeded lba_size n = frag_count lba_size n * lba_size.
Proof.
  intros [Hn Hmax]. apply Z.le_antisymm; [by apply SpaceNeeded_le|].
  destruct (frag_count_bounds n Hn) as (H1 & H2 & H3). set (m := frag_count lba_size n) in *.
  assert (Hm : 8 * (m - 1) <= lba_size).
  { pose proof (Z.mul_div_le lba_size 8). pose proof (Z.div_pos lba_size 8).
    destruct H3 as [->|H3]; [lia|]. assert (m - 1 < lba_size / 8 + 1) by nia. lia. }
  unfold SpaceNeeded, kTropoHeaderSize. apply Z.mul_le_mono_nonneg_r; [lia|].
  apply Z.div_le_lower_bound; [lia|].
  destruct H3 as [->|H3]; [pose proof (Z.div_pos n lba_size); lia|].
  assert (m - 2 <= n / lba_size) by (apply Z.div_le_lower_bound; nia). nia.
Qed.

Lemma CommitToCharArray_spec mem data :
  (forall n, 0 <= n -> blen (mem n) = n) ->
  CommitToCharArray lba_size mem data =
    if SpaceNeeded lba_size (blen data) =? frag_count lba_size (blen data) * lba_size
    then Some (record_image lba_size data) else None.
Proof.
  intros Hmem. unfold CommitToCharArray. pose proof (blen_nonneg data).
  assert (0 <= SpaceNeeded lba_size (blen data)).
  { unfold SpaceNeeded, kTropoHeaderSize. apply Z.mul_nonneg_nonneg; [|lia].
    pose proof (Z.div_pos (blen data) lba_size). apply Z.div_pos; lia. }
  pose proof (commit_loop_spec lba_size HL (S (length data)) [] (mem (SpaceNeeded lba_size (blen data)))
    0 data true ltac:(lia) eq_refl) as E. cbv zeta in E. rewrite app_nil_l in E. rewrite E.
  change (frags (lba_size - 8) (S (length data)) true data) with (record_frags lba_size data).
  rewrite record_frags_count, Hmem by done.
  pose proof (SpaceNeeded_le (blen data)).
  destruct (Z.eqb_spec (SpaceNeeded lba_size (blen data)) (frag_count lba_size (blen data) * lba_size))
    as [Heq|Hne].
  - rewrite (proj2 (Z.leb_le _ _)) by lia. rewrite app_nil_l.
    unfold zdrop. rewrite drop_ge; [by rewrite app_nil_r|].
    pose proof (Hmem (SpaceNeeded lba_size (blen data))). unfold blen in *. lia.
  - by rewrite (proj2 (Z.leb_gt _ _)) by lia.
Qed.
End Space.

(** ** Reading back *)

Lemma type_crc_at_value t : type_crc_at t = Value [z2b (type_code t)].
Proof. by destruct t; vm_compute. Qed.

Section ReaderProofs.
Context (lba_size : Z) (HL : 8 < lba_size <= 2 ^ 24).

Lemma char_to_u32_land b : Z.land (char_to_u32 b) 0xff = b2z b.
Proof. destruct b; by vm_compute. Qed.

Lemma bytes3 len :
  0 <= len < 2 ^ 24 ->
  Z.lor (Z.lor (b2z (z2b len)) (Z.shiftl (b2z (z2b (Z.shiftr len 8))) 8))
        (Z.shiftl (b2z (z2b (Z.shiftr len 16))) 16) = len.
Proof.
  intros Hl. rewrite !b2z_z2b, !Z.shiftr_div_pow2 by lia.
  change (2 ^ 8) with 256. change (2 ^ 16) with 65536.
  assert (0 <= len mod 256 < 256) by (apply Z.mod_pos_bound; lia).
  assert (0 <= (len / 256) mod 256 < 256) by (apply Z.mod_pos_bound; lia).
  rewrite (lor_shiftl_add (len mod 256) _ 8), lor_shiftl_add by lia.
  assert (len / 65536 < 256) by (apply Z.div_lt_upper_bound; lia).
  rewrite (Z.mod_small (len / 65536)) by (split; [apply Z.div_pos; lia|lia]).
  change 65536 with (256 * 256) at 1. rewrite <-Z.div_div by lia.
  pose proof (Z.div_mod len 256). pose proof (Z.div_mod (len / 256) 256). lia.
Qed.

(** The header of a written fragment parses to its length and type. *)
Lemma parse_frag_block type body rest to_read :
  blen body <= lba_size - 8 -> type <> kInvalid -> 8 + blen body <= to_read ->
  parse_fragment (frag_block lba_size type body ++ rest) to_read = Some (blen body, type).
Proof.
  intros Hb Ht Hr. unfold frag_block. pose proof (blen_nonneg body).
  set (crc := EncodeFixed32 _). set (pad := replicate _ _).
  assert (Hc : length crc = 4%nat).
  { pose proof (blen_EncodeFixed32 (Mask (Extend (type_crc_at type) body))) as E.
    fold crc in E. unfold blen in E. lia. }
  unfold parse_fragment. rewrite <-!app_assoc.
  rewrite !(lookup_app_r crc) by lia. rewrite Hc. cbn [Nat.sub lookup list_lookup app]. obind.
  rewrite !char_to_u32_land, bytes3 by lia.
  assert (char_to_u32 (z2b (type_code type)) = type_code type) as -> by by destruct type.
  rewrite (proj2 (Z.ltb_ge kTropoRecordTypeLast _)) by (by destruct type).
  assert (type_of_code (type_code type) = type) as -> by by destruct type.
  rewrite (proj2 (Z.ltb_ge _ _)) by (unfold kTropoHeaderSize; lia).
  assert (Hdec : DecodeFixed32 (crc ++ [z2b (blen body); z2b (Z.shiftr (blen body) 8);
     z2b (Z.shiftr (blen body) 16); z2b (type_code type)] ++ body ++ pad ++ rest) 0
     = Some (Mask (Extend (type_crc_at type) body))).
  { unfold crc. apply (DecodeFixed32_at [] _ _ 0); [|done].
    unfold Mask. apply u32_range. }
  cbn [app] in Hdec. rewrite Hdec. obind.
  pose proof (slice_app_mid (crc ++ [z2b (blen body); z2b (Z.shiftr (blen body) 8);
     z2b (Z.shiftr (blen body) 16)]) (z2b (type_code type) :: body) (pad ++ rest) 7 (1 + blen body)) as E.
  rewrite <-!app_assoc in E. cbn [app] in E. rewrite E by (unfold blen in *; simpl; rewrite ?length_app, ?Hc; simpl; lia).
  obind. assert (Hv : is_u32 (Value [z2b (type_code type)])) by (apply Extend_range; by vm_compute).
  assert (Hu : forall x, is_u32 x -> Unmask (Mask x) = x) by (intros; by apply Mask_Unmask).
  rewrite Hu by (rewrite type_crc_at_value; by apply Extend_range).
  rewrite type_crc_at_value. unfold Value at 1.
  pose proof (Extend_app 0 [z2b (type_code type)] body) as Ea. cbn [app] in Ea.
  rewrite Ea by by vm_compute. by rewrite Z.eqb_refl.
Qed.

Lemma frag_block_body type body rest :
  ztake (blen body) (zdrop kTropoHeaderSize (frag_block lba_size type body ++ rest)) = body.
Proof.
  unfold frag_block. set (crc := EncodeFixed32 _).
  assert (Hc : blen crc = 4) by apply blen_EncodeFixed32.
  rewrite <-!app_assoc. rewrite (app_assoc crc), zdrop_app_exact by (unfold kTropoHeaderSize; len).
  by rewrite ztake_app_exact.
Qed.

Lemma next_block len : 0 <= len <= lba_size - 8 ->
  (len + kTropoHeaderSize + lba_size - 1) / lba_size * lba_size = lba_size.
Proof.
  intros H. unfold kTropoHeaderSize.
  assert ((len + (4 + 3 + 1) + lba_size - 1) / lba_size = 1) as ->; [|lia].
  symmetry. apply (Z.div_unique _ _ _ (len + 7)); lia.
Qed.

(** Seeking over the blocks of a record returns the record and leaves the
    cursor behind them, whatever surrounds them. *)
Lemma seek_string_loop_spec fuel n begin data pre post st scratch :
  (length data < n)%nat -> 0 <= st <= blen pre ->
  let fs := frags (lba_size - 8) n begin data in
  (length fs <= fuel)%nat ->
  let inp := pre ++ blocks_of lba_size fs ++ post in
  let record := (if begin then [] else scratch) ++ data in
  seek_string_loop lba_size fuel (mkReaderString st (blen inp) (blen pre) inp scratch) (negb begin)
  = Some (Some record,
      mkReaderString st (blen inp) (blen pre + blen fs * lba_size) inp record).
Proof.
  intros Hn Hst. cbv zeta. revert n begin data pre scratch Hn Hst.
  induction fuel as [|fuel IH]; intros n begin data pre scratch Hn Hst Hf;
    (destruct n as [|n]; [lia|]); cbn [frags] in *; set (av := lba_size - 8) in *.
  { destruct (blen data <=? av); simpl in Hf; lia. }
  destruct (Z.leb_spec (blen data) av) as [Hle|Hgt]; unfold blocks_of; cbn [map concat fst snd].
  - set (t := if begin then kFullType else kLastType).
    pose proof (blen_frag_block lba_size t data Hle) as Hbl.
    cbn [seek_string_loop rs_commit_ptr rs_commit_end rs_commit_start rs_in rs_scratch].
    rewrite app_nil_r. set (inp := pre ++ _ ++ post).
    assert (Hend : blen inp = blen pre + lba_size + blen post) by (unfold inp; len).
    pose proof (blen_nonneg post). pose proof (blen_nonneg data).
    rewrite (proj2 (Z.ltb_lt _ _)), (proj2 (Z.leb_le _ _)) by lia. cbn [andb].
    assert (zdrop (blen pre) inp = frag_block lba_size t data ++ post) as -> by (by apply zdrop_app_exact).
    rewrite parse_frag_block; [|done|by destruct begin
      |destruct (Z.ltb_spec lba_size (blen inp - blen pre)); unfold av in *; lia]. obind.
    rewrite frag_block_body, next_block by done. unfold t.
    rewrite blen_cons, blen_nil, Z.mul_1_l. by destruct begin.
  - set (t := if begin then kFirstType else kMiddleType).
    assert (Hb : blen (ztake av data) <= lba_size - 8) by (unfold av in *; len).
    pose proof (blen_frag_block lba_size t _ Hb) as Hbl.
    fold (blocks_of lba_size (frags av n false (zdrop av data))).
    cbn [seek_string_loop rs_commit_ptr rs_commit_end rs_commit_start rs_in rs_scratch].
    rewrite <-app_assoc. set (inp := pre ++ _ ++ _).
    assert (Hinp : inp = (pre ++ frag_block lba_size t (ztake av data)) ++
      blocks_of lba_size (frags av n false (zdrop av data)) ++ post) by (unfold inp; by rewrite <-app_assoc).
    assert (Hend : blen pre + lba_size <= blen inp) by (rewrite Hinp; len).
    rewrite (proj2 (Z.ltb_lt _ _)), (proj2 (Z.leb_le _ _)) by lia. cbn [andb].
    assert (zdrop (blen pre) inp = frag_block lba_size t (ztake av data) ++
      blocks_of lba_size (frags av n false (zdrop av data)) ++ post) as -> by (by apply zdrop_app_exact).
    rewrite parse_frag_block; [|done|by destruct begin
      |destruct (Z.ltb_spec lba_size (blen inp - blen pre)); unfold av in *; lia]. obind.
    pose proof (blen_nonneg (ztake av data)).
    rewrite frag_block_body, next_block by done.
    assert (Hh : handle_fragment t (ztake av data) scratch (negb begin)
      = Continue ((if begin then [] else scratch) ++ ztake av data) true) by (by destruct begin).
    rewrite Hh. assert (Hz : (length (zdrop av data) < n)%nat).
    { assert (blen (zdrop av data) < blen data) by (unfold av in *; len). unfold blen in *. lia. }
    replace (blen pre + lba_size) with (blen (pre ++ frag_block lba_size t (ztake av data))) by len.
    rewrite Hinp. rewrite (IH n false (zdrop av data)); [|done|len|cbn [length] in Hf; lia].
    rewrite <-app_assoc, ztake_zdrop. do 3 f_equal. rewrite blen_app, Hbl, blen_cons. lia.
Qed.

Lemma record_image_length data :
  blen (record_image lba_size data) = frag_count lba_size (blen data) * lba_size.
Proof.
  unfold record_image. rewrite blocks_of_length, record_frags_count; [done|done..|].
  apply frags_bound. unfold kTropoHeaderSize. lia.
Qed.

(** Reading a committed record anywhere in a string. *)
Lemma SeekCommitReaderString_spec pre data post scratch :
  let inp := pre ++ record_image lba_size data ++ post in
  SeekCommitReaderString lba_size (mkReaderString 0 (blen inp) (blen pre) inp scratch)
  = Some (Some data, mkReaderString 0 (blen inp)
                      (blen pre + blen (record_image lba_size data)) inp data).
Proof.
  cbv zeta. pose proof (record_image_length data) as Hl.
  pose proof (frag_count_bounds lba_size HL (blen data) (blen_nonneg data)) as (Hc & _).
  unfold SeekCommitReaderString. cbn [rs_commit_ptr rs_commit_end rs_commit_start rs_in rs_scratch].
  set (inp := pre ++ _ ++ post).
  assert (blen pre + frag_count lba_size (blen data) * lba_size <= blen inp) by (unfold inp; len).
  rewrite (proj2 (Z.leb_gt _ _)) by nia.
  pose proof (seek_string_loop_spec (S (Z.to_nat (blen inp - blen pre))) (S (length data)) true data
    pre post 0 [] ltac:(lia) ltac:(pose_blen; lia)) as E. cbv zeta in E. cbn [negb app] in E.
  change (frags (lba_size - 8) (S (length data)) true data) with (record_frags lba_size data) in E.
  change (blocks_of lba_size (record_frags lba_size data)) with (record_image lba_size data) in E.
  fold inp in E. rewrite E.
  - by rewrite record_frags_count, Hl.
  - pose proof (record_frags_count lba_size HL data) as Hn. unfold blen at 1 in Hn. nia.
Qed.
End ReaderProofs.

(** ** Properties *)

(** A record that the committer serialises comes back: for every record of
    at most [(lba_size / 8 + 1) * (lba_size - 8)] bytes, [CommitToCharArray]
    stays inside the buffer that [SpaceNeeded] sized, fills whole blocks, and
    a string reader positioned on these blocks returns the record and stops
    right behind them, whatever bytes precede and follow. *)
Theorem commit_roundtrip lba_size mem data pre post scratch :
  8 < lba_size <= 2 ^ 24 -> (forall n, 0 <= n -> blen (mem n) = n) ->
  blen data <= (lba_size / 8 + 1) * (lba_size - 8) ->
  exists out,
    CommitToCharArray lba_size mem data = Some out /\
    blen out = SpaceNeeded lba_size (blen data) /\
    let inp := pre ++ out ++ post in
    SeekCommitReaderString lba_size (mkReaderString 0 (blen inp) (blen pre) inp scratch)
    = Some (Some data, mkReaderString 0 (blen inp) (blen pre + blen out) inp data).
Proof.
  intros HL Hmem Hd. exists (record_image lba_size data).
  pose proof (SpaceNeeded_exact lba_size HL (blen data) ltac:(pose_blen; lia)) as E.
  rewrite CommitToCharArray_spec, E, Z.eqb_refl by done.
  split; [done|]. split; [by apply record_image_length|]. by apply SeekCommitReaderString_spec.
Qed.

Lemma commit_roundtrip_witness :
  exists out, CommitToCharArray 16 (fun n => replicate (Z.to_nat n) xff) [x61; x62; x63; x64; x65; x66; x67; x68; x69]
              = Some out /\ blen out = 32.
Proof.
  destruct (commit_roundtrip 16 (fun n => replicate (Z.to_nat n) xff)
    [x61; x62; x63; x64; x65; x66; x67; x68; x69] [] [] []) as (out & H1 & H2 & _).
  - lia.
  - intros n Hn. rewrite blen_replicate. lia.
  - vm_compute. congruence.
  - exists out. split; [exact H1|]. rewrite H2. reflexivity.
Defined.

(** The size that [SpaceNeeded] computes is too small for long records:
    with 512-byte blocks, serialising any record of 32761 bytes writes a block
    past the end of the buffer that [CommitToCharArray] allocated. *)
Theorem commit_overflow mem data :
  (forall n, 0 <= n -> blen (mem n) = n) -> blen data = 32761 ->
  CommitToCharArray 512 mem data = None.
Proof.
  intros Hmem Hd. rewrite CommitToCharArray_spec, Hd by (done || lia). by vm_compute.
Qed.

Lemma commit_overflow_witness :
  CommitToCharArray 512 (fun n => replicate (Z.to_nat n) x00) (replicate (Z.to_nat 32761) x61) = None.
Proof.
  apply commit_overflow.
  - intros n Hn. rewrite blen_replicate. lia.
  - rewrite blen_replicate. reflexivity.
Defined.

(** [InitTypeCrc] stores one checksum past the end of its array: the six
    slots get the checksums of their indices and a seventh value is written to
    index six. *)
Theorem init_type_crc_overrun :
  exists oob, InitTypeCrc (replicate 6 0) = (map (fun i => Value [z2b i]) [0; 1; 2; 3; 4; 5], [oob])
  /\ fst oob = 6.
Proof. eexists. split; vm_compute; reflexivity. Qed.
