(* ===== verification/Szd.v ===== *)
(** * Szd: the interfaces of the zoned-device logs

    TropoDB stores everything in logs of the SimpleZNSDevice library (SZD), a
    git submodule that is not part of the sources.  Each log is a type class of
    the operations that TropoDB calls, over an abstract state, and a second
    class of the laws that TropoDB relies on.  The laws use a ghost view of the
    log.  Concrete in-memory instances show that the laws can hold.

    - [OnceLog] ([SZD::SZDOnceLog], used by the WAL): appended to until it is
      reset as a whole.  Appends may be submitted asynchronously; the zone-append
      command lets the device place outstanding appends in any order, so the
      contents read back are some permutation of the submitted chunks.
    - [CircularLog] ([SZD::SZDCircularLog], used by the manifest and by level
      0): blocks are appended at the head and consumed at the tail, addresses
      wrap around at the end of the zones of the log.
    - [FragmentedLog] ([SZD::SZDFragmentedLog], used by the levels above 0): an append
      takes free zones anywhere and returns the regions that it wrote; regions are
      reset one by one.
    - [SZDBuffer]: a buffer of device memory that can be resized.

    [ReliableLog] says of a [OnceLog] that everything but an append succeeds. *)

From S2P Require Import Prelude Config.

(** ** The once log *)

Class OnceLog (St : Type) := {
  ol_AsyncAppend : St -> bytes -> SZDStatus * St;
  ol_Sync : St -> SZDStatus * St;
  ol_ReadAll : St -> SZDStatus * bytes;
  ol_Empty : St -> bool;
  ol_SpaceAvailable : St -> Z;
  ol_SpaceLeft : St -> Z -> bool;
  ol_ResetAll : St -> SZDStatus * St;
  ol_RecoverPointers : St -> SZDStatus * St;
  ol_MarkInactive : St -> SZDStatus * St
}.

Class OnceLogLaws (St : Type) `{OnceLog St} := {
  (** the chunks handed to the log since its last reset, in submission order *)
  ol_chunks : St -> list bytes;
  (** no append is outstanding *)
  ol_synced : St -> Prop;
  ol_append_ok : forall s d s', ol_AsyncAppend s d = (Success, s') -> ol_chunks s' = ol_chunks s ++ [d];
  ol_append_fail : forall s d r s',
    ol_AsyncAppend s d = (r, s') -> r <> Success -> ol_chunks s' = ol_chunks s;
  ol_sync_ok : forall s s', ol_Sync s = (Success, s') -> ol_chunks s' = ol_chunks s /\ ol_synced s';
  ol_read_ok : forall s str,
    ol_synced s -> ol_ReadAll s = (Success, str) ->
    exists p, p ≡ₚ ol_chunks s /\ str = concat p;
  ol_empty_ok : forall s, ol_Empty s = true <-> concat (ol_chunks s) = [];
  ol_reset_ok : forall s s', ol_ResetAll s = (Success, s') -> ol_chunks s' = [] /\ ol_synced s';
  (** recovering the write pointers and finishing the open zones change no data *)
  ol_recover_ok : forall s s',
    ol_RecoverPointers s = (Success, s') -> ol_chunks s' = ol_chunks s /\ (ol_synced s -> ol_synced s');
  ol_inactive_ok : forall s r s',
    ol_MarkInactive s = (r, s') -> ol_chunks s' = ol_chunks s /\ (ol_synced s -> ol_synced s')
}.

(** A device on which everything but an append succeeds (an append may lack
    space). *)
Class ReliableLog (St : Type) `{OnceLog St} : Prop := {
  rl_sync : forall s, fst (ol_Sync s) = Success;
  rl_read : forall s, fst (ol_ReadAll s) = Success;
  rl_reset : forall s, fst (ol_ResetAll s) = Success;
  rl_pointers : forall s, fst (ol_RecoverPointers s) = Success
}.

(** ** An in-memory once log whose device reverses the order of appends *)

Module RevLog.

Record t := mk { capacity : Z; chunks : list bytes }.

Definition used (s : t) : Z := blen (concat (chunks s)).

#[global] Instance ops : OnceLog t := {|
  ol_AsyncAppend s d :=
    if used s + blen d <=? capacity s
    then (Success, mk (capacity s) (chunks s ++ [d])) else (SZDIOError, s);
  ol_Sync s := (Success, s);
  ol_ReadAll s := (Success, concat (reverse (chunks s)));
  ol_Empty s := used s =? 0;
  ol_SpaceAvailable s := capacity s - used s;
  ol_SpaceLeft s n := used s + n <=? capacity s;
  ol_ResetAll s := (Success, mk (capacity s) []);
  ol_RecoverPointers s := (Success, s);
  ol_MarkInactive s := (Success, s)
|}.

#[global] Instance laws : OnceLogLaws t.
Proof.
  refine {| ol_chunks := chunks; ol_synced := fun _ => True |}; simpl.
  - intros s d s'. case_match; naive_solver.
  - intros s d r s'. case_match; naive_solver.
  - naive_solver.
  - intros s str _ [= <-]. exists (reverse (chunks s)). split; [|done]. apply reverse_Permutation.
  - intros s. unfold used. rewrite Z.eqb_eq. split.
    + intros E. destruct (concat (chunks s)); [done|]. rewrite blen_cons in E. pose_blen. lia.
    + by intros ->.
  - naive_solver.
  - naive_solver.
  - naive_solver.
Defined.

#[global] Instance reliable : ReliableLog t.
Proof. by constructor. Qed.

End RevLog.

(** ** The circular log *)

Class CircularLog (St : Type) := {
  cl_Append : St -> bytes -> SZDStatus * Z * St;
  cl_Read : St -> Z -> Z -> SZDStatus * bytes;
  cl_SpaceLeft : St -> Z -> bool;
  cl_SpaceAvailable : St -> Z;
  cl_wrapped_addr : St -> Z -> Z;
  cl_Empty : St -> bool;
  cl_GetWriteHead : St -> Z;
  cl_GetWriteTail : St -> Z;
  cl_ConsumeTail : St -> Z -> Z -> SZDStatus * St;
  cl_ResetAll : St -> SZDStatus * St;
  cl_RecoverPointers : St -> SZDStatus * St
}.

(** The address that [a] stands for in a log over [min, max). *)
Definition cl_wrap (min_head max_head a : Z) : Z := if a <? max_head then a else a - (max_head - min_head).

Class CircularLogLaws (St : Type) `{!CircularLog St} (lba_size min_head max_head : Z) := {
  (** the blocks from the tail to the head *)
  cl_blocks : St -> list bytes;
  cl_tail_range : forall s, min_head <= cl_GetWriteTail s < max_head;
  (** the log is never filled completely: equal pointers mean an empty log *)
  cl_not_full : forall s, blen (cl_blocks s) < max_head - min_head;
  cl_head : forall s,
    cl_GetWriteHead s = cl_wrap min_head max_head (cl_GetWriteTail s + blen (cl_blocks s));
  cl_empty : forall s, cl_Empty s = true <-> cl_blocks s = [];
  cl_wrapped : forall s a,
    min_head <= a < max_head + (max_head - min_head) -> cl_wrapped_addr s a = cl_wrap min_head max_head a;
  (** data that does not fill its last block is padded *)
  cl_append_ok : forall s d n s',
    cl_Append s d = (Success, n, s') ->
    cl_GetWriteTail s' = cl_GetWriteTail s /\
    exists bs pad, d ++ pad = concat bs /\ blen pad < lba_size /\ Forall (fun b => blen b = lba_size) bs /\
      blen bs = n /\ cl_blocks s' = cl_blocks s ++ bs;
  cl_read_ok : forall s pre bs post a,
    cl_blocks s = pre ++ bs ++ post -> bs <> [] -> min_head <= a ->
    cl_wrap min_head max_head a = cl_wrap min_head max_head (cl_GetWriteTail s + blen pre) ->
    cl_Read s a (blen bs * lba_size) = (Success, concat bs);
  cl_consume_ok : forall s b e s',
    cl_ConsumeTail s b e = (Success, s') -> b = cl_GetWriteTail s -> b <= e <= b + blen (cl_blocks s) ->
    cl_blocks s' = zdrop (e - b) (cl_blocks s) /\ cl_GetWriteTail s' = cl_wrap min_head max_head e;
  cl_consume_fail : forall s b e r s',
    cl_ConsumeTail s b e = (r, s') -> r <> Success ->
    cl_blocks s' = cl_blocks s /\ cl_GetWriteTail s' = cl_GetWriteTail s;
  cl_recover_ok : forall s s',
    cl_RecoverPointers s = (Success, s') ->
    cl_blocks s' = cl_blocks s /\ cl_GetWriteTail s' = cl_GetWriteTail s;
  cl_reset_ok : forall s s',
    cl_ResetAll s = (Success, s') -> cl_blocks s' = [] /\ cl_GetWriteTail s' = min_head
}.

(** Data of whole blocks is not padded. *)
Lemma cl_append_aligned {St} `{!CircularLog St} lba_size min_head max_head `{!CircularLogLaws St lba_size min_head max_head}
    s d n s' k :
  0 < lba_size -> blen d = k * lba_size -> cl_Append s d = (Success, n, s') ->
  n = k /\ cl_GetWriteTail s' = cl_GetWriteTail s /\
  exists bs, d = concat bs /\ Forall (fun b => blen b = lba_size) bs /\ blen bs = n /\ cl_blocks s' = cl_blocks s ++ bs.
Proof.
  intros HL Hd Ha. destruct (cl_append_ok _ _ _ _ Ha) as (Ht & bs & pad & Hc & Hp & Hf & Hn & Hv).
  assert (Hlen : blen (concat bs) = blen bs * lba_size).
  { clear -Hf. induction Hf as [|b bs Hb _ IH]; [done|]. cbn [concat]. rewrite blen_app, blen_cons, IH, Hb. lia. }
  rewrite <-Hc, blen_app in Hlen. pose proof (blen_nonneg pad). assert (Hr : 0 <= (blen bs - k) * lba_size < lba_size) by lia.
  assert (blen bs - k = 0) by nia. assert (blen pad = 0) by nia.
  destruct pad; [|by rewrite blen_cons in *; pose_blen; lia]. rewrite app_nil_r in Hc.
  split_and!; [nia|done|]. by exists bs.
Qed.

(** ** Device memory *)

(** [ReallocBuffer] followed by [GetBuffer], and [FreeBuffer]. *)
Class SZDBuffer := {
  buf_Realloc : Z -> SZDStatus * bytes;
  buf_Free : SZDStatus;
  buf_Realloc_size : forall n mem, 0 <= n -> buf_Realloc n = (Success, mem) -> blen mem = n
}.

#[export] Instance ZeroBuffer : SZDBuffer.
Proof.
  refine {| buf_Realloc := fun n => (Success, replicate (Z.to_nat n) x00); buf_Free := Success |}.
  intros n mem Hn [= <-]. len.
Defined.

(** ** An in-memory circular log *)

Module MemLog.

Record t := mk { position : Z; stored : list bytes }.

Section MemLog.
Context (lba_size min_head max_head : Z) (Hlba : 0 < lba_size) (Hgeo : min_head < max_head).

Definition size : Z := max_head - min_head.
Definition view (s : t) : list bytes := ztake (size - 1) (stored s).
Definition tail (s : t) : Z := min_head + position s mod size.

Fixpoint chunks (n : nat) (d : bytes) : list bytes :=
  match n with O => [] | S n => ztake lba_size d :: chunks n (zdrop lba_size d) end.

Definition append (s : t) (d : bytes) : SZDStatus * Z * t :=
  let n := (blen d + lba_size - 1) / lba_size in
  if blen (view s) + n <=? size - 1
  then (Success, n, mk (position s)
    (view s ++ chunks (Z.to_nat n) (d ++ replicate (Z.to_nat (n * lba_size - blen d)) x00)))
  else (SZDIOError, 0, s).

Definition read (s : t) (a n : Z) : SZDStatus * bytes :=
  let k := n / lba_size in
  let i := (a - tail s) mod size in
  if (n =? k * lba_size) && (i + k <=? blen (view s)) then (Success, concat (ztake k (zdrop i (view s))))
  else (InvalidArguments, []).

Definition consume (s : t) (b e : Z) : SZDStatus * t :=
  if (b =? tail s) && (b <=? e) && (e <=? b + blen (view s))
  then (Success, mk (position s + (e - b)) (zdrop (e - b) (view s))) else (InvalidArguments, s).

Definition ops : CircularLog t := {|
  cl_Append := append;
  cl_Read := read;
  cl_SpaceLeft s n := blen (view s) * lba_size + n <=? (size - 1) * lba_size;
  cl_SpaceAvailable s := (size - 1 - blen (view s)) * lba_size;
  cl_wrapped_addr _ a := cl_wrap min_head max_head a;
  cl_Empty s := blen (view s) =? 0;
  cl_GetWriteHead s := cl_wrap min_head max_head (tail s + blen (view s));
  cl_GetWriteTail := tail;
  cl_ConsumeTail := consume;
  cl_ResetAll s := (Success, mk 0 []);
  cl_RecoverPointers s := (Success, s)
|}.

Lemma chunks_spec n d :
  blen d = Z.of_nat n * lba_size ->
  d = concat (chunks n d) /\ Forall (fun b => blen b = lba_size) (chunks n d) /\ length (chunks n d) = n.
Proof.
  revert d. induction n as [|n IH]; intros d Hd; cbn [chunks concat].
  - destruct d; [done|]. rewrite blen_cons in Hd. pose_blen. lia.
  - assert (Hr : blen (zdrop lba_size d) = Z.of_nat n * lba_size) by (len; nia).
    destruct (IH _ Hr) as (H1 & H2 & H3). split_and!.
    + rewrite <-H1. symmetry. apply ztake_zdrop.
    + constructor; [len; nia|done].
    + cbn. by rewrite H3.
Qed.

Lemma view_bound s : blen (view s) <= size - 1.
Proof. unfold view. unfold size in *. len. Qed.

Lemma view_id p l : blen l <= size - 1 -> view (mk p l) = l.
Proof. intros. unfold view. cbn. by apply ztake_all. Qed.

Lemma tail_range s : min_head <= tail s < max_head.
Proof. unfold tail. pose proof (Z.mod_pos_bound (position s) size). unfold size in *. lia. Qed.

Definition laws : @CircularLogLaws t ops lba_size min_head max_head.
Proof.
  assert (Hsz : 0 < size) by (unfold size; lia).
  refine (@Build_CircularLogLaws t ops lba_size min_head max_head view tail_range _ _ _ _ _ _ _ _ _ _); simpl.
  - intros s. pose proof (view_bound s). unfold size in *. lia.
  - done.
  - intros s. rewrite Z.eqb_eq. split; [|by intros ->].
    destruct (view s); [done|]. rewrite blen_cons. pose_blen. lia.
  - done.
  - intros s d n s'. unfold append. destruct (Z.leb_spec (blen (view s) + (blen d + lba_size - 1) / lba_size) (size - 1))
      as [E|]; [|done]. intros [= <- <-]. set (n := (blen d + lba_size - 1) / lba_size) in *. pose proof (blen_nonneg d) as Hd.
    assert (Hn : 0 <= n /\ n * lba_size - lba_size < blen d <= n * lba_size).
    { unfold n. Z.to_euclidean_division_equations. nia. }
    set (pad := replicate (Z.to_nat (n * lba_size - blen d)) x00).
    assert (Hp : blen pad = n * lba_size - blen d) by (unfold pad; rewrite blen_replicate; lia).
    destruct (chunks_spec (Z.to_nat n) (d ++ pad)) as (H1 & H2 & H3); [rewrite blen_app; lia|].
    split; [done|]. exists (chunks (Z.to_nat n) (d ++ pad)), pad.
    assert (H4 : blen (chunks (Z.to_nat n) (d ++ pad)) = n) by (unfold blen at 1; lia).
    split_and!; [done|lia|done|done|]. apply view_id. rewrite blen_app, H4. lia.
  - intros s pre bs post a Hv Hbs Ha Hw. unfold read. rewrite Z.div_mul, Z.eqb_refl by lia.
    pose proof (view_bound s) as Hb. rewrite Hv, !blen_app in Hb |- *. pose proof (blen_nonneg post) as Hpo.
    pose proof (blen_nonneg pre) as Hpr. assert (Hb1 : 0 < blen bs) by (destruct bs; [done|rewrite blen_cons; pose_blen; lia]).
    pose proof (tail_range s) as Ht.
    assert (Hm : (a - tail s) mod size = blen pre).
    { unfold cl_wrap in Hw. fold size in Hw.
      destruct (Z.ltb_spec a max_head), (Z.ltb_spec (tail s + blen pre) max_head).
      - rewrite Z.mod_small; lia.
      - replace (a - tail s) with (blen pre + (-1) * size) by lia. rewrite Z.mod_add by lia. apply Z.mod_small. lia.
      - replace (a - tail s) with (blen pre + 1 * size) by lia. rewrite Z.mod_add by lia. apply Z.mod_small. lia.
      - rewrite Z.mod_small; lia. }
    rewrite Hm, (proj2 (Z.leb_le _ _)) by lia. cbn [andb].
    by rewrite zdrop_app_exact, ztake_app_exact by done.
  - intros s b e s'. unfold consume. destruct (_ && _) eqn:E; [|done]. intros [= <-] -> He.
    pose proof (view_bound s) as Hv. split.
    + apply view_id. len.
    + unfold tail, cl_wrap at 1. cbn. unfold tail in He |- *. pose proof (Z.mod_pos_bound (position s) size Hsz) as Hp.
      pose proof (Z.div_mod (position s) size ltac:(lia)) as Hd. fold size.
      set (k := e - (min_head + position s mod size)) in *.
      destruct (Z.ltb_spec e max_head) as [Hlt|Hge].
      * replace (position s + k) with (position s mod size + k + (position s / size) * size) by lia.
        rewrite Z.mod_add, Z.mod_small by (unfold k, size in *; lia). unfold k. lia.
      * replace (position s + k) with (position s mod size + k - size + (position s / size + 1) * size) by lia.
        rewrite Z.mod_add, Z.mod_small by (unfold k, size in *; lia). unfold k. lia.
  - intros s b e r s'. unfold consume. destruct (_ && _) eqn:E; intros [= <- <-]; [done|]. done.
  - intros s s' [= <-]. done.
  - intros s s' [= <-]. split; [apply view_id; rewrite blen_nil; unfold size; lia|]. unfold tail. cbn. rewrite Z.mod_0_l; unfold size; lia.
Defined.
End MemLog.
End MemLog.

(** ** The fragmented log *)

(** Regions of the device: the first zone and the number of zones. *)
Abbreviation regions := (list (Z * Z)).

Class FragmentedLog (St : Type) := {
  (** data and writer; the regions that were filled *)
  fl_Append : St -> bytes -> Z -> SZDStatus * regions * St;
  fl_Read : St -> regions -> Z -> SZDStatus * bytes;
  fl_Reset : St -> regions -> Z -> SZDStatus * St;
  fl_SpaceLeft : St -> Z -> bool;
  fl_SpaceAvailable : St -> Z;
  fl_Encode : St -> bytes;
  fl_DecodeFrom : St -> bytes -> SZDStatus * St
}.

Definition region_zones (ptrs : regions) : list Z := flat_map (fun '(z, n) => seqZ z n) ptrs.
Definition region_count (ptrs : regions) : Z := foldr (fun '(_, n) k => n + k) 0 ptrs.

Class FragmentedLogLaws (St : Type) `{!FragmentedLog St} (zone_bytes min_zone max_zone : Z) := {
  (** the regions were filled by an append of the data and not reset since *)
  fl_holds : St -> regions -> bytes -> Prop;
  fl_holds_regions : forall s ptrs d, fl_holds s ptrs d ->
    Forall (fun '(z, n) => min_zone <= z /\ 0 < n /\ z + n <= max_zone) ptrs;
  fl_append_ok : forall s d w ptrs s',
    fl_Append s d w = (Success, ptrs, s') ->
    fl_holds s' ptrs d /\
    forall q e, fl_holds s q e -> fl_holds s' q e /\ region_zones q ## region_zones ptrs;
  fl_append_fail : forall s d w r ptrs s',
    fl_Append s d w = (r, ptrs, s') -> r <> Success -> forall q e, fl_holds s q e -> fl_holds s' q e;
  fl_read_ok : forall s ptrs d,
    fl_holds s ptrs d ->
    exists pad, fl_Read s ptrs (region_count ptrs * zone_bytes) = (Success, d ++ pad) /\
      blen (d ++ pad) = region_count ptrs * zone_bytes;
  fl_reset_ok : forall s ptrs w r s',
    fl_Reset s ptrs w = (r, s') ->
    forall q e, fl_holds s q e -> region_zones q ## region_zones ptrs -> fl_holds s' q e
}.

(** ** An in-memory fragmented log that fills one free zone after the other *)

Module MemFrag.

(** The contents of the zones in use. *)
Abbreviation t := (gmap Z bytes).

Section MemFrag.
Context (zone_bytes min_zone max_zone : Z) (Hz : 0 < zone_bytes).

Definition free (s : t) : list Z := filter (fun z => s !! z = None) (seqZ min_zone (max_zone - min_zone)).

Definition zones_needed (n : Z) : Z := (n + zone_bytes - 1) / zone_bytes.

Fixpoint fill (s : t) (zs : list Z) (d : bytes) : t :=
  match zs with
  | [] => s
  | z :: zs => fill (<[z := ztake zone_bytes d]> s) zs (zdrop zone_bytes d)
  end.

Definition singles (zs : list Z) : regions := map (fun z => (z, 1)) zs.

Definition append (s : t) (d : bytes) (w : Z) : SZDStatus * regions * t :=
  let n := zones_needed (blen d) in
  if n <=? blen (free s) then (Success, singles (ztake n (free s)), fill s (ztake n (free s)) d)
  else (SZDIOError, [], s).

Definition zone_data (s : t) (z : Z) : bytes :=
  let d := default [] (s !! z) in d ++ replicate (Z.to_nat (zone_bytes - blen d)) x00.

Definition read (s : t) (ptrs : regions) (size : Z) : SZDStatus * bytes :=
  if size <=? region_count ptrs * zone_bytes
  then (Success, ztake size (flat_map (zone_data s) (region_zones ptrs)))
  else (InvalidArguments, []).

Definition reset (s : t) (ptrs : regions) (w : Z) : SZDStatus * t :=
  (Success, foldr delete s (region_zones ptrs)).

Definition ops : FragmentedLog t := {|
  fl_Append := append;
  fl_Read := read;
  fl_Reset := reset;
  fl_SpaceLeft s n := zones_needed n <=? blen (free s);
  fl_SpaceAvailable s := blen (free s) * zone_bytes;
  fl_Encode s := [];
  fl_DecodeFrom s d := (Success, s)
|}.

(** The zones of the list hold the pieces of the data. *)
Fixpoint pieces (s : t) (zs : list Z) (d : bytes) : Prop :=
  match zs with
  | [] => d = []
  | z :: zs => s !! z = Some (ztake zone_bytes d) /\ pieces s zs (zdrop zone_bytes d)
  end.

Definition holds (s : t) (ptrs : regions) (d : bytes) : Prop :=
  exists zs, ptrs = singles zs /\ Forall (fun z => min_zone <= z < max_zone) zs /\ pieces s zs d.

Lemma singles_zones zs : region_zones (singles zs) = zs.
Proof. induction zs as [|z zs IH]; [done|]. unfold region_zones, singles in *. cbn [map flat_map]. by rewrite IH. Qed.
Lemma singles_count zs : region_count (singles zs) = blen zs.
Proof. induction zs as [|z zs IH]; [done|]. unfold region_count, singles in *. cbn [map foldr]. by rewrite IH, blen_cons. Qed.

Lemma fill_other s zs d z : z ∉ zs -> fill s zs d !! z = s !! z.
Proof.
  revert s d. induction zs as [|x zs IH]; intros s d Hn; [done|]. cbn [fill].
  rewrite IH by set_solver. apply lookup_insert_ne. set_solver.
Qed.

Lemma fill_pieces s zs d : NoDup zs -> blen d <= blen zs * zone_bytes -> pieces (fill s zs d) zs d.
Proof.
  revert s d. induction zs as [|z zs IH]; intros s d Hn Hd; cbn [fill pieces].
  - destruct d; [done|]. rewrite blen_cons, (blen_nil (A := Z)) in Hd. pose_blen. lia.
  - inversion Hn; subst. split; [by rewrite fill_other, lookup_insert_eq by done|].
    apply IH; [done|]. rewrite blen_cons in Hd. pose proof (blen_nonneg zs). len.
Qed.

Lemma pieces_ext s s' zs d : (forall z, z ∈ zs -> s' !! z = s !! z) -> pieces s zs d -> pieces s' zs d.
Proof.
  revert d. induction zs as [|z zs IH]; intros d He; [done|]. cbn [pieces]. intros [H1 H2].
  split; [rewrite He by set_solver; done|]. apply IH; [set_solver|done].
Qed.

Lemma pieces_lookup s zs d z : pieces s zs d -> z ∈ zs -> is_Some (s !! z).
Proof.
  revert d. induction zs as [|x zs IH]; intros d; [by intros _ ?%elem_of_nil|]. cbn [pieces].
  intros [H1 H2] [->|Hz']%elem_of_cons; [by rewrite H1|by eapply IH].
Qed.

Lemma zone_data_size s z d : s !! z = Some (ztake zone_bytes d) -> blen (zone_data s z) = zone_bytes.
Proof. intros E. unfold zone_data. rewrite E. cbn [default from_option id].
  rewrite blen_app, blen_replicate, blen_ztake. pose proof (blen_nonneg d). lia. Qed.

Lemma pieces_data s zs d :
  pieces s zs d -> exists pad, flat_map (zone_data s) zs = d ++ pad /\ blen (d ++ pad) = blen zs * zone_bytes.
Proof.
  revert d. induction zs as [|z zs IH]; intros d Hp; cbn [pieces flat_map] in *.
  - exists []. subst. done.
  - destruct Hp as [Hz' Hp]. destruct (IH _ Hp) as (pad & E & Hl).
    pose proof (zone_data_size s z d Hz') as Hs. rewrite E.
    destruct (Z.le_gt_cases (blen d) zone_bytes) as [Hle|Hgt].
    + assert (E0 : zdrop zone_bytes d = []) by (unfold zdrop; apply drop_ge; unfold blen in Hle; lia).
      rewrite E0 in *. rewrite app_nil_l in *. unfold zone_data in *. rewrite Hz' in *. cbn [default from_option id] in *.
      rewrite (ztake_all _ d) in * by done. rewrite <-app_assoc. eexists. split; [done|].
      rewrite app_assoc, blen_app, Hs, blen_cons. lia.
    + exists pad. assert (E1 : zone_data s z = ztake zone_bytes d).
      { unfold zone_data. rewrite Hz'. cbn [default from_option id]. replace (zone_bytes - blen (ztake zone_bytes d)) with 0 by len.
        by rewrite app_nil_r. }
      rewrite E1, app_assoc, ztake_zdrop in *. split; [done|]. rewrite blen_cons.
      rewrite <-(ztake_zdrop zone_bytes d), <-app_assoc, blen_app, Hs. lia.
Qed.

Lemma delete_other (s : t) zs z : z ∉ zs -> foldr delete s zs !! z = s !! z.
Proof.
  induction zs as [|x zs IH]; [done|]. intros Hn. cbn. rewrite lookup_delete_ne by set_solver. apply IH. set_solver.
Qed.

Definition laws : @FragmentedLogLaws t ops zone_bytes min_zone max_zone.
Proof.
  refine (@Build_FragmentedLogLaws t ops zone_bytes min_zone max_zone holds _ _ _ _ _);
    cbn [fl_Append fl_Read fl_Reset ops].
  - intros s ptrs d (zs & -> & Hr & _). apply Forall_map. eapply Forall_impl; [exact Hr|]. intros z [? ?]. cbn. split_and!; lia.
  - intros s d w ptrs s'. unfold append. destruct (Z.leb_spec (zones_needed (blen d)) (blen (free s))) as [Hn|]; [|done].
    intros [= <- <-]. set (zs := ztake (zones_needed (blen d)) (free s)).
    assert (Hzs : forall z, z ∈ zs -> s !! z = None /\ min_zone <= z < max_zone).
    { intros z Hzin. unfold zs, ztake in Hzin.
      eapply elem_of_sublist in Hzin; [|apply sublist_take].
      unfold free in Hzin. apply list_elem_of_filter in Hzin as [? [? ?]%elem_of_seqZ]. split; [done|lia]. }
    assert (Hnd : NoDup zs).
    { unfold zs, ztake. apply (sublist_NoDup _ (free s)); [|apply sublist_take]. apply NoDup_filter, NoDup_seqZ. }
    split.
    + exists zs. split_and!; [done|apply Forall_forall; naive_solver|]. apply fill_pieces; [done|].
      assert (Hk : 0 <= zones_needed (blen d) /\ blen d <= zones_needed (blen d) * zone_bytes).
      { unfold zones_needed. pose proof (blen_nonneg d). Z.to_euclidean_division_equations. nia. }
      unfold zs. rewrite blen_ztake, Z.min_l, Z.max_r by lia. lia.
    + intros q e (qs & -> & Hr & Hp). rewrite !singles_zones.
      assert (Hdis : forall z, z ∈ qs -> z ∉ zs).
      { intros z Hq Hzz. destruct (Hzs z Hzz) as [E _]. destruct (pieces_lookup s qs e z Hp Hq) as [? ?]. congruence. }
      split; [|intros z Hq Hzz; by apply (Hdis z)]. exists qs. split_and!; [done|done|].
      eapply pieces_ext; [|exact Hp]. intros z Hq. by apply fill_other, Hdis.
  - intros s d w r ptrs s'. unfold append. case_match; intros [= <- <- <-]; [done|]. done.
  - intros s ptrs d (zs & -> & Hr & Hp). unfold read. rewrite Z.leb_refl, singles_zones, singles_count.
    destruct (pieces_data s zs d Hp) as (pad & E & Hl). exists pad. rewrite E, ztake_all by lia. done.
  - intros s ptrs w r s' [= <- <-] q e (qs & -> & Hr & Hp) Hdis. rewrite singles_zones in Hdis.
    exists qs. split_and!; [done|done|]. eapply pieces_ext; [|exact Hp]. intros z Hq. apply delete_other. set_solver.
Defined.
End MemFrag.
End MemFrag.
