(* ===== verification/Wal.v ===== *)
(** * Wal: the write-ahead log

    [persistence/tropodb_wal.h] and [.cc] over a once log.  An entry is a write
    batch with a header: in a group commit the tag ["group"] with its
    terminating zero (6 bytes), the size and, when the log is unordered, a
    sequence number.  Entries are collected in a heap buffer that is committed
    as one record ([BufferedFlush]); replay parses the records, sorts the
    entries by sequence number and applies them to the memtable.

    The memtable is a parameter: its state and [Write].  The performance
    counters and the clock are left out. *)

From S2P Require Import Prelude Coding Crc32c DbFormat Config Committer Szd.

(** ** Write batches *)

(** [WriteBatchInternal::Sequence], db/write_batch.cc:695-697 *)
Definition batch_Sequence (rep : bytes) : option Z := DecodeFixed64 rep 0.

(** [WriteBatchInternal::Count], db/write_batch.cc:687-689 *)
Definition batch_Count (rep : bytes) : option Z := DecodeFixed32 rep 8.

(** [WriteBatchInternal::kHeader], db/write_batch_internal.h:82-82 *)
Definition kHeader : Z := 12.

(** [WriteBatchInternal::SetContents], db/write_batch.cc:2606-2612.  [None] is
    the failed assertion on the size. *)
Definition SetContents (contents : bytes) : option (Status * bytes) :=
  if kHeader <=? blen contents then Some (OK, contents) else None.

(** [sizeof("group")]: five letters and the terminating zero. *)
Definition group_tag : bytes := [x67; x72; x6f; x75; x70; x00].

(** ** State and operations *)

(** [TropoWAL], persistence/tropodb_wal.h:99-111 *)
Record TropoWAL (Log : Type) := mkWAL {
  w_log : Log;
  w_buffered : bool;
  w_buffsize : Z;
  w_buff : bytes;
  w_buff_pos : Z;
  w_group_commits : bool;
  w_unordered : bool;
  w_sequence_nr : Z
}.
Arguments mkWAL {_}. Arguments w_log {_}. Arguments w_buffered {_}. Arguments w_buffsize {_}.
Arguments w_buff {_}. Arguments w_buff_pos {_}. Arguments w_group_commits {_}.
Arguments w_unordered {_}. Arguments w_sequence_nr {_}.

Section Wal.
Context {Log : Type} `{OnceLog Log}.
Context (lba_size : Z) (mem_at : Z -> bytes).

Definition set_log (w : TropoWAL Log) (l : Log) : TropoWAL Log :=
  mkWAL l (w_buffered w) (w_buffsize w) (w_buff w) (w_buff_pos w) (w_group_commits w)
    (w_unordered w) (w_sequence_nr w).
Definition set_buff (w : TropoWAL Log) (b : bytes) (p : Z) : TropoWAL Log :=
  mkWAL (w_log w) (w_buffered w) (w_buffsize w) b p (w_group_commits w)
    (w_unordered w) (w_sequence_nr w).
Definition set_seq (w : TropoWAL Log) (n : Z) : TropoWAL Log :=
  mkWAL (w_log w) (w_buffered w) (w_buffsize w) (w_buff w) (w_buff_pos w) (w_group_commits w)
    (w_unordered w) n.

(** [TropoWAL::TropoWAL], persistence/tropodb_wal.cc:24-46.  [mem_at n] is the
    content of a fresh allocation of [n] bytes. *)
Definition newWAL (log : Log) (use_buffer group_commits allow_unordered : bool) : TropoWAL Log :=
  let buffsize := lba_size * wal_buffered_pages in
  mkWAL log use_buffer buffsize (if use_buffer then mem_at buffsize else []) 0
    group_commits allow_unordered 0.

(** [TropoWAL::SpaceNeeded], persistence/tropodb_wal.h:51-53, of a slice *)
Definition wal_SpaceNeeded (data : bytes) : Z := SpaceNeeded lba_size (blen data).

(** [TropoWAL::SpaceNeeded], persistence/tropodb_wal.h:48-50, of a size *)
Definition wal_SpaceNeeded_size (w : TropoWAL Log) (size : Z) : Z :=
  SpaceNeeded lba_size (size + w_buff_pos w + 2 * 8).

(** [TropoWAL::SpaceLeft], persistence/tropodb_wal.h:57-59, of a size; the
    committer's [SpaceEnough] adds its own overhead once more. *)
Definition wal_SpaceLeft_size (w : TropoWAL Log) (size : Z) : bool :=
  ol_SpaceLeft (w_log w) (SpaceNeeded lba_size (wal_SpaceNeeded_size w size)).

(** [TropoWAL::LightEncodeAppend], persistence/tropodb_wal.cc:56-77 *)
Definition LightEncodeAppend (w : TropoWAL Log) (data : bytes) : bytes * TropoWAL Log :=
  if w_unordered w then
    (group_tag ++ EncodeFixed64 (blen data) ++ EncodeFixed64 (w_sequence_nr w) ++ data,
     set_seq w (u32 (w_sequence_nr w + 1)))
  else (group_tag ++ EncodeFixed64 (blen data) ++ data, w).

(** [TropoWAL::EncodeAppend], persistence/tropodb_wal.cc:79-101.  The reported
    size is that of the bare data; the result is the prefix of [*out] of that
    size. *)
Definition EncodeAppend (w : TropoWAL Log) (data : bytes) : option (bytes * TropoWAL Log) :=
  let '(buf, w) :=
    if w_unordered w
    then (EncodeFixed64 (blen data) ++ EncodeFixed64 (w_sequence_nr w) ++ data,
          set_seq w (u32 (w_sequence_nr w + 1)))
    else (EncodeFixed64 (blen data) ++ data, w) in
  out ← CommitToCharArray lba_size mem_at buf;
  res ← slice 0 (wal_SpaceNeeded data) out;
  Some (res, w).

(** [TropoWAL::DirectAppend], persistence/tropodb_wal.cc:103-109 *)
Definition DirectAppend (w : TropoWAL Log) (data : bytes) : Status * TropoWAL Log :=
  let '(s, l) := ol_AsyncAppend (w_log w) data in (FromStatus s, set_log w l).

(** [TropoWAL::SubmitAppend], persistence/tropodb_wal.cc:111-116 *)
Definition SubmitAppend (w : TropoWAL Log) (data : bytes) : Status * TropoWAL Log :=
  let '(s, l) := ol_AsyncAppend (w_log w) data in (FromStatus s, set_log w l).

(** [TropoWAL::BufferedFlush], persistence/tropodb_wal.cc:118-133 *)
Definition BufferedFlush (w : TropoWAL Log) (data : bytes) : option (Status * TropoWAL Log) :=
  if w_group_commits w then
    let space_needed := wal_SpaceNeeded data in
    out ← CommitToCharArray lba_size mem_at data;
    out ← slice 0 space_needed out;
    Some (SubmitAppend w out)
  else Some (SubmitAppend w data).

(** [TropoWAL::DataSync], persistence/tropodb_wal.cc:135-142 *)
Definition DataSync (w : TropoWAL Log) : option (Status * TropoWAL Log) :=
  if w_buffered w && negb (w_buff_pos w =? 0) then
    data ← slice 0 (w_buff_pos w) (w_buff w);
    '(s, w) ← BufferedFlush w data;
    Some (s, set_buff w (w_buff w) 0)
  else Some (OK, w).

(** [TropoWAL::Sync], persistence/tropodb_wal.cc:144-153 *)
Definition Sync (w : TropoWAL Log) : option (Status * TropoWAL Log) :=
  '(s, w) ← DataSync w;
  if ok s then
    let '(r, l) := ol_Sync (w_log w) in Some (FromStatus r, set_log w l)
  else Some (s, w).

(** [TropoWAL::BufferedAppend], persistence/tropodb_wal.cc:155-190 *)
Definition BufferedAppend (w : TropoWAL Log) (data : bytes) : option (Status * TropoWAL Log) :=
  let sizeleft := w_buffsize w - w_buff_pos w in
  let sizeleft := if w_group_commits w then u64 (sizeleft - 1) else sizeleft in
  let sizeneeded := blen data in
  let sizeimpact :=
    if w_group_commits w then SpaceNeeded lba_size (w_buff_pos w + sizeneeded) else sizeneeded in
  let copy w :=
    buff ← put (w_buff_pos w) data (w_buff w);
    Some (OK, set_buff w buff (w_buff_pos w + sizeneeded)) in
  if sizeimpact <? sizeleft then copy w
  else
    '(s, w, sizeleft) ←
      (if w_buff_pos w =? 0 then Some (OK, w, sizeleft)
       else '(s, w) ← DataSync w; Some (s, w, w_buffsize w - w_buff_pos w));
    if negb (ok s) then Some (s, w)
    else if sizeimpact <? sizeleft then copy w
    else BufferedFlush w data.

(** [TropoWAL::Append], persistence/tropodb_wal.cc:192-217 *)
Definition Append (w : TropoWAL Log) (data : bytes) (sync : bool) : option (Status * TropoWAL Log) :=
  '(out, w) ← (if sync || negb (w_group_commits w) then EncodeAppend w data
               else Some (LightEncodeAppend w data));
  if sync then Some (DirectAppend w out)
  else if w_buffered w then BufferedAppend w out
  else Some (SubmitAppend w out).

(** ** Replay *)

Context {Mem : Type} (mem_write : Mem -> bytes -> Status * Mem).

(** The inner [do .. while (group_commits_)] loop of [ReplayUnordered] over one
    record.  Every round consumes at least the headers of an entry. *)
Fixpoint parse_unordered (fuel : nat) (group : bool) (record : bytes) (data_point : Z)
    (entries : list (Z * bytes)) (s : Status) : option (list (Z * bytes) * Status) :=
  match fuel with
  | O => None
  | S fuel =>
      let tag := ztake (blen group_tag) (zdrop data_point record) in
      if group && ((blen record <? data_point + blen group_tag) || negb (bool_decide (tag = group_tag)))
      then Some (entries, s)
      else
        let data_point := data_point + blen group_tag in
        data_size ← DecodeFixed64 record data_point;
        seq_nr ← DecodeFixed64 record (data_point + 8);
        if u64 (blen record - 2 * 8 - data_point) <? data_size then Some (entries, Corruption)
        else
          dat ← slice (data_point + 2 * 8) data_size record;
          let entries := entries ++ [(seq_nr, dat)] in
          if group then parse_unordered fuel group record (data_point + (data_size + 2 * 8)) entries s
          else Some (entries, s)
  end.

(** The outer [while (SeekCommitReaderString)] loop of [ReplayUnordered]. *)
Fixpoint collect_unordered (fuel : nat) (group : bool) (reader : TropoCommitReaderString)
    (entries : list (Z * bytes)) (s : Status) : option (list (Z * bytes) * Status) :=
  match fuel with
  | O => None
  | S fuel =>
      '(rec, reader) ← SeekCommitReaderString lba_size reader;
      match rec with
      | None => Some (entries, s)
      | Some record =>
          '(entries, s) ← parse_unordered (S (length record)) group record 0 entries s;
          collect_unordered fuel group reader entries s
      end
  end.

Definition entry_le (a b : Z * bytes) : Prop := fst a <= fst b.
#[export] Instance entry_le_dec : RelDecision entry_le.
Proof. intros a b. unfold entry_le. apply _. Defined.

(** The loop that applies the sorted entries. *)
Fixpoint apply_entries (es : list (Z * bytes)) (w : TropoWAL Log) (mem : Mem) (seq : Z) (s : Status)
    : option (Status * TropoWAL Log * Mem * Z) :=
  match es with
  | [] => Some (s, w, mem, seq)
  | (n, dat) :: es =>
      let w := set_seq w (u32 n) in
      '(s, batch) ← SetContents dat;
      if negb (ok s) then Some (s, w, mem, seq)
      else
        let '(s, mem) := mem_write mem batch in
        if negb (ok s) then Some (s, w, mem, seq)
        else
          q ← batch_Sequence batch; c ← batch_Count batch;
          let last_seq := u64 (q + c - 1) in
          let seq := if seq <? last_seq then last_seq else seq in
          apply_entries es w mem seq s
  end.

(** [TropoWAL::ReplayUnordered], persistence/tropodb_wal.cc:219-298.  [std::sort]
    orders by sequence number; a stable merge sort picks one of the orders it
    may produce for equal numbers. *)
Definition ReplayUnordered (w : TropoWAL Log) (mem : Mem) (seq : Z)
    : option (Status * TropoWAL Log * Mem * Z) :=
  if ol_Empty (w_log w) then Some (OK, w, mem, seq)
  else
    let '(r, commit_string) := ol_ReadAll (w_log w) in
    let s := FromStatus r in
    if negb (ok s) then Some (s, w, mem, seq)
    else
      let reader := GetCommitReaderString commit_string in
      '(entries, s) ← collect_unordered (S (length commit_string)) (w_group_commits w) reader [] s;
      apply_entries (merge_sort entry_le entries) w mem seq s.

(** The inner loop of [ReplayOrdered], which applies each entry at once. *)
Fixpoint replay_record (fuel : nat) (group : bool) (record : bytes) (data_point : Z)
    (mem : Mem) (seq : Z) (s : Status) : option (Status * Mem * Z) :=
  match fuel with
  | O => None
  | S fuel =>
      let tag := ztake (blen group_tag) (zdrop data_point record) in
      if group && ((blen record <? data_point + blen group_tag) || negb (bool_decide (tag = group_tag)))
      then Some (s, mem, seq)
      else
        let data_point := data_point + blen group_tag in
        data_size ← DecodeFixed64 record data_point;
        if u64 (blen record - 8 - data_point) <? data_size then Some (Corruption, mem, seq)
        else
          dat ← slice (8 + data_point) data_size record;
          '(s, batch) ← SetContents dat;
          if negb (ok s) then Some (s, mem, seq)
          else
            let '(s, mem) := mem_write mem batch in
            if negb (ok s) then Some (s, mem, seq)
            else
              q ← batch_Sequence batch; c ← batch_Count batch;
              let last_seq := u64 (q + c - 1) in
              let seq := if seq <? last_seq then last_seq else seq in
              if group then replay_record fuel group record (data_point + (data_size + 8)) mem seq s
              else Some (s, mem, seq)
  end.

(** The outer loop of [ReplayOrdered]. *)
Fixpoint replay_records (fuel : nat) (group : bool) (reader : TropoCommitReaderString)
    (mem : Mem) (seq : Z) (s : Status) : option (Status * Mem * Z) :=
  match fuel with
  | O => None
  | S fuel =>
      '(rec, reader) ← SeekCommitReaderString lba_size reader;
      match rec with
      | None => Some (s, mem, seq)
      | Some record =>
          '(s, mem, seq) ← replay_record (S (length record)) group record 0 mem seq s;
          replay_records fuel group reader mem seq s
      end
  end.

(** [TropoWAL::ReplayOrdered], persistence/tropodb_wal.cc:300-361 *)
Definition ReplayOrdered (w : TropoWAL Log) (mem : Mem) (seq : Z)
    : option (Status * TropoWAL Log * Mem * Z) :=
  if ol_Empty (w_log w) then Some (OK, w, mem, seq)
  else
    let '(r, commit_string) := ol_ReadAll (w_log w) in
    let s := FromStatus r in
    if negb (ok s) then Some (s, w, mem, seq)
    else
      let reader := GetCommitReaderString commit_string in
      '(s, mem, seq) ← replay_records (S (length commit_string)) (w_group_commits w) reader mem seq s;
      Some (s, w, mem, seq).

(** [TropoWAL::Replay], persistence/tropodb_wal.cc:380-391 *)
Definition Replay (w : TropoWAL Log) (mem : Mem) (seq : Z)
    : option (Status * TropoWAL Log * Mem * Z) :=
  if ol_Empty (w_log w) then Some (OK, w, mem, seq)
  else if w_unordered w then ReplayUnordered w mem seq else ReplayOrdered w mem seq.

(** [TropoWAL::Reset], persistence/tropodb_wal.cc:363-370 *)
Definition wal_Reset (w : TropoWAL Log) : Status * TropoWAL Log :=
  let '(s, l) := ol_ResetAll (w_log w) in (FromStatus s, set_seq (set_log w l) 0).

(** [TropoWAL::Recover], persistence/tropodb_wal.cc:372-378 *)
Definition wal_Recover (w : TropoWAL Log) : Status * TropoWAL Log :=
  let '(s, l) := ol_RecoverPointers (w_log w) in (FromStatus s, set_log w l).

(** [TropoWAL::MarkInactive], persistence/tropodb_wal.h:72-72 *)
Definition wal_MarkInactive (w : TropoWAL Log) : Status * TropoWAL Log :=
  let '(s, l) := ol_MarkInactive (w_log w) in (FromStatus s, set_log w l).

(** [TropoWAL::Close], persistence/tropodb_wal.cc:393-397.  The status of the
    sync is overwritten. *)
Definition wal_Close (w : TropoWAL Log) : option (Status * TropoWAL Log) :=
  '(_, w) ← Sync w; Some (wal_MarkInactive w).

End Wal.

(** ** What the log holds *)

(** An entry as [LightEncodeAppend] writes it, and a group of them. *)
Definition enc_entry (e : Z * bytes) : bytes :=
  group_tag ++ EncodeFixed64 (blen (snd e)) ++ EncodeFixed64 (fst e) ++ snd e.
Definition enc_group (g : list (Z * bytes)) : bytes := concat (map enc_entry g).

(** Batches numbered in append order. *)
Definition number_from (n : Z) (bs : list bytes) : list (Z * bytes) :=
  imap (fun i b => (n + Z.of_nat i, b)) bs.

(** The longest record the committer can hold, see [SpaceNeeded_exact]. *)
Definition max_record (lba_size : Z) : Z := (lba_size / 8 + 1) * (lba_size - 8).

Lemma number_from_cons n b bs : number_from n (b :: bs) = (n, b) :: number_from (n + 1) bs.
Proof.
  unfold number_from. simpl. f_equal; [f_equal; lia|]. apply imap_ext.
  intros i x _. simpl. f_equal. lia.
Qed.
Lemma number_from_snoc n bs b :
  number_from n (bs ++ [b]) = number_from n bs ++ [(n + blen bs, b)].
Proof.
  unfold number_from. rewrite imap_app. simpl. unfold blen. rewrite Nat.add_0_r. done.
Qed.
Lemma number_from_lookup n bs e :
  e ∈ number_from n bs -> n <= fst e < n + blen bs /\ snd e ∈ bs.
Proof.
  unfold number_from. intros (i & Hi)%list_elem_of_lookup.
  rewrite list_lookup_imap in Hi. destruct (bs !! i) eqn:E; simplify_eq/=.
  apply lookup_lt_Some in E as Hl. split; [unfold blen; lia|].
  by apply list_elem_of_lookup_2 in E.
Qed.
Lemma number_from_sorted n bs : StronglySorted entry_le (number_from n bs).
Proof.
  revert n. induction bs as [|b bs IH]; intros n; [constructor|].
  rewrite number_from_cons. constructor; [apply IH|].
  apply Forall_forall. intros e He. apply number_from_lookup in He. unfold entry_le; simpl. lia.
Qed.
Lemma number_from_inj n bs a b :
  a ∈ number_from n bs -> b ∈ number_from n bs -> fst a = fst b -> a = b.
Proof.
  unfold number_from. intros (i & Hi)%list_elem_of_lookup (j & Hj)%list_elem_of_lookup E.
  rewrite list_lookup_imap in Hi, Hj.
  destruct (bs !! i) eqn:E1, (bs !! j) eqn:E2; simplify_eq/=.
  assert (i = j) as -> by lia. simplify_eq. done.
Qed.

(** Sorting any arrangement of numbered batches restores the append order. *)
Lemma sort_number_from n bs es :
  es ≡ₚ number_from n bs -> merge_sort entry_le es = number_from n bs.
Proof.
  intros Hp. assert (Hm : merge_sort entry_le es ≡ₚ es) by apply merge_sort_Permutation.
  assert (Transitive entry_le) by (intros a b c; unfold entry_le; lia).
  assert (Total entry_le) by (intros a b; unfold entry_le; lia).
  apply (StronglySorted_unique_strong entry_le).
  - intros a b Ha Hb H1 H2. rewrite Hm, Hp in Ha.
    apply (number_from_inj n bs); [done..|]. unfold entry_le in *. lia.
  - by apply StronglySorted_merge_sort.
  - apply number_from_sorted.
  - by rewrite Hm.
Qed.

Lemma blen_enc_entry e : blen (enc_entry e) = 22 + blen (snd e).
Proof. unfold enc_entry, group_tag. len. Qed.

Lemma enc_group_app g h : enc_group (g ++ h) = enc_group g ++ enc_group h.
Proof. unfold enc_group. by rewrite map_app, concat_app. Qed.

Lemma enc_group_one e : enc_group [e] = enc_entry e.
Proof. unfold enc_group. cbn [map concat]. apply app_nil_r. Qed.

(** Parsing a group returns its entries. *)
Lemma parse_enc_group fuel g pre acc s :
  (length g < fuel)%nat -> blen (pre ++ enc_group g) < 2 ^ 63 ->
  Forall (fun e => is_u64 (fst e)) g ->
  parse_unordered fuel true (pre ++ enc_group g) (blen pre) acc s = Some (acc ++ g, s).
Proof.
  revert pre acc fuel. induction g as [|e g IH]; intros pre acc fuel Hf Hlen Hu;
    (destruct fuel as [|fuel]; [simpl in Hf; lia|]); cbn [parse_unordered].
  { unfold enc_group. simpl. rewrite !app_nil_r.
    rewrite (proj2 (Z.ltb_lt _ _)) by (unfold group_tag; len). done. }
  apply Forall_cons in Hu as [He Hu]. destruct e as [n d]. simpl in He.
  change (enc_group ((n, d) :: g)) with (enc_entry (n, d) ++ enc_group g) in *.
  pose proof (blen_enc_entry (n, d)) as Hel. cbn [snd] in Hel.
  set (rec := pre ++ enc_entry (n, d) ++ enc_group g) in *.
  assert (Hrec : blen rec = blen pre + 22 + blen d + blen (enc_group g)) by (unfold rec; len).
  pose proof (blen_nonneg pre). pose proof (blen_nonneg d). pose proof (blen_nonneg (enc_group g)).
  assert (Hr1 : rec = pre ++ group_tag ++ EncodeFixed64 (blen d) ++ EncodeFixed64 n ++ d ++ enc_group g).
  { unfold rec, enc_entry. cbn [fst snd]. by rewrite <-!app_assoc. }
  assert (Hg : blen group_tag = 6) by done. rewrite Hg.
  assert (ztake 6 (zdrop (blen pre) rec) = group_tag) as ->.
  { rewrite Hr1, zdrop_app_exact by done. by apply ztake_app_exact. }
  rewrite (proj2 (Z.ltb_ge _ _)) by lia. rewrite bool_decide_eq_true_2 by done. cbn [orb negb andb].
  assert (DecodeFixed64 rec (blen pre + 6) = Some (blen d)) as ->.
  { rewrite Hr1, app_assoc. apply DecodeFixed64_at; [word|len]. }
  obind. assert (DecodeFixed64 rec (blen pre + 6 + 8) = Some n) as ->.
  { rewrite Hr1, (app_assoc pre), (app_assoc (pre ++ group_tag)).
    apply DecodeFixed64_at; [done|len]. }
  obind. rewrite u64_small by (unfold is_u64; lia). rewrite (proj2 (Z.ltb_ge _ _)) by lia.
  assert (slice (blen pre + 6 + 2 * 8) (blen d) rec = Some d) as ->.
  { rewrite Hr1, (app_assoc pre), (app_assoc (pre ++ group_tag)), (app_assoc (_ ++ EncodeFixed64 (blen d))).
    apply slice_app_mid; len. }
  obind. replace (blen pre + 6 + (blen d + 2 * 8)) with (blen (pre ++ enc_entry (n, d))) by len.
  assert (rec = (pre ++ enc_entry (n, d)) ++ enc_group g) as Hr2 by (unfold rec; by rewrite <-app_assoc).
  rewrite Hr2. rewrite IH; [by rewrite <-app_assoc|simpl in Hf; lia|by rewrite <-Hr2|done].
Qed.

Section WalProofs.
Context {Log : Type} `{OnceLogLaws Log}.
Context (lba_size : Z) (HL : 16 <= lba_size <= 2 ^ 24) (mem_at : Z -> bytes).
Context (Hmem : forall n, 0 <= n -> blen (mem_at n) = n).

Lemma max_record_bound : lba_size <= max_record lba_size < 2 ^ 63.
Proof.
  unfold max_record. pose proof (Z.div_le_lower_bound lba_size 8 2).
  assert (lba_size / 8 < 2 ^ 24) by (apply Z.div_lt_upper_bound; lia). nia.
Qed.

Lemma group_small g : blen (enc_group g) <= max_record lba_size -> (length g <= length (enc_group g))%nat.
Proof.
  intros _. induction g as [|e g IH]; [done|]. unfold enc_group in *. simpl.
  rewrite length_app. pose proof (blen_enc_entry e). pose_blen. unfold blen in *. lia.
Qed.

(** The outer loop over a device that holds the records of some groups. *)
Lemma collect_groups fuel gs pre scratch acc :
  (length gs < fuel)%nat ->
  Forall (fun g => blen (enc_group g) <= max_record lba_size) gs ->
  Forall (Forall (fun e : Z * bytes => is_u64 (fst e))) gs ->
  let inp := pre ++ concat (map (fun g => record_image lba_size (enc_group g)) gs) in
  collect_unordered lba_size fuel true (mkReaderString 0 (blen inp) (blen pre) inp scratch) acc OK
  = Some (acc ++ concat gs, OK).
Proof.
  pose proof max_record_bound as Hmax.
  cbv zeta. revert gs pre scratch acc. induction fuel as [|fuel IH]; intros gs pre scratch acc Hf Hb Hu; [lia|].
  cbn [collect_unordered]. destruct gs as [|g gs]; cbn [map concat].
  { rewrite !app_nil_r. unfold SeekCommitReaderString; simpl. rewrite Z.leb_refl. done. }
  apply Forall_cons in Hb as [Hg Hb]. apply Forall_cons in Hu as [Hgu Hu].
  rewrite SeekCommitReaderString_spec by lia. obind.
  pose proof (parse_enc_group (S (length (enc_group g))) g [] acc OK) as Hp.
  rewrite app_nil_l in Hp. change (blen []) with 0 in Hp. rewrite Hp; [|apply group_small in Hg; lia|lia|done].
  obind. rewrite app_assoc. rewrite <-blen_app. rewrite IH by (done || (simpl in Hf; lia)).
  by rewrite <-app_assoc.
Qed.

(** The entries [es] are in the log or in the buffer: the device holds the
    records of some groups, the buffer one more group, and their concatenation
    is [es]. *)
Record wal_holds (w : TropoWAL Log) (es : list (Z * bytes)) : Prop := {
  wh_flags : w_buffered w = true /\ w_group_commits w = true /\ w_unordered w = true;
  wh_size : w_buffsize w = blen (w_buff w) /\ w_buffsize w <= max_record lba_size;
  wh_pos : 0 <= w_buff_pos w < w_buffsize w;
  wh_groups : exists gs g,
    es = concat gs ++ g /\
    ol_chunks (w_log w) = map (fun g => record_image lba_size (enc_group g)) gs /\
    slice 0 (w_buff_pos w) (w_buff w) = Some (enc_group g) /\
    Forall (fun g => blen (enc_group g) <= max_record lba_size) gs
}.

Lemma SpaceNeeded_ge n : 0 <= n -> n <= SpaceNeeded lba_size n.
Proof.
  intros Hn. unfold SpaceNeeded. change kTropoHeaderSize with 8. set (k := n / lba_size).
  assert (0 <= k) by (apply Z.div_pos; lia).
  pose proof (Z.div_mod ((k + 1) * 8 + n + lba_size - 1) lba_size).
  pose proof (Z.mod_pos_bound ((k + 1) * 8 + n + lba_size - 1) lba_size). lia.
Qed.

(** A commit within the bound is the image of the record. *)
Lemma BufferedFlush_spec w data :
  w_group_commits w = true -> blen data <= max_record lba_size ->
  BufferedFlush lba_size mem_at w data = Some (SubmitAppend w (record_image lba_size data)).
Proof.
  intros Hg Hd. unfold BufferedFlush, wal_SpaceNeeded. rewrite Hg.
  assert (8 < lba_size <= 2 ^ 24) as HL' by lia.
  pose proof (SpaceNeeded_exact lba_size HL' (blen data) ltac:(pose_blen; unfold max_record in Hd; lia)) as E.
  rewrite CommitToCharArray_spec, E, Z.eqb_refl by done. obind.
  pose proof (record_image_length lba_size HL' data) as Hl.
  pose proof (slice_0_app (record_image lba_size data) [] (frag_count lba_size (blen data) * lba_size)
    (eq_sym Hl)) as Hs.
  rewrite app_nil_r in Hs. by rewrite Hs.
Qed.

Lemma SubmitAppend_frame w d s w' :
  SubmitAppend w d = (s, w') -> exists l, w' = set_log w l /\
    (s = OK -> ol_chunks l = ol_chunks (w_log w) ++ [d]).
Proof.
  unfold SubmitAppend. destruct (ol_AsyncAppend (w_log w) d) as [r l] eqn:E. intros [= <- <-].
  exists l. split; [done|]. rewrite FromStatus_ok. intros ->. by apply ol_append_ok.
Qed.

(** With an empty buffer every entry is in a record of the log. *)
Lemma holds_flushed w es :
  wal_holds w es -> w_buff_pos w = 0 ->
  exists gs, es = concat gs /\ Forall (fun g => blen (enc_group g) <= max_record lba_size) gs /\
    ol_chunks (w_log w) = map (fun g => record_image lba_size (enc_group g)) gs.
Proof.
  intros [_ _ _ (gs & g & -> & Hc & Hbuf & Hf)] Hz. exists gs. split; [|done].
  destruct g as [|e g]; [by rewrite app_nil_r|]. exfalso.
  apply slice_Some in Hbuf as (_ & _ & _ & E). rewrite Hz in E. apply (f_equal blen) in E.
  change (enc_group (e :: g)) with (enc_entry e ++ enc_group g) in E.
  rewrite blen_app, blen_enc_entry in E. unfold ztake in E. simpl in E. len.
Qed.

Lemma DataSync_spec w es :
  wal_holds w es -> exists s w', DataSync lba_size mem_at w = Some (s, w') /\
    w_sequence_nr w' = w_sequence_nr w /\
    (s = OK -> wal_holds w' es /\ w_buff_pos w' = 0 /\
       exists gs, es = concat gs /\ Forall (fun g => blen (enc_group g) <= max_record lba_size) gs /\
         ol_chunks (w_log w') = map (fun g => record_image lba_size (enc_group g)) gs).
Proof.
  intros Hw. pose proof Hw as [(Hb & Hg & Hu) [Hs1 Hs2] Hp (gs & g & He & Hc & Hbuf & Hf)].
  unfold DataSync. rewrite Hb. destruct (Z.eqb_spec (w_buff_pos w) 0) as [Hz|Hz]; simpl.
  - exists OK, w. split_and!; [done..|]. intros _. split_and!; [done..|]. by apply holds_flushed.
  - subst es. rewrite Hbuf. obind. assert (Hgl : blen (enc_group g) = w_buff_pos w).
    { apply slice_Some in Hbuf as (? & ? & ? & ->). len. }
    rewrite BufferedFlush_spec by (done || lia). obind.
    destruct (SubmitAppend w _) as [s w1] eqn:E. apply SubmitAppend_frame in E as (l & -> & Hl).
    simpl. exists s, (set_buff (set_log w l) (w_buff w) 0). split_and!; [done..|]. intros Hok.
    assert (Hfull : ol_chunks l = map (fun g => record_image lba_size (enc_group g)) (gs ++ [g])).
    { rewrite (Hl Hok), Hc. by rewrite map_app. }
    assert (Hf' : Forall (fun g => blen (enc_group g) <= max_record lba_size) (gs ++ [g])).
    { apply Forall_app. split; [done|]. repeat constructor. lia. }
    assert (Hcat : concat gs ++ g = concat (gs ++ [g])) by (rewrite concat_app; simpl; by rewrite app_nil_r).
    split_and!; [|done|by exists (gs ++ [g])]. constructor; simpl; [done..|lia|].
    exists (gs ++ [g]), []. rewrite app_nil_r. split_and!; [done..| |done]. by apply (slice_0_app []).
Qed.

(** A sync that reports OK leaves the entries on the device. *)
Lemma Sync_ok w es w' :
  wal_holds w es -> Sync lba_size mem_at w = Some (OK, w') ->
  wal_holds w' es /\ w_buff_pos w' = 0 /\ ol_synced (w_log w') /\ w_sequence_nr w' = w_sequence_nr w.
Proof.
  intros Hw Hs. destruct (DataSync_spec w es Hw) as (s & w1 & HD & Hq & HD2).
  unfold Sync in Hs. rewrite HD in Hs. cbn [mbind option_bind] in Hs.
  destruct (ok s) eqn:Es; [|by simplify_eq]. assert (s = OK) as -> by (by destruct s).
  destruct HD2 as ([? ? ? (gs & g & ? & ? & ? & ?)] & Hz & _); [done|].
  destruct (ol_Sync (w_log w1)) as [r l] eqn:El. injection Hs as Hr <-. apply FromStatus_ok in Hr as ->.
  apply ol_sync_ok in El as [Hc Hsy]. split_and!; simpl; [|done..].
  constructor; [done..|]. exists gs, g. simpl. by rewrite Hc.
Qed.

Lemma Sync_total w es : wal_holds w es -> exists s w', Sync lba_size mem_at w = Some (s, w').
Proof.
  intros Hw. destruct (DataSync_spec w es Hw) as (s & w1 & HD & _ & _). unfold Sync. rewrite HD. obind.
  destruct (ok s); [|by eexists _, _]. destruct (ol_Sync (w_log w1)). by eexists _, _.
Qed.

Lemma wal_copy w es e :
  wal_holds w es -> blen (enc_entry e) < w_buffsize w - w_buff_pos w ->
  exists buff, put (w_buff_pos w) (enc_entry e) (w_buff w) = Some buff /\
    wal_holds (set_buff w buff (w_buff_pos w + blen (enc_entry e))) (es ++ [e]).
Proof.
  intros [Hfl [Hs1 Hs2] Hp (gs & g & -> & Hc & Hbuf & Hf)] Hlt. pose proof (blen_nonneg (enc_entry e)).
  apply slice_Some in Hbuf as (_ & _ & _ & Hbuf). rewrite zdrop_0 in Hbuf.
  set (p := w_buff_pos w) in *. remember (enc_entry e) as d eqn:Hde.
  assert (Hput : put p d (w_buff w) = Some (ztake p (w_buff w) ++ d ++ zdrop (blen d) (zdrop p (w_buff w)))).
  { rewrite <-(ztake_zdrop p (w_buff w)) at 1. apply put_app; len. }
  eexists. split; [exact Hput|]. constructor; simpl; [done|split; [len|lia]|fold p; lia|].
  exists gs, (g ++ [e]). rewrite app_assoc. split_and!; [done..| |done].
  rewrite <-Hbuf, app_assoc. rewrite enc_group_app, enc_group_one, <-Hde.
  apply slice_0_app. rewrite blen_app, Hbuf. len.
Qed.

(** Appending an entry keeps everything and adds the entry, or fails. *)
Lemma BufferedAppend_spec w es e :
  wal_holds w es -> blen (enc_entry e) <= max_record lba_size ->
  exists s w', BufferedAppend lba_size mem_at w (enc_entry e) = Some (s, w') /\
    w_sequence_nr w' = w_sequence_nr w /\ (s = OK -> wal_holds w' (es ++ [e])).
Proof.
  intros Hw Hd. pose proof Hw as [(Hb & Hg & Hu) [Hs1 Hs2] Hp _].
  pose proof max_record_bound as Hmax. pose proof (blen_nonneg (enc_entry e)).
  unfold BufferedAppend. rewrite Hg.
  rewrite (u64_small (_ - 1)) by (unfold is_u64; lia).
  pose proof (SpaceNeeded_ge (w_buff_pos w + blen (enc_entry e)) ltac:(lia)) as Hge.
  set (imp := SpaceNeeded lba_size (w_buff_pos w + blen (enc_entry e))) in *.
  destruct (Z.ltb_spec imp (w_buffsize w - w_buff_pos w - 1)).
  { destruct (wal_copy w es e Hw ltac:(lia)) as (buff & -> & Hh). obind. by eexists _, _. }
  assert (Hflush : forall w1, wal_holds w1 es -> w_buff_pos w1 = 0 -> w_sequence_nr w1 = w_sequence_nr w ->
    (exists gs, es = concat gs /\ Forall (fun g => blen (enc_group g) <= max_record lba_size) gs /\
         ol_chunks (w_log w1) = map (fun g => record_image lba_size (enc_group g)) gs) ->
    exists s w', BufferedFlush lba_size mem_at w1 (enc_entry e) = Some (s, w') /\
      w_sequence_nr w' = w_sequence_nr w /\ (s = OK -> wal_holds w' (es ++ [e]))).
  { intros w1 [(Hb1 & Hg1 & Hu1) Hsz1 Hp1 _] Hz1 Hq1 (gs & -> & Hf & Hc).
    rewrite BufferedFlush_spec by done. destruct (SubmitAppend w1 _) as [s w2] eqn:E.
    apply SubmitAppend_frame in E as (l & -> & Hl). exists s, (set_log w1 l). split_and!; [done..|].
    intros Hok. constructor; simpl; [done..|]. exists (gs ++ [[e]]), [].
    rewrite concat_app, (Hl Hok), Hc, map_app, Hz1, app_nil_r. cbn [map concat].
    rewrite enc_group_one. split_and!; [done..|by apply (slice_0_app [])|].
    apply Forall_app. split; [done|]. repeat constructor. by rewrite enc_group_one. }
  destruct (DataSync_spec w es Hw) as (s & w1 & HD & Hq1 & HD2).
  destruct (Z.eqb_spec (w_buff_pos w) 0) as [Hz|Hz].
  - obind. cbn [ok negb]. rewrite (proj2 (Z.ltb_ge _ _)) by lia.
    unfold DataSync in HD. rewrite Hb, Hz in HD. simpl in HD. simplify_eq.
    destruct HD2 as (? & ? & ?); [done|]. by apply Hflush.
  - rewrite HD. obind. destruct (ok s) eqn:Hok; simpl; [|eexists _, _; split_and!; [done|done|]; by intros ->].
    assert (s = OK) as -> by (by destruct s). destruct HD2 as (Hw1 & Hz1 & Hgs); [done|].
    destruct (Z.ltb_spec imp (w_buffsize w1 - w_buff_pos w1)); [|by apply Hflush].
    destruct (wal_copy w1 es e Hw1 ltac:(lia)) as (buff & -> & Hh). obind. by eexists _, _.
Qed.

(** An asynchronous append adds the batch under the next number, or fails. *)
Lemma Append_spec w es b :
  wal_holds w es -> 22 + blen b <= max_record lba_size ->
  exists s w', Append lba_size mem_at w b false = Some (s, w') /\
    w_sequence_nr w' = u32 (w_sequence_nr w + 1) /\
    (s = OK -> wal_holds w' (es ++ [(w_sequence_nr w, b)])).
Proof.
  intros Hw Hb. pose proof (wh_flags _ _ Hw) as (Hbuf & Hg & Hu).
  unfold Append. rewrite Hg. cbn [orb negb]. unfold LightEncodeAppend. rewrite Hu. obind.
  set (w1 := set_seq w _). assert (Hw1 : wal_holds w1 es) by (destruct Hw; by constructor).
  change (w_buffered w1) with (w_buffered w). rewrite Hbuf.
  change (group_tag ++ EncodeFixed64 (blen b) ++ EncodeFixed64 (w_sequence_nr w) ++ b)
    with (enc_entry (w_sequence_nr w, b)).
  destruct (BufferedAppend_spec w1 es (w_sequence_nr w, b) Hw1) as (s & w2 & -> & Hq & Hok).
  { by rewrite blen_enc_entry. }
  by exists s, w2.
Qed.

(** The client's asynchronous appends, stopping at the first error. *)
Fixpoint append_all (w : TropoWAL Log) (bs : list bytes) : option (Status * TropoWAL Log) :=
  match bs with
  | [] => Some (OK, w)
  | b :: bs =>
      '(s, w) ← Append lba_size mem_at w b false;
      if ok s then append_all w bs else Some (s, w)
  end.

Lemma append_all_spec w es bs :
  wal_holds w es -> Forall (fun b => 22 + blen b <= max_record lba_size) bs ->
  0 <= w_sequence_nr w -> w_sequence_nr w + blen bs < 2 ^ 32 ->
  exists s w', append_all w bs = Some (s, w') /\
    (s = OK -> wal_holds w' (es ++ number_from (w_sequence_nr w) bs)).
Proof.
  revert w es. induction bs as [|b bs IH]; intros w es Hw Hb Hs0 Hs.
  { exists OK, w. split; [done|]. intros _. by rewrite app_nil_r. }
  apply Forall_cons in Hb as [Hb Hbs]. rewrite blen_cons in Hs. pose proof (blen_nonneg bs).
  cbn [append_all]. destruct (Append_spec w es b Hw Hb) as (s & w2 & -> & Hq & Hok). obind.
  destruct (ok s) eqn:Eok; [|exists s, w2; split; [done|]; by intros ->].
  assert (s = OK) as -> by (by destruct s).
  assert (Hq' : w_sequence_nr w2 = w_sequence_nr w + 1).
  { rewrite Hq. apply u32_small. unfold is_u32. lia. }
  destruct (IH w2 (es ++ [(w_sequence_nr w, b)])) as (s & w' & -> & H'); [by apply Hok|done|lia..|].
  exists s, w'. split; [done|]. intros ->. specialize (H' eq_refl).
  rewrite Hq', <-app_assoc in H'. by rewrite number_from_cons.
Qed.

(** A fresh object over a log that holds the records of some groups. *)
Lemma newWAL_holds_groups log gs :
  ol_chunks log = map (fun g => record_image lba_size (enc_group g)) gs ->
  Forall (fun g => blen (enc_group g) <= max_record lba_size) gs ->
  wal_holds (newWAL lba_size mem_at log true true true) (concat gs).
Proof.
  intros Hc Hf. pose proof max_record_bound. unfold newWAL, wal_buffered_pages. rewrite Z.mul_1_r.
  constructor; simpl; [done| |lia|].
  - rewrite Hmem by lia. lia.
  - exists gs, []. split_and!; [by rewrite app_nil_r|done|by apply (slice_0_app [])|done].
Qed.
Lemma newWAL_holds log :
  ol_chunks log = [] -> wal_holds (newWAL lba_size mem_at log true true true) [].
Proof. intros Hc. by apply (newWAL_holds_groups log []). Qed.

(** A log without data has no records, and so no entries. *)
Lemma holds_empty w es :
  wal_holds w es -> w_buff_pos w = 0 -> ol_Empty (w_log w) = true -> ol_chunks (w_log w) = [] /\ es = [].
Proof.
  intros Hw Hz Hemp. destruct (holds_flushed w es Hw Hz) as (gs & -> & Hf & Hc).
  apply ol_empty_ok in Hemp. destruct gs as [|g gs]; [done|]. exfalso. rewrite Hc in Hemp.
  simpl in Hemp. apply app_eq_nil in Hemp as [Hemp _]. assert (HL' : 8 < lba_size <= 2 ^ 24) by lia.
  pose proof (record_image_length lba_size HL' (enc_group g)) as Hl. rewrite Hemp in Hl.
  pose proof (frag_count_bounds lba_size HL' (blen (enc_group g)) ltac:(pose_blen; lia)) as (? & _).
  change (blen []) with 0 in Hl. nia.
Qed.

Section Replay.
Context {Mem : Type} (mem_write : Mem -> bytes -> Status * Mem).

(** Replay applies the entries of the log, sorted by their numbers. *)
Lemma Replay_perm w es str :
  wal_holds w es -> w_buff_pos w = 0 -> ol_synced (w_log w) ->
  Forall (fun e : Z * bytes => is_u64 (fst e)) es -> ol_ReadAll (w_log w) = (Success, str) ->
  exists es', es' ≡ₚ es /\ forall mem seq,
    Replay lba_size mem_write w mem seq = apply_entries mem_write (merge_sort entry_le es') w mem seq OK.
Proof.
  intros Hw Hz Hsync Hes Hr. unfold Replay. destruct (ol_Empty (w_log w)) eqn:Hemp.
  { destruct (holds_empty w es Hw Hz Hemp) as [_ ->]. by exists []. }
  destruct (holds_flushed w es Hw Hz) as (gs & Hcat & Hf & Hc).
  pose proof (wh_flags _ _ Hw) as (_ & Hg & Hu). assert (HL' : 8 < lba_size <= 2 ^ 24) by lia.
  rewrite Hu. unfold ReplayUnordered. rewrite Hemp, Hr, Hg. cbn [FromStatus ok negb].
  destruct (ol_read_ok _ _ Hsync Hr) as (p & Hp & ->). rewrite Hc in Hp.
  apply Permutation_map_inv in Hp as (gs' & -> & Hp).
  assert (Hf' : Forall (fun g => blen (enc_group g) <= max_record lba_size) gs') by (by rewrite <-Hp).
  exists (concat gs'). split; [by rewrite Hcat, Hp|]. intros mem seq.
  pose proof (collect_groups (S (length (concat (map (fun g => record_image lba_size (enc_group g)) gs'))))
    gs' [] deadbeef []) as E. cbv zeta in E. rewrite app_nil_l in E.
  unfold GetCommitReaderString. change (blen []) with 0 in E. rewrite E.
  - done.
  - (* at most one record per byte *)
    clear -HL'. induction gs' as [|g gs' IH]; [simpl; lia|]. cbn [map concat length]. rewrite length_app.
    pose proof (record_image_length lba_size HL' (enc_group g)) as Hl.
    pose proof (frag_count_bounds lba_size HL' (blen (enc_group g)) ltac:(pose_blen; lia)) as (? & _).
    unfold blen in Hl at 1. nia.
  - done.
  - apply Forall_forall. intros g Hg'. rewrite <-Hp in Hg'. apply Forall_forall. intros e He.
    rewrite Forall_forall in Hes. apply Hes. rewrite Hcat. apply list_elem_of_In, in_concat. exists g.
    by rewrite <-!list_elem_of_In.
Qed.

Lemma Replay_spec w bs mem seq str :
  wal_holds w (number_from 0 bs) -> w_buff_pos w = 0 -> ol_synced (w_log w) -> blen bs < 2 ^ 32 ->
  ol_ReadAll (w_log w) = (Success, str) ->
  Replay lba_size mem_write w mem seq = apply_entries mem_write (number_from 0 bs) w mem seq OK.
Proof.
  intros Hw Hz Hsync Hbs Hr. destruct (Replay_perm w _ str Hw Hz Hsync) as (es' & Hp & ->); [|done|].
  - apply Forall_forall. intros e He. apply number_from_lookup in He. unfold is_u64. lia.
  - by rewrite (sort_number_from 0 bs).
Qed.

(** The batches written to the memtable one after the other. *)
Fixpoint write_batches (bs : list bytes) (mem : Mem) (seq : Z) : option (Status * Mem * Z) :=
  match bs with
  | [] => Some (OK, mem, seq)
  | b :: bs =>
      '(s, batch) ← SetContents b;
      if negb (ok s) then Some (s, mem, seq)
      else
        let '(s, mem) := mem_write mem batch in
        if negb (ok s) then Some (s, mem, seq)
        else
          q ← batch_Sequence batch; c ← batch_Count batch;
          let last_seq := u64 (q + c - 1) in
          write_batches bs mem (if seq <? last_seq then last_seq else seq)
  end.

Lemma write_batches_app bs bs' mem seq :
  write_batches (bs ++ bs') mem seq =
  ('(s, mem, seq) ← write_batches bs mem seq;
   if negb (ok s) then Some (s, mem, seq) else write_batches bs' mem seq).
Proof.
  revert mem seq. induction bs as [|b bs IH]; intros mem seq; [done|]. cbn [app write_batches].
  destruct (SetContents b) as [[s batch]|]; [|done]. obind. destruct (ok s) eqn:E1; cbn [negb]; [|obind; by rewrite E1].
  destruct (mem_write mem batch) as [s2 mem2]. destruct (ok s2) eqn:E2; cbn [negb]; [|obind; by rewrite E2].
  destruct (batch_Sequence batch); [|done]. obind. destruct (batch_Count batch); [|done]. obind. apply IH.
Qed.

(** Replay of sorted entries writes their batches. *)
Lemma apply_entries_write es (w : TropoWAL Log) mem seq :
  is_u32 (w_sequence_nr w) ->
  exists n, is_u32 n /\ apply_entries mem_write es w mem seq OK =
    ('(s, mem, seq) ← write_batches (snd <$> es) mem seq; Some (s, set_seq w n, mem, seq)).
Proof.
  intros Hn. revert w Hn mem seq. induction es as [|[n d] es IH]; intros w Hn mem seq.
  { exists (w_sequence_nr w). split; [done|]. by destruct w. }
  cbn [fmap list_fmap write_batches apply_entries snd].
  assert (Hu : is_u32 (u32 n)) by (apply u32_range).
  destruct (SetContents d) as [[s1 batch]|]; [|by eexists]. obind.
  destruct (ok s1) eqn:E1; cbn [negb]; [|by eexists].
  destruct (mem_write mem batch) as [s2 mem2].
  destruct (ok s2) eqn:E2; cbn [negb]; [|by eexists].
  assert (s2 = OK) as -> by (by destruct s2).
  destruct (batch_Sequence batch); [|by eexists]. obind. destruct (batch_Count batch); [|by eexists]. obind.
  apply (IH (set_seq w (u32 n)) Hu).
Qed.

(** C10: the write-ahead log gives back what was appended: on an empty log, in
    the group-commit, buffered, unordered mode that TropoDB configures, any
    sequence of asynchronous appends of batches that fit a record never leaves
    a buffer; once the appends and a sync have reported OK, replay applies
    exactly these batches to the memtable, in append order, however the device
    reordered the records. *)
Theorem wal_replay_roundtrip log bs mem seq :
  ol_chunks log = [] -> Forall (fun b => 22 + blen b <= max_record lba_size) bs -> blen bs < 2 ^ 32 ->
  exists s w, append_all (newWAL lba_size mem_at log true true true) bs = Some (s, w) /\
  (s = OK -> exists s' w', Sync lba_size mem_at w = Some (s', w') /\
   (s' = OK -> forall str, ol_ReadAll (w_log w') = (Success, str) ->
    Replay lba_size mem_write w' mem seq = apply_entries mem_write (number_from 0 bs) w' mem seq OK)).
Proof.
  intros Hlog Hb Hn.
  destruct (append_all_spec _ [] bs (newWAL_holds log Hlog) Hb) as (s & w & Ha & Hw); [simpl; lia..|].
  exists s, w. split; [done|]. intros ->. specialize (Hw eq_refl). simpl in Hw.
  destruct (Sync_total w _ Hw) as (s1 & w1 & Hs1). exists s1, w1. split; [done|]. intros -> str Hr.
  destruct (Sync_ok _ _ _ Hw Hs1) as (? & ? & ? & _). by eapply Replay_spec.
Qed.

Lemma not_group_tag v rest :
  0 <= v < 2 ^ 32 -> ztake 6 (EncodeFixed64 v ++ rest) <> group_tag.
Proof.
  intros Hv E. unfold EncodeFixed64 in E. rewrite !le_bytes_S in E.
  assert (Hz : v / 256 / 256 / 256 / 256 = 0).
  { rewrite !Z.div_div by lia. apply Z.div_small. lia. }
  rewrite Hz in E. apply (f_equal (fun l => l !! 4%nat)) in E. vm_compute in E. done.
Qed.

(** C31: a synchronous append is not recovered.  In group-commit mode
    [EncodeAppend] omits the tag that replay looks for: whatever batch (shorter
    than 4 GiB and filling the same blocks with and without its header) is
    appended with [sync = true] to an empty log, even after every call has
    reported OK, replay reports OK and leaves the memtable untouched. *)
Theorem wal_sync_append_lost log b mem seq w w' str :
  ol_chunks log = [] -> blen b < 2 ^ 32 -> 16 + blen b <= max_record lba_size ->
  SpaceNeeded lba_size (blen b) = SpaceNeeded lba_size (16 + blen b) ->
  Append lba_size mem_at (newWAL lba_size mem_at log true true true) b true = Some (OK, w) ->
  Sync lba_size mem_at w = Some (OK, w') -> ol_ReadAll (w_log w') = (Success, str) ->
  Replay lba_size mem_write w' mem seq = Some (OK, w', mem, seq).
Proof.
  intros Hlog Hb Hmax Hsp Ha Hs Hr. assert (HL' : 8 < lba_size <= 2 ^ 24) by lia.
  pose proof (blen_nonneg b).
  set (rec := EncodeFixed64 (blen b) ++ EncodeFixed64 0 ++ b).
  assert (Hrl : blen rec = 16 + blen b) by (unfold rec; len).
  pose proof (record_image_length lba_size HL' rec) as Hil. rewrite Hrl in Hil.
  pose proof (SpaceNeeded_exact lba_size HL' (16 + blen b) ltac:(unfold max_record in *; lia)) as Hex.
  unfold Append, EncodeAppend, newWAL in Ha.
  cbn [orb w_unordered w_sequence_nr set_seq w_log w_buffered w_buffsize w_buff w_buff_pos w_group_commits] in Ha.
  fold rec in Ha. rewrite CommitToCharArray_spec, Hrl, Hex, Z.eqb_refl in Ha by done.
  cbn [mbind option_bind] in Ha. unfold wal_SpaceNeeded in Ha. rewrite Hsp, Hex in Ha.
  pose proof (slice_0_app (record_image lba_size rec) [] _ (eq_sym Hil)) as Hsl. rewrite app_nil_r in Hsl.
  rewrite Hsl in Ha. cbn [mbind option_bind DirectAppend w_log] in Ha. unfold DirectAppend in Ha.
  cbn [w_log set_seq] in Ha. destruct (ol_AsyncAppend log (record_image lba_size rec)) as [r l] eqn:Ea.
  injection Ha as Hr1 <-. apply FromStatus_ok in Hr1 as ->. apply ol_append_ok in Ea. rewrite Hlog in Ea.
  unfold Sync, DataSync in Hs. cbn in Hs. destruct (ol_Sync l) as [r l'] eqn:Esy. injection Hs as Hr2 <-.
  apply FromStatus_ok in Hr2 as ->. apply ol_sync_ok in Esy as [Ech Hsync]. rewrite Ea in Ech.
  cbn [w_log set_log] in Hr. destruct (ol_read_ok _ _ Hsync Hr) as (p & Hp & ->).
  rewrite Ech in Hp. apply Permutation_singleton_r in Hp as ->. cbn [concat] in *. rewrite app_nil_r in *.
  pose proof (frag_count_bounds lba_size HL' (16 + blen b) ltac:(lia)) as (Hfc & _).
  unfold Replay, ReplayUnordered. cbn [w_log set_log set_seq w_unordered w_group_commits].
  destruct (ol_Empty l') eqn:He; [done|]. rewrite Hr. cbn [FromStatus ok negb].
  unfold GetCommitReaderString. set (img := record_image lba_size rec) in *.
  pose proof (SeekCommitReaderString_spec lba_size HL' [] rec [] deadbeef) as Hseek. cbv zeta in Hseek.
  fold img in Hseek. rewrite app_nil_l, app_nil_r in Hseek. change (blen []) with 0 in Hseek.
  destruct (length img) as [|n] eqn:Hn; [assert (blen img = 0) by (unfold blen; by rewrite Hn); nia|].
  cbn [collect_unordered]. rewrite Hseek. obind. cbn [parse_unordered].
  rewrite zdrop_0. change (blen group_tag) with 6. rewrite (bool_decide_eq_false_2 _ (not_group_tag (blen b) _ ltac:(lia))).
  rewrite orb_true_r. cbn [andb negb]. obind.
  cbn [collect_unordered]. unfold SeekCommitReaderString. cbn [rs_commit_end rs_commit_ptr].
  rewrite (proj2 (Z.leb_le _ _)) by lia. obind. done.
Qed.
End Replay.
End WalProofs.

(** An allocator that clears its memory. *)
Definition zero_mem (n : Z) : bytes := replicate (Z.to_nat n) x00.
Lemma zero_mem_length n : 0 <= n -> blen (zero_mem n) = n.
Proof. intros. unfold zero_mem. rewrite blen_replicate. lia. Qed.

(** A memtable that lists the batches written to it. *)
Definition list_mem_write (mem : list bytes) (b : bytes) : Status * list bytes := (OK, mem ++ [b]).

Definition witness_batch (c : byte) : bytes := replicate 13 c.

Lemma wal_replay_roundtrip_witness :
  exists w' : TropoWAL RevLog.t, Replay 64 list_mem_write w' [] 0
    = apply_entries list_mem_write (number_from 0 [witness_batch x01; witness_batch x02]) w' [] 0 OK.
Proof.
  destruct (wal_replay_roundtrip 64 ltac:(lia) zero_mem zero_mem_length list_mem_write (RevLog.mk 4096 [])
    [witness_batch x01; witness_batch x02] [] 0) as (s & w & Ha & Hs).
  - reflexivity.
  - repeat constructor; vm_compute; congruence.
  - reflexivity.
  - assert (s = OK) as Hok.
    { vm_compute in Ha. congruence. }
    destruct (Hs Hok) as (s' & w' & Hy & Hr).
    assert (s' = OK) as Hok'.
    { vm_compute in Ha. injection Ha as <- <-. vm_compute in Hy. congruence. }
    exists w'. apply (Hr Hok' (snd (ol_ReadAll (w_log w')))). reflexivity.
Defined.

Lemma wal_sync_append_lost_witness :
  exists w' : TropoWAL RevLog.t, Replay 64 list_mem_write w' [] 0 = Some (OK, w', [], 0) /\
    w_log w' <> RevLog.mk 4096 [].
Proof.
  destruct (Append 64 zero_mem
    (newWAL 64 zero_mem (RevLog.mk 4096 []) true true true)
    (witness_batch x01) true) as [[s w]|] eqn:Ea; [|vm_compute in Ea; discriminate].
  assert (s = OK) by (vm_compute in Ea; congruence). subst s.
  destruct (Sync 64 zero_mem w) as [[s w']|] eqn:Es;
    [|vm_compute in Ea; injection Ea as <-; vm_compute in Es; discriminate].
  assert (s = OK) by (vm_compute in Ea; injection Ea as <-; vm_compute in Es; congruence). subst s.
  exists w'. split.
  - apply (wal_sync_append_lost 64 ltac:(lia) zero_mem zero_mem_length list_mem_write (RevLog.mk 4096 [])
      (witness_batch x01) [] 0 w w' (snd (ol_ReadAll (w_log w')))); try reflexivity.
    + vm_compute. congruence.
    + exact Ea.
    + exact Es.
  - vm_compute in Ea. injection Ea as <-. vm_compute in Es. injection Es as <-. vm_compute. congruence.
Defined.
