(* ===== verification/WalManager.v ===== *)
(** * WalManager: the circular array of write-ahead logs

    [persistence/tropodb_wal_manager.h] and [.ipp].  A manager owns [N] logs and
    uses them in a circle: the logs from the tail up to the head may hold data,
    the one before the head is the current one.  [NewWAL] moves the head,
    [ResetOldWALs] the tail, and [Recover] finds both after a restart and
    replays every log.

    The indices are [size_t] values below [N + 1]; they are natural numbers
    here.  A failed assertion is [None] in a debug build; in a release build
    ([NDEBUG]) the code goes on.  The diagnostics and performance counters are
    left out. *)

From S2P Require Import Prelude Coding Crc32c DbFormat Config Committer Szd Wal.

(** A log of the manager with its reference count ([RefCounter]). *)
Record wal_ref (Log : Type) := mkRef { wr_wal : TropoWAL Log; wr_refs : Z }.
Arguments mkRef {_}. Arguments wr_wal {_}. Arguments wr_refs {_}.

(** [TropoWALManager], persistence/tropodb_wal_manager.h:38-45 *)
Record TropoWALManager (Log : Type) := mkWALManager {
  wals_ : list (wal_ref Log);
  wal_head_ : nat;
  wal_tail_ : nat;
  current_wal_ : option nat
}.
Arguments mkWALManager {_}. Arguments wals_ {_}. Arguments wal_head_ {_}.
Arguments wal_tail_ {_}. Arguments current_wal_ {_}.

Section WalManager.
Context {Log : Type} `{OnceLog Log}.
Context (lba_size : Z) (mem_at : Z -> bytes) (NDEBUG : bool) (N : nat).

(** [assert(false)]: it ends a debug build only. *)
Definition assert_false : option unit := if NDEBUG then Some tt else None.

Definition set_wals (m : TropoWALManager Log) (ws : list (wal_ref Log)) : TropoWALManager Log :=
  mkWALManager ws (wal_head_ m) (wal_tail_ m) (current_wal_ m).
Definition set_head (m : TropoWALManager Log) (h : nat) : TropoWALManager Log :=
  mkWALManager (wals_ m) h (wal_tail_ m) (current_wal_ m).
Definition set_tail (m : TropoWALManager Log) (t : nat) : TropoWALManager Log :=
  mkWALManager (wals_ m) (wal_head_ m) t (current_wal_ m).
Definition set_current (m : TropoWALManager Log) (c : option nat) : TropoWALManager Log :=
  mkWALManager (wals_ m) (wal_head_ m) (wal_tail_ m) c.
Definition set_wal (m : TropoWALManager Log) (i : nat) (w : TropoWAL Log) : TropoWALManager Log :=
  set_wals m (alter (fun r => mkRef w (wr_refs r)) i (wals_ m)).

(** [RefCounter::Ref] and [RefCounter::Unref] of a log. *)
Definition wal_Ref (m : TropoWALManager Log) (i : nat) : TropoWALManager Log :=
  set_wals m (alter (fun r => mkRef (wr_wal r) (wr_refs r + 1)) i (wals_ m)).
Definition wal_Unref (m : TropoWALManager Log) (i : nat) : TropoWALManager Log :=
  set_wals m (alter (fun r => mkRef (wr_wal r) (wr_refs r - 1)) i (wals_ m)).

(** The logs of the constructor: [N] ranges of zones of equal size.  [new_log]
    is the constructor of the device log over a range of zones. *)
Definition wal_ranges (new_log : Z -> Z -> Log) (min_zone_nr wal_range : Z) : list Log :=
  (fun i => let wal_walker := min_zone_nr + Z.of_nat i * wal_range in
            new_log wal_walker (wal_walker + wal_range)) <$> seq 0 N.

(** A manager over given logs. *)
Definition manage (logs : list Log) : TropoWALManager Log :=
  mkWALManager
    ((fun l => mkRef (newWAL lba_size mem_at l wal_allow_buffering wal_allow_group_commit wal_unordered) 1) <$> logs)
    0 (N - 1) None.

(** [TropoWALManager::TropoWALManager], persistence/tropodb_wal_manager.ipp:26-55.
    [None] is the failed assertion on the number of zones.  The assertion on
    line 37 names a member that [DeviceInfo] does not have. *)
Definition newWALManager (new_log : Z -> Z -> Log) (min_zone_nr max_zone_nr : Z)
    : option (TropoWALManager Log) :=
  let wal_range := (max_zone_nr - min_zone_nr) / Z.of_nat N in
  _ ← (if (max_zone_nr - min_zone_nr) mod Z.of_nat N =? 0 then Some tt else assert_false);
  Some (manage (wal_ranges new_log min_zone_nr wal_range)).

(** [TropoWALManager::~TropoWALManager], persistence/tropodb_wal_manager.ipp:57-69:
    every log is synced, whatever it reports. *)
Fixpoint sync_all (ws : list (wal_ref Log)) : option (list (wal_ref Log)) :=
  match ws with
  | [] => Some []
  | r :: ws =>
      '(_, w) ← Sync lba_size mem_at (wr_wal r);
      ws ← sync_all ws;
      Some (mkRef w (wr_refs r - 1) :: ws)
  end.

(** [TropoWALManager::WALAvailable], persistence/tropodb_wal_manager.ipp:71-83 *)
Definition WALAvailable (m : TropoWALManager Log) : option bool :=
  if (wal_head_ m =? wal_tail_ m)%nat then _ ← assert_false; Some false
  else if (wal_tail_ m <? wal_head_ m)%nat
  then Some ((wal_head_ m <? N)%nat || (0 <? wal_tail_ m)%nat)
  else Some (wal_head_ m + 1 <? wal_tail_ m)%nat.

(** [TropoWALManager::NewWAL], persistence/tropodb_wal_manager.ipp:85-105.  The
    second result is what is stored in [*wal]. *)
Definition NewWAL (m : TropoWALManager Log) : option (Status * option nat * TropoWALManager Log) :=
  available ← WALAvailable m;
  if negb available then Some (Busy, None, m)
  else
    m ← match current_wal_ m with
        | None => Some m
        | Some c =>
            r ← wals_ m !! c;
            '(_, w) ← wal_Close lba_size mem_at (wr_wal r);
            Some (set_wal m c w)
        end;
    let m := set_current m (Some (wal_head_ m)) in
    r ← wals_ m !! wal_head_ m;
    _ ← (if ol_Empty (w_log (wr_wal r)) then Some tt else assert_false);
    let h := (wal_head_ m + 1)%nat in
    Some (OK, current_wal_ m, set_head m (if (h =? N)%nat then 0 else h)%nat).

(** [TropoWALManager::GetCurrentWAL], persistence/tropodb_wal_manager.ipp:107-121 *)
Definition GetCurrentWAL (m : TropoWALManager Log) : option (option nat * TropoWALManager Log) :=
  match current_wal_ m with
  | Some c => Some (Some c, m)
  | None =>
      if ((wal_head_ m =? 0)%nat && (wal_tail_ m =? N - 1)%nat)
         || (negb (wal_head_ m =? 0)%nat && (wal_head_ m - 1 =? wal_tail_ m)%nat)
      then '(_, _, m) ← NewWAL m; Some (current_wal_ m, m)
      else
        let m := set_current m (Some (if (wal_head_ m =? 0)%nat then N - 1 else wal_head_ m - 1)%nat) in
        Some (current_wal_ m, m)
  end.

(** A [while] loop of [ResetOldWALs]: reset the log at the tail and move the
    tail, as long as [go]; [true] when it returns early because of a reference.
    The status of a reset is not looked at. *)
Fixpoint reset_loop (fuel : nat) (go : nat -> bool) (m : TropoWALManager Log)
    : option (bool * TropoWALManager Log) :=
  match fuel with
  | O => None
  | S fuel =>
      if go (wal_tail_ m) then
        r ← wals_ m !! wal_tail_ m;
        if 1 <? wr_refs r then Some (true, m)
        else
          let '(_, w) := wal_Reset (wr_wal r) in
          let m := set_wal m (wal_tail_ m) w in
          reset_loop fuel go (set_tail m (wal_tail_ m + 1)%nat)
      else Some (false, m)
  end.

(** [TropoWALManager::ResetOldWALs], persistence/tropodb_wal_manager.ipp:123-147.
    The tail moves at most [N] times in each loop. *)
Definition ResetOldWALs (m : TropoWALManager Log) : option (Status * TropoWALManager Log) :=
  '(ret, m) ←
    (if (wal_head_ m <? wal_tail_ m)%nat
     then reset_loop (S N) (fun t => (t <? N)%nat && (0 <? wal_head_ m)%nat || (t <? N - 1)%nat) m
     else Some (false, m));
  if (ret : bool) then Some (OK, m)
  else
    let m := if (wal_tail_ m =? N)%nat then set_tail m 0 else m in
    '(_, m) ← reset_loop (S N) (fun t => t + 2 <? wal_head_ m)%nat m;
    Some (OK, m).

(** ** Recovery *)

(** The first loop of [Recover]: the write pointers of every log. *)
Fixpoint recover_all (ws : list (wal_ref Log)) : Status * list (wal_ref Log) :=
  match ws with
  | [] => (OK, [])
  | r :: ws =>
      let '(s, w) := wal_Recover (wr_wal r) in
      if negb (ok s) then (s, mkRef w (wr_refs r) :: ws)
      else let '(s, ws) := recover_all ws in (s, mkRef w (wr_refs r) :: ws)
  end.

(** The second loop of [Recover], over which logs are empty, from index [i]:
    the head and the tail. *)
Fixpoint find_pointers (i : nat) (empty : list bool) (first_non_empty first_empty_after_non_empty : bool)
    (h t : nat) : nat * nat :=
  match empty with
  | [] => (h, t)
  | e :: empty =>
      if negb e && negb first_non_empty
      then find_pointers (S i) empty true first_empty_after_non_empty (i + 1) (if (0 <? i)%nat then i else t)
      else if negb e && first_empty_after_non_empty then (h, i)
      else if negb e && first_non_empty
      then find_pointers (S i) empty first_non_empty first_empty_after_non_empty (i + 1) t
      else if e && negb first_empty_after_non_empty && first_non_empty
      then find_pointers (S i) empty first_non_empty true h t
      else find_pointers (S i) empty first_non_empty first_empty_after_non_empty h t
  end.

Context {Mem : Type} (mem_write : Mem -> bytes -> Status * Mem).

(** Replay of the log at an index. *)
Definition replay_wal (m : TropoWALManager Log) (i : nat) (mem : Mem) (seq : Z)
    : option (Status * TropoWALManager Log * Mem * Z) :=
  r ← wals_ m !! i;
  '(s, w, mem, seq) ← Replay lba_size mem_write (wr_wal r) mem seq;
  Some (s, set_wal m i w, mem, seq).

(** The third loop of [Recover], from index [i] downwards to the head. *)
Fixpoint replay_loop (fuel : nat) (i : nat) (m : TropoWALManager Log) (mem : Mem) (seq : Z)
    : option (Status * TropoWALManager Log * Mem * Z) :=
  match fuel with
  | O => None
  | S fuel =>
      if (i =? wal_head_ m)%nat then replay_wal m (wal_head_ m) mem seq
      else
        '(s, m, mem, seq) ← replay_wal m i mem seq;
        if negb (ok s) then Some (s, m, mem, seq)
        else replay_loop fuel (if (i =? 0)%nat then N - 1 else i - 1)%nat m mem seq
  end.

(** [TropoWALManager::Recover], persistence/tropodb_wal_manager.ipp:149-195 *)
Definition WALManager_Recover (m : TropoWALManager Log) (mem : Mem) (seq : Z)
    : option (Status * TropoWALManager Log * Mem * Z) :=
  let '(s, ws) := recover_all (wals_ m) in
  let m := set_wals m ws in
  if negb (ok s) then Some (s, m, mem, seq)
  else
    let '(h, t) := find_pointers 0 ((fun r => ol_Empty (w_log (wr_wal r))) <$> wals_ m)
                     false false (wal_head_ m) (wal_tail_ m) in
    let m := set_tail (set_head m (if (N <=? h)%nat then 0 else h)%nat) t in
    replay_loop N (if (wal_head_ m =? 0)%nat then N - 1 else wal_head_ m - 1)%nat m mem seq.

End WalManager.

(** ** What the manager holds *)

Section Proofs.
Context {Log : Type} `{OnceLogLaws Log}.
Context (lba_size : Z) (HL : 16 <= lba_size <= 2 ^ 24) (mem_at : Z -> bytes).
Context (Hmem : forall n, 0 <= n -> blen (mem_at n) = n).
Context (NDEBUG : bool) (N : nat).

(** The index [k] places after [t] in the circle. *)
Definition pos (t k : nat) : nat := if (t + k <? N)%nat then (t + k)%nat else (t + k - N)%nat.

Ltac pos_lia := unfold pos in *; repeat (case_match || case_decide); rewrite ?Nat.ltb_lt, ?Nat.ltb_ge in *; lia.

(** The log of [r] holds the batches [seg] in append order.  The numbers they
    were given need not be distinct: after a restart the log goes on with the
    number of the last entry. *)
Record ref_holds (r : wal_ref Log) (seg : list bytes) : Prop := {
  rh_holds : exists es, wal_holds lba_size (wr_wal r) es /\ snd <$> es = seg /\
    Forall (fun e : Z * bytes => is_u64 (fst e)) es;
  rh_seq : is_u32 (w_sequence_nr (wr_wal r))
}.

(** The log is out of use: nothing is buffered or outstanding, and only the
    manager refers to it. *)
Record ref_closed (r : wal_ref Log) : Prop := {
  rc_pos : w_buff_pos (wr_wal r) = 0;
  rc_synced : ol_synced (w_log (wr_wal r));
  rc_refs : wr_refs r <= 1
}.

(** [segs] are the batches of the logs from the tail to the head.  The tail may
    be [N] while [ResetOldWALs] moves it. *)
Record mgr_holds (m : TropoWALManager Log) (segs : list (list bytes)) : Prop := {
  mh_len : length (wals_ m) = N;
  mh_tail : (wal_tail_ m <= N)%nat;
  mh_count : (0 < length segs < N)%nat;
  mh_head : wal_head_ m = pos (wal_tail_ m) (length segs);
  mh_wals : forall k, (k < N)%nat -> exists r, wals_ m !! pos (wal_tail_ m) k = Some r /\
    ref_holds r (default [] (segs !! k)) /\
    (current_wal_ m <> Some (pos (wal_tail_ m) k) -> ref_closed r) /\
    ((length segs <= k)%nat -> ol_chunks (w_log (wr_wal r)) = []);
  mh_current : current_wal_ m = None \/ current_wal_ m = Some (pos (wal_tail_ m) (length segs - 1))
}.

Lemma pos_lt t k : (t <= N)%nat -> (k < N)%nat -> (pos t k < N)%nat.
Proof. intros. pos_lia. Qed.
Lemma pos_inj t k k' : (t <= N)%nat -> (k < N)%nat -> (k' < N)%nat -> pos t k = pos t k' -> k = k'.
Proof. intros. pos_lia. Qed.
Lemma pos_surj t i : (t <= N)%nat -> (i < N)%nat -> exists k, (k < N)%nat /\ i = pos t k.
Proof.
  intros. destruct (decide (t <= i)%nat).
  - exists (i - t)%nat. pos_lia.
  - exists (i + N - t)%nat. pos_lia.
Qed.
Lemma pos_S t k : (t < N)%nat -> (S k < N)%nat -> pos (t + 1) k = pos t (S k).
Proof. intros. pos_lia. Qed.

(** Changing one log changes what its place holds. *)
Lemma lookup_alter_wal (f : wal_ref Log -> wal_ref Log) (ws : list (wal_ref Log)) (i j : nat) :
  alter f i ws !! j = (if decide (i = j) then f <$> ws !! j else ws !! j).
Proof.
  case_decide as E; [subst|]; [apply list_lookup_alter_eq|by apply list_lookup_alter_ne].
Qed.

(** A change of the log at place [k], and of the current log, keeps the rest. *)
Lemma mgr_holds_alter m segs k f seg cur :
  mgr_holds m segs -> (k < length segs)%nat ->
  cur = current_wal_ m \/ cur = None /\ current_wal_ m = Some (pos (wal_tail_ m) k) ->
  (forall r, wals_ m !! pos (wal_tail_ m) k = Some r -> ref_holds r (default [] (segs !! k)) ->
    (current_wal_ m <> Some (pos (wal_tail_ m) k) -> ref_closed r) ->
    ref_holds (f r) seg /\ (cur <> Some (pos (wal_tail_ m) k) -> ref_closed (f r))) ->
  mgr_holds (set_current (set_wals m (alter f (pos (wal_tail_ m) k) (wals_ m))) cur) (<[k:=seg]> segs).
Proof.
  intros [Hl Ht Hc Hh Hw Hcur] Hk Hcc Hf.
  constructor; simpl; rewrite ?length_alter, ?length_insert; [done..| |naive_solver].
  intros j Hj. destruct (Hw j Hj) as (r & Hr & Hrh & Hrc & Hre). rewrite lookup_alter_wal.
  destruct (decide (k = j)) as [<-|Hne].
  - rewrite decide_True, Hr by done. eexists. split; [done|]. destruct (Hf r Hr Hrh Hrc).
    rewrite list_lookup_insert_eq by done. split_and!; [done..|lia].
  - rewrite decide_False by (intros E; apply pos_inj in E; lia). exists r.
    rewrite list_lookup_insert_ne by done. split_and!; [done..| |done]. intros Hcur'. apply Hrc.
    destruct Hcc as [->|[-> ->]]; [done|]. intros E. injection E as E. apply pos_inj in E; lia.
Qed.

(** ** Availability and new logs *)

Lemma WALAvailable_spec m segs :
  mgr_holds m segs -> (wal_tail_ m < N)%nat -> (length segs + 1 < N)%nat -> WALAvailable NDEBUG N m = Some true.
Proof.
  intros [Hl Ht Hc Hh Hw Hcur] Htl Hn. unfold WALAvailable. rewrite Hh. unfold pos.
  destruct (Nat.ltb_spec (wal_tail_ m + length segs) N).
  - rewrite (proj2 (Nat.eqb_neq _ _)), (proj2 (Nat.ltb_lt _ _)) by lia. do 2 f_equal.
    by apply orb_true_intro, or_introl, Nat.ltb_lt.
  - rewrite (proj2 (Nat.eqb_neq _ _)), (proj2 (Nat.ltb_ge _ _)) by lia. f_equal. apply Nat.ltb_lt. lia.
Qed.

Lemma wal_MarkInactive_ok w es s w' :
  wal_holds lba_size w es -> wal_MarkInactive w = (s, w') ->
  wal_holds lba_size w' es /\ w_buff_pos w' = w_buff_pos w /\ w_sequence_nr w' = w_sequence_nr w /\
  (ol_synced (w_log w) -> ol_synced (w_log w')).
Proof.
  intros [? ? ? (gs & g & ? & Hc & ? & ?)]. unfold wal_MarkInactive.
  destruct (ol_MarkInactive (w_log w)) as [r l] eqn:E. intros [= <- <-].
  apply ol_inactive_ok in E as [E ?]. split_and!; [|done..]. constructor; [done..|].
  exists gs, g. simpl. by rewrite E.
Qed.

Lemma wal_Close_ok w es w' :
  wal_holds lba_size w es -> Sync lba_size mem_at w = Some (OK, w') ->
  exists s w'', wal_Close lba_size mem_at w = Some (s, w'') /\ wal_holds lba_size w'' es /\
    w_buff_pos w'' = 0 /\ ol_synced (w_log w'') /\ w_sequence_nr w'' = w_sequence_nr w.
Proof.
  intros Hw Hs. destruct (Sync_ok lba_size HL mem_at Hmem _ _ _ Hw Hs) as (Hw1 & Hz & Hsy & Hq). unfold wal_Close. rewrite Hs. obind.
  destruct (wal_MarkInactive w') as [s w''] eqn:E. exists s, w''. split; [done|].
  destruct (wal_MarkInactive_ok _ _ _ _ Hw1 E) as (? & Hz' & Hq' & ?). split_and!; [done|congruence|auto|congruence].
Qed.

(** An empty log is found to be empty. *)
Lemma Empty_nil (l : Log) : ol_chunks l = [] -> ol_Empty l = true.
Proof. intros E. apply ol_empty_ok. by rewrite E. Qed.

(** The current log is closed before the head moves. *)
Lemma close_current m segs :
  mgr_holds m segs ->
  (forall c r, current_wal_ m = Some c -> wals_ m !! c = Some r ->
    wr_refs r <= 1 /\ exists w', Sync lba_size mem_at (wr_wal r) = Some (OK, w')) ->
  exists m1,
    match current_wal_ m with
    | None => Some m
    | Some c =>
        r ← wals_ m !! c;
        '(_, w) ← wal_Close lba_size mem_at (wr_wal r);
        Some (set_wal m c w)
    end = Some m1 /\
    wal_head_ m1 = wal_head_ m /\ wal_tail_ m1 = wal_tail_ m /\ mgr_holds (set_current m1 None) segs /\
    (current_wal_ m = None -> m1 = m).
Proof.
  intros Hm Hcl. pose proof Hm as [Hl Ht Hc Hh Hw Hcur]. destruct (current_wal_ m) as [c|] eqn:Ec.
  - destruct Hcur as [|Hcur]; [done|]. injection Hcur as ->. set (k := (length segs - 1)%nat) in *.
    destruct (Hw k ltac:(lia)) as (r & Hr & [(es & Hrh & Hes & Hu) Hrq] & _ & Hre). rewrite Hr. obind.
    destruct (Hcl _ _ eq_refl Hr) as (Href & w' & Hs).
    destruct (wal_Close_ok _ _ _ Hrh Hs) as (s & w'' & -> & Hw2 & Hz & Hsy & Hq). obind.
    eexists. split_and!; [done..| |done]. rewrite <-(list_insert_id segs k (default [] (segs !! k))).
    + apply mgr_holds_alter; [done|lia|by right|]. intros r' Hr' _ _. simplify_eq.
      split; [|intros _]; constructor; simpl; [by exists es|congruence|done..].
    + by destruct (lookup_lt_is_Some_2 segs k ltac:(lia)) as [? ->].
  - exists m. split_and!; [done..| |done]. by constructor.
Qed.

Lemma NewWAL_spec m segs :
  mgr_holds m segs -> (wal_tail_ m < N)%nat -> (length segs + 1 < N)%nat ->
  (forall c r, current_wal_ m = Some c -> wals_ m !! c = Some r ->
    wr_refs r <= 1 /\ exists w', Sync lba_size mem_at (wr_wal r) = Some (OK, w')) ->
  exists m', NewWAL lba_size mem_at NDEBUG N m = Some (OK, Some (wal_head_ m), m') /\
    mgr_holds m' (segs ++ [[]]) /\ current_wal_ m' = Some (wal_head_ m) /\ wal_tail_ m' = wal_tail_ m /\
    (current_wal_ m = None -> wals_ m' = wals_ m) /\
    exists r, wals_ m' !! wal_head_ m = Some r /\ ref_closed r.
Proof.
  intros Hm Ht Hn Hcl. unfold NewWAL. rewrite (WALAvailable_spec m segs Hm Ht Hn). obind. cbn [negb].
  destruct (close_current m segs Hm Hcl) as (m1 & -> & Eh & Et & Hm1 & Hsame). obind.
  destruct Hm1 as [Hl Htl Hc Hh Hw _]. cbn in Hl, Htl, Hc, Hh, Hw. cbn.
  destruct (Hw (length segs) ltac:(lia)) as (r & Hr & Hrh & Hrc & Hre).
  rewrite Hh, Hr. obind. rewrite Empty_nil by auto. obind. rewrite <-Eh, Hh. eexists. split_and!; [done| |done|done| |].
  2: { intros Hn'. by rewrite (Hsame Hn'). }
  2: { exists r. split; [done|]. by apply Hrc. }
  constructor; simpl; rewrite ?length_app; simpl; [done|done|lia| | |right].
  - unfold pos. destruct (Nat.ltb_spec (wal_tail_ m1 + length segs) N);
      destruct (Nat.ltb_spec (wal_tail_ m1 + (length segs + 1)) N); case_match;
      rewrite ?Nat.eqb_eq, ?Nat.eqb_neq in *; lia.
  - intros k Hk. destruct (Hw k Hk) as (r' & Hr' & Hrh' & Hrc' & Hre'). exists r'. split_and!; [done| | |].
    + replace (default [] ((segs ++ [[]]) !! k)) with (default [] (segs !! k)); [done|].
      destruct (decide (k < length segs)%nat); [by rewrite lookup_app_l|].
      rewrite lookup_app_r, (lookup_ge_None_2 segs) by lia. by destruct (k - length segs)%nat.
    + intros _. by apply Hrc'.
    + intros. apply Hre'. lia.
  - f_equal. f_equal. lia.
Qed.

(** ** Resetting old logs *)

Section Reset.
Context (Hreset : forall l : Log, fst (ol_ResetAll l) = Success).

Lemma wal_Reset_ok w es :
  wal_holds lba_size w es -> w_buff_pos w = 0 -> exists w', wal_Reset w = (OK, w') /\
    wal_holds lba_size w' [] /\ w_buff_pos w' = 0 /\ w_sequence_nr w' = 0 /\
    ol_synced (w_log w') /\ ol_chunks (w_log w') = [].
Proof.
  intros [? ? Hp _] Hz. unfold wal_Reset. destruct (ol_ResetAll (w_log w)) as [s l] eqn:E.
  pose proof (Hreset (w_log w)) as Hs. rewrite E in Hs. simpl in Hs. subst s.
  apply ol_reset_ok in E as [E ?]. eexists. split_and!; [done| |done..].
  constructor; simpl; [done..|]. exists [], []. rewrite Hz. split_and!; [done..| |constructor].
  by apply (slice_0_app []).
Qed.

(** The log at the tail is reset and the tail moves over it. *)
Lemma reset_one m seg segs :
  mgr_holds m (seg :: segs) -> (wal_tail_ m < N)%nat -> segs <> [] ->
  exists r w, wals_ m !! wal_tail_ m = Some r /\ wr_refs r <= 1 /\ wal_Reset (wr_wal r) = (OK, w) /\
    mgr_holds (set_tail (set_wal m (wal_tail_ m) w) (wal_tail_ m + 1)) segs.
Proof.
  intros [Hl Ht Hc Hh Hw Hcur] Htl Hne. simpl in Hc, Hh, Hcur.
  assert (Hlen : (0 < length segs)%nat) by (destruct segs; simpl; [done|lia]).
  assert (Hp0 : pos (wal_tail_ m) 0 = wal_tail_ m) by pos_lia.
  assert (HpS : forall k, (S k < N)%nat -> pos (wal_tail_ m + 1) k = pos (wal_tail_ m) (S k)) by (intros; by apply pos_S).
  assert (Hpne : forall k, (0 < k < N)%nat -> pos (wal_tail_ m) k <> wal_tail_ m) by (intros; pos_lia).
  destruct (Hw 0%nat ltac:(lia)) as (r & Hr & [(es & Hrh & _) _] & Hrc & _). rewrite Hp0 in Hr, Hrc.
  destruct Hrc as [Hz Hsy Href].
  { destruct Hcur as [->| ->]; [done|]. intros E. injection E as E. by apply Hpne in E; [|lia]. }
  destruct (wal_Reset_ok _ _ Hrh Hz) as (w & Hres & Hw' & Hz' & Hq' & Hsy' & Hc').
  exists r, w. split_and!; [done..|]. constructor; simpl; rewrite ?length_alter; [done|lia|lia| | |].
  - rewrite Hh. pos_lia.
  - intros k Hk. rewrite lookup_alter_wal. destruct (decide (S k < N)%nat) as [HSk|HSk].
    + rewrite HpS by done. destruct (Hw (S k) HSk) as (r' & Hr' & ? & ? & ?).
      rewrite decide_False by (symmetry; apply Hpne; lia).
      exists r'. split_and!; [done..|]. intros. apply H3. simpl. lia.
    + assert (pos (wal_tail_ m + 1) k = wal_tail_ m) as -> by pos_lia. rewrite decide_True, Hr by done.
      eexists. split; [done|]. rewrite lookup_ge_None_2 by lia. split_and!; [|intros _|done]; constructor; simpl; [by exists []|by rewrite Hq'|done..].
  - destruct Hcur as [->| ->]; [by left|right]. rewrite HpS by lia. do 2 f_equal. lia.
Qed.

Lemma refs_set_wal (ws : list (wal_ref Log)) i w :
  wr_refs <$> alter (fun r => mkRef w (wr_refs r)) i ws = wr_refs <$> ws.
Proof.
  apply list_eq. intros j. rewrite !list_lookup_fmap, lookup_alter_wal. case_decide; [|done].
  by destruct (ws !! j).
Qed.

Lemma reset_loop_spec fuel go e m segs :
  mgr_holds m segs -> (forall t, go t = (t <? e)%nat) -> (e <= N)%nat -> (e - wal_tail_ m < length segs)%nat ->
  (e - wal_tail_ m < fuel)%nat ->
  exists m', reset_loop fuel go m = Some (false, m') /\ wal_tail_ m' = (wal_tail_ m `max` e)%nat /\
    wal_head_ m' = wal_head_ m /\ current_wal_ m' = current_wal_ m /\ wr_refs <$> wals_ m' = wr_refs <$> wals_ m /\
    mgr_holds m' (drop (e - wal_tail_ m) segs).
Proof.
  intros Hm Hgo HeN. revert m segs Hm. induction fuel as [|fuel IH]; intros m segs Hm Hlen Hf; [lia|].
  cbn [reset_loop]. rewrite Hgo. destruct (Nat.ltb_spec (wal_tail_ m) e) as [Hlt|Hge].
  - destruct segs as [|seg segs]; [simpl in Hlen; lia|]. simpl in Hlen.
    destruct (reset_one m seg segs Hm) as (r & w & -> & Href & Hres & Hm'); [lia|intros ->; simpl in Hlen; lia|].
    obind. rewrite (proj2 (Z.ltb_ge _ _)), Hres by done.
    destruct (IH _ _ Hm') as (m' & Hl' & Ht' & Hh' & Hc' & Hrf & Hm2); [simpl; lia..|].
    exists m'. simpl in *. split_and!; [done|lia|done|done|by rewrite Hrf, refs_set_wal|].
    replace (e - wal_tail_ m)%nat with (S (e - (wal_tail_ m + 1)))%nat by lia. done.
  - exists m. replace (e - wal_tail_ m)%nat with 0%nat by lia. split_and!; [done|lia|done..].
Qed.

Lemma mgr_holds_wrap m segs :
  mgr_holds m segs -> wal_tail_ m = N -> mgr_holds (set_tail m 0) segs.
Proof.
  intros [Hl Ht Hc Hh Hw Hcur] E. rewrite E in *.
  assert (Hp : forall k, (k < N)%nat -> pos N k = pos 0 k) by (intros; pos_lia).
  constructor; simpl; [done|lia|done| | |].
  - rewrite Hh. apply Hp. lia.
  - intros k Hk. rewrite <-Hp by done. by apply Hw.
  - rewrite <-Hp by lia. done.
Qed.

(** At most two logs remain, the current one among them. *)
Lemma ResetOldWALs_spec m segs :
  mgr_holds m segs -> (wal_tail_ m < N)%nat ->
  exists m' k, ResetOldWALs N m = Some (OK, m') /\ mgr_holds m' (drop k segs) /\ (wal_tail_ m' < N)%nat /\
    (length (drop k segs) <= 2)%nat /\ current_wal_ m' = current_wal_ m /\
    wr_refs <$> wals_ m' = wr_refs <$> wals_ m /\ (k + 1 <= length segs)%nat.
Proof.
  intros Hm Ht. pose proof Hm as [_ _ Hc Hh _ _]. unfold ResetOldWALs.
  destruct (Nat.ltb_spec (wal_head_ m) (wal_tail_ m)) as [Hlt|Hge].
  - set (e := if (0 <? wal_head_ m)%nat then N else (N - 1)%nat).
    assert (He : (e <= N /\ e - wal_tail_ m < length segs /\ wal_tail_ m <= e)%nat) by (subst e; pos_lia).
    destruct He as (He1 & He2 & He3).
    match goal with |- context [reset_loop _ ?f m] => set (go := f) end.
    destruct (reset_loop_spec (S N) go e m segs Hm) as (m1 & -> & Ht1 & Hh1 & Hc1 & Hrf1 & Hm1); [|lia..|].
    { intros t. subst go e. simpl. destruct (wal_head_ m); simpl; [by rewrite andb_false_r|].
      rewrite andb_true_r. destruct (Nat.ltb_spec t N); [done|]. simpl. apply Nat.ltb_ge. lia. }
    obind. cbv iota. rewrite Nat.max_r in Ht1 by lia.
    set (m2 := if (wal_tail_ m1 =? N)%nat then set_tail m1 0 else m1).
    assert (Hm2 : mgr_holds m2 (drop (e - wal_tail_ m) segs) /\ (wal_tail_ m2 < N)%nat /\
      wal_head_ m2 = wal_head_ m /\ current_wal_ m2 = current_wal_ m /\ wr_refs <$> wals_ m2 = wr_refs <$> wals_ m).
    { subst m2. destruct (Nat.eqb_spec (wal_tail_ m1) N); simpl.
      - split_and!; [by apply mgr_holds_wrap|lia|done..].
      - split_and!; [done|lia|done..]. }
    clearbody m2. destruct Hm2 as (Hm2 & Ht2 & Hh2 & Hc2 & Hrf2). pose proof Hm2 as [_ _ Hct2 Hhd2 _ _].
    rewrite length_drop in Hct2, Hhd2.
    destruct (reset_loop_spec (S N) (fun t => t + 2 <? wal_head_ m2)%nat (wal_head_ m2 - 2) m2 _ Hm2)
      as (m3 & -> & Ht3 & Hh3 & Hc3 & Hrf3 & Hm3).
    + intros t. destruct (Nat.ltb_spec (t + 2) (wal_head_ m2)), (Nat.ltb_spec t (wal_head_ m2 - 2)); lia.
    + pos_lia.
    + rewrite length_drop. pos_lia.
    + pos_lia.
    + obind. rewrite drop_drop in Hm3. eexists _, _. split_and!; [done|done|pos_lia| |congruence|congruence|].
      * rewrite length_drop. subst e. pos_lia.
      * subst e. pos_lia.
  - obind. cbv iota. rewrite (proj2 (Nat.eqb_neq _ _)) by lia.
    destruct (reset_loop_spec (S N) (fun t => t + 2 <? wal_head_ m)%nat (wal_head_ m - 2) m _ Hm)
      as (m3 & -> & Ht3 & Hh3 & Hc3 & Hrf3 & Hm3).
    + intros t. destruct (Nat.ltb_spec (t + 2) (wal_head_ m)), (Nat.ltb_spec t (wal_head_ m - 2)); lia.
    + pos_lia.
    + pos_lia.
    + pos_lia.
    + obind. eexists _, _. split_and!; [done|done|pos_lia| |congruence|congruence|].
      * rewrite length_drop. pos_lia.
      * pos_lia.
Qed.
End Reset.

(** ** Finding the head and the tail *)

Section Pointers.
Context (all : list bool) (Hall : length all = N).

(** The head [h0], wrapped, and the tail [t] bound a part of the circle that
    has every log that is not empty, and at least one place is free. *)
Definition bounds_data (p : nat * nat) : Prop :=
  let '(h0, t) := p in
  (0 < t < N)%nat /\ exists n, (0 < n < N)%nat /\ (if (N <=? h0)%nat then 0 else h0)%nat = pos t n /\
    forall i, all !! i = Some false -> exists k, (k < n)%nat /\ i = pos t k.

(** No log at an index from [a] to [b] holds data. *)
Definition empty_between (a b : nat) : Prop := forall j, (a <= j < b)%nat -> all !! j = Some true.

Lemma next_flag i e es : drop i all = e :: es -> all !! i = Some e /\ drop (S i) all = es /\ (i < N)%nat.
Proof.
  intros E. assert (Hi : all !! i = Some e) by (by rewrite <-(Nat.add_0_r i), <-lookup_drop, E).
  split_and!; [done| |apply lookup_lt_Some in Hi; lia].
  apply drop_S in Hi. rewrite E in Hi. by simplify_eq.
Qed.
Lemma last_flag i : drop i all = [] -> (i <= N)%nat -> forall j b, all !! j = Some b -> (j < N)%nat /\ (N <= i)%nat.
Proof.
  intros E Hi j b Hj. apply lookup_lt_Some in Hj. split; [lia|].
  apply (f_equal length) in E. rewrite length_drop in E. simpl in E. lia.
Qed.
Lemma no_data_between a b i : empty_between a b -> all !! i = Some false -> (i < a \/ b <= i)%nat.
Proof.
  intros He Hi. destruct (decide (a <= i < b)%nat) as [Hab|]; [|lia]. by rewrite He in Hi.
Qed.

(** After a gap: the next log with data, if any, is the tail. *)
Lemma find_after_gap p a h i es :
  drop i all = es -> empty_between 0 a -> empty_between h i -> (a < h < i)%nat -> (i <= N)%nat ->
  all !! p = Some true -> (p + 1 < N)%nat -> (a = 0 -> h <= p)%nat ->
  bounds_data (find_pointers i es true true h (if (0 <? a)%nat then a else N - 1)%nat).
Proof.
  intros E Ha Hh Hlt HiN Hp Hp1 Hhp. revert i E Hh Hlt HiN. induction es as [|e es IH]; intros i E Hh Hlt HiN.
  - destruct (last_flag i E HiN p true Hp) as [_ ?]. simpl.
    assert (HN : i = N) by lia. subst i.
    destruct (Nat.ltb_spec 0 a); simpl.
    + split; [lia|]. exists (h - a)%nat. split; [lia|]. split; [destruct (Nat.leb_spec N h); pos_lia|].
      intros j Hj. destruct (last_flag _ E HiN _ _ Hj). destruct (no_data_between _ _ _ Ha Hj), (no_data_between _ _ _ Hh Hj);
        exists (j - a)%nat; pos_lia.
    + assert (a = 0)%nat by lia. subst a. specialize (Hhp eq_refl).
      split; [lia|]. exists (h + 1)%nat. split; [lia|]. split; [destruct (Nat.leb_spec N h); pos_lia|].
      intros j Hj. destruct (last_flag _ E HiN _ _ Hj). destruct (no_data_between _ _ _ Hh Hj);
        exists (j + 1)%nat; pos_lia.
  - apply next_flag in E as (Hi & E & HiN'). destruct e; simpl.
    + apply IH; [done| |lia..]. intros j Hj. destruct (decide (j = i)); [by subst|apply Hh; lia].
    + split; [lia|]. exists (N - i + h)%nat. split; [lia|]. split; [destruct (Nat.leb_spec N h); pos_lia|].
      intros j Hj. pose proof (lookup_lt_Some _ _ _ Hj).
      destruct (no_data_between _ _ _ Hh Hj).
      * exists (j + N - i)%nat. pos_lia.
      * exists (j - i)%nat. pos_lia.
Qed.

(** Inside the first run of logs with data. *)
Lemma find_in_run p a i es :
  drop i all = es -> empty_between 0 a -> (forall j, (a <= j < i)%nat -> all !! j = Some false) ->
  (a < i)%nat -> (i <= N)%nat -> all !! p = Some true -> (p + 1 < N)%nat ->
  bounds_data (find_pointers i es true false i (if (0 <? a)%nat then a else N - 1)%nat).
Proof.
  intros E Ha Hr Hlt HiN Hp Hp1. revert i E Hr Hlt HiN. induction es as [|e es IH]; intros i E Hr Hlt HiN.
  - destruct (last_flag i E HiN p true Hp) as [_ ?]. simpl. assert (HN : i = N) by lia. subst i.
    assert (0 < a)%nat.
    { destruct (decide (p < a)%nat); [lia|]. rewrite Hr in Hp by lia. done. }
    rewrite (proj2 (Nat.ltb_lt _ _)), (proj2 (Nat.leb_le _ _)) by lia. split; [lia|].
    exists (N - a)%nat. split; [lia|]. split; [pos_lia|]. intros j Hj. destruct (last_flag _ E HiN _ _ Hj).
    destruct (no_data_between _ _ _ Ha Hj); [lia|]. exists (j - a)%nat. pos_lia.
  - apply next_flag in E as (Hi & E & HiN'). destruct e; simpl.
    + apply (find_after_gap p); [done|done| |lia|lia|done|done|].
      * intros j Hj. assert (j = i) as -> by lia. done.
      * intros ->. destruct (decide (p < i)%nat); [|lia]. rewrite Hr in Hp by lia. done.
    + rewrite Nat.add_1_r. apply IH; [done| |lia..]. intros j Hj.
      destruct (decide (j = i)); [by subst|apply Hr; lia].
Qed.

(** As long as one log besides the last is empty, the head and the tail that
    [Recover] finds bound all the logs with data. *)
Lemma find_pointers_spec p :
  all !! p = Some true -> (p + 1 < N)%nat -> bounds_data (find_pointers 0 all false false 0 (N - 1)).
Proof.
  intros Hp Hp1.
  assert (Hgen : forall es i, drop i all = es -> empty_between 0 i -> (i <= N)%nat ->
    bounds_data (find_pointers i es false false 0 (N - 1))); [|apply Hgen; [done|intros j Hj; lia|lia]].
  induction es as [|e es IH]; intros i E He HiN.
  - destruct (last_flag i E HiN p true Hp) as [_ ?]. simpl. assert (HN : i = N) by lia. subst i.
    split; [lia|]. exists 1%nat. split; [lia|]. split; [destruct (Nat.leb_spec N 0); pos_lia|].
    intros j Hj. destruct (last_flag _ E HiN _ _ Hj). destruct (no_data_between _ _ _ He Hj); lia.
  - apply next_flag in E as (Hi & E & HiN'). destruct e; simpl.
    + apply IH; [done| |lia]. intros j Hj. destruct (decide (j = i)); [by subst|apply He; lia].
    + rewrite Nat.add_1_r. apply (find_in_run p i); [done|done| |lia|lia|done|done].
      intros j Hj. assert (j = i) as -> by lia. done.
Qed.
End Pointers.

(** ** Recovery *)

(** Every log of the list is out of use and holds the batches of its place. *)
Definition all_hold (ws : list (wal_ref Log)) (cs : list (list bytes)) : Prop :=
  Forall2 (fun r seg => ref_holds r seg /\ ref_closed r) ws cs.

(** The places of the circle, from [t] on, as the places of the array. *)
Definition rotate {A} (t : nat) (l : list A) : list A := drop (N - t) l ++ take (N - t) l.

Lemma rotate_lookup {A} t k (l : list A) :
  length l = N -> (t <= N)%nat -> (k < N)%nat -> rotate t l !! pos t k = l !! k.
Proof.
  intros Hl Ht Hk. unfold rotate, pos. destruct (Nat.ltb_spec (t + k) N).
  - rewrite lookup_app_r by (rewrite length_drop; lia). rewrite length_drop, lookup_take_lt by lia.
    f_equal. lia.
  - rewrite lookup_app_l, lookup_drop by (rewrite length_drop; lia). f_equal. lia.
Qed.
Lemma rotate_perm {A} t (l : list A) : rotate t l ≡ₚ l.
Proof. unfold rotate. rewrite Permutation_app_comm. by rewrite take_drop. Qed.
Lemma rotate_length {A} t (l : list A) : length (rotate t l) = length l.
Proof. by rewrite rotate_perm. Qed.

(** The segments, completed to the whole circle. *)
Definition padded (segs : list (list bytes)) : list (list bytes) := segs ++ replicate (N - length segs) [].

Lemma padded_lookup segs k : (k < N)%nat -> padded segs !! k = Some (default [] (segs !! k)).
Proof.
  intros Hk. unfold padded. destruct (decide (k < length segs)%nat).
  - rewrite lookup_app_l by done. by destruct (lookup_lt_is_Some_2 segs k ltac:(done)) as [? ->].
  - rewrite lookup_app_r, lookup_replicate_2, lookup_ge_None_2 by lia. done.
Qed.
Lemma padded_length segs : (length segs <= N)%nat -> length (padded segs) = N.
Proof. intros. unfold padded. rewrite length_app, length_replicate. lia. Qed.
Lemma padded_concat segs : concat (padded segs) = concat segs.
Proof.
  unfold padded. rewrite concat_app. assert (E : forall n, concat (replicate n (@nil bytes)) = []).
  { induction n; simpl; congruence. }
  by rewrite E, app_nil_r.
Qed.

Lemma mgr_holds_all m segs :
  mgr_holds m segs -> Forall ref_closed (wals_ m) -> all_hold (wals_ m) (rotate (wal_tail_ m) (padded segs)).
Proof.
  intros [Hl Ht Hc Hh Hw Hcur] Hcl. assert (Hpl : length (padded segs) = N) by (apply padded_length; lia).
  apply Forall2_same_length_lookup. rewrite rotate_length. split; [congruence|].
  intros i r seg Hr Hs. assert (Hi : (i < N)%nat) by (apply lookup_lt_Some in Hr; lia).
  destruct (pos_surj _ _ Ht Hi) as (k & Hk & ->). destruct (Hw k Hk) as (r' & Hr' & Hrh & _). simplify_eq.
  rewrite rotate_lookup, padded_lookup in Hs by done. simplify_eq. split; [done|].
  rewrite Forall_forall in Hcl. apply Hcl. by eapply list_elem_of_lookup_2.
Qed.

(** The converse, for a head and a tail that bound the logs with data. *)
Lemma all_mgr_holds m cs :
  length cs = N -> all_hold (wals_ m) cs -> current_wal_ m = None -> 
  bounds_data ((fun r => ol_Empty (w_log (wr_wal r))) <$> wals_ m) (wal_head_ m, wal_tail_ m) -> (wal_head_ m < N)%nat ->
  exists segs, mgr_holds m segs /\ concat segs ≡ₚ concat cs.
Proof.
  intros Hlc Hall Hcur (Ht & n & Hn & Hh & Hd) HhN. rewrite (proj2 (Nat.leb_gt _ _)) in Hh by done.
  set (X := rotate (N - wal_tail_ m) cs).
  assert (HX : forall k, (k < N)%nat -> X !! k = cs !! pos (wal_tail_ m) k).
  { intros k Hk. subst X. destruct (pos_surj (N - wal_tail_ m) k ltac:(lia) Hk) as (j & Hj & ->).
    rewrite rotate_lookup by (done || lia). f_equal. pos_lia. }
  assert (HlX : length X = N) by (subst X; by rewrite rotate_length).
  assert (Hplace : forall k, (k < N)%nat -> exists r seg, wals_ m !! pos (wal_tail_ m) k = Some r /\
    X !! k = Some seg /\ ref_holds r seg /\ ref_closed r).
  { intros k Hk. rewrite HX by done.
    destruct (lookup_lt_is_Some_2 cs (pos (wal_tail_ m) k)) as [seg Hs]; [rewrite Hlc; apply pos_lt; lia|].
    destruct (Forall2_lookup_r _ _ _ _ _ Hall Hs) as (r & Hr & ? & ?). by exists r, seg. }
  assert (Hfree : forall k r seg, (n <= k < N)%nat -> wals_ m !! pos (wal_tail_ m) k = Some r -> X !! k = Some seg ->
    ref_holds r seg -> ref_closed r -> seg = [] /\ ol_chunks (w_log (wr_wal r)) = []).
  { intros k r seg Hk Hr Hs [(es & Hes & <- & _) _] [Hz _ _].
    destruct (ol_Empty (w_log (wr_wal r))) eqn:He.
    - destruct (holds_empty lba_size HL _ _ Hes Hz He) as [? ->]. done.
    - exfalso. destruct (Hd (pos (wal_tail_ m) k)) as (j & Hj & E); [by rewrite list_lookup_fmap, Hr; simpl; rewrite He|].
      apply pos_inj in E; lia. }
  exists (take n X). split.
  - constructor; rewrite ?length_take, ?HlX, ?Nat.min_l by lia; [|lia|lia|done| |by left].
    { by rewrite (Forall2_length _ _ _ Hall). }
    intros k Hk. destruct (Hplace k Hk) as (r & seg & Hr & Hs & Hrh & Hrc). exists r.
    destruct (decide (k < n)%nat) as [Hkn|Hkn].
    + rewrite lookup_take_lt, Hs by done. split_and!; [done..|lia].
    + rewrite lookup_take_ge by lia. destruct (Hfree k r seg ltac:(lia) Hr Hs Hrh Hrc) as [-> ?]. done.
  - rewrite <-(rotate_perm (N - wal_tail_ m) cs). fold X. rewrite <-(take_drop n X) at 2.
    rewrite concat_app. assert (concat (drop n X) = []) as ->; [|by rewrite app_nil_r].
    assert (Hnil : Forall (fun seg => seg = []) (drop n X)).
    { apply Forall_lookup. intros j seg Hs. rewrite lookup_drop in Hs. pose proof (lookup_lt_Some _ _ _ Hs).
      destruct (Hplace (n + j)%nat ltac:(lia)) as (r & seg' & Hr & Hs' & Hrh & Hrc). simplify_eq.
      by destruct (Hfree (n + j)%nat r seg ltac:(lia) Hr Hs Hrh Hrc). }
    clear -Hnil. induction Hnil as [|? ? ->]; [done|]. simpl. done.
Qed.

(** After a restart the manager starts over the same logs. *)
Definition restart (m : TropoWALManager Log) : TropoWALManager Log :=
  manage lba_size mem_at N ((fun r => w_log (wr_wal r)) <$> wals_ m).

Lemma restart_holds m cs : all_hold (wals_ m) cs -> all_hold (wals_ (restart m)) cs.
Proof.
  unfold restart, manage. simpl. intros Hall. induction Hall as [|r seg ws cs [[(es & Hes & Hb & Hu) _] [Hz Hsy _]] Hall IH];
    constructor; [|done]. destruct (holds_flushed lba_size _ _ Hes Hz) as (gs & -> & Hf & Hc).
  split; constructor; simpl; [|unfold is_u32; lia|done|done|done].
  eexists. split; [by apply newWAL_holds_groups|done].
Qed.

Section Recover.
Context (Hpointers : forall l : Log, fst (ol_RecoverPointers l) = Success).
Context (Hread : forall l : Log, fst (ol_ReadAll l) = Success).
Context {Mem : Type} (mem_write : Mem -> bytes -> Status * Mem).

Lemma recover_all_holds ws cs :
  all_hold ws cs -> exists ws', recover_all ws = (OK, ws') /\ all_hold ws' cs /\
    Forall2 (fun r r' => ol_chunks (w_log (wr_wal r')) = ol_chunks (w_log (wr_wal r))) ws ws'.
Proof.
  intros Hall. induction Hall as [|r seg ws cs [[(es & Hes & Hb & Hu) Hq] [Hz Hsy Href]] Hall (ws' & IH & IHh & IHc)].
  { exists []. split_and!; [done|constructor..]. }
  cbn [recover_all]. unfold wal_Recover. destruct (ol_RecoverPointers (w_log (wr_wal r))) as [s l] eqn:E.
  pose proof (Hpointers (w_log (wr_wal r))) as Hs. rewrite E in Hs. simpl in Hs. subst s. cbn [FromStatus ok negb].
  rewrite IH. apply ol_recover_ok in E as [Ec Hsy']. eexists. split_and!; [done| |by constructor].
  constructor; [|done].
  split; constructor; simpl; auto. exists es. split_and!; [|done..].
  destruct Hes as [? ? ? (gs & g & ? & ? & ? & ?)]. constructor; [done..|]. exists gs, g. simpl. by rewrite Ec.
Qed.

Lemma ref_set_seq r seg n :
  is_u32 n -> ref_holds r seg /\ ref_closed r ->
  ref_holds (mkRef (set_seq (wr_wal r) n) (wr_refs r)) seg /\ ref_closed (mkRef (set_seq (wr_wal r) n) (wr_refs r)).
Proof.
  intros Hn [[(es & [? ? ? (gs & g & ? & ? & ? & ?)] & ? & ?) ?] [? ? ?]].
  split; constructor; simpl; try done. exists es. split_and!; [|done..]. constructor; try done. by exists gs, g.
Qed.

(** What replay does not change. *)
Definition same_logs (m m' : TropoWALManager Log) : Prop :=
  wal_head_ m' = wal_head_ m /\ wal_tail_ m' = wal_tail_ m /\ current_wal_ m' = current_wal_ m /\
  (fun r => w_log (wr_wal r)) <$> wals_ m' = (fun r => w_log (wr_wal r)) <$> wals_ m.

(** A replay [x] does what writing some batches does ([y]); when that succeeds
    the manager satisfies [P]. *)
Definition replays (x : option (Status * TropoWALManager Log * Mem * Z)) (y : option (Status * Mem * Z))
    (P : TropoWALManager Log -> Prop) : Prop :=
  match y with
  | None => x = None
  | Some (s, mem, seq) => exists m, x = Some (s, m, mem, seq) /\ (s = OK -> P m)
  end.

(** Replay of one log writes its batches in some order. *)
Lemma replay_wal_spec m cs i seg mem seq :
  all_hold (wals_ m) cs -> cs !! i = Some seg ->
  exists order, order ≡ₚ seg /\
    replays (replay_wal lba_size mem_write m i mem seq) (write_batches mem_write order mem seq)
      (fun m' => all_hold (wals_ m') cs /\ same_logs m m').
Proof.
  intros Hall Hs. destruct (Forall2_lookup_r _ _ _ _ _ Hall Hs) as (r & Hr & Hrr).
  pose proof Hrr as [[(es & Hes & <- & Hu) Hq] [Hz Hsy Href]].
  destruct (ol_ReadAll (w_log (wr_wal r))) as [st str] eqn:Er.
  pose proof (Hread (w_log (wr_wal r))) as Hst. rewrite Er in Hst. simpl in Hst. subst st.
  destruct (Replay_perm lba_size HL mem_write _ _ _ Hes Hz Hsy Hu Er) as (es' & Hp & Hrep).
  exists (snd <$> merge_sort entry_le es'). split; [by rewrite merge_sort_Permutation, Hp|].
  destruct (apply_entries_write mem_write (merge_sort entry_le es') (wr_wal r) mem seq Hq) as (n & Hn & Ha).
  unfold replay_wal. rewrite Hr. obind. rewrite Hrep, Ha.
  destruct (write_batches _ _ _ _) as [[[s mem'] seq']|]; [|done]. obind. eexists. split; [done|]. intros _. split.
  - simpl. apply Forall2_same_length_lookup. rewrite length_alter. split; [by eapply Forall2_length|].
    intros j r' seg' Hr' Hs'. rewrite lookup_alter_wal in Hr'.
    destruct (Forall2_lookup_r _ _ _ _ _ Hall Hs') as (r0 & Hr0 & Hrr0).
    destruct (decide (i = j)) as [<-|]; simplify_eq/=; [|done]. rewrite Hr in Hr'. simplify_eq/=.
    by apply ref_set_seq.
  - split_and!; [done..|]. simpl. apply list_eq. intros j. rewrite !list_lookup_fmap, lookup_alter_wal.
    case_decide as E; [subst|done]. by rewrite Hr.
Qed.

(** The loop visits the circle downwards, ending with the head. *)
Lemma replay_loop_spec cs h k fuel m mem seq :
  all_hold (wals_ m) cs -> length cs = N -> wal_head_ m = h -> (h < N)%nat -> (k < N)%nat -> (k < fuel)%nat ->
  exists order, order ≡ₚ concat (take (k + 1) (rotate (N - h) cs)) /\
    replays (replay_loop lba_size N mem_write fuel (pos h k) m mem seq) (write_batches mem_write order mem seq)
      (fun m' => all_hold (wals_ m') cs /\ same_logs m m').
Proof.
  intros Hall Hlc Hh HhN Hk Hf. set (X := rotate (N - h) cs).
  assert (HX : forall j, (j < N)%nat -> exists seg, X !! j = Some seg /\ cs !! pos h j = Some seg).
  { intros j Hj. destruct (lookup_lt_is_Some_2 cs (pos h j)) as [seg Hs]; [rewrite Hlc; apply pos_lt; lia|].
    exists seg. split; [|done]. rewrite <-Hs. subst X.
    destruct (pos_surj (N - h) j ltac:(lia) Hj) as (i & Hi & ->).
    rewrite rotate_lookup by (done || lia). f_equal. pos_lia. }
  clearbody X. revert fuel m mem seq Hall Hh Hk Hf. induction k as [|k IH]; intros fuel m mem seq Hall Hh Hk Hf;
    (destruct fuel as [|fuel]; [lia|]); cbn [replay_loop]; rewrite Hh.
  - assert (pos h 0 = h) as Hp0 by pos_lia. rewrite Hp0, Nat.eqb_refl.
    destruct (HX 0%nat Hk) as (seg & HXs & Hs). rewrite Hp0 in Hs.
    destruct (replay_wal_spec m cs h seg mem seq Hall Hs) as (order & Ho & Hr). exists order. split; [|done].
    rewrite Ho. destruct X; simplify_eq/=. by rewrite ?take_0, app_nil_r.
  - rewrite (proj2 (Nat.eqb_neq _ _)) by pos_lia.
    assert ((if (pos h (S k) =? 0)%nat then N - 1 else pos h (S k) - 1)%nat = pos h k) as ->.
    { destruct (Nat.eqb_spec (pos h (S k)) 0); pos_lia. }
    destruct (HX (S k) Hk) as (seg & HXs & Hs).
    assert (HT : concat (take (S k + 1) X) = concat (take (k + 1) X) ++ seg).
    { rewrite !Nat.add_1_r, (take_S_r _ _ _ HXs), concat_app. simpl. by rewrite app_nil_r. }
    rewrite HT. clear HT.
    destruct (replay_wal_spec m cs _ seg mem seq Hall Hs) as (o1 & Ho1 & Hr1).
    unfold replays in Hr1. destruct (write_batches mem_write o1 mem seq) as [[[s1 mem1] seq1]|] eqn:E1.
    + destruct Hr1 as (m1 & -> & Hm1). obind. destruct (ok s1) eqn:Es; cbn [negb].
      * assert (s1 = OK) as -> by (by destruct s1). destruct Hm1 as [Hall1 Hsl]; [done|].
        pose proof Hsl as (Hh1 & _).
        destruct (IH fuel m1 mem1 seq1 Hall1 ltac:(congruence) ltac:(lia) ltac:(lia)) as (o2 & Ho2 & Hr2).
        exists (o1 ++ o2). split; [rewrite Ho1, Ho2; apply Permutation_app_comm|].
        rewrite write_batches_app, E1. obind. cbn [ok negb]. unfold replays in *.
        destruct (write_batches mem_write o2 mem1 seq1) as [[[s2 mem2] seq2]|]; [|done].
        destruct Hr2 as (m2 & -> & Hm2). exists m2. split; [done|]. intros Hok. destruct (Hm2 Hok) as [? Hsl2].
        split; [done|]. destruct Hsl as (? & ? & ? & ?), Hsl2 as (? & ? & ? & ?). by split_and!; etrans.
      * exists (o1 ++ concat (take (k + 1) X)). split; [rewrite Ho1; apply Permutation_app_comm|].
        rewrite write_batches_app, E1. obind. rewrite Es. cbn [negb]. exists m1. split; [done|]. by intros ->.
    + rewrite Hr1. exists (o1 ++ concat (take (k + 1) X)). split; [rewrite Ho1; apply Permutation_app_comm|].
      by rewrite write_batches_app, E1.
Qed.

(** Two places of the circle are free, so an empty log besides the last is. *)
Lemma free_place m segs :
  mgr_holds m segs -> (length segs + 2 <= N \/ wal_tail_ m <> 0)%nat -> (wal_tail_ m < N)%nat ->
  exists i r, (i + 1 < N)%nat /\ wals_ m !! i = Some r /\ ol_chunks (w_log (wr_wal r)) = [].
Proof.
  intros [Hl Ht Hc Hh Hw Hcur] Hn Htl. set (k := length segs).
  assert (exists j, (k <= j < N)%nat /\ (pos (wal_tail_ m) j + 1 < N)%nat) as (j & Hj & Hlt).
  { destruct (decide (pos (wal_tail_ m) k + 1 < N)%nat); [by exists k; lia|]. exists (k + 1)%nat. subst k. pos_lia. }
  destruct (Hw j ltac:(lia)) as (r & Hr & _ & _ & He). exists (pos (wal_tail_ m) j), r. split_and!; [done..|]. apply He. lia.
Qed.

(** Recovery replays every log, and finds a head and a tail that bound the logs
    with data. *)
Lemma Recover_spec m segs mem seq :
  mgr_holds m segs -> Forall ref_closed (wals_ m) -> (length segs + 2 <= N \/ wal_tail_ m <> 0)%nat ->
  (wal_tail_ m < N)%nat ->
  exists order, order ≡ₚ concat segs /\
    replays (WALManager_Recover lba_size N mem_write (restart m) mem seq) (write_batches mem_write order mem seq)
      (fun m' => Forall ref_closed (wals_ m') /\ current_wal_ m' = None /\ (0 < wal_tail_ m' < N)%nat /\
         exists segs', mgr_holds m' segs' /\ concat segs' ≡ₚ concat segs).
Proof.
  intros Hm Hcl Hn Htl. pose proof (free_place m segs Hm Hn Htl) as (p & rp & Hp & Hrp & Hcp).
  pose proof (mh_count _ _ Hm) as Hcnt.
  set (cs := rotate (wal_tail_ m) (padded segs)).
  assert (Hlc : length cs = N) by (subst cs; rewrite rotate_length; apply padded_length; lia).
  assert (Hpc : concat cs ≡ₚ concat segs) by (subst cs; by rewrite rotate_perm, padded_concat).
  pose proof (restart_holds m cs (mgr_holds_all m segs Hm Hcl)) as Hall0.
  destruct (recover_all_holds _ _ Hall0) as (ws & Hrec & Hall & Hch).
  unfold WALManager_Recover. rewrite Hrec. cbn [ok negb wals_ set_wals].
  set (all := (fun r => ol_Empty (w_log (wr_wal r))) <$> ws).
  assert (Hla : length all = N) by (subst all; by rewrite length_fmap, (Forall2_length _ _ _ Hall)).
  assert (Hpa : all !! p = Some true).
  { unfold restart, manage in Hch. cbn [wals_] in Hch.
    destruct (Forall2_lookup_l _ _ _ p (mkRef (newWAL lba_size mem_at (w_log (wr_wal rp)) true true true) 1) Hch)
      as (r' & Hr' & Hc'); [by rewrite !list_lookup_fmap, Hrp|].
    subst all. rewrite list_lookup_fmap, Hr'. simpl. f_equal. apply Empty_nil. by rewrite Hc'. }
  pose proof (find_pointers_spec all Hla p Hpa Hp) as Hb.
  change (wal_head_ (set_wals (restart m) ws)) with 0%nat. change (wal_tail_ (set_wals (restart m) ws)) with (N - 1)%nat.
  destruct (find_pointers 0 all false false 0 (N - 1)) as [h0 t]. destruct Hb as (Ht & n & Hn' & Hh & Hd).
  rewrite Hh. cbn [wal_head_ set_tail set_head].
  assert (HhN : (pos t n < N)%nat) by (apply pos_lt; lia).
  set (h := pos t n) in *. set (m1 := set_tail (set_head (set_wals (restart m) ws) h) t).
  assert ((if (h =? 0)%nat then N - 1 else h - 1)%nat = pos h (N - 1)) as ->.
  { unfold pos at 1. destruct (Nat.eqb_spec h 0), (Nat.ltb_spec (h + (N - 1)) N); lia. }
  destruct (replay_loop_spec cs h (N - 1) N m1 mem seq Hall Hlc eq_refl HhN ltac:(lia) ltac:(lia)) as (order & Ho & Hr).
  exists order. split.
  { rewrite Ho, take_ge by (rewrite rotate_length; lia). by rewrite rotate_perm. }
  unfold replays in *. destruct (write_batches mem_write order mem seq) as [[[s mem'] seq']|]; [|done].
  destruct Hr as (m' & -> & Hm'). exists m'. split; [done|]. intros Hok.
  destruct (Hm' Hok) as (Hall' & Hh' & Ht' & Hc' & Hlogs). split; [|split; [|split]].
  - clear -Hall'. by induction Hall' as [|? ? ? ? [_ ?]]; constructor.
  - done.
  - by rewrite Ht'.
  - destruct (all_mgr_holds m' cs Hlc Hall' Hc') as (segs' & Hs' & Hp'); [|by rewrite Hh'|].
    + apply (f_equal (fmap ol_Empty)) in Hlogs. rewrite <-!list_fmap_compose in Hlogs.
      unfold compose in Hlogs. rewrite Hlogs, Hh', Ht'. split; [done|]. exists n. cbn [m1 wal_head_ wal_tail_ set_tail set_head].
      by rewrite (proj2 (Nat.leb_gt _ _)).
    + exists segs'. split; [done|]. by rewrite Hp'.
Qed.
End Recover.

(** ** The client's protocol *)

(** The manager with the batches in the memtable and in the one being flushed. *)
Record client := mkClient {
  cl_mgr : TropoWALManager Log;
  cl_mem : list bytes;
  cl_imm : option (list bytes)
}.

(** The steps of [TropoDBImpl] that concern the logs, on a device that succeeds:
    an asynchronous write, the switch to a new log and memtable
    ([MakeRoomForWrite]), the end of a flush ([CompactMemtable]), and a restart
    ([Recover], [RecoverBackgroundFlow]).  When no log is free after a restart
    the memtable is flushed first. *)
Inductive client_step : client -> client -> Prop :=
  | step_append m mem imm i r b w :
      current_wal_ m = Some i -> wals_ m !! i = Some r -> 22 + blen b <= max_record lba_size ->
      Append lba_size mem_at (wr_wal r) b false = Some (OK, w) ->
      client_step (mkClient m mem imm) (mkClient (set_wal m i w) (mem ++ [b]) imm)
  | step_switch m mem i r w1 s w2 s' j m' :
      current_wal_ m = Some i -> wals_ m !! i = Some r ->
      Sync lba_size mem_at (wr_wal r) = Some (OK, w1) -> wal_Close lba_size mem_at w1 = Some (s, w2) ->
      NewWAL lba_size mem_at NDEBUG N (wal_Unref (set_wal m i w2) i) = Some (s', Some j, m') ->
      client_step (mkClient m mem None) (mkClient (wal_Ref m' j) [] (Some mem))
  | step_flushed m mem imm s m' :
      ResetOldWALs N m = Some (s, m') ->
      client_step (mkClient m mem (Some imm)) (mkClient m' mem None)
  | step_restart m mem imm i r w1 seq m1 mem' seq' j m2 :
      current_wal_ m = Some i -> wals_ m !! i = Some r ->
      Sync lba_size mem_at (wr_wal r) = Some (OK, w1) ->
      WALManager_Recover lba_size N list_mem_write (restart (wal_Unref (set_wal m i w1) i)) [] seq
        = Some (OK, m1, mem', seq') ->
      WALAvailable NDEBUG N m1 = Some true -> GetCurrentWAL lba_size mem_at NDEBUG N m1 = Some (Some j, m2) ->
      client_step (mkClient m mem imm) (mkClient (wal_Ref m2 j) mem' None)
  | step_restart_flush m mem imm i r w1 seq m1 mem' seq' s m2 j m3 :
      current_wal_ m = Some i -> wals_ m !! i = Some r ->
      Sync lba_size mem_at (wr_wal r) = Some (OK, w1) ->
      WALManager_Recover lba_size N list_mem_write (restart (wal_Unref (set_wal m i w1) i)) [] seq
        = Some (OK, m1, mem', seq') ->
      WALAvailable NDEBUG N m1 = Some false -> ResetOldWALs N m1 = Some (s, m2) ->
      GetCurrentWAL lba_size mem_at NDEBUG N m2 = Some (Some j, m3) ->
      client_step (mkClient m mem imm) (mkClient (wal_Ref m3 j) [] None).

(** A fresh manager, over empty logs. *)
Inductive client_start : client -> Prop :=
  | start logs j m :
      length logs = N -> Forall (fun l => ol_chunks l = [] /\ ol_synced l) logs ->
      GetCurrentWAL lba_size mem_at NDEBUG N (manage lba_size mem_at N logs) = Some (Some j, m) ->
      client_start (mkClient (wal_Ref m j) [] None).

(** The logs hold what is not flushed: with a flush pending, the last log holds
    the memtable and the earlier ones what is being flushed. *)
Definition covers (st : client) (segs : list (list bytes)) : Prop :=
  match cl_imm st with
  | None => cl_mem st ⊆+ concat segs
  | Some imm => exists older, segs = older ++ [cl_mem st] /\ imm ⊆+ concat older
  end.

(** The invariant of the protocol.  The tail is at 0 only after a reset. *)
Record client_inv (st : client) (segs : list (list bytes)) : Prop := {
  ci_mgr : mgr_holds (cl_mgr st) segs;
  ci_tail : (wal_tail_ (cl_mgr st) < N)%nat;
  ci_current : exists r, current_wal_ (cl_mgr st) = Some (pos (wal_tail_ (cl_mgr st)) (length segs - 1)) /\
    wals_ (cl_mgr st) !! pos (wal_tail_ (cl_mgr st)) (length segs - 1) = Some r /\ wr_refs r <= 2;
  ci_covers : covers st segs;
  ci_room : match cl_imm st with
            | None => (length segs + 2 <= N)%nat /\ (wal_tail_ (cl_mgr st) = 0 -> length segs <= 2)%nat
            | Some _ => (wal_tail_ (cl_mgr st) = 0 -> length segs <= 3)%nat
            end
}.

Section Client.
Context `{!ReliableLog Log} (HN : (5 <= N)%nat).

Lemma Sync_idle w : w_buff_pos w = 0 -> exists w', Sync lba_size mem_at w = Some (OK, w').
Proof.
  intros Hz. unfold Sync, DataSync. rewrite Hz, andb_false_r. obind. cbn [ok].
  destruct (ol_Sync (w_log w)) as [s l] eqn:E. pose proof (rl_sync (w_log w)) as Hs. rewrite E in Hs.
  simpl in Hs. subst s. by eexists.
Qed.

(** A change of the current log. *)
Lemma mgr_holds_current m segs f seg :
  mgr_holds m segs -> current_wal_ m = Some (pos (wal_tail_ m) (length segs - 1)) ->
  (forall r, wals_ m !! pos (wal_tail_ m) (length segs - 1) = Some r ->
    ref_holds r (default [] (segs !! (length segs - 1)%nat)) -> ref_holds (f r) seg) ->
  mgr_holds (set_wals m (alter f (pos (wal_tail_ m) (length segs - 1)) (wals_ m))) (<[(length segs - 1)%nat:=seg]> segs).
Proof.
  intros Hm Hcur Hf. pose proof (mh_count _ _ Hm).
  apply (mgr_holds_alter m segs _ f seg (current_wal_ m) Hm); [lia|by left|].
  intros r Hr Hrh _. split; [by apply Hf|]. intros Hne. by rewrite Hcur in Hne.
Qed.
Lemma insert_last (segs : list (list bytes)) :
  (0 < length segs)%nat -> <[(length segs - 1)%nat:=default [] (segs !! (length segs - 1)%nat)]> segs = segs.
Proof.
  intros Hl. apply list_insert_id. by destruct (lookup_lt_is_Some_2 segs (length segs - 1) ltac:(lia)) as [? ->].
Qed.

Lemma mgr_holds_current_same m segs f i :
  mgr_holds m segs -> current_wal_ m = Some i -> i = pos (wal_tail_ m) (length segs - 1) ->
  (forall r, ref_holds r (default [] (segs !! (length segs - 1)%nat)) ->
    ref_holds (f r) (default [] (segs !! (length segs - 1)%nat))) ->
  mgr_holds (set_wals m (alter f i (wals_ m))) segs.
Proof.
  intros Hm Hcur -> Hf. pose proof (mh_count _ _ Hm).
  pose proof (mgr_holds_current m segs f (default [] (segs !! (length segs - 1)%nat)) Hm Hcur) as HH.
  rewrite insert_last in HH by lia. apply HH. intros r _. apply Hf.
Qed.

(** The current log has been synced and the client gives it up. *)
Lemma retire m segs i r w n :
  mgr_holds m segs -> current_wal_ m = Some i -> i = pos (wal_tail_ m) (length segs - 1) -> wals_ m !! i = Some r ->
  wr_refs r <= 2 -> ref_holds (mkRef w n) (default [] (segs !! (length segs - 1)%nat)) -> w_buff_pos w = 0 ->
  ol_synced (w_log w) ->
  let m' := wal_Unref (set_wal m i w) i in
  mgr_holds m' segs /\ Forall ref_closed (wals_ m') /\ wal_tail_ m' = wal_tail_ m /\
  wals_ m' !! i = Some (mkRef w (wr_refs r - 1)).
Proof.
  intros Hm Hcur Hi Hr Href [Hw Hq] Hz Hsy. cbv zeta. pose proof (mh_count _ _ Hm) as Hc.
  set (f := fun r0 : wal_ref Log => mkRef w (wr_refs r0 - 1)).
  assert (Hm' : wal_Unref (set_wal m i w) i = set_wals m (alter f i (wals_ m))).
  { unfold wal_Unref, set_wal, set_wals. simpl. f_equal. apply list_eq. intros j.
    rewrite !lookup_alter_wal. case_decide; [|done]. by destruct (wals_ m !! j). }
  rewrite Hm'. assert (Hh : mgr_holds (set_wals m (alter f i (wals_ m))) segs).
  { apply mgr_holds_current_same; [done..|]. intros r0 _. by constructor. }
  assert (Hri : wals_ (set_wals m (alter f i (wals_ m))) !! i = Some (mkRef w (wr_refs r - 1))).
  { simpl. rewrite lookup_alter_wal, decide_True, Hr by done. done. }
  split_and!; [done| |done|done]. apply Forall_lookup. intros j r' Hr'.
  destruct (decide (i = j)) as [<-|Hne].
  - rewrite Hri in Hr'. simplify_eq. constructor; simpl; [done|done|lia].
  - destruct Hh as [Hl Ht _ _ Hws _]. pose proof (lookup_lt_Some _ _ _ Hr') as Hj.
    destruct (pos_surj (wal_tail_ m) j Ht ltac:(lia)) as (k & Hk & ->).
    destruct (Hws k Hk) as (r0 & Hr0 & _ & Hcl & _). simpl in Hr0, Hr', Hcl. simplify_eq. apply Hcl.
    rewrite Hcur. congruence.
Qed.

Lemma GetCurrentWAL_spec m segs :
  mgr_holds m segs -> Forall ref_closed (wals_ m) -> current_wal_ m = None -> (wal_tail_ m < N)%nat ->
  (length segs + 2 <= N)%nat ->
  exists j m' segs', GetCurrentWAL lba_size mem_at NDEBUG N m = Some (Some j, m') /\ mgr_holds m' segs' /\
    Forall ref_closed (wals_ m') /\ j = pos (wal_tail_ m') (length segs' - 1) /\ current_wal_ m' = Some j /\
    wal_tail_ m' = wal_tail_ m /\ (length segs' <= 2 `max` length segs)%nat /\ concat segs' = concat segs.
Proof.
  intros Hm Hcl Hcur Ht Hn. pose proof Hm as [Hl _ Hc Hh Hw _]. unfold GetCurrentWAL. rewrite Hcur.
  destruct (_ || _) eqn:Ecase.
  - assert (length segs = 1)%nat as Hlen.
    { rewrite orb_true_iff, !andb_true_iff, !negb_true_iff, !Nat.eqb_eq, Nat.eqb_neq in Ecase. pos_lia. }
    destruct (NewWAL_spec m segs Hm Ht ltac:(lia)) as (m' & -> & Hm' & Hcur' & Ht' & Hws & _); [by rewrite Hcur|]. obind.
    exists (wal_head_ m), m', (segs ++ [[]]). rewrite Hcur', (Hws Hcur). split_and!; [done..| |done|done| |].
    + destruct (mh_current _ _ Hm') as [E|E]; rewrite Hcur' in E; congruence.
    + rewrite length_app. simpl. lia.
    + rewrite concat_app. simpl. by rewrite app_nil_r.
  - cbn. assert ((if (wal_head_ m =? 0)%nat then N - 1 else wal_head_ m - 1)%nat = pos (wal_tail_ m) (length segs - 1)) as ->.
    { destruct (Nat.eqb_spec (wal_head_ m) 0); pos_lia. }
    eexists _, _, segs. split_and!; [done| |done|done|done|done|lia|done].
    constructor; simpl; [done|lia|done|done| |by right]. intros k Hk.
    destruct (Hw k Hk) as (r & Hr & ? & Hrc & ?). exists r. split_and!; [done..| |done]. intros _.
    apply Hrc. by rewrite Hcur.
Qed.

Lemma write_batches_list bs mem seq mem' seq' :
  write_batches list_mem_write bs mem seq = Some (OK, mem', seq') -> mem' = mem ++ bs.
Proof.
  revert mem seq. induction bs as [|b bs IH]; intros mem seq; cbn [write_batches].
  { intros [= <- <-]. by rewrite app_nil_r. }
  unfold SetContents, list_mem_write at 1. destruct (kHeader <=? blen b); [|done]. obind. cbn [ok negb].
  destruct (batch_Sequence b); [|done]. obind. destruct (batch_Count b); [|done]. obind.
  intros E. rewrite (IH _ _ E), <-app_assoc. done.
Qed.

(** The client takes a reference to the log that [GetCurrentWAL] returns. *)
Lemma adopt m segs :
  mgr_holds m segs -> Forall ref_closed (wals_ m) -> current_wal_ m = None -> (wal_tail_ m < N)%nat ->
  (length segs + 2 <= N)%nat -> (wal_tail_ m = 0 -> length segs <= 2)%nat ->
  forall j m', GetCurrentWAL lba_size mem_at NDEBUG N m = Some (Some j, m') ->
  forall mem, mem ⊆+ concat segs -> exists segs', client_inv (mkClient (wal_Ref m' j) mem None) segs' /\ concat segs' = concat segs.
Proof.
  intros Hm Hcl Hcur Ht Hn H0' j m' HG mem Hmem'.
  destruct (GetCurrentWAL_spec m segs Hm Hcl Hcur Ht Hn) as (j0 & m0 & segs' & HG' & Hm' & Hcl' & Hj & Hcur' & Ht' & Hlen & Hcat).
  rewrite HG in HG'. injection HG' as -> ->. exists segs'. pose proof (mh_count _ _ Hm') as Hc'.
  destruct (mh_wals _ _ Hm' (length segs' - 1)%nat ltac:(lia)) as (r & Hr & _). rewrite <-Hj in Hr.
  assert (Hh : mgr_holds (wal_Ref m0 j0) segs').
  { apply mgr_holds_current_same; [done..|]. intros r0 [? ?]. by constructor. }
  split; [|done]. constructor; simpl.
  - done.
  - lia.
  - rewrite <-Hj. eexists. split_and!; [done| |].
    + rewrite lookup_alter_wal, decide_True, Hr by done. done.
    + simpl. rewrite Forall_lookup in Hcl'. destruct (Hcl' _ _ Hr). lia.
  - unfold covers. simpl. by rewrite Hcat.
  - split; [lia|]. rewrite Ht'. lia.
Qed.

(** A manager over empty logs. *)
Lemma manage_holds logs :
  length logs = N -> Forall (fun l => ol_chunks l = [] /\ ol_synced l) logs ->
  mgr_holds (manage lba_size mem_at N logs) [[]] /\ Forall ref_closed (wals_ (manage lba_size mem_at N logs)) /\
  restart (manage lba_size mem_at N logs) = manage lba_size mem_at N logs.
Proof.
  intros Hl Hlogs.
  assert (Hfresh : Forall (fun r => ref_holds r [] /\ ref_closed r /\ ol_chunks (w_log (wr_wal r)) = [])
    (wals_ (manage lba_size mem_at N logs))).
  { unfold manage. simpl. apply Forall_fmap. eapply Forall_impl; [exact Hlogs|]. intros l [Hc Hs]. simpl. split_and!; [|by constructor|done].
    constructor; simpl; [|unfold is_u32; lia]. exists []. split_and!; [by apply newWAL_holds|done|constructor]. }
  split_and!; [|eapply Forall_impl; [exact Hfresh|]; naive_solver|].
  - constructor; simpl; [by rewrite length_fmap|lia|lia|pos_lia| |by left]. intros k Hk.
    destruct (lookup_lt_is_Some_2 (wals_ (manage lba_size mem_at N logs)) (pos (N - 1) k)) as [r Hr].
    { simpl. rewrite length_fmap, Hl. apply pos_lt; lia. }
    rewrite Forall_lookup in Hfresh. destruct (Hfresh _ _ Hr) as (? & ? & ?). exists r.
    split_and!; [done| |done|done]. by destruct k as [|[|k]].
  - unfold restart, manage. cbn [wals_]. f_equal. clear. induction logs as [|l logs IH]; [done|]. cbn in *. by rewrite IH.
Qed.

Lemma start_inv st : client_start st -> exists segs, client_inv st segs /\ concat segs = [].
Proof.
  intros [logs j m Hl Hlogs HG]. destruct (manage_holds logs Hl Hlogs) as (Hm & Hc & _).
  by apply (adopt (manage lba_size mem_at N logs) [[]]); simpl; try done; try lia.
Qed.

Lemma split_last (segs : list (list bytes)) :
  (0 < length segs)%nat -> exists older, segs = older ++ [default [] (segs !! (length segs - 1)%nat)].
Proof.
  destruct segs as [|x older _] using rev_ind; simpl; [lia|]. intros _. exists older. rewrite length_app. simpl.
  rewrite lookup_app_r by lia. by replace (length older + 1 - 1 - length older)%nat with 0%nat by lia.
Qed.

Lemma append_inv m mem imm i r b w segs :
  client_inv (mkClient m mem imm) segs -> current_wal_ m = Some i -> wals_ m !! i = Some r ->
  22 + blen b <= max_record lba_size -> Append lba_size mem_at (wr_wal r) b false = Some (OK, w) ->
  exists segs', client_inv (mkClient (set_wal m i w) (mem ++ [b]) imm) segs' /\ concat segs' = concat segs ++ [b].
Proof.
  intros [Hm Ht (r0 & Hcur & Hr0 & Href) Hcov Hroom] Hi Hr Hb Ha. simpl in *. rewrite Hcur in Hi. injection Hi as <-.
  rewrite Hr0 in Hr. injection Hr as ->. rename Hr0 into Hr.
  pose proof (mh_count _ _ Hm) as Hc. set (k := (length segs - 1)%nat) in *.
  set (last := default [] (segs !! k)).
  exists (<[k:=last ++ [b]]> segs).
  destruct (split_last segs ltac:(lia)) as (older & Hold). fold k last in Hold.
  assert (Hins : <[k:=last ++ [b]]> segs = older ++ [last ++ [b]]).
  { subst k. rewrite Hold at 2. rewrite Hold, length_app. simpl. rewrite insert_app_r_alt by lia.
    by replace (length older + 1 - 1 - length older)%nat with 0%nat by lia. }
  split; [|rewrite Hins, Hold, !concat_app; simpl; by rewrite !app_nil_r, app_assoc].
  constructor; simpl; rewrite ?length_insert.
  - apply (mgr_holds_current m segs); [done|done|]. fold k. intros r' Hr' [(es & Hes & Hb' & Hu) Hq]. simplify_eq.
    destruct (Append_spec lba_size HL mem_at Hmem (wr_wal r) es b Hes Hb) as (s & w' & Ha' & Hq' & Hok).
    rewrite Ha in Ha'. simplify_eq. constructor; simpl; [|rewrite Hq'; apply u32_range].
    eexists. split_and!; [by apply Hok|by rewrite fmap_app, Hb'|]. apply Forall_app. split; [done|].
    repeat constructor; simpl; unfold is_u32 in Hq; unfold is_u64; lia.
  - done.
  - exists (mkRef w (wr_refs r)). fold k. split_and!; [done| |done]. by rewrite lookup_alter_wal, decide_True, Hr.
  - unfold covers in *. simpl in *. rewrite Hins. destruct imm as [imm|].
    + destruct Hcov as (older' & E & Hc'). exists older. rewrite Hold in E. apply app_inj_2 in E as [-> E]; [|done].
      by simplify_eq.
    + rewrite Hold in Hcov. rewrite concat_app in *. simpl in *. rewrite app_nil_r in *. rewrite app_assoc.
      by apply submseteq_app.
  - done.
Qed.

(** What a sync of the current log leaves. *)
Lemma current_synced m mem imm segs i r w1 :
  client_inv (mkClient m mem imm) segs -> current_wal_ m = Some i -> wals_ m !! i = Some r ->
  Sync lba_size mem_at (wr_wal r) = Some (OK, w1) ->
  i = pos (wal_tail_ m) (length segs - 1) /\ wr_refs r <= 2 /\
  ref_holds (mkRef w1 (wr_refs r)) (default [] (segs !! (length segs - 1)%nat)) /\
  w_buff_pos w1 = 0 /\ ol_synced (w_log w1).
Proof.
  intros [Hm Ht (r0 & Hcur & Hr0 & Href) _ _] Hi Hr Hs. simpl in *. rewrite Hcur in Hi. injection Hi as <-.
  rewrite Hr0 in Hr. injection Hr as ->. pose proof (mh_count _ _ Hm) as Hc.
  destruct (mh_wals _ _ Hm (length segs - 1)%nat ltac:(lia)) as (r' & Hr' & [(es & Hes & Hb & Hu) Hq] & _).
  rewrite Hr0 in Hr'. injection Hr' as <-. destruct (Sync_ok lba_size HL mem_at Hmem _ _ _ Hes Hs) as (Hw & Hz & Hsy & Hq').
  split_and!; [done..| |done|done]. constructor; simpl; [by exists es|by rewrite Hq'].
Qed.

Lemma switch_spec m mem segs i r w1 :
  client_inv (mkClient m mem None) segs -> current_wal_ m = Some i -> wals_ m !! i = Some r ->
  Sync lba_size mem_at (wr_wal r) = Some (OK, w1) ->
  exists s w2 j m', wal_Close lba_size mem_at w1 = Some (s, w2) /\
    NewWAL lba_size mem_at NDEBUG N (wal_Unref (set_wal m i w2) i) = Some (OK, Some j, m') /\
    j <> i /\ (exists rj, wals_ m !! j = Some rj /\ ol_Empty (w_log (wr_wal rj)) = true) /\
    current_wal_ (wal_Ref m' j) = Some j /\
    exists segs', client_inv (mkClient (wal_Ref m' j) [] (Some mem)) segs' /\ concat segs' = concat segs.
Proof.
  intros Hinv Hcur Hr Hs. destruct (current_synced _ _ _ _ _ _ _ Hinv Hcur Hr Hs) as (Hi & Href & [(es & Hes & Hb & Hu) Hq] & Hz & Hsy).
  destruct Hinv as [Hm Ht _ Hcov [Hroom H0']]. simpl in Hm, Ht, Hcov, Hroom, H0', Hes, Hq.
  destruct (Sync_idle w1 Hz) as (w1' & Hs1).
  destruct (wal_Close_ok _ _ _ Hes Hs1) as (s & w2 & Hclose & Hw2 & Hz2 & Hsy2 & Hq2).
  assert (Hrh : ref_holds (mkRef w2 0) (default [] (segs !! (length segs - 1)%nat))).
  { constructor; simpl; [by exists es|by rewrite Hq2]. }
  pose proof (mh_count _ _ Hm) as Hc.
  destruct (retire m segs i r w2 0 Hm Hcur Hi Hr Href Hrh Hz2 Hsy2) as (Hm2 & Hcl2 & Ht2 & Hr2).
  set (m2 := wal_Unref (set_wal m i w2) i) in *. cbv zeta in *.
  destruct (NewWAL_spec m2 segs Hm2 ltac:(lia) ltac:(lia)) as (m' & HN' & Hm' & Hcur' & Ht' & _ & rj & Hrj & [_ _ Hrefj]).
  { intros c r' Hc' Hr'. change (current_wal_ m2) with (current_wal_ m) in Hc'. rewrite Hcur in Hc'. simplify_eq.
    simpl. split; [lia|]. by apply Sync_idle. }
  assert (Hj : wal_head_ m2 = pos (wal_tail_ m) (length segs)) by (exact (mh_head _ _ Hm)).
  exists s, w2, (wal_head_ m2), m'. split_and!; [done|done| | |done|].
  - rewrite Hj, Hi. intros E. apply pos_inj in E; lia.
  - destruct (mh_wals _ _ Hm (length segs) ltac:(lia)) as (r0 & Hr0 & _ & _ & He). rewrite Hj. exists r0.
    split; [done|]. apply Empty_nil, He. lia.
  - assert (Hlast : wal_head_ m2 = pos (wal_tail_ m') (length (segs ++ [[]]) - 1)).
    { rewrite Hj, Ht', Ht2, length_app. simpl. f_equal. lia. }
    exists (segs ++ [[]]). split; [|rewrite concat_app; simpl; by rewrite app_nil_r]. constructor; simpl.
    + apply mgr_holds_current_same; [done..|]. intros r0 [? ?]. by constructor.
    + lia.
    + rewrite Hcur', <-Hlast. exists (mkRef (wr_wal rj) (wr_refs rj + 1)). split_and!; [done| |simpl; lia].
      rewrite lookup_alter_wal, decide_True, Hrj by done. done.
    + exists segs. done.
    + rewrite Ht', Ht2, length_app. simpl. lia.
Qed.

Lemma flushed_inv m mem imm segs s m' :
  client_inv (mkClient m mem (Some imm)) segs -> ResetOldWALs N m = Some (s, m') ->
  exists segs', client_inv (mkClient m' mem None) segs' /\ current_wal_ m' = current_wal_ m /\
    exists bs, concat segs = bs ++ concat segs'.
Proof.
  intros [Hm Ht (r & Hcur & Hr & Href) Hcov _] HR. simpl in *.
  destruct (ResetOldWALs_spec rl_reset m segs Hm Ht) as (m0 & k & HR' & Hm' & Ht' & Hlen & Hcur' & Hrefs & Hk).
  rewrite HR in HR'. injection HR' as -> ->. exists (drop k segs). pose proof (mh_count _ _ Hm') as Hc'.
  assert (Hcp : current_wal_ m0 = Some (pos (wal_tail_ m0) (length (drop k segs) - 1))).
  { destruct (mh_current _ _ Hm') as [E|E]; [congruence|done]. }
  split; [|split; [done|]; exists (concat (take k segs)); by rewrite <-concat_app, take_drop].
  constructor; simpl; [done|done| | |lia].
  - rewrite <-Hcp, Hcur', Hcur. rewrite Hcur', Hcur in Hcp. injection Hcp as Hcp. rewrite <-Hcp.
    apply (f_equal (fun l => l !! pos (wal_tail_ m) (length segs - 1))) in Hrefs.
    rewrite !list_lookup_fmap, Hr in Hrefs. destruct (wals_ m0 !! _) as [r0|]; simplify_eq/=.
    exists r0. split_and!; [done..|congruence].
  - unfold covers in *. simpl in *. destruct Hcov as (older & -> & _). rewrite length_app in Hk. simpl in Hk.
    rewrite drop_app_le, concat_app by lia. simpl. rewrite app_nil_r. by apply submseteq_inserts_l.
Qed.

Lemma covers_all st segs : covers st segs -> cl_mem st ++ default [] (cl_imm st) ⊆+ concat segs.
Proof.
  unfold covers. destruct (cl_imm st) as [imm|]; simpl; [|by rewrite app_nil_r].
  intros (older & -> & Hi). rewrite concat_app. simpl. rewrite app_nil_r, Permutation_app_comm.
  by apply submseteq_app.
Qed.

(** A restart recovers the batches of all the logs, in some order. *)
Lemma restart_spec {Mem} (mem_write : Mem -> bytes -> Status * Mem) m mem imm segs i r w1 mem0 seq :
  client_inv (mkClient m mem imm) segs -> current_wal_ m = Some i -> wals_ m !! i = Some r ->
  Sync lba_size mem_at (wr_wal r) = Some (OK, w1) ->
  exists order, order ≡ₚ concat segs /\
    replays (WALManager_Recover lba_size N mem_write (restart (wal_Unref (set_wal m i w1) i)) mem0 seq)
      (write_batches mem_write order mem0 seq)
      (fun m' => Forall ref_closed (wals_ m') /\ current_wal_ m' = None /\ (0 < wal_tail_ m' < N)%nat /\
         exists segs', mgr_holds m' segs' /\ concat segs' ≡ₚ concat segs).
Proof.
  intros Hinv Hcur Hr Hs. destruct (current_synced _ _ _ _ _ _ _ Hinv Hcur Hr Hs) as (Hi & Href & Hrh & Hz & Hsy).
  destruct Hinv as [Hm Ht _ _ Hroom]. simpl in *.
  destruct (retire m segs i r w1 _ Hm Hcur Hi Hr Href Hrh Hz Hsy) as (Hm2 & Hcl2 & Ht2 & _). cbv zeta in *.
  apply (Recover_spec rl_pointers rl_read mem_write); [done|done| |lia].
  rewrite Ht2. pose proof (mh_count _ _ Hm). destruct imm; [|left; lia].
  destruct (decide (wal_tail_ m = 0)%nat); [|by right]. left. lia.
Qed.

(** With one place left the tail is right after the head, and no log is free. *)
Lemma WALAvailable_full m segs :
  mgr_holds m segs -> (0 < wal_tail_ m < N)%nat -> (length segs + 1 = N)%nat -> WALAvailable NDEBUG N m = Some false.
Proof.
  intros [Hl Ht Hc Hh Hw Hcur] Htl Hn. unfold WALAvailable. rewrite Hh. unfold pos.
  rewrite (proj2 (Nat.ltb_ge (wal_tail_ m + length segs) N)) by lia.
  rewrite (proj2 (Nat.eqb_neq _ _)), (proj2 (Nat.ltb_ge _ _)) by lia. f_equal. apply Nat.ltb_ge. lia.
Qed.

Lemma idle_closed m segs : mgr_holds m segs -> current_wal_ m = None -> Forall ref_closed (wals_ m).
Proof.
  intros [Hl Ht _ _ Hw _] Hcur. apply Forall_lookup. intros i r Hr. pose proof (lookup_lt_Some _ _ _ Hr).
  destruct (pos_surj (wal_tail_ m) i Ht ltac:(lia)) as (k & Hk & ->).
  destruct (Hw k Hk) as (r0 & Hr0 & _ & Hcl & _). simplify_eq. apply Hcl. by rewrite Hcur.
Qed.

Lemma restart_recovered m mem imm segs i r w1 seq m1 mem' seq' :
  client_inv (mkClient m mem imm) segs -> current_wal_ m = Some i -> wals_ m !! i = Some r ->
  Sync lba_size mem_at (wr_wal r) = Some (OK, w1) ->
  WALManager_Recover lba_size N list_mem_write (restart (wal_Unref (set_wal m i w1) i)) [] seq
    = Some (OK, m1, mem', seq') ->
  exists segs', mgr_holds m1 segs' /\ current_wal_ m1 = None /\ (0 < wal_tail_ m1 < N)%nat /\ mem' ≡ₚ concat segs'.
Proof.
  intros Hinv Hc Hr Hs HR.
  destruct (restart_spec list_mem_write _ _ _ _ _ _ _ [] seq Hinv Hc Hr Hs) as (order & Ho & Hrep). unfold replays in Hrep.
  destruct (write_batches list_mem_write order [] seq) as [[[s0 mem0] seq0]|] eqn:Ew; [|congruence].
  destruct Hrep as (m0 & HR0 & HP). rewrite HR in HR0. injection HR0 as <- -> -> ->.
  destruct HP as (Hcl & Hcur & Ht & segs' & Hm & Hp); [done|]. apply write_batches_list in Ew. simpl in Ew. subst mem0.
  exists segs'. split; [done|]. split; [done|]. split; [done|]. by rewrite Ho, Hp.
Qed.

Lemma client_step_inv st segs st' : client_inv st segs -> client_step st st' -> exists segs', client_inv st' segs'.
Proof.
  intros Hinv Hstep. destruct Hstep as
    [m mem imm i r b w Hc Hr Hb Ha|m mem i r w1 s w2 s' j m' Hc Hr Hs Hcl HN'|m mem imm s m' HR
    |m mem imm i r w1 seq m1 mem' seq' j m2 Hc Hr Hs HR Hav HG
    |m mem imm i r w1 seq m1 mem' seq' s m2 j m3 Hc Hr Hs HR Hav HO HG].
  - destruct (append_inv _ _ _ _ _ _ _ _ Hinv Hc Hr Hb Ha) as (segs' & Hi & _). by exists segs'.
  - destruct (switch_spec _ _ _ _ _ _ Hinv Hc Hr Hs) as (s0 & w0 & j0 & m0 & Hcl0 & HN0 & _ & _ & _ & segs' & Hi & _).
    rewrite Hcl in Hcl0. injection Hcl0 as <- <-. rewrite HN' in HN0. simplify_eq. by exists segs'.
  - destruct (flushed_inv _ _ _ _ _ _ Hinv HR) as (segs' & Hi & _). by exists segs'.
  - destruct (restart_recovered _ _ _ _ _ _ _ _ _ _ _ Hinv Hc Hr Hs HR) as (segs' & Hm & Hcur & Ht & Hp).
    pose proof (mh_count _ _ Hm). destruct (decide (length segs' + 1 = N)%nat) as [E|E].
    { by rewrite (WALAvailable_full m1 segs') in Hav. }
    destruct (adopt m1 segs' Hm (idle_closed _ _ Hm Hcur) Hcur ltac:(lia) ltac:(lia) ltac:(lia) j m2 HG mem') as (segs2 & Hi & _);
      [by rewrite Hp|]. by exists segs2.
  - destruct (restart_recovered _ _ _ _ _ _ _ _ _ _ _ Hinv Hc Hr Hs HR) as (segs' & Hm & Hcur & Ht & Hp).
    destruct (ResetOldWALs_spec rl_reset m1 segs' Hm ltac:(lia)) as (m0 & k & HO' & Hm' & Ht' & Hlen & Hcur' & _ & _).
    rewrite HO in HO'. injection HO' as -> ->. rewrite Hcur in Hcur'.
    destruct (adopt m0 _ Hm' (idle_closed _ _ Hm' Hcur') Hcur' ltac:(lia) ltac:(lia) ltac:(lia) j m3 HG []) as (segs2 & Hi & _);
      [apply submseteq_nil_l|]. by exists segs2.
Qed.

End Client.

(** ** The state that is not allowed to happen *)

(** Once the head has caught up with the tail no log is ever available again:
    nothing is reset, and every request for a log is refused (or the assertion
    fails). *)
Lemma caught_up_stuck m :
  wal_head_ m = wal_tail_ m -> (wal_tail_ m < N)%nat ->
  WALAvailable true N m = Some false /\ NewWAL lba_size mem_at true N m = Some (Busy, None, m) /\
  ResetOldWALs N m = Some (OK, m) /\ WALAvailable false N m = None.
Proof.
  intros E Ht. unfold ResetOldWALs, NewWAL, WALAvailable. rewrite E, Nat.eqb_refl, Nat.ltb_irrefl. obind.
  rewrite (proj2 (Nat.eqb_neq (wal_tail_ m) N)) by lia. cbn [reset_loop].
  rewrite E, (proj2 (Nat.ltb_ge (wal_tail_ m + 2) (wal_tail_ m))) by lia. done.
Qed.

(** [WALAvailable] lets the head catch up: with the tail at 0 and every log but
    the last in use it still reports a free log, and [NewWAL] hands it out. *)
Theorem wal_manager_catches_up m segs :
  mgr_holds m segs -> wal_tail_ m = 0%nat -> (length segs + 1 = N)%nat ->
  (forall c r, current_wal_ m = Some c -> wals_ m !! c = Some r ->
    wr_refs r <= 1 /\ exists w', Sync lba_size mem_at (wr_wal r) = Some (OK, w')) ->
  exists m', NewWAL lba_size mem_at NDEBUG N m = Some (OK, Some (N - 1)%nat, m') /\
    wal_head_ m' = wal_tail_ m' /\
    WALAvailable true N m' = Some false /\ NewWAL lba_size mem_at true N m' = Some (Busy, None, m') /\
    ResetOldWALs N m' = Some (OK, m') /\ WALAvailable false N m' = None.
Proof.
  intros Hm Ht Hn Hcl. pose proof (mh_count _ _ Hm) as Hc.
  assert (Hh : wal_head_ m = (N - 1)%nat) by (rewrite (mh_head _ _ Hm), Ht; pos_lia).
  destruct (close_current m segs Hm Hcl) as (m1 & Hcc & Eh & Et & Hm1 & _).
  destruct (mh_wals _ _ Hm1 (length segs) ltac:(lia)) as (r & Hr & _ & _ & He). simpl in Hr.
  exists (set_head (set_current m1 (Some (N - 1)%nat)) 0). split.
  - unfold NewWAL, WALAvailable. rewrite Hh, Ht. rewrite (proj2 (Nat.eqb_neq _ _)), (proj2 (Nat.ltb_lt _ _)) by lia.
    obind. rewrite (proj2 (Nat.ltb_lt (N - 1) N)) by lia. cbn [orb negb]. rewrite Hcc. obind.
    cbn [wal_head_ wals_ set_current]. rewrite Eh, Hh.
    replace (pos (wal_tail_ m1) (length segs)) with (N - 1)%nat in Hr by (rewrite Et, Ht; pos_lia).
    rewrite Hr. obind. rewrite Empty_nil by (apply He; lia). obind.
    replace (N - 1 + 1)%nat with N by lia. by rewrite Nat.eqb_refl.
  - split; [simpl; congruence|]. apply caught_up_stuck; simpl; [congruence|lia].
Qed.

End Proofs.

(** ** A run of the protocol *)

Module WalManagerWitness.

Definition logs : list RevLog.t := replicate 5 (RevLog.mk 4096 []).
Definition b1 : bytes := witness_batch x01.
Definition b2 : bytes := witness_batch x02.
Definition run {A} (d : A) (x : option A) : A := default d x.

(** The manager after the start, a write, the switch and a second write. *)
Definition fresh := manage 64 zero_mem 5 logs.
Definition w0 := newWAL 64 zero_mem (RevLog.mk 4096 []) true true true.
Definition wal_of (m : TropoWALManager RevLog.t) (i : nat) := run w0 (wr_wal <$> wals_ m !! i).
Definition ref_of (m : TropoWALManager RevLog.t) (i : nat) := run (mkRef w0 1) (wals_ m !! i).
Definition got := Eval vm_compute in (run (Some 0%nat, fresh) (GetCurrentWAL 64 zero_mem true 5 fresh)).2.
Definition m0 := wal_Ref got 0.
Definition w1 := Eval vm_compute in (run (OK, w0) (Append 64 zero_mem (wal_of m0 0) b1 false)).2.
Definition m1 := set_wal m0 0 w1.
Definition w2 := Eval vm_compute in (run (OK, w0) (Sync 64 zero_mem w1)).2.
Definition w3 := Eval vm_compute in (run (OK, w0) (wal_Close 64 zero_mem w2)).2.
Definition switched := Eval vm_compute in
  (run (OK, None, fresh) (NewWAL 64 zero_mem true 5 (wal_Unref (set_wal m1 0 w3) 0))).2.
Definition m2 := wal_Ref switched 1.
Definition w4 := Eval vm_compute in (run (OK, w0) (Append 64 zero_mem (wal_of m2 1) b2 false)).2.
Definition m3 := set_wal m2 1 w4.

Lemma started : client_start 64 zero_mem true 5 (mkClient m0 [] None).
Proof.
  apply (start 64 zero_mem true 5 logs 0 got); [done|by repeat constructor|by vm_compute].
Qed.
Lemma ran : rtc (client_step 64 zero_mem true 5) (mkClient m0 [] None) (mkClient m3 [b2] (Some [b1])).
Proof.
  apply (rtc_l _ _ (mkClient m1 [b1] None)); [|apply (rtc_l _ _ (mkClient m2 [] (Some [b1]))); [|apply rtc_once]].
  - apply (step_append 64 zero_mem true 5 m0 [] None 0 (ref_of m0 0) b1 w1); [done|done| |by vm_compute].
    vm_compute. congruence.
  - by apply (step_switch 64 zero_mem true 5 m1 [b1] 0 (ref_of m1 0) w2 OK w3 OK 1 switched); vm_compute.
  - apply (step_append 64 zero_mem true 5 m2 [] (Some [b1]) 1 (ref_of m2 1) b2 w4); [done|done| |by vm_compute].
    vm_compute. congruence.
Qed.

End WalManagerWitness.

