(* ===== verification/WriteBatch.v ===== *)
(** * WriteBatch: batches of updates

    The part of [db/write_batch.cc] that TropoDB uses.  A batch is a string: a
    header with the sequence number of its first update and the number of its
    updates, and a record for every update.  Updates are appended to it, batches
    are joined, and [Iterate] hands the records one by one to a handler, such as
    the inserter of the memtable.

    Protection information, save points and the flags of the contents are left
    out; TropoDB does not set them. *)

From S2P Require Import Prelude Coding DbFormat Config Committer Szd Wal.

(** ** Building a batch *)

(** The tags that occur only in batches, db/dbformat.h. *)
Definition kTypeLogData : ValueType := 0x3.
Definition kTypeColumnFamilyDeletion : ValueType := 0x4.
Definition kTypeColumnFamilyValue : ValueType := 0x5.
Definition kTypeColumnFamilyMerge : ValueType := 0x6.
Definition kTypeColumnFamilySingleDeletion : ValueType := 0x8.
Definition kTypeBeginPrepareXID : ValueType := 0x9.
Definition kTypeEndPrepareXID : ValueType := 0xA.
Definition kTypeCommitXID : ValueType := 0xB.
Definition kTypeRollbackXID : ValueType := 0xC.
Definition kTypeNoop : ValueType := 0xD.
Definition kTypeColumnFamilyRangeDeletion : ValueType := 0xE.
Definition kTypeColumnFamilyBlobIndex : ValueType := 0x10.
Definition kTypeBeginPersistedPrepareXID : ValueType := 0x12.
Definition kTypeBeginUnprepareXID : ValueType := 0x13.
Definition kTypeCommitXIDAndTimestamp : ValueType := 0x15.

(** [WriteBatch::WriteBatch], db/write_batch.cc:154-160 *)
Definition newWriteBatch : bytes := replicate 12 x00.

(** [WriteBatch::Clear], db/write_batch.cc:240-257 *)
Definition batch_Clear (rep : bytes) : bytes := newWriteBatch.

(** [WriteBatchInternal::SetCount], db/write_batch.cc:691-693 *)
Definition SetCount (rep : bytes) (n : Z) : option bytes := put 8 (EncodeFixed32 n) rep.

(** [WriteBatchInternal::SetSequence], db/write_batch.cc:699-701 *)
Definition SetSequence (rep : bytes) (seq : Z) : option bytes := put 0 (EncodeFixed64 seq) rep.

(** [WriteBatchInternal::Put], db/write_batch.cc:746-780, for the default column
    family. *)
Definition batch_Put (rep key value : bytes) : option (Status * bytes) :=
  if 2 ^ 32 - 1 <? blen key then Some (InvalidArgument, rep)
  else if 2 ^ 32 - 1 <? blen value then Some (InvalidArgument, rep)
  else
    c ← batch_Count rep;
    rep ← SetCount rep (u32 (c + 1));
    let rep := rep ++ [z2b kTypeValue] in
    Some (OK, PutLengthPrefixedSlice (PutLengthPrefixedSlice rep key) value).

(** [WriteBatchInternal::Delete], db/write_batch.cc:962-985, for the default
    column family. *)
Definition batch_Delete (rep key : bytes) : option (Status * bytes) :=
  c ← batch_Count rep;
  rep ← SetCount rep (u32 (c + 1));
  let rep := rep ++ [z2b kTypeDeletion] in
  Some (OK, PutLengthPrefixedSlice rep key).

(** [WriteBatchInternal::Append], db/write_batch.cc:2614-2648 *)
Definition batch_Append (dst src : bytes) : option (Status * bytes) :=
  src_count ← batch_Count src;
  dst_count ← batch_Count dst;
  dst ← SetCount dst (u32 (dst_count + src_count));
  _ ← (if kHeader <=? blen src then Some tt else None);
  Some (OK, dst ++ zdrop kHeader src).

(** ** Reading a batch *)

(** The variables that [ReadRecordFromWriteBatch] fills. *)
Record batch_record := mkRecord {
  br_tag : ValueType; br_cf : Z; br_key : bytes; br_value : bytes; br_blob : bytes; br_xid : bytes
}.

Definition set_cf r c := mkRecord (br_tag r) c (br_key r) (br_value r) (br_blob r) (br_xid r).
Definition set_key r k := mkRecord (br_tag r) (br_cf r) k (br_value r) (br_blob r) (br_xid r).
Definition set_value r v := mkRecord (br_tag r) (br_cf r) (br_key r) v (br_blob r) (br_xid r).
Definition set_blob r b := mkRecord (br_tag r) (br_cf r) (br_key r) (br_value r) b (br_xid r).
Definition set_xid r x := mkRecord (br_tag r) (br_cf r) (br_key r) (br_value r) (br_blob r) x.

(** The fields of a record that are read from the input, one after the other;
    [None] is a corrupted record. *)
Definition read_cf (x : bytes * batch_record) : option (bytes * batch_record) :=
  let '(input, r) := x in '(c, input) ← GetVarint32 input; Some (input, set_cf r c).
Definition read_key (x : bytes * batch_record) : option (bytes * batch_record) :=
  let '(input, r) := x in '(k, input) ← GetLengthPrefixedSlice input; Some (input, set_key r k).
Definition read_value (x : bytes * batch_record) : option (bytes * batch_record) :=
  let '(input, r) := x in '(v, input) ← GetLengthPrefixedSlice input; Some (input, set_value r v).
Definition read_blob (x : bytes * batch_record) : option (bytes * batch_record) :=
  let '(input, r) := x in '(b, input) ← GetLengthPrefixedSlice input; Some (input, set_blob r b).
Definition read_xid (x : bytes * batch_record) : option (bytes * batch_record) :=
  let '(input, r) := x in '(i, input) ← GetLengthPrefixedSlice input; Some (input, set_xid r i).

(** [ReadRecordFromWriteBatch], db/write_batch.cc:344-447.  The outer [None] is
    the access to the first byte of an empty input; the inner one the statuses
    of corruption. *)
Definition ReadRecordFromWriteBatch (input : bytes) (r : batch_record) : option (option (bytes * batch_record)) :=
  match input with
  | [] => None
  | b :: input =>
      let tag := b2z b in
      let x := (input, mkRecord tag 0 (br_key r) (br_value r) (br_blob r) (br_xid r)) in
      Some (
        if tag =? kTypeColumnFamilyValue then x ← read_cf x; x ← read_key x; read_value x
        else if tag =? kTypeValue then x ← read_key x; read_value x
        else if (tag =? kTypeColumnFamilyDeletion) || (tag =? kTypeColumnFamilySingleDeletion)
        then x ← read_cf x; read_key x
        else if (tag =? kTypeDeletion) || (tag =? kTypeSingleDeletion) then read_key x
        else if tag =? kTypeColumnFamilyRangeDeletion then x ← read_cf x; x ← read_key x; read_value x
        else if tag =? kTypeRangeDeletion then x ← read_key x; read_value x
        else if tag =? kTypeColumnFamilyMerge then x ← read_cf x; x ← read_key x; read_value x
        else if tag =? kTypeMerge then x ← read_key x; read_value x
        else if tag =? kTypeColumnFamilyBlobIndex then x ← read_cf x; x ← read_key x; read_value x
        else if tag =? kTypeBlobIndex then x ← read_key x; read_value x
        else if tag =? kTypeLogData then read_blob x
        else if (tag =? kTypeNoop) || (tag =? kTypeBeginPrepareXID) || (tag =? kTypeBeginPersistedPrepareXID)
                || (tag =? kTypeBeginUnprepareXID) then Some x
        else if tag =? kTypeEndPrepareXID then read_xid x
        else if tag =? kTypeCommitXIDAndTimestamp then x ← read_key x; read_xid x
        else if tag =? kTypeCommitXID then read_xid x
        else if tag =? kTypeRollbackXID then read_xid x
        else None)
  end.

(** ** Handlers *)

(** [WriteBatch::Handler]: what is done with the records, over a state.  A
    failed assertion is [None]. *)
Record Handler (St : Type) := mkHandler {
  h_Continue : St -> bool;
  h_PutCF : St -> Z -> bytes -> bytes -> option (Status * St);
  h_DeleteCF : St -> Z -> bytes -> option (Status * St);
  h_SingleDeleteCF : St -> Z -> bytes -> option (Status * St);
  h_DeleteRangeCF : St -> Z -> bytes -> bytes -> option (Status * St);
  h_MergeCF : St -> Z -> bytes -> bytes -> option (Status * St);
  h_PutBlobIndexCF : St -> Z -> bytes -> bytes -> option (Status * St);
  h_LogData : St -> bytes -> St;
  h_MarkBeginPrepare : St -> bool -> option (Status * St);
  h_MarkEndPrepare : St -> bytes -> option (Status * St);
  h_MarkCommit : St -> bytes -> option (Status * St);
  h_MarkCommitWithTimestamp : St -> bytes -> bytes -> option (Status * St);
  h_MarkRollback : St -> bytes -> option (Status * St);
  h_MarkNoop : St -> bool -> option (Status * St);
  h_WriteAfterCommit : bool;
  h_WriteBeforePrepare : bool
}.
Arguments h_Continue {_}. Arguments h_PutCF {_}. Arguments h_DeleteCF {_}. Arguments h_SingleDeleteCF {_}.
Arguments h_DeleteRangeCF {_}. Arguments h_MergeCF {_}. Arguments h_PutBlobIndexCF {_}. Arguments h_LogData {_}.
Arguments h_MarkBeginPrepare {_}. Arguments h_MarkEndPrepare {_}. Arguments h_MarkCommit {_}.
Arguments h_MarkCommitWithTimestamp {_}. Arguments h_MarkRollback {_}. Arguments h_MarkNoop {_}.
Arguments h_WriteAfterCommit {_}. Arguments h_WriteBeforePrepare {_}. Arguments mkHandler {_}.

Section Iterate.
Context {St : Type} (h : Handler St) (NDEBUG : bool).

Definition assert (b : bool) : option unit := if NDEBUG || b then Some tt else None.

(** The [switch] of [Iterate] on the tag of a record: the status, the state,
    whether the accumulated batch is empty, and the records found. *)
Definition dispatch (r : batch_record) (st : St) (empty_batch : bool) (found : Z)
    : option (Status * St * bool * Z) :=
  let tag := br_tag r in
  let update x := '(s, st) ← x; Some (if ok s then (s, st, false, u32 (found + 1)) else (s, st, empty_batch, found)) in
  let marker e x := '(s, st) ← x; _ ← assert (ok s); Some (s, st, e, found) in
  if (tag =? kTypeColumnFamilyValue) || (tag =? kTypeValue) then update (h_PutCF h st (br_cf r) (br_key r) (br_value r))
  else if (tag =? kTypeColumnFamilyDeletion) || (tag =? kTypeDeletion) then update (h_DeleteCF h st (br_cf r) (br_key r))
  else if (tag =? kTypeColumnFamilySingleDeletion) || (tag =? kTypeSingleDeletion)
  then update (h_SingleDeleteCF h st (br_cf r) (br_key r))
  else if (tag =? kTypeColumnFamilyRangeDeletion) || (tag =? kTypeRangeDeletion)
  then update (h_DeleteRangeCF h st (br_cf r) (br_key r) (br_value r))
  else if (tag =? kTypeColumnFamilyMerge) || (tag =? kTypeMerge)
  then update (h_MergeCF h st (br_cf r) (br_key r) (br_value r))
  else if (tag =? kTypeColumnFamilyBlobIndex) || (tag =? kTypeBlobIndex)
  then '(s, st) ← h_PutBlobIndexCF h st (br_cf r) (br_key r) (br_value r);
       Some (s, st, empty_batch, if ok s then u32 (found + 1) else found)
  else if tag =? kTypeLogData then Some (OK, h_LogData h st (br_blob r), false, found)
  else if tag =? kTypeBeginPrepareXID
  then '(s, st, e, f) ← marker false (h_MarkBeginPrepare h st false);
       let s := if h_WriteAfterCommit h then s else NotSupported in
       Some (if h_WriteBeforePrepare h then NotSupported else s, st, e, f)
  else if tag =? kTypeBeginPersistedPrepareXID
  then '(s, st, e, f) ← marker false (h_MarkBeginPrepare h st false);
       Some (if h_WriteAfterCommit h then NotSupported else s, st, e, f)
  else if tag =? kTypeBeginUnprepareXID
  then '(s, st, e, f) ← marker false (h_MarkBeginPrepare h st true);
       let s := if h_WriteAfterCommit h then NotSupported else s in
       Some (if h_WriteBeforePrepare h then s else NotSupported, st, e, f)
  else if tag =? kTypeEndPrepareXID then marker true (h_MarkEndPrepare h st (br_xid r))
  else if tag =? kTypeCommitXID then marker true (h_MarkCommit h st (br_xid r))
  else if tag =? kTypeCommitXIDAndTimestamp
  then _ ← assert (0 <? blen (br_key r));
       '(s, st) ← h_MarkCommitWithTimestamp h st (br_xid r) (br_key r);
       Some (s, st, if ok s then true else empty_batch, found)
  else if tag =? kTypeRollbackXID then marker true (h_MarkRollback h st (br_xid r))
  else marker true (h_MarkNoop h st empty_batch).

(** The loop of [Iterate]; the last component tells whether the handler wants to
    continue.  A record is retried once when the handler asks for it. *)
Fixpoint iterate_loop (fuel : nat) (input : bytes) (r : batch_record) (s : Status) (st : St)
    (empty_batch last_was_try_again : bool) (found : Z) : option (Status * St * Z * bool) :=
  match fuel with
  | O => None
  | S fuel =>
      let again := bool_decide (s = TryAgain) in
      if (ok s && negb (bool_decide (input = []))) || again then
        if negb (h_Continue h st) then Some (s, st, found, false)
        else if negb again then
          x ← ReadRecordFromWriteBatch input r;
          match x with
          | None => Some (Corruption, st, found, true)
          | Some (input, r) =>
              '(s, st, e, f) ← dispatch r st empty_batch found;
              iterate_loop fuel input r s st e false f
          end
        else
          _ ← assert (negb last_was_try_again);
          if last_was_try_again then Some (Corruption, st, found, true)
          else
            '(s, st, e, f) ← dispatch r st empty_batch found;
            iterate_loop fuel input r s st e true f
      else Some (s, st, found, true)
  end.

(** [WriteBatchInternal::Iterate], db/write_batch.cc:458-677, and
    [WriteBatch::Iterate] over the whole batch.  Every round but a retry reads at
    least one byte. *)
Definition batch_Iterate (rep : bytes) (st : St) : option (Status * St) :=
  if blen rep <? kHeader then Some (Corruption, st)
  else
    let input := zdrop kHeader rep in
    '(s, st, found, handler_continue) ←
      iterate_loop (2 * length input + 2) input (mkRecord 0 0 [] [] [] []) OK st true false 0;
    if negb (ok s) then Some (s, st)
    else
      c ← batch_Count rep;
      Some (if handler_continue && negb (found =? c) then Corruption else OK, st).

End Iterate.

(** ** What a batch holds *)

(** The updates that TropoDB's clients make. *)
Inductive update := UPut (key value : bytes) | UDelete (key : bytes).

Definition update_ok (u : update) : Prop :=
  match u with
  | UPut k v => blen k < 2 ^ 32 /\ blen v < 2 ^ 32
  | UDelete k => blen k < 2 ^ 32
  end.

Definition enc_update (u : update) : bytes :=
  match u with
  | UPut k v => z2b kTypeValue :: PutLengthPrefixedSlice [] k ++ PutLengthPrefixedSlice [] v
  | UDelete k => z2b kTypeDeletion :: PutLengthPrefixedSlice [] k
  end.
Definition enc_updates (us : list update) : bytes := concat (enc_update <$> us).

(** The batch of the updates [us], the first of which has the number [seq]. *)
Definition batch_of (seq : Z) (us : list update) : bytes :=
  EncodeFixed64 seq ++ EncodeFixed32 (blen us) ++ enc_updates us.

Lemma newWriteBatch_of : newWriteBatch = batch_of 0 [].
Proof. by vm_compute. Qed.
Lemma batch_of_length seq us : blen (batch_of seq us) = kHeader + blen (enc_updates us).
Proof. unfold batch_of, kHeader. len. Qed.
Lemma batch_of_Sequence seq us : is_u64 seq -> batch_Sequence (batch_of seq us) = Some seq.
Proof. intros Hs. unfold batch_Sequence, batch_of. by apply (DecodeFixed64_at []). Qed.
Lemma batch_of_Count seq us : blen us < 2 ^ 32 -> batch_Count (batch_of seq us) = Some (blen us).
Proof.
  intros Hn. unfold batch_Count, batch_of. apply DecodeFixed32_at; [|by rewrite blen_EncodeFixed64].
  pose proof (blen_nonneg us). unfold is_u32. lia.
Qed.
Lemma batch_of_SetSequence seq us seq' : SetSequence (batch_of seq us) seq' = Some (batch_of seq' us).
Proof.
  unfold SetSequence, batch_of. apply (put_mid []); [done|by rewrite !blen_EncodeFixed64].
Qed.
Lemma batch_of_SetCount seq us n :
  SetCount (batch_of seq us) n = Some (EncodeFixed64 seq ++ EncodeFixed32 n ++ enc_updates us).
Proof.
  unfold SetCount, batch_of. apply put_mid; [by rewrite blen_EncodeFixed64|by rewrite !blen_EncodeFixed32].
Qed.
Lemma enc_updates_snoc us u : enc_updates (us ++ [u]) = enc_updates us ++ enc_update u.
Proof. unfold enc_updates. rewrite fmap_app, concat_app. simpl. by rewrite app_nil_r. Qed.

Lemma batch_Put_spec seq us k v :
  blen us + 1 < 2 ^ 32 -> update_ok (UPut k v) ->
  batch_Put (batch_of seq us) k v = Some (OK, batch_of seq (us ++ [UPut k v])).
Proof.
  intros Hn [Hk Hv]. pose proof (blen_nonneg us). unfold batch_Put.
  rewrite !(proj2 (Z.ltb_ge _ _)) by lia. rewrite batch_of_Count by lia. obind.
  rewrite batch_of_SetCount. obind. do 2 f_equal. rewrite u32_small by (unfold is_u32; lia).
  rewrite PutLengthPrefixedSlice_app, (PutLengthPrefixedSlice_app _ k).
  unfold batch_of. rewrite blen_app, enc_updates_snoc. change (blen [UPut k v]) with 1.
  unfold enc_update. by rewrite <-!app_assoc.
Qed.
Lemma batch_Delete_spec seq us k :
  blen us + 1 < 2 ^ 32 -> batch_Delete (batch_of seq us) k = Some (OK, batch_of seq (us ++ [UDelete k])).
Proof.
  intros Hn. pose proof (blen_nonneg us). unfold batch_Delete. rewrite batch_of_Count by lia. obind.
  rewrite batch_of_SetCount. obind. do 2 f_equal. rewrite u32_small by (unfold is_u32; lia).
  rewrite PutLengthPrefixedSlice_app. unfold batch_of. rewrite blen_app, enc_updates_snoc.
  change (blen [UDelete k]) with 1. unfold enc_update. by rewrite <-!app_assoc.
Qed.
Lemma batch_Append_spec seq us seq' us' :
  blen us + blen us' < 2 ^ 32 ->
  batch_Append (batch_of seq us) (batch_of seq' us') = Some (OK, batch_of seq (us ++ us')).
Proof.
  intros Hn. pose proof (blen_nonneg us). pose proof (blen_nonneg us'). unfold batch_Append.
  rewrite !batch_of_Count by lia. obind. rewrite batch_of_SetCount. obind.
  rewrite batch_of_length, (proj2 (Z.leb_le _ _)) by (pose_blen; lia). obind. do 2 f_equal.
  rewrite u32_small by (unfold is_u32; lia). unfold batch_of. rewrite blen_app, <-!app_assoc.
  do 2 f_equal. unfold enc_updates at 3. rewrite fmap_app, concat_app. by f_equal.
Qed.

(** ** Iterating over the updates *)

Section IterateProofs.
Context {St : Type} (h : Handler St) (NDEBUG : bool) (Hcont : forall st, h_Continue h st = true).

Definition apply_update (st : St) (u : update) : option (Status * St) :=
  match u with
  | UPut k v => h_PutCF h st 0 k v
  | UDelete k => h_DeleteCF h st 0 k
  end.

(** The handler takes the updates one by one. *)
Fixpoint apply_updates (us : list update) (st : St) : option (Status * St) :=
  match us with
  | [] => Some (OK, st)
  | u :: us => '(s, st) ← apply_update st u; if ok s then apply_updates us st else Some (s, st)
  end.

Lemma read_key_put k rest r : blen k < 2 ^ 32 -> read_key (PutLengthPrefixedSlice [] k ++ rest, r) = Some (rest, set_key r k).
Proof.
  intros Hk. unfold read_key. rewrite GetLengthPrefixedSlice_Put; [done|]. unfold is_u32. pose_blen. lia.
Qed.
Lemma read_value_put v rest r : blen v < 2 ^ 32 -> read_value (PutLengthPrefixedSlice [] v ++ rest, r) = Some (rest, set_value r v).
Proof.
  intros Hv. unfold read_value. rewrite GetLengthPrefixedSlice_Put; [done|]. unfold is_u32. pose_blen. lia.
Qed.

Lemma read_put r k v rest :
  blen k < 2 ^ 32 -> blen v < 2 ^ 32 ->
  ReadRecordFromWriteBatch (z2b kTypeValue :: PutLengthPrefixedSlice [] k ++ PutLengthPrefixedSlice [] v ++ rest) r
  = Some (Some (rest, mkRecord kTypeValue 0 k v (br_blob r) (br_xid r))).
Proof.
  intros Hk Hv. unfold ReadRecordFromWriteBatch. change (b2z (z2b kTypeValue)) with kTypeValue.
  change (kTypeValue =? kTypeColumnFamilyValue) with false. change (kTypeValue =? kTypeValue) with true. cbv iota zeta.
  rewrite read_key_put by done. obind. by rewrite read_value_put.
Qed.
Lemma read_delete r k rest :
  blen k < 2 ^ 32 ->
  ReadRecordFromWriteBatch (z2b kTypeDeletion :: PutLengthPrefixedSlice [] k ++ rest) r
  = Some (Some (rest, mkRecord kTypeDeletion 0 k (br_value r) (br_blob r) (br_xid r))).
Proof.
  intros Hk. unfold ReadRecordFromWriteBatch. change (b2z (z2b kTypeDeletion)) with kTypeDeletion.
  change (kTypeDeletion =? kTypeColumnFamilyValue) with false. change (kTypeDeletion =? kTypeValue) with false.
  change ((kTypeDeletion =? kTypeColumnFamilyDeletion) || (kTypeDeletion =? kTypeColumnFamilySingleDeletion)) with false.
  change ((kTypeDeletion =? kTypeDeletion) || (kTypeDeletion =? kTypeSingleDeletion)) with true. cbv iota zeta.
  by rewrite read_key_put.
Qed.

Lemma read_update r u rest :
  update_ok u -> exists r', ReadRecordFromWriteBatch (enc_update u ++ rest) r = Some (Some (rest, r')) /\
    forall st e f, dispatch h NDEBUG r' st e f =
      ('(s, st) ← apply_update st u; Some (if ok s then (s, st, false, u32 (f + 1)) else (s, st, e, f))).
Proof.
  intros Hu. destruct u as [k v|k]; unfold enc_update; rewrite <-app_comm_cons, <-?app_assoc.
  - rewrite read_put by apply Hu. by eexists.
  - rewrite read_delete by done. by eexists.
Qed.

Lemma iterate_updates us fuel r st e l f st' :
  Forall update_ok us -> (length us < fuel)%nat -> is_u32 f -> f + blen us < 2 ^ 32 ->
  apply_updates us st = Some (OK, st') ->
  iterate_loop h NDEBUG fuel (enc_updates us) r OK st e l f = Some (OK, st', f + blen us, true).
Proof.
  intros Hok. revert fuel r st e l f. induction Hok as [|u us Hu Hok IH]; intros fuel r st e l f Hf Hf32 Hn Ha;
    (destruct fuel as [|fuel]; [simpl in Hf; lia|]); cbn [iterate_loop].
  { injection Ha as <-. cbn. change (blen []) with 0. by rewrite Z.add_0_r. }
  change (enc_updates (u :: us)) with (enc_update u ++ enc_updates us).
  assert (bool_decide (enc_update u ++ enc_updates us = []) = false) as -> by (by destruct u).
  rewrite Hcont. cbn [ok negb andb orb bool_decide decide_rel]. rewrite bool_decide_eq_false_2 by done. cbn [negb orb].
  destruct (read_update r u (enc_updates us) Hu) as (r' & -> & Hd). obind. rewrite Hd.
  cbn [apply_updates] in Ha. destruct (apply_update st u) as [[s st1]|]; [|done]. cbn [mbind option_bind] in Ha |- *.
  destruct (ok s) eqn:Es; [|by simplify_eq]. assert (s = OK) as -> by (by destruct s).
  rewrite blen_cons in *. pose proof (blen_nonneg us). unfold is_u32 in Hf32.
  rewrite u32_small by (unfold is_u32; lia). rewrite (IH fuel r' st1 false false (f + 1)); [|simpl in Hf; lia|unfold is_u32; lia|lia|done].
  do 3 f_equal. lia.
Qed.

(** Iterating over a batch gives the handler its updates in order. *)
Lemma batch_Iterate_spec seq us st st' :
  Forall update_ok us -> blen us < 2 ^ 32 -> apply_updates us st = Some (OK, st') ->
  batch_Iterate h NDEBUG (batch_of seq us) st = Some (OK, st').
Proof.
  intros Hok Hn Ha. unfold batch_Iterate. rewrite batch_of_length, (proj2 (Z.ltb_ge _ _)) by (pose_blen; lia).
  assert (zdrop kHeader (batch_of seq us) = enc_updates us) as ->.
  { unfold batch_of. rewrite app_assoc. apply zdrop_app_exact. by vm_compute. }
  rewrite (iterate_updates us _ _ st true false 0 st' Hok); [|
    |unfold is_u32; lia|lia|done].
  - obind. cbn [ok negb]. rewrite batch_of_Count by done. obind. by rewrite Z.add_0_l, Z.eqb_refl.
  - assert (length us <= length (enc_updates us))%nat; [|lia]. clear. induction us as [|u us IH]; [done|].
    change (enc_updates (u :: us)) with (enc_update u ++ enc_updates us). rewrite length_app.
    destruct u; simpl; lia.
Qed.
End IterateProofs.
