(* ===== verification/SSTable.v ===== *)
(** * SSTable: building and decoding sorted string tables

    [table/tropodb_sstable_builder.cc], [table/tropodb_sstable_builder.h] and
    [table/tropodb_sstable_reader.cc].  A table is a preamble of fixed64 fields
    (its size, the number of restart points, their offsets) followed by
    prefix-compressed entries; every sixteenth entry is a restart point that
    holds its whole key. *)

From S2P Require Import Prelude Coding DbFormat Config.

(** ** Builder *)

(** [TropoSSTableBuilder], table/tropodb_sstable_builder.h:24-39.  [sb_meta]
    is the metadata that [meta_] points to. *)
Record TropoSSTableBuilder := mkBuilder {
  sb_started : bool;
  sb_buffer : bytes;
  sb_kv_pair_offsets : list Z;
  sb_kv_numbers : Z;
  sb_counter : Z;
  sb_use_encoding : bool;
  sb_last_key : bytes;
  sb_meta : SSZoneMetaData
}.

Definition set_smallest (m : SSZoneMetaData) (k : bytes) : SSZoneMetaData :=
  mkMeta (m_refs m) (m_allowed_seeks m) (m_number m) (m_L0_lba m) (m_L0_log_number m)
    (m_L0_number m) (m_LN_lba_regions m) (m_LN_lbas m) (m_LN_lba_region_sizes m)
    (m_numbers m) (m_lba_count m) k (m_largest m).
Definition set_largest (m : SSZoneMetaData) (k : bytes) : SSZoneMetaData :=
  mkMeta (m_refs m) (m_allowed_seeks m) (m_number m) (m_L0_lba m) (m_L0_log_number m)
    (m_L0_number m) (m_LN_lba_regions m) (m_LN_lbas m) (m_LN_lba_region_sizes m)
    (m_numbers m) (m_lba_count m) (m_smallest m) k.
Definition set_numbers (m : SSZoneMetaData) (n : Z) : SSZoneMetaData :=
  mkMeta (m_refs m) (m_allowed_seeks m) (m_number m) (m_L0_lba m) (m_L0_log_number m)
    (m_L0_number m) (m_LN_lba_regions m) (m_LN_lbas m) (m_LN_lba_region_sizes m)
    n (m_lba_count m) (m_smallest m) (m_largest m).
Definition set_lba_count (m : SSZoneMetaData) (n : Z) : SSZoneMetaData :=
  mkMeta (m_refs m) (m_allowed_seeks m) (m_number m) (m_L0_lba m) (m_L0_log_number m)
    (m_L0_number m) (m_LN_lba_regions m) (m_LN_lbas m) (m_LN_lba_region_sizes m)
    (m_numbers m) n (m_smallest m) (m_largest m).

(** [TropoSSTableBuilder::TropoSSTableBuilder], table/tropodb_sstable_builder.cc:9-27 *)
Definition newBuilder (meta : SSZoneMetaData) (use_encoding : bool) : TropoSSTableBuilder :=
  mkBuilder false [] (if use_encoding then [0] else []) 0 0 use_encoding []
    (set_lba_count meta 0).

(** [TropoSSTableBuilder::EstimateSizeImpact], table/tropodb_sstable_builder.cc:31-35 *)
Definition EstimateSizeImpact (key value : bytes) : Z := blen key + blen value + 5 * 4.

(** The [while] loop that counts the bytes shared with the last key. *)
Fixpoint common_prefix (a b : bytes) : Z :=
  match a, b with
  | x :: a, y :: b => if decide (x = y) then 1 + common_prefix a b else 0
  | _, _ => 0
  end.

(** [TropoSSTableBuilder::Apply], table/tropodb_sstable_builder.cc:37-81 *)
Definition Apply (b : TropoSSTableBuilder) (key value : bytes) : TropoSSTableBuilder :=
  let meta := if sb_started b then sb_meta b else set_smallest (sb_meta b) key in
  if sb_use_encoding b then
    let '(shared, offsets, counter) :=
      if sb_counter b <? max_sstable_encoding
      then (common_prefix (sb_last_key b) key, sb_kv_pair_offsets b, sb_counter b)
      else (0, sb_kv_pair_offsets b ++ [u32 (blen (sb_buffer b))], 0) in
    let non_shared := blen key - shared in
    let buffer := PutVarint32 (sb_buffer b) (u32 shared) in
    let buffer := PutVarint32 buffer (u32 non_shared) in
    let buffer := PutVarint32 buffer (u32 (blen value)) in
    let buffer := buffer ++ ztake non_shared (zdrop shared key) in
    let buffer := buffer ++ value in
    let last_key := ztake shared (sb_last_key b) ++ ztake non_shared (zdrop shared key) in
    mkBuilder true buffer offsets (u32 (sb_kv_numbers b + 1)) (u32 (counter + 1)) true last_key
      (set_largest meta key)
  else
    let buffer := PutVarint32 (sb_buffer b) (u32 (blen key)) in
    let buffer := PutVarint32 buffer (u32 (blen value)) in
    let buffer := buffer ++ key in
    let buffer := buffer ++ value in
    mkBuilder true buffer (sb_kv_pair_offsets b ++ [u32 (blen buffer)])
      (u32 (sb_kv_numbers b + 1)) (sb_counter b) false (sb_last_key b) (set_largest meta key).

(** [TropoSSTableBuilder::Finalise], table/tropodb_sstable_builder.cc:83-98 *)
Definition Finalise (b : TropoSSTableBuilder) : TropoSSTableBuilder :=
  let meta := set_numbers (sb_meta b) (sb_kv_numbers b) in
  let n := blen (sb_kv_pair_offsets b) in
  let expect_size := blen (sb_buffer b) + (n + 2) * 8 in
  let preamble := if sb_use_encoding b then PutFixed64 [] expect_size else [] in
  let preamble := PutFixed64 preamble n in
  let preamble := fold_left PutFixed64 (sb_kv_pair_offsets b) preamble in
  mkBuilder (sb_started b) (preamble ++ sb_buffer b) (sb_kv_pair_offsets b) (sb_kv_numbers b)
    (sb_counter b) (sb_use_encoding b) (sb_last_key b) meta.

(** [TropoSSTableBuilder::GetSize], table/tropodb_sstable_builder.h:20-20 *)
Definition GetSize (b : TropoSSTableBuilder) : Z := blen (sb_buffer b).

(** ** Decoding of entries *)

(** [TropoEncoding::DecodeEncodedEntry], table/tropodb_sstable_reader.cc:7-27.
    The argument is the bytes from [p] to [limit]; the result has the three
    lengths and the bytes behind the header, [None] for [nullptr]. *)
Definition DecodeEncodedEntry (l : bytes) : option (Z * Z * Z * bytes) :=
  match l with
  | b0 :: b1 :: b2 :: rest =>
      let '(s, n, v) := (b2z b0, b2z b1, b2z b2) in
      '(s, n, v, p) ←
        (if Z.lor (Z.lor s n) v <? 128 then Some (s, n, v, rest)
         else
           '(s, p) ← GetVarint32Ptr l;
           '(n, p) ← GetVarint32Ptr p;
           '(v, p) ← GetVarint32Ptr p;
           Some (s, n, v, p));
      if u32 (blen p) <? u32 (n + v) then None else Some (s, n, v, p)
  | _ => None
  end.

(** [TropoEncoding::ParseNextNonEncoded], table/tropodb_sstable_reader.cc:29-37.
    The limit of each varint is five bytes ahead of the cursor. *)
Definition ParseNextNonEncoded (src : bytes) : option (bytes * bytes * bytes) :=
  '(keysize, rest) ← GetVarint32Ptr (ztake 5 src);
  let src := zdrop (5 - blen rest) src in
  '(valuesize, rest) ← GetVarint32Ptr (ztake 5 src);
  let src := zdrop (5 - blen rest) src in
  key ← slice 0 keysize src;
  let src := zdrop keysize src in
  value ← slice 0 valuesize src;
  Some (key, value, zdrop valuesize src).

(** ** The layout that the builder produces *)

Abbreviation KV := (bytes * bytes)%type.

(** One entry on storage. *)
Definition enc_kv (shared : Z) (kv : KV) : bytes :=
  EncodeVarint32 shared ++ EncodeVarint32 (blen (fst kv) - shared) ++
  EncodeVarint32 (blen (snd kv)) ++ zdrop shared (fst kv) ++ snd kv.

(** The number of bytes entry [i] shares with its predecessor. *)
Definition shared_at (i : nat) (prev : bytes) (kv : KV) : Z :=
  if (i mod 16 =? 0)%nat then 0 else common_prefix prev (fst kv).

(** The entries from number [i] on, after the key [prev]. *)
Fixpoint enc_from (i : nat) (prev : bytes) (kvs : list KV) : list bytes :=
  match kvs with
  | [] => []
  | kv :: kvs => enc_kv (shared_at i prev kv) kv :: enc_from (S i) (fst kv) kvs
  end.

Definition entry_blocks (kvs : list KV) : list bytes := enc_from 0 [] kvs.

(** Where entry [i] starts in the body. *)
Definition entry_off (kvs : list KV) (i : nat) : Z := blen (concat (take i (entry_blocks kvs))).

Definition body (kvs : list KV) : bytes := concat (entry_blocks kvs).

(** The restart points: the entries whose number is a multiple of sixteen. *)
Definition restart_count (kvs : list KV) : nat := Nat.max 1 ((length kvs + 15) / 16).
Definition restarts (kvs : list KV) : list Z :=
  map (fun r => entry_off kvs (16 * r)) (seq 0 (restart_count kvs)).

Definition table_image (kvs : list KV) : bytes :=
  let n := Z.of_nat (restart_count kvs) in
  EncodeFixed64 (blen (body kvs) + (n + 2) * 8) ++ EncodeFixed64 n ++
  concat (map EncodeFixed64 (restarts kvs)) ++ body kvs.

Definition Apply_all (b : TropoSSTableBuilder) (kvs : list KV) : TropoSSTableBuilder :=
  fold_left (fun b kv => Apply b (fst kv) (snd kv)) kvs b.

(** ** The builder produces that layout *)

Definition last_key_of (prev : bytes) (kvs : list KV) : bytes := default prev (fst <$> last kvs).

Lemma last_key_snoc prev kvs kv : last_key_of prev (kvs ++ [kv]) = fst kv.
Proof. unfold last_key_of. by rewrite last_snoc. Qed.

Lemma last_key_cons prev kv kvs : last_key_of prev (kv :: kvs) = last_key_of (fst kv) kvs.
Proof. unfold last_key_of. rewrite last_cons. by destruct (last kvs). Qed.

Lemma enc_from_app i prev l k :
  enc_from i prev (l ++ k) = enc_from i prev l ++ enc_from (i + length l) (last_key_of prev l) k.
Proof.
  revert i prev. induction l as [|kv l IH]; intros i prev; simpl; [by rewrite Nat.add_0_r|].
  rewrite IH, last_key_cons. do 2 f_equal. f_equal. lia.
Qed.

Lemma enc_from_length i prev l : length (enc_from i prev l) = length l.
Proof. revert i prev. induction l; intros; simpl; auto. Qed.

Lemma entry_blocks_snoc kvs kv :
  entry_blocks (kvs ++ [kv]) =
  entry_blocks kvs ++ [enc_kv (shared_at (length kvs) (last_key_of [] kvs) kv) kv].
Proof. unfold entry_blocks. rewrite enc_from_app. done. Qed.

Lemma entry_blocks_length kvs : length (entry_blocks kvs) = length kvs.
Proof. apply enc_from_length. Qed.

Lemma entry_off_app kvs k i : (i <= length kvs)%nat -> entry_off (kvs ++ k) i = entry_off kvs i.
Proof.
  intros Hi. unfold entry_off, entry_blocks. rewrite enc_from_app, take_app_le; [done|].
  by rewrite enc_from_length.
Qed.

Lemma entry_off_length kvs : entry_off kvs (length kvs) = blen (body kvs).
Proof.
  unfold entry_off, body. rewrite take_ge; [done|]. by rewrite entry_blocks_length.
Qed.

Lemma restarts_snoc kvs kv :
  restarts (kvs ++ [kv]) =
  if decide (length kvs mod 16 = 0 /\ kvs <> [])%nat
  then restarts kvs ++ [blen (body kvs)] else restarts kvs.
Proof.
  unfold restarts, restart_count. rewrite length_app. simpl length.
  assert (Hold : forall m, (16 * m <= length kvs + 15)%nat -> forall r, r ∈ seq 0 m ->
    entry_off (kvs ++ [kv]) (16 * r) = entry_off kvs (16 * r)).
  { intros m Hm r Hr%elem_of_seq. apply entry_off_app. lia. }
  set (n := length kvs) in *.
  pose proof (Nat.div_mod_eq n 16) as Hdm. pose proof (Nat.mod_upper_bound n 16 ltac:(lia)) as Hmb.
  case_decide as Hc.
  - destruct Hc as [Hz Hne].
    assert (Hn : (0 < n)%nat) by (unfold n; destruct kvs; [done|simpl; lia]).
    assert (((n + 1 + 15) / 16 = S (n / 16))%nat) as ->.
    { symmetry. apply (Nat.div_unique _ _ _ 0); lia. }
    assert (((n + 15) / 16 = n / 16)%nat) as ->.
    { symmetry. apply (Nat.div_unique _ _ _ 15); lia. }
    rewrite (Nat.max_r 1 (S _)), (Nat.max_r 1) by lia. rewrite seq_S, map_app. f_equal.
    + apply map_ext_in. intros r Hr. apply (Hold (n / 16)%nat); [lia|]. by apply list_elem_of_In.
    + cbn [map]. f_equal. replace (16 * (0 + n / 16))%nat with n by lia. unfold n.
      rewrite entry_off_app by lia. apply entry_off_length.
  - destruct (decide (n mod 16 = 0)%nat) as [Hz|Hz].
    + assert (kvs = []) as -> by (destruct kvs; [done|]; exfalso; by apply Hc). done.
    + assert (((n + 1 + 15) / 16 = S (n / 16))%nat) as ->.
      { symmetry. apply (Nat.div_unique _ _ _ (n mod 16)); lia. }
      assert (((n + 15) / 16 = S (n / 16))%nat) as ->.
      { symmetry. apply (Nat.div_unique _ _ _ (n mod 16 - 1)); lia. }
      apply map_ext_in. intros r Hr%list_elem_of_In%elem_of_seq. apply entry_off_app. fold n. lia.
Qed.

Lemma common_prefix_bounds a b : 0 <= common_prefix a b <= Z.min (blen a) (blen b).
Proof.
  revert b. induction a as [|x a IH]; intros [|y b]; simpl; rewrite ?blen_nil, ?blen_cons; pose_blen; try lia.
  case_decide; [|lia]. specialize (IH b). lia.
Qed.

Lemma common_prefix_take a b :
  ztake (common_prefix a b) a = ztake (common_prefix a b) b.
Proof.
  revert b. induction a as [|x a IH]; intros [|y b]; simpl; try done.
  case_decide; [subst y|done]. pose proof (common_prefix_bounds a b). unfold ztake in *.
  rewrite Z2Nat.inj_add by lia. simpl. by rewrite IH.
Qed.

(** Sizes for which no field of the format overflows. *)
Definition small_kv (kv : KV) : Prop := blen (fst kv) < 2 ^ 31 /\ blen (snd kv) < 2 ^ 31.
Definition small_table (kvs : list KV) : Prop :=
  Forall small_kv kvs /\ blen (body kvs) < 2 ^ 32 /\ blen kvs < 2 ^ 32.

Lemma body_snoc kvs kv :
  body (kvs ++ [kv]) = body kvs ++ enc_kv (shared_at (length kvs) (last_key_of [] kvs) kv) kv.
Proof. unfold body. rewrite entry_blocks_snoc, concat_app. simpl. by rewrite app_nil_r. Qed.

Lemma shared_at_bounds i prev kv : 0 <= shared_at i prev kv <= blen (fst kv).
Proof.
  unfold shared_at. case_match; [pose_blen; lia|]. pose proof (common_prefix_bounds prev (fst kv)). lia.
Qed.

(** The state of the builder after the entries [kvs]. *)
Record built (b : TropoSSTableBuilder) (kvs : list KV) : Prop := {
  bu_enc : sb_use_encoding b = true;
  bu_buffer : sb_buffer b = body kvs;
  bu_offsets : sb_kv_pair_offsets b = restarts kvs;
  bu_last : sb_last_key b = last_key_of [] kvs;
  bu_counter : sb_counter b = if decide (kvs = []) then 0 else (blen kvs - 1) mod 16 + 1;
  bu_numbers : sb_kv_numbers b = blen kvs;
  bu_started : sb_started b = negb (bool_decide (kvs = []));
  bu_smallest : kvs <> [] -> m_smallest (sb_meta b) = default [] (fst <$> head kvs);
  bu_largest : kvs <> [] -> m_largest (sb_meta b) = last_key_of [] kvs
}.

Lemma Apply_built b kvs key value :
  built b kvs -> small_table (kvs ++ [(key, value)]) -> built (Apply b key value) (kvs ++ [(key, value)]).
Proof.
  intros [Henc Hbuf Hoff Hlast Hcnt Hnum Hst Hsm Hlg] (Hkv & Hbody & Hn).
  apply Forall_app in Hkv as [_ Hkv]. apply Forall_singleton in Hkv as [Hk Hv]. simpl in Hk, Hv.
  rewrite body_snoc, blen_app in Hbody. pose proof (blen_nonneg (body kvs)) as Hb0.
  pose proof (blen_nonneg kvs) as Hn0. rewrite blen_app, blen_cons, blen_nil in Hn.
  set (last := last_key_of [] kvs) in *. set (sh := shared_at (length kvs) last (key, value)) in *.
  pose proof (shared_at_bounds (length kvs) last (key, value)) as Hsh. fold sh in Hsh. simpl in Hsh.
  assert (Hmod : Z.of_nat (length kvs mod 16) = blen kvs mod 16) by (apply (Nat2Z.inj_mod _ 16)).
  assert (Hcase : (if sb_counter b <? max_sstable_encoding
      then (common_prefix (sb_last_key b) key, sb_kv_pair_offsets b, sb_counter b)
      else (0, sb_kv_pair_offsets b ++ [u32 (blen (sb_buffer b))], 0))
    = (sh, restarts (kvs ++ [(key, value)]), blen kvs mod 16)).
  { rewrite Hcnt, Hlast, Hoff, Hbuf, restarts_snoc. unfold max_sstable_encoding, sh, shared_at. simpl fst.
    pose proof (blen_nonneg value). pose proof (blen_nonneg key).
    assert (0 <= blen (enc_kv sh (key, value))) by (pose_blen; lia).
    rewrite (u32_small (blen (body kvs))) by (unfold is_u32; lia).
    case_decide as Hnil.
    - by subst kvs.
    - destruct (Nat.eqb_spec (length kvs mod 16) 0) as [Hz|Hz].
      + rewrite decide_True by done. assert (Hz' : blen kvs mod 16 = 0) by (by rewrite <-Hmod, Hz).
        assert ((blen kvs - 1) mod 16 = 15) as -> by (Z.to_euclidean_division_equations; lia).
        by rewrite Hz'.
      + rewrite decide_False by naive_solver.
        assert ((blen kvs - 1) mod 16 + 1 = blen kvs mod 16) as ->
          by (Z.to_euclidean_division_equations; lia).
        rewrite (proj2 (Z.ltb_lt _ _)) by (pose proof (Z.mod_pos_bound (blen kvs) 16); lia). done. }
  unfold Apply. rewrite Henc, Hcase.
  assert (Hpre : ztake sh (sb_last_key b) ++ ztake (blen key - sh) (zdrop sh key) = key).
  { assert (ztake sh (sb_last_key b) = ztake sh key) as ->.
    { rewrite Hlast. fold last. unfold sh, shared_at. destruct (_ =? _)%nat; [done|]. apply common_prefix_take. }
    rewrite (ztake_all (blen key - sh)) by len. apply ztake_zdrop. }
  constructor; simpl.
  - done.
  - rewrite body_snoc, Hbuf. unfold enc_kv, PutVarint32. fold last sh. simpl.
    rewrite !(u32_small (u32 _)) by apply u32_range. pose_blen.
    rewrite !u32_small by (unfold is_u32; lia). rewrite ztake_all by len.
    by rewrite <-!app_assoc.
  - done.
  - by rewrite last_key_snoc.
  - rewrite decide_False by (by destruct kvs). rewrite u32_small.
    + rewrite blen_app. change (blen [(key, value)]) with 1. f_equal. f_equal. lia.
    + pose proof (Z.mod_pos_bound (blen kvs) 16). unfold is_u32. lia.
  - rewrite Hnum, blen_app. apply u32_small. unfold is_u32. change (blen [(key, value)]) with 1. lia.
  - by destruct kvs.
  - intros _. rewrite Hst. destruct kvs as [|kv kvs]; simpl; [done|]. by apply Hsm.
  - intros _. by rewrite last_key_snoc.
Qed.

Lemma small_table_prefix l k : small_table (l ++ k) -> small_table l.
Proof.
  intros (Hkv & Hb & Hn). apply Forall_app in Hkv as [? _]. split; [done|].
  unfold body, entry_blocks in *. rewrite enc_from_app, concat_app, blen_app in Hb.
  rewrite blen_app in Hn. pose_blen. lia.
Qed.

Lemma Apply_all_built meta kvs : small_table kvs -> built (Apply_all (newBuilder meta true) kvs) kvs.
Proof.
  induction kvs as [|[k v] kvs IH] using rev_ind; intros Hs.
  { by constructor. }
  unfold Apply_all in *. rewrite fold_left_app. simpl.
  apply Apply_built; [|done]. apply IH. by eapply small_table_prefix.
Qed.

Lemma fold_PutFixed64 l dst : fold_left PutFixed64 l dst = dst ++ concat (map EncodeFixed64 l).
Proof.
  revert dst. induction l as [|x l IH]; intros dst; simpl; [by rewrite app_nil_r|].
  rewrite IH. unfold PutFixed64. by rewrite <-app_assoc.
Qed.

Lemma blen_restarts kvs : blen (restarts kvs) = Z.of_nat (restart_count kvs).
Proof. unfold blen, restarts. by rewrite length_map, length_seq. Qed.

Lemma Finalise_image b kvs : built b kvs -> sb_buffer (Finalise b) = table_image kvs.
Proof.
  intros [Henc Hbuf Hoff _ _ _ _ _ _]. unfold Finalise, table_image; simpl.
  rewrite Henc, Hbuf, Hoff, fold_PutFixed64. unfold PutFixed64. rewrite <-!app_assoc.
  by rewrite !blen_restarts.
Qed.

(** ** Decoding an entry *)

Lemma lor_ge a b : 0 <= a -> 0 <= b -> 128 <= a -> 128 <= Z.lor a b.
Proof.
  intros Ha Hb H. apply Z.nlt_ge. intros Hlt.
  assert (0 <= Z.lor a b) by (by apply Z.lor_nonneg).
  assert (0 <= Z.lor a b < 2 ^ 7) as Hr by lia. apply log2_lt_pow2_nonneg in Hr as [_ Hr]; [|lia].
  rewrite Z.log2_lor in Hr by done. assert (7 <= Z.log2 a) by (apply (Z.log2_le_mono 128); lia). lia.
Qed.

(** The first byte of a varint tells whether it is the only one. *)
Lemma EncodeVarint32_head v :
  is_u32 v -> exists b rest, EncodeVarint32 v = b :: rest /\
    (v < 128 -> b2z b = v /\ rest = []) /\ (128 <= v -> 128 <= b2z b).
Proof.
  intros Hv. rewrite EncodeVarint32_loop by done. unfold EncodeVarint64.
  destruct (Z.lt_ge_cases v 128) as [Hlt|Hge].
  - rewrite EncodeVarint64_loop_last by done. eexists _, _. split; [done|]. split; [|lia].
    intros _. split; [|done]. rewrite b2z_z2b. apply Z.mod_small. word.
  - rewrite EncodeVarint64_loop_more by done. eexists _, _. split; [done|]. split; [lia|].
    intros _. rewrite z2b_continuation, b2z_continuation. pose proof (Z.mod_pos_bound v 128). lia.
Qed.

Lemma DecodeEncodedEntry_varints s n v p :
  is_u32 s -> is_u32 n -> is_u32 v -> n + v <= blen p < 2 ^ 32 ->
  DecodeEncodedEntry (EncodeVarint32 s ++ EncodeVarint32 n ++ EncodeVarint32 v ++ p) = Some (s, n, v, p).
Proof.
  intros Hs Hn Hv Hp. unfold is_u32 in Hn, Hv.
  assert (Hslow : ('(s, p) ← GetVarint32Ptr (EncodeVarint32 s ++ EncodeVarint32 n ++ EncodeVarint32 v ++ p);
      '(n, p) ← GetVarint32Ptr p; '(v, p) ← GetVarint32Ptr p; Some (s, n, v, p)) = Some (s, n, v, p)).
  { pose proof (fun v rest => GetVarint32_Encode v rest) as G. unfold GetVarint32 in G.
    by rewrite G; [|done]; obind; rewrite G; [|done]; obind; rewrite G; [|done]. }
  assert (Hfin : (u32 (blen p) <? u32 (n + v)) = false).
  { pose proof (blen_nonneg p). rewrite !u32_small by (unfold is_u32; lia). apply Z.ltb_ge. lia. }
  destruct (EncodeVarint32_head s Hs) as (b0 & r0 & E0 & S0 & L0).
  destruct (EncodeVarint32_head n Hn) as (b1 & r1 & E1 & S1 & L1).
  destruct (EncodeVarint32_head v Hv) as (b2 & r2 & E2 & S2 & L2).
  pose proof (b2z_range b0). pose proof (b2z_range b1). pose proof (b2z_range b2).
  destruct (Z.lt_ge_cases s 128) as [Hls|Hls].
  - destruct (S0 Hls) as [Hb0 ->]. destruct (Z.lt_ge_cases n 128) as [Hln|Hln].
    + destruct (S1 Hln) as [Hb1 ->]. rewrite E0, E1, E2 in *. cbn [app] in *.
      unfold DecodeEncodedEntry. destruct (Z.lt_ge_cases v 128) as [Hlv|Hlv].
      * destruct (S2 Hlv) as [Hb2 ->]. rewrite Hb0, Hb1, Hb2.
        assert (Z.lor (Z.lor s n) v < 128) as Hlt%Z.ltb_lt.
        { apply (lor_range _ _ 7); [lia|apply (lor_range _ _ 7); [lia|word|lia]|lia]. }
        rewrite Hlt. cbn [app]. obind. by rewrite Hfin.
      * rewrite (proj2 (Z.ltb_ge _ _)).
        -- rewrite Hslow. obind. by rewrite Hfin.
        -- rewrite Z.lor_comm. apply lor_ge; [lia| |by apply L2]. apply Z.lor_nonneg; lia.
    + rewrite E0, E1 in *. cbn [app] in *. unfold DecodeEncodedEntry.
      destruct (r1 ++ EncodeVarint32 v ++ p) as [|b2' r2'] eqn:E.
      { rewrite E2 in E. by destruct r1. }
      pose proof (b2z_range b2'). rewrite (proj2 (Z.ltb_ge _ _)).
      * rewrite Hslow. obind. by rewrite Hfin.
      * apply lor_ge; [apply Z.lor_nonneg; lia|lia|]. rewrite Z.lor_comm. apply lor_ge; [lia..|by apply L1].
  - rewrite E0 in *. cbn [app] in *. unfold DecodeEncodedEntry.
    destruct (r0 ++ EncodeVarint32 n ++ EncodeVarint32 v ++ p) as [|b1' [|b2' r2']] eqn:E.
    { rewrite E1 in E. by destruct r0. }
    { rewrite E1, E2 in E. destruct r0 as [|? r0]; simplify_eq/=; [by destruct r1|].
      destruct r0; simplify_eq/=. }
    pose proof (b2z_range b1'). pose proof (b2z_range b2'). rewrite (proj2 (Z.ltb_ge _ _)).
    + rewrite Hslow. obind. by rewrite Hfin.
    + apply lor_ge; [apply Z.lor_nonneg; lia|lia|]. apply lor_ge; [lia..|by apply L0].
Qed.

Lemma DecodeEncodedEntry_enc_kv sh kv rest :
  0 <= sh <= blen (fst kv) -> small_kv kv -> blen (enc_kv sh kv ++ rest) < 2 ^ 32 ->
  DecodeEncodedEntry (enc_kv sh kv ++ rest)
  = Some (sh, blen (fst kv) - sh, blen (snd kv), zdrop sh (fst kv) ++ snd kv ++ rest).
Proof.
  intros Hs [Hk Hv] Hlen. unfold enc_kv in *. rewrite <-!app_assoc in *.
  rewrite !blen_app in Hlen. rewrite blen_zdrop in Hlen.
  pose proof (blen_nonneg (snd kv)). pose proof (blen_nonneg rest).
  pose proof (blen_nonneg (EncodeVarint32 sh)). pose proof (blen_nonneg (EncodeVarint32 (blen (snd kv)))).
  pose proof (blen_nonneg (EncodeVarint32 (blen (fst kv) - sh))).
  apply DecodeEncodedEntry_varints; unfold is_u32; [lia..|]. rewrite !blen_app, blen_zdrop. lia.
Qed.
