(* ===== verification/SSTableIter.v ===== *)
(** * SSTableIter: iterating over an encoded SSTable

    [table/iterators/sstable_iterator_compressed.h] and [.cc].  The iterator
    keeps a cursor into the table's bytes, the current key (rebuilt from the
    shared prefix) and the restart block it is in.  Pointers are offsets into
    [it_data]; [None] is an access outside of the buffer or a violated
    assertion. *)

From S2P Require Import Prelude Coding DbFormat Config SSTable.

(** [SSTableIteratorCompressed], table/iterators/sstable_iterator_compressed.h:54-65.
    [it_value] is the offset and size of [value_], [None] after [clear()]. *)
Record SSTableIteratorCompressed := mkIter {
  it_data : bytes;
  it_num_restarts : Z;
  it_kv_pairs_offset : Z;
  it_current : Z;
  it_restart_index : Z;
  it_data_size : Z;
  it_key : bytes;
  it_value : option (Z * Z);
  it_status : Status
}.

Section Iterator.
Context `{UserComparator}.
Implicit Types it : SSTableIteratorCompressed.

Definition set_cursor it (current restart_index : Z) (key : bytes) (value : option (Z * Z))
    : SSTableIteratorCompressed :=
  mkIter (it_data it) (it_num_restarts it) (it_kv_pairs_offset it) current restart_index
    (it_data_size it) key value (it_status it).

(** [SSTableIteratorCompressed::SSTableIteratorCompressed], table/iterators/sstable_iterator_compressed.cc:9-20 *)
Definition newIterCompressed (data : bytes) (data_size num_restarts : Z) : SSTableIteratorCompressed :=
  mkIter data num_restarts (8 * (num_restarts + 2)) 0 0 data_size [] None OK.

(** [SSTableIteratorCompressed::Valid], table/iterators/sstable_iterator_compressed.h:21-24 *)
Definition Valid it : bool :=
  (it_current it <? it_data_size it) && (it_kv_pairs_offset it <=? it_current it)
  && (it_restart_index it <=? it_num_restarts it).

(** [SSTableIteratorCompressed::NextEntryOffset], table/iterators/sstable_iterator_compressed.h:48-50 *)
Definition NextEntryOffset it : option Z := '(off, size) ← it_value it; Some (off + size).

(** [SSTableIteratorCompressed::value], table/iterators/sstable_iterator_compressed.h:30-33 *)
Definition it_value_bytes it : option bytes :=
  '(off, size) ← it_value it; slice off size (it_data it).

(** [SSTableIteratorCompressed::GetRestartPoint], table/iterators/sstable_iterator_compressed.cc:24-28 *)
Definition GetRestartPoint it (index : Z) : option Z :=
  if index <? it_num_restarts it then
    d ← DecodeFixed64 (it_data it) ((index + 2) * 8);
    Some (u64 (d + it_kv_pairs_offset it))
  else None.

(** [SSTableIteratorCompressed::SeekToRestartPoint], table/iterators/sstable_iterator_compressed.cc:30-38 *)
Definition SeekToRestartPoint it (index : Z) : option SSTableIteratorCompressed :=
  offset ← GetRestartPoint it index;
  Some (set_cursor it (it_current it) index [] (Some (offset, 0))).

(** [SSTableIteratorCompressed::CorruptionError], table/iterators/sstable_iterator_compressed.cc:159-169 *)
Definition CorruptionError it : SSTableIteratorCompressed :=
  mkIter (it_data it) (it_num_restarts it) (it_kv_pairs_offset it) (it_data_size it)
    (it_num_restarts it) (it_data_size it) [] None Corruption.

(** The bytes from [p] to [limit]. *)
Definition entry_window it (offset : Z) : option bytes :=
  slice offset (it_data_size it - offset) (it_data it).

(** The loop that advances [restart_index_] to the block of [current_]. *)
Fixpoint advance_restart (fuel : nat) it (ri current : Z) : option Z :=
  match fuel with
  | O => None
  | S fuel =>
      if ri + 1 <? it_num_restarts it then
        p ← GetRestartPoint it (ri + 1);
        if p <? current then advance_restart fuel it (ri + 1) current else Some ri
      else Some ri
  end.

(** [SSTableIteratorCompressed::ParseNextKey], table/iterators/sstable_iterator_compressed.cc:171-199 *)
Definition ParseNextKey it : option (bool * SSTableIteratorCompressed) :=
  current ← NextEntryOffset it;
  if it_data_size it <=? current then
    Some (false, set_cursor it (it_data_size it) 0 (it_key it) (it_value it))
  else
    let it := set_cursor it current (it_restart_index it) (it_key it) (it_value it) in
    l ← entry_window it current;
    match DecodeEncodedEntry l with
    | None => Some (false, CorruptionError it)
    | Some (shared, non_shared, value_length, p) =>
        if blen (it_key it) <? shared then Some (false, CorruptionError it)
        else
          delta ← slice 0 non_shared p;
          let key := ztake shared (it_key it) ++ delta in
          let value := (it_data_size it - blen p + non_shared, value_length) in
          ri ← advance_restart (S (Z.to_nat (it_num_restarts it))) it (it_restart_index it) current;
          Some (true, set_cursor it current ri key (Some value))
    end.

(** [SSTableIteratorCompressed::Next], table/iterators/sstable_iterator_compressed.cc:61-64 *)
Definition Next it : option SSTableIteratorCompressed :=
  if Valid it then '(_, it) ← ParseNextKey it; Some it else None.

(** [SSTableIteratorCompressed::SeekToFirst], table/iterators/sstable_iterator_compressed.cc:66-69 *)
Definition SeekToFirst it : option SSTableIteratorCompressed :=
  it ← SeekToRestartPoint it 0; '(_, it) ← ParseNextKey it; Some it.

(** The loop of [SeekToLast]. *)
Fixpoint skip_to_last (fuel : nat) it : option SSTableIteratorCompressed :=
  match fuel with
  | O => None
  | S fuel =>
      '(more, it) ← ParseNextKey it;
      if (more : bool) then
        next ← NextEntryOffset it;
        if next <=? it_data_size it then skip_to_last fuel it else Some it
      else Some it
  end.

(** [SSTableIteratorCompressed::SeekToLast], table/iterators/sstable_iterator_compressed.cc:71-76 *)
Definition SeekToLast it : option SSTableIteratorCompressed :=
  it ← SeekToRestartPoint it (it_num_restarts it - 1);
  skip_to_last (S (S (length (it_data it)))) it.

(** The loop of [Prev] that looks for a restart point before [original]; the
    flag tells whether there is none. *)
Fixpoint prev_restart (fuel : nat) it (ri original : Z) : option (bool * Z) :=
  match fuel with
  | O => None
  | S fuel =>
      p ← GetRestartPoint it ri;
      if original <=? p then
        if ri =? 0 then Some (false, ri) else prev_restart fuel it (ri - 1) original
      else Some (true, ri)
  end.

(** The [do .. while] loop of [Prev]. *)
Fixpoint prev_scan (fuel : nat) it (original : Z) : option SSTableIteratorCompressed :=
  match fuel with
  | O => None
  | S fuel =>
      '(more, it) ← ParseNextKey it;
      if (more : bool) then
        next ← NextEntryOffset it;
        if next <? original then prev_scan fuel it original else Some it
      else Some it
  end.

(** [SSTableIteratorCompressed::Prev], table/iterators/sstable_iterator_compressed.cc:40-59 *)
Definition Prev it : option SSTableIteratorCompressed :=
  if Valid it then
    let original := it_current it in
    '(found, ri) ← prev_restart (S (Z.to_nat (it_restart_index it))) it (it_restart_index it) original;
    if (found : bool) then
      it ← SeekToRestartPoint (set_cursor it (it_current it) ri (it_key it) (it_value it)) ri;
      prev_scan (S (length (it_data it))) it original
    else Some (set_cursor it (it_kv_pairs_offset it) 0 (it_key it) (it_value it))
  else None.

(** The binary search over the restart points: [inl] is the corruption exit. *)
Fixpoint restart_search (fuel : nat) it (target : bytes) (left right : Z) : option (unit + Z) :=
  match fuel with
  | O => None
  | S fuel =>
      if left <? right then
        let mid := (left + right + 1) / 2 in
        region_offset ← GetRestartPoint it mid;
        l ← entry_window it region_offset;
        match DecodeEncodedEntry l with
        | Some (0, non_shared, _, p) =>
            mid_key ← slice 0 non_shared p;
            match Compare (ExtractUserKey mid_key) target with
            | Lt => restart_search fuel it target mid right
            | _ => restart_search fuel it target left (mid - 1)
            end
        | _ => Some (inl ())
        end
      else Some (inr left)
  end.

(** The linear search for the first key that is not before the target. *)
Fixpoint linear_search (fuel : nat) it (target : bytes) : option SSTableIteratorCompressed :=
  match fuel with
  | O => None
  | S fuel =>
      '(more, it) ← ParseNextKey it;
      if (more : bool) then
        match Compare (ExtractUserKey (it_key it)) target with
        | Lt => linear_search fuel it target
        | Eq => Some it
        | Gt => Some (set_cursor it (it_data_size it) (it_num_restarts it) [] None)
        end
      else Some it
  end.

(** [SSTableIteratorCompressed::Seek], table/iterators/sstable_iterator_compressed.cc:82-157 *)
Definition Seek it (target : bytes) : option SSTableIteratorCompressed :=
  let target_ptr_stripped := ExtractUserKey target in
  let current_key_compare :=
    if Valid it then Compare (ExtractUserKey (it_key it)) target_ptr_stripped else Eq in
  let left := match current_key_compare with Lt => it_restart_index it | _ => 0 end in
  let right := match current_key_compare with Gt => it_restart_index it | _ => it_num_restarts it - 1 end in
  if Valid it && bool_decide (current_key_compare = Eq) then Some it
  else
    r ← restart_search (S (Z.to_nat (it_num_restarts it))) it target_ptr_stripped left right;
    match r with
    | inl _ => Some (CorruptionError it)
    | inr block =>
        let skip_seek := (block =? it_restart_index it) && bool_decide (current_key_compare = Lt) in
        it ← (if skip_seek then Some it else SeekToRestartPoint it block);
        linear_search (S (length (it_data it))) it target_ptr_stripped
    end.

(** [SSTableIteratorCompressed::SeekForPrev], table/iterators/sstable_iterator_compressed.cc:77-80 *)
Definition SeekForPrev it (target : bytes) : option SSTableIteratorCompressed :=
  it ← Seek it target; Prev it.

End Iterator.

(** ** Where the entries of a table are *)

Lemma entry_blocks_drop kvs i kv :
  kvs !! i = Some kv ->
  drop i (entry_blocks kvs) =
  enc_kv (shared_at i (last_key_of [] (take i kvs)) kv) kv :: drop (S i) (entry_blocks kvs).
Proof.
  intros Hi. pose proof (take_drop_middle kvs i kv Hi) as E.
  assert (Hl : length (take i kvs) = i) by (apply length_take_le; apply lookup_lt_Some in Hi; lia).
  unfold entry_blocks. rewrite <-E at 1 3. rewrite enc_from_app, Hl. simpl.
  rewrite drop_app_length' by (by rewrite enc_from_length).
  rewrite (drop_app_ge _ _ (S i)) by (rewrite enc_from_length, Hl; lia).
  rewrite enc_from_length, Hl. replace (S i - i)%nat with 1%nat by lia. done.
Qed.

Lemma entry_off_S kvs i kv :
  kvs !! i = Some kv ->
  entry_off kvs (S i) = entry_off kvs i + blen (enc_kv (shared_at i (last_key_of [] (take i kvs)) kv) kv).
Proof.
  intros Hi. unfold entry_off.
  assert (Hb : entry_blocks kvs !! i = Some (enc_kv (shared_at i (last_key_of [] (take i kvs)) kv) kv)).
  { rewrite <-(Nat.add_0_r i) at 1. rewrite <-lookup_drop, (entry_blocks_drop _ _ _ Hi). done. }
  rewrite (take_S_r _ _ _ Hb), concat_app, blen_app. simpl. by rewrite app_nil_r.
Qed.

Lemma enc_kv_pos sh kv : 0 < blen (enc_kv sh kv).
Proof.
  unfold enc_kv. pose proof (blen_EncodeVarint32_bound sh). len.
Qed.

Lemma entry_off_mono kvs i j :
  (i < j <= length kvs)%nat -> entry_off kvs i < entry_off kvs j.
Proof.
  induction j as [|j IH]; [lia|]. intros Hj.
  destruct (lookup_lt_is_Some_2 kvs j ltac:(lia)) as [kv Hkv].
  rewrite (entry_off_S _ _ _ Hkv). pose proof (enc_kv_pos (shared_at j (last_key_of [] (take j kvs)) kv) kv).
  destruct (decide (i = j)) as [->|]; [lia|]. assert (entry_off kvs i < entry_off kvs j) by (apply IH; lia). lia.
Qed.

Lemma entry_off_le kvs i : 0 <= entry_off kvs i <= blen (body kvs).
Proof.
  unfold entry_off, body. split; [apply blen_nonneg|].
  rewrite <-(take_drop i (entry_blocks kvs)) at 2. rewrite concat_app. len.
Qed.

Lemma body_split kvs i : body kvs = concat (take i (entry_blocks kvs)) ++ concat (drop i (entry_blocks kvs)).
Proof. unfold body. by rewrite <-concat_app, take_drop. Qed.

Lemma blen_concat_fixed64 l : blen (concat (map EncodeFixed64 l)) = 8 * blen l.
Proof. induction l as [|x l IH]; simpl; [done|]. rewrite blen_app, IH, blen_EncodeFixed64, blen_cons. lia. Qed.

Lemma DecodeFixed64_nth pre l post i v off :
  l !! i = Some v -> is_u64 v -> off = blen pre + 8 * Z.of_nat i ->
  DecodeFixed64 (pre ++ concat (map EncodeFixed64 l) ++ post) off = Some v.
Proof.
  intros Hi Hv ->. rewrite <-(take_drop_middle l i v Hi), map_app, concat_app. cbn [map concat].
  rewrite <-!app_assoc, app_assoc. apply DecodeFixed64_at; [done|].
  rewrite blen_app, blen_concat_fixed64. unfold blen at 3. rewrite length_take_le; [done|].
  apply lookup_lt_Some in Hi. lia.
Qed.

(** ** The iterator on a table *)

Section Table.
Context `{UserComparator}.
Context (kvs : list KV) (pad : bytes).
Context (Hne : kvs <> []) (Hsmall : small_table kvs).
Implicit Types it : SSTableIteratorCompressed.

Let nr : Z := Z.of_nat (restart_count kvs).
Let ko : Z := 8 * (nr + 2).
Let ds : Z := blen (table_image kvs).
Let data : bytes := table_image kvs ++ pad.

Definition table_it it : Prop :=
  it_data it = data /\ it_num_restarts it = nr /\ it_kv_pairs_offset it = ko /\ it_data_size it = ds.

(** The next entry to parse is number [i]. *)
Record pos_before it (i : nat) : Prop := {
  pb_table : table_it it;
  pb_status : it_status it = OK;
  pb_next : NextEntryOffset it = Some (ko + entry_off kvs i);
  pb_key : (i mod 16 = 0)%nat \/ it_key it = last_key_of [] (take i kvs);
  pb_ri : 0 <= it_restart_index it < nr /\ 16 * it_restart_index it <= Z.of_nat i;
  pb_i : (i <= length kvs)%nat
}.

(** The iterator is on entry [i]. *)
Record pos_at it (i : nat) : Prop := {
  pa_table : table_it it;
  pa_status : it_status it = OK;
  pa_current : it_current it = ko + entry_off kvs i;
  pa_kv : exists kv, kvs !! i = Some kv /\ it_key it = fst kv /\
    it_value it = Some (ko + entry_off kvs (S i) - blen (snd kv), blen (snd kv));
  pa_ri : 0 <= it_restart_index it < nr /\ 16 * it_restart_index it <= Z.of_nat i;
  pa_ri_next : it_restart_index it + 1 < nr -> Z.of_nat i <= 16 * (it_restart_index it + 1)
}.

(** The iterator is past the end, without an error. *)
Definition pos_end it : Prop := table_it it /\ it_status it = OK /\ Valid it = false.

Lemma nr_bounds : 1 <= nr /\ 16 * (nr - 1) < blen kvs <= 16 * nr.
Proof.
  unfold nr, restart_count, blen. assert (0 < length kvs)%nat by (destruct kvs; [done|simpl; lia]).
  pose proof (Nat.div_mod_eq (length kvs + 15) 16). pose proof (Nat.mod_upper_bound (length kvs + 15) 16).
  lia.
Qed.

Lemma table_split : exists pre, blen pre = ko /\ data = pre ++ body kvs ++ pad /\ ds = ko + blen (body kvs) /\
  pre = (EncodeFixed64 ds ++ EncodeFixed64 nr) ++ concat (map EncodeFixed64 (restarts kvs)).
Proof.
  eexists. split; [|split; [|split; [|reflexivity]]].
  - rewrite !blen_app, blen_concat_fixed64, blen_restarts, !blen_EncodeFixed64. unfold ko, nr. lia.
  - unfold data, table_image, ds. rewrite <-!app_assoc. do 2 f_equal.
    unfold table_image. rewrite !blen_app, blen_concat_fixed64, blen_restarts, !blen_EncodeFixed64. lia.
  - unfold ds, table_image. rewrite !blen_app, blen_concat_fixed64, blen_restarts, !blen_EncodeFixed64.
    unfold ko, nr. lia.
Qed.

Lemma GetRestartPoint_spec it r :
  table_it it -> 0 <= r < nr ->
  GetRestartPoint it r = Some (ko + entry_off kvs (16 * Z.to_nat r)).
Proof.
  intros (Hd & Hn & Hk & _) Hr. unfold GetRestartPoint. rewrite Hd, Hn, Hk.
  rewrite (proj2 (Z.ltb_lt _ _)) by lia. destruct table_split as (pre & _ & Hdata & _ & Hpre).
  rewrite Hdata, Hpre, <-!app_assoc, (app_assoc (EncodeFixed64 ds)).
  pose proof (entry_off_le kvs (16 * Z.to_nat r)). destruct Hsmall as (_ & Hb & Hl). pose proof nr_bounds.
  rewrite (DecodeFixed64_nth _ (restarts kvs) _ (Z.to_nat r) (entry_off kvs (16 * Z.to_nat r))).
  - obind. f_equal. rewrite u64_small; [|unfold is_u64, ko]; lia.
  - unfold restarts.
    rewrite (list_lookup_fmap (fun r => entry_off kvs (16 * r)) (seq 0 (restart_count kvs))).
    rewrite lookup_seq_lt by (unfold nr in Hr; lia). done.
  - unfold is_u64. lia.
  - rewrite blen_app, !blen_EncodeFixed64. lia.
Qed.

Lemma entry_window_spec it i :
  table_it it -> (i <= length kvs)%nat ->
  entry_window it (ko + entry_off kvs i) = Some (concat (drop i (entry_blocks kvs))).
Proof.
  intros (Hd & _ & _ & Hs) Hi. unfold entry_window. rewrite Hd, Hs.
  destruct table_split as (pre & Hpre & -> & Hds & _).
  rewrite (body_split kvs i), <-app_assoc, app_assoc. apply slice_app_mid.
  - rewrite blen_app, Hpre. done.
  - rewrite Hds, (body_split kvs i), blen_app. unfold entry_off. lia.
Qed.

Lemma advance_restart_spec fuel it ri i :
  table_it it -> (i <= length kvs)%nat -> 0 <= ri < nr -> 16 * ri <= Z.of_nat i ->
  (Z.to_nat (nr - ri) <= fuel)%nat ->
  exists ri', advance_restart fuel it ri (ko + entry_off kvs i) = Some ri' /\
    0 <= ri' < nr /\ 16 * ri' <= Z.of_nat i /\ (ri' + 1 < nr -> Z.of_nat i <= 16 * (ri' + 1)).
Proof.
  intros Hit Hi. pose proof Hit as (_ & Hn & _). pose proof nr_bounds as Hnr. revert ri.
  induction fuel as [|fuel IH]; intros ri Hri Hle Hf; [lia|].
  cbn [advance_restart]. rewrite Hn. destruct (Z.ltb_spec (ri + 1) nr) as [Hlt|Hge].
  2: { exists ri. split_and!; [done|lia..]. }
  rewrite GetRestartPoint_spec by (done || lia). obind.
  destruct (decide (16 * (ri + 1) < Z.of_nat i)) as [Hb|Hb].
  - rewrite (proj2 (Z.ltb_lt _ _)); [apply IH; lia|].
    apply Z.add_lt_mono_l, entry_off_mono. lia.
  - rewrite (proj2 (Z.ltb_ge _ _)); [exists ri; split_and!; [done|lia..]|].
    apply Z.add_le_mono_l. destruct (decide (i = 16 * Z.to_nat (ri + 1))%nat) as [->|]; [done|].
    apply Z.lt_le_incl, entry_off_mono. unfold blen in *. lia.
Qed.

Lemma ParseNextKey_end it :
  pos_before it (length kvs) ->
  exists it', ParseNextKey it = Some (false, it') /\ pos_end it'.
Proof.
  intros [Hit Hst Hnext _ _ _]. unfold ParseNextKey. rewrite Hnext. obind.
  destruct Hit as (Hd & Hn & Hk & Hs). destruct table_split as (_ & _ & _ & Hds & _).
  rewrite entry_off_length, <-Hds, Hs, Z.leb_refl. eexists. split; [done|].
  split; [|split; [done|]]; [by split_and!|]. unfold Valid. simpl. by rewrite Hs, Z.ltb_irrefl.
Qed.

Lemma shared_prefix it i kv :
  kvs !! i = Some kv -> (i mod 16 = 0)%nat \/ it_key it = last_key_of [] (take i kvs) ->
  let sh := shared_at i (last_key_of [] (take i kvs)) kv in
  sh <= blen (it_key it) /\ ztake sh (it_key it) ++ zdrop sh (fst kv) = fst kv.
Proof.
  intros Hi Hkey. cbv zeta. unfold shared_at.
  destruct (Nat.eqb_spec (i mod 16) 0) as [Hz|Hz].
  { split; [apply blen_nonneg|]. done. }
  destruct Hkey as [? | ->]; [done|]. set (prev := last_key_of [] (take i kvs)).
  pose proof (common_prefix_bounds prev (fst kv)). split; [lia|].
  rewrite common_prefix_take. apply ztake_zdrop.
Qed.

(** One step of the parser. *)
Lemma ParseNextKey_spec it i :
  pos_before it i -> (i < length kvs)%nat ->
  exists it', ParseNextKey it = Some (true, it') /\ pos_at it' i.
Proof.
  intros [Hit Hst Hnext Hkey [Hri1 Hri2] _] Hi. destruct (lookup_lt_is_Some_2 kvs i Hi) as [kv Hkv].
  destruct (shared_prefix it i kv Hkv Hkey) as [Hsh Hfull].
  set (sh := shared_at i (last_key_of [] (take i kvs)) kv) in *.
  pose proof (entry_off_mono kvs i (length kvs) ltac:(lia)) as Hmono. rewrite entry_off_length in Hmono.
  destruct table_split as (pre & Hpre & Hdata & Hds & _).
  pose proof Hit as (Hd & Hn & Hk & Hs). destruct Hsmall as (Hkvs & Hbody & _).
  unfold ParseNextKey. rewrite Hnext, Hs. obind. rewrite (proj2 (Z.leb_gt _ _)) by lia.
  set (it1 := set_cursor it _ _ _ _). assert (Hit1 : table_it it1) by done.
  rewrite entry_window_spec by (done || lia). obind.
  pose proof (shared_at_bounds i (last_key_of [] (take i kvs)) kv) as Hsb. fold sh in Hsb.
  assert (Hskv : small_kv kv) by (eapply Forall_lookup_1; done).
  assert (Hrest : blen (concat (drop i (entry_blocks kvs))) = blen (body kvs) - entry_off kvs i).
  { rewrite (body_split kvs i) at 1. rewrite blen_app. unfold entry_off. lia. }
  rewrite (entry_blocks_drop _ _ _ Hkv) in *. cbn [concat] in *. fold sh in Hrest |- *.
  pose proof (entry_off_le kvs i).
  rewrite DecodeEncodedEntry_enc_kv by (done || lia).
  change (it_key it1) with (it_key it). rewrite (proj2 (Z.ltb_ge _ _)) by lia.
  set (post := concat (drop (S i) (entry_blocks kvs))) in *.
  assert (Hdl : blen (zdrop sh (fst kv)) = blen (fst kv) - sh) by len.
  rewrite (slice_0_app (zdrop sh (fst kv))) by done. obind. rewrite Hfull.
  destruct (advance_restart_spec (S (Z.to_nat (it_num_restarts it1))) it1 (it_restart_index it1) i)
    as (ri' & -> & Hr1 & Hr2 & Hr3); [done|lia|done|done| |].
  { change (it_num_restarts it1) with (it_num_restarts it). change (it_restart_index it1) with (it_restart_index it).
    rewrite Hn. lia. }
  obind. eexists. split; [done|]. constructor; try done. simpl.
  exists kv. split_and!; [done..|]. do 2 f_equal. rewrite Hs, Hds.
  rewrite (entry_off_S _ _ _ Hkv). fold sh. rewrite !blen_app, Hdl. rewrite blen_app in Hrest. lia.
Qed.

Lemma pos_at_before it i : pos_at it i -> pos_before it (S i).
Proof.
  intros [Hit Hst Hc (kv & Hkv & Hk & Hv) [Hr1 Hr2] _]. pose proof (lookup_lt_Some _ _ _ Hkv).
  constructor; try done; try lia.
  - unfold NextEntryOffset. rewrite Hv. obind. f_equal. lia.
  - right. rewrite (take_S_r _ _ _ Hkv), last_key_snoc. done.
Qed.

Lemma pos_at_valid it i : pos_at it i -> Valid it = true.
Proof.
  intros [(Hd & Hn & Hk & Hs) _ Hc (kv & Hkv & _) [Hr1 Hr2] _]. pose proof (lookup_lt_Some _ _ _ Hkv) as Hi.
  pose proof (entry_off_mono kvs i (length kvs) ltac:(lia)) as Hm. rewrite entry_off_length in Hm.
  destruct table_split as (_ & _ & _ & Hds & _). pose proof (entry_off_le kvs i).
  unfold Valid. rewrite Hc, Hs, Hk, Hn, !andb_true_iff, Z.ltb_lt, !Z.leb_le. lia.
Qed.

Lemma pos_at_value it i kv :
  pos_at it i -> kvs !! i = Some kv -> it_key it = fst kv /\ it_value_bytes it = Some (snd kv).
Proof.
  intros [(Hd & Hn & Hk & Hs) _ Hc (kv' & Hkv' & Hkey & Hv) _ _] Hkv.
  assert (kv' = kv) as -> by congruence. split; [done|].
  unfold it_value_bytes. rewrite Hv, Hd. obind. destruct table_split as (pre & Hpre & -> & Hds & _).
  set (sh := shared_at i (last_key_of [] (take i kvs)) kv).
  assert (pre ++ body kvs ++ pad = (pre ++ concat (take i (entry_blocks kvs)) ++
    EncodeVarint32 sh ++ EncodeVarint32 (blen (fst kv) - sh) ++ EncodeVarint32 (blen (snd kv)) ++
    zdrop sh (fst kv)) ++ snd kv ++ concat (drop (S i) (entry_blocks kvs)) ++ pad) as ->.
  { rewrite (body_split kvs i), (entry_blocks_drop _ _ _ Hkv). cbn [concat]. unfold enc_kv. fold sh.
    by rewrite <-!app_assoc. }
  apply slice_app_mid; [|done]. rewrite (entry_off_S _ _ _ Hkv). fold sh. unfold enc_kv, entry_off.
  rewrite !blen_app. lia.
Qed.

Lemma SeekToRestartPoint_spec it r :
  table_it it -> it_status it = OK -> 0 <= r < nr ->
  exists it', SeekToRestartPoint it r = Some it' /\ pos_before it' (16 * Z.to_nat r).
Proof.
  intros Hit Hst Hr. unfold SeekToRestartPoint. rewrite GetRestartPoint_spec by done. obind.
  eexists. split; [done|]. pose proof nr_bounds.
  assert (Hm : ((16 * Z.to_nat r) mod 16 = 0)%nat) by (rewrite Nat.mul_comm; apply Nat.Div0.mod_mul).
  remember (16 * Z.to_nat r)%nat as i eqn:Hi. constructor; try done; simpl.
  - unfold NextEntryOffset. simpl. f_equal. lia.
  - by left.
  - lia.
  - unfold blen in *. lia.
Qed.

(** *** A full scan *)

Fixpoint scan (fuel : nat) it : option (list KV * Status) :=
  match fuel with
  | O => None
  | S fuel =>
      if Valid it then
        v ← it_value_bytes it;
        it' ← Next it;
        '(l, s) ← scan fuel it';
        Some ((it_key it, v) :: l, s)
      else Some ([], it_status it)
  end.

Lemma Next_spec it i :
  pos_at it i -> exists it', Next it = Some it' /\
    (((S i < length kvs)%nat /\ pos_at it' (S i)) \/ (S i = length kvs /\ pos_end it')).
Proof.
  intros Hp. unfold Next. rewrite (pos_at_valid _ _ Hp). pose proof (pos_at_before _ _ Hp) as Hb.
  pose proof (pb_i _ _ Hb). destruct (decide (S i = length kvs)) as [E|E].
  - rewrite E in Hb. destruct (ParseNextKey_end _ Hb) as (it' & -> & He). obind. eauto.
  - destruct (ParseNextKey_spec _ _ Hb ltac:(lia)) as (it' & -> & Ha). obind.
    exists it'. split; [done|]. left. split; [lia|done].
Qed.

Lemma scan_spec fuel it i :
  pos_at it i -> (length kvs - i < fuel)%nat -> scan fuel it = Some (drop i kvs, OK).
Proof.
  revert it i. induction fuel as [|fuel IH]; intros it i Hp Hf; [lia|]. cbn [scan].
  rewrite (pos_at_valid _ _ Hp). pose proof (pa_kv _ _ Hp) as (kv & Hkv & _).
  pose proof (lookup_lt_Some _ _ _ Hkv).
  destruct (pos_at_value _ _ _ Hp Hkv) as [-> ->]. obind.
  rewrite (drop_S _ _ _ Hkv). destruct (Next_spec _ _ Hp) as (it' & -> & [[Hi Ha]|[Hi (Ht & Hs & Hv)]]); obind.
  - rewrite (IH _ (S i) Ha) by lia. obind. by destruct kv.
  - destruct fuel as [|fuel]; [lia|]. cbn [scan]. rewrite Hv, Hs. obind.
    rewrite drop_ge by lia. by destruct kv.
Qed.

Lemma SeekToFirst_spec it :
  table_it it -> it_status it = OK -> exists it', SeekToFirst it = Some it' /\ pos_at it' 0.
Proof.
  intros Hit Hst. pose proof nr_bounds. unfold SeekToFirst.
  destruct (SeekToRestartPoint_spec it 0 Hit Hst ltac:(lia)) as (it1 & -> & Hb). obind.
  destruct (ParseNextKey_spec _ _ Hb) as (it2 & -> & Ha); [unfold blen in *; simpl; lia|].
  obind. eauto.
Qed.

(** *** Moving backwards *)

Lemma prev_restart_spec fuel it ri i :
  table_it it -> (i < length kvs)%nat -> 0 <= ri < nr -> (Z.to_nat ri < fuel)%nat ->
  if decide (i = 0%nat) then prev_restart fuel it ri (ko + entry_off kvs i) = Some (false, 0)
  else exists r, prev_restart fuel it ri (ko + entry_off kvs i) = Some (true, r) /\
    0 <= r < nr /\ 16 * r < Z.of_nat i.
Proof.
  intros Hit Hi. pose proof nr_bounds as Hnr. revert ri.
  induction fuel as [|fuel IH]; intros ri Hri Hf; [lia|]. cbn [prev_restart].
  rewrite GetRestartPoint_spec by done. obind.
  destruct (decide (16 * ri < Z.of_nat i)) as [Hlt|Hge].
  - rewrite (proj2 (Z.leb_gt _ _)) by (apply Z.add_lt_mono_l, entry_off_mono; lia).
    rewrite decide_False by lia. by exists ri.
  - assert (entry_off kvs i <= entry_off kvs (16 * Z.to_nat ri)).
    { destruct (decide (i = 16 * Z.to_nat ri)%nat) as [<-|]; [done|].
      apply Z.lt_le_incl, entry_off_mono. unfold blen in *. lia. }
    rewrite (proj2 (Z.leb_le _ _)) by lia. destruct (Z.eqb_spec ri 0) as [->|Hnz].
    + by rewrite decide_True by lia.
    + apply IH; lia.
Qed.

Lemma prev_scan_spec fuel it j i :
  pos_before it j -> (j < i < length kvs)%nat -> (i - j <= fuel)%nat ->
  exists it', prev_scan fuel it (ko + entry_off kvs i) = Some it' /\ pos_at it' (i - 1).
Proof.
  revert it j. induction fuel as [|fuel IH]; intros it j Hb Hj Hf; [lia|]. cbn [prev_scan].
  destruct (ParseNextKey_spec _ _ Hb ltac:(lia)) as (it' & -> & Ha). obind.
  pose proof (pos_at_before _ _ Ha) as Hb'. rewrite (pb_next _ _ Hb'). obind.
  destruct (decide (S j = i)) as [<-|Hne'].
  - rewrite Z.ltb_irrefl. exists it'. replace (S j - 1)%nat with j by lia. done.
  - rewrite (proj2 (Z.ltb_lt _ _)) by (apply Z.add_lt_mono_l, entry_off_mono; lia).
    apply (IH it' (S j)); [done|lia..].
Qed.

Lemma entries_fit : (length kvs <= length data)%nat.
Proof.
  destruct table_split as (pre & _ & -> & _).
  assert (length kvs <= length (body kvs))%nat; [|rewrite !length_app; lia].
  rewrite <-(entry_blocks_length kvs). unfold body. clear. unfold entry_blocks.
  generalize 0%nat, (@nil byte). induction kvs as [|kv l IH]; intros i prev; [done|]. simpl.
  rewrite length_app. pose proof (enc_kv_pos (shared_at i prev kv) kv). unfold blen in *.
  specialize (IH (S i) (fst kv)). lia.
Qed.

Lemma Prev_spec it i :
  pos_at it i -> exists it', Prev it = Some it' /\ pos_at it' (i - 1).
Proof.
  intros Hp. unfold Prev. rewrite (pos_at_valid _ _ Hp).
  pose proof Hp as [Hit Hs Hc (kv & Hkv & Hk & Hv) [Hr1 Hr2] _]. pose proof (lookup_lt_Some _ _ _ Hkv) as Hi.
  pose proof (prev_restart_spec (S (Z.to_nat (it_restart_index it))) it (it_restart_index it) i
    Hit Hi Hr1 ltac:(lia)) as Hpr. rewrite Hc.
  case_decide as Hz.
  - rewrite Hpr. obind. eexists. split; [done|]. subst i. destruct Hit as (Hd & Hn & Hko & Hds).
    constructor; simpl; try done; try lia; [|by exists kv]. rewrite Hko.
    assert (entry_off kvs 0 = 0) by done. change (0 - 1)%nat with 0%nat. lia.
  - destruct Hpr as (r & -> & Hr & Hlt). obind.
    destruct (SeekToRestartPoint_spec (set_cursor it (ko + entry_off kvs i) r (it_key it) (it_value it)) r)
      as (it1 & -> & Hb); [done..|]. obind. apply (prev_scan_spec _ _ (16 * Z.to_nat r)); [done|lia|].
    pose proof entries_fit. destruct (pb_table _ _ Hb) as (-> & _). lia.
Qed.

Lemma skip_to_last_spec fuel it i :
  pos_before it i -> (length kvs - i < fuel)%nat ->
  exists it', skip_to_last fuel it = Some it' /\ pos_end it'.
Proof.
  revert it i. induction fuel as [|fuel IH]; intros it i Hb Hf; [lia|]. cbn [skip_to_last].
  pose proof (pb_i _ _ Hb) as Hi. destruct (decide (i = length kvs)) as [->|Hne'].
  - destruct (ParseNextKey_end _ Hb) as (it' & -> & He). obind. by exists it'.
  - destruct (ParseNextKey_spec _ _ Hb ltac:(lia)) as (it' & -> & Ha). obind.
    pose proof (pos_at_before _ _ Ha) as Hb'. rewrite (pb_next _ _ Hb'). obind.
    destruct (pb_table _ _ Hb') as (_ & _ & _ & Hds). destruct table_split as (_ & _ & _ & Hds' & _).
    pose proof (entry_off_le kvs (S i)). rewrite (proj2 (Z.leb_le _ _)) by lia.
    apply (IH it' (S i)); [done|lia].
Qed.

Lemma SeekToLast_spec it :
  table_it it -> it_status it = OK -> exists it', SeekToLast it = Some it' /\ pos_end it'.
Proof.
  intros Hit Hs. pose proof nr_bounds. unfold SeekToLast. pose proof Hit as (_ & Hn & _). rewrite Hn.
  destruct (SeekToRestartPoint_spec it (nr - 1) Hit Hs ltac:(lia)) as (it1 & -> & Hb). obind.
  apply (skip_to_last_spec _ _ (16 * Z.to_nat (nr - 1))); [done|].
  pose proof entries_fit. destruct (pb_table _ _ Hb) as (-> & _). lia.
Qed.

(** *** Seeking *)

Definition ukey (kv : KV) : bytes := ExtractUserKey (fst kv).
Context (Hsorted : forall i j a b, (i < j)%nat -> kvs !! i = Some a -> kvs !! j = Some b ->
           cle Compare (ukey a) (ukey b)).

(** Every entry before [i] has a user key before [t]. *)
Definition all_before (t : bytes) (i : nat) : Prop :=
  forall j a, (j < i)%nat -> kvs !! j = Some a -> clt Compare (ukey a) t.

Lemma all_before_at t i kv :
  kvs !! i = Some kv -> clt Compare (ukey kv) t -> all_before t (S i).
Proof.
  intros Hi Hlt j a Hj Ha. destruct (decide (j = i)) as [->|]; [by assert (a = kv) as -> by congruence|].
  apply (cle_lt_trans Compare _ (ukey kv)); [|done]. apply (Hsorted j i); [lia|done..].
Qed.

Lemma restart_search_spec fuel it t l r :
  table_it it -> 0 <= l <= r -> r < nr -> (Z.to_nat (r - l) < fuel)%nat ->
  all_before t (16 * Z.to_nat l) ->
  exists m, restart_search fuel it t l r = Some (inr m) /\ l <= m <= r /\ all_before t (16 * Z.to_nat m).
Proof.
  intros Hit. pose proof nr_bounds as Hnr. revert l r.
  induction fuel as [|fuel IH]; intros l r Hl Hr Hf Hall; [lia|]. cbn [restart_search].
  destruct (Z.ltb_spec l r) as [Hlt|Hge].
  2: { exists l. split_and!; [done|lia..|done]. }
  set (mid := (l + r + 1) / 2).
  assert (Hmid : l < mid <= r) by (unfold mid; Z.to_euclidean_division_equations; lia).
  rewrite GetRestartPoint_spec by (done || lia). obind.
  assert (Hi : (16 * Z.to_nat mid < length kvs)%nat) by (unfold blen in *; lia).
  destruct (lookup_lt_is_Some_2 kvs _ Hi) as [kv Hkv].
  rewrite entry_window_spec by (done || lia). obind.
  assert (Hw : blen (concat (drop (16 * Z.to_nat mid) (entry_blocks kvs))) < 2 ^ 32).
  { destruct Hsmall as (_ & Hb & _). rewrite (body_split kvs (16 * Z.to_nat mid)), blen_app in Hb.
    pose_blen. lia. }
  rewrite (entry_blocks_drop _ _ _ Hkv) in *. cbn [concat] in *.
  assert (shared_at (16 * Z.to_nat mid) (last_key_of [] (take (16 * Z.to_nat mid) kvs)) kv = 0) as E0.
  { unfold shared_at. rewrite (Nat.mul_comm 16), Nat.Div0.mod_mul. done. }
  rewrite E0 in *. rewrite DecodeEncodedEntry_enc_kv;
    [|pose_blen; lia|eapply Forall_lookup_1; [apply Hsmall|done]|done].
  rewrite zdrop_0, Z.sub_0_r, slice_0_app by done. obind.
  destruct (Compare (ExtractUserKey (fst kv)) t) eqn:Ec.
  1,3: destruct (IH l (mid - 1)) as (m & -> & Hm & ?); [lia..|done|]; exists m; split_and!; [done|lia..|done].
  destruct (IH mid r) as (m & -> & Hm & ?); [lia..| |].
  - intros j a Hj Ha. apply (all_before_at t _ kv Hkv Ec j a); [lia|done].
  - exists m. split_and!; [done|lia..|done].
Qed.

(** What a seek for the user key [t] leaves: the first entry of [t], or an
    invalid iterator when the table has no entry of [t]. *)
Definition sought it (t : bytes) : Prop :=
  (exists i kv, pos_at it i /\ kvs !! i = Some kv /\ ukey kv = t /\ all_before t i) \/
  (pos_end it /\ forall kv, kv ∈ kvs -> ukey kv <> t).

Lemma linear_search_spec fuel it i t :
  pos_before it i -> (length kvs - i < fuel)%nat -> all_before t i ->
  exists it', linear_search fuel it t = Some it' /\ sought it' t.
Proof.
  revert it i. induction fuel as [|fuel IH]; intros it i Hb Hf Hall; [lia|]. cbn [linear_search].
  pose proof (pb_i _ _ Hb) as Hi. destruct (decide (i = length kvs)) as [->|Hne'].
  - destruct (ParseNextKey_end _ Hb) as (it' & -> & He). obind. exists it'. split; [done|]. right.
    split; [done|]. intros kv (j & Hj)%list_elem_of_lookup Et.
    specialize (Hall j kv (lookup_lt_Some _ _ _ Hj) Hj). rewrite Et in Hall. by apply (clt_irrefl Compare) in Hall.
  - destruct (ParseNextKey_spec _ _ Hb ltac:(lia)) as (it' & -> & Ha). obind.
    pose proof (pa_kv _ _ Ha) as (kv & Hkv & Hk & _). rewrite Hk.
    destruct (Compare (ExtractUserKey (fst kv)) t) eqn:Ec.
    + exists it'. split; [done|]. left. exists i, kv. split_and!; try done. by apply Compare_eq.
    + apply (IH it' (S i)); [by apply pos_at_before|lia|]. by eapply all_before_at.
    + eexists. split; [done|]. right. pose proof Ha as [(Hd & Hn & Hko & Hs) Hst _ _ _ _].
      split; [split_and!; try done; unfold Valid; simpl; by rewrite Z.ltb_irrefl|].
      intros kv' (j & Hj)%list_elem_of_lookup Et. apply cmp_gt_lt in Ec; [|apply _].
      destruct (decide (j < i)%nat) as [Hlt|Hge].
      * specialize (Hall j kv' Hlt Hj). rewrite Et in Hall. by apply (clt_irrefl Compare) in Hall.
      * assert (Hle : cle Compare (ukey kv) (ukey kv')).
        { destruct (decide (i = j)) as [->|]; [assert (kv' = kv) as -> by congruence; apply cle_refl, _|].
          apply (Hsorted i j); [lia|done..]. }
        rewrite Et in Hle. apply (clt_nle Compare) in Ec. done.
Qed.

Lemma Seek_spec it target :
  (table_it it /\ it_status it = OK /\ Valid it = false) \/ (exists c, pos_at it c) ->
  exists it', Seek it target = Some it' /\
    (sought it' (ExtractUserKey target) \/
     (it' = it /\ Valid it = true /\ ExtractUserKey (it_key it) = ExtractUserKey target)).
Proof.
  intros Hst. unfold Seek. set (t := ExtractUserKey target). pose proof nr_bounds as Hnr.
  assert (Hfresh : forall l r, table_it it -> it_status it = OK -> 0 <= l <= r -> r < nr ->
     all_before t (16 * Z.to_nat l) -> forall skip,
     (forall m, skip m = true -> exists i, pos_before it i /\ all_before t i) ->
     exists it', (rr ← restart_search (S (Z.to_nat (it_num_restarts it))) it t l r;
       match rr with
       | inl _ => Some (CorruptionError it)
       | inr block => it ← (if skip block then Some it else SeekToRestartPoint it block);
           linear_search (S (length (it_data it))) it t
       end) = Some it' /\ sought it' t).
  { intros l r Hit Hs Hl Hr Hall skip Hskip. pose proof Hit as (Hd & Hn & _).
    destruct (restart_search_spec (S (Z.to_nat (it_num_restarts it))) it t l r) as (m & -> & Hm & Ham);
      [done..|rewrite Hn; lia|done|]. obind.
    assert (Hfuel : forall it1, table_it it1 -> (length kvs < S (length (it_data it1)))%nat).
    { intros it1 (-> & _). pose proof entries_fit. lia. }
    destruct (skip m) eqn:Esk.
    - destruct (Hskip m Esk) as (i & Hb & Hai). obind. specialize (Hfuel it (pb_table _ _ Hb)).
      apply (linear_search_spec _ it i); [done|lia|done].
    - destruct (SeekToRestartPoint_spec it m Hit Hs ltac:(lia)) as (it1 & -> & Hb). obind.
      specialize (Hfuel it1 (pb_table _ _ Hb)). apply (linear_search_spec _ it1 (16 * Z.to_nat m)); [done|lia|done]. }
  destruct Hst as [(Hit & Hs & Hv)|(c & Hc)].
  - rewrite Hv. cbn [andb]. pose proof Hit as (_ & Hn & _).
    destruct (Hfresh 0 (it_num_restarts it - 1) Hit Hs ltac:(lia) ltac:(lia)
      ltac:(intros j a Hj; simpl in Hj; lia) (fun block => (block =? it_restart_index it) && bool_decide (Eq = Lt)))
      as (it' & -> & Hso); [intros m; by rewrite andb_false_r|]. eauto.
  - rewrite (pos_at_valid _ _ Hc). pose proof Hc as [Hit Hs _ (kv & Hkv & Hk & _) [Hr1 Hr2] _].
    pose proof Hit as (_ & Hn & _). rewrite Hk.
    destruct (Compare (ExtractUserKey (fst kv)) t) eqn:Ec.
    + exists it. split; [done|]. right. split_and!; [done|by apply pos_at_valid in Hc|].
      by apply Compare_eq.
    + rewrite (bool_decide_eq_false_2 (Lt = Eq)) by done. cbn [andb].
      pose proof (all_before_at t c kv Hkv Ec) as Hall.
      destruct (Hfresh (it_restart_index it) (it_num_restarts it - 1) Hit Hs ltac:(lia) ltac:(lia)
        ltac:(intros j a Hj; apply Hall; lia)
        (fun block => (block =? it_restart_index it) && bool_decide (Lt = Lt))) as (it' & -> & Hso); [|eauto].
      intros m _. exists (S c). split; [by apply pos_at_before|done].
    + rewrite (bool_decide_eq_false_2 (Gt = Eq)) by done. cbn [andb].
      destruct (Hfresh 0 (it_restart_index it) Hit Hs ltac:(lia) ltac:(lia)
        ltac:(intros j a Hj; simpl in Hj; lia) (fun block => (block =? it_restart_index it) && bool_decide (Gt = Lt)))
        as (it' & -> & Hso); [intros m; by rewrite andb_false_r|]. eauto.
Qed.
End Table.

(** The iterator that [NewIterator] opens on a buffer with a table. *)
Definition open_table (data : bytes) : option SSTableIteratorCompressed :=
  size ← DecodeFixed64 data 0; n ← DecodeFixed64 data 8; Some (newIterCompressed data size n).

Section Properties.
Context `{UserComparator}.

Lemma open_table_spec kvs pad :
  kvs <> [] -> small_table kvs ->
  exists it, open_table (table_image kvs ++ pad) = Some it /\ table_it kvs pad it /\
    it_status it = OK /\ Valid it = false.
Proof.
  intros Hne Hs. destruct (table_split kvs pad) as (pre & Hpre & Hdata & Hds & Hp).
  pose proof (nr_bounds kvs pad Hne Hs) as Hnr. destruct Hs as (_ & Hb & Hl). unfold open_table.
  pose proof (blen_nonneg (body kvs)). set (nr := Z.of_nat (restart_count kvs)) in *.
  assert (DecodeFixed64 (table_image kvs ++ pad) 0 = Some (blen (table_image kvs))) as ->.
  { rewrite Hdata, Hp, <-!app_assoc. apply (DecodeFixed64_at [] _ _ 0); [|done].
    rewrite Hds. unfold is_u64. lia. }
  obind. assert (DecodeFixed64 (table_image kvs ++ pad) 8 = Some nr) as ->.
  { rewrite Hdata, Hp, <-!app_assoc. apply DecodeFixed64_at; [unfold is_u64; lia|].
    by rewrite blen_EncodeFixed64. }
  obind. eexists. split; [done|]. split; [by split_and!|]. split; [done|].
  unfold Valid, newIterCompressed; simpl. rewrite (proj2 (Z.leb_gt _ 0)) by lia.
  by rewrite andb_false_r.
Qed.

(** C18: what the builder writes is what the iterator reads: for any entries
    within the format's limits, the finished table carries its own size and
    restart count, a scan from [SeekToFirst] by [Next] yields exactly the added
    entries in order and then ends without an error, and the metadata has the
    first key, the last key and the number of entries. *)
Theorem sstable_build_scan meta kvs pad :
  kvs <> [] -> small_table kvs ->
  let b := Finalise (Apply_all (newBuilder meta true) kvs) in
  exists it0 it, open_table (sb_buffer b ++ pad) = Some it0 /\ it_data_size it0 = GetSize b /\
    SeekToFirst it0 = Some it /\ scan (S (length kvs)) it = Some (kvs, OK) /\
    m_smallest (sb_meta b) = default [] (fst <$> head kvs) /\
    m_largest (sb_meta b) = last_key_of [] kvs /\ m_numbers (sb_meta b) = blen kvs.
Proof.
  intros Hne Hs. cbv zeta. pose proof (Apply_all_built meta kvs Hs) as Hb.
  pose proof (Finalise_image _ _ Hb) as E. unfold GetSize. rewrite E.
  destruct (open_table_spec kvs pad Hne Hs) as (it0 & H0 & Ht & Hst & _).
  destruct (SeekToFirst_spec kvs pad Hne Hs it0 Ht Hst) as (it & H1 & Ha).
  exists it0, it. split_and!; [done|by destruct Ht as (_ & _ & _ & ?)|done| | | |].
  - by rewrite (scan_spec kvs pad Hne Hs _ _ 0) by (done || lia).
  - by apply (bu_smallest _ _ Hb).
  - by apply (bu_largest _ _ Hb).
  - by rewrite <-(bu_numbers _ _ Hb).
Qed.


(** [Prev] undoes [Next]: from the [i]-th entry it moves to the entry
    before it.  From the first entry, where there is none, it stays on the first
    entry and the iterator remains valid, so a backward scan never ends. *)
Theorem sstable_prev kvs pad i it :
  kvs <> [] -> small_table kvs -> pos_at kvs pad it i ->
  exists it', Prev it = Some it' /\ pos_at kvs pad it' (i - 1) /\ Valid it' = true /\
    it_key it' = default [] (fst <$> kvs !! (i - 1)%nat).
Proof.
  intros Hne Hs Hp. destruct (Prev_spec kvs pad Hne Hs it i Hp) as (it' & H1 & Ha).
  exists it'. split_and!; [done..|by eapply (pos_at_valid kvs pad)|].
  destruct (pa_kv _ _ _ _ Ha) as (kv & Hkv & Hk & _). by rewrite Hkv, Hk.
Qed.

(** [SeekToLast] never finds the last entry: its loop tests
    [NextEntryOffset() <= data_size_], which the last entry satisfies, so on
    every table it runs past the end and leaves the iterator invalid. *)
Theorem sstable_seek_to_last_invalid kvs pad :
  kvs <> [] -> small_table kvs ->
  exists it0 it, open_table (table_image kvs ++ pad) = Some it0 /\
    SeekToLast it0 = Some it /\ Valid it = false.
Proof.
  intros Hne Hs. destruct (open_table_spec kvs pad Hne Hs) as (it0 & H0 & Ht & Hst & _).
  destruct (SeekToLast_spec kvs pad Hne Hs it0 Ht Hst) as (it & H1 & (_ & _ & H2)). by exists it0, it.
Qed.
End Properties.

(** ** A concrete table *)

Definition wkvs : list KV :=
  [(InternalKey [x61] 9 kTypeValue, [x01]); (InternalKey [x61] 4 kTypeValue, [x02]);
   (InternalKey [x61; x62] 7 kTypeDeletion, []); (InternalKey [x63] 8 kTypeValue, [x03; x04])].

Definition wmeta : SSZoneMetaData := newSSZoneMetaData 0 [] [].

Lemma wkvs_small : small_table wkvs.
Proof. split; [repeat constructor; vm_compute; congruence|]. split; vm_compute; congruence. Qed.

Lemma wkvs_sorted i j a b :
  (i < j)%nat -> wkvs !! i = Some a -> wkvs !! j = Some b -> cle Compare (ukey a) (ukey b).
Proof.
  intros Hij Ha Hb. destruct i as [|[|[|[|i]]]], j as [|[|[|[|j]]]]; simplify_eq/=; try lia;
    vm_compute; congruence.
Qed.

Lemma sstable_build_scan_witness :
  exists it0 it, open_table (sb_buffer (Finalise (Apply_all (newBuilder wmeta true) wkvs))) = Some it0 /\
    SeekToFirst it0 = Some it /\ scan 5 it = Some (wkvs, OK).
Proof.
  destruct (sstable_build_scan wmeta wkvs []) as (it0 & it & H0 & _ & H1 & H2 & _).
  - discriminate.
  - exact wkvs_small.
  - exists it0, it. rewrite app_nil_r in H0. auto.
Defined.


Lemma sstable_prev_witness :
  exists it it', Prev it = Some it' /\ it_key it' = InternalKey [x61] 9 kTypeValue.
Proof.
  destruct (open_table_spec wkvs [] ltac:(discriminate) wkvs_small) as (it0 & _ & Ht & Hst & _).
  destruct (SeekToFirst_spec wkvs [] ltac:(discriminate) wkvs_small it0 Ht Hst) as (it & _ & Ha).
  destruct (sstable_prev wkvs [] 0 it) as (it' & H1 & _ & _ & H2).
  - discriminate.
  - exact wkvs_small.
  - exact Ha.
  - exists it, it'. split; [exact H1|exact H2].
Defined.

Lemma sstable_seek_to_last_invalid_witness :
  exists it0 it, open_table (table_image wkvs ++ []) = Some it0 /\ SeekToLast it0 = Some it /\ Valid it = false.
Proof.
  apply (sstable_seek_to_last_invalid wkvs []).
  - discriminate.
  - exact wkvs_small.
Defined.
