(* ===== verification/VersionEdit.v ===== *)
(** * VersionEdit: persistent changes to the index

    [index/tropodb_version_edit.h] and [.cc]: the record of changes that turn
    one version of the index into the next, and its encoding in the manifest as
    a sequence of tagged items. *)

From S2P Require Import Prelude Coding DbFormat Config.

(** ** State *)

(** [TropoVersionTag], index/tropodb_version.h:29-41 *)
Inductive TropoVersionTag :=
  | kComparator | kLogNumber | kNextSSTableNumber | kLastSequence | kCompactPointer
  | kDeletedSSTable | kNewSSTable | kPrevLogNumber | kDeletedRange | kFragmentedData.

Definition tag_code (t : TropoVersionTag) : Z :=
  match t with
  | kComparator => 1 | kLogNumber => 2 | kNextSSTableNumber => 3 | kLastSequence => 4
  | kCompactPointer => 5 | kDeletedSSTable => 6 | kNewSSTable => 7 | kPrevLogNumber => 9
  | kDeletedRange => 0xa | kFragmentedData => 0xb
  end.

(** [TropoVersionEdit], index/tropodb_version_edit.h:76-91 *)
Record TropoVersionEdit := mkEdit {
  ve_new_ss : list (Z * SSZoneMetaData);
  ve_deleted_ss : gset (Z * Z);
  ve_fragmented_data : bytes;
  ve_has_fragmented_data : bool;
  ve_deleted_range : Z * Z;
  ve_has_deleted_range : bool;
  ve_deleted_ss_pers : list (Z * SSZoneMetaData);
  ve_compact_pointers : list (Z * bytes);
  ve_last_sequence : Z;
  ve_has_last_sequence : bool;
  ve_comparator : bytes;
  ve_has_comparator : bool;
  ve_ss_number : Z;
  ve_has_next_ss_number : bool
}.

(** [TropoVersionEdit::Clear], index/tropodb_version_edit.cc:16-31 *)
Definition newEdit : TropoVersionEdit :=
  mkEdit [] ∅ [] false (0, 0) false [] [] 0 false [] false 0 false.

(** One setter per field. *)
Definition set_new_ss (e : TropoVersionEdit) x : TropoVersionEdit :=
  mkEdit x (ve_deleted_ss e) (ve_fragmented_data e) (ve_has_fragmented_data e) (ve_deleted_range e)
    (ve_has_deleted_range e) (ve_deleted_ss_pers e) (ve_compact_pointers e) (ve_last_sequence e)
    (ve_has_last_sequence e) (ve_comparator e) (ve_has_comparator e) (ve_ss_number e) (ve_has_next_ss_number e).
Definition set_deleted_ss (e : TropoVersionEdit) x : TropoVersionEdit :=
  mkEdit (ve_new_ss e) x (ve_fragmented_data e) (ve_has_fragmented_data e) (ve_deleted_range e)
    (ve_has_deleted_range e) (ve_deleted_ss_pers e) (ve_compact_pointers e) (ve_last_sequence e)
    (ve_has_last_sequence e) (ve_comparator e) (ve_has_comparator e) (ve_ss_number e) (ve_has_next_ss_number e).
Definition set_deleted_ss_pers (e : TropoVersionEdit) x : TropoVersionEdit :=
  mkEdit (ve_new_ss e) (ve_deleted_ss e) (ve_fragmented_data e) (ve_has_fragmented_data e) (ve_deleted_range e)
    (ve_has_deleted_range e) x (ve_compact_pointers e) (ve_last_sequence e)
    (ve_has_last_sequence e) (ve_comparator e) (ve_has_comparator e) (ve_ss_number e) (ve_has_next_ss_number e).

(** [TropoVersionEdit::SetLastSequence], index/tropodb_version_edit.h:43-46 *)
Definition SetLastSequence (e : TropoVersionEdit) (seq : Z) : TropoVersionEdit :=
  mkEdit (ve_new_ss e) (ve_deleted_ss e) (ve_fragmented_data e) (ve_has_fragmented_data e) (ve_deleted_range e)
    (ve_has_deleted_range e) (ve_deleted_ss_pers e) (ve_compact_pointers e) seq
    true (ve_comparator e) (ve_has_comparator e) (ve_ss_number e) (ve_has_next_ss_number e).

(** [TropoVersionEdit::SetComparatorName], index/tropodb_version_edit.h:47-50 *)
Definition SetComparatorName (e : TropoVersionEdit) (name : bytes) : TropoVersionEdit :=
  mkEdit (ve_new_ss e) (ve_deleted_ss e) (ve_fragmented_data e) (ve_has_fragmented_data e) (ve_deleted_range e)
    (ve_has_deleted_range e) (ve_deleted_ss_pers e) (ve_compact_pointers e) (ve_last_sequence e)
    (ve_has_last_sequence e) name true (ve_ss_number e) (ve_has_next_ss_number e).

(** [TropoVersionEdit::SetSSNumber], index/tropodb_version_edit.h:51-54 *)
Definition SetSSNumber (e : TropoVersionEdit) (num : Z) : TropoVersionEdit :=
  mkEdit (ve_new_ss e) (ve_deleted_ss e) (ve_fragmented_data e) (ve_has_fragmented_data e) (ve_deleted_range e)
    (ve_has_deleted_range e) (ve_deleted_ss_pers e) (ve_compact_pointers e) (ve_last_sequence e)
    (ve_has_last_sequence e) (ve_comparator e) (ve_has_comparator e) num true.

(** [TropoVersionEdit::SetCompactPointer], index/tropodb_version_edit.h:55-57 *)
Definition SetCompactPointer (e : TropoVersionEdit) (level : Z) (key : bytes) : TropoVersionEdit :=
  mkEdit (ve_new_ss e) (ve_deleted_ss e) (ve_fragmented_data e) (ve_has_fragmented_data e) (ve_deleted_range e)
    (ve_has_deleted_range e) (ve_deleted_ss_pers e) (ve_compact_pointers e ++ [(level, key)]) (ve_last_sequence e)
    (ve_has_last_sequence e) (ve_comparator e) (ve_has_comparator e) (ve_ss_number e) (ve_has_next_ss_number e).

(** [TropoVersionEdit::AddDeletedRange], index/tropodb_version_edit.h:58-61 *)
Definition AddDeletedRange (e : TropoVersionEdit) (range : Z * Z) : TropoVersionEdit :=
  mkEdit (ve_new_ss e) (ve_deleted_ss e) (ve_fragmented_data e) (ve_has_fragmented_data e) range
    true (ve_deleted_ss_pers e) (ve_compact_pointers e) (ve_last_sequence e)
    (ve_has_last_sequence e) (ve_comparator e) (ve_has_comparator e) (ve_ss_number e) (ve_has_next_ss_number e).

(** [TropoVersionEdit::AddFragmentedData], index/tropodb_version_edit.h:62-67 *)
Definition AddFragmentedData (e : TropoVersionEdit) (d : bytes) : TropoVersionEdit :=
  mkEdit (ve_new_ss e) (ve_deleted_ss e) d true (ve_deleted_range e)
    (ve_has_deleted_range e) (ve_deleted_ss_pers e) (ve_compact_pointers e) (ve_last_sequence e)
    (ve_has_last_sequence e) (ve_comparator e) (ve_has_comparator e) (ve_ss_number e) (ve_has_next_ss_number e).

(** [TropoVersionEdit::AddDeletedSSTable], index/tropodb_version_edit.h:68-70 *)
Definition AddDeletedSSTable (e : TropoVersionEdit) (level : Z) (meta : SSZoneMetaData) : TropoVersionEdit :=
  set_deleted_ss_pers e (ve_deleted_ss_pers e ++ [(level, meta)]).

(** The metadata that [AddSSDefinition] copies; [f0] is a fresh object. *)
Definition copy_definition (f0 : SSZoneMetaData) (level : Z) (meta : SSZoneMetaData) : SSZoneMetaData :=
  let n := m_LN_lba_regions meta in
  if level =? 0 then
    mkMeta (m_refs f0) (m_allowed_seeks f0) (m_number meta)
      (m_L0_lba meta) (m_L0_log_number meta) (m_L0_number meta)
      (m_LN_lba_regions f0) (m_LN_lbas f0) (m_LN_lba_region_sizes f0)
      (m_numbers meta) (m_lba_count meta) (m_smallest meta) (m_largest meta)
  else
    mkMeta (m_refs f0) (m_allowed_seeks f0) (m_number meta)
      (m_L0_lba f0) (m_L0_log_number f0) (m_L0_number f0)
      n (ztake n (m_LN_lbas meta) ++ zdrop n (m_LN_lbas f0))
      (ztake n (m_LN_lba_region_sizes meta) ++ zdrop n (m_LN_lba_region_sizes f0))
      (m_numbers meta) (m_lba_count meta) (m_smallest meta) (m_largest meta).

(** [TropoVersionEdit::AddSSDefinition], index/tropodb_version_edit.cc:33-55 *)
Definition AddSSDefinition (f0 : SSZoneMetaData) (e : TropoVersionEdit) (level : Z) (meta : SSZoneMetaData)
    : TropoVersionEdit :=
  set_new_ss e (ve_new_ss e ++ [(level, copy_definition f0 level meta)]).

(** [TropoVersionEdit::RemoveSSDefinition], index/tropodb_version_edit.cc:57-61 *)
Definition RemoveSSDefinition (e : TropoVersionEdit) (level : Z) (meta : SSZoneMetaData) : TropoVersionEdit :=
  let e := set_deleted_ss e ({[ (level, m_number meta) ]} ∪ ve_deleted_ss e) in
  set_deleted_ss_pers e (ve_deleted_ss_pers e ++ [(level, meta)]).

(** [TropoVersionEdit::RemoveSSDefinitionOnlyMeta], index/tropodb_version_edit.cc:63-66 *)
Definition RemoveSSDefinitionOnlyMeta (e : TropoVersionEdit) (level : Z) (meta : SSZoneMetaData)
    : TropoVersionEdit :=
  set_deleted_ss e ({[ (level, m_number meta) ]} ∪ ve_deleted_ss e).

(** ** Encoding *)

Definition put_tag (dst : bytes) (t : TropoVersionTag) : bytes := PutVarint32 dst (tag_code t).

(** The [lbas] and [lba_region_sizes] of a table, interleaved. *)
Definition put_regions (dst : bytes) (m : SSZoneMetaData) : bytes :=
  fold_left (fun dst p => PutVarint64 (PutVarint64 dst (fst p)) (snd p))
    (ztake (m_LN_lba_regions m) (zip (m_LN_lbas m) (m_LN_lba_region_sizes m))) dst.

(** The loop body shared by the deleted and the new tables. *)
Definition put_table (dst : bytes) (t : TropoVersionTag) (level : Z) (m : SSZoneMetaData) : bytes :=
  let dst := put_tag dst t in
  let dst := PutFixed8 dst level in
  let dst := PutVarint64 dst (m_number m) in
  let dst :=
    if level =? 0 then
      PutVarint64 (PutFixed8 (PutVarint64 dst (m_L0_lba m)) (m_L0_log_number m)) (m_L0_number m)
    else put_regions (PutFixed8 dst (m_LN_lba_regions m)) m in
  let dst := PutVarint64 dst (m_numbers m) in
  let dst := PutVarint64 dst (m_lba_count m) in
  let dst := PutLengthPrefixedSlice dst (m_smallest m) in
  PutLengthPrefixedSlice dst (m_largest m).

(** The new tables that the same edit does not delete. *)
Definition live_new (e : TropoVersionEdit) : list (Z * SSZoneMetaData) :=
  filter (fun lm => (fst lm, m_number (snd lm)) ∉ ve_deleted_ss e) (ve_new_ss e).

(** [TropoVersionEdit::EncodeTo], index/tropodb_version_edit.cc:72-203 *)
Definition EncodeTo (e : TropoVersionEdit) (dst : bytes) : bytes :=
  let dst := if ve_has_comparator e
    then PutLengthPrefixedSlice (put_tag dst kComparator) (ve_comparator e) else dst in
  let dst := if ve_has_last_sequence e
    then PutVarint64 (put_tag dst kLastSequence) (ve_last_sequence e) else dst in
  let dst := if ve_has_next_ss_number e
    then PutVarint64 (put_tag dst kNextSSTableNumber) (ve_ss_number e) else dst in
  let dst := fold_left (fun dst lk =>
      PutLengthPrefixedSlice (PutFixed8 (put_tag dst kCompactPointer) (fst lk)) (snd lk))
    (ve_compact_pointers e) dst in
  let dst := if ve_has_deleted_range e
    then PutVarint64 (PutVarint64 (put_tag dst kDeletedRange) (fst (ve_deleted_range e)))
           (snd (ve_deleted_range e)) else dst in
  let dst := fold_left (fun dst lm => put_table dst kDeletedSSTable (fst lm) (snd lm))
    (ve_deleted_ss_pers e) dst in
  let dst := fold_left (fun dst lm => put_table dst kNewSSTable (fst lm) (snd lm))
    (live_new e) dst in
  if ve_has_fragmented_data e
  then PutLengthPrefixedSlice (put_tag dst kFragmentedData) (ve_fragmented_data e) else dst.

(** ** Decoding *)

(** [GetInternalKey], index/tropodb_version_edit.cc:205-213 *)
Definition GetInternalKey (input : bytes) : option (bytes * bytes) := GetLengthPrefixedSlice input.

(** [GetLevel], index/tropodb_version_edit.cc:215-223 *)
Definition GetLevel (input : bytes) : option (Z * bytes) :=
  '(v, input) ← GetFixed8 input; if v <? level_count then Some (v, input) else None.

(** [DecodeL0], index/tropodb_version_edit.cc:225-232 *)
Definition DecodeL0 (input : bytes) (m : SSZoneMetaData) : option (SSZoneMetaData * bytes) :=
  '(number, input) ← GetVarint64 input;
  '(lba, input) ← GetVarint64 input;
  '(log_number, input) ← GetFixed8 input;
  '(l0_number, input) ← GetVarint64 input;
  '(numbers, input) ← GetVarint64 input;
  '(lba_count, input) ← GetVarint64 input;
  '(smallest, input) ← GetInternalKey input;
  '(largest, input) ← GetInternalKey input;
  Some (mkMeta (m_refs m) (m_allowed_seeks m) number lba log_number l0_number
          (m_LN_lba_regions m) (m_LN_lbas m) (m_LN_lba_region_sizes m)
          numbers lba_count smallest largest, input).

(** The loop of [DecodeLN] from region [i] on. *)
Fixpoint decode_regions (n i : nat) (input : bytes) (lbas sizes : list Z)
    : option (list Z * list Z * bytes) :=
  match n with
  | O => Some (lbas, sizes, input)
  | S n =>
      '(l, input) ← GetVarint64 input;
      '(s, input) ← GetVarint64 input;
      decode_regions n (S i) input (<[i := l]> lbas) (<[i := s]> sizes)
  end.

(** [DecodeLN], index/tropodb_version_edit.cc:234-250 *)
Definition DecodeLN (input : bytes) (m : SSZoneMetaData) : option (SSZoneMetaData * bytes) :=
  '(number, input) ← GetVarint64 input;
  '(regions, input) ← GetFixed8 input;
  if 8 <? regions then None
  else
    '(lbas, sizes, input) ←
      decode_regions (Z.to_nat regions) 0 input (m_LN_lbas m) (m_LN_lba_region_sizes m);
    '(numbers, input) ← GetVarint64 input;
    '(lba_count, input) ← GetVarint64 input;
    '(smallest, input) ← GetInternalKey input;
    '(largest, input) ← GetInternalKey input;
    Some (mkMeta (m_refs m) (m_allowed_seeks m) number (m_L0_lba m) (m_L0_log_number m)
            (m_L0_number m) regions lbas sizes numbers lba_count smallest largest, input).

(** [DecodeLevel], index/tropodb_version_edit.cc:252-258 *)
Definition DecodeLevel (input : bytes) (level : Z) (m : SSZoneMetaData) : option (SSZoneMetaData * bytes) :=
  if level =? 0 then DecodeL0 input m else DecodeLN input m.

(** One round of the [while] loop of [DecodeFrom] for the item [tag]: the edit,
    the metadata object that is reused for every table, and the input. *)
Definition decode_item (tag : Z) (e : TropoVersionEdit) (m : SSZoneMetaData) (input : bytes)
    : option (TropoVersionEdit * SSZoneMetaData * bytes) :=
  if tag =? tag_code kComparator then
    '(str, input) ← GetLengthPrefixedSlice input; Some (SetComparatorName e str, m, input)
  else if tag =? tag_code kLastSequence then
    '(n, input) ← GetVarint64 input; Some (SetLastSequence e n, m, input)
  else if tag =? tag_code kNextSSTableNumber then
    '(n, input) ← GetVarint64 input; Some (SetSSNumber e n, m, input)
  else if tag =? tag_code kDeletedRange then
    '(a, input) ← GetVarint64 input; '(b, input) ← GetVarint64 input;
    Some (AddDeletedRange e (a, b), m, input)
  else if tag =? tag_code kDeletedSSTable then
    '(level, input) ← GetLevel input; '(m, input) ← DecodeLevel input level m;
    Some (set_deleted_ss_pers e (ve_deleted_ss_pers e ++ [(level, m)]), m, input)
  else if tag =? tag_code kNewSSTable then
    '(level, input) ← GetLevel input; '(m, input) ← DecodeLevel input level m;
    Some (set_new_ss e (ve_new_ss e ++ [(level, m)]), m, input)
  else if tag =? tag_code kCompactPointer then
    '(level, input) ← GetLevel input; '(key, input) ← GetInternalKey input;
    Some (SetCompactPointer e level key, m, input)
  else if tag =? tag_code kFragmentedData then
    '(frag, input) ← GetLengthPrefixedSlice input; Some (AddFragmentedData e frag, m, input)
  else None.

(** The loop of [DecodeFrom]; the tag of an item takes at least a byte. *)
Fixpoint decode_loop (fuel : nat) (e : TropoVersionEdit) (m : SSZoneMetaData) (input : bytes)
    : option (Status * TropoVersionEdit) :=
  match fuel with
  | O => None
  | S fuel =>
      match GetVarint32 input with
      | None => Some (if bool_decide (input = []) then OK else Corruption, e)
      | Some (tag, input) =>
          match decode_item tag e m input with
          | None => Some (Corruption, e)
          | Some (e, m, input) => decode_loop fuel e m input
          end
      end
  end.

(** [TropoVersionEdit::DecodeFrom], index/tropodb_version_edit.cc:260-349.  [m0]
    is the freshly constructed local [SSZoneMetaData m]. *)
Definition DecodeFrom (m0 : SSZoneMetaData) (e : TropoVersionEdit) (src : bytes)
    : option (Status * TropoVersionEdit) :=
  decode_loop (S (length src)) e m0 src.

(** ** Items: what an encoded edit is a sequence of *)

Inductive item :=
  | IComparator (s : bytes) | ILastSequence (n : Z) | ISSNumber (n : Z)
  | ICompactPointer (level : Z) (key : bytes) | IDeletedRange (r : Z * Z)
  | IDeleted (level : Z) (m : SSZoneMetaData) | INew (level : Z) (m : SSZoneMetaData)
  | IFragmented (s : bytes).

Definition put_item (dst : bytes) (it : item) : bytes :=
  match it with
  | IComparator s => PutLengthPrefixedSlice (put_tag dst kComparator) s
  | ILastSequence n => PutVarint64 (put_tag dst kLastSequence) n
  | ISSNumber n => PutVarint64 (put_tag dst kNextSSTableNumber) n
  | ICompactPointer l k => PutLengthPrefixedSlice (PutFixed8 (put_tag dst kCompactPointer) l) k
  | IDeletedRange r => PutVarint64 (PutVarint64 (put_tag dst kDeletedRange) (fst r)) (snd r)
  | IDeleted l m => put_table dst kDeletedSSTable l m
  | INew l m => put_table dst kNewSSTable l m
  | IFragmented s => PutLengthPrefixedSlice (put_tag dst kFragmentedData) s
  end.

(** The items of an edit, in the order they are written. *)
Definition items (e : TropoVersionEdit) : list item :=
  (if ve_has_comparator e then [IComparator (ve_comparator e)] else []) ++
  (if ve_has_last_sequence e then [ILastSequence (ve_last_sequence e)] else []) ++
  (if ve_has_next_ss_number e then [ISSNumber (ve_ss_number e)] else []) ++
  map (fun lk => ICompactPointer (fst lk) (snd lk)) (ve_compact_pointers e) ++
  (if ve_has_deleted_range e then [IDeletedRange (ve_deleted_range e)] else []) ++
  map (fun lm => IDeleted (fst lm) (snd lm)) (ve_deleted_ss_pers e) ++
  map (fun lm => INew (fst lm) (snd lm)) (live_new e) ++
  (if ve_has_fragmented_data e then [IFragmented (ve_fragmented_data e)] else []).

(** What decoding the entry of [m] leaves in the object [m0]: the fields of
    [m] that the level has, the others kept. *)
Definition overlay (level : Z) (m0 m : SSZoneMetaData) : SSZoneMetaData := copy_definition m0 level m.

Definition apply_item (it : item) (st : TropoVersionEdit * SSZoneMetaData) : TropoVersionEdit * SSZoneMetaData :=
  let '(e, m0) := st in
  match it with
  | IComparator s => (SetComparatorName e s, m0)
  | ILastSequence n => (SetLastSequence e n, m0)
  | ISSNumber n => (SetSSNumber e n, m0)
  | ICompactPointer l k => (SetCompactPointer e l k, m0)
  | IDeletedRange r => (AddDeletedRange e r, m0)
  | IDeleted l m => (AddDeletedSSTable e l (overlay l m0 m), overlay l m0 m)
  | INew l m => (set_new_ss e (ve_new_ss e ++ [(l, overlay l m0 m)]), overlay l m0 m)
  | IFragmented s => (AddFragmentedData e s, m0)
  end.

Lemma fold_map {A B C} (f : C -> B -> C) (g : A -> B) (l : list A) c :
  fold_left f (map g l) c = fold_left (fun c a => f c (g a)) l c.
Proof. revert c. induction l; naive_solver. Qed.

Lemma EncodeTo_items e dst : EncodeTo e dst = fold_left put_item (items e) dst.
Proof.
  unfold EncodeTo, items. rewrite !fold_left_app, !fold_map.
  by repeat case_match.
Qed.

(** Every write appends. *)
Lemma fold_regions_app (l : list (Z * Z)) dst :
  fold_left (fun dst p => PutVarint64 (PutVarint64 dst (fst p)) (snd p)) l dst
  = dst ++ fold_left (fun dst p => PutVarint64 (PutVarint64 dst (fst p)) (snd p)) l [].
Proof.
  revert dst. induction l as [|[a b] l IH]; intros dst; cbn [fold_left fst snd].
  - by rewrite app_nil_r.
  - rewrite IH, (IH (PutVarint64 (PutVarint64 [] a) b)). unfold PutVarint64. by rewrite app_nil_l, <-!app_assoc.
Qed.

Lemma put_regions_app dst m : put_regions dst m = dst ++ put_regions [] m.
Proof. apply fold_regions_app. Qed.

Definition enc_tag (t : TropoVersionTag) : bytes := EncodeVarint32 (u32 (tag_code t)).

Definition enc_slice (s : bytes) : bytes := PutLengthPrefixedSlice [] s.

(** The layout of a table's entry. *)
Definition enc_table (t : TropoVersionTag) (l : Z) (m : SSZoneMetaData) : bytes :=
  enc_tag t ++ EncodeFixed8 l ++ EncodeVarint64 (u64 (m_number m)) ++
  (if l =? 0 then
     EncodeVarint64 (u64 (m_L0_lba m)) ++ EncodeFixed8 (m_L0_log_number m) ++
     EncodeVarint64 (u64 (m_L0_number m))
   else EncodeFixed8 (m_LN_lba_regions m) ++ put_regions [] m) ++
  EncodeVarint64 (u64 (m_numbers m)) ++ EncodeVarint64 (u64 (m_lba_count m)) ++
  enc_slice (m_smallest m) ++ enc_slice (m_largest m).

Lemma put_slice_app dst s : PutLengthPrefixedSlice dst s = dst ++ enc_slice s.
Proof. apply PutLengthPrefixedSlice_app. Qed.

Lemma put_table_app dst t l m : put_table dst t l m = dst ++ enc_table t l m.
Proof.
  unfold put_table, enc_table. rewrite !put_slice_app. unfold PutVarint64, put_tag, PutVarint32.
  destruct (l =? 0); [|rewrite put_regions_app]; unfold PutFixed8; by rewrite <-!app_assoc.
Qed.

Definition enc_item (it : item) : bytes :=
  match it with
  | IComparator s => enc_tag kComparator ++ enc_slice s
  | ILastSequence n => enc_tag kLastSequence ++ EncodeVarint64 (u64 n)
  | ISSNumber n => enc_tag kNextSSTableNumber ++ EncodeVarint64 (u64 n)
  | ICompactPointer l k => enc_tag kCompactPointer ++ EncodeFixed8 l ++ enc_slice k
  | IDeletedRange r => enc_tag kDeletedRange ++ EncodeVarint64 (u64 (fst r)) ++ EncodeVarint64 (u64 (snd r))
  | IDeleted l m => enc_table kDeletedSSTable l m
  | INew l m => enc_table kNewSSTable l m
  | IFragmented s => enc_tag kFragmentedData ++ enc_slice s
  end.

Lemma put_item_app dst it : put_item dst it = dst ++ enc_item it.
Proof.
  destruct it; cbn [put_item enc_item]; try apply put_table_app;
    rewrite ?put_slice_app; unfold PutVarint64, PutFixed8, put_tag, PutVarint32;
    by rewrite <-?app_assoc.
Qed.

Lemma fold_put_item l dst : fold_left put_item l dst = dst ++ concat (map enc_item l).
Proof.
  revert dst. induction l as [|it l IH]; intros dst; cbn [fold_left map concat]; [by rewrite app_nil_r|].
  by rewrite IH, put_item_app, app_assoc.
Qed.

(** ** What can be encoded *)

(** The machine widths of a table's fields, and the eight slots of its arrays. *)
Record meta_ok (m : SSZoneMetaData) : Prop := {
  mo_number : is_u64 (m_number m);
  mo_lba : is_u64 (m_L0_lba m);
  mo_log_number : is_u8 (m_L0_log_number m);
  mo_l0_number : is_u64 (m_L0_number m);
  mo_regions : 0 <= m_LN_lba_regions m <= 8;
  mo_lbas : length (m_LN_lbas m) = 8%nat /\ Forall is_u64 (m_LN_lbas m);
  mo_sizes : length (m_LN_lba_region_sizes m) = 8%nat /\ Forall is_u64 (m_LN_lba_region_sizes m);
  mo_numbers : is_u64 (m_numbers m);
  mo_lba_count : is_u64 (m_lba_count m);
  mo_smallest : is_u32 (blen (m_smallest m));
  mo_largest : is_u32 (blen (m_largest m))
}.

Definition level_ok (l : Z) : Prop := 0 <= l < level_count.

Definition item_ok (it : item) : Prop :=
  match it with
  | IComparator s | IFragmented s => is_u32 (blen s)
  | ILastSequence n | ISSNumber n => is_u64 n
  | ICompactPointer l k => level_ok l /\ is_u32 (blen k)
  | IDeletedRange r => is_u64 (fst r) /\ is_u64 (snd r)
  | IDeleted l m | INew l m => level_ok l /\ meta_ok m
  end.

(** The edits the code builds: fields within their width. *)
Record edit_ok (e : TropoVersionEdit) : Prop := {
  eo_comparator : is_u32 (blen (ve_comparator e));
  eo_last_sequence : is_u64 (ve_last_sequence e);
  eo_ss_number : is_u64 (ve_ss_number e);
  eo_compact_pointers : Forall (fun lk => level_ok (fst lk) /\ is_u32 (blen (snd lk))) (ve_compact_pointers e);
  eo_deleted_range : is_u64 (fst (ve_deleted_range e)) /\ is_u64 (snd (ve_deleted_range e));
  eo_deleted : Forall (fun lm => level_ok (fst lm) /\ meta_ok (snd lm)) (ve_deleted_ss_pers e);
  eo_new : Forall (fun lm => level_ok (fst lm) /\ meta_ok (snd lm)) (ve_new_ss e);
  eo_fragmented : is_u32 (blen (ve_fragmented_data e))
}.

Lemma items_ok e : edit_ok e -> Forall item_ok (items e).
Proof.
  intros []. unfold items. rewrite !Forall_app, !Forall_map. split_and!; try done;
    try (case_match; [apply Forall_singleton|apply Forall_nil]; done).
  unfold live_new. apply Forall_forall. intros x [_ Hx]%list_elem_of_filter.
  exact (proj1 (Forall_forall _ _) eo_new0 x Hx).
Qed.

(** ** One item is read back *)

Lemma tag_u32 t : is_u32 (tag_code t).
Proof. by destruct t. Qed.

Lemma get_tag t rest : GetVarint32 (enc_tag t ++ rest) = Some (tag_code t, rest).
Proof. unfold enc_tag. pose proof (tag_u32 t). rewrite u32_small by done. by apply GetVarint32_Encode. Qed.

Lemma get_v64 v rest : is_u64 v -> GetVarint64 (EncodeVarint64 (u64 v) ++ rest) = Some (v, rest).
Proof. intros. rewrite u64_small by done. by apply GetVarint64_Encode. Qed.

Lemma get_slice s rest : is_u32 (blen s) -> GetLengthPrefixedSlice (enc_slice s ++ rest) = Some (s, rest).
Proof. apply GetLengthPrefixedSlice_Put. Qed.

Lemma get_level l rest : level_ok l -> GetLevel (EncodeFixed8 l ++ rest) = Some (l, rest).
Proof.
  intros [? Hl]. assert (level_count <= 256) by done. unfold GetLevel. rewrite GetFixed8_Put by word. obind.
  by rewrite (proj2 (Z.ltb_lt _ _)) by lia.
Qed.

(** The regions of a table fill the first slots of the arrays. *)
Lemma decode_regions_spec (l : list (Z * Z)) i lbas sizes rest :
  Forall (fun p => is_u64 (fst p) /\ is_u64 (snd p)) l ->
  (i + length l <= length lbas)%nat -> (i + length l <= length sizes)%nat ->
  decode_regions (length l) i
    (fold_left (fun dst p => PutVarint64 (PutVarint64 dst (fst p)) (snd p)) l [] ++ rest) lbas sizes
  = Some (take i lbas ++ map fst l ++ drop (i + length l) lbas,
          take i sizes ++ map snd l ++ drop (i + length l) sizes, rest).
Proof.
  revert i lbas sizes. induction l as [|[a b] l IH]; intros i lbas sizes Hl Hi Hj.
  - simpl. by rewrite !Nat.add_0_r, !take_drop.
  - apply Forall_cons in Hl as [[Ha Hb] Hl]. cbn [length decode_regions fold_left fst snd map] in *.
    rewrite fold_regions_app. unfold PutVarint64 at 1 2. rewrite app_nil_l, <-!app_assoc.
    rewrite get_v64 by done. obind. rewrite get_v64 by done. obind.
    rewrite IH by (rewrite ?length_insert; done || lia).
    assert (Hins : forall (x : Z) (k : list Z), (i + S (length l) <= length k)%nat ->
      take (S i) (<[i:=x]> k) = take i k ++ [x] /\
      drop (S i + length l) (<[i:=x]> k) = drop (i + S (length l)) k).
    { intros x k Hk. rewrite (take_S_r _ i x) by (apply list_lookup_insert_eq; lia).
      rewrite take_insert_ge, drop_insert_lt by lia. split; [done|]. f_equal. lia. }
    destruct (Hins a lbas) as [-> ->]; [lia|]. destruct (Hins b sizes) as [-> ->]; [lia|].
    by rewrite <-!app_assoc.
Qed.

(** The reused object: its arrays have eight slots. *)
Definition slots_ok (m : SSZoneMetaData) : Prop :=
  length (m_LN_lbas m) = 8%nat /\ length (m_LN_lba_region_sizes m) = 8%nat.

Lemma overlay_slots l m0 m : slots_ok m0 -> meta_ok m -> slots_ok (overlay l m0 m).
Proof.
  intros [H1 H2] []. unfold overlay, copy_definition, slots_ok. destruct (l =? 0); [done|].
  cbn [m_LN_lbas m_LN_lba_region_sizes]. unfold ztake, zdrop. rewrite !length_app, !length_take, !length_drop. lia.
Qed.

Lemma decode_regions_table m m0 rest :
  meta_ok m -> slots_ok m0 ->
  decode_regions (Z.to_nat (m_LN_lba_regions m)) 0 (put_regions [] m ++ rest)
    (m_LN_lbas m0) (m_LN_lba_region_sizes m0)
  = Some (ztake (m_LN_lba_regions m) (m_LN_lbas m) ++ zdrop (m_LN_lba_regions m) (m_LN_lbas m0),
          ztake (m_LN_lba_regions m) (m_LN_lba_region_sizes m) ++
          zdrop (m_LN_lba_regions m) (m_LN_lba_region_sizes m0), rest).
Proof.
  intros [_ _ _ _ Hr [Hl1 Hl2] [Hs1 Hs2] _ _ _ _] [Hm1 Hm2].
  unfold put_regions, ztake, zdrop. set (n := Z.to_nat _).
  set (l := take n (zip _ _)).
  assert (Hn : length l = n).
  { subst l. rewrite length_take, length_zip_with. lia. }
  assert (Hfst : map fst l = take n (m_LN_lbas m)).
  { subst l. change (map fst) with (fmap (M:=list) (A:=Z*Z) fst). rewrite fmap_take. f_equal. apply fst_zip. lia. }
  assert (Hsnd : map snd l = take n (m_LN_lba_region_sizes m)).
  { subst l. change (map snd) with (fmap (M:=list) (A:=Z*Z) snd). rewrite fmap_take. f_equal. apply snd_zip. lia. }
  assert (Hu : Forall (fun p => is_u64 (fst p) /\ is_u64 (snd p)) l).
  { subst l. apply Forall_take. apply Forall_forall. intros [a b] Hab. simpl.
    rewrite !Forall_forall in *. split; [apply Hl2|apply Hs2].
    - by apply elem_of_zip_l in Hab.
    - by apply elem_of_zip_r in Hab. }
  rewrite <-Hn at 1. rewrite decode_regions_spec by (done || lia).
  by rewrite Hfst, Hsnd, Hn.
Qed.

(** The entry of a table after its tag and level. *)
Lemma DecodeLevel_spec t l m m0 rest :
  level_ok l -> meta_ok m -> slots_ok m0 ->
  exists body, enc_table t l m = enc_tag t ++ EncodeFixed8 l ++ body /\
  DecodeLevel (body ++ rest) l m0 = Some (overlay l m0 m, rest).
Proof.
  intros Hl Hm Hs. eexists. split; [reflexivity|].
  unfold DecodeLevel, overlay, copy_definition. pose proof Hm as [].
  destruct (Z.eqb_spec l 0) as [->|Hne].
  - unfold DecodeL0, GetInternalKey. rewrite <-!app_assoc. rewrite get_v64 by done. obind. rewrite get_v64 by done. obind.
    rewrite GetFixed8_Put by done. obind. do 3 (rewrite get_v64 by done; obind).
    do 2 (rewrite get_slice by done; obind). done.
  - unfold DecodeLN, GetInternalKey. rewrite <-!app_assoc. rewrite get_v64 by done. obind.
    rewrite GetFixed8_Put by word. obind.
    rewrite (proj2 (Z.ltb_ge _ _)) by lia. rewrite decode_regions_table by done. obind.
    do 2 (rewrite get_v64 by done; obind). do 2 (rewrite get_slice by done; obind). done.
Qed.

Lemma decode_item_spec it e m0 rest :
  item_ok it -> slots_ok m0 ->
  exists t body, enc_item it = enc_tag t ++ body /\
  decode_item (tag_code t) e m0 (body ++ rest) =
    Some (fst (apply_item it (e, m0)), snd (apply_item it (e, m0)), rest) /\
  slots_ok (snd (apply_item it (e, m0))).
Proof.
  intros Hit Hs. destruct it as [s|n|n|l k|[a b]|l m|l m|s]; cbn [item_ok fst snd] in Hit;
    try destruct Hit as [H1 H2].
  6: destruct (DecodeLevel_spec kDeletedSSTable _ _ m0 rest H1 H2 Hs) as (body & Hb & Hd).
  7: destruct (DecodeLevel_spec kNewSSTable _ _ m0 rest H1 H2 Hs) as (body & Hb & Hd).
  6,7: eexists _, _; split; [exact Hb|]; split; [|by apply overlay_slots];
    unfold decode_item; cbn [tag_code Z.eqb Pos.eqb]; rewrite <-app_assoc, get_level by done; obind;
    rewrite Hd; done.
  all: eexists _, _; split; [reflexivity|]; split; [|done];
    unfold decode_item, GetInternalKey; cbn [tag_code Z.eqb Pos.eqb fst snd]; rewrite <-?app_assoc;
    rewrite ?get_level by done; obind; rewrite ?get_slice by done; obind;
    rewrite ?get_v64 by done; obind; rewrite ?get_v64 by done; obind; done.
Qed.

(** ** The whole edit is read back *)

Lemma decode_loop_items its fuel e m0 :
  Forall item_ok its -> slots_ok m0 -> (length its < fuel)%nat ->
  decode_loop fuel e m0 (concat (map enc_item its)) =
  Some (OK, fst (fold_left (fun st it => apply_item it st) its (e, m0))).
Proof.
  revert fuel e m0. induction its as [|it its IH]; intros fuel e m0 Hits Hs Hf;
    (destruct fuel as [|fuel]; [simpl in Hf; lia|]); cbn [decode_loop map concat fold_left].
  - done.
  - apply Forall_cons in Hits as [Hit Hits].
    destruct (decode_item_spec it e m0 (concat (map enc_item its)) Hit Hs) as (t & body & -> & Hd & Hs').
    rewrite <-app_assoc, get_tag. cbv iota beta. rewrite Hd. cbv iota beta.
    rewrite IH by (done || (simpl in Hf; lia)). by destruct (apply_item it (e, m0)).
Qed.

Lemma enc_item_length it : (0 < length (enc_item it))%nat.
Proof.
  assert (Ht : forall t, (0 < length (enc_tag t))%nat) by (intros []; vm_compute; lia).
  destruct it; cbn [enc_item]; unfold enc_table; rewrite length_app;
    match goal with |- context [enc_tag ?t] => pose proof (Ht t); lia end.
Qed.

Lemma concat_enc_length its : (length its <= length (concat (map enc_item its)))%nat.
Proof.
  induction its as [|it its IH]; simpl; [done|]. rewrite length_app. pose proof (enc_item_length it). lia.
Qed.

Lemma DecodeFrom_EncodeTo e e0 m0 :
  edit_ok e -> slots_ok m0 ->
  DecodeFrom m0 e0 (EncodeTo e []) =
  Some (OK, fst (fold_left (fun st it => apply_item it st) (items e) (e0, m0))).
Proof.
  intros He Hs. unfold DecodeFrom. rewrite EncodeTo_items, fold_put_item, app_nil_l.
  apply decode_loop_items; [by apply items_ok|done|]. pose proof (concat_enc_length (items e)). lia.
Qed.

(** What a table's entry keeps: the fields its level uses. *)
Definition meta_view (l : Z) (m : SSZoneMetaData) :=
  (m_number m,
   if l =? 0 then ([m_L0_lba m; m_L0_log_number m; m_L0_number m], [])
   else (ztake (m_LN_lba_regions m) (m_LN_lbas m), ztake (m_LN_lba_regions m) (m_LN_lba_region_sizes m)),
   m_numbers m, m_lba_count m, (m_smallest m, m_largest m)).

Definition table_view (lm : Z * SSZoneMetaData) := (fst lm, meta_view (fst lm) (snd lm)).

Lemma overlay_view l m0 m : meta_ok m -> meta_view l (overlay l m0 m) = meta_view l m.
Proof.
  intros []. unfold meta_view, overlay, copy_definition. destruct (l =? 0) eqn:El; [done|].
  cbn. unfold ztake, zdrop. by rewrite !take_app_length' by (rewrite length_take; lia).
Qed.

(** The decoded fields after a run of items: the two lists of tables grow by
    entries with the same view, in any state of the reused object. *)
Lemma apply_deleted its e m0 :
  Forall (fun lm => level_ok (fst lm) /\ meta_ok (snd lm)) its ->
  exists ds m1,
    fold_left (fun st it => apply_item it st) (map (fun lm => IDeleted (fst lm) (snd lm)) its) (e, m0)
    = (set_deleted_ss_pers e (ve_deleted_ss_pers e ++ ds), m1) /\
    map table_view ds = map table_view its.
Proof.
  revert e m0. induction its as [|[l m] its IH]; intros e m0 H.
  - exists [], m0. destruct e. cbn. by rewrite app_nil_r.
  - apply Forall_cons in H as [[Hl Hm] H]. cbn [map fold_left apply_item fst snd] in *.
    destruct (IH (AddDeletedSSTable e l (overlay l m0 m)) (overlay l m0 m) H) as (ds & m1 & -> & Hv).
    exists ((l, overlay l m0 m) :: ds), m1. split.
    + destruct e. unfold AddDeletedSSTable, set_deleted_ss_pers. cbn. by rewrite <-app_assoc.
    + cbn [map]. rewrite Hv. unfold table_view at 1 3. cbn [fst snd]. by rewrite overlay_view.
Qed.

Lemma apply_new its e m0 :
  Forall (fun lm => level_ok (fst lm) /\ meta_ok (snd lm)) its ->
  exists ds m1,
    fold_left (fun st it => apply_item it st) (map (fun lm => INew (fst lm) (snd lm)) its) (e, m0)
    = (set_new_ss e (ve_new_ss e ++ ds), m1) /\
    map table_view ds = map table_view its.
Proof.
  revert e m0. induction its as [|[l m] its IH]; intros e m0 H.
  - exists [], m0. destruct e. cbn. by rewrite app_nil_r.
  - apply Forall_cons in H as [[Hl Hm] H]. cbn [map fold_left apply_item fst snd] in *.
    destruct (IH (set_new_ss e (ve_new_ss e ++ [(l, overlay l m0 m)])) (overlay l m0 m) H) as (ds & m1 & -> & Hv).
    exists ((l, overlay l m0 m) :: ds), m1. split.
    + destruct e. unfold set_new_ss. cbn. by rewrite <-app_assoc.
    + cbn [map]. rewrite Hv. unfold table_view at 1 3. cbn [fst snd]. by rewrite overlay_view.
Qed.

Lemma apply_pointers ps e m0 :
  fold_left (fun st it => apply_item it st) (map (fun lk => ICompactPointer (fst lk) (snd lk)) ps) (e, m0)
  = (mkEdit (ve_new_ss e) (ve_deleted_ss e) (ve_fragmented_data e) (ve_has_fragmented_data e) (ve_deleted_range e)
    (ve_has_deleted_range e) (ve_deleted_ss_pers e) (ve_compact_pointers e ++ ps) (ve_last_sequence e)
    (ve_has_last_sequence e) (ve_comparator e) (ve_has_comparator e) (ve_ss_number e) (ve_has_next_ss_number e), m0).
Proof.
  revert e. induction ps as [|[l k] ps IH]; intros e; cbn [map fold_left fst snd].
  - destruct e. cbn. by rewrite app_nil_r.
  - cbn [apply_item]. rewrite IH. destruct e. unfold SetCompactPointer. cbn. by rewrite <-app_assoc.
Qed.

(** The scalar part of an edit: a field counts only with its flag. *)
Definition scalars (e : TropoVersionEdit) :=
  (if ve_has_comparator e then Some (ve_comparator e) else None,
   if ve_has_last_sequence e then Some (ve_last_sequence e) else None,
   if ve_has_next_ss_number e then Some (ve_ss_number e) else None,
   if ve_has_deleted_range e then Some (ve_deleted_range e) else None,
   if ve_has_fragmented_data e then Some (ve_fragmented_data e) else None).

(** ** Termination: no read lengthens the input *)

Definition shrinks {A} (f : bytes -> option (A * bytes)) : Prop :=
  forall l x rest, f l = Some (x, rest) -> (length rest <= length l)%nat.

Lemma shrinks_v64 : shrinks GetVarint64.
Proof. intros l v rest (_ & pre & -> & _)%GetVarint64_consumes. rewrite length_app. lia. Qed.

Lemma shrinks_f8 : shrinks GetFixed8.
Proof. intros l v rest. unfold GetFixed8. case_match; [done|]. intros. simplify_option_eq. unfold zdrop. rewrite length_drop. lia. Qed.

Lemma shrinks_slice : shrinks GetLengthPrefixedSlice.
Proof.
  intros l v rest H. unfold GetLengthPrefixedSlice in H. apply bind_Some in H as ([len r] & Hl & H).
  apply GetVarint32_consumes in Hl as (_ & pre & -> & _). case_match; [|done].
  injection H as <- <-. unfold zdrop. rewrite length_app, length_drop. lia.
Qed.

Lemma shrinks_level : shrinks GetLevel.
Proof.
  intros l v rest H. unfold GetLevel in H. apply bind_Some in H as ([x r] & Hl & H).
  case_match; [|done]. injection H as <- <-. by eapply shrinks_f8.
Qed.

(** Take apart one successful read after another. *)
Ltac reads :=
  repeat match goal with
  | H : mbind _ _ = Some _ |- _ =>
      let x := fresh "x" in let r := fresh "r" in let Hr := fresh "Hr" in
      apply bind_Some in H as ([x r] & Hr & H); cbv beta iota in H
  | H : Some _ = Some _ |- _ => injection H as <- <-
  end.

Lemma decode_regions_shrinks n i l lbas sizes x rest :
  decode_regions n i l lbas sizes = Some (x, rest) -> (length rest <= length l)%nat.
Proof.
  revert i l lbas sizes. induction n as [|n IH]; intros i l lbas sizes H; cbn [decode_regions] in H.
  - by injection H as <- <-.
  - reads. apply IH in H. apply shrinks_v64 in Hr, Hr0. lia.
Qed.

Lemma shrinks_table level m : shrinks (fun l => DecodeLevel l level m).
Proof.
  intros l x rest H. unfold DecodeLevel, DecodeL0, DecodeLN, GetInternalKey in H. case_match; reads.
  - apply shrinks_v64 in Hr, Hr0, Hr2, Hr3, Hr4. apply shrinks_f8 in Hr1. apply shrinks_slice in Hr5, Hr6. lia.
  - case_match; [done|]. apply bind_Some in H as ([[lb sz] r1] & Hreg & H). reads.
    apply decode_regions_shrinks in Hreg. apply shrinks_v64 in Hr, Hr1, Hr2. apply shrinks_f8 in Hr0.
    apply shrinks_slice in Hr3, Hr4. lia.
Qed.

Lemma decode_item_shrinks tag e m : shrinks (decode_item tag e m).
Proof.
  intros l x rest H. unfold decode_item, GetInternalKey in H.
  repeat case_match; try done; reads;
    repeat match goal with
    | H : DecodeLevel _ _ _ = _ |- _ => apply (shrinks_table _ _ _) in H
    | H : GetLevel _ = _ |- _ => apply shrinks_level in H
    | H : GetVarint64 _ = _ |- _ => apply shrinks_v64 in H
    | H : GetLengthPrefixedSlice _ = _ |- _ => apply shrinks_slice in H
    end; lia.
Qed.

Lemma decode_loop_total fuel e m l :
  (length l < fuel)%nat -> exists st e', decode_loop fuel e m l = Some (st, e') /\ (st = OK \/ st = Corruption).
Proof.
  revert e m l. induction fuel as [|fuel IH]; intros e m l Hf; [lia|]. cbn [decode_loop].
  destruct (GetVarint32 l) as [[tag r]|] eqn:Ht.
  2: { eexists _, _; split; [done|]. case_bool_decide; auto. }
  apply GetVarint32_consumes in Ht as (_ & pre & -> & Hpre).
  destruct (decode_item tag e m r) as [[[e1 m1] r1]|] eqn:Hd.
  - apply IH. apply decode_item_shrinks in Hd. rewrite length_app in Hf. unfold blen in Hpre. lia.
  - eexists _, _. split; [done|]. auto.
Qed.

Lemma version_edit_decoded e m0 :
  edit_ok e -> slots_ok m0 ->
  exists e', DecodeFrom m0 newEdit (EncodeTo e []) = Some (OK, e') /\
    scalars e' = scalars e /\
    ve_compact_pointers e' = ve_compact_pointers e /\
    map table_view (ve_deleted_ss_pers e') = map table_view (ve_deleted_ss_pers e) /\
    map table_view (ve_new_ss e') = map table_view (live_new e) /\
    ve_deleted_ss e' = ∅.
Proof.
  intros He Hs. rewrite DecodeFrom_EncodeTo by done. eexists. split; [reflexivity|].
  assert (Hnew : Forall (fun lm => level_ok (fst lm) /\ meta_ok (snd lm)) (live_new e)).
  { apply Forall_forall. intros x [_ Hx]%list_elem_of_filter.
    exact (proj1 (Forall_forall _ _) (eo_new _ He) x Hx). }
  unfold items. rewrite !fold_left_app.
  match goal with |- context [fold_left _ (map (fun lk => ICompactPointer _ _) _) ?st] =>
    assert (exists e1, st = (e1, m0) /\ ve_compact_pointers e1 = [] /\ ve_deleted_ss_pers e1 = [] /\
      ve_new_ss e1 = [] /\ ve_deleted_ss e1 = ∅ /\
      scalars e1 = (if ve_has_comparator e then Some (ve_comparator e) else None,
        if ve_has_last_sequence e then Some (ve_last_sequence e) else None,
        if ve_has_next_ss_number e then Some (ve_ss_number e) else None, None, None))
      as (e1 & -> & Hcp & Hdel & Hnw & Hds & Hsc)
  end.
  { destruct (ve_has_comparator e), (ve_has_last_sequence e), (ve_has_next_ss_number e);
      eexists; repeat split. }
  rewrite apply_pointers. rewrite Hcp, app_nil_l.
  destruct (ve_has_deleted_range e) eqn:Edr; cbn [fold_left apply_item];
    (edestruct apply_deleted as (ds & m1 & -> & Hdv); [apply (eo_deleted _ He)|]);
    (edestruct apply_new as (ns & m2 & -> & Hnv); [exact Hnew|]);
    unfold scalars in *; rewrite Edr;
    destruct (ve_has_fragmented_data e); cbn in *; rewrite ?Hdel, ?Hnw in *; cbn in *;
    repeat split; simplify_eq; try done; congruence.
Qed.

(** ** Properties *)

(** C27: an edit that is written to the manifest and read back into a cleared
    edit decodes without error to the same changes: the same scalar fields, the
    same compaction pointers, the same deleted tables and the same new tables in
    the same order, except for the new tables that the edit itself deletes,
    which are dropped; the in-memory set of deleted tables is not persisted.
    This holds although the metadata object is shared between the entries. *)
Theorem version_edit_roundtrip e m0 :
  edit_ok e -> slots_ok m0 ->
  exists e', DecodeFrom m0 newEdit (EncodeTo e []) = Some (OK, e') /\
    scalars e' = scalars e /\
    ve_compact_pointers e' = ve_compact_pointers e /\
    map table_view (ve_deleted_ss_pers e') = map table_view (ve_deleted_ss_pers e) /\
    map table_view (ve_new_ss e') = map table_view (live_new e) /\
    ve_deleted_ss e' = ∅.
Proof. apply version_edit_decoded. Qed.

(** The metadata of a table of level 1 with two regions, of one of level 0, and
    the object that is reused. *)
Definition wit_ln : SSZoneMetaData :=
  mkMeta 0 0 7 0 0 0 2 [100; 300; 0; 0; 0; 0; 0; 0] [10; 20; 0; 0; 0; 0; 0; 0] 12 30 [z2b 1; z2b 2] [z2b 9].
Definition wit_l0 : SSZoneMetaData :=
  mkMeta 0 0 8 4096 1 3 0 (repeat 0 8) (repeat 0 8) 5 2 [z2b 3] [z2b 4].
Definition wit_m0 : SSZoneMetaData := newSSZoneMetaData 99 (repeat 55 8) (repeat 66 8).

Definition wit_edit : TropoVersionEdit :=
  RemoveSSDefinition
    (AddSSDefinition wit_m0 (AddSSDefinition wit_m0
      (SetLastSequence (SetComparatorName newEdit [z2b 65]) 300) 1 wit_ln) 0 wit_l0) 0 wit_l0.

Lemma version_edit_roundtrip_witness :
  exists e', DecodeFrom wit_m0 newEdit (EncodeTo wit_edit []) = Some (OK, e') /\
    length (ve_new_ss e') = 1%nat /\ length (ve_deleted_ss_pers e') = 1%nat.
Proof.
  destruct (version_edit_roundtrip wit_edit wit_m0) as (e' & H & _ & _ & H1 & H2 & _).
  - constructor; try done; repeat constructor; done.
  - done.
  - exists e'. split; [exact H|]. apply (f_equal length) in H1, H2. rewrite !length_map in H1, H2.
    rewrite H1, H2. done.
Defined.

(** Decoding an edit terminates on every input, however corrupted, with
    either success or a corruption error: the fuel of the loop, one round more
    than the input has bytes, always suffices. *)
Theorem version_edit_decode_total m0 e src :
  exists st e', DecodeFrom m0 e src = Some (st, e') /\ (st = OK \/ st = Corruption).
Proof. apply decode_loop_total. lia. Qed.
