(* ===== verification/Version.v ===== *)
(** * Version: the index of the tables and the lookup of a key

    [index/tropodb_version.h], [index/tropodb_version.cc] and the search of
    [table/tropodb_sstable_manager.cc]: the tables of each level, the tables a
    key range overlaps, and [TropoVersion::Get] over the table cache, whose
    promise is the class [TableCacheLaws]. *)

From S2P Require Import Prelude Coding DbFormat Config SSTable SSTableIter.

(** ** State *)

(** [EntryStatus], table/tropodb_sstable.h:17-17 *)
Inductive EntryStatus := found | deleted | notfound.

(** [TropoVersion], index/tropodb_version.h:71-83.  [std::array]s over the levels
    are lists of [level_count] entries; the links to the version set and to the
    other versions are in the version set's model, and the reference counts,
    which decide when memory is freed, are left out. *)
Record TropoVersion := mkVersion {
  v_ss : list (list SSZoneMetaData);
  v_ss_d : list (list SSZoneMetaData);
  v_ss_deleted_range : Z * Z
}.

(** The tables of a level. *)
Definition level_tables (arr : list (list SSZoneMetaData)) (level : Z) : list SSZoneMetaData :=
  default [] (arr !! Z.to_nat level).

Definition smallest_user_key (m : SSZoneMetaData) : bytes := ExtractUserKey (m_smallest m).
Definition largest_user_key (m : SSZoneMetaData) : bytes := ExtractUserKey (m_largest m).

Section Version.
Context `{UserComparator}.

(** ** Search in a level *)

(** The binary search of [FindSSTableIndex]. *)
Fixpoint find_index (fuel : nat) (ss : list SSZoneMetaData) (ukey : bytes) (left right : nat) : option nat :=
  match fuel with
  | O => None
  | S fuel =>
      if (left <? right)%nat then
        let mid := ((left + right) / 2)%nat in
        m ← ss !! mid;
        match Compare (largest_user_key m) ukey with
        | Lt => find_index fuel ss ukey (mid + 1) right
        | _ => find_index fuel ss ukey left mid
        end
      else Some right
  end.

(** [TropoSSTableManager::FindSSTableIndex], table/tropodb_sstable_manager.cc:385-401 *)
Definition FindSSTableIndex (ss : list SSZoneMetaData) (key : bytes) : option nat :=
  find_index (S (length ss)) ss (ExtractUserKey key) 0 (length ss).

(** ** Overlapping tables *)

Definition cmp_is (c d : comparison) : bool := bool_decide (c = d).

(** The tests of [GetOverlappingInputs]; no bound is a null pointer. *)
Definition before_begin (b : option bytes) (m : SSZoneMetaData) : bool :=
  match b with Some b => cmp_is (Compare (largest_user_key m) b) Lt | None => false end.
Definition after_end (e : option bytes) (m : SSZoneMetaData) : bool :=
  match e with Some e => cmp_is (Compare (smallest_user_key m) e) Gt | None => false end.
Definition extends_begin (b : option bytes) (m : SSZoneMetaData) : bool :=
  match b with Some b => cmp_is (Compare (smallest_user_key m) b) Lt | None => false end.
Definition extends_end (e : option bytes) (m : SSZoneMetaData) : bool :=
  match e with Some e => cmp_is (Compare (largest_user_key m) e) Gt | None => false end.

(** The loop of [GetOverlappingInputs]; on level 0 a table that widens the range
    restarts the search. *)
Fixpoint overlap_loop (fuel : nat) (level : Z) (ss : list SSZoneMetaData) (i : nat)
    (user_begin user_end : option bytes) (inputs : list SSZoneMetaData) : option (list SSZoneMetaData) :=
  match fuel with
  | O => None
  | S fuel =>
      match ss !! i with
      | None => Some inputs
      | Some m =>
          let i := S i in
          if before_begin user_begin m then overlap_loop fuel level ss i user_begin user_end inputs
          else if after_end user_end m then overlap_loop fuel level ss i user_begin user_end inputs
          else
            let inputs := inputs ++ [m] in
            if level =? 0 then
              if extends_begin user_begin m then
                overlap_loop fuel level ss 0 (Some (smallest_user_key m)) user_end []
              else if extends_end user_end m then
                overlap_loop fuel level ss 0 user_begin (Some (largest_user_key m)) []
              else overlap_loop fuel level ss i user_begin user_end inputs
            else overlap_loop fuel level ss i user_begin user_end inputs
      end
  end.

(** [TropoVersion::GetOverlappingInputs], index/tropodb_version.cc:151-193.
    Each restart moves one bound over a table, so there are at most two restarts
    per table. *)
Definition GetOverlappingInputs (v : TropoVersion) (level : Z) (begin_ end_ : option bytes)
    : option (list SSZoneMetaData) :=
  if (0 <=? level) && (level <? level_count) then
    let ss := level_tables (v_ss v) level in
    overlap_loop (S ((2 * length ss + 1) * S (length ss))) level ss 0
      (ExtractUserKey <$> begin_) (ExtractUserKey <$> end_) []
  else None.

(** ** Lookup *)

(** What [TropoVersion::Get] calls of the table cache: the new cache, the
    status, the value string and the entry's status; [None] is a crash. *)
Class TableCache (St : Type) :=
  tc_Get : St -> SSZoneMetaData -> Z -> bytes -> bytes -> option (St * Status * bytes * EntryStatus).

(** The comparison that sorts the tables of level 0 by recency. *)
Definition recency_cmp (a b : SSZoneMetaData) : comparison :=
  cmp_lex (Z.compare (m_L0_number b) (m_L0_number a)) (Z.compare (m_number b) (m_number a)).

(** [key] is in the range of the table. *)
Definition in_range (key : bytes) (m : SSZoneMetaData) : bool :=
  negb (cmp_is (Compare key (smallest_user_key m)) Lt) &&
  negb (cmp_is (Compare key (largest_user_key m)) Gt).

(** The tables of level 0 to search, newest first.  [std::sort] is any sort;
    the numbers of the tables are distinct, so the order is determined. *)
Definition l0_candidates (ss : list SSZoneMetaData) (key : bytes) : list SSZoneMetaData :=
  merge_sort (cle recency_cmp) (filter (fun m => in_range key m) (reverse ss)).

Section Get.
Context {St : Type} `{!TableCache St}.

(** One table: the answer, if the search ends here. *)
Definition probe (c : St) (level : Z) (m : SSZoneMetaData) (ikey value : bytes)
    : option (St * bytes * option Status) :=
  '(c, st, value, es) ← tc_Get c m level ikey value;
  Some (c, value,
   if ok st then
     match es with notfound => None | found => Some st | deleted => Some NotFound end
   else None).

Fixpoint get_l0 (c : St) (tmp : list SSZoneMetaData) (ikey value : bytes) : option (St * bytes * option Status) :=
  match tmp with
  | [] => Some (c, value, None)
  | m :: tmp =>
      '(c, value, r) ← probe c 0 m ikey value;
      match r with Some _ => Some (c, value, r) | None => get_l0 c tmp ikey value end
  end.

(** The table of a level above 0 that may hold the key. *)
Definition ln_candidate (ss : list SSZoneMetaData) (ikey key : bytes) : option SSZoneMetaData :=
  if (length ss =? 0)%nat then None
  else
    index ← FindSSTableIndex ss ikey;
    if (length ss <=? index)%nat then None
    else m ← ss !! index; if in_range key m then Some m else None.

Fixpoint get_ln (c : St) (levels : list (Z * list SSZoneMetaData)) (ikey key value : bytes)
    : option (St * bytes * option Status) :=
  match levels with
  | [] => Some (c, value, None)
  | (level, ss) :: levels =>
      match ln_candidate ss ikey key with
      | None => get_ln c levels ikey key value
      | Some m =>
          '(c, value, r) ← probe c level m ikey value;
          match r with Some _ => Some (c, value, r) | None => get_ln c levels ikey key value end
      end
  end.

(** The levels from 1 on, with their tables. *)
Definition upper_levels (v : TropoVersion) : list (Z * list SSZoneMetaData) :=
  map (fun l => (l, level_tables (v_ss v) l)) (seqZ 1 (level_count - 1)).

(** [TropoVersion::Get], index/tropodb_version.cc:49-143 *)
Definition Get (c : St) (v : TropoVersion) (lkey : LookupKey) (value : bytes) : option (St * Status * bytes) :=
  let key := lookup_user_key lkey in
  let ikey := internal_key lkey in
  '(c, value, r) ← get_l0 c (l0_candidates (level_tables (v_ss v) 0) key) ikey value;
  match r with
  | Some st => Some (c, st, value)
  | None =>
      '(c, value, r) ← get_ln c (upper_levels v) ikey key value;
      match r with Some st => Some (c, st, value) | None => Some (c, NotFound, value) end
  end.
End Get.

(** ** The search finds the first table that does not end before the key *)

Definition sorted_largest (ss : list SSZoneMetaData) : Prop :=
  forall i j a b, (i <= j)%nat -> ss !! i = Some a -> ss !! j = Some b ->
    cle Compare (largest_user_key a) (largest_user_key b).

Lemma find_index_spec fuel ss u left right :
  sorted_largest ss -> (left <= right <= length ss)%nat -> (right - left < fuel)%nat ->
  (forall j m, (j < left)%nat -> ss !! j = Some m -> clt Compare (largest_user_key m) u) ->
  (forall j m, (right <= j)%nat -> ss !! j = Some m -> cle Compare u (largest_user_key m)) ->
  exists i, find_index fuel ss u left right = Some i /\ (i <= length ss)%nat /\
    (forall j m, (j < i)%nat -> ss !! j = Some m -> clt Compare (largest_user_key m) u) /\
    (forall j m, (i <= j)%nat -> ss !! j = Some m -> cle Compare u (largest_user_key m)).
Proof.
  intros Hs. revert left right. induction fuel as [|fuel IH]; intros left right Hlr Hf Hl Hr; [lia|].
  cbn [find_index]. destruct (Nat.ltb_spec left right) as [Hlt|Hge].
  2: { exists right. assert (left = right) by lia. subst. eauto with lia. }
  set (mid := ((left + right) / 2)%nat).
  assert (Hmid : (left <= mid < right)%nat).
  { subst mid. split; [apply Nat.div_le_lower_bound; lia|apply Nat.Div0.div_lt_upper_bound; lia]. }
  destruct (lookup_lt_is_Some_2 ss mid ltac:(lia)) as [m Hm]. rewrite Hm. obind.
  destruct (Compare (largest_user_key m) u) eqn:E; (apply IH; [lia|lia| |]); try done.
  1,3: intros j a Hj Ha; trans (largest_user_key m); [|by apply (Hs mid j)];
    rewrite <-(nclt_le Compare); unfold clt; congruence.
  intros j a Hj Ha. apply (cle_lt_trans Compare _ (largest_user_key m)); [|done]. apply (Hs j mid); [lia|done..].
Qed.

Lemma FindSSTableIndex_spec ss key :
  sorted_largest ss ->
  exists i, FindSSTableIndex ss key = Some i /\ (i <= length ss)%nat /\
    (forall j m, (j < i)%nat -> ss !! j = Some m -> clt Compare (largest_user_key m) (ExtractUserKey key)) /\
    (forall j m, (i <= j)%nat -> ss !! j = Some m -> cle Compare (ExtractUserKey key) (largest_user_key m)).
Proof.
  intros Hs. apply find_index_spec; [done|lia|lia|lia|].
  intros j m Hj Hm. apply lookup_lt_Some in Hm. lia.
Qed.

(** ** The overlapping tables *)

Definition overlaps (b e : option bytes) (m : SSZoneMetaData) : Prop :=
  before_begin b m = false /\ after_end e m = false.

#[local] Instance overlaps_dec b e m : Decision (overlaps b e m).
Proof. unfold overlaps. solve_decision. Defined.

(** The tables that a bound still has to move over. *)
Definition measure (ss : list SSZoneMetaData) (b e : option bytes) : nat :=
  length (filter (fun m => extends_begin b m) ss) + length (filter (fun m => extends_end e m) ss).

(** [m] is inside the bounds. *)
Definition inside (b e : option bytes) (m : SSZoneMetaData) : Prop :=
  extends_begin b m = false /\ extends_end e m = false.

(** [b] is a wider lower bound than [b0], [e] a wider upper bound than [e0]. *)
Definition wider_begin (b b0 : option bytes) : Prop :=
  match b, b0 with Some b, Some b0 => cle Compare b b0 | None, None => True | _, _ => False end.
Definition wider_end (e e0 : option bytes) : Prop :=
  match e, e0 with Some e, Some e0 => cle Compare e0 e | None, None => True | _, _ => False end.

Lemma cmp_is_false c d : cmp_is c d = false <-> c <> d.
Proof. unfold cmp_is. by rewrite bool_decide_eq_false. Qed.
Lemma cmp_is_true c d : cmp_is c d = true <-> c = d.
Proof. unfold cmp_is. by rewrite bool_decide_eq_true. Qed.

Lemma filter_length_lt {A} (P Q : A -> Prop) `{forall x, Decision (P x)} `{forall x, Decision (Q x)} (l : list A) x :
  (forall y, P y -> Q y) -> x ∈ l -> Q x -> ~ P x ->
  (length (filter P l) < length (filter Q l))%nat.
Proof.
  intros HPQ Hx HQ HP. induction l as [|a l IH]; [by apply elem_of_nil in Hx|].
  assert (Hle : (length (filter P l) <= length (filter Q l))%nat).
  { clear -HPQ. induction l as [|a l IH]; [done|]. rewrite !filter_cons.
    destruct (decide (P a)), (decide (Q a)); simpl; try lia. naive_solver. }
  rewrite !filter_cons. apply elem_of_cons in Hx as [<-|Hx].
  - rewrite decide_False, decide_True by done. simpl. lia.
  - specialize (IH Hx). destruct (decide (P a)), (decide (Q a)); simpl; try lia. naive_solver.
Qed.

Lemma extend_begin_wider b m : extends_begin b m = true -> wider_begin (Some (smallest_user_key m)) b.
Proof. destruct b as [b|]; simpl; [|done]. rewrite cmp_is_true. intros E. by apply (clt_le Compare). Qed.
Lemma extend_end_wider e m : extends_end e m = true -> wider_end (Some (largest_user_key m)) e.
Proof. destruct e as [e|]; simpl; [|done]. rewrite cmp_is_true, (cmp_gt_lt Compare). intros E. by apply (clt_le Compare). Qed.

Lemma measure_begin ss b e m :
  m ∈ ss -> extends_begin b m = true -> (measure ss (Some (smallest_user_key m)) e < measure ss b e)%nat.
Proof.
  intros Hm Hb. unfold measure. apply Nat.add_lt_mono_r. apply (filter_length_lt _ _ _ m); [|done|by apply Is_true_true|].
  - intros y. rewrite !Is_true_true. destruct b as [b|]; [|done]. simpl in *.
    rewrite !cmp_is_true in *. intros Hy. by eapply (clt_trans Compare).
  - rewrite Is_true_true. simpl. rewrite cmp_is_true. apply (clt_irrefl Compare).
Qed.
Lemma measure_end ss b e m :
  m ∈ ss -> extends_end e m = true -> (measure ss b (Some (largest_user_key m)) < measure ss b e)%nat.
Proof.
  intros Hm He. unfold measure. apply Nat.add_lt_mono_l. apply (filter_length_lt _ _ _ m); [|done|by apply Is_true_true|].
  - intros y. rewrite !Is_true_true. destruct e as [e|]; [|done]. simpl in *.
    rewrite !cmp_is_true, !(cmp_gt_lt Compare) in *. intros Hy. by eapply (clt_trans Compare).
  - rewrite Is_true_true. simpl. rewrite cmp_is_true, (cmp_gt_lt Compare). apply (clt_irrefl Compare).
Qed.

Lemma wider_begin_trans a b c : wider_begin a b -> wider_begin b c -> wider_begin a c.
Proof. destruct a, b, c; simpl; try done. apply (cmp_trans (cmp:=Compare)). Qed.
Lemma wider_end_trans a b c : wider_end a b -> wider_end b c -> wider_end a c.
Proof. destruct a, b, c; simpl; try done. intros ? ?. by eapply (cmp_trans (cmp:=Compare)). Qed.

Lemma filter_overlaps_snoc b e ss i m :
  ss !! i = Some m ->
  filter (overlaps b e) (take (S i) ss) =
  filter (overlaps b e) (take i ss) ++ (if decide (overlaps b e m) then [m] else []).
Proof. intros Hm. by rewrite (take_S_r _ _ m), filter_app, filter_cons, filter_nil. Qed.

Lemma overlap_loop_spec fuel level ss i b e inputs b0 e0 :
  (measure ss b e * S (length ss) + (length ss - i) < fuel)%nat -> (i <= length ss)%nat ->
  wider_begin b b0 -> wider_end e e0 ->
  inputs = filter (overlaps b e) (take i ss) -> (level = 0 -> Forall (inside b e) inputs) ->
  exists res b' e', overlap_loop fuel level ss i b e inputs = Some res /\
    wider_begin b' b0 /\ wider_end e' e0 /\ res = filter (overlaps b' e') ss /\
    (level = 0 -> Forall (inside b' e') res) /\ (level <> 0 -> b' = b /\ e' = e).
Proof.
  revert i b e inputs. induction fuel as [|fuel IH]; intros i b e inputs Hf Hi Hb He Hin Hlv; [lia|].
  cbn [overlap_loop]. destruct (ss !! i) as [m|] eqn:Hm.
  2: { apply lookup_ge_None in Hm. exists inputs, b, e. rewrite take_ge in Hin by lia. naive_solver. }
  pose proof (lookup_lt_Some _ _ _ Hm) as Hlt. pose proof (list_elem_of_lookup_2 _ _ _ Hm) as Hel.
  assert (Hskip : ~ overlaps b e m -> inputs = filter (overlaps b e) (take (S i) ss)).
  { intros Hno. rewrite (filter_overlaps_snoc _ _ _ _ m Hm), decide_False, app_nil_r; done. }
  destruct (before_begin b m) eqn:Ebb; [apply IH; [lia|lia|done|done|apply Hskip; unfold overlaps; intros [? ?]; congruence|done]|].
  destruct (after_end e m) eqn:Eae; [apply IH; [lia|lia|done|done|apply Hskip; unfold overlaps; intros [? ?]; congruence|done]|].
  assert (Htake : inputs ++ [m] = filter (overlaps b e) (take (S i) ss)).
  { by rewrite (filter_overlaps_snoc _ _ _ _ m Hm), decide_True, Hin by (by split). }
  destruct (Z.eqb_spec level 0) as [->|Hl0].
  2: { apply IH; [lia|lia|done..]. }
  destruct (extends_begin b m) eqn:Eb.
  { pose proof (measure_begin ss b e m Hel Eb). pose proof (extend_begin_wider _ _ Eb).
    destruct (IH 0%nat (Some (smallest_user_key m)) e []) as (res & b' & e' & ? & ? & ? & ? & ? & _);
      [nia|lia|by eapply wider_begin_trans|done..|]. exists res, b', e'. done. }
  destruct (extends_end e m) eqn:Ee.
  { pose proof (measure_end ss b e m Hel Ee). pose proof (extend_end_wider _ _ Ee).
    destruct (IH 0%nat b (Some (largest_user_key m)) []) as (res & b' & e' & ? & ? & ? & ? & ? & _);
      [nia|lia|done|by eapply wider_end_trans|done..|]. exists res, b', e'. done. }
  apply IH; [lia|lia|done..|]. intros _. apply Forall_app. split; [by apply Hlv|]. by apply Forall_singleton.
Qed.

Lemma measure_bound ss b e : (measure ss b e <= 2 * length ss)%nat.
Proof.
  unfold measure. pose proof (length_filter (fun m => extends_begin b m) ss).
  pose proof (length_filter (fun m => extends_end e m) ss). lia.
Qed.

Lemma GetOverlappingInputs_spec v level b e :
  0 <= level < level_count ->
  exists res b' e', GetOverlappingInputs v level b e = Some res /\
    wider_begin b' (ExtractUserKey <$> b) /\ wider_end e' (ExtractUserKey <$> e) /\
    res = filter (overlaps b' e') (level_tables (v_ss v) level) /\
    (level = 0 -> Forall (inside b' e') res) /\
    (level <> 0 -> b' = ExtractUserKey <$> b /\ e' = ExtractUserKey <$> e).
Proof.
  intros Hl. unfold GetOverlappingInputs. rewrite (proj2 (Z.leb_le _ _)), (proj2 (Z.ltb_lt _ _)) by lia.
  cbn [andb]. apply overlap_loop_spec; try done; [|lia|by destruct b; simpl; [apply (cle_refl Compare)|]|
    by destruct e; simpl; [apply (cle_refl Compare)|]].
  match goal with |- context [measure ?ss ?b ?e] => pose proof (measure_bound ss b e) end. nia.
Qed.

Lemma overlaps_iff b e m :
  overlaps (Some b) (Some e) m <-> cle Compare b (largest_user_key m) /\ cle Compare (smallest_user_key m) e.
Proof.
  unfold overlaps, before_begin, after_end. rewrite !cmp_is_false. by rewrite <-(nclt_le Compare).
Qed.
Lemma inside_iff b e m :
  inside (Some b) (Some e) m <-> cle Compare b (smallest_user_key m) /\ cle Compare (largest_user_key m) e.
Proof.
  unfold inside, extends_begin, extends_end. rewrite !cmp_is_false. by rewrite <-(nclt_le Compare).
Qed.

(** The user-key ranges of two tables have a key in common. *)
Definition tables_touch (m m' : SSZoneMetaData) : Prop :=
  cle Compare (smallest_user_key m) (largest_user_key m') /\
  cle Compare (smallest_user_key m') (largest_user_key m).

Lemma GetOverlappingInputs_closed v level b e :
  0 <= level < level_count ->
  exists res, GetOverlappingInputs v level (Some b) (Some e) = Some res /\
    res `sublist_of` level_tables (v_ss v) level /\
    (forall m, m ∈ level_tables (v_ss v) level ->
       cle Compare (ExtractUserKey b) (largest_user_key m) ->
       cle Compare (smallest_user_key m) (ExtractUserKey e) -> m ∈ res) /\
    (level <> 0 -> forall m, m ∈ res ->
       cle Compare (ExtractUserKey b) (largest_user_key m) /\
       cle Compare (smallest_user_key m) (ExtractUserKey e)) /\
    (level = 0 -> forall m m', m ∈ res -> m' ∈ level_tables (v_ss v) level ->
       tables_touch m m' -> m' ∈ res).
Proof.
  intros Hl. destruct (GetOverlappingInputs_spec v level (Some b) (Some e) Hl)
    as (res & [b'|] & [e'|] & Hres & Hwb & Hwe & Hf & H0 & Hn); try done.
  exists res. split; [done|]. simpl in Hwb, Hwe. split_and!.
  - rewrite Hf. apply sublist_filter.
  - intros m Hm Hb He. rewrite Hf. apply list_elem_of_filter. split; [|done].
    apply overlaps_iff. split; [by trans (ExtractUserKey b)|by trans (ExtractUserKey e)].
  - intros Hne m. rewrite Hf. intros [Ho _]%list_elem_of_filter. destruct (Hn Hne) as [[= ->] [= ->]].
    by apply overlaps_iff in Ho.
  - intros Hz m m' Hm Hm' [H1 H2]. rewrite Hf. apply list_elem_of_filter. split; [|done].
    specialize (H0 Hz). rewrite Forall_forall in H0. apply H0, inside_iff in Hm as [? ?].
    apply overlaps_iff. split; [by trans (smallest_user_key m)|by trans (largest_user_key m)].
Qed.

(** [GetOverlappingInputs] terminates and returns tables of the level, all
    that overlap the range among them.  On a level above 0 it returns exactly
    those; on level 0 the result is closed: a table that overlaps a returned
    table is returned too. *)
Theorem overlapping_inputs_closed v level b e :
  0 <= level < level_count ->
  exists res, GetOverlappingInputs v level (Some b) (Some e) = Some res /\
    res `sublist_of` level_tables (v_ss v) level /\
    (forall m, m ∈ level_tables (v_ss v) level ->
       cle Compare (ExtractUserKey b) (largest_user_key m) ->
       cle Compare (smallest_user_key m) (ExtractUserKey e) -> m ∈ res) /\
    (level <> 0 -> forall m, m ∈ res ->
       cle Compare (ExtractUserKey b) (largest_user_key m) /\
       cle Compare (smallest_user_key m) (ExtractUserKey e)) /\
    (level = 0 -> forall m m', m ∈ res -> m' ∈ level_tables (v_ss v) level ->
       tables_touch m m' -> m' ∈ res).
Proof. apply GetOverlappingInputs_closed. Qed.

(** The binary search over the tables of a level terminates and returns
    the first table whose largest user key is not before the key, or the number
    of tables when there is none. *)
Theorem sstable_index_search ss key :
  sorted_largest ss ->
  exists i, FindSSTableIndex ss key = Some i /\ (i <= length ss)%nat /\
    (forall j m, (j < i)%nat -> ss !! j = Some m -> clt Compare (largest_user_key m) (ExtractUserKey key)) /\
    (forall j m, (i <= j)%nat -> ss !! j = Some m -> cle Compare (ExtractUserKey key) (largest_user_key m)).
Proof. apply FindSSTableIndex_spec. Qed.

(** ** Lookup against the contents of the tables *)

(** The first entry of a user key. *)
Definition table_lookup (kvs : list KV) (u : bytes) : option KV :=
  snd <$> list_find (fun kv => ukey kv = u) kvs.

(** How the cache reports the entry it finds. *)
Definition entry_answer (r : option KV) (value : bytes) : bytes * EntryStatus :=
  match r with
  | None => (value, notfound)
  | Some (k, v) =>
      match ParseInternalKey k with
      | None => (value, notfound)
      | Some p => if pik_type p =? kTypeDeletion then ([], deleted) else (v, found)
      end
  end.

(** The promise of the table cache to the version: a table that is on the
    device with the entries [kvs] answers as its entries do. *)
Class TableCacheLaws (St : Type) `{!TableCache St} := {
  tc_inv : St -> Prop;
  tc_table : St -> Z -> SSZoneMetaData -> list KV -> Prop;
  tc_Get_ok : forall c m level kvs ikey value,
    tc_inv c -> tc_table c level m kvs ->
    exists c', tc_inv c' /\ (forall l m' k, tc_table c l m' k -> tc_table c' l m' k) /\
      tc_Get c m level ikey value =
      Some (c', OK, fst (entry_answer (table_lookup kvs (ExtractUserKey ikey)) value),
        snd (entry_answer (table_lookup kvs (ExtractUserKey ikey)) value))
}.

(** [a] comes before [b] in the internal order. *)
Definition kv_lt (a b : KV) : Prop := clt InternalCompare (fst a) (fst b).
Definition kv_le (a b : KV) : Prop := cle InternalCompare (fst a) (fst b).

(** The entries of a table: parsable keys in order, the bounds of the metadata
    at the ends. *)
Record table_ok (m : SSZoneMetaData) (kvs : list KV) : Prop := {
  to_keys : Forall (fun kv => ParseInternalKey (fst kv) <> None) kvs;
  to_sorted : StronglySorted kv_lt kvs;
  to_first : fst <$> head kvs = Some (m_smallest m);
  to_last : fst <$> last kvs = Some (m_largest m)
}.

(** One table of level 0 is more recent than another one. *)
Definition newer (a b : SSZoneMetaData) : Prop := clt recency_cmp a b.

(** Same user key in both: the entry of the first table wins. *)
Definition shadows (kvs kvs' : list KV) : Prop :=
  forall kv kv', kv ∈ kvs -> kv' ∈ kvs' -> ukey kv = ukey kv' -> kv_lt kv kv'.

(** The invariant of the index, for the entries [kvs level m] of its tables. *)
Record version_ok (v : TropoVersion) (kvs : Z -> SSZoneMetaData -> list KV) : Prop := {
  vo_tables : forall l m, 0 <= l < level_count -> m ∈ level_tables (v_ss v) l -> table_ok m (kvs l m);
  vo_l0_numbers : NoDup (m_number <$> level_tables (v_ss v) 0);
  vo_l0 : forall m m', m ∈ level_tables (v_ss v) 0 -> m' ∈ level_tables (v_ss v) 0 ->
    newer m m' -> shadows (kvs 0 m) (kvs 0 m');
  vo_ln : forall l, 1 <= l < level_count ->
    StronglySorted (fun m m' => clt InternalCompare (m_largest m) (m_smallest m')) (level_tables (v_ss v) l);
  vo_levels : forall l l' m m', 0 <= l < l' -> l' < level_count ->
    m ∈ level_tables (v_ss v) l -> m' ∈ level_tables (v_ss v) l' -> shadows (kvs l m) (kvs l' m')
}.

Lemma InternalCompare_ukey a b :
  cle InternalCompare a b -> cle Compare (ExtractUserKey a) (ExtractUserKey b).
Proof. unfold cle. rewrite InternalCompare_lex. by destruct (Compare _ _). Qed.

Lemma kv_le_refl a : kv_le a a.
Proof. apply (cle_refl InternalCompare). Qed.
Lemma kv_le_trans a b c : kv_le a b -> kv_le b c -> kv_le a c.
Proof. apply (cmp_trans (cmp:=InternalCompare)). Qed.
Lemma kv_lt_le a b : kv_lt a b -> kv_le a b.
Proof. apply (clt_le InternalCompare). Qed.

Section TableOk.
Context (m : SSZoneMetaData) (kvs : list KV) (Hok : table_ok m kvs).

Lemma table_bounds kv : kv ∈ kvs ->
  cle InternalCompare (m_smallest m) (fst kv) /\ cle InternalCompare (fst kv) (m_largest m).
Proof.
  intros Hkv. destruct Hok as [_ Hs Hf Hl].
  destruct (head kvs) as [a|] eqn:Ha; [|done]. destruct (last kvs) as [z|] eqn:Hz; [|done].
  simpl in *. injection Hf as <-. injection Hl as <-. split.
  - destruct (StronglySorted_head _ _ _ _ Hs Ha Hkv) as [->|]; [apply kv_le_refl|by apply kv_lt_le].
  - destruct (StronglySorted_last _ _ _ _ Hs Hz Hkv) as [->|]; [apply kv_le_refl|by apply kv_lt_le].
Qed.

Lemma table_ok_range : cle InternalCompare (m_smallest m) (m_largest m).
Proof.
  pose proof table_bounds as Hb. destruct Hok as [_ _ Hf _]. destruct (head kvs) as [kv|] eqn:E; [|done].
  destruct (Hb kv) as [H1 H2]; [|by trans (fst kv)]. apply head_Some_elem_of in E. done.
Qed.

Lemma table_in_range kv : kv ∈ kvs -> in_range (ukey kv) m = true.
Proof.
  intros [H1 H2]%table_bounds. apply InternalCompare_ukey in H1, H2. unfold in_range, ukey.
  apply andb_true_iff. rewrite !negb_true_iff, !cmp_is_false. split; [|exact H2].
  fold (clt Compare (ExtractUserKey kv.1) (smallest_user_key m)). by rewrite (nclt_le Compare).
Qed.

(** The first entry of a user key is its newest. *)
Lemma table_lookup_Some u kv : table_lookup kvs u = Some kv ->
  kv ∈ kvs /\ ukey kv = u /\ forall kv', kv' ∈ kvs -> ukey kv' = u -> kv_le kv kv'.
Proof.
  unfold table_lookup. intros ([i kv0] & Hf & ->)%fmap_Some.
  apply list_find_Some in Hf as (Hi & Hu & Hb). simpl. split_and!; [by eapply list_elem_of_lookup_2|done|].
  intros kv' Hkv' Hu'. apply list_elem_of_lookup in Hkv' as [j Hj].
  destruct (decide (j < i)%nat) as [Hlt|Hge]; [by destruct (Hb _ _ Hj Hlt)|].
  destruct (decide (i = j)) as [->|Hne]; [assert (kv' = kv0) as -> by congruence; apply kv_le_refl|].
  apply kv_lt_le. eapply StronglySorted_lookup; [apply Hok| |done..]. lia.
Qed.

Lemma table_lookup_None u : table_lookup kvs u = None <-> forall kv, kv ∈ kvs -> ukey kv <> u.
Proof.
  unfold table_lookup. rewrite fmap_None, list_find_None, Forall_forall. done.
Qed.
End TableOk.

Section GetSpec.
Context {St : Type} `{!TableCache St} `{!TableCacheLaws St}.

(** The tables in the order in which [Get] asks them. *)
Definition probes (v : TropoVersion) (ikey key : bytes) : list (Z * SSZoneMetaData) :=
  map (fun m => (0, m)) (l0_candidates (level_tables (v_ss v) 0) key) ++
  omap (fun ls => pair (fst ls) <$> ln_candidate (snd ls) ikey key) (upper_levels v).

Fixpoint scan_probes (c : St) (ps : list (Z * SSZoneMetaData)) (ikey value : bytes) : option (St * bytes * option Status) :=
  match ps with
  | [] => Some (c, value, None)
  | (l, m) :: ps =>
      '(c, value, r) ← probe c l m ikey value;
      match r with Some _ => Some (c, value, r) | None => scan_probes c ps ikey value end
  end.

Lemma scan_probes_app c ps qs ikey value :
  scan_probes c (ps ++ qs) ikey value =
  '(c, value, r) ← scan_probes c ps ikey value;
  match r with Some _ => Some (c, value, r) | None => scan_probes c qs ikey value end.
Proof.
  revert c value. induction ps as [|[l m] ps IH]; intros c value; cbn [app scan_probes]; [done|].
  destruct (probe c l m ikey value) as [[[c' value'] [r|]]|]; [done| |done]. apply IH.
Qed.

Lemma get_l0_scan c tmp ikey value : get_l0 c tmp ikey value = scan_probes c (map (fun m => (0, m)) tmp) ikey value.
Proof.
  revert c value. induction tmp as [|m tmp IH]; intros c value; cbn [get_l0 map scan_probes]; [done|].
  destruct (probe c 0 m ikey value) as [[[c' value'] [r|]]|]; [done| |done]. apply IH.
Qed.

Lemma get_ln_scan c levels ikey key value :
  get_ln c levels ikey key value =
  scan_probes c (omap (fun ls => pair (fst ls) <$> ln_candidate (snd ls) ikey key) levels) ikey value.
Proof.
  revert c value. induction levels as [|[l ss] levels IH]; intros c value; [done|].
  cbn [get_ln omap list_omap fst snd]. destruct (ln_candidate ss ikey key) as [m|]; [|apply IH]. cbn.
  destruct (probe c l m ikey value) as [[[c' value'] [r|]]|]; [done| |done]. apply IH.
Qed.

Lemma Get_scan c v lkey value :
  Get c v lkey value =
  '(c, value, r) ← scan_probes c (probes v (internal_key lkey) (lookup_user_key lkey)) (internal_key lkey) value;
  Some (c, default NotFound r, value).
Proof.
  unfold Get, probes. rewrite scan_probes_app, get_l0_scan.
  destruct (scan_probes _ _ _ _) as [[[c' value'] [r|]]|]; [done| |done]. obind. rewrite get_ln_scan.
  by destruct (scan_probes _ _ _ _) as [[[c'' value''] [r|]]|].
Qed.

(** What a caller is told about the newest entry of its key. *)
Definition key_answer (kv : KV) : Status * bytes :=
  match ParseInternalKey (fst kv) with
  | Some p => if pik_type p =? kTypeDeletion then (NotFound, []) else (OK, snd kv)
  | None => (NotFound, [])
  end.

Lemma probe_spec c l m kvs ikey value :
  tc_inv c -> tc_table c l m kvs -> table_ok m kvs ->
  exists c', tc_inv c' /\ (forall l m k, tc_table c l m k -> tc_table c' l m k) /\
    probe c l m ikey value =
    match table_lookup kvs (ExtractUserKey ikey) with
    | None => Some (c', value, None)
    | Some kv => Some (c', snd (key_answer kv), Some (fst (key_answer kv)))
    end.
Proof.
  intros Hc Ht Hok. destruct (tc_Get_ok c m l kvs ikey value Hc Ht) as (c' & Hc' & Hkeep & Hget).
  exists c'. split_and!; [done|done|]. unfold probe. rewrite Hget. obind.
  destruct (table_lookup kvs _) as [[k x]|] eqn:El; [|done].
  apply (table_lookup_Some m) in El as (Hin & _); [|done].
  pose proof (to_keys _ _ Hok) as Hp. rewrite Forall_forall in Hp. specialize (Hp _ Hin).
  unfold entry_answer, key_answer. simpl in *. destruct (ParseInternalKey k) as [p|]; [|done].
  by destruct (pik_type p =? kTypeDeletion).
Qed.

Lemma scan_probes_spec kvs ps c ikey value :
  tc_inv c -> Forall (fun p => tc_table c (fst p) (snd p) (kvs (fst p) (snd p)) /\
                               table_ok (snd p) (kvs (fst p) (snd p))) ps ->
  exists c', tc_inv c' /\ (forall l m k, tc_table c l m k -> tc_table c' l m k) /\
   ((scan_probes c ps ikey value = Some (c', value, None) /\
     Forall (fun p => table_lookup (kvs (fst p) (snd p)) (ExtractUserKey ikey) = None) ps) \/
    (exists ps1 l m ps2 kv, ps = ps1 ++ (l, m) :: ps2 /\
     Forall (fun p => table_lookup (kvs (fst p) (snd p)) (ExtractUserKey ikey) = None) ps1 /\
     table_lookup (kvs l m) (ExtractUserKey ikey) = Some kv /\
     scan_probes c ps ikey value = Some (c', snd (key_answer kv), Some (fst (key_answer kv))))).
Proof.
  revert c. induction ps as [|[l m] ps IH]; intros c Hc Hps; cbn [scan_probes].
  - exists c. split_and!; [done|done|]. left. by split.
  - apply Forall_cons in Hps as [[Ht Hok] Hps]. cbn [fst snd] in *.
    destruct (probe_spec c l m (kvs l m) ikey value Hc Ht Hok) as (c1 & Hc1 & Hkeep & ->).
    destruct (table_lookup (kvs l m) _) as [kv|] eqn:El; obind.
    + exists c1. split_and!; [done|done|]. right. exists [], l, m, ps, kv. split_and!; done || constructor.
    + destruct (IH c1 Hc1) as (c' & Hc' & Hkeep' & [[Hs Hn]|(ps1 & l' & m' & ps2 & kv & -> & Hn & Hl & Hs)]).
      { eapply Forall_impl; [exact Hps|]. intros p [Hp ?]. split; [by apply Hkeep|done]. }
      * exists c'. split_and!; [done|auto|]. left. split; [done|]. by constructor.
      * exists c'. split_and!; [done|auto|]. right. exists ((l, m) :: ps1), l', m', ps2, kv.
        split_and!; try done. by constructor.
Qed.

Section Candidates.
Context (v : TropoVersion) (kvs : Z -> SSZoneMetaData -> list KV) (Hv : version_ok v kvs).

Lemma elem_of_upper_levels l ss :
  (l, ss) ∈ upper_levels v <-> 1 <= l < level_count /\ ss = level_tables (v_ss v) l.
Proof.
  unfold upper_levels. rewrite list_elem_of_fmap. split.
  - intros (l' & [= -> ->] & Hl). apply elem_of_seqZ in Hl. split; [lia|done].
  - intros [Hl ->]. exists l. split; [done|]. apply elem_of_seqZ. lia.
Qed.

Lemma level_ordered l i j a b :
  1 <= l < level_count -> (i < j)%nat ->
  level_tables (v_ss v) l !! i = Some a -> level_tables (v_ss v) l !! j = Some b ->
  clt InternalCompare (m_largest a) (m_smallest b).
Proof. intros Hl Hij Ha Hb. exact (StronglySorted_lookup _ _ i j a b (vo_ln v kvs Hv l Hl) Hij Ha Hb). Qed.

Lemma level_sorted_largest l : 1 <= l < level_count -> sorted_largest (level_tables (v_ss v) l).
Proof.
  intros Hl i j a b Hij Ha Hb. destruct (decide (i = j)) as [->|Hne].
  - assert (a = b) as -> by congruence. apply (cle_refl Compare).
  - apply InternalCompare_ukey. trans (m_smallest b).
    + apply (clt_le InternalCompare). apply (level_ordered l i j); [done|lia|done..].
    + pose proof (vo_tables v kvs Hv l b ltac:(lia) (list_elem_of_lookup_2 _ _ _ Hb)) as Hok.
      pose proof (to_first _ _ Hok) as Hf. destruct (head (kvs l b)) as [kv|] eqn:Hh; [|done].
      injection Hf as <-. apply (table_bounds b (kvs l b) Hok). by apply head_Some_elem_of.
Qed.

Lemma ln_candidate_elem ss ikey key m : ln_candidate ss ikey key = Some m -> m ∈ ss.
Proof.
  unfold ln_candidate. case_match; [done|]. destruct (FindSSTableIndex ss ikey) as [i|]; [|done]. obind.
  case_match; [done|]. destruct (ss !! i) as [m'|] eqn:Hi; [|done]. obind. case_match; [|done].
  intros [= ->]. by eapply list_elem_of_lookup_2.
Qed.

Lemma table_lookup_newest l m kv u :
  0 <= l < level_count -> m ∈ level_tables (v_ss v) l -> kv ∈ kvs l m -> ukey kv = u ->
  exists kv0, table_lookup (kvs l m) u = Some kv0 /\ kv_le kv0 kv.
Proof.
  intros Hl Hm Hkv Hu. destruct (table_lookup (kvs l m) u) as [kv0|] eqn:E.
  - exists kv0. split; [done|]. apply (table_lookup_Some m) in E as (_ & _ & Hall); [by apply Hall|].
    by apply (vo_tables v kvs).
  - apply (table_lookup_None (kvs l m)) with (kv := kv) in E; done.
Qed.

(** The candidate of a level has the newest entry of the key in that level. *)
Lemma ln_candidate_cover l ikey m kv :
  1 <= l < level_count -> m ∈ level_tables (v_ss v) l -> kv ∈ kvs l m -> ukey kv = ExtractUserKey ikey ->
  exists m0 kv0, ln_candidate (level_tables (v_ss v) l) ikey (ExtractUserKey ikey) = Some m0 /\
    table_lookup (kvs l m0) (ExtractUserKey ikey) = Some kv0 /\ kv_le kv0 kv.
Proof.
  intros Hl Hm Hkv Hu. set (ss := level_tables (v_ss v) l) in *.
  assert (Htab : forall m', m' ∈ ss -> table_ok m' (kvs l m')) by (intros; apply (vo_tables v kvs Hv); [lia|done]).
  destruct (FindSSTableIndex_spec ss ikey (level_sorted_largest l Hl)) as (i & Hfind & _ & Hbef & Haft).
  apply list_elem_of_lookup in Hm as [j Hj]. pose proof (list_elem_of_lookup_2 _ _ _ Hj) as Hjin.
  pose proof (table_bounds m _ (Htab m Hjin) kv Hkv) as [_ Hkl].
  assert (Hij : (i <= j)%nat).
  { apply Nat.nlt_ge. intros Hlt. apply (clt_nle Compare (largest_user_key m) (ExtractUserKey ikey)); [by eapply Hbef|].
    rewrite <-Hu. by apply InternalCompare_ukey. }
  pose proof (lookup_lt_Some _ _ _ Hj) as Hjlen.
  destruct (lookup_lt_is_Some_2 ss i ltac:(lia)) as [mi Hi].
  pose proof (list_elem_of_lookup_2 _ _ _ Hi) as Hiin.
  assert (exists kvi, kvi ∈ kvs l mi /\ ukey kvi = ExtractUserKey ikey /\ kv_le kvi kv) as (kvi & Hkvi & Hui & Hle).
  { destruct (decide (i = j)) as [->|Hne].
    { assert (mi = m) as -> by congruence. exists kv. split_and!; [done..|]. apply kv_le_refl. }
    pose proof (to_last _ _ (Htab mi Hiin)) as Hlast. destruct (last (kvs l mi)) as [z|] eqn:Hz; [|done].
    injection Hlast as Hzk.
    assert (Hlt : kv_lt z kv).
    { unfold kv_lt. rewrite Hzk. apply (clt_le_trans InternalCompare _ (m_smallest m)).
      - apply (level_ordered l i j); [done|lia|done..].
      - by apply (table_bounds m (kvs l m) (Htab m Hjin)). }
    exists z. split_and!; [by apply last_Some_elem_of|..|by apply kv_lt_le].
    apply Compare_eq. apply (cmp_eq_le Compare). split.
    - rewrite <-Hu. by apply InternalCompare_ukey, kv_lt_le.
    - unfold ukey. rewrite Hzk. by apply (Haft i). }
  destruct (table_lookup_newest l mi kvi (ExtractUserKey ikey)) as (kv0 & H0 & Hle0); [lia|done..|].
  exists mi, kv0. split_and!; [|done|by eapply kv_le_trans].
  unfold ln_candidate. rewrite (proj2 (Nat.eqb_neq _ _)) by lia. rewrite Hfind. obind.
  rewrite (proj2 (Nat.leb_gt _ _)) by lia. rewrite Hi. obind.
  by rewrite <-Hui, (table_in_range mi (kvs l mi) (Htab mi Hiin)).
Qed.

Lemma l0_candidates_elem key m :
  m ∈ l0_candidates (level_tables (v_ss v) 0) key <-> m ∈ level_tables (v_ss v) 0 /\ in_range key m = true.
Proof.
  unfold l0_candidates. rewrite merge_sort_Permutation, list_elem_of_filter, elem_of_reverse.
  rewrite Is_true_true. tauto.
Qed.

#[local] Instance recency_cmp_laws : CmpLaws recency_cmp.
Proof.
  apply (cmp_lex_laws m_L0_number m_number (flip Z.compare) (flip Z.compare));
    apply cmp_flip_laws; apply Z_cmp_laws.
Qed.

(** Level 0 is asked from the newest table to the oldest. *)
Lemma l0_candidates_sorted key : StronglySorted newer (l0_candidates (level_tables (v_ss v) 0) key).
Proof.
  set (l := l0_candidates _ key).
  assert (Hs : StronglySorted (cle recency_cmp) l).
  { apply StronglySorted_merge_sort; [intros a b c; apply (cmp_trans (cmp:=recency_cmp))|].
    apply (cle_total recency_cmp). }
  assert (Hnd : NoDup (m_number <$> l)).
  { unfold l, l0_candidates. rewrite merge_sort_Permutation.
    eapply sublist_NoDup; [|apply fmap_sublist; apply sublist_filter].
    rewrite fmap_reverse, reverse_Permutation. apply (vo_l0_numbers v kvs Hv). }
  clearbody l. induction Hs as [|a l Hs IH Hf]; [constructor|].
  apply NoDup_cons in Hnd as [Hni Hnd]. constructor; [by apply IH|].
  apply Forall_forall. intros b Hb. rewrite Forall_forall in Hf. specialize (Hf b Hb).
  unfold newer, clt. unfold cle in Hf. destruct (recency_cmp a b) eqn:E; [|done..]. exfalso.
  unfold recency_cmp in E. destruct (Z.compare_spec (m_L0_number b) (m_L0_number a)); simpl in E; try done.
  apply Z.compare_eq in E. apply Hni. rewrite <-E. by apply list_elem_of_fmap_2.
Qed.

Lemma StronglySorted_omap {A B} (R : A -> A -> Prop) (R' : B -> B -> Prop) (f : A -> option B) l :
  StronglySorted R l ->
  (forall a b a' b', a ∈ l -> b ∈ l -> R a b -> f a = Some a' -> f b = Some b' -> R' a' b') ->
  StronglySorted R' (omap f l).
Proof.
  intros Hs HR. induction Hs as [|a l Hs IH Hf]; [constructor|]. cbn [omap list_omap].
  assert (IH' : StronglySorted R' (omap f l)) by (apply IH; intros x y x' y' Hx Hy; apply HR; by right).
  destruct (f a) as [a'|] eqn:Ea; [|done]. constructor; [done|].
  apply Forall_forall. intros b' (b & Hb & Eb)%list_elem_of_omap. rewrite Forall_forall in Hf.
  eapply (HR a b); [by left|by right|by apply Hf|done|done].
Qed.

(** The later probes cannot hold a newer entry. *)
Definition probe_before (p q : Z * SSZoneMetaData) : Prop :=
  shadows (kvs (fst p) (snd p)) (kvs (fst q) (snd q)).

Lemma probes_elem ikey key l m :
  (l, m) ∈ probes v ikey key -> 0 <= l < level_count /\ m ∈ level_tables (v_ss v) l.
Proof.
  unfold probes. rewrite elem_of_app, list_elem_of_fmap, list_elem_of_omap. intros [(m' & [= -> ->] & Hm)|([l' ss] & Hls & Hm)].
  - apply l0_candidates_elem in Hm as [? _]. by split.
  - apply elem_of_upper_levels in Hls as [Hl ->]. cbn in Hm.
    destruct (ln_candidate _ _ _) as [m'|] eqn:E; [|done]. injection Hm as -> ->.
    split; [lia|]. by eapply ln_candidate_elem.
Qed.

Lemma probes_sorted ikey key : StronglySorted probe_before (probes v ikey key).
Proof.
  unfold probes. apply StronglySorted_app. split_and!.
  - intros [l m] [l' m'] Hp Hq. apply list_elem_of_fmap in Hp as (m0 & [= -> ->] & Hm).
    apply list_elem_of_omap in Hq as ([l'' ss] & Hls & Hq). apply elem_of_upper_levels in Hls as [Hl ->].
    cbn in Hq. destruct (ln_candidate _ _ _) as [m1|] eqn:E; [|done]. injection Hq as -> ->.
    apply l0_candidates_elem in Hm as [Hm _]. apply ln_candidate_elem in E.
    unfold probe_before. cbn [fst snd]. apply (vo_levels v kvs Hv); [lia|lia|done..].
  - pose proof (l0_candidates_sorted key) as Hs.
    assert (Hsub : forall m, m ∈ l0_candidates (level_tables (v_ss v) 0) key -> m ∈ level_tables (v_ss v) 0)
      by (intros m Hm; by apply l0_candidates_elem in Hm as [? _]).
    induction Hs as [|a l Hs IH Hf]; [constructor|]. cbn [map]. constructor.
    + apply IH. intros m Hm. apply Hsub. by right.
    + apply Forall_forall. intros [l' m'] (m0 & [= -> ->] & Hm)%list_elem_of_fmap.
      rewrite Forall_forall in Hf. unfold probe_before. cbn [fst snd]. apply (vo_l0 v kvs Hv); [apply Hsub; by left|apply Hsub; by right|by apply Hf].
  - assert (Hs : StronglySorted (fun p q : Z * list SSZoneMetaData => fst p < fst q) (upper_levels v)).
    { unfold upper_levels. repeat constructor; simpl; lia. }
    eapply StronglySorted_omap; [exact Hs|]. intros [l ss] [l' ss'] [? m] [? m'] Hls Hls' Hlt Hp Hq.
    apply elem_of_upper_levels in Hls as [Hl ->], Hls' as [Hl' ->]. cbn in *.
    destruct (ln_candidate (level_tables _ l) _ _) as [m1|] eqn:E; [|done].
    destruct (ln_candidate (level_tables _ l') _ _) as [m2|] eqn:E'; [|done]. simplify_eq/=.
    apply ln_candidate_elem in E, E'. unfold probe_before. cbn [fst snd]. apply (vo_levels v kvs Hv); [lia|lia|done..].
Qed.

(** Every entry of the key is covered by a probe with an entry at least as new. *)
Lemma probes_cover ikey l m kv :
  0 <= l < level_count -> m ∈ level_tables (v_ss v) l -> kv ∈ kvs l m -> ukey kv = ExtractUserKey ikey ->
  exists m0 kv0, (l, m0) ∈ probes v ikey (ExtractUserKey ikey) /\
    table_lookup (kvs l m0) (ExtractUserKey ikey) = Some kv0 /\ kv_le kv0 kv.
Proof.
  intros Hl Hm Hkv Hu. unfold probes. destruct (decide (l = 0)) as [->|Hne].
  - destruct (table_lookup_newest 0 m kv _ Hl Hm Hkv Hu) as (kv0 & H0 & Hle). exists m, kv0.
    split_and!; [|done..]. apply elem_of_app. left. apply list_elem_of_fmap. exists m. split; [done|].
    apply l0_candidates_elem. split; [done|]. rewrite <-Hu. apply (table_in_range m (kvs 0 m)); [|done].
    by apply (vo_tables v kvs Hv).
  - destruct (ln_candidate_cover l ikey m kv) as (m0 & kv0 & Hc & H0 & Hle); [lia|done..|].
    exists m0, kv0. split_and!; [|done..]. apply elem_of_app. right. apply list_elem_of_omap.
    exists (l, level_tables (v_ss v) l). split; [apply elem_of_upper_levels; split; [lia|done]|].
    cbn [fst snd]. by rewrite Hc.
Qed.
End Candidates.

(** [kv] is the newest entry of the user key [u] in the index. *)
Definition newest (v : TropoVersion) (kvs : Z -> SSZoneMetaData -> list KV) (u : bytes) (kv : KV) : Prop :=
  (exists l m, 0 <= l < level_count /\ m ∈ level_tables (v_ss v) l /\ kv ∈ kvs l m) /\ ukey kv = u /\
  forall l m kv', 0 <= l < level_count -> m ∈ level_tables (v_ss v) l -> kv' ∈ kvs l m ->
    ukey kv' = u -> kv_le kv kv'.

Lemma Get_newest v kvs c u s value :
  version_ok v kvs -> tc_inv c ->
  (forall l m, 0 <= l < level_count -> m ∈ level_tables (v_ss v) l -> tc_table c l m (kvs l m)) ->
  exists c', tc_inv c' /\ (forall l m k, tc_table c l m k -> tc_table c' l m k) /\
    ((exists kv, newest v kvs u kv /\
       Get c v (newLookupKey u s) value = Some (c', fst (key_answer kv), snd (key_answer kv))) \/
     ((forall l m kv, 0 <= l < level_count -> m ∈ level_tables (v_ss v) l -> kv ∈ kvs l m -> ukey kv <> u) /\
       Get c v (newLookupKey u s) value = Some (c', NotFound, value))).
Proof.
  intros Hv Hc Ht. rewrite Get_scan, lookup_user_key_newLookupKey, internal_key_newLookupKey.
  set (ikey := InternalKey u s kValueTypeForSeek).
  assert (Hik : ExtractUserKey ikey = u) by apply ExtractUserKey_InternalKey.
  assert (Hps : Forall (fun p => tc_table c (fst p) (snd p) (kvs (fst p) (snd p)) /\
                               table_ok (snd p) (kvs (fst p) (snd p))) (probes v ikey u)).
  { apply Forall_forall. intros [l m] [Hl Hm]%probes_elem. split; [by apply Ht|by apply (vo_tables v kvs Hv)]. }
  destruct (scan_probes_spec kvs _ c ikey value Hc Hps)
    as (c' & Hc' & Hkeep & [[-> Hn]|(ps1 & l & m & ps2 & kv & Heq & Hn & Hlk & ->)]); exists c'; (split; [done|]); (split; [done|]);
    rewrite Hik in *.
  - right. split; [|done]. intros l m kv Hl Hm Hkv Hu. rewrite <-Hik in Hu.
    destruct (probes_cover v kvs Hv ikey l m kv Hl Hm Hkv Hu) as (m0 & kv0 & Hp & H0 & _).
    rewrite Hik in *. rewrite Forall_forall in Hn. specialize (Hn _ Hp). simpl in Hn. congruence.
  - left. exists kv. split; [|done].
    assert (Hin : (l, m) ∈ probes v ikey u) by (rewrite Heq; set_solver).
    pose proof (probes_elem v ikey u l m Hin) as [Hl Hm].
    pose proof (table_lookup_Some m (kvs l m) (vo_tables v kvs Hv l m Hl Hm) u kv Hlk) as (Hkv & Hu & Hall).
    split_and!; [eauto 6|done|]. intros l' m' kv' Hl' Hm' Hkv' Hu'. rewrite <-Hik in Hu'.
    destruct (probes_cover v kvs Hv ikey l' m' kv' Hl' Hm' Hkv' Hu') as (m0 & kv0 & Hp & H0 & Hle).
    rewrite Hik in *. apply kv_le_trans with kv0; [|done].
    pose proof (probes_elem v ikey u l' m0 Hp) as [_ Hm0].
    pose proof (table_lookup_Some m0 (kvs l' m0) (vo_tables v kvs Hv l' m0 Hl' Hm0) u kv0 H0) as (Hkv0 & Hu0 & _).
    rewrite Heq in Hp. apply elem_of_app in Hp as [Hp|Hp].
    { rewrite Forall_forall in Hn. specialize (Hn _ Hp). simpl in Hn. congruence. }
    apply elem_of_cons in Hp as [[= -> ->]|Hp]; [by apply Hall|].
    apply kv_lt_le. pose proof (probes_sorted v kvs Hv ikey u) as Hs. rewrite Heq in Hs.
    apply StronglySorted_app_1_r in Hs. apply StronglySorted_inv in Hs as [_ Hf].
    rewrite Forall_forall in Hf. specialize (Hf _ Hp). apply (Hf kv kv0); [done|done|congruence].
Qed.
(** A lookup in the index returns what the newest entry of the key says,
    among all entries of all tables of all levels: its value, or that the key
    is deleted; and a key without an entry is not found.  This needs that the
    index is well formed and that the tables can be read. *)
Theorem version_get_newest v kvs c u s value :
  version_ok v kvs -> tc_inv c ->
  (forall l m, 0 <= l < level_count -> m ∈ level_tables (v_ss v) l -> tc_table c l m (kvs l m)) ->
  exists c', tc_inv c' /\
    ((exists kv, newest v kvs u kv /\
       Get c v (newLookupKey u s) value = Some (c', fst (key_answer kv), snd (key_answer kv))) \/
     ((forall l m kv, 0 <= l < level_count -> m ∈ level_tables (v_ss v) l -> kv ∈ kvs l m -> ukey kv <> u) /\
       Get c v (newLookupKey u s) value = Some (c', NotFound, value))).
Proof.
  intros Hv Hc Ht. destruct (Get_newest v kvs c u s value Hv Hc Ht) as (c' & ? & _ & ?). by exists c'.
Qed.
End GetSpec.
End Version.

(** ** Witnesses: an index of three tables *)

(** A cache that reads the entries of a table from a list. *)
Module DirectCache.
Definition t : Type := list (Z * list KV).

Definition entries (c : t) (m : SSZoneMetaData) : list KV :=
  default [] (snd <$> list_find (fun e => fst e = m_number m) c ≫= fun r => Some (snd r)).

#[global] Instance ops : TableCache t := fun c m level ikey value =>
  let a := entry_answer (table_lookup (entries c m) (ExtractUserKey ikey)) value in
  Some (c, OK, fst a, snd a).

(** The cache of a fixed device. *)
Definition laws (dev : t) : TableCacheLaws t.
Proof.
  refine {| tc_inv := fun c => c = dev; tc_table := fun _ _ m kvs => kvs = entries dev m |}.
  intros c m level kvs ikey value -> ->. by exists dev.
Defined.
End DirectCache.

Module VersionWitness.
Definition key (c : Z) : bytes := [z2b c].
Definition kv (c s t x : Z) : KV := (InternalKey (key c) s t, [z2b x]).

(** Two tables of level 0 that overlap, the newer one listed first, and one of level 1. *)
Definition tables : DirectCache.t :=
  [(1, [kv 1 5 1 11; kv 3 6 1 13]); (2, [kv 2 8 1 22; kv 3 9 0 0]); (3, [kv 1 1 1 31; kv 4 2 1 34])].

Definition meta (number l0 : Z) (a b : bytes) : SSZoneMetaData :=
  mkMeta 0 0 number 0 0 l0 0 [] [] 2 1 a b.

Definition m1 : SSZoneMetaData := meta 1 1 (InternalKey (key 1) 5 1) (InternalKey (key 3) 6 1).
Definition m2 : SSZoneMetaData := meta 2 2 (InternalKey (key 2) 8 1) (InternalKey (key 3) 9 0).
Definition m3 : SSZoneMetaData := meta 3 0 (InternalKey (key 1) 1 1) (InternalKey (key 4) 2 1).

Definition v : TropoVersion := mkVersion [[m1; m2]; [m3]; []; []; []; []] [[]; []; []; []; []; []] (0, 0).
Definition kvs (l : Z) (m : SSZoneMetaData) : list KV := DirectCache.entries tables m.
End VersionWitness.

Lemma sstable_index_search_witness :
  exists i, FindSSTableIndex (H := BytewiseComparator) [VersionWitness.m1; VersionWitness.m3]
      (InternalKey (VersionWitness.key 4) 7 1) = Some i /\ (i <= 2)%nat.
Proof.
  destruct (sstable_index_search (H := BytewiseComparator) [VersionWitness.m1; VersionWitness.m3]
      (InternalKey (VersionWitness.key 4) 7 1)) as (i & H1 & H2 & _); [|by exists i].
  intros [|[|i]] [|[|j]] a b Hij [= <-] [= <-]; done || (simpl in Hij; lia).
Defined.

Lemma overlapping_inputs_closed_witness :
  exists res, GetOverlappingInputs (H := BytewiseComparator) VersionWitness.v 0
      (Some (InternalKey (VersionWitness.key 1) 7 1)) (Some (InternalKey (VersionWitness.key 1) 1 1)) = Some res /\
    VersionWitness.m2 ∈ res.
Proof.
  destruct (overlapping_inputs_closed (H := BytewiseComparator) VersionWitness.v 0
      (InternalKey (VersionWitness.key 1) 7 1) (InternalKey (VersionWitness.key 1) 1 1))
    as (res & H1 & H2 & H3 & _ & H4); [done|].
  exists res. split; [exact H1|]. apply (H4 eq_refl VersionWitness.m1 VersionWitness.m2).
  - apply H3; [by left|vm_compute; congruence|vm_compute; congruence].
  - right. left.
  - split; vm_compute; congruence.
Defined.

(** The invariant of a concrete index can be decided. *)
Section Decide.
Context `{UserComparator}.

Definition shadows_check (l k : list KV) : Prop :=
  Forall (fun kv => Forall (fun kv' => ukey kv = ukey kv' -> clt InternalCompare (fst kv) (fst kv')) k) l.

Definition version_check (v : TropoVersion) (kvs : Z -> SSZoneMetaData -> list KV) : Prop :=
  let levels := seqZ 0 level_count in
  let tables := level_tables (v_ss v) in
  Forall (fun l => Forall (fun m =>
    Forall (fun kv => is_Some (ParseInternalKey (fst kv))) (kvs l m) /\
    StronglySorted (fun a b => clt InternalCompare (fst a) (fst b)) (kvs l m) /\
    fst <$> head (kvs l m) = Some (m_smallest m) /\ fst <$> last (kvs l m) = Some (m_largest m)) (tables l)) levels /\
  NoDup (m_number <$> tables 0) /\
  Forall (fun m => Forall (fun m' => clt recency_cmp m m' -> shadows_check (kvs 0 m) (kvs 0 m')) (tables 0)) (tables 0) /\
  Forall (fun l => 1 <= l ->
    StronglySorted (fun m m' => clt InternalCompare (m_largest m) (m_smallest m')) (tables l)) levels /\
  Forall (fun l => Forall (fun l' => l < l' ->
    Forall (fun m => Forall (fun m' => shadows_check (kvs l m) (kvs l' m')) (tables l')) (tables l)) levels) levels.

#[export] Instance version_check_dec v kvs : Decision (version_check v kvs).
Proof. unfold version_check, shadows_check. apply _. Defined.

Lemma shadows_check_sound l k : shadows_check l k -> shadows l k.
Proof.
  intros Hl kv kv' Hkv Hkv' Hu. unfold shadows_check in Hl. rewrite Forall_forall in Hl. specialize (Hl _ Hkv).
  rewrite Forall_forall in Hl. by apply Hl.
Qed.

Lemma version_check_sound v kvs : version_check v kvs -> version_ok v kvs.
Proof.
  unfold version_check. cbv zeta. rewrite !Forall_forall. intros (H1 & H2 & H3 & H4 & H5). constructor.
  - intros l m Hl Hm. specialize (H1 l ltac:(apply elem_of_seqZ; lia)). rewrite Forall_forall in H1.
    destruct (H1 m Hm) as (Hk & ? & ? & ?). constructor; try done.
    eapply Forall_impl; [exact Hk|]. intros kv [? ->]. done.
  - done.
  - intros m m' Hm Hm' Hn. specialize (H3 m Hm). rewrite Forall_forall in H3. apply shadows_check_sound. by apply H3.
  - intros l Hl. apply H4; [apply elem_of_seqZ|]; lia.
  - intros l l' m m' Hl Hl' Hm Hm'. specialize (H5 l ltac:(apply elem_of_seqZ; lia)). rewrite Forall_forall in H5.
    specialize (H5 l' ltac:(apply elem_of_seqZ; lia) ltac:(lia)). rewrite Forall_forall in H5.
    specialize (H5 m Hm). rewrite Forall_forall in H5. apply shadows_check_sound. by apply H5.
Qed.
End Decide.

(** Enumerate the elements of a list, and the levels and tables of the index. *)
Ltac enum H :=
  lazymatch type of H with
  | _ ∈ [] => by apply elem_of_nil in H
  | _ ∈ _ :: _ => apply elem_of_cons in H as [->|H]; [|enum H]
  end.
Ltac wit_tables :=
  repeat match goal with
  | H : context [level_count] |- _ => change level_count with 6 in H
  | H : _ ∈ level_tables (v_ss VersionWitness.v) ?l |- _ =>
      assert (l = 0 \/ l = 1 \/ l = 2 \/ l = 3 \/ l = 4 \/ l = 5) as Hlevel by lia;
      destruct Hlevel as [E|[E|[E|[E|[E|E]]]]]; try discriminate E; try (is_var l; subst l); try clear E;
      match type of H with _ ∈ ?k => let k' := eval cbv -[VersionWitness.m1 VersionWitness.m2 VersionWitness.m3] in k in
        change k with k' in H end; enum H
  end.

Lemma VersionWitness_ok : version_ok (H := BytewiseComparator) VersionWitness.v VersionWitness.kvs.
Proof. apply version_check_sound, (bool_decide_unpack _). by vm_compute. Qed.

Lemma version_get_newest_witness :
  exists c', Get (H := BytewiseComparator) VersionWitness.tables VersionWitness.v
      (newLookupKey (VersionWitness.key 4) 20) [] = Some (c', OK, [z2b 34]).
Proof.
  destruct (version_get_newest (H := BytewiseComparator) (TableCacheLaws0 := DirectCache.laws VersionWitness.tables)
      VersionWitness.v VersionWitness.kvs VersionWitness.tables (VersionWitness.key 4) 20 [])
    as (c' & _ & [(kv & Hn & Hg)|(Hn & _)]).
  - exact VersionWitness_ok.
  - reflexivity.
  - intros l m _ _. reflexivity.
  - exists c'. rewrite Hg. destruct Hn as ((l & m & Hl & Hm & Hkv) & Hu & _).
    wit_tables;
      match type of Hkv with _ ∈ ?k => let k' := eval vm_compute in k in change k with k' in Hkv end;
      enum Hkv; vm_compute in Hu; discriminate Hu || reflexivity.
  - exfalso. apply (Hn 1 VersionWitness.m3 (VersionWitness.kv 4 2 1 34)); [done|left|right; left|done].
Defined.
