(* ===== verification/Memtable.v ===== *)
(** * Memtable: the updates that are not on storage yet

    [memtable/tropodb_memtable.cc] of TropoDB over [db/memtable.cc] and the
    inserter of [db/write_batch.cc].  The sorted container behind the memtable (a
    skip list, [memtable/skiplistrep.cc]) is an interface: it inserts an entry
    unless its internal key is there already, and iterates in the internal order.

    TropoDB constructs its memtables with the default options: no merge operator,
    no in-place updates, no bloom filter, no insertion hints and no concurrent
    inserts.  Range deletions, merge operands and the markers of transactions are
    not modelled: their handlers are a parameter of the inserter. *)

From S2P Require Import Prelude Coding DbFormat Config Committer SSTable SSTableIter VersionEdit Version Szd Wal WriteBatch.

(** ** The container *)

Class MemTableRep (Rep : Type) := {
  rep_empty : Rep;
  (** [InsertKey]: false when the internal key is in the container *)
  rep_InsertKey : Rep -> KV -> bool * Rep;
  (** the entries from the first one that is not before the key *)
  rep_Seek : Rep -> bytes -> list KV;
  (** the entries from [SeekToFirst] on *)
  rep_entries : Rep -> list KV
}.

Class MemTableRepLaws `{UserComparator} (Rep : Type) `{!MemTableRep Rep} := {
  rep_empty_ok : rep_entries rep_empty = [];
  rep_sorted : forall r, StronglySorted kv_lt (rep_entries r);
  rep_seek_ok : forall r k, rep_Seek r k = filter (fun kv => cle InternalCompare k (fst kv)) (rep_entries r);
  rep_insert_new : forall r kv,
    (forall kv', kv' ∈ rep_entries r -> InternalCompare (fst kv) (fst kv') <> Eq) ->
    exists r', rep_InsertKey r kv = (true, r') /\ rep_entries r' ≡ₚ kv :: rep_entries r;
  rep_insert_dup : forall r kv kv',
    kv' ∈ rep_entries r -> InternalCompare (fst kv) (fst kv') = Eq -> rep_InsertKey r kv = (false, r)
}.

Section Memtable.
Context `{UserComparator} {Rep : Type} `{!MemTableRep Rep} (NDEBUG : bool).

(** ** The memtable *)

(** [MemTable], db/memtable.h:510-550, without the members of disabled options. *)
Record MemTable := mkMemTable {
  mt_table : Rep;
  mt_num_entries : Z;
  mt_data_size : Z;
  mt_num_deletes : Z;
  mt_first_seqno : Z;
  mt_earliest_seqno : Z
}.

(** [MemTable::MemTable], db/memtable.cc:65-125, with the latest sequence number
    that TropoDB passes. *)
Definition newMemTable : MemTable := mkMemTable rep_empty 0 0 0 0 kMaxSequenceNumber.

(** [MemTable::IsEmpty], db/memtable.h:362-362 *)
Definition IsEmpty (m : MemTable) : bool := mt_first_seqno m =? 0.

(** [MemTable::Add], db/memtable.cc:532-665.  The sizes are 32-bit numbers. *)
Definition mem_Add (m : MemTable) (s : Z) (type : ValueType) (key value : bytes) : option (Status * MemTable) :=
  let key_size := u32 (blen key) in
  let val_size := u32 (blen value) in
  let internal_key_size := u32 (key_size + 8) in
  let encoded_len := u32 (VarintLength internal_key_size + internal_key_size + VarintLength val_size + val_size) in
  let entry := (InternalKey (ztake key_size key) s type, ztake val_size value) in
  let '(res, table) := rep_InsertKey (mt_table m) entry in
  if negb res then Some (TryAgain, m)
  else
    _ ← assert NDEBUG ((mt_first_seqno m =? 0) || (mt_first_seqno m <=? s));
    let '(first, earliest) :=
      if mt_first_seqno m =? 0
      then (s, if mt_earliest_seqno m =? kMaxSequenceNumber then s else mt_earliest_seqno m)
      else (mt_first_seqno m, mt_earliest_seqno m) in
    Some (OK, mkMemTable table (u64 (mt_num_entries m + 1)) (u64 (mt_data_size m + encoded_len))
      (if type =? kTypeDeletion then u64 (mt_num_deletes m + 1) else mt_num_deletes m) first earliest).

(** [SaveValue], db/memtable.cc:701-862, on the first entry of the iteration: it
    never asks for another one without a merge operator.  The results are whether
    the final value was found, the value string, the status, and the number. *)
Definition SaveValue (user_key : bytes) (kv : KV) (value : bytes) (s : Status) : bool * bytes * Status * Z :=
  let '(k, v) := kv in
  if cmp_is (Compare (ExtractUserKey k) user_key) Eq then
    let '(seq, type) := UnPackSequenceAndType (ikey_num k) in
    if type =? kTypeBlobIndex then (true, value, NotSupported, seq)
    else if type =? kTypeValue then (true, v, OK, seq)
    else if (type =? kTypeDeletion) || (type =? kTypeDeletionWithTimestamp) || (type =? kTypeSingleDeletion)
            || (type =? kTypeRangeDeletion)
    then (true, value, NotFound, seq)
    else if type =? kTypeMerge then (true, value, InvalidArgument, seq)
    else (false, value, Corruption, seq)
  else (false, value, s, kMaxSequenceNumber).

(** [MemTable::Get], db/memtable.cc:864-954, with [GetFromTable] and the loop of
    the container.  [seq] is what the caller's variable held. *)
Definition MemTable_Get (m : MemTable) (key : LookupKey) (value : bytes) (s : Status) (seq : Z) : bool * bytes * Status * Z :=
  if IsEmpty m then (false, value, s, seq)
  else
    match rep_Seek (mt_table m) (internal_key key) with
    | [] => (false, value, s, kMaxSequenceNumber)
    | kv :: _ => SaveValue (lookup_user_key key) kv value s
    end.

(** ** The inserter *)

(** The state of a [MemTableInserter]: the memtable and [sequence_]. *)
Definition inserter : Type := MemTable * Z.

(** [MemTableInserter::DeleteImpl], db/write_batch.cc:1880-1898, and [PutCFImpl] without
    in-place updates, which TropoDB does not switch on, for an update of the default
    column family: [SeekToColumnFamily] finds no other. *)
Definition insert_update (st : inserter) (cf : Z) (type : ValueType) (key value : bytes) : option (Status * inserter) :=
  let '(m, sequence) := st in
  if negb (cf =? 0) then Some (InvalidArgument, st)
  else
    '(s, m) ← mem_Add m sequence type key value;
    if bool_decide (s = TryAgain) then _ ← assert NDEBUG false; Some (s, (m, sequence))
    else Some (s, (m, if ok s then u64 (sequence + 1) else sequence)).

(** [MemTableInserter], db/write_batch.cc:1866-2008: its [PutCF], [DeleteCF] and
    [SingleDeleteCF], outside of the recovery of a transaction and without protection
    information; the rest of the handler is a parameter. *)
Definition MemTableInserter (rest : Handler inserter) : Handler inserter :=
  mkHandler (h_Continue rest)
    (fun st cf key value => insert_update st cf kTypeValue key value)
    (fun st cf key => insert_update st cf kTypeDeletion key [])
    (fun st cf key => insert_update st cf kTypeSingleDeletion key [])
    (h_DeleteRangeCF rest) (h_MergeCF rest) (h_PutBlobIndexCF rest) (h_LogData rest)
    (h_MarkBeginPrepare rest) (h_MarkEndPrepare rest) (h_MarkCommit rest) (h_MarkCommitWithTimestamp rest)
    (h_MarkRollback rest) (h_MarkNoop rest) true false.

(** ** TropoDB's memtable *)

Context (rest : Handler inserter).

(** [TropoMemtable::Write], memtable/tropodb_memtable.cc:33-35, with
    [WriteBatchInternal::InsertInto]. *)
Definition TropoMemtable_Write (m : MemTable) (updates : bytes) : option (Status * MemTable) :=
  seq ← batch_Sequence updates;
  '(s, (m, _)) ← batch_Iterate (MemTableInserter rest) NDEBUG updates (m, seq);
  Some (s, m).

(** [TropoMemtable::Get], memtable/tropodb_memtable.cc:37-45 *)
Definition TropoMemtable_Get (m : MemTable) (lkey : LookupKey) (value : bytes) (s : Status) (seq : Z)
    : bool * bytes * Status * Z := MemTable_Get m lkey value s seq.

(** [TropoMemtable::ShouldScheduleFlush], memtable/tropodb_memtable.cc:47-51.
    [usage] is the memory that the allocators report. *)
Definition ShouldScheduleFlush (usage : MemTable -> Z) (write_buffer_size : Z) (m : MemTable) : bool :=
  write_buffer_size <? usage m.

(** [TropoMemtable::NewIterator], memtable/tropodb_memtable.cc:53-55: the entries
    that the iterator yields from [SeekToFirst] on. *)
Definition TropoMemtable_entries (m : MemTable) : list KV := rep_entries (mt_table m).

(** [TropoMemtable::GetInternalSize], memtable/tropodb_memtable.h:27-29 *)
Definition GetInternalSize (m : MemTable) : Z := mt_data_size m.

End Memtable.

(** ** What the memtable holds *)

(** The sequence number of an entry. *)
Definition seq_of (kv : KV) : Z := Z.shiftr (ikey_num (fst kv)) 8.

(** The entries of updates that are numbered from [seq] on. *)
Definition entry_of (seq : Z) (u : update) : KV :=
  match u with
  | UPut k v => (InternalKey k seq kTypeValue, v)
  | UDelete k => (InternalKey k seq kTypeDeletion, [])
  end.
Fixpoint entries_from (seq : Z) (us : list update) : list KV :=
  match us with
  | [] => []
  | u :: us => entry_of seq u :: entries_from (seq + 1) us
  end.

Definition update_key (u : update) : bytes := match u with UPut k _ | UDelete k => k end.

(** An update whose internal key has a 32-bit length. *)
Definition update_fits (u : update) : Prop := update_ok u /\ blen (update_key u) + 8 < 2 ^ 32.

(** An entry of a put or of a deletion, with a sequence number in use. *)
Definition entry_ok (kv : KV) : Prop :=
  exists s u, kv = entry_of s u /\ 0 < s <= kMaxSequenceNumber.

Lemma entry_of_parts s u :
  0 < s <= kMaxSequenceNumber ->
  seq_of (entry_of s u) = s /\ ukey (entry_of s u) = update_key u /\
  ParseInternalKey (fst (entry_of s u))
  = Some (mkPIK (update_key u) s (match u with UPut _ _ => kTypeValue | UDelete _ => kTypeDeletion end)).
Proof.
  intros Hs. assert (Hv : valid_seq s) by (unfold valid_seq; lia).
  assert (Hsh : forall t, 0 <= t < 256 -> Z.shiftr (s * 256 + t) 8 = s).
  { intros t Ht. rewrite Z.shiftr_div_pow2 by lia. change (2 ^ 8) with 256.
    rewrite Z.add_comm, Z.div_add by lia. rewrite Z.div_small by lia. lia. }
  unfold seq_of, ukey. destruct u; simpl; (split_and!; [|apply ExtractUserKey_InternalKey|by apply ParseInternalKey_InternalKey]);
    rewrite ikey_num_InternalKey by done; by apply Hsh.
Qed.

Lemma entries_from_elem seq us kv :
  kv ∈ entries_from seq us -> exists i u, us !! i = Some u /\ kv = entry_of (seq + Z.of_nat i) u.
Proof.
  revert seq. induction us as [|u us IH]; intros seq; simpl; [by rewrite elem_of_nil|].
  rewrite elem_of_cons. intros [->|Hkv].
  - exists 0%nat, u. by rewrite Z.add_0_r.
  - destruct (IH _ Hkv) as (i & u' & Hi & ->). exists (S i), u'. split; [done|]. f_equal. lia.
Qed.

Section MemtableProofs.
Context `{UserComparator} {Rep : Type} `{!MemTableRep Rep} `{!MemTableRepLaws Rep} (NDEBUG : bool).
Context (rest : Handler (inserter (Rep := Rep))) (Hcont : forall st, h_Continue rest st = true).

Abbreviation entries := (TropoMemtable_entries (Rep := Rep)).

(** The invariant: the first sequence number tells whether there are entries. *)
Record mem_inv (m : MemTable (Rep := Rep)) : Prop := {
  mi_first : mt_first_seqno m = 0 <-> entries m = [];
  mi_range : 0 <= mt_first_seqno m;
  mi_entries : Forall entry_ok (entries m)
}.

Lemma newMemTable_inv : mem_inv newMemTable /\ entries newMemTable = [].
Proof.
  assert (E : entries newMemTable = []) by apply rep_empty_ok. split; [|done].
  constructor; rewrite ?E; [done|simpl; lia|constructor].
Qed.

Lemma InternalCompare_seq a b : InternalCompare (fst a) (fst b) = Eq -> seq_of a = seq_of b.
Proof.
  rewrite InternalCompare_lex. unfold flip, seq_of. destruct (Compare _ _); simpl; try done.
  intros E. apply Z.compare_eq in E. by rewrite E.
Qed.

(** An update with a fresh number is inserted. *)
Lemma insert_update_spec m seq u :
  mem_inv m -> update_fits u -> 0 < seq <= kMaxSequenceNumber ->
  (forall kv, kv ∈ entries m -> seq_of kv <> seq) ->
  NDEBUG = true \/ mt_first_seqno m <= seq ->
  exists m', apply_update (MemTableInserter NDEBUG rest) (m, seq) u = Some (OK, (m', seq + 1)) /\
    mem_inv m' /\ entries m' ≡ₚ entry_of seq u :: entries m /\
    (mt_first_seqno m' = mt_first_seqno m \/ mt_first_seqno m = 0 /\ mt_first_seqno m' = seq).
Proof.
  intros [Hf Hr He] [Hok Hk] Hs Hfresh Hdbg.
  assert (Hins : forall t v, entry_of seq u = (InternalKey (update_key u) seq t, v) -> blen v < 2 ^ 32 ->
    exists m', insert_update NDEBUG (m, seq) 0 t (update_key u) v = Some (OK, (m', seq + 1)) /\
      mem_inv m' /\ entries m' ≡ₚ entry_of seq u :: entries m /\
      (mt_first_seqno m' = mt_first_seqno m \/ mt_first_seqno m = 0 /\ mt_first_seqno m' = seq)).
  { intros t v Eu Hv. unfold insert_update, mem_Add. cbn [negb Z.eqb].
    rewrite !u32_small by (unfold is_u32; pose_blen; lia). rewrite !ztake_all by lia. rewrite <-Eu.
    destruct (rep_insert_new (mt_table m) (entry_of seq u)) as (r' & -> & Hp).
    { intros kv Hkv E. apply InternalCompare_seq in E. destruct (entry_of_parts seq u Hs) as (Es & _).
      apply (Hfresh kv Hkv). congruence. }
    cbn [negb]. assert (WriteBatch.assert NDEBUG ((mt_first_seqno m =? 0) || (mt_first_seqno m <=? seq)) = Some tt) as ->.
    { unfold WriteBatch.assert. destruct Hdbg as [->|Hle]; [done|].
      by rewrite (proj2 (Z.leb_le _ _) Hle), orb_true_r, orb_true_r. }
    obind. rewrite u64_small by (unfold is_u64; unfold kMaxSequenceNumber in Hs; rewrite Z.shiftl_1_l in Hs; lia).
    destruct (if mt_first_seqno m =? 0 then _ else _) as [first earliest] eqn:Ef.
    obind. rewrite bool_decide_eq_false_2 by done. cbn [ok]. eexists. split; [done|].
    assert (Hfirst : 0 < first /\ (first = mt_first_seqno m \/ mt_first_seqno m = 0 /\ first = seq)).
    { destruct (Z.eqb_spec (mt_first_seqno m) 0); injection Ef as <- _; [lia|]. split; [lia|by left]. }
    split_and!; [|done|apply Hfirst]. constructor; cbn.
    - split; [lia|]. unfold TropoMemtable_entries. cbn. intros E. rewrite E in Hp. by apply Permutation_nil_cons in Hp.
    - lia.
    - unfold TropoMemtable_entries. cbn. rewrite Hp. constructor; [by exists seq, u|done]. }
  destruct u as [k v|k]; simpl in Hok, Hk, Hins |- *.
  - apply (Hins kTypeValue v); [done|apply Hok].
  - by apply (Hins kTypeDeletion []).
Qed.

Lemma apply_updates_spec us m seq :
  mem_inv m -> Forall update_fits us -> 0 < seq -> seq + blen us <= kMaxSequenceNumber + 1 ->
  (forall kv, kv ∈ entries m -> seq_of kv < seq \/ seq + blen us <= seq_of kv) ->
  NDEBUG = true \/ mt_first_seqno m <= seq ->
  exists m', apply_updates (MemTableInserter NDEBUG rest) us (m, seq) = Some (OK, (m', seq + blen us)) /\
    mem_inv m' /\ entries m' ≡ₚ entries_from seq us ++ entries m /\
    (mt_first_seqno m' = mt_first_seqno m \/ mt_first_seqno m = 0 /\ mt_first_seqno m' = seq).
Proof.
  intros Hi Hus. revert m seq Hi. induction Hus as [|u us Hu Hus IH]; intros m seq Hi Hs Hmax Hfresh Hdbg.
  { exists m. change (blen []) with 0. rewrite Z.add_0_r. split_and!; [done..|by left]. }
  rewrite blen_cons in *. pose proof (blen_nonneg us).
  destruct (insert_update_spec m seq u Hi Hu) as (m1 & Ha & Hi1 & Hp1 & Hf1); [lia| |done|].
  { intros kv Hkv. destruct (Hfresh kv Hkv); lia. }
  cbn [apply_updates]. rewrite Ha. obind. cbn [ok].
  destruct (IH m1 (seq + 1) Hi1) as (m' & -> & Hi' & Hp' & Hf'); [lia|lia| |destruct Hdbg; [by left|right; lia]|].
  { intros kv Hkv. rewrite Hp1, elem_of_cons in Hkv. destruct Hkv as [->|Hkv].
    - destruct (entry_of_parts seq u ltac:(lia)) as (-> & _). lia.
    - destruct (Hfresh kv Hkv); lia. }
  exists m'. split_and!; [by do 3 f_equal; lia|done| |].
  - cbn [entries_from]. rewrite Hp', Hp1. simpl. by rewrite Permutation_middle.
  - assert (mt_first_seqno m1 <> 0); [|lia]. intros E. apply (mi_first _ Hi1) in E. rewrite E in Hp1.
    by apply Permutation_nil_cons in Hp1.
Qed.

(** A batch with fresh numbers is written to the memtable. *)
Lemma Write_spec us m seq :
  mem_inv m -> Forall update_fits us -> blen us < 2 ^ 32 -> 0 < seq -> seq + blen us <= kMaxSequenceNumber + 1 ->
  (forall kv, kv ∈ entries m -> seq_of kv < seq \/ seq + blen us <= seq_of kv) ->
  NDEBUG = true \/ mt_first_seqno m <= seq ->
  exists m', TropoMemtable_Write NDEBUG rest m (batch_of seq us) = Some (OK, m') /\
    mem_inv m' /\ entries m' ≡ₚ entries_from seq us ++ entries m /\
    (mt_first_seqno m' = mt_first_seqno m \/ mt_first_seqno m = 0 /\ mt_first_seqno m' = seq).
Proof.
  intros Hi Hus Hn Hs Hmax Hfresh Hdbg.
  destruct (apply_updates_spec us m seq Hi Hus Hs Hmax Hfresh Hdbg) as (m' & Ha & Hi' & Hp & Hf).
  exists m'. split; [|done]. unfold TropoMemtable_Write. pose proof (blen_nonneg us).
  rewrite batch_of_Sequence by (unfold is_u64; unfold kMaxSequenceNumber in Hmax; rewrite Z.shiftl_1_l in Hmax; lia). obind.
  rewrite (batch_Iterate_spec (MemTableInserter NDEBUG rest) NDEBUG Hcont seq us (m, seq) (m', seq + blen us)); [done| |done|done].
  eapply Forall_impl; [exact Hus|]. by intros u [? _].
Qed.

(** ** Lookups *)

(** What the memtable answers, given the entry it finds. *)
Definition mem_answer (r : option KV) (value : bytes) (s : Status) (seq : Z) : bool * bytes * Status * Z :=
  match r with
  | None => (false, value, s, seq)
  | Some kv =>
      match ParseInternalKey (fst kv) with
      | Some p => if pik_type p =? kTypeDeletion then (true, value, NotFound, pik_sequence p) else (true, snd kv, OK, pik_sequence p)
      | None => (false, value, s, seq)
      end
  end.

Lemma SaveValue_spec u kv value s :
  entry_ok kv -> SaveValue u kv value s =
  if decide (ukey kv = u) then mem_answer (Some kv) value s kMaxSequenceNumber else (false, value, s, kMaxSequenceNumber).
Proof.
  intros (q & up & -> & Hq). assert (Hv : valid_seq q) by (unfold valid_seq; lia).
  destruct (entry_of_parts q up Hq) as (_ & Hu & Hp). unfold mem_answer. rewrite Hp, Hu. unfold ukey in Hu.
  unfold SaveValue. destruct (entry_of q up) as [k v] eqn:E. cbn [fst snd] in *. rewrite Hu.
  destruct (decide (update_key up = u)) as [->|Hne].
  - rewrite Compare_refl. cbn [cmp_is].
    destruct up; simpl in E; injection E as <- <-; rewrite ikey_num_InternalKey, Unpack_value by done; done.
  - destruct (Compare (update_key up) u) eqn:Ec; try done. by apply Compare_eq in Ec.
Qed.

(** The seek key of a lookup is not after an entry of a later user key, nor after
    an entry of its own user key that the snapshot sees. *)
Lemma seek_key_le u s kv :
  entry_ok kv -> valid_seq s ->
  cle InternalCompare (InternalKey u s kValueTypeForSeek) (fst kv) <->
  clt Compare u (ukey kv) \/ ukey kv = u /\ seq_of kv <= s.
Proof.
  intros (q & up & -> & Hq) Hs. assert (Hv : valid_seq q) by (unfold valid_seq; lia).
  destruct (entry_of_parts q up Hq) as (-> & -> & _).
  assert (Hcmp : exists t, 0 <= t <= 1 /\ fst (entry_of q up) = InternalKey (update_key up) q t).
  { destruct up; [exists kTypeValue|exists kTypeDeletion]; (split; [by vm_compute|done]). }
  destruct Hcmp as (t & Ht & ->). unfold cle, kValueTypeForSeek, kTypeDeletionWithTimestamp, clt.
  rewrite InternalCompare_keys by (done || lia).
  destruct (Compare u (update_key up)) eqn:E; simpl.
  - apply Compare_eq in E as ->. destruct (Z.compare_spec q s), (Z.compare_spec t 20); simpl; naive_solver lia.
  - naive_solver.
  - split; [done|]. intros [?|[E' _]]; [done|]. rewrite E', Compare_refl in E. done.
Qed.

(** The first entry from the seek key on is the newest visible one, if it has
    the user key. *)
Lemma seek_lookup u s kvs :
  StronglySorted kv_lt kvs -> Forall entry_ok kvs -> valid_seq s ->
  table_lookup (filter (fun kv => seq_of kv <= s) kvs) u =
  match filter (fun kv => cle InternalCompare (InternalKey u s kValueTypeForSeek) (fst kv)) kvs with
  | [] => None
  | kv :: _ => if decide (ukey kv = u) then Some kv else None
  end.
Proof.
  intros Hsort Hok Hs. induction Hsort as [|x l Hsort IH Hx]; [done|].
  apply Forall_cons in Hok as [Hxok Hok]. specialize (IH Hok). pose proof (seek_key_le u s x Hxok Hs) as Hle.
  destruct (decide (cle InternalCompare (InternalKey u s kValueTypeForSeek) (fst x))) as [Hc|Hc].
  - rewrite (filter_cons_True (fun kv => cle _ _ (fst kv))) by done. apply Hle in Hc as [Hlt|[Hu Hq]].
    + assert (ukey x <> u) by (intros <-; unfold clt in Hlt; by rewrite Compare_refl in Hlt).
      rewrite decide_False by done. unfold table_lookup. apply fmap_None, list_find_None. apply Forall_forall.
      intros y [_ Hy]%list_elem_of_filter Hyu. rewrite elem_of_cons in Hy. destruct Hy as [->|Hy]; [done|].
      rewrite Forall_forall in Hx. specialize (Hx y Hy). apply kv_lt_le in Hx. apply InternalCompare_ukey in Hx.
      change (cle Compare (ukey x) (ukey y)) in Hx. rewrite Hyu in Hx. by apply (clt_nle Compare) in Hlt.
    + rewrite (decide_True (P := ukey x = u)) by done.
      rewrite filter_cons_True by done. unfold table_lookup. simpl. by rewrite decide_True.
  - rewrite (filter_cons_False (fun kv => cle _ _ (fst kv))) by done. rewrite <-IH.
    destruct (decide (seq_of x <= s)) as [Hq|Hq]; [|by rewrite filter_cons_False].
    rewrite filter_cons_True by done. unfold table_lookup. simpl.
    rewrite decide_False by (intros Hu; apply Hc, Hle; by right). rewrite <-!option_fmap_compose.
    apply option_fmap_ext. by intros [? ?].
Qed.

(** A lookup finds the newest entry of the user key that its snapshot sees. *)
Lemma Get_spec m u s value st q :
  mem_inv m -> valid_seq s ->
  TropoMemtable_Get m (newLookupKey u s) value st q =
  mem_answer (table_lookup (filter (fun kv => seq_of kv <= s) (entries m)) u) value st
    (if IsEmpty m then q else kMaxSequenceNumber).
Proof.
  intros [Hf Hr He] Hs. unfold TropoMemtable_Get, MemTable_Get, IsEmpty.
  destruct (Z.eqb_spec (mt_first_seqno m) 0) as [E|E]; [by rewrite (proj1 Hf E)|].
  rewrite rep_seek_ok, internal_key_newLookupKey, lookup_user_key_newLookupKey.
  rewrite (seek_lookup u s (entries m)) by (done || apply rep_sorted).
  unfold TropoMemtable_entries in *. destruct (filter _ _) as [|kv l] eqn:Efl; [done|].
  assert (Hkv : kv ∈ rep_entries (mt_table m)).
  { assert (Hin : kv ∈ kv :: l) by (by left). rewrite <-Efl in Hin. by apply list_elem_of_filter in Hin as [_ ?]. }
  rewrite Forall_forall in He. rewrite SaveValue_spec by auto. by case_decide.
Qed.

(** C16: the memtable gives back what was written.  A batch of puts and
    deletions whose numbers are fresh is always accepted, and every lookup
    afterwards, at any snapshot, answers with the newest entry of its user key
    that the snapshot sees (a deletion is reported as such), or not at all if
    there is none: the entries of the batch, each numbered after the one before
    it, are added to the entries that were there. *)
Theorem memtable_write_get us m seq u s value st q :
  mem_inv m -> Forall update_fits us -> blen us < 2 ^ 32 -> 0 < seq -> seq + blen us <= kMaxSequenceNumber + 1 ->
  (forall kv, kv ∈ entries m -> seq_of kv < seq \/ seq + blen us <= seq_of kv) ->
  NDEBUG = true \/ mt_first_seqno m <= seq -> valid_seq s ->
  exists m', TropoMemtable_Write NDEBUG rest m (batch_of seq us) = Some (OK, m') /\ mem_inv m' /\
    entries m' ≡ₚ entries_from seq us ++ entries m /\ StronglySorted kv_lt (entries m') /\
    TropoMemtable_Get m' (newLookupKey u s) value st q =
    mem_answer (table_lookup (filter (fun kv => seq_of kv <= s) (entries m')) u) value st
      (if IsEmpty m' then q else kMaxSequenceNumber).
Proof.
  intros Hi Hus Hn Hs Hmax Hfresh Hdbg Hv.
  destruct (Write_spec us m seq Hi Hus Hn Hs Hmax Hfresh Hdbg) as (m' & Hw & Hi' & Hp & _).
  exists m'. split_and!; [done..|apply rep_sorted|by apply Get_spec].
Qed.

(** A number below the first one fails an assertion of a debug build: this is
    what replaying an older log after a newer one does. *)
Theorem memtable_older_asserts m seq k v :
  mem_inv m -> NDEBUG = false -> 0 < seq < mt_first_seqno m -> seq <= kMaxSequenceNumber ->
  update_fits (UPut k v) -> (forall kv, kv ∈ entries m -> seq_of kv <> seq) ->
  TropoMemtable_Write NDEBUG rest m (batch_of seq [UPut k v]) = None.
Proof.
  intros [Hf Hr He] Hd Hs Hmax [[Hk Hv] Hk8] Hfresh. simpl in Hk8. unfold TropoMemtable_Write.
  unfold kMaxSequenceNumber in Hmax. rewrite Z.shiftl_1_l in Hmax.
  rewrite batch_of_Sequence by (unfold is_u64; lia). obind.
  assert (zdrop kHeader (batch_of seq [UPut k v]) = enc_update (UPut k v) ++ []) as E.
  { unfold batch_of. rewrite app_assoc. rewrite zdrop_app_exact by (by vm_compute).
    unfold enc_updates. done. }
  unfold batch_Iterate. rewrite batch_of_length, (proj2 (Z.ltb_ge _ _)) by (pose_blen; lia). rewrite E.
  set (fuel := (2 * length (enc_update (UPut k v) ++ []) + 2)%nat).
  assert (exists n, fuel = S n) as (n & ->) by (exists (fuel - 1)%nat; unfold fuel; simpl; lia).
  cbn [iterate_loop]. rewrite bool_decide_eq_false_2 by done. cbn [negb ok andb orb]. rewrite bool_decide_eq_false_2 by done.
  change (h_Continue (MemTableInserter NDEBUG rest)) with (h_Continue rest). rewrite Hcont. cbn [negb orb].
  destruct (read_update (MemTableInserter NDEBUG rest) NDEBUG (mkRecord 0 0 [] [] [] []) (UPut k v) [] ltac:(done)) as (r' & -> & Hdis).
  obind. rewrite Hdis. cbn [apply_update MemTableInserter h_PutCF]. unfold insert_update, mem_Add. cbn [negb Z.eqb].
  rewrite !u32_small by (unfold is_u32; pose_blen; lia). rewrite !ztake_all by lia.
  destruct (rep_insert_new (mt_table m) (InternalKey k seq kTypeValue, v)) as (t' & -> & _).
  { intros kv Hkv Ec. apply InternalCompare_seq in Ec. apply (Hfresh kv Hkv).
    destruct (entry_of_parts seq (UPut k v)) as (Es & _); [unfold kMaxSequenceNumber; rewrite Z.shiftl_1_l; lia|].
    simpl in Es. congruence. }
  cbn [negb]. unfold WriteBatch.assert. rewrite Hd, (proj2 (Z.eqb_neq _ _)), (proj2 (Z.leb_gt _ _)) by lia. done.
Qed.
End MemtableProofs.

(** ** A container that keeps the entries in a list *)

Module ListRep.
Section ListRep.
Context `{UserComparator}.

Fixpoint insert_entry (kv : KV) (l : list KV) : list KV :=
  match l with
  | [] => [kv]
  | x :: l' =>
      match InternalCompare (fst kv) (fst x) with
      | Lt => kv :: l
      | Eq => l
      | Gt => x :: insert_entry kv l'
      end
  end.

(** The entries in the order of their insertion. *)
Definition t : Type := list KV.
Definition sorted (r : t) : list KV := foldr insert_entry [] r.
Definition has (r : t) (kv : KV) : bool := existsb (fun x => cmp_is (InternalCompare (fst kv) (fst x)) Eq) (sorted r).

Lemma insert_entry_elem kv l x : x ∈ insert_entry kv l -> x = kv \/ x ∈ l.
Proof.
  induction l as [|y l IH]; simpl; [set_solver|]. case_match; set_solver.
Qed.
Lemma insert_entry_sorted kv l : StronglySorted kv_lt l -> StronglySorted kv_lt (insert_entry kv l).
Proof.
  induction 1 as [|x l Hs IH Hx]; simpl; [repeat constructor|].
  destruct (InternalCompare (fst kv) (fst x)) eqn:E; [by constructor|constructor; [by constructor|]|constructor; [done|]].
  - constructor; [done|]. eapply Forall_impl; [exact Hx|]. intros y Hy.
    eapply (clt_le_trans InternalCompare); [exact E|]. by apply (clt_le InternalCompare).
  - apply Forall_forall. intros y [->|Hy]%insert_entry_elem; [by apply (cmp_gt_lt InternalCompare)|].
    rewrite Forall_forall in Hx. auto.
Qed.
Lemma insert_entry_new kv l :
  (forall x, x ∈ l -> InternalCompare (fst kv) (fst x) <> Eq) -> insert_entry kv l ≡ₚ kv :: l.
Proof.
  induction l as [|x l IH]; intros Hn; simpl; [done|].
  destruct (InternalCompare (fst kv) (fst x)) eqn:E; [|done|].
  - destruct (Hn x ltac:(by left) E).
  - rewrite IH by (intros; apply Hn; by right). constructor.
Qed.
Lemma has_spec r kv : has r kv = true <-> exists x, x ∈ sorted r /\ InternalCompare (fst kv) (fst x) = Eq.
Proof.
  unfold has. rewrite existsb_exists. split; intros (x & Hx & E); exists x; rewrite list_elem_of_In in *; (split; [done|]).
  - by destruct (InternalCompare _ _).
  - by rewrite E.
Qed.

#[global] Instance ops : MemTableRep t := {|
  rep_empty := [];
  rep_InsertKey r kv := if has r kv then (false, r) else (true, kv :: r);
  rep_Seek r k := filter (fun kv => cle InternalCompare k (fst kv)) (sorted r);
  rep_entries := sorted
|}.

#[global] Instance laws : MemTableRepLaws t.
Proof.
  constructor.
  - done.
  - intros r. induction r as [|kv r IH]; [constructor|]. by apply insert_entry_sorted.
  - done.
  - intros r kv Hn. exists (kv :: r). simpl. destruct (has r kv) eqn:E.
    + apply has_spec in E as (x & Hx & E). by destruct (Hn x Hx).
    + split; [done|]. by apply insert_entry_new.
  - intros r kv kv' Hkv E. simpl. assert (has r kv = true) as -> by (apply has_spec; eauto). done.
Qed.
End ListRep.
End ListRep.

(** A handler that refuses every other record. *)
Definition refuse_rest {St} : Handler St :=
  mkHandler (fun _ => true) (fun st _ _ _ => Some (NotSupported, st)) (fun st _ _ => Some (NotSupported, st))
    (fun st _ _ => Some (NotSupported, st)) (fun st _ _ _ => Some (NotSupported, st))
    (fun st _ _ _ => Some (NotSupported, st)) (fun st _ _ _ => Some (NotSupported, st)) (fun st _ => st)
    (fun st _ => Some (NotSupported, st)) (fun st _ => Some (NotSupported, st)) (fun st _ => Some (NotSupported, st))
    (fun st _ _ => Some (NotSupported, st)) (fun st _ => Some (NotSupported, st)) (fun st _ => Some (NotSupported, st))
    true false.

Lemma memtable_write_get_witness :
  exists m', TropoMemtable_Write (MemTableRep0 := ListRep.ops (H := BytewiseComparator)) false refuse_rest newMemTable
      (batch_of 7 [UPut [x61] [x01]; UDelete [x61]; UPut [x62] [x02]]) = Some (OK, m') /\
    TropoMemtable_Get (H := BytewiseComparator) m' (newLookupKey [x61] 7) [] OK 0 = (true, [x01], OK, 7).
Proof.
  destruct (memtable_write_get (H := BytewiseComparator) (Rep := ListRep.t) false refuse_rest (fun _ => eq_refl)
    [UPut [x61] [x01]; UDelete [x61]; UPut [x62] [x02]] newMemTable 7 [x61] 7 [] OK 0) as (m' & Hw & _ & _ & _ & Hg).
  - apply newMemTable_inv.
  - repeat constructor; vm_compute; congruence.
  - done.
  - done.
  - vm_compute. congruence.
  - intros kv Hkv. by apply elem_of_nil in Hkv.
  - right. vm_compute. congruence.
  - unfold valid_seq. vm_compute. split; congruence.
  - exists m'. split; [exact Hw|]. rewrite Hg. vm_compute in Hw. injection Hw as <-. by vm_compute.
Defined.
