(* ===== verification/VersionBuilder.v ===== *)
(** * VersionBuilder: applying an edit to a version

    [TropoVersionSet::Builder] of [index/tropodb_version_set_builder.cc]: the
    tables an edit adds and deletes are accumulated per level, and the new
    version merges them with the tables of the version it is based on. *)

From S2P Require Import Prelude Coding DbFormat Config SSTable SSTableIter VersionEdit Version.

Section Builder.
Context `{UserComparator}.

(** ** State *)

(** [BySmallestKey], index/tropodb_version_set.h:157-169 *)
Definition BySmallestKey (m1 m2 : SSZoneMetaData) : comparison :=
  cmp_lex (InternalCompare (m_smallest m1) (m_smallest m2)) (Z.compare (m_number m1) (m_number m2)).

(** Insertion into a [std::set] ordered by [BySmallestKey], the [ZoneSet]: an
    element that is equivalent to a present one is not inserted. *)
Fixpoint zone_insert (m : SSZoneMetaData) (l : list SSZoneMetaData) : list SSZoneMetaData :=
  match l with
  | [] => [m]
  | x :: l' =>
      match BySmallestKey m x with
      | Lt => m :: l
      | Eq => l
      | Gt => x :: zone_insert m l'
      end
  end.

(** [LevelState], index/tropodb_version_set.h:172-176 *)
Record LevelState := mkLevel {
  deleted_ss : gset Z;
  added_ss : list SSZoneMetaData;
  deleted_ss_pers : list SSZoneMetaData
}.

(** [TropoVersionSet::Builder], index/tropodb_version_set.h:178-183 *)
Record Builder := mkBuilder {
  b_ss_deleted_range : Z * Z;
  b_fragmented_data : bytes;
  b_base : TropoVersion;
  b_levels : list LevelState
}.

(** [TropoVersionSet::Builder::Builder], index/tropodb_version_set_builder.cc:9-20 *)
Definition newBuilder (base current : TropoVersion) : Builder :=
  mkBuilder (v_ss_deleted_range current) [] base
    (replicate (Z.to_nat level_count) (mkLevel ∅ [] [])).

(** ** Applying an edit *)

(** An access to an array of the levels; out of range is undefined. *)
Definition update_level {A} (f : A -> A) (level : Z) (arr : list A) : option (list A) :=
  if (0 <=? level) && (level <? blen arr) then Some (alter f (Z.to_nat level) arr) else None.

(** A loop whose body may fail. *)
Fixpoint foldM {A B} (f : B -> A -> option B) (l : list A) (b : B) : option B :=
  match l with [] => Some b | a :: l => b ← f b a; foldM f l b end.

Definition delete_number (n : Z) (s : LevelState) : LevelState :=
  mkLevel ({[ n ]} ∪ deleted_ss s) (added_ss s) (deleted_ss_pers s).
Definition delete_pers (m : SSZoneMetaData) (s : LevelState) : LevelState :=
  mkLevel (deleted_ss s) (added_ss s) (deleted_ss_pers s ++ [m]).
Definition add_table (m : SSZoneMetaData) (s : LevelState) : LevelState :=
  mkLevel (deleted_ss s ∖ {[ m_number m ]}) (zone_insert m (added_ss s)) (deleted_ss_pers s).

(** [TropoVersionSet::Builder::Apply], index/tropodb_version_set_builder.cc:44-86;
    with the compaction pointers of the version set, which it sets. *)
Definition Apply (b : Builder) (compact_pointer : list bytes) (e : TropoVersionEdit)
    : option (Builder * list bytes) :=
  compact_pointer ← foldM (fun arr lk => update_level (fun _ => snd lk) (fst lk) arr)
    (ve_compact_pointers e) compact_pointer;
  levels ← foldM (fun arr ln => update_level (delete_number (snd ln)) (fst ln) arr)
    (elements (ve_deleted_ss e)) (b_levels b);
  let range := if ve_has_deleted_range e then ve_deleted_range e else b_ss_deleted_range b in
  levels ← foldM (fun arr lm => update_level (delete_pers (snd lm)) (fst lm) arr)
    (ve_deleted_ss_pers e) levels;
  levels ← foldM (fun arr lm => update_level (add_table (snd lm)) (fst lm) arr)
    (ve_new_ss e) levels;
  let frag := if ve_has_fragmented_data e then ve_fragmented_data e else [] in
  Some (mkBuilder range frag (b_base b) levels, compact_pointer).

(** ** Saving the new version *)

(** The tables of [base] up to [std::upper_bound] of [added], and the rest. *)
Fixpoint upper_bound_split (added : SSZoneMetaData) (base : list SSZoneMetaData)
    : list SSZoneMetaData * list SSZoneMetaData :=
  match base with
  | [] => ([], [])
  | x :: base' =>
      match BySmallestKey added x with
      | Lt => ([], base)
      | _ => let '(l, r) := upper_bound_split added base' in (x :: l, r)
      end
  end.

(** [TropoVersionSet::Builder::MaybeAddZone], index/tropodb_version_set_builder.cc:147-163.
    The assertion fails with [None]. *)
Definition MaybeAddZone (s : LevelState) (level : Z) (sstables : list SSZoneMetaData) (m : SSZoneMetaData)
    : option (list SSZoneMetaData) :=
  if bool_decide (m_number m ∈ deleted_ss s) then Some sstables
  else
    match last sstables with
    | Some l =>
        if (0 <? level) && negb (bool_decide (InternalCompare (m_largest l) (m_smallest m) = Lt)) then None
        else Some (sstables ++ [m])
    | None => Some (sstables ++ [m])
    end.

(** The 2-way merge of [SaveTo]. *)
Fixpoint merge_tables (s : LevelState) (level : Z) (base added sstables : list SSZoneMetaData)
    : option (list SSZoneMetaData) :=
  match added with
  | [] => foldM (MaybeAddZone s level) base sstables
  | a :: added =>
      let '(before, base) := upper_bound_split a base in
      sstables ← foldM (MaybeAddZone s level) before sstables;
      sstables ← MaybeAddZone s level sstables a;
      merge_tables s level base added sstables
  end.

(** The check for overlapping tables, which aborts. *)
Fixpoint no_overlap (ss : list SSZoneMetaData) : bool :=
  match ss with
  | a :: (b :: _) as ss' => bool_decide (InternalCompare (m_largest a) (m_smallest b) = Lt) && no_overlap ss'
  | _ => true
  end.

(** One level of the new version. *)
Definition save_level (b : Builder) (level : Z) (s : LevelState)
    : option (list SSZoneMetaData * list SSZoneMetaData) :=
  ss ← merge_tables s level (level_tables (v_ss (b_base b)) level) (added_ss s) [];
  if (0 <? level) && negb (no_overlap ss) then None
  else Some (ss, level_tables (v_ss_d (b_base b)) level ++ deleted_ss_pers s).

Fixpoint save_levels (b : Builder) (level : Z) (ls : list LevelState)
    : option (list (list SSZoneMetaData) * list (list SSZoneMetaData)) :=
  match ls with
  | [] => Some ([], [])
  | s :: ls =>
      '(ss, ss_d) ← save_level b level s;
      '(sss, sss_d) ← save_levels b (level + 1) ls;
      Some (ss :: sss, ss_d :: sss_d)
  end.

(** [TropoVersionSet::Builder::SaveTo], index/tropodb_version_set_builder.cc:89-145,
    into a new version. *)
Definition SaveTo (b : Builder) : option TropoVersion :=
  '(ss, ss_d) ← save_levels b 0 (b_levels b);
  Some (mkVersion ss ss_d (b_ss_deleted_range b)).

(** The builder of [LogAndApply]: the edit applied to the current version. *)
Definition apply_edit (v : TropoVersion) (compact_pointer : list bytes) (e : TropoVersionEdit)
    : option (TropoVersion * list bytes) :=
  '(b, compact_pointer) ← Apply (newBuilder v v) compact_pointer e;
  v ← SaveTo b;
  Some (v, compact_pointer).

(** ** The level states that an edit produces *)

Section UpdateLevel.
Context {A X : Type} (lvl : X -> Z) (g : X -> A -> A).

(** The elements of level [i], in order. *)
Definition at_level (i : nat) (xs : list X) : list X := filter (fun x => lvl x = Z.of_nat i) xs.

Lemma update_level_lookup x (arr arr' : list A) i :
  update_level (g x) (lvl x) arr = Some arr' ->
  arr' !! i = (if decide (lvl x = Z.of_nat i) then g x else id) <$> arr !! i.
Proof.
  unfold update_level. destruct (_ && _) eqn:E; [|done]. intros [= <-].
  apply andb_true_iff in E as [E1%Z.leb_le E2%Z.ltb_lt].
  destruct (decide (lvl x = Z.of_nat i)) as [Hi|Hi].
  - rewrite Hi, Nat2Z.id. by rewrite list_lookup_alter_eq.
  - rewrite list_lookup_alter_ne by lia. by destruct (arr !! i).
Qed.

Lemma foldM_update_lookup xs (arr arr' : list A) i :
  foldM (fun arr x => update_level (g x) (lvl x) arr) xs arr = Some arr' ->
  arr' !! i = (fun s => fold_left (fun s x => g x s) (at_level i xs) s) <$> arr !! i.
Proof.
  revert arr. induction xs as [|x xs IH]; intros arr H1; cbn [foldM] in H1.
  - injection H1 as <-. by destruct (arr !! i).
  - apply bind_Some in H1 as (arr1 & Hu & H1). rewrite (IH _ H1), (update_level_lookup _ _ _ i Hu).
    unfold at_level. rewrite filter_cons. destruct (decide _); by destruct (arr !! i).
Qed.

Lemma foldM_update_length xs (arr arr' : list A) :
  foldM (fun arr x => update_level (g x) (lvl x) arr) xs arr = Some arr' -> length arr' = length arr.
Proof.
  revert arr. induction xs as [|x xs IH]; intros arr H1; cbn [foldM] in H1; [by injection H1 as <-|].
  apply bind_Some in H1 as (arr1 & Hu & H1). rewrite (IH _ H1). unfold update_level in Hu.
  case_match; [|done]. injection Hu as <-. apply length_alter.
Qed.

Lemma foldM_update_total xs (arr : list A) :
  Forall (fun x => 0 <= lvl x < blen arr) xs ->
  exists arr', foldM (fun arr x => update_level (g x) (lvl x) arr) xs arr = Some arr'.
Proof.
  revert arr. induction xs as [|x xs IH]; intros arr Hx; cbn [foldM]; [eauto|].
  apply Forall_cons in Hx as [Hx Hxs]. unfold update_level at 2.
  rewrite (proj2 (Z.leb_le _ _)), (proj2 (Z.ltb_lt _ _)) by lia. cbn [andb mbind option_bind].
  apply IH. unfold blen in *. by rewrite length_alter.
Qed.
End UpdateLevel.

Lemma fold_delete_number (l : list (Z * Z)) (s : LevelState) :
  fold_left (fun s ln => delete_number (snd ln) s) l s =
  mkLevel (list_to_set (map snd l) ∪ deleted_ss s) (added_ss s) (deleted_ss_pers s).
Proof.
  revert s. induction l as [|[a n] l IH]; intros s; cbn [fold_left map list_to_set].
  - destruct s. cbn. f_equal. set_solver.
  - rewrite IH. unfold delete_number. cbn [deleted_ss added_ss deleted_ss_pers snd]. f_equal. set_solver.
Qed.

Lemma fold_delete_pers (l : list (Z * SSZoneMetaData)) (s : LevelState) :
  fold_left (fun s lm => delete_pers (snd lm) s) l s =
  mkLevel (deleted_ss s) (added_ss s) (deleted_ss_pers s ++ map snd l).
Proof.
  revert s. induction l as [|[a m] l IH]; intros s; cbn [fold_left map].
  - destruct s. cbn. by rewrite app_nil_r.
  - rewrite IH. unfold delete_pers. cbn [deleted_ss added_ss deleted_ss_pers snd]. by rewrite <-app_assoc.
Qed.

(** The set of new tables, as the sequence of insertions leaves it. *)
Definition zone_set (l : list SSZoneMetaData) (z : list SSZoneMetaData) : list SSZoneMetaData :=
  fold_left (fun z m => zone_insert m z) l z.

Lemma fold_add_table (l : list (Z * SSZoneMetaData)) (s : LevelState) :
  fold_left (fun s lm => add_table (snd lm) s) l s =
  mkLevel (deleted_ss s ∖ list_to_set (m_number <$> map snd l)) (zone_set (map snd l) (added_ss s)) (deleted_ss_pers s).
Proof.
  revert s. induction l as [|[a m] l IH]; intros s; cbn [fold_left map].
  - destruct s. cbn. f_equal. set_solver.
  - rewrite IH. unfold add_table. cbn [deleted_ss added_ss deleted_ss_pers snd fmap list_fmap list_to_set].
    f_equal. set_solver.
Qed.

(** The state of a level after the edit. *)
Definition edit_level (e : TropoVersionEdit) (i : nat) : LevelState :=
  let news := map snd (at_level fst i (ve_new_ss e)) in
  mkLevel (list_to_set (map snd (at_level fst i (elements (ve_deleted_ss e)))) ∖ list_to_set (m_number <$> news))
    (zone_set news [])
    (map snd (at_level fst i (ve_deleted_ss_pers e))).

(** The levels of an edit are levels of the store. *)
Definition edit_levels_ok (e : TropoVersionEdit) : Prop :=
  Forall (fun lk => level_ok (fst lk)) (ve_compact_pointers e) /\
  Forall (fun ln => level_ok (fst ln)) (elements (ve_deleted_ss e)) /\
  Forall (fun lm => level_ok (fst lm)) (ve_deleted_ss_pers e) /\
  Forall (fun lm => level_ok (fst lm)) (ve_new_ss e).

Lemma Apply_spec v cp e :
  edit_levels_ok e -> blen cp = level_count ->
  exists b cp', Apply (newBuilder v v) cp e = Some (b, cp') /\
    b_base b = v /\ length (b_levels b) = Z.to_nat level_count /\
    b_ss_deleted_range b = (if ve_has_deleted_range e then ve_deleted_range e else v_ss_deleted_range v) /\
    (forall i, (i < Z.to_nat level_count)%nat -> b_levels b !! i = Some (edit_level e i)) /\
    (forall i, cp' !! i = (fun s => fold_left (fun _ lk => snd lk) (at_level fst i (ve_compact_pointers e)) s) <$> cp !! i).
Proof.
  intros (Hc & Hd & Hp & Hn) Hcp. unfold Apply, newBuilder. cbn [b_levels b_base b_ss_deleted_range].
  set (l0 := replicate _ _).
  assert (Hlen : length l0 = Z.to_nat level_count) by apply length_replicate.
  destruct (foldM_update_total fst (fun (lk : Z * bytes) _ => snd lk) (ve_compact_pointers e) cp) as [cp' Hcp'];
    [by rewrite Hcp|].
  destruct (foldM_update_total fst (fun (ln : Z * Z) => delete_number (snd ln)) (elements (ve_deleted_ss e)) l0)
    as [l1 H1]; [unfold blen; by rewrite Hlen|].
  pose proof (foldM_update_length _ _ _ _ _ H1) as Hl1.
  destruct (foldM_update_total fst (fun (lm : Z * SSZoneMetaData) => delete_pers (snd lm)) (ve_deleted_ss_pers e) l1)
    as [l2 H2]; [unfold blen; by rewrite Hl1, Hlen|].
  pose proof (foldM_update_length _ _ _ _ _ H2) as Hl2.
  destruct (foldM_update_total fst (fun (lm : Z * SSZoneMetaData) => add_table (snd lm)) (ve_new_ss e) l2)
    as [l3 H3]; [unfold blen; by rewrite Hl2, Hl1, Hlen|].
  pose proof (foldM_update_length _ _ _ _ _ H3) as Hl3.
  rewrite Hcp'. obind. rewrite H1. obind. rewrite H2. obind. rewrite H3. obind.
  eexists _, _. split_and!; [reflexivity|done|cbn; lia|done| |].
  - intros i Hi. cbn [b_levels].
    rewrite (foldM_update_lookup _ _ _ _ _ i H3), (foldM_update_lookup _ _ _ _ _ i H2),
      (foldM_update_lookup _ _ _ _ _ i H1).
    subst l0. rewrite lookup_replicate_2 by done. obind.
    rewrite fold_delete_number, fold_delete_pers, fold_add_table. cbn [deleted_ss added_ss deleted_ss_pers].
    unfold edit_level. rewrite union_empty_r_L. done.
  - intros i. apply (foldM_update_lookup fst (fun (lk : Z * bytes) _ => snd lk) _ _ _ i Hcp').
Qed.

(** ** The merge is the sorted merge of the live tables *)

#[export] Instance BySmallestKey_laws : CmpLaws BySmallestKey.
Proof. apply (cmp_lex_laws m_smallest m_number InternalCompare Z.compare); [apply InternalCompare_laws|apply Z_cmp_laws]. Qed.

Lemma list_merge_split a added base :
  list_merge (cle BySmallestKey) base (a :: added) =
  (upper_bound_split a base).1 ++ a :: list_merge (cle BySmallestKey) (upper_bound_split a base).2 added.
Proof.
  induction base as [|x base IH]; [by destruct added|].
  cbn [upper_bound_split]. change (list_merge (cle BySmallestKey) (x :: base) (a :: added)) with
    (if decide (cle BySmallestKey x a) then x :: list_merge (cle BySmallestKey) base (a :: added)
     else a :: list_merge (cle BySmallestKey) (x :: base) added).
  destruct (BySmallestKey a x) eqn:E.
  2: { rewrite decide_False; [done|]. by apply (clt_nle BySmallestKey). }
  all: rewrite decide_True by (rewrite <-(nclt_le BySmallestKey); unfold clt; congruence);
    rewrite IH; by destruct (upper_bound_split a base).
Qed.

Lemma foldM_app {A B} (f : B -> A -> option B) l k b : foldM f (l ++ k) b = b ← foldM f l b; foldM f k b.
Proof. revert b. induction l as [|a l IH]; intros b; cbn; [done|]. destruct (f b a); cbn; auto. Qed.

Lemma merge_tables_list_merge s level base added ss :
  merge_tables s level base added ss =
  foldM (MaybeAddZone s level) (list_merge (cle BySmallestKey) base added) ss.
Proof.
  revert base ss. induction added as [|a added IH]; intros base ss; cbn [merge_tables].
  - by destruct base.
  - rewrite list_merge_split. destruct (upper_bound_split a base) as [l r]. cbn [fst snd].
    rewrite foldM_app. destruct (foldM _ l ss) as [ss'|]; [|done]. cbn.
    destruct (MaybeAddZone s level ss' a) as [ss''|]; [|done]. cbn. apply IH.
Qed.

(** The tables that survive the edit. *)
Definition live (s : LevelState) (m : SSZoneMetaData) : Prop := m_number m ∉ deleted_ss s.
#[local] Instance live_dec s m : Decision (live s m).
Proof. unfold live. solve_decision. Defined.

Lemma no_overlap_snoc l a :
  no_overlap (l ++ [a]) =
  no_overlap l && match last l with Some z => bool_decide (InternalCompare (m_largest z) (m_smallest a) = Lt) | None => true end.
Proof.
  induction l as [|x l IH]; [done|]. destruct l as [|y l]; [cbn; by rewrite andb_true_r|].
  change (no_overlap ((x :: y :: l) ++ [a])) with
    (bool_decide (InternalCompare (m_largest x) (m_smallest y) = Lt) && no_overlap ((y :: l) ++ [a])).
  change (no_overlap (x :: y :: l)) with
    (bool_decide (InternalCompare (m_largest x) (m_smallest y) = Lt) && no_overlap (y :: l)).
  change (last (x :: y :: l)) with (last (y :: l)). by rewrite IH, andb_assoc.
Qed.

Lemma no_overlap_app_l l k : no_overlap (l ++ k) = true -> no_overlap l = true.
Proof.
  revert l. induction k as [|a k IH]; intros l Hl; [by rewrite app_nil_r in Hl|].
  specialize (IH (l ++ [a])). rewrite <-app_assoc in IH. specialize (IH Hl).
  rewrite no_overlap_snoc in IH. by apply andb_true_iff in IH as [? _].
Qed.

Lemma foldM_MaybeAddZone s level l acc :
  no_overlap acc = true \/ level <= 0 ->
  foldM (MaybeAddZone s level) l acc =
  if (0 <? level) && negb (no_overlap (acc ++ filter (live s) l)) then None
  else Some (acc ++ filter (live s) l).
Proof.
  revert acc. induction l as [|m l IH]; intros acc Hacc; cbn [foldM].
  - rewrite filter_nil, app_nil_r. destruct Hacc as [->|Hl]; [by rewrite andb_false_r|].
    by rewrite (proj2 (Z.ltb_ge _ _)).
  - unfold MaybeAddZone at 2.
    destruct (decide (m_number m ∈ deleted_ss s)) as [Hd|Hd].
    + rewrite bool_decide_true by done. rewrite !filter_cons_False by (unfold live; tauto). cbn. by apply IH.
    + rewrite bool_decide_false by done. rewrite !filter_cons_True by done.
      change (acc ++ m :: filter (live s) l) with (acc ++ [m] ++ filter (live s) l). rewrite app_assoc.
      pose proof (no_overlap_snoc acc m) as Hsn.
      destruct (Z.ltb_spec 0 level) as [Hpos|Hneg]; cbn [andb] in *.
      2: { replace (match last acc with Some l0 => Some (acc ++ [m]) | None => Some (acc ++ [m]) end)
             with (Some (acc ++ [m])) by (by destruct (last acc)).
           cbn. by rewrite IH by (right; lia). }
      destruct Hacc as [Hacc|]; [|lia]. rewrite Hacc in Hsn. cbn in Hsn.
      assert (Hstep : forall r, no_overlap (acc ++ [m]) = r ->
        (match last acc with
         | Some z => if negb (bool_decide (InternalCompare (m_largest z) (m_smallest m) = Lt)) then None else Some (acc ++ [m])
         | None => Some (acc ++ [m]) end) = if r then Some (acc ++ [m]) else None).
      { intros r <-. rewrite Hsn. destruct (last acc); [|done]. by destruct (bool_decide _). }
      rewrite (Hstep _ eq_refl). destruct (no_overlap (acc ++ [m])) eqn:E; cbn.
      * by rewrite IH by (by left).
      * destruct (no_overlap ((acc ++ [m]) ++ filter (live s) l)) eqn:E2; [|done].
        apply no_overlap_app_l in E2. congruence.
Qed.

(** The tables of a level of the new version. *)
Definition merged (s : LevelState) (base : list SSZoneMetaData) : list SSZoneMetaData :=
  filter (live s) (list_merge (cle BySmallestKey) base (added_ss s)).

Lemma save_level_spec b level s :
  save_level b level s =
  let ss := merged s (level_tables (v_ss (b_base b)) level) in
  if (0 <? level) && negb (no_overlap ss) then None
  else Some (ss, level_tables (v_ss_d (b_base b)) level ++ deleted_ss_pers s).
Proof.
  unfold save_level. rewrite merge_tables_list_merge, foldM_MaybeAddZone by (by left).
  rewrite app_nil_l. fold (merged s (level_tables (v_ss (b_base b)) level)). cbn zeta.
  destruct ((0 <? level) && _) eqn:E; [done|]. cbn. by rewrite E.
Qed.

Lemma save_levels_Some b lev ls sss sss_d :
  save_levels b lev ls = Some (sss, sss_d) ->
  length sss = length ls /\ length sss_d = length ls /\
  forall i s, ls !! i = Some s ->
    let l := lev + Z.of_nat i in
    let ss := merged s (level_tables (v_ss (b_base b)) l) in
    sss !! i = Some ss /\ sss_d !! i = Some (level_tables (v_ss_d (b_base b)) l ++ deleted_ss_pers s) /\
    (0 < l -> no_overlap ss = true).
Proof.
  revert lev sss sss_d. induction ls as [|s ls IH]; intros lev sss sss_d Hs; cbn [save_levels] in Hs.
  - injection Hs as <- <-. done.
  - rewrite save_level_spec in Hs. cbn zeta in Hs. destruct ((0 <? lev) && _) eqn:E; [done|].
    apply bind_Some in Hs as ([ss ss_d] & [= <- <-] & Hs).
    apply bind_Some in Hs as ([sss1 sss1_d] & Hs1 & [= <- <-]).
    destruct (IH _ _ _ Hs1) as (Hl1 & Hl2 & Hi). cbn [length]. split_and!; [by f_equal..|].
    intros [|i] s' Hs'; cbn zeta.
    + injection Hs' as <-. rewrite Z.add_0_r. split_and!; [done..|]. intros Hpos.
      rewrite (proj2 (Z.ltb_lt _ _) Hpos) in E. by apply negb_false_iff in E.
    + replace (lev + Z.of_nat (S i)) with (lev + 1 + Z.of_nat i) by lia. by apply Hi.
Qed.

Lemma save_levels_total b lev ls :
  (forall i s, ls !! i = Some s -> 0 < lev + Z.of_nat i ->
     no_overlap (merged s (level_tables (v_ss (b_base b)) (lev + Z.of_nat i))) = true) ->
  is_Some (save_levels b lev ls).
Proof.
  revert lev. induction ls as [|s ls IH]; intros lev Hno; cbn [save_levels]; [done|].
  rewrite save_level_spec. cbn zeta.
  assert (E : (0 <? lev) && negb (no_overlap (merged s (level_tables (v_ss (b_base b)) lev))) = false).
  { destruct (Z.ltb_spec 0 lev) as [Hp|]; [|done]. specialize (Hno 0%nat s eq_refl).
    rewrite Z.add_0_r in Hno. by rewrite Hno. }
  rewrite E. cbn. destruct (IH (lev + 1)) as [[sss sss_d] ->]; [|done].
  intros i s' Hi Hp. specialize (Hno (S i) s' Hi).
  replace (lev + Z.of_nat (S i)) with (lev + 1 + Z.of_nat i) in Hno by lia. by apply Hno.
Qed.

(** ** The set of new tables *)

Lemma zone_insert_sorted m l :
  StronglySorted (clt BySmallestKey) l -> StronglySorted (clt BySmallestKey) (zone_insert m l).
Proof.
  assert (Helem : forall x l, x ∈ zone_insert m l -> x = m \/ x ∈ l).
  { intros x k. induction k as [|y k IH]; cbn [zone_insert].
    - intros ->%list_elem_of_singleton. by left.
    - destruct (BySmallestKey m y); rewrite ?elem_of_cons; naive_solver. }
  induction 1 as [|x l Hs IH Hf]; cbn [zone_insert]; [repeat constructor|].
  destruct (BySmallestKey m x) eqn:E.
  - by constructor.
  - constructor; [by constructor|]. constructor; [done|]. eapply Forall_impl; [exact Hf|].
    intros y. by apply (clt_trans BySmallestKey).
  - constructor; [done|]. apply Forall_forall. intros y [->|Hy]%Helem.
    + by apply (cmp_gt_lt BySmallestKey).
    + by eapply Forall_forall in Hf.
Qed.

Lemma zone_insert_perm m l : m_number m ∉ m_number <$> l -> zone_insert m l ≡ₚ m :: l.
Proof.
  induction l as [|x l IH]; cbn [zone_insert fmap list_fmap]; [done|]. intros Hn.
  apply not_elem_of_cons in Hn as [Hne Hn]. destruct (BySmallestKey m x) eqn:E; [|done|].
  - exfalso. apply Hne. unfold BySmallestKey, cmp_lex in E. case_match; try done. by apply Z.compare_eq in E.
  - rewrite IH by done. apply Permutation_swap.
Qed.

Lemma zone_set_sorted l z :
  StronglySorted (clt BySmallestKey) z -> StronglySorted (clt BySmallestKey) (zone_set l z).
Proof. revert z. induction l as [|m l IH]; intros z Hz; [done|]. apply IH. by apply zone_insert_sorted. Qed.

Lemma zone_set_perm l z : NoDup (m_number <$> l ++ z) -> zone_set l z ≡ₚ l ++ z.
Proof.
  revert z. induction l as [|m l IH]; intros z Hnd; [done|]. cbn [app fmap list_fmap] in Hnd.
  apply NoDup_cons in Hnd as [Hni Hnd]. rewrite fmap_app, elem_of_app in Hni.
  assert (Hp : zone_insert m z ≡ₚ m :: z) by (apply zone_insert_perm; tauto).
  change (zone_set (m :: l) z) with (zone_set l (zone_insert m z)). rewrite IH.
  - rewrite Hp. by rewrite <-Permutation_middle.
  - rewrite Hp, <-Permutation_middle. cbn [fmap list_fmap]. apply NoDup_cons. split; [|done].
    by rewrite fmap_app, elem_of_app.
Qed.

(** Tables that arrive in order stay in that order. *)
Lemma zone_set_in_order l z :
  StronglySorted (clt BySmallestKey) (z ++ l) -> zone_set l z = z ++ l.
Proof.
  revert z. induction l as [|m l IH]; intros z Hs; [by rewrite app_nil_r|].
  assert (Hz : forall x, x ∈ z -> clt BySmallestKey x m).
  { intros x Hx. apply (StronglySorted_app_1_elem_of _ _ _ x m Hs Hx). by left. }
  assert (Hins : zone_insert m z = z ++ [m]).
  { clear -Hz. induction z as [|x z IHz]; [done|]. cbn [zone_insert app].
    rewrite (proj2 (cmp_gt_lt BySmallestKey m x)) by (apply Hz; by left). f_equal. apply IHz. intros y Hy. apply Hz. by right. }
  change (zone_set (m :: l) z) with (zone_set l (zone_insert m z)). rewrite Hins, IH; rewrite <-app_assoc; done.
Qed.

(** ** The new version *)

Lemma apply_edit_spec v cp e :
  edit_levels_ok e -> blen cp = level_count ->
  (forall l, 1 <= l < level_count ->
     no_overlap (merged (edit_level e (Z.to_nat l)) (level_tables (v_ss v) l)) = true) <->
  is_Some (apply_edit v cp e).
Proof.
  intros He Hcp. destruct (Apply_spec v cp e He Hcp) as (b & cp' & Hb & Hbase & Hlen & _ & Hlv & _).
  unfold apply_edit, SaveTo. rewrite Hb. obind. split.
  - intros Hno. destruct (save_levels_total b 0 (b_levels b)) as [[sss sss_d] ->]; [|done].
    intros i s Hi Hpos. pose proof (lookup_lt_Some _ _ _ Hi) as Hlt. rewrite Hlen in Hlt.
    rewrite (Hlv i Hlt) in Hi. injection Hi as <-. rewrite Hbase, Z.add_0_l.
    specialize (Hno (Z.of_nat i)). rewrite Nat2Z.id in Hno. apply Hno. lia.
  - intros [[v' cp''] Hs] l Hl. destruct (save_levels b 0 (b_levels b)) as [[sss sss_d]|] eqn:E; [|done].
    apply save_levels_Some in E as (_ & _ & Hi). specialize (Hi (Z.to_nat l) _ (Hlv (Z.to_nat l) ltac:(lia))).
    cbn zeta in Hi. rewrite Z.add_0_l, Z2Nat.id, Hbase in Hi by lia. apply Hi. lia.
Qed.

Lemma apply_edit_pointers v cp e v' cp' : apply_edit v cp e = Some (v', cp') -> blen cp' = blen cp.
Proof.
  unfold apply_edit, Apply. intros ([b cp1] & (cp2 & Hp & Hr)%bind_Some & (v1 & _ & [= _ <-])%bind_Some)%bind_Some.
  apply foldM_update_length in Hp.
  apply bind_Some in Hr as (l1 & _ & (l2 & _ & (l3 & _ & [= _ <-])%bind_Some)%bind_Some). unfold blen. by rewrite Hp.
Qed.

Lemma apply_edit_level v cp e v' cp' l :
  edit_levels_ok e -> blen cp = level_count -> apply_edit v cp e = Some (v', cp') -> 0 <= l < level_count ->
  level_tables (v_ss v') l = merged (edit_level e (Z.to_nat l)) (level_tables (v_ss v) l) /\
  level_tables (v_ss_d v') l =
    level_tables (v_ss_d v) l ++ map snd (at_level fst (Z.to_nat l) (ve_deleted_ss_pers e)) /\
  (0 < l -> no_overlap (level_tables (v_ss v') l) = true) /\
  v_ss_deleted_range v' = (if ve_has_deleted_range e then ve_deleted_range e else v_ss_deleted_range v) /\
  (forall i, cp' !! i = (fun s => fold_left (fun _ lk => snd lk) (at_level fst i (ve_compact_pointers e)) s) <$> cp !! i) /\
  length (v_ss v') = Z.to_nat level_count /\ length (v_ss_d v') = Z.to_nat level_count.
Proof.
  intros He Hcp Ha Hl. destruct (Apply_spec v cp e He Hcp) as (b & cp1 & Hb & Hbase & Hlen & Hrange & Hlv & Hcps).
  unfold apply_edit, SaveTo in Ha. rewrite Hb in Ha. cbn [mbind option_bind] in Ha.
  destruct (save_levels b 0 (b_levels b)) as [[sss sss_d]|] eqn:E; [|done]. injection Ha as <- <-.
  apply save_levels_Some in E as (H1 & H2 & Hi). specialize (Hi (Z.to_nat l) _ (Hlv (Z.to_nat l) ltac:(lia))).
  cbn zeta in Hi. rewrite Z.add_0_l, Z2Nat.id, Hbase in Hi by lia. destruct Hi as (Hss & Hsd & Hno).
  unfold level_tables at 1 3 5. cbn [v_ss v_ss_d v_ss_deleted_range]. rewrite Hss, Hsd.
  split_and!; try done; by rewrite ?H1, ?H2, Hlen.
Qed.

Lemma elem_of_at_level {X} (i : nat) (xs : list (Z * X)) x :
  x ∈ map snd (at_level fst i xs) <-> (Z.of_nat i, x) ∈ xs.
Proof.
  rewrite list_elem_of_fmap. unfold at_level. split.
  - intros ([l y] & -> & [Hl Hin]%list_elem_of_filter). simpl in *. by subst.
  - intros Hx. exists (Z.of_nat i, x). split; [done|]. by apply list_elem_of_filter.
Qed.

(** The numbers of the new tables of a level. *)
Definition new_numbers (e : TropoVersionEdit) (l : Z) : list Z :=
  m_number <$> map snd (at_level fst (Z.to_nat l) (ve_new_ss e)).

Lemma edit_level_deleted e l n :
  0 <= l -> n ∈ deleted_ss (edit_level e (Z.to_nat l)) <-> (l, n) ∈ ve_deleted_ss e /\ n ∉ new_numbers e l.
Proof.
  intros Hl. unfold edit_level, new_numbers. cbn [deleted_ss].
  rewrite elem_of_difference, !elem_of_list_to_set, elem_of_at_level, elem_of_elements, Z2Nat.id by lia. done.
Qed.

Lemma new_tables_perm e l :
  NoDup (new_numbers e l) -> added_ss (edit_level e (Z.to_nat l)) ≡ₚ map snd (at_level fst (Z.to_nat l) (ve_new_ss e)).
Proof. intros Hnd. cbn. rewrite zone_set_perm; rewrite app_nil_r; done. Qed.

Lemma merged_perm s base : merged s base ≡ₚ filter (live s) base ++ filter (live s) (added_ss s).
Proof. unfold merged. rewrite merge_Permutation. by rewrite filter_app. Qed.

Lemma merged_elem e l base m :
  0 <= l -> NoDup (new_numbers e l) ->
  m ∈ merged (edit_level e (Z.to_nat l)) base <->
  (l, m) ∈ ve_new_ss e \/ (m ∈ base /\ ((l, m_number m) ∈ ve_deleted_ss e -> m_number m ∈ new_numbers e l)).
Proof.
  intros Hl Hnd. unfold merged. rewrite list_elem_of_filter, merge_Permutation, elem_of_app.
  unfold live. rewrite edit_level_deleted, new_tables_perm, elem_of_at_level, Z2Nat.id by (done || lia).
  assert (Hnew : (l, m) ∈ ve_new_ss e -> m_number m ∈ new_numbers e l).
  { intros Hm. apply list_elem_of_fmap_2. apply elem_of_at_level. by rewrite Z2Nat.id by lia. }
  destruct (decide (m_number m ∈ new_numbers e l)); tauto.
Qed.

Lemma merged_sorted e i base :
  StronglySorted (cle BySmallestKey) base -> StronglySorted (cle BySmallestKey) (merged (edit_level e i) base).
Proof.
  intros Hs. unfold merged. apply StronglySorted_filter.
  apply Sorted_StronglySorted; [intros a b c; apply (cmp_trans (cmp:=BySmallestKey))|].
  apply Sorted_list_merge; [apply (cle_total BySmallestKey)|by apply StronglySorted_Sorted|].
  apply StronglySorted_Sorted. eapply StronglySorted_weaken; [intros a b; apply (clt_le BySmallestKey)|].
  apply zone_set_sorted. constructor.
Qed.

Lemma no_overlap_lookup ss i a b :
  no_overlap ss = true -> ss !! i = Some a -> ss !! S i = Some b -> clt InternalCompare (m_largest a) (m_smallest b).
Proof.
  revert i. induction ss as [|x ss IH]; intros i Hk; [done|]. destruct ss as [|y ss]; [by destruct i|].
  cbn [no_overlap] in Hk. apply andb_true_iff in Hk as [Hxy%bool_decide_eq_true Hk].
  destruct i as [|i]; intros Hi Hj; [by injection Hi as <-; injection Hj as <-|]. by apply (IH i Hk).
Qed.

(** Tables in the order of their smallest keys, of which any two are apart. *)
Lemma no_overlap_apart ss :
  StronglySorted (cle BySmallestKey) ss -> NoDup (m_number <$> ss) ->
  (forall a, a ∈ ss -> cle InternalCompare (m_smallest a) (m_largest a)) ->
  (forall a b, a ∈ ss -> b ∈ ss -> m_number a <> m_number b ->
     clt InternalCompare (m_largest a) (m_smallest b) \/ clt InternalCompare (m_largest b) (m_smallest a)) ->
  no_overlap ss = true.
Proof.
  induction 1 as [|a ss Hs IH Hf]; [done|]. intros Hnd Hwf Hap. destruct ss as [|b ss]; [done|].
  cbn [no_overlap fmap list_fmap] in *. apply NoDup_cons in Hnd as [Hna Hnd]. rewrite andb_true_iff, bool_decide_eq_true. split.
  - apply Forall_cons in Hf as [Hab _]. destruct (Hap a b) as [?|Hba]; [left|right; left| |done|].
    { intros E. apply Hna. rewrite E. left. }
    exfalso. assert (Hle : cle InternalCompare (m_smallest a) (m_smallest b)).
    { unfold cle, BySmallestKey, cmp_lex in Hab. unfold cle. by destruct (InternalCompare _ _). }
    apply (clt_nle InternalCompare) in Hba. apply Hba. trans (m_smallest b); [done|]. apply Hwf. right. left.
  - apply IH; [done|intros x Hx; apply Hwf; by right|intros x y Hx Hy; apply Hap; by right].
Qed.

(** Tables that do not overlap are in order. *)
Lemma no_overlap_sorted ss :
  (forall a, a ∈ ss -> cle InternalCompare (m_smallest a) (m_largest a)) -> no_overlap ss = true ->
  StronglySorted (fun m m' => clt InternalCompare (m_largest m) (m_smallest m')) ss.
Proof.
  induction ss as [|x ss IH]; intros Hwf Hno; [constructor|]. destruct ss as [|y ss]; [by repeat constructor|].
  cbn [no_overlap] in Hno. apply andb_true_iff in Hno as [Hxy%bool_decide_eq_true Hno].
  specialize (IH ltac:(intros a Ha; apply Hwf; by right) Hno). constructor; [done|]. constructor; [done|].
  apply StronglySorted_inv in IH as [_ Hf]. eapply Forall_impl; [exact Hf|]. intros z Hz.
  eapply (clt_le_trans InternalCompare); [exact Hxy|]. apply (clt_le InternalCompare).
  eapply (cle_lt_trans InternalCompare); [|exact Hz]. apply Hwf. right. left.
Qed.

(** C26: the version an edit produces.  A level has the new tables of the edit
    and the tables of the old version that the edit does not delete (a deleted
    number that the edit adds again is not deleted); it is sorted by smallest key
    when the old one was; above level 0 neighbouring tables do not overlap; and
    the tables to reclaim are appended to those of the old version. *)
Theorem version_edit_applied v cp e v' cp' l :
  edit_levels_ok e -> blen cp = level_count -> apply_edit v cp e = Some (v', cp') ->
  0 <= l < level_count -> NoDup (new_numbers e l) ->
  (forall m, m ∈ level_tables (v_ss v') l <->
     (l, m) ∈ ve_new_ss e \/
     (m ∈ level_tables (v_ss v) l /\ ((l, m_number m) ∈ ve_deleted_ss e -> m_number m ∈ new_numbers e l))) /\
  (StronglySorted (cle BySmallestKey) (level_tables (v_ss v) l) ->
   StronglySorted (cle BySmallestKey) (level_tables (v_ss v') l)) /\
  (0 < l -> forall i a b, level_tables (v_ss v') l !! i = Some a -> level_tables (v_ss v') l !! S i = Some b ->
     clt InternalCompare (m_largest a) (m_smallest b)) /\
  level_tables (v_ss_d v') l =
    level_tables (v_ss_d v) l ++ map snd (at_level fst (Z.to_nat l) (ve_deleted_ss_pers e)).
Proof.
  intros He Hcp Ha Hl Hnd. destruct (apply_edit_level v cp e v' cp' l He Hcp Ha Hl) as (Hss & Hsd & Hno & _).
  rewrite Hss in *. split_and!; [|apply merged_sorted| |done].
  - intros m. apply merged_elem; [lia|done].
  - intros Hpos i a b. by apply no_overlap_lookup, Hno.
Qed.
End Builder.

(** ** Witness: a compaction of level 0 replaces the table of level 1 *)

Module BuilderWitness.
Definition edit : TropoVersionEdit :=
  set_new_ss (RemoveSSDefinition (RemoveSSDefinition newEdit 0 VersionWitness.m1) 1 VersionWitness.m3)
    [(1, VersionWitness.meta 9 0 (InternalKey (VersionWitness.key 1) 5 1) (InternalKey (VersionWitness.key 4) 2 1))].
End BuilderWitness.

Lemma version_edit_applied_witness :
  exists v' cp', apply_edit (H := BytewiseComparator) VersionWitness.v (replicate 6 []) BuilderWitness.edit = Some (v', cp') /\
    (VersionWitness.m3 ∉ level_tables (v_ss v') 1) /\ level_tables (v_ss_d v') 1 = [VersionWitness.m3].
Proof.
  eexists _, _. split; [vm_compute; reflexivity|].
  edestruct (version_edit_applied (H := BytewiseComparator) VersionWitness.v (replicate 6 []) BuilderWitness.edit)
    with (l := 1) as (Hm & _ & _ & Hd).
  - split_and!; apply (bool_decide_unpack _); vm_compute; done.
  - done.
  - vm_compute. reflexivity.
  - done.
  - apply (bool_decide_unpack _). by vm_compute.
  - split; [|exact Hd]. intros Hin. apply Hm in Hin as [Hin|[_ Hin]].
    + apply list_elem_of_singleton in Hin. discriminate Hin.
    + assert (Hn : m_number VersionWitness.m3 ∈ new_numbers BuilderWitness.edit 1) by (apply Hin; set_solver).
      change (new_numbers BuilderWitness.edit 1) with [9] in Hn.
      apply list_elem_of_singleton in Hn. discriminate Hn.
Defined.
