(* ===== verification/CommitLog.v ===== *)
(** * CommitLog: the committer over a circular log

    The operations of [persistence/tropodb_committer.cc] that write records to a
    log and read them back block by block. *)

From S2P Require Import Prelude Coding Crc32c DbFormat Config Committer Szd.

(** ** Writing *)

Section CommitLog.
Context {St : Type} `{!CircularLog St} `{!SZDBuffer} (lba_size : Z).

(** [TropoCommitter::SpaceEnough], persistence/tropodb_committer.cc:57-63 *)
Definition SpaceEnough (log : St) (data : bytes) : bool := cl_SpaceLeft log (SpaceNeeded lba_size (blen data)).

(** [TropoCommitter::Commit], persistence/tropodb_committer.cc:119-201.  The
    result is the status, what [*lbas] was set to ([None] when it was not
    written) and the log.  [keep_buffer] is the member of the same name. *)
Definition Commit (keep_buffer : bool) (log : St) (data : bytes) : option (Status * option Z * St) :=
  let fragcount := blen data / lba_size + 1 in
  let size_needed := fragcount * kTropoHeaderSize + blen data in
  let size_needed := (size_needed + lba_size - 1) / lba_size * lba_size in
  match buf_Realloc size_needed with
  | (Success, fragment) =>
      fragment ← commit_loop lba_size (S (length data)) fragment 0 data true;
      let '(r, lbas_iter, log) := cl_Append log (ztake size_needed fragment) in
      let s := FromStatus r in
      let s := if keep_buffer then s else FromStatus buf_Free in
      Some (s, Some lbas_iter, log)
  | (r, _) => Some (FromStatus r, None, log)
  end.

(** [TropoCommitter::SafeCommit], persistence/tropodb_committer.cc:203-209 *)
Definition SafeCommit (keep_buffer : bool) (log : St) (data : bytes) : option (Status * option Z * St) :=
  if SpaceEnough log data then Commit keep_buffer log data else Some (IOError, None, log).

(** ** Reading *)

(** [TropoCommitReader], persistence/tropodb_committer.h:31-37.  The reader's
    number selects the read buffer; the model has one reader and keeps its
    buffer here. *)
Record TropoCommitReader := mkReader {
  cr_commit_start : Z;
  cr_commit_end : Z;
  cr_commit_ptr : Z;
  cr_scratch : bytes;
  cr_buffer : bytes
}.

(** [TropoCommitter::GetCommitReader], persistence/tropodb_committer.cc:211-229,
    for reader 0 *)
Definition GetCommitReader (begin end_ : Z) : Status * option TropoCommitReader :=
  if end_ <=? begin then (InvalidArgument, None)
  else
    match buf_Realloc lba_size with
    | (Success, mem) => (OK, Some (mkReader begin end_ begin deadbeef mem))
    | _ => (MemoryLimit, None)
    end.

(** [log_->Read] of a block into the buffer; its status is ignored, and a failed
    read leaves the buffer as it is. *)
Definition read_block (log : St) (buffer : bytes) (lba : Z) : bytes :=
  match cl_Read log lba lba_size with
  | (Success, data) => data
  | _ => buffer
  end.

(** The [while] loop of [SeekCommitReader].  A fragment with a body moves
    [commit_ptr] by a block. *)
Fixpoint seek_loop (fuel : nat) (log : St) (r : TropoCommitReader) (in_frag : bool)
    : option (option bytes * TropoCommitReader) :=
  match fuel with
  | O => None
  | S fuel =>
      if (cr_commit_ptr r <? cr_commit_end r) && (cr_commit_start r <=? cr_commit_ptr r) then
        let left := (cr_commit_end r - cr_commit_ptr r) * lba_size in
        let to_read := if lba_size <? left then lba_size else left in
        let header := read_block log (cr_buffer r) (cr_commit_ptr r) in
        '(length, type) ← parse_fragment header to_read;
        let ptr := cr_commit_ptr r + (length + lba_size - 1) / lba_size in
        let upd s := mkReader (cr_commit_start r) (cr_commit_end r) ptr s header in
        let body := ztake length (zdrop kTropoHeaderSize header) in
        match handle_fragment type body (cr_scratch r) in_frag with
        | Return record => Some (Some record, upd record)
        | Reject => Some (None, upd [])
        | Continue scratch in_frag => seek_loop fuel log (upd scratch) in_frag
        end
      else Some (None, r)
  end.

(** [TropoCommitter::SeekCommitReader], persistence/tropodb_committer.cc:231-320.
    The second read of a body longer than a block cannot happen: [to_read] is at
    most a block. *)
Definition SeekCommitReader (log : St) (r : TropoCommitReader) : option (option bytes * TropoCommitReader) :=
  if blen (cr_buffer r) =? 0 then Some (None, r)
  else if cr_commit_end r <=? cr_commit_ptr r then Some (None, r)
  else
    let r := mkReader (cr_commit_start r) (cr_commit_end r) (cr_commit_ptr r) [] (cr_buffer r) in
    seek_loop (S (Z.to_nat (cr_commit_end r - cr_commit_ptr r))) log r false.

(** [TropoCommitter::CloseCommit], persistence/tropodb_committer.cc:322-328 *)
Definition CloseCommit (keep_buffer : bool) (r : TropoCommitReader) : bool * TropoCommitReader :=
  (true, mkReader (cr_commit_start r) (cr_commit_end r) (cr_commit_ptr r) []
           (if keep_buffer then cr_buffer r else [])).
End CommitLog.

(** ** A committed record is a run of blocks of the log *)

Section CommitProofs.
Context {St : Type} `{!CircularLog St} `{!SZDBuffer}.
Context (lba_size min_head max_head : Z) `{!CircularLogLaws St lba_size min_head max_head}.
Context (HL : 8 < lba_size <= 2 ^ 24).

(** The blocks of a record. *)
Definition record_blocks (data : bytes) : list bytes :=
  map (fun f => frag_block lba_size (fst f) (snd f)) (record_frags lba_size data).

Lemma record_blocks_image data : concat (record_blocks data) = record_image lba_size data.
Proof. done. Qed.

Lemma record_blocks_size data : Forall (fun b => blen b = lba_size) (record_blocks data).
Proof.
  unfold record_blocks, record_frags. apply Forall_map.
  eapply Forall_impl; [apply (frags_bound (lba_size - kTropoHeaderSize)); unfold kTropoHeaderSize; lia|].
  intros [t b] Hb. apply blen_frag_block; done.
Qed.

Lemma record_blocks_count data : blen (record_blocks data) = frag_count lba_size (blen data).
Proof. unfold record_blocks. rewrite <-(record_frags_count lba_size HL data). unfold blen. by rewrite length_map. Qed.

(** Equal concatenations of equal-sized blocks are equal. *)
Lemma concat_blocks_inj (bs cs : list bytes) :
  Forall (fun b => blen b = lba_size) bs -> Forall (fun b => blen b = lba_size) cs ->
  concat bs = concat cs -> bs = cs.
Proof.
  intros Hb. revert cs. induction Hb as [|b bs Hb _ IH]; intros cs Hc E.
  - destruct Hc as [|c cs Hc _]; [done|]. apply (f_equal blen) in E. cbn [concat] in E.
    rewrite blen_app, blen_nil in E. pose_blen. lia.
  - destruct Hc as [|c cs Hc Hcs]; cbn [concat] in E.
    + apply (f_equal blen) in E. rewrite blen_app, blen_nil in E. pose_blen. lia.
    + apply app_inj_1 in E as [-> E]; [|unfold blen in *; lia]. f_equal. by apply IH.
Qed.

(** The size limit of [commit_roundtrip]. *)
Definition commit_limit : Z := (lba_size / 8 + 1) * (lba_size - 8).

Lemma Commit_spec log data st n log' :
  blen data <= commit_limit -> Commit lba_size true log data = Some (st, n, log') -> st = OK ->
  n = Some (frag_count lba_size (blen data)) /\
  cl_blocks log' = cl_blocks log ++ record_blocks data /\ cl_GetWriteTail log' = cl_GetWriteTail log.
Proof.
  intros Hd Hc ->. unfold Commit in Hc. fold (SpaceNeeded lba_size (blen data)) in Hc. cbn zeta in Hc.
  change ((((blen data / lba_size + 1) * kTropoHeaderSize + blen data) + lba_size - 1) / lba_size * lba_size)
    with (SpaceNeeded lba_size (blen data)) in Hc.
  pose proof (SpaceNeeded_exact lba_size HL (blen data) ltac:(unfold commit_limit in Hd; pose_blen; lia)) as Hsp.
  pose proof (frag_count_bounds lba_size HL (blen data) (blen_nonneg data)) as (Hfc & _).
  destruct (buf_Realloc (SpaceNeeded lba_size (blen data))) as [r mem] eqn:Er.
  destruct r; try (by injection Hc). apply buf_Realloc_size in Er; [|nia].
  pose proof (CommitToCharArray_spec lba_size HL (fun n => if n =? SpaceNeeded lba_size (blen data) then mem
    else replicate (Z.to_nat n) x00) data) as Hcs.
  unfold CommitToCharArray in Hcs. rewrite Z.eqb_refl in Hcs. rewrite Hsp, Z.eqb_refl in Hcs.
  rewrite Hcs in Hc.
  2: { intros m Hm. destruct (Z.eqb_spec m (frag_count lba_size (blen data) * lba_size)) as [->|]; [congruence|].
       rewrite blen_replicate. lia. }
  cbn [mbind option_bind] in Hc. pose proof (record_image_length lba_size HL data) as Hil.
  rewrite ztake_all in Hc by lia.
  destruct (cl_Append log (record_image lba_size data)) as [[r k] l1] eqn:Ea.
  injection Hc as Hr <- <-. apply FromStatus_ok in Hr as ->.
  eapply (cl_append_aligned lba_size min_head max_head) in Ea as (Hk & Ht & bs & Hbs & Hbl & Hbn & Hv); [|lia|exact Hil].
  split_and!; [by f_equal| |done]. rewrite Hv. f_equal. symmetry.
  apply concat_blocks_inj; [apply record_blocks_size|done|]. by rewrite record_blocks_image.
Qed.

Lemma SafeCommit_spec log data st n log' :
  blen data <= commit_limit -> SafeCommit lba_size true log data = Some (st, n, log') -> st = OK ->
  n = Some (frag_count lba_size (blen data)) /\
  cl_blocks log' = cl_blocks log ++ record_blocks data /\ cl_GetWriteTail log' = cl_GetWriteTail log.
Proof.
  unfold SafeCommit. case_match; [apply Commit_spec|]. intros _ [= <- <- <-]. done.
Qed.

(** The log holds the blocks [bs] at the addresses from [ptr] on. *)
Definition reads_at (log : St) (ptr : Z) (bs : list bytes) : Prop :=
  forall i b, bs !! i = Some b -> cl_Read log (ptr + Z.of_nat i) lba_size = (Success, b).

Lemma reads_at_cons log ptr b bs :
  reads_at log ptr (b :: bs) -> cl_Read log ptr lba_size = (Success, b) /\ reads_at log (ptr + 1) bs.
Proof.
  intros Hr. split; [specialize (Hr 0%nat b eq_refl); by rewrite Z.add_0_r in Hr|].
  intros i c Hi. specialize (Hr (S i) c Hi). by replace (ptr + 1 + Z.of_nat i) with (ptr + Z.of_nat (S i)) by lia.
Qed.

Lemma next_lba len : 0 < len <= lba_size - 8 -> (len + lba_size - 1) / lba_size = 1.
Proof. intros Hlen. symmetry. apply (Z.div_unique _ _ _ (len - 1)); lia. Qed.

(** One round on a written fragment. *)
Lemma seek_step fuel log st e ptr scratch buf in_frag type body :
  st <= ptr < e -> 0 < blen body <= lba_size - 8 -> type <> kInvalid ->
  cl_Read log ptr lba_size = (Success, frag_block lba_size type body) ->
  seek_loop lba_size (S fuel) log (mkReader st e ptr scratch buf) in_frag =
  let upd s := mkReader st e (ptr + 1) s (frag_block lba_size type body) in
  match handle_fragment type body scratch in_frag with
  | Return record => Some (Some record, upd record)
  | Reject => Some (None, upd [])
  | Continue scratch in_frag => seek_loop lba_size fuel log (upd scratch) in_frag
  end.
Proof.
  intros Hp Hb Ht Hr. cbn [seek_loop cr_commit_ptr cr_commit_end cr_commit_start cr_scratch cr_buffer].
  rewrite (proj2 (Z.ltb_lt _ _)), (proj2 (Z.leb_le _ _)) by lia. cbn [andb].
  unfold read_block. rewrite Hr.
  pose proof (parse_frag_block lba_size HL type body [] lba_size ltac:(lia) Ht ltac:(lia)) as Hpf.
  rewrite app_nil_r in Hpf.
  pose proof (frag_block_body lba_size type body []) as Hbody. rewrite app_nil_r in Hbody.
  assert ((if lba_size <? (e - ptr) * lba_size then lba_size else (e - ptr) * lba_size) = lba_size) as ->.
  { destruct (Z.ltb_spec lba_size ((e - ptr) * lba_size)); nia. }
  rewrite Hpf. obind. rewrite Hbody, next_lba by lia. done.
Qed.

Lemma seek_loop_spec fuel n begin data log st e ptr scratch buf :
  (length data < n)%nat -> data <> [] -> st <= ptr ->
  let fs := frags (lba_size - 8) n begin data in
  (length fs <= fuel)%nat -> ptr + blen fs <= e ->
  reads_at log ptr (map (fun f => frag_block lba_size (fst f) (snd f)) fs) ->
  exists buf', blen buf' = lba_size /\
    seek_loop lba_size fuel log (mkReader st e ptr scratch buf) (negb begin) =
    let record := (if begin then [] else scratch) ++ data in
    Some (Some record, mkReader st e (ptr + blen fs) record buf').
Proof.
  cbv zeta. revert n begin data ptr scratch buf.
  induction fuel as [|fuel IH]; intros n begin data ptr scratch buf Hn Hd Hst Hf He Hr;
    (destruct n as [|n]; [lia|]); cbn [frags] in *; set (av := lba_size - 8) in *;
    assert (Hpos : 0 < blen data) by (destruct data; [done|]; rewrite blen_cons; pose_blen; lia).
  { destruct (blen data <=? av); simpl in Hf; lia. }
  destruct (Z.leb_spec (blen data) av) as [Hle|Hgt]; cbn [map fst snd] in Hr;
    apply reads_at_cons in Hr as [Hr1 Hr2].
  - rewrite blen_cons, blen_nil in He |- *. exists (frag_block lba_size (if begin then kFullType else kLastType) data).
    split; [by apply blen_frag_block|]. rewrite seek_step with (type := if begin then kFullType else kLastType) (body := data);
      [|lia|unfold av in *; lia|by destruct begin|done]. by destruct begin.
  - rewrite blen_cons in He |- *.
    assert (Hb : blen (ztake av data) = av) by (unfold av in *; len).
    pose proof (blen_nonneg (frags av n false (zdrop av data))).
    rewrite seek_step with (type := if begin then kFirstType else kMiddleType) (body := ztake av data);
      [|lia|unfold av in *; lia|by destruct begin|done]. cbv zeta.
    assert (Hh : handle_fragment (if begin then kFirstType else kMiddleType) (ztake av data) scratch (negb begin)
      = Continue ((if begin then [] else scratch) ++ ztake av data) true) by (by destruct begin).
    rewrite Hh.
    assert (Hrest : blen (zdrop av data) = blen data - av) by (unfold av in *; len).
    destruct (IH n false (zdrop av data) (ptr + 1) ((if begin then [] else scratch) ++ ztake av data)
      (frag_block lba_size (if begin then kFirstType else kMiddleType) (ztake av data))) as (buf' & Hbuf & E);
      [unfold blen, av in *; lia| |lia|cbn [length] in Hf; lia|lia|done|].
    { intros E. rewrite E, blen_nil in Hrest. lia. }
    exists buf'. split; [done|]. cbn [negb] in E. rewrite E. rewrite <-app_assoc, ztake_zdrop.
    by rewrite Z.add_assoc.
Qed.

(** Seeking a reader that stands on the blocks of a record returns the record
    and moves behind its blocks. *)
Lemma SeekCommitReader_spec log data st e ptr scratch buf :
  data <> [] -> st <= ptr -> ptr + blen (record_blocks data) <= e -> blen buf = lba_size ->
  reads_at log ptr (record_blocks data) ->
  exists buf', blen buf' = lba_size /\
    SeekCommitReader lba_size log (mkReader st e ptr scratch buf) =
    Some (Some data, mkReader st e (ptr + blen (record_blocks data)) data buf').
Proof.
  intros Hd Hst He Hbuf Hr. unfold SeekCommitReader.
  cbn [cr_commit_ptr cr_commit_end cr_commit_start cr_scratch cr_buffer].
  rewrite (proj2 (Z.eqb_neq _ _)) by lia.
  pose proof (record_blocks_count data) as Hc.
  pose proof (frag_count_bounds lba_size HL (blen data) (blen_nonneg data)) as (H1 & _).
  rewrite (proj2 (Z.leb_gt _ _)) by lia.
  assert (Hlen : blen (record_frags lba_size data) = blen (record_blocks data)).
  { unfold record_blocks, blen. by rewrite length_map. }
  destruct (seek_loop_spec (S (Z.to_nat (e - ptr))) (S (length data)) true data log st e ptr [] buf)
    as (buf' & Hb' & E); [lia|done|done| | |done|].
  - change (frags (lba_size - 8) (S (length data)) true data) with (record_frags lba_size data).
    unfold blen in *. lia.
  - change (frags (lba_size - 8) (S (length data)) true data) with (record_frags lba_size data). lia.
  - exists buf'. split; [done|]. cbn [negb] in E. rewrite E. cbv zeta. rewrite app_nil_l.
    change (frags (lba_size - 8) (S (length data)) true data) with (record_frags lba_size data). by rewrite Hlen.
Qed.

(** Blocks of the log that are at index [i] of its view are read at the address
    of that index, with or without wrap-around. *)
Lemma reads_at_view log pre bs post ptr :
  cl_blocks log = pre ++ bs ++ post -> min_head <= ptr ->
  ptr = cl_wrap min_head max_head (cl_GetWriteTail log + blen pre) ->
  reads_at log ptr bs.
Proof.
  intros Hv Hp Hptr i b Hi. pose proof (cl_tail_range log) as Ht. pose proof (cl_not_full log) as Hnf.
  rewrite Hv, !blen_app in Hnf. pose proof (lookup_lt_Some _ _ _ Hi) as Hlt. pose proof (blen_nonneg post).
  rewrite <-(Z.mul_1_l lba_size). change 1 with (blen [b]). rewrite <-(app_nil_r b) at 2.
  apply (cl_read_ok log (pre ++ take i bs) [b] (drop (S i) bs ++ post)).
  - rewrite Hv, <-!app_assoc. f_equal. rewrite <-(take_drop_middle bs i b Hi) at 1. by rewrite <-app_assoc.
  - done.
  - lia.
  - assert (Ht' : blen (take i bs) = Z.of_nat i) by (unfold blen; rewrite length_take, Nat.min_l by lia; done).
    rewrite blen_app, Ht'.
    unfold cl_wrap in *. pose proof (blen_nonneg pre). unfold blen at 2 in Hnf.
    repeat match goal with |- context [?a <? ?b] => destruct (Z.ltb_spec a b)
      | H : context [?a <? ?b] |- _ => destruct (Z.ltb_spec a b) end; lia.
Qed.

(** A record that is committed to the log is read back.  For every
    non-empty record within the size limit whose commit reports success, a reader
    over the blocks it was given returns the record, then reports the end. *)
Theorem commit_log_roundtrip log data lbas log' :
  data <> [] -> blen data <= commit_limit ->
  SafeCommit lba_size true log data = Some (OK, Some lbas, log') ->
  forall mem, buf_Realloc lba_size = (Success, mem) ->
  let start := cl_GetWriteHead log in
  exists r0 r1, GetCommitReader lba_size start (start + lbas) = (OK, Some r0) /\
    SeekCommitReader lba_size log' r0 = Some (Some data, r1) /\
    SeekCommitReader lba_size log' r1 = Some (None, r1).
Proof.
  intros Hd Hmax Hc mem Hmem. cbv zeta.
  destruct (SafeCommit_spec _ _ _ _ _ Hmax Hc eq_refl) as ([= ->] & Hv & Ht).
  pose proof (record_blocks_count data) as Hcnt.
  pose proof (frag_count_bounds lba_size HL (blen data) (blen_nonneg data)) as (H1 & _).
  set (start := cl_GetWriteHead log).
  assert (Hmin : min_head <= start).
  { unfold start. rewrite cl_head. unfold cl_wrap. pose proof (cl_tail_range log). pose proof (blen_nonneg (cl_blocks log)).
    case_match; rewrite ?Z.ltb_lt, ?Z.ltb_ge in *; lia. }
  unfold GetCommitReader. rewrite (proj2 (Z.leb_gt _ _)) by lia. rewrite Hmem.
  eexists _. edestruct (SeekCommitReader_spec log' data start (start + frag_count lba_size (blen data)) start deadbeef mem)
    as (buf' & Hb' & Hseek); [done|lia|lia|eapply buf_Realloc_size; [|done]; lia| |].
  - apply (reads_at_view _ (cl_blocks log) (record_blocks data) []); [by rewrite app_nil_r|done|].
    unfold start. by rewrite cl_head, Ht.
  - eexists. split_and!; [reflexivity|exact Hseek|]. unfold SeekCommitReader.
    cbn [cr_commit_ptr cr_commit_end cr_buffer]. rewrite (proj2 (Z.eqb_neq _ _)), (proj2 (Z.leb_le _ _)) by lia. done.
Qed.
End CommitProofs.

Module CommitLogWitness.
#[global] Instance log_ops : CircularLog MemLog.t := MemLog.ops 16 0 8.
#[global] Instance log_laws : CircularLogLaws MemLog.t 16 0 8 := MemLog.laws 16 0 8 ltac:(lia) ltac:(lia).
(** The tail is at block 6, so that the record wraps around. *)
Definition log : MemLog.t := MemLog.mk 6 [replicate 16 x00].
Definition data : bytes := [x61; x62; x63; x64; x65; x66; x67; x68; x69].
End CommitLogWitness.

Lemma commit_log_roundtrip_witness :
  exists log' r0 r1, SafeCommit (CircularLog0 := CommitLogWitness.log_ops) 16 true CommitLogWitness.log CommitLogWitness.data
      = Some (OK, Some 2, log') /\
    GetCommitReader 16 7 9 = (OK, Some r0) /\
    SeekCommitReader (CircularLog0 := CommitLogWitness.log_ops) 16 log' r0 = Some (Some CommitLogWitness.data, r1).
Proof.
  eexists. edestruct (commit_log_roundtrip (CircularLog0 := CommitLogWitness.log_ops) 16 0 8 ltac:(lia)
    CommitLogWitness.log CommitLogWitness.data 2) as (r0 & r1 & H1 & H2 & _).
  - discriminate.
  - vm_compute. discriminate.
  - vm_compute. reflexivity.
  - reflexivity.
  - exists r0, r1. split; [vm_compute; reflexivity|]. split; [exact H1|exact H2].
Defined.
