(* ===== verification/Manifest.v ===== *)
(** * Manifest: the persistent description of the index

    [persistence/tropodb_manifest.h] and [.cc].  A circular log holds pairs of a
    manifest record and a CURRENT record that points to it; the last CURRENT in
    the log is the installed one.  Old pairs are reclaimed in whole zones. *)

From S2P Require Import Prelude Coding Crc32c DbFormat Config Committer Szd CommitLog.

(** [current_preamble], persistence/tropodb_manifest.cc:11-12 *)
Definition current_preamble : bytes := [x43; x55; x52; x52; x45; x4e; x54; x3a].
Definition current_preamble_size : Z := blen current_preamble.

(** [TropoManifest], persistence/tropodb_manifest.h:55-64 *)
Record TropoManifest (St : Type) := mkManifest {
  manifest_start : Z;
  manifest_blocks : Z;
  manifest_start_new : Z;
  manifest_blocks_new : Z;
  deleted_range_begin : Z;
  deleted_range_blocks : Z;
  mf_log : St
}.
Arguments mkManifest {St}.
Arguments manifest_start {St}.
Arguments manifest_blocks {St}.
Arguments manifest_start_new {St}.
Arguments manifest_blocks_new {St}.
Arguments deleted_range_begin {St}.
Arguments deleted_range_blocks {St}.
Arguments mf_log {St}.

Section Manifest.
Context {St : Type} `{!CircularLog St} `{!SZDBuffer}.
Context (lba_size min_zone_head max_zone_head zone_cap : Z).

(** [TropoManifest::TropoManifest], persistence/tropodb_manifest.cc:14-35 *)
Definition newManifest (log : St) : TropoManifest St := mkManifest max_zone_head 0 0 0 0 0 log.

Definition with_log (m : TropoManifest St) (log : St) : TropoManifest St :=
  mkManifest (manifest_start m) (manifest_blocks m) (manifest_start_new m) (manifest_blocks_new m)
    (deleted_range_begin m) (deleted_range_blocks m) log.

(** ** Writing *)

(** [TropoManifest::NewManifest], persistence/tropodb_manifest.cc:39-50 *)
Definition NewManifest (m : TropoManifest St) (record : bytes) : option (Status * TropoManifest St) :=
  if negb (SpaceEnough lba_size (mf_log m) record) then Some (NoSpace, m)
  else
    let start_new := cl_GetWriteHead (mf_log m) in
    '(s, lbas, log) ← SafeCommit lba_size true (mf_log m) record;
    Some (s, mkManifest (manifest_start m) (manifest_blocks m) start_new
               (default (manifest_blocks_new m) lbas) (deleted_range_begin m) (deleted_range_blocks m) log).

(** The first part of [SetCurrent]: reclaim whole zones of old space. *)
Definition reclaim (m : TropoManifest St) : TropoManifest St :=
  let delete_blocks := deleted_range_blocks m / zone_cap * zone_cap in
  if delete_blocks =? 0 then m
  else
    let '(_, log) := cl_ConsumeTail (mf_log m) (deleted_range_begin m) (deleted_range_begin m + delete_blocks) in
    mkManifest (manifest_start m) (manifest_blocks m) (manifest_start_new m) (manifest_blocks_new m)
      (deleted_range_begin m) (deleted_range_blocks m - delete_blocks) log.

(** The CURRENT record. *)
Definition current_name (m : TropoManifest St) : bytes :=
  PutFixed64 (PutFixed64 (PutFixed64 (PutFixed64 current_preamble (manifest_start_new m))
    (manifest_blocks_new m)) (deleted_range_begin m)) (deleted_range_blocks m).

(** [TropoManifest::SetCurrent], persistence/tropodb_manifest.cc:52-91 *)
Definition SetCurrent (m : TropoManifest St) : option (Status * TropoManifest St) :=
  let m := reclaim m in
  let m := mkManifest (manifest_start m) (manifest_blocks m) (manifest_start_new m) (manifest_blocks_new m)
    (cl_GetWriteTail (mf_log m)) (deleted_range_blocks m + (manifest_blocks m + 1)) (mf_log m) in
  '(s, _, log) ← SafeCommit lba_size true (mf_log m) (current_name m);
  let m := with_log m log in
  if negb (ok s) then Some (s, m)
  else
    Some (s, mkManifest (manifest_start_new m) (manifest_blocks_new m) (manifest_start_new m)
               (manifest_blocks_new m) (deleted_range_begin m) (deleted_range_blocks m) (mf_log m)).

(** ** Reading *)

Definition set_pointers (m : TropoManifest St) (a b c d : Z) : TropoManifest St :=
  mkManifest a b (manifest_start_new m) (manifest_blocks_new m) c d (mf_log m).

(** [TropoManifest::TryParseCurrent], persistence/tropodb_manifest.cc:93-128.
    [reader] is the reader of the caller; [None] is a read outside of the record
    or of a reader that was never set up. *)
Definition TryParseCurrent (m : TropoManifest St) (slba : Z) (reader : option TropoCommitReader)
    : option (Status * TropoManifest St * option TropoCommitReader) :=
  let reader := match GetCommitReader lba_size slba (slba + 1) with (OK, r) => r | _ => reader end in
  r ← reader;
  '(record, r) ← SeekCommitReader lba_size (mf_log m) r;
  match record with
  | None => Some (Corruption, m, Some r)
  | Some potential =>
      if blen potential <? current_preamble_size then Some (Corruption, m, Some r)
      else if negb (bool_decide (ztake current_preamble_size potential = current_preamble))
      then Some (Corruption, m, Some r)
      else
        header ← slice current_preamble_size (8 * 4) potential;
        '(start, header) ← GetFixed64 header;
        '(blocks, header) ← GetFixed64 header;
        '(start_delete, header) ← GetFixed64 header;
        '(blocks_delete, header) ← GetFixed64 header;
        let m := set_pointers m start blocks start_delete blocks_delete in
        if (start <? min_zone_head) || (max_zone_head <? start) || (max_zone_head - min_zone_head <? blocks)
        then Some (Corruption, m, Some r)
        else Some (OK, m, Some r)
  end.

(** The loop of [TryGetCurrent], from [slba] down to the tail. *)
Fixpoint find_current (fuel : nat) (m : TropoManifest St) (slba : Z) (reader : option TropoCommitReader)
    : option (bool * TropoManifest St) :=
  match fuel with
  | O => None
  | S fuel =>
      if slba =? cl_GetWriteTail (mf_log m) then Some (false, m)
      else
        '(s, m, reader) ← TryParseCurrent m slba reader;
        if ok s then Some (true, m)
        else find_current fuel m (if slba =? min_zone_head then max_zone_head - 1 else slba - 1) reader
  end.

(** [TropoManifest::TryGetCurrent], persistence/tropodb_manifest.cc:130-160 *)
Definition TryGetCurrent (m : TropoManifest St) : option (Status * TropoManifest St) :=
  if cl_Empty (mf_log m) then
    Some (NotFound, set_pointers m 0 0 (deleted_range_begin m) (deleted_range_blocks m))
  else
    let head := cl_GetWriteHead (mf_log m) in
    let slba := if head =? min_zone_head then max_zone_head - 1 else head - 1 in
    '(found, m) ← find_current (S (Z.to_nat (max_zone_head - min_zone_head))) m slba None;
    Some (if (found : bool) then OK else NotFound, m).

(** [TropoManifest::Recover], persistence/tropodb_manifest.cc:162-176 *)
Definition Recover (m : TropoManifest St) : option (Status * TropoManifest St) :=
  let '(r, log) := cl_RecoverPointers (mf_log m) in
  let m := with_log m log in
  let s := FromStatus r in
  if negb (ok s) then Some (s, m) else TryGetCurrent m.

(** [TropoManifest::Reset], persistence/tropodb_manifest.cc:178-186 *)
Definition Reset (m : TropoManifest St) : Status * TropoManifest St :=
  let '(r, log) := cl_ResetAll (mf_log m) in
  (FromStatus r, mkManifest (manifest_start m) (manifest_blocks m) (manifest_start_new m)
     (manifest_blocks_new m) min_zone_head 0 log).

(** [TropoManifest::ValidateManifestPointers], persistence/tropodb_manifest.cc:188-207 *)
Definition ValidateManifestPointers (m : TropoManifest St) : Status :=
  let head := cl_GetWriteHead (mf_log m) in
  let tail := cl_GetWriteTail (mf_log m) in
  let start := manifest_start m in
  let end_ := manifest_start m + manifest_blocks m in
  if tail <? head then
    if (head <? start) || (head <? end_) || (start <? tail) || (end_ <? tail) then Corruption else OK
  else
    if ((head <? start) && (start <? tail)) || ((head <? end_) && (end_ <? tail)) then Corruption else OK.

(** The loop that reads the records of the manifest. *)
Fixpoint read_records (fuel : nat) (log : St) (r : TropoCommitReader) (manifest : bytes) : option bytes :=
  match fuel with
  | O => None
  | S fuel =>
      '(record, r) ← SeekCommitReader lba_size log r;
      match record with
      | Some record => read_records fuel log r (manifest ++ record)
      | None => Some manifest
      end
  end.

(** [TropoManifest::ReadManifest], persistence/tropodb_manifest.cc:209-235.  A
    record takes at least one of the manifest's blocks. *)
Definition ReadManifest (m : TropoManifest St) (manifest : bytes) : option (Status * bytes) :=
  let s := ValidateManifestPointers m in
  if negb (ok s) then Some (s, manifest)
  else if manifest_blocks m =? 0 then Some (IOError, manifest)
  else
    match GetCommitReader lba_size (manifest_start m) (manifest_start m + manifest_blocks m) with
    | (OK, Some r) =>
        manifest ← read_records (S (Z.to_nat (manifest_blocks m))) (mf_log m) r manifest;
        Some (OK, manifest)
    | (s, _) => Some (s, manifest)
    end.
End Manifest.

(** ** What is installed is recovered *)

Section ManifestProofs.
Context {St : Type} `{!CircularLog St} `{!SZDBuffer}.
Context (lba_size min_head max_head zone_cap : Z) `{!CircularLogLaws St lba_size min_head max_head}.
Context (HL : 48 <= lba_size <= 2 ^ 24) (Hgeo : 0 <= min_head < max_head) (Hmax : max_head < 2 ^ 63) (Hzc : 0 < zone_cap).

Let wrap := cl_wrap min_head max_head.

Lemma wrap_range a : min_head <= a < max_head + (max_head - min_head) -> min_head <= wrap a < max_head.
Proof. unfold wrap, cl_wrap. intros. destruct (Z.ltb_spec a max_head); lia. Qed.

(** The block before the head is the last block of the log. *)
Lemma before_head log :
  0 < blen (cl_blocks log) ->
  (if cl_GetWriteHead log =? min_head then max_head - 1 else cl_GetWriteHead log - 1)
  = wrap (cl_GetWriteTail log + (blen (cl_blocks log) - 1)).
Proof.
  intros Hpos. rewrite cl_head. pose proof (cl_tail_range log). pose proof (cl_not_full log).
  unfold wrap, cl_wrap. destruct (Z.ltb_spec (cl_GetWriteTail log + blen (cl_blocks log)) max_head),
    (Z.ltb_spec (cl_GetWriteTail log + (blen (cl_blocks log) - 1)) max_head);
    match goal with |- context [?a =? ?b] => destruct (Z.eqb_spec a b) end; lia.
Qed.

(** The position of the installed manifest in the log and the space that is
    marked for deletion.  The count of blocks to delete may include one block of
    the installed manifest. *)
Record mf_inv (m : TropoManifest St) : Prop := {
  mi_begin : deleted_range_begin m = cl_GetWriteTail (mf_log m);
  mi_blocks : 0 <= manifest_blocks m;
  mi_deleted : 0 <= deleted_range_blocks m;
  mi_position : exists p, 0 <= p /\
    deleted_range_blocks m <= p + (if manifest_blocks m =? 0 then 0 else 1) /\
    p + (if manifest_blocks m =? 0 then 0 else manifest_blocks m + 1) <= blen (cl_blocks (mf_log m))
}.

(** The manifest [data] is in the log at [start], behind [p] other blocks, and
    the CURRENT record that points to it is the last block. *)
Definition installed (m : TropoManifest St) (data : bytes) : Prop :=
  exists pre, cl_blocks (mf_log m) =
    pre ++ record_blocks lba_size data ++ record_blocks lba_size (current_name m) /\
    manifest_start m = wrap (cl_GetWriteTail (mf_log m) + blen pre) /\
    manifest_blocks m = blen (record_blocks lba_size data) /\
    manifest_start_new m = manifest_start m /\ manifest_blocks_new m = manifest_blocks m /\
    0 <= deleted_range_blocks m <= blen pre + 1 /\ deleted_range_begin m = cl_GetWriteTail (mf_log m).

Lemma record_blocks_pos data : 1 <= blen (record_blocks lba_size data).
Proof.
  rewrite (record_blocks_count lba_size) by lia.
  by destruct (frag_count_bounds lba_size ltac:(lia) (blen data) (blen_nonneg data)).
Qed.

Lemma current_name_length m : blen (current_name (St:=St) m) = 40.
Proof. unfold current_name, PutFixed64. rewrite !blen_app, !blen_EncodeFixed64. done. Qed.

Lemma current_blocks m : blen (record_blocks lba_size (current_name (St:=St) m)) = 1.
Proof.
  rewrite (record_blocks_count lba_size) by lia. rewrite current_name_length. symmetry.
  apply frag_count_unique; lia.
Qed.

Lemma installed_inv m data : installed m data -> mf_inv m.
Proof.
  intros (pre & Hv & _ & Hb & _ & _ & Hd & Hbeg). pose proof (record_blocks_pos data). pose proof (blen_nonneg pre).
  constructor; [done|lia|lia|]. exists (blen pre). rewrite (proj2 (Z.eqb_neq _ _)) by lia.
  rewrite Hv, !blen_app, (current_blocks m). lia.
Qed.

Lemma reclaim_spec m :
  mf_inv m ->
  exists d, 0 <= d <= deleted_range_blocks m /\
    cl_blocks (mf_log (reclaim zone_cap m)) = zdrop d (cl_blocks (mf_log m)) /\
    cl_GetWriteTail (mf_log (reclaim zone_cap m)) = wrap (cl_GetWriteTail (mf_log m) + d) /\
    0 <= deleted_range_blocks (reclaim zone_cap m) <= deleted_range_blocks m - d /\
    manifest_start (reclaim zone_cap m) = manifest_start m /\
    manifest_blocks (reclaim zone_cap m) = manifest_blocks m /\
    manifest_start_new (reclaim zone_cap m) = manifest_start_new m /\
    manifest_blocks_new (reclaim zone_cap m) = manifest_blocks_new m.
Proof.
  intros [Hb Hmb Hd (p & Hp & Hdp & Hlen)].
  assert (Hwt : wrap (cl_GetWriteTail (mf_log m) + 0) = cl_GetWriteTail (mf_log m)).
  { unfold wrap, cl_wrap. pose proof (cl_tail_range (mf_log m)). rewrite Z.add_0_r. by rewrite (proj2 (Z.ltb_lt _ _)) by lia. }
  unfold reclaim. set (d := deleted_range_blocks m / zone_cap * zone_cap).
  assert (Hdd : 0 <= d <= deleted_range_blocks m).
  { unfold d. pose proof (Z.div_mod (deleted_range_blocks m) zone_cap). pose proof (Z.div_pos (deleted_range_blocks m) zone_cap).
    pose proof (Z.mod_pos_bound (deleted_range_blocks m) zone_cap). nia. }
  destruct (Z.eqb_spec d 0) as [E|E].
  { exists 0. rewrite zdrop_0. split_and!; done || lia. }
  destruct (cl_ConsumeTail _ _ _) as [r log'] eqn:Ec.
  destruct (decide (r = Success)) as [->|Hr].
  - apply cl_consume_ok in Ec as [H1 H2]; [|done|].
    2: { destruct (Z.eqb_spec (manifest_blocks m) 0); lia. }
    exists d. cbn. rewrite H1, H2, <-Hb. replace (deleted_range_begin m + d - deleted_range_begin m) with d by lia.
    split_and!; done || lia.
  - apply cl_consume_fail in Ec as [H1 H2]; [|done]. exists 0. cbn. rewrite H1, H2, zdrop_0.
    split_and!; done || lia.
Qed.

(** Installing a manifest leaves it installed, and keeps the accounting of the
    space to delete. *)
Lemma install_spec m data m1 m2 :
  mf_inv m -> blen data <= commit_limit lba_size ->
  NewManifest lba_size m data = Some (OK, m1) -> SetCurrent lba_size zone_cap m1 = Some (OK, m2) ->
  installed m2 data.
Proof.
  intros Hinv Hdata HN HS. pose proof Hinv as [Hb Hmb Hd (p & Hp & Hdp & Hlen)].
  unfold NewManifest in HN. destruct (negb _); [done|].
  apply bind_Some in HN as ([[s lbas] log1] & Hc & [= -> <-]).
  destruct (SafeCommit_spec lba_size min_head max_head ltac:(lia) _ _ _ _ _ Hdata Hc eq_refl) as (-> & Hv1 & Ht1).
  pose proof (record_blocks_pos data) as Hrp.
  unfold SetCurrent in HS.
  set (m1 := mkManifest _ _ _ _ _ _ log1) in HS.
  assert (Hinv1 : mf_inv m1).
  { constructor; [cbn; congruence|done|done|]. exists p. cbn [m1 manifest_blocks deleted_range_blocks mf_log].
    rewrite Hv1, blen_app. split_and!; [done|done|]. lia. }
  destruct (reclaim_spec m1 Hinv1) as (d & Hdd & Hv2 & Ht2 & Hdel & E1 & E2 & E3 & E4).
  set (m2' := reclaim zone_cap m1) in *. cbn zeta in HS.
  set (m3 := mkManifest _ _ _ _ _ _ (mf_log m2')) in HS.
  apply bind_Some in HS as ([[s n] log3] & Hc3 & HS).
  destruct (negb (ok s)) eqn:Eok; [injection HS as -> _; done|]. injection HS as -> <-.
  assert (Hcl : blen (current_name m3) <= commit_limit lba_size).
  { rewrite current_name_length. unfold commit_limit.
    assert (6 <= lba_size / 8) by (apply Z.div_le_lower_bound; lia). nia. }
  destruct (SafeCommit_spec lba_size min_head max_head ltac:(lia) _ _ _ _ _ Hcl Hc3 eq_refl) as (_ & Hv3 & Ht3).
  cbn [m1 mf_log deleted_range_blocks manifest_blocks manifest_start_new manifest_blocks_new default] in *.
  assert (Hdq : d <= blen (cl_blocks (mf_log m))).
  { destruct (Z.eqb_spec (manifest_blocks m) 0); lia. }
  exists (zdrop d (cl_blocks (mf_log m))).
  cbn [mf_log manifest_start manifest_blocks manifest_start_new manifest_blocks_new deleted_range_blocks
    deleted_range_begin with_log m3] in *.
  assert (Hdrop : zdrop d (cl_blocks (mf_log m) ++ record_blocks lba_size data)
    = zdrop d (cl_blocks (mf_log m)) ++ record_blocks lba_size data).
  { unfold zdrop. rewrite drop_app_le; [done|]. unfold blen in *. lia. }
  split_and!.
  - rewrite Hv3, Hv2, Hv1, Hdrop, <-app_assoc. done.
  - rewrite E3, cl_head, Ht3, Ht2, Ht1. rewrite blen_zdrop. unfold wrap, cl_wrap.
    pose proof (cl_tail_range (mf_log m)). pose proof (cl_not_full (mf_log m)).
    destruct (Z.ltb_spec (cl_GetWriteTail (mf_log m) + d) max_head),
      (Z.ltb_spec (cl_GetWriteTail (mf_log m) + blen (cl_blocks (mf_log m))) max_head);
      match goal with |- context [?a <? max_head] => destruct (Z.ltb_spec a max_head) end; lia.
  - rewrite E4. by rewrite (record_blocks_count lba_size) by lia.
  - done.
  - done.
  - lia.
  - rewrite E2, blen_zdrop. destruct (Z.eqb_spec (manifest_blocks m) 0); lia.
  - congruence.
Qed.

Lemma current_parse m :
  let c := current_name (St:=St) m in
  is_u64 (manifest_start_new m) -> is_u64 (manifest_blocks_new m) ->
  is_u64 (deleted_range_begin m) -> is_u64 (deleted_range_blocks m) ->
  exists h h1 h2 h3 h4, slice current_preamble_size (8 * 4) c = Some h /\
    GetFixed64 h = Some (manifest_start_new m, h1) /\ GetFixed64 h1 = Some (manifest_blocks_new m, h2) /\
    GetFixed64 h2 = Some (deleted_range_begin m, h3) /\ GetFixed64 h3 = Some (deleted_range_blocks m, h4) /\
    ztake current_preamble_size c = current_preamble.
Proof.
  cbv zeta. intros H1 H2 H3 H4. unfold current_name, PutFixed64. rewrite <-!app_assoc.
  eexists _, _, _, _, []. split_and!.
  - rewrite <-(app_nil_r (_ ++ _ ++ _ ++ EncodeFixed64 _)). apply (slice_app_mid current_preamble); [done|].
    rewrite !blen_app, !blen_EncodeFixed64. done.
  - by apply GetFixed64_Put.
  - by apply GetFixed64_Put.
  - by apply GetFixed64_Put.
  - rewrite <-(app_nil_r (EncodeFixed64 _)). by apply GetFixed64_Put.
  - by apply ztake_app_exact.
Qed.

(** The object of the manifest after a restart: only the log survives. *)
Lemma recover_spec m data m' mem log' :
  installed m data -> mf_log m' = mf_log m -> buf_Realloc lba_size = (Success, mem) ->
  cl_RecoverPointers (mf_log m) = (Success, log') ->
  Recover lba_size min_head max_head m' =
  Some (OK, mkManifest (manifest_start m) (manifest_blocks m) (manifest_start_new m') (manifest_blocks_new m')
              (deleted_range_begin m) (deleted_range_blocks m) log').
Proof.
  intros (pre & Hv & Hst & Hbl & Hsn & Hbn & Hdel & Hbeg) Hlog Hmem Hrec.
  unfold Recover. rewrite Hlog, Hrec. cbn [FromStatus ok negb].
  apply cl_recover_ok in Hrec as [Hv' Ht'].
  pose proof (record_blocks_pos data) as Hrp. pose proof (blen_nonneg pre).
  pose proof (current_blocks m) as Hcb.
  assert (Hlen : blen (cl_blocks log') = blen pre + blen (record_blocks lba_size data) + 1).
  { rewrite Hv', Hv, !blen_app, Hcb. lia. }
  pose proof (cl_not_full log') as Hnf. pose proof (cl_tail_range log') as Htr.
  unfold TryGetCurrent. cbn [mf_log with_log].
  destruct (cl_Empty log') eqn:Ee.
  { apply cl_empty in Ee. rewrite Ee, blen_nil in Hlen. lia. }
  cbn zeta. rewrite before_head by lia.
  set (slba := wrap (cl_GetWriteTail log' + (blen (cl_blocks log') - 1))).
  assert (Hsl : min_head <= slba < max_head) by (apply wrap_range; lia).
  cbn [find_current mf_log with_log]. destruct (Z.eqb_spec slba (cl_GetWriteTail log')) as [E|_].
  { unfold slba, wrap, cl_wrap in E. destruct (Z.ltb_spec (cl_GetWriteTail log' + (blen (cl_blocks log') - 1)) max_head); lia. }
  unfold TryParseCurrent, GetCommitReader. rewrite (proj2 (Z.leb_gt _ _)) by lia. rewrite Hmem. obind. cbn [mf_log with_log].
  edestruct (SeekCommitReader_spec lba_size ltac:(lia) log' (current_name m) slba (slba + 1) slba deadbeef mem)
    as (buf' & _ & ->); [| | | | |].
  { intros E. pose proof (current_name_length m) as E2. rewrite E in E2. done. }
  { lia. }
  { rewrite Hcb. lia. }
  { eapply buf_Realloc_size; [|done]. lia. }
  { apply (reads_at_view lba_size min_head max_head _ (pre ++ record_blocks lba_size data) _ []).
    - by rewrite Hv', Hv, app_nil_r, <-app_assoc.
    - lia.
    - unfold slba, wrap. f_equal. rewrite blen_app. lia. }
  obind.
  assert (Hs : min_head <= manifest_start m < max_head) by (rewrite Hst; apply wrap_range; rewrite <-Ht'; lia).
  destruct (current_parse m) as (h & h1 & h2 & h3 & h4 & P1 & P2 & P3 & P4 & P5 & P6).
  { rewrite Hsn. word. }
  { rewrite Hbn, Hbl. word. }
  { rewrite Hbeg, <-Ht'. word. }
  { word. }
  rewrite current_name_length. change (40 <? current_preamble_size) with false. cbv iota.
  rewrite P6, bool_decide_true by done. cbn [negb]. rewrite P1. obind. rewrite P2. obind. rewrite P3. obind.
  rewrite P4. obind. rewrite P5. obind. rewrite Hsn, Hbn.
  rewrite (proj2 (Z.ltb_ge (manifest_start m) min_head)), (proj2 (Z.ltb_ge max_head (manifest_start m))),
    (proj2 (Z.ltb_ge (max_head - min_head) _)) by lia.
  done.
Qed.

Lemma read_spec m data m4 mem :
  installed m data -> data <> [] -> buf_Realloc lba_size = (Success, mem) ->
  manifest_start m4 = manifest_start m -> manifest_blocks m4 = manifest_blocks m ->
  cl_blocks (mf_log m4) = cl_blocks (mf_log m) -> cl_GetWriteTail (mf_log m4) = cl_GetWriteTail (mf_log m) ->
  ReadManifest lba_size m4 [] = Some (OK, data).
Proof.
  intros (pre & Hv & Hst & Hbl & _ & _ & _ & _) Hd Hmem E1 E2 Hv4 Ht4.
  pose proof (record_blocks_pos data) as Hrp. pose proof (blen_nonneg pre). pose proof (current_blocks m) as Hcb.
  pose proof (cl_not_full (mf_log m4)) as Hnf. pose proof (cl_tail_range (mf_log m4)) as Htr.
  assert (Hlen : blen (cl_blocks (mf_log m4)) = blen pre + blen (record_blocks lba_size data) + 1).
  { rewrite Hv4, Hv, !blen_app, Hcb. lia. }
  assert (Hval : ValidateManifestPointers m4 = OK).
  { unfold ValidateManifestPointers. rewrite cl_head, E1, E2, Hst, Hbl, <-Ht4, Hlen. unfold wrap, cl_wrap.
    destruct (Z.ltb_spec (cl_GetWriteTail (mf_log m4) + blen pre) max_head),
      (Z.ltb_spec (cl_GetWriteTail (mf_log m4) + (blen pre + blen (record_blocks lba_size data) + 1)) max_head);
    repeat match goal with |- context [?a <? ?b] => destruct (Z.ltb_spec a b); cbn [orb andb] end; done || lia. }
  unfold ReadManifest. rewrite Hval. cbn [ok negb]. rewrite E1, E2.
  rewrite (proj2 (Z.eqb_neq _ _)) by lia. unfold GetCommitReader. rewrite (proj2 (Z.leb_gt _ _)) by lia. rewrite Hmem.
  assert (Hs : min_head <= manifest_start m) by (rewrite Hst; apply wrap_range; rewrite <-Ht4; lia).
  destruct (SeekCommitReader_spec lba_size ltac:(lia) (mf_log m4) data (manifest_start m)
    (manifest_start m + manifest_blocks m) (manifest_start m) deadbeef mem) as (buf' & Hb' & Hseek);
    [done|lia|lia|eapply buf_Realloc_size; [|done]; lia| |].
  { apply (reads_at_view lba_size min_head max_head _ pre _ (record_blocks lba_size (current_name m))); [congruence|done|].
    rewrite Hst, Ht4. done. }
  destruct (Z.to_nat (manifest_blocks m)) as [|k] eqn:Ek; [lia|]. cbn [read_records].
  rewrite Hseek. obind. unfold SeekCommitReader. cbn [cr_commit_ptr cr_commit_end cr_buffer].
  rewrite (proj2 (Z.eqb_neq _ _)), (proj2 (Z.leb_le _ _)) by lia. obind. by rewrite app_nil_l.
Qed.

Lemma recover_inv m data a b log' :
  installed m data -> cl_RecoverPointers (mf_log m) = (Success, log') ->
  mf_inv (mkManifest (manifest_start m) (manifest_blocks m) a b (deleted_range_begin m) (deleted_range_blocks m) log').
Proof.
  intros Hi Hrec. pose proof (installed_inv _ _ Hi) as [H1 H2 H3 H4]. apply cl_recover_ok in Hrec as [E1 E2].
  constructor; cbn; [congruence|done|done|]. by rewrite E1.
Qed.

(** C9: a manifest that is written and installed survives a restart.  From any
    state that the manifest reaches, when [NewManifest] and [SetCurrent] report
    success, a restarted manifest over the same log finds the CURRENT record and
    reads back exactly the installed data; the space that [SetCurrent] reclaims
    never includes the new manifest, also when the log wraps around. *)
Theorem manifest_install_recover m data m1 m2 m' mem log' :
  mf_inv m -> data <> [] -> blen data <= commit_limit lba_size ->
  NewManifest lba_size m data = Some (OK, m1) -> SetCurrent lba_size zone_cap m1 = Some (OK, m2) ->
  mf_log m' = mf_log m2 -> buf_Realloc lba_size = (Success, mem) ->
  cl_RecoverPointers (mf_log m2) = (Success, log') ->
  mf_inv m2 /\
  exists m4, Recover lba_size min_head max_head m' = Some (OK, m4) /\ mf_inv m4 /\
    ReadManifest lba_size m4 [] = Some (OK, data).
Proof.
  intros Hinv Hd Hlim HN HS Hlog Hmem Hrec. pose proof (install_spec _ _ _ _ Hinv Hlim HN HS) as Hi.
  split; [by eapply installed_inv|]. eexists.
  split; [by eapply recover_spec|]. split; [by eapply recover_inv|].
  eapply read_spec; try done; cbn; by apply cl_recover_ok in Hrec as [? ?].
Qed.
End ManifestProofs.

(** ** The interface of the manifest to the version set *)

Class ManifestOps (M : Type) := {
  mo_NewManifest : M -> bytes -> option (Status * M);
  mo_SetCurrent : M -> option (Status * M);
  mo_Recover : M -> option (Status * M);
  mo_ReadManifest : M -> bytes -> option (Status * bytes)
}.

Class ManifestLaws (M : Type) `{!ManifestOps M} := {
  ml_inv : M -> Prop;
  (** the data is installed *)
  ml_installed : M -> bytes -> Prop;
  (** the second object is opened on what the first one left on the device *)
  ml_restart : M -> M -> Prop;
  ml_limit : Z;
  ml_install : forall m data m1 m2,
    ml_inv m -> data <> [] -> blen data <= ml_limit ->
    mo_NewManifest m data = Some (OK, m1) -> mo_SetCurrent m1 = Some (OK, m2) ->
    ml_inv m2 /\ ml_installed m2 data;
  ml_recover : forall m data m',
    ml_installed m data -> ml_restart m m' ->
    exists m4, mo_Recover m' = Some (OK, m4) /\ ml_inv m4 /\ mo_ReadManifest m4 [] = Some (OK, data)
}.

Section ManifestInstance.
Context {St : Type} `{!CircularLog St} `{!SZDBuffer}.
Context (lba_size min_head max_head zone_cap : Z) `{!CircularLogLaws St lba_size min_head max_head}.

Definition manifest_ops : ManifestOps (TropoManifest St) := {|
  mo_NewManifest := NewManifest lba_size;
  mo_SetCurrent := SetCurrent lba_size zone_cap;
  mo_Recover := Recover lba_size min_head max_head;
  mo_ReadManifest := ReadManifest lba_size
|}.

Context (HL : 48 <= lba_size <= 2 ^ 24) (Hgeo : 0 <= min_head < max_head) (Hmax : max_head < 2 ^ 63) (Hzc : 0 < zone_cap).

(** The manifest discharges the interface. *)
Definition manifest_laws : @ManifestLaws (TropoManifest St) manifest_ops.
Proof.
  refine (@Build_ManifestLaws (TropoManifest St) manifest_ops
    (mf_inv lba_size min_head max_head)
    (fun m data => installed lba_size min_head max_head m data /\ data <> [])
    (fun m m' => mf_log m' = mf_log m /\ (exists mem, buf_Realloc lba_size = (Success, mem)) /\
       exists log', cl_RecoverPointers (mf_log m) = (Success, log'))
    (commit_limit lba_size) _ _).
  - intros m data m1 m2 Hinv Hd Hlim HN HS. assert (Hi : installed lba_size min_head max_head m2 data) by (eapply install_spec; eassumption).
    split; [eapply installed_inv; eassumption|done].
  - intros m data m' [Hi Hd] (Hlog & (mem & Hmem) & (log' & Hrec)). eexists.
    split; [eapply recover_spec; eassumption|]. split; [eapply recover_inv; eassumption|].
    eapply read_spec; try eassumption; try reflexivity; cbn; by apply cl_recover_ok in Hrec as [? ?].
Defined.
End ManifestInstance.

(** ** Witnesses: 64-byte blocks, zones of four blocks *)

Module ManifestWitness.
#[global] Instance log_ops : CircularLog MemLog.t := MemLog.ops 64 0 32.
#[global] Instance log_laws : CircularLogLaws MemLog.t 64 0 32 := MemLog.laws 64 0 32 ltac:(lia) ltac:(lia).
Definition m0 : TropoManifest MemLog.t := newManifest 32 (MemLog.mk 0 []).
(** Manifests of two blocks. *)
Definition data (b : byte) : bytes := replicate 60 b.

Definition install (m : TropoManifest MemLog.t) (d : bytes) : option (TropoManifest MemLog.t) :=
  match NewManifest 64 m d with
  | Some (OK, m) => match SetCurrent 64 4 m with Some (OK, m) => Some m | _ => None end
  | _ => None
  end.

(** What a restart reads from the log. *)
Definition restart (log : MemLog.t) : option (Status * bytes) :=
  match Recover 64 0 32 (newManifest 32 log) with
  | Some (OK, m) => ReadManifest 64 m []
  | Some (s, _) => Some (s, [])
  | None => None
  end.
End ManifestWitness.

Lemma manifest_install_recover_witness :
  exists m1 m2 m4, NewManifest 64 ManifestWitness.m0 (ManifestWitness.data x61) = Some (OK, m1) /\
    SetCurrent 64 4 m1 = Some (OK, m2) /\
    Recover 64 0 32 (newManifest 32 (mf_log m2)) = Some (OK, m4) /\
    ReadManifest 64 m4 [] = Some (OK, ManifestWitness.data x61).
Proof.
  eexists _, _.
  edestruct (manifest_install_recover (CircularLog0 := ManifestWitness.log_ops) 64 0 32 4 ltac:(lia) ltac:(lia) ltac:(lia) ltac:(lia)
    ManifestWitness.m0 (ManifestWitness.data x61)) as (_ & m4 & H1 & _ & H2).
  - constructor; [done|done|done|]. exists 0. done.
  - discriminate.
  - vm_compute. discriminate.
  - vm_compute. reflexivity.
  - vm_compute. reflexivity.
  - instantiate (1 := newManifest 32 _). reflexivity.
  - reflexivity.
  - reflexivity.
  - exists m4. split; [vm_compute; reflexivity|]. split; [vm_compute; reflexivity|]. split; [exact H1|exact H2].
Defined.

