(* ===== verification/VersionSet.v ===== *)
(** * VersionSet: the current version and its persistence

    [index/tropodb_version_set.h] and [.cc]: the list of live versions, the
    snapshot of a version in the manifest, its recovery, the reclaiming of
    stale tables and the scores of the levels. *)

From Stdlib Require Import Floats.SpecFloat.
From S2P Require Import Prelude Coding DbFormat Config SSTable SSTableIter VersionEdit Version VersionBuilder.
From S2P Require Import Crc32c Committer Szd CommitLog Manifest.

(** ** The SSTable manager, as the version set uses it *)

Class SSTableManagerOps (S : Type) := {
  sm_GetRecoveryData : S -> bytes;
  sm_Recover : S -> bytes -> Status * S;
  (** the tables to delete and those that stay marked as deleted; [None] is an
      access outside of an array *)
  sm_DeleteL0Table : S -> list SSZoneMetaData -> list SSZoneMetaData -> option (Status * list SSZoneMetaData * S);
  sm_DeleteLNTable : S -> Z -> SSZoneMetaData -> option (Status * S)
}.

(** ** Doubles: IEEE binary64 *)

Definition f64 : Type := spec_float.
Definition f64_of_Z (z : Z) : f64 := binary_normalize 53 1024 z 0 false.
Definition f64_div : f64 -> f64 -> f64 := SFdiv 53 1024.
Definition f64_mul : f64 -> f64 -> f64 := SFmul 53 1024.
Definition f64_gt (a b : f64) : bool := SFltb b a.

(** [ss_compact_treshold], tropodb_config_default.h:69-76 *)
Definition ss_compact_treshold : list f64 :=
  map f64_of_Z [8; 16 * 1024 ^ 3; 16 * 4 * 1024 ^ 3; 16 * 16 * 1024 ^ 3; 16 * 64 * 1024 ^ 3; 16 * 256 * 1024 ^ 3].

(** [ss_compact_modifier], tropodb_config_default.h:83-89 *)
Definition ss_compact_modifier : list f64 := map f64_of_Z [64; 32; 16; 8; 4; 1].

(** ** State *)

(** [TropoVersionSet], index/tropodb_version_set.h:128-144.  [vs_versions] is the
    linked list of the live versions with their reference counts, oldest first;
    the last one is [current_].  [vs_compaction] is the compaction level and score
    of the current version. *)
Record TropoVersionSet (M S : Type) := mkVersionSet {
  vs_versions : list (TropoVersion * Z);
  vs_compaction : Z * f64;
  vs_last_sequence : Z;
  vs_ss_number : Z;
  vs_ss_number_l0 : Z;
  vs_compact_pointer : list bytes;
  vs_manifest : M;
  vs_ss_manager : S
}.
Arguments mkVersionSet {M S}.
Arguments vs_versions {M S}.
Arguments vs_compaction {M S}.
Arguments vs_last_sequence {M S}.
Arguments vs_ss_number {M S}.
Arguments vs_ss_number_l0 {M S}.
Arguments vs_compact_pointer {M S}.
Arguments vs_manifest {M S}.
Arguments vs_ss_manager {M S}.

(** [TropoVersion::TropoVersion], index/tropodb_version.cc:19-25 *)
Definition newVersion : TropoVersion :=
  mkVersion (replicate (Z.to_nat level_count) []) (replicate (Z.to_nat level_count) []) (0, 0).

Section VersionSet.
Context `{UserComparator} {M S : Type} `{!ManifestOps M} `{!SSTableManagerOps S}.
(** The name of the user comparator, the size of a block, and the contents of
    freshly constructed metadata objects. *)
Context (comparator_name : bytes) (lba_size : Z) (fresh : SSZoneMetaData).

Abbreviation VS := (TropoVersionSet M S).

Definition current (vs : VS) : TropoVersion := default newVersion (fst <$> last (vs_versions vs)).

Definition set_versions (vs : VS) (v : list (TropoVersion * Z)) : VS :=
  mkVersionSet v (vs_compaction vs) (vs_last_sequence vs) (vs_ss_number vs) (vs_ss_number_l0 vs)
    (vs_compact_pointer vs) (vs_manifest vs) (vs_ss_manager vs).
Definition set_compact_pointer (vs : VS) (cp : list bytes) : VS :=
  mkVersionSet (vs_versions vs) (vs_compaction vs) (vs_last_sequence vs) (vs_ss_number vs) (vs_ss_number_l0 vs)
    cp (vs_manifest vs) (vs_ss_manager vs).
Definition set_manifest (vs : VS) (m : M) : VS :=
  mkVersionSet (vs_versions vs) (vs_compaction vs) (vs_last_sequence vs) (vs_ss_number vs) (vs_ss_number_l0 vs)
    (vs_compact_pointer vs) m (vs_ss_manager vs).
Definition set_ss_manager (vs : VS) (s : S) : VS :=
  mkVersionSet (vs_versions vs) (vs_compaction vs) (vs_last_sequence vs) (vs_ss_number vs) (vs_ss_number_l0 vs)
    (vs_compact_pointer vs) (vs_manifest vs) s.
Definition set_numbers (vs : VS) (seq n n0 : Z) : VS :=
  mkVersionSet (vs_versions vs) (vs_compaction vs) seq n n0 (vs_compact_pointer vs) (vs_manifest vs) (vs_ss_manager vs).

(** ** The list of versions *)

(** [TropoVersionSet::AppendVersion], index/tropodb_version_set.cc:43-62.  The
    version set gives up its reference to the old current version, which leaves
    the list when no reader holds one. *)
Definition AppendVersion (vs : VS) (v : TropoVersion) : VS :=
  let olds := match last (vs_versions vs) with
    | Some (c, n) => removelast (vs_versions vs) ++ (if n - 1 =? 0 then [] else [(c, n - 1)])
    | None => []
    end in
  set_versions vs (olds ++ [(v, 1)]).

(** [TropoVersionSet::TropoVersionSet], index/tropodb_version_set.cc:19-36.  The
    constructor does not set the last sequence number and the number of level 0:
    they have the values [seq] and [n0] that the memory happens to have. *)
Definition newVersionSet (seq n0 : Z) (m : M) (s : S) : VS :=
  AppendVersion (mkVersionSet [] (level_count + 1, S754_zero true) seq 0 n0
    (replicate (Z.to_nat level_count) []) m s) newVersion.

(** [TropoVersionSet::GetLiveZones], index/tropodb_version_set.cc:64-75 *)
Definition GetLiveZones (vs : VS) (level : Z) : gset Z :=
  list_to_set (m_number <$> flat_map (fun v => level_tables (v_ss (fst v)) level) (vs_versions vs)).

(** The loop of [GetSaveDeleteRange]. *)
Fixpoint delete_range_loop (cur : Z * Z) (vl : list (TropoVersion * Z)) (range : Z * Z) (first : bool) : Z * Z :=
  match vl with
  | [] => range
  | (v, _) :: vl =>
      let r := v_ss_deleted_range v in
      if negb (fst cur =? fst r) && negb (fst r =? 0) then (0, 0)
      else if first || (snd r <? snd range) then delete_range_loop cur vl r false
      else delete_range_loop cur vl range first
  end.

(** [TropoVersionSet::GetSaveDeleteRange], index/tropodb_version_set.cc:78-101 *)
Definition GetSaveDeleteRange (vs : VS) : Z * Z :=
  delete_range_loop (v_ss_deleted_range (current vs)) (vs_versions vs) (0, 0) true.

(** ** Scores *)

(** [TropoSSTableManager::GetBytesInLevel], table/tropodb_sstable_manager.cc:311-319 *)
Definition GetBytesInLevel (metas : list SSZoneMetaData) : Z :=
  fold_left (fun total m => u64 (total + u64 (m_lba_count m * lba_size))) metas 0.

Definition level_score (v : TropoVersion) (i : Z) : f64 :=
  let bytes := f64_of_Z (GetBytesInLevel (level_tables (v_ss v) i)) in
  let treshold := nth (Z.to_nat i) ss_compact_treshold (f64_of_Z 0) in
  if f64_gt bytes treshold
  then f64_mul (f64_div bytes treshold) (nth (Z.to_nat i) ss_compact_modifier (f64_of_Z 0))
  else f64_of_Z 0.

(** [TropoVersionSet::RecalculateScore], index/tropodb_version_set.cc:236-260 *)
Definition RecalculateScore (vs : VS) : VS :=
  let v := current vs in
  let best := fold_left (fun best i =>
      let score := level_score v i in
      if f64_gt score (snd best) then (i, score) else best)
    (seqZ 1 (level_count - 2)) (level_count + 1, f64_of_Z (-1)) in
  mkVersionSet (vs_versions vs) best (vs_last_sequence vs) (vs_ss_number vs) (vs_ss_number_l0 vs)
    (vs_compact_pointer vs) (vs_manifest vs) (vs_ss_manager vs).

(** ** Writing a version *)

(** The loop body of [WriteSnapshot] for a level. *)
Definition snapshot_level (cp : list bytes) (version : TropoVersion) (e : TropoVersionEdit) (level : Z)
    : TropoVersionEdit :=
  let e := fold_left (fun e m => AddSSDefinition fresh e level m) (level_tables (v_ss version) level) e in
  SetCompactPointer e level (nth (Z.to_nat level) cp []).

Definition levels : list Z := seqZ 0 level_count.

(** The edit of [WriteSnapshot]. *)
Definition snapshot_edit (vs : VS) (version : TropoVersion) : TropoVersionEdit :=
  let e := SetComparatorName newEdit comparator_name in
  let e := fold_left (snapshot_level (vs_compact_pointer vs) version) levels e in
  let e := AddDeletedRange e (v_ss_deleted_range version) in
  let e := fold_left (fun e level =>
      fold_left (fun e m => AddDeletedSSTable e level m) (level_tables (v_ss_d version) level) e) levels e in
  let e := AddFragmentedData e (sm_GetRecoveryData (vs_ss_manager vs)) in
  SetLastSequence e (vs_last_sequence vs).

(** [TropoVersionSet::WriteSnapshot], index/tropodb_version_set.cc:181-213 *)
Definition WriteSnapshot (vs : VS) (version : TropoVersion) : bytes := EncodeTo (snapshot_edit vs version) [].

(** [TropoCommitTag], index/tropodb_version.h:27-27 *)
Definition kEdit : Z := 1.
Definition kSSManager : Z := 2.
Definition kClosing : Z := 3.

(** The record of a version in the manifest. *)
Definition version_data (vs : VS) (version : TropoVersion) : bytes :=
  PutLengthPrefixedSlice (PutVarint32 [] kEdit) (WriteSnapshot vs version) ++ PutVarint32 [] kClosing.

(** [TropoVersionSet::CommitVersion], index/tropodb_version_set.cc:262-284 *)
Definition CommitVersion (vs : VS) (v : TropoVersion) : option (Status * VS) :=
  '(s, m) ← mo_NewManifest (vs_manifest vs) (version_data vs v);
  let vs := set_manifest vs m in
  if ok s then '(s, m) ← mo_SetCurrent m; Some (s, set_manifest vs m)
  else Some (s, vs).

(** [TropoVersionSet::LogAndApply], index/tropodb_version_set.cc:215-234.  The
    edit is passed by pointer and changed. *)
Definition LogAndApply (vs : VS) (edit : TropoVersionEdit) : option (Status * VS * TropoVersionEdit) :=
  let edit := SetLastSequence edit (vs_last_sequence vs) in
  '(v, cp) ← apply_edit (current vs) (vs_compact_pointer vs) edit;
  let vs := set_compact_pointer vs cp in
  '(s, vs) ← CommitVersion vs v;
  let vs := if ok s then AppendVersion vs v else vs in
  Some (s, RecalculateScore vs, edit).

(** ** Reading a version *)

(** The loop of [DecodeFrom]. *)
Fixpoint decode_commit (fuel : nat) (input : bytes) (e : TropoVersionEdit) : option (Status * TropoVersionEdit) :=
  match fuel with
  | O => None
  | Datatypes.S fuel =>
      match GetVarint32 input with
      | None => Some (if bool_decide (input = []) then OK else Corruption, e)
      | Some (tag, input) =>
          if tag =? kEdit then
            match GetLengthPrefixedSlice input with
            | Some (sub_input, input) =>
                '(s, e) ← DecodeFrom fresh e sub_input;
                if ok s then decode_commit fuel input e else Some (s, e)
            | None => Some (Corruption, e)
            end
          else if tag =? kSSManager then Some (Corruption, e)
          else if tag =? kClosing then Some (OK, e)
          else Some (Corruption, e)
      end
  end.

(** [TropoVersionSet::DecodeFrom], index/tropodb_version_set.cc:629-665 *)
Definition DecodeVersion (src : bytes) (e : TropoVersionEdit) : option (Status * TropoVersionEdit) :=
  decode_commit (Datatypes.S (length src)) src e.

(** The highest number of the tables, plus one. *)
Definition next_number (number : SSZoneMetaData -> Z) (tables : list SSZoneMetaData) (cur : Z) : Z :=
  fold_left (fun cur m => if number m <? cur then cur else u64 (number m + 1)) tables cur.

(** The part of [Recover] after the manifest is read: recover the logs of the
    tables, install the edit and set the numbers. *)
Definition recover_install (vs : VS) (edit : TropoVersionEdit) : option (Status * VS) :=
  let '(s, sm) := sm_Recover (vs_ss_manager vs)
    (if ve_has_fragmented_data edit then ve_fragmented_data edit else []) in
  let vs := set_ss_manager vs sm in
  '(s, vs, edit) ← (if ok s then LogAndApply vs edit else Some (s, vs, edit));
  let seq := if ve_has_last_sequence edit then ve_last_sequence edit else vs_last_sequence vs in
  let n := if ve_has_next_ss_number edit then ve_ss_number edit else vs_ss_number vs in
  let n0 := vs_ss_number_l0 vs in
  let vs := set_numbers vs seq n n0 in
  if negb (ok s) then Some (s, vs)
  else
    let ss := v_ss (current vs) in
    let n := if n =? 0 then next_number m_number (flat_map (level_tables ss) levels) n else n in
    let n0 := if n0 =? 0 then next_number m_L0_number (level_tables ss 0) n0 else n0 in
    Some (OK, set_numbers vs seq n n0).

(** [TropoVersionSet::Recover], index/tropodb_version_set.cc:667-741.  Without a
    manifest the recovery goes on with an empty edit. *)
Definition Recover (vs : VS) : option (Status * VS) :=
  '(s, m) ← mo_Recover (vs_manifest vs);
  let vs := set_manifest vs m in
  if ok s then
    '(s, data) ← mo_ReadManifest m [];
    if negb (ok s) then Some (s, vs)
    else
      '(s, edit) ← DecodeVersion data newEdit;
      if negb (ok s) then Some (s, vs) else recover_install vs edit
  else recover_install vs newEdit.

(** ** Reclaiming stale tables *)

(** Split the deleted tables of a level into those that no version uses and
    those that one still uses. *)
Definition split_live (live : gset Z) (ss_d : list SSZoneMetaData) : list SSZoneMetaData * list SSZoneMetaData :=
  (filter (fun m => m_number m ∉ live) ss_d, filter (fun m => m_number m ∈ live) ss_d).

(** Replace the deleted tables of a level of the current version, which is
    changed in place. *)
Definition set_current_deleted (vs : VS) (level : Z) (l : list SSZoneMetaData) : VS :=
  match last (vs_versions vs) with
  | Some (v, n) =>
      set_versions vs (removelast (vs_versions vs) ++
        [(mkVersion (v_ss v) (<[Z.to_nat level := l]> (v_ss_d v)) (v_ss_deleted_range v), n)])
  | None => vs
  end.

Definition number_cmp (a b : SSZoneMetaData) : comparison := Z.compare (m_number a) (m_number b).

(** [TropoVersionSet::ReclaimStaleSSTablesL0], index/tropodb_version_set.cc:103-145.
    The list [tmp] is sorted by number with any sort. *)
Definition ReclaimStaleSSTablesL0 (vs : VS) : option (Status * VS) :=
  let '(tmp, new_deleted) := split_live (GetLiveZones vs 0) (level_tables (v_ss_d (current vs)) 0) in
  let finish vs := '(s, vs, _) ← LogAndApply vs newEdit; Some (s, vs) in
  if (length tmp =? 0)%nat then finish vs
  else
    let tmp := merge_sort (cle number_cmp) tmp in
    '(s, new_deleted, sm) ← sm_DeleteL0Table (vs_ss_manager vs) tmp new_deleted;
    let vs := set_current_deleted (set_ss_manager vs sm) 0 new_deleted in
    if negb (ok s) then Some (s, vs) else finish vs.

(** Delete the tables of a level one by one; stop at the first error. *)
Fixpoint delete_ln (sm : S) (level : Z) (l : list SSZoneMetaData) : option (Status * S) :=
  match l with
  | [] => Some (OK, sm)
  | m :: l =>
      '(s, sm) ← sm_DeleteLNTable sm level m;
      if negb (ok s) then Some (s, sm) else delete_ln sm level l
  end.

(** The loop of [ReclaimStaleSSTablesLN] over the levels; an error returns at
    once, with the mutex unlocked. *)
Fixpoint reclaim_levels (vs : VS) (ls : list Z) : option (Status * VS) :=
  match ls with
  | [] => Some (OK, vs)
  | i :: ls =>
      let '(to_delete, new_deleted) := split_live (GetLiveZones vs i) (level_tables (v_ss_d (current vs)) i) in
      '(s, sm) ← delete_ln (vs_ss_manager vs) i to_delete;
      let vs := set_ss_manager vs sm in
      if negb (ok s) then Some (s, vs)
      else reclaim_levels (set_current_deleted vs i new_deleted) ls
  end.

(** [TropoVersionSet::ReclaimStaleSSTablesLN], index/tropodb_version_set.cc:147-179 *)
Definition ReclaimStaleSSTablesLN (vs : VS) : option (Status * VS) :=
  '(s, vs) ← reclaim_levels vs (seqZ 1 (level_count - 1));
  if negb (ok s) then Some (s, vs)
  else '(s, vs, _) ← LogAndApply vs newEdit; Some (s, vs).

(** [TropoVersionSet::RemoveObsoleteZones], index/tropodb_version_set.cc:621-627:
    the numbers that are evicted from the table cache. *)
Definition RemoveObsoleteZones (edit : TropoVersionEdit) : Status * list Z :=
  (OK, snd <$> elements (ve_deleted_ss edit)).

(** [TropoVersionSet::NumLevelBytes], index/tropodb_version_set.h:63-70: the sum
    is returned as an [int]. *)
Definition NumLevelBytes (vs : VS) (level : Z) : Z :=
  let sum := GetBytesInLevel (level_tables (v_ss (current vs)) level) in
  let low := sum mod 2 ^ 32 in
  if low <? 2 ^ 31 then low else low - 2 ^ 32.

(** ** The snapshot is the edit that creates the version *)

Lemma fold_AddSSDefinition l ts e :
  fold_left (fun e m => AddSSDefinition fresh e l m) ts e =
  set_new_ss e (ve_new_ss e ++ map (fun m => (l, copy_definition fresh l m)) ts).
Proof.
  revert e. induction ts as [|m ts IH]; intros e; cbn [fold_left map].
  - destruct e. unfold set_new_ss. cbn. by rewrite app_nil_r.
  - rewrite IH. destruct e. unfold AddSSDefinition, set_new_ss. cbn. by rewrite <-app_assoc.
Qed.

Lemma fold_snapshot_level cp v ls e :
  fold_left (snapshot_level cp v) ls e =
  mkEdit (ve_new_ss e ++ flat_map (fun l => map (fun m => (l, copy_definition fresh l m)) (level_tables (v_ss v) l)) ls)
    (ve_deleted_ss e) (ve_fragmented_data e) (ve_has_fragmented_data e) (ve_deleted_range e)
    (ve_has_deleted_range e) (ve_deleted_ss_pers e)
    (ve_compact_pointers e ++ map (fun l => (l, nth (Z.to_nat l) cp [])) ls) (ve_last_sequence e)
    (ve_has_last_sequence e) (ve_comparator e) (ve_has_comparator e) (ve_ss_number e) (ve_has_next_ss_number e).
Proof.
  revert e. induction ls as [|l ls IH]; intros e; cbn [fold_left map flat_map].
  - destruct e. cbn. by rewrite !app_nil_r.
  - rewrite IH. unfold snapshot_level. rewrite fold_AddSSDefinition. destruct e.
    unfold SetCompactPointer, set_new_ss. cbn. by rewrite <-!app_assoc.
Qed.

Lemma fold_AddDeleted ls v e :
  fold_left (fun e level =>
      fold_left (fun e m => AddDeletedSSTable e level m) (level_tables (v_ss_d v) level) e) ls e =
  set_deleted_ss_pers e (ve_deleted_ss_pers e ++ flat_map (fun l => map (pair l) (level_tables (v_ss_d v) l)) ls).
Proof.
  assert (Hin : forall l ts e, fold_left (fun e m => AddDeletedSSTable e l m) ts e =
    set_deleted_ss_pers e (ve_deleted_ss_pers e ++ map (pair l) ts)).
  { intros l ts. induction ts as [|m ts IH]; intros e0; cbn [fold_left map].
    - destruct e0. unfold set_deleted_ss_pers. cbn. by rewrite app_nil_r.
    - rewrite IH. destruct e0. unfold AddDeletedSSTable, set_deleted_ss_pers. cbn. by rewrite <-app_assoc. }
  revert e. induction ls as [|l ls IH]; intros e; cbn [fold_left flat_map].
  - destruct e. unfold set_deleted_ss_pers. cbn. by rewrite app_nil_r.
  - rewrite IH, Hin. destruct e. unfold set_deleted_ss_pers. cbn. by rewrite <-app_assoc.
Qed.

Lemma snapshot_edit_eq vs v :
  snapshot_edit vs v =
  mkEdit (flat_map (fun l => map (fun m => (l, copy_definition fresh l m)) (level_tables (v_ss v) l)) levels)
    ∅ (sm_GetRecoveryData (vs_ss_manager vs)) true (v_ss_deleted_range v) true
    (flat_map (fun l => map (pair l) (level_tables (v_ss_d v) l)) levels)
    (map (fun l => (l, nth (Z.to_nat l) (vs_compact_pointer vs) [])) levels)
    (vs_last_sequence vs) true comparator_name true 0 false.
Proof. unfold snapshot_edit. rewrite fold_snapshot_level, fold_AddDeleted. reflexivity. Qed.

(** The fields of a version and of the version set that the snapshot needs to
    fit their width. *)
Record snapshot_ok (vs : VS) (v : TropoVersion) : Prop := {
  so_tables : forall l m, level_ok l -> m ∈ level_tables (v_ss v) l -> meta_ok m;
  so_deleted : forall l m, level_ok l -> m ∈ level_tables (v_ss_d v) l -> meta_ok m;
  so_range : is_u64 (fst (v_ss_deleted_range v)) /\ is_u64 (snd (v_ss_deleted_range v));
  so_name : is_u32 (blen comparator_name);
  so_seq : is_u64 (vs_last_sequence vs);
  so_pointers : Forall (fun k => is_u32 (blen k)) (vs_compact_pointer vs);
  so_data : is_u32 (blen (sm_GetRecoveryData (vs_ss_manager vs)));
  so_size : is_u32 (blen (WriteSnapshot vs v))
}.

Lemma elem_of_levels l : l ∈ levels <-> level_ok l.
Proof. unfold levels, level_ok. rewrite elem_of_seqZ. lia. Qed.

Lemma levels_ok : Forall level_ok levels.
Proof. apply Forall_forall. intros l. apply elem_of_levels. Qed.

Lemma copy_definition_ok l m : meta_ok fresh -> meta_ok m -> meta_ok (copy_definition fresh l m).
Proof.
  intros Hf Hm. destruct Hf as [F1 F2 F3 F4 F5 [F6 F6'] [F7 F7'] F8 F9 F10 F11], Hm as [M1 M2 M3 M4 M5 [M6 M6'] [M7 M7'] M8 M9 M10 M11].
  unfold copy_definition. destruct (l =? 0); constructor; cbn; try done;
    (split; [unfold ztake, zdrop; rewrite length_app, length_take, length_drop; lia|]);
    apply Forall_app; split; [apply Forall_take|apply Forall_drop|apply Forall_take|apply Forall_drop]; done.
Qed.

Lemma snapshot_edit_ok vs v : meta_ok fresh -> snapshot_ok vs v -> edit_ok (snapshot_edit vs v).
Proof.
  intros Hf []. rewrite snapshot_edit_eq. constructor; cbn [ve_comparator ve_last_sequence ve_ss_number
    ve_compact_pointers ve_deleted_range ve_deleted_ss_pers ve_new_ss ve_fragmented_data]; try done.
  - apply Forall_map. eapply Forall_impl; [exact levels_ok|]. intros l Hl. split; [done|]. cbn.
    destruct (nth_in_or_default (Z.to_nat l) (vs_compact_pointer vs) []) as [Hin|E]; [|by rewrite E].
    apply list_elem_of_In in Hin. by eapply Forall_forall in so_pointers0.
  - apply Forall_forall. intros [l m] Hin%list_elem_of_In. apply in_flat_map in Hin as (l' & Hl & Hin).
    apply list_elem_of_In, elem_of_levels in Hl. apply list_elem_of_In, list_elem_of_fmap in Hin as (m' & [= -> ->] & Hm).
    split; [done|]. by eapply so_deleted0.
  - apply Forall_forall. intros [l m] Hin%list_elem_of_In. apply in_flat_map in Hin as (l' & Hl & Hin).
    apply list_elem_of_In, elem_of_levels in Hl. apply list_elem_of_In, list_elem_of_fmap in Hin as (m' & [= -> ->] & Hm).
    split; [done|]. cbn. apply copy_definition_ok; [done|]. by eapply so_tables0.
Qed.

Lemma live_new_snapshot vs v : live_new (snapshot_edit vs v) = ve_new_ss (snapshot_edit vs v).
Proof.
  unfold live_new. rewrite snapshot_edit_eq. cbn [ve_deleted_ss ve_new_ss].
  generalize (flat_map (fun l => map (fun m => (l, copy_definition fresh l m)) (level_tables (v_ss v) l)) levels).
  intros k. induction k as [|a k IH]; [done|]. rewrite filter_cons_True by set_solver. by rewrite IH.
Qed.

(** ** Recovery *)

Lemma at_level_view i (xs ys : list (Z * SSZoneMetaData)) :
  map table_view xs = map table_view ys ->
  map (meta_view (Z.of_nat i)) (map snd (at_level fst i xs)) =
  map (meta_view (Z.of_nat i)) (map snd (at_level fst i ys)).
Proof.
  revert ys. induction xs as [|[l x] xs IH]; intros [|[l' y] ys] E; try done. cbn [map] in E.
  assert (E0 : table_view (l, x) = table_view (l', y)) by congruence.
  assert (E3 : map table_view xs = map table_view ys) by congruence.
  assert (El : l = l') by (by injection E0). subst l'.
  assert (E2 : meta_view l x = meta_view l y) by (unfold table_view in E0; cbn [fst snd] in E0; congruence). unfold at_level in *. rewrite !filter_cons. cbn [fst].
  destruct (decide (l = Z.of_nat i)) as [->|]; [|by apply IH]. cbn [map snd]. f_equal; [done|by apply IH].
Qed.

Lemma at_level_flat_map {X} (f : Z -> list X) i :
  level_ok (Z.of_nat i) ->
  map snd (at_level fst i (flat_map (fun l => map (pair l) (f l)) levels)) = f (Z.of_nat i).
Proof.
  intros Hi. assert (Hnd : NoDup levels) by apply NoDup_seqZ. apply elem_of_levels in Hi. revert Hnd Hi.
  generalize levels. intros ls. induction ls as [|l ls IH]; intros Hnd Hi; [by apply elem_of_nil in Hi|].
  apply NoDup_cons in Hnd as [Hni Hnd]. cbn [flat_map]. unfold at_level in *. rewrite filter_app, map_app.
  assert (Hsame : forall (k : list X) l', map snd (filter (fun x : Z * X => fst x = Z.of_nat i) (map (pair l') k)) =
    if decide (l' = Z.of_nat i) then k else []).
  { intros k l'. induction k as [|x k IHk]; cbn [map]; [by destruct (decide _)|].
    rewrite filter_cons. cbn [fst]. destruct (decide (l' = Z.of_nat i)); cbn [map snd]; by rewrite IHk. }
  rewrite Hsame. apply elem_of_cons in Hi as [<-|Hi].
  - rewrite decide_True by done.
    assert (E : filter (fun x : Z * X => fst x = Z.of_nat i) (flat_map (fun l => map (pair l) (f l)) ls) = []).
    { apply elem_of_nil_inv. intros [a x] [Ha Hx]%list_elem_of_filter. cbn in Ha. subst a.
      apply list_elem_of_In, in_flat_map in Hx as (l & Hl & Hx). apply in_map_iff in Hx as (x' & [= -> _] & _).
      apply Hni. by apply list_elem_of_In. }
    rewrite E. by rewrite app_nil_r.
  - rewrite decide_False by (intros ->; done). by apply IH.
Qed.

Lemma fresh_slots : meta_ok fresh -> slots_ok fresh.
Proof. intros [_ _ _ _ _ [? _] [? _] _ _ _ _]. by split. Qed.

(** The snapshot decodes to an edit that describes the same version. *)
Lemma version_data_app vs v :
  version_data vs v = EncodeVarint32 kEdit ++ PutLengthPrefixedSlice [] (WriteSnapshot vs v) ++ EncodeVarint32 kClosing.
Proof. unfold version_data. rewrite PutLengthPrefixedSlice_app. by rewrite <-app_assoc. Qed.

Lemma decode_commit_edit fuel rest e :
  decode_commit (Datatypes.S fuel) (EncodeVarint32 kEdit ++ rest) e =
  match GetLengthPrefixedSlice rest with
  | Some (sub_input, input) =>
      '(s, e) ← DecodeFrom fresh e sub_input;
      if ok s then decode_commit fuel input e else Some (s, e)
  | None => Some (Corruption, e)
  end.
Proof. cbn [decode_commit]. by rewrite GetVarint32_Encode. Qed.

Lemma decode_commit_closing fuel e :
  decode_commit (Datatypes.S fuel) (EncodeVarint32 kClosing) e = Some (OK, e).
Proof. cbn [decode_commit]. by rewrite <-(app_nil_r (EncodeVarint32 _)), GetVarint32_Encode. Qed.

Lemma DecodeVersion_spec vs v :
  meta_ok fresh -> snapshot_ok vs v ->
  exists e', DecodeVersion (version_data vs v) newEdit = Some (OK, e') /\
    scalars e' = scalars (snapshot_edit vs v) /\
    ve_compact_pointers e' = ve_compact_pointers (snapshot_edit vs v) /\
    map table_view (ve_deleted_ss_pers e') = map table_view (ve_deleted_ss_pers (snapshot_edit vs v)) /\
    map table_view (ve_new_ss e') = map table_view (ve_new_ss (snapshot_edit vs v)) /\
    ve_deleted_ss e' = ∅.
Proof.
  intros Hf Hs. destruct (version_edit_decoded (snapshot_edit vs v) fresh) as (e' & Hd & H1 & H2 & H3 & H4 & H5);
    [by apply snapshot_edit_ok|by apply fresh_slots|].
  exists e'. rewrite live_new_snapshot in H4. split_and!; try done.
  rewrite version_data_app. unfold DecodeVersion.
  set (rest := PutLengthPrefixedSlice [] (WriteSnapshot vs v) ++ EncodeVarint32 kClosing).
  assert (Hr : exists k, length (EncodeVarint32 kEdit ++ rest) = Datatypes.S k).
  { destruct (EncodeVarint32 kEdit ++ rest) eqn:E; [|by eexists]. by apply app_eq_nil in E as [E%(f_equal length) _]. }
  destruct Hr as [k Hr]. rewrite Hr, decode_commit_edit.
  unfold rest. rewrite GetLengthPrefixedSlice_Put by apply Hs. cbv beta iota.
  unfold WriteSnapshot. rewrite Hd. obind. cbn [ok]. apply decode_commit_closing.
Qed.

Lemma view_key l a b : meta_view l a = meta_view l b -> m_smallest a = m_smallest b /\ m_number a = m_number b.
Proof. unfold meta_view. intros E. by simplify_eq/=. Qed.

Lemma view_sorted l xs ys :
  map (meta_view l) xs = map (meta_view l) ys ->
  StronglySorted (clt BySmallestKey) ys -> StronglySorted (clt BySmallestKey) xs.
Proof.
  intros E Hs. revert xs E. induction Hs as [|y ys Hs IH Hf]; intros [|x xs] E; try done; [constructor|].
  cbn [map] in E. assert (E1 : meta_view l x = meta_view l y) by congruence.
  assert (E2 : map (meta_view l) xs = map (meta_view l) ys) by congruence. constructor; [by apply IH|].
  apply Forall_forall. intros x' Hx'. apply list_elem_of_lookup in Hx' as [i Hi].
  pose proof (f_equal (fun k => k !! i) E2) as Ei. rewrite !list_lookup_fmap in Ei. rewrite Hi in Ei.
  destruct (ys !! i) as [y'|] eqn:Hy; [|done]. cbn [fmap option_fmap option_map] in Ei. assert (Ev : meta_view l x' = meta_view l y') by congruence.
  pose proof (proj1 (Forall_forall _ _) Hf y' (list_elem_of_lookup_2 _ _ _ Hy)) as Hlt.
  unfold clt, BySmallestKey in *. apply view_key in E1 as [-> ->], Ev as [-> ->]. done.
Qed.

Lemma version_data_ext vs1 vs2 v :
  vs_compact_pointer vs1 = vs_compact_pointer vs2 -> vs_ss_manager vs1 = vs_ss_manager vs2 ->
  vs_last_sequence vs1 = vs_last_sequence vs2 -> version_data vs1 v = version_data vs2 v.
Proof.
  intros E1 E2 E3. unfold version_data, WriteSnapshot. rewrite !snapshot_edit_eq. by rewrite E1, E2, E3.
Qed.

Lemma version_data_nonempty vs v : version_data vs v <> [].
Proof. unfold version_data. intros E. apply app_eq_nil in E as [_ E]. vm_compute in E. discriminate E. Qed.

Lemma current_AppendVersion vs v : current (AppendVersion vs v) = v.
Proof. unfold current, AppendVersion, set_versions. cbn [vs_versions]. by rewrite last_snoc. Qed.

(** What [LogAndApply] leaves behind. *)
Lemma LogAndApply_spec vs e st vs' e' :
  LogAndApply vs e = Some (st, vs', e') ->
  e' = SetLastSequence e (vs_last_sequence vs) /\
  vs_last_sequence vs' = vs_last_sequence vs /\ vs_ss_number vs' = vs_ss_number vs /\
  vs_ss_number_l0 vs' = vs_ss_number_l0 vs /\ vs_ss_manager vs' = vs_ss_manager vs /\
  exists v, apply_edit (current vs) (vs_compact_pointer vs) e' = Some (v, vs_compact_pointer vs') /\
    (st = OK -> current vs' = v /\ exists m1,
       mo_NewManifest (vs_manifest vs) (version_data vs' v) = Some (OK, m1) /\
       mo_SetCurrent m1 = Some (OK, vs_manifest vs')).
Proof.
  unfold LogAndApply. set (e1 := SetLastSequence e (vs_last_sequence vs)).
  intros ([v cp] & Hap & Hr)%bind_Some. apply bind_Some in Hr as ([s vs1] & Hc & [= <- <- <-]).
  unfold CommitVersion in Hc. apply bind_Some in Hc as ([s1 m1] & Hn & Hc).
  assert (Hfields : forall s vs2,
    vs2 = (if ok s then AppendVersion vs1 v else vs1) ->
    vs_last_sequence vs2 = vs_last_sequence vs1 /\ vs_ss_number vs2 = vs_ss_number vs1 /\
    vs_ss_number_l0 vs2 = vs_ss_number_l0 vs1 /\ vs_ss_manager vs2 = vs_ss_manager vs1 /\
    vs_compact_pointer vs2 = vs_compact_pointer vs1 /\ vs_manifest vs2 = vs_manifest vs1).
  { intros s2 vs2 ->. by destruct (ok s2). }
  destruct (Hfields s _ eq_refl) as (F1 & F2 & F3 & F4 & F5 & F6). clear Hfields.
  assert (Hvs1 : vs_last_sequence vs1 = vs_last_sequence vs /\ vs_ss_number vs1 = vs_ss_number vs /\
    vs_ss_number_l0 vs1 = vs_ss_number_l0 vs /\ vs_ss_manager vs1 = vs_ss_manager vs /\
    vs_compact_pointer vs1 = cp /\
    (s = OK -> mo_NewManifest (vs_manifest vs) (version_data (set_compact_pointer vs cp) v) = Some (OK, m1) /\
       mo_SetCurrent m1 = Some (OK, vs_manifest vs1))).
  { destruct (ok s1) eqn:Es.
    - apply bind_Some in Hc as ([s2 m2] & Hset & [= <- <-]). split_and!; try done.
      intros ->. destruct s1; try done.
    - injection Hc as <- <-. split_and!; try done. intros ->. done. }
  destruct Hvs1 as (G1 & G2 & G3 & G4 & G5 & G6).
  cbn [RecalculateScore vs_last_sequence vs_ss_number vs_ss_number_l0 vs_ss_manager vs_compact_pointer vs_manifest].
  split_and!; try congruence. exists v. split; [by rewrite F5, G5|]. intros ->. cbn [ok] in *.
  destruct (G6 eq_refl) as [Hnew Hset]. split.
  - unfold current, RecalculateScore. cbn [vs_versions]. apply (current_AppendVersion vs1 v).
  - exists m1. split; [|by rewrite F6]. rewrite <-Hnew. f_equal. apply version_data_ext; cbn; congruence.
Qed.

(** The list of versions afterwards. *)
Lemma LogAndApply_versions vs e vs' e' :
  LogAndApply vs e = Some (OK, vs', e') -> vs_versions vs' = vs_versions (AppendVersion vs (current vs')).
Proof.
  intros Hl. destruct (LogAndApply_spec _ _ _ _ _ Hl) as (_ & _ & _ & _ & _ & v & Hap & Hc). destruct (Hc eq_refl) as [-> _]. clear Hc.
  unfold LogAndApply in Hl. apply bind_Some in Hl as ([v1 cp] & Hap' & Hl).
  apply bind_Some in Hl as ([s vs1] & Hc & [= -> <- <-]). rewrite Hap' in Hap. injection Hap as -> _.
  assert (E : vs_versions vs1 = vs_versions vs).
  { unfold CommitVersion in Hc. apply bind_Some in Hc as ([s1 m1] & _ & Hc). destruct (ok s1).
    - by apply bind_Some in Hc as ([s2 m2] & _ & [= _ <-]).
    - by injection Hc as _ <-. }
  cbn. unfold AppendVersion. cbn. by rewrite E.
Qed.

(** The sequence number of the manifest is lost on recovery.  [Recover]
    installs the decoded edit with [LogAndApply], which overwrites the edit's
    sequence number with the one of the version set, and only then reads it back
    from the edit: whatever the manifest holds, the last sequence number after
    [Recover] is the one before it. *)
Theorem recover_loses_sequence vs vs' :
  Recover vs = Some (OK, vs') -> vs_last_sequence vs' = vs_last_sequence vs.
Proof.
  assert (Hinst : forall vs e vs', recover_install vs e = Some (OK, vs') -> vs_last_sequence vs' = vs_last_sequence vs).
  { clear. intros vs e vs'. unfold recover_install. destruct (sm_Recover _ _) as [s sm].
    destruct (ok s) eqn:Es.
    - intros ([[s1 vs1] e1] & Hl & Hr)%bind_Some. apply LogAndApply_spec in Hl as (-> & E1 & _).
      destruct (negb (ok s1)) eqn:E2; [by destruct s1|]. injection Hr as <-. cbn. done.
    - cbn [mbind option_bind]. rewrite Es. cbn. by destruct s. }
  unfold Recover. intros ([s m] & _ & Hr)%bind_Some. destruct (ok s).
  - apply bind_Some in Hr as ([s1 data] & _ & Hr). destruct (negb (ok s1)) eqn:E1; [by destruct s1|].
    apply bind_Some in Hr as ([s2 e] & _ & Hr). destruct (negb (ok s2)) eqn:E2; [by destruct s2|].
    by apply Hinst in Hr.
  - by apply Hinst in Hr.
Qed.

(** A successful recovery from a manifest with data installs the decoded edit. *)
Lemma recover_data_spec vs vs' m data e :
  mo_Recover (vs_manifest vs) = Some (OK, m) -> mo_ReadManifest m [] = Some (OK, data) ->
  DecodeVersion data newEdit = Some (OK, e) -> Recover vs = Some (OK, vs') ->
  exists v, current vs' = v /\
    apply_edit (current vs) (vs_compact_pointer vs) (SetLastSequence e (vs_last_sequence vs))
    = Some (v, vs_compact_pointer vs') /\
    (ve_has_next_ss_number e = false -> vs_ss_number vs = 0 ->
     vs_ss_number vs' = next_number m_number (flat_map (level_tables (v_ss v)) levels) 0).
Proof.
  intros Hm Hd He Hr. unfold Recover in Hr. rewrite Hm in Hr. cbn [mbind option_bind ok] in Hr.
  rewrite Hd in Hr. cbn [mbind option_bind ok negb] in Hr. rewrite He in Hr. cbn [mbind option_bind ok negb] in Hr.
  unfold recover_install in Hr. destruct (sm_Recover _ _) as [s sm]. destruct (ok s) eqn:Es.
  - apply bind_Some in Hr as ([[s1 vs1] e1] & Hl & Hr). apply LogAndApply_spec in Hl as (-> & _ & Hn & _ & _ & v & Hap & Hok).
    destruct (negb (ok s1)) eqn:E2; [by destruct s1|]. injection Hr as <-. destruct s1; try done.
    destruct (Hok eq_refl) as [Hcur _]. exists v. split; [exact Hcur|]. split; [exact Hap|].
    cbn [SetLastSequence ve_has_next_ss_number set_numbers vs_ss_number]. intros -> H0.
    cbn [set_ss_manager set_manifest vs_ss_number] in Hn. rewrite Hn, H0, Z.eqb_refl, <-Hcur. done.
  - cbn [mbind option_bind] in Hr. rewrite Es in Hr. cbn in Hr. by destruct s.
Qed.

(** The tables that an edit without deletions adds to an empty level, in order. *)
Lemma merged_new e i :
  ve_deleted_ss e = ∅ -> StronglySorted (clt BySmallestKey) (map snd (at_level fst i (ve_new_ss e))) ->
  merged (edit_level e i) [] = map snd (at_level fst i (ve_new_ss e)).
Proof.
  intros He Hs. unfold merged, edit_level. cbn [added_ss].
  rewrite (zone_set_in_order _ []) by done. rewrite app_nil_l.
  assert (Hm : forall k, list_merge (cle BySmallestKey) [] k = k) by (by intros []). rewrite Hm.
  apply filter_all. intros m _. unfold live. cbn [deleted_ss]. rewrite He, elements_empty. set_solver.
Qed.

Lemma level_tables_newVersion l : level_tables (v_ss newVersion) l = [] /\ level_tables (v_ss_d newVersion) l = [].
Proof.
  unfold level_tables, newVersion. cbn [v_ss v_ss_d]. destruct (replicate _ _ !! _) as [k|] eqn:E; [|done].
  by apply lookup_replicate_1 in E as [-> _].
Qed.

Lemma view_levels (xs ys : list (Z * SSZoneMetaData)) :
  map table_view xs = map table_view ys ->
  Forall (fun lm => level_ok (fst lm)) ys -> Forall (fun lm => level_ok (fst lm)) xs.
Proof.
  intros E Hy. apply (f_equal (map fst)) in E. rewrite !map_map in E. cbn [table_view fst] in E.
  apply Forall_map in Hy. apply Forall_map. unfold fmap, list_fmap in Hy |- *.
  change (Forall level_ok (map fst xs)). change (Forall level_ok (map fst ys)) in Hy.
  change (map (fun x : Z * SSZoneMetaData => fst x) xs) with (map fst xs) in E.
  change (map (fun x : Z * SSZoneMetaData => fst x) ys) with (map fst ys) in E. by rewrite E.
Qed.

Lemma flat_map_levels {X} (f : Z -> list X) :
  Forall (fun lx => level_ok (fst lx)) (flat_map (fun l => map (pair l) (f l)) levels).
Proof.
  apply Forall_forall. intros [l x] Hx. apply list_elem_of_In, in_flat_map in Hx as (l' & Hl & Hx).
  apply in_map_iff in Hx as (x' & [= -> _] & _). by apply elem_of_levels, list_elem_of_In.
Qed.

Lemma flat_map_copy (f : Z -> list SSZoneMetaData) ls :
  flat_map (fun l => map (fun m => (l, copy_definition fresh l m)) (f l)) ls =
  flat_map (fun l => map (pair l) (map (copy_definition fresh l) (f l))) ls.
Proof. apply flat_map_ext. intros l. by rewrite map_map. Qed.

(** The pointer of a level in the snapshot. *)
Lemma pointers_at (cp : list bytes) i (s : option bytes) :
  (fun s => fold_left (fun _ lk => snd lk) (at_level fst i (map (fun l => (l, nth (Z.to_nat l) cp [])) levels)) s) <$> s =
  (fun s => if decide (i < Z.to_nat level_count)%nat then nth i cp [] else s) <$> s.
Proof.
  destruct s as [s|]; [|done]. cbn [fmap option_fmap option_map]. f_equal.
  destruct (decide (i < Z.to_nat level_count)%nat) as [Hi|Hi].
  - change (Z.to_nat level_count) with 6%nat in Hi.
    do 6 (destruct i as [|i]; [reflexivity|]). lia.
  - assert (E : at_level fst i (map (fun l => (l, nth (Z.to_nat l) cp [])) levels) = []).
    { apply elem_of_nil_inv. intros [l x] [Hl Hx]%list_elem_of_filter. cbn in Hl. subst l.
      apply list_elem_of_fmap in Hx as (l & [= <- _] & Hl). apply elem_of_levels in Hl. unfold level_ok in Hl. lia. }
    by rewrite E.
Qed.

Lemma next_number_spec (number : SSZoneMetaData -> Z) ts cur :
  Forall (fun m => 0 <= number m < 2 ^ 64 - 1) ts ->
  cur <= next_number number ts cur /\ Forall (fun m => number m < next_number number ts cur) ts.
Proof.
  revert cur. induction ts as [|m ts IH]; intros cur Hts; [split; [unfold next_number; simpl; lia|constructor]|].
  apply Forall_cons in Hts as [Hm Hts]. unfold next_number in *. cbn [fold_left].
  set (cur' := if number m <? cur then cur else u64 (number m + 1)).
  assert (Hc : cur <= cur' /\ number m < cur').
  { unfold cur'. destruct (Z.ltb_spec (number m) cur); [lia|]. rewrite u64_small by word. lia. }
  destruct (IH cur' Hts) as [H1 H2]. split; [lia|]. constructor; [lia|done].
Qed.

(** Without a manifest that can be read the recovery installs a version without tables. *)
Lemma recover_without_manifest m sm s m' seq n0 vs1 :
  mo_Recover m = Some (s, m') -> ok s = false -> Recover (newVersionSet seq n0 m sm) = Some (OK, vs1) ->
  vs_versions vs1 = [(newVersion, 1)] /\ vs_last_sequence vs1 = seq /\ vs_ss_number vs1 = 0 /\ vs_ss_number_l0 vs1 = n0 /\
  vs_compact_pointer vs1 = replicate (Z.to_nat level_count) [] /\ sm_Recover sm [] = (OK, vs_ss_manager vs1).
Proof.
  intros Hm Hs Hr. unfold Recover in Hr. change (vs_manifest (newVersionSet seq n0 m sm)) with m in Hr. rewrite Hm in Hr. cbn [mbind option_bind] in Hr.
  rewrite Hs in Hr. unfold recover_install in Hr.
  change (vs_ss_manager (set_manifest (newVersionSet seq n0 m sm) m')) with sm in Hr. change (ve_has_fragmented_data newEdit) with false in Hr. cbv iota in Hr.
  destruct (sm_Recover sm []) as [s1 sm1] eqn:Esm. destruct (ok s1) eqn:Es1; [|cbn in Hr; by rewrite Es1 in Hr; cbn in Hr; destruct s1].
  assert (s1 = OK) as -> by (by destruct s1). set (vs0 := set_ss_manager _ sm1) in Hr.
  apply bind_Some in Hr as ([[s2 vs2] e2] & Hl & Hr). cbn [negb] in Hr. destruct (negb (ok s2)) eqn:Es2; [injection Hr as -> _; done|].
  assert (s2 = OK) as -> by (by destruct s2). pose proof (LogAndApply_versions _ _ _ _ Hl) as Hv.
  apply LogAndApply_spec in Hl as (-> & E1 & E2 & E3 & E4 & v & Hap & Hc). destruct (Hc eq_refl) as [Ecur _].
  assert (Eap : apply_edit (current vs0) (vs_compact_pointer vs0) (SetLastSequence newEdit (vs_last_sequence vs0)) =
    Some (newVersion, replicate (Z.to_nat level_count) [])) by (by vm_compute).
  rewrite Eap in Hap. injection Hap as <- Ecp. injection Hr as <-. cbn. rewrite Ecur in Hv.
  change (vs_versions (AppendVersion vs0 newVersion)) with [(newVersion, 1)] in Hv.
  change (vs_ss_number vs0) with 0 in E2. change (vs_ss_number_l0 vs0) with n0 in E3. change (vs_ss_manager vs0) with sm1 in E4.
  rewrite Hv, E2, E3. split_and!; [done|done|by vm_compute| |done|by rewrite E4].
  destruct (Z.eqb_spec n0 0) as [-> |]; [by vm_compute|done].
Qed.

Section Recovery.
Context `{!ManifestLaws M}.

(** C8: a committed version survives a restart.  When [LogAndApply] reports
    success and a fresh version set then recovers from the same manifest, the
    recovered version has the same tables at every level in the same order, the
    same tables to reclaim and the same deleted range, and the compaction
    pointers are the same.  The fields of a table are those its level uses.  The
    next table number is larger than that of every recovered table. *)
Theorem version_recovery vs e vs' e' m' sm' seq n0 vs'' :
  meta_ok fresh -> ml_inv (vs_manifest vs) -> edit_levels_ok e -> blen (vs_compact_pointer vs) = level_count ->
  LogAndApply vs e = Some (OK, vs', e') ->
  snapshot_ok vs' (current vs') ->
  (forall l, level_ok l -> StronglySorted (clt BySmallestKey) (level_tables (v_ss (current vs')) l)) ->
  blen (version_data vs' (current vs')) <= ml_limit ->
  ml_restart (vs_manifest vs') m' ->
  Recover (newVersionSet seq n0 m' sm') = Some (OK, vs'') ->
  (forall l, level_ok l ->
     map (meta_view l) (level_tables (v_ss (current vs'')) l) = map (meta_view l) (level_tables (v_ss (current vs')) l) /\
     map (meta_view l) (level_tables (v_ss_d (current vs'')) l) = map (meta_view l) (level_tables (v_ss_d (current vs')) l)) /\
  v_ss_deleted_range (current vs'') = v_ss_deleted_range (current vs') /\
  vs_compact_pointer vs'' = vs_compact_pointer vs' /\
  ((forall l m, level_ok l -> m ∈ level_tables (v_ss (current vs'')) l -> 0 <= m_number m < 2 ^ 64 - 1) ->
   forall l m, level_ok l -> m ∈ level_tables (v_ss (current vs'')) l -> m_number m < vs_ss_number vs'').
Proof.
  intros Hf Hinv Hlv Hcp Hlog Hsok Hsorted Hlim Hrest Hrec.
  apply LogAndApply_spec in Hlog as (-> & _ & _ & _ & _ & v & Hap & Hok).
  destruct (Hok eq_refl) as (Hcur & m1 & Hnew & Hset). rewrite Hcur in *.
  destruct (ml_install _ _ _ _ Hinv (version_data_nonempty vs' v) Hlim Hnew Hset)
    as [_ Hinst].
  destruct (ml_recover _ _ _ Hinst Hrest) as (m4 & Hmr & _ & Hread).
  destruct (DecodeVersion_spec vs' v Hf Hsok) as (e2 & Hdec & Hsc & Hps & Hdel & Hnews & Hdss).
  destruct (recover_data_spec (newVersionSet seq n0 m' sm') vs'' m4 _ e2 Hmr Hread Hdec Hrec) as (v2 & -> & Hap2 & Hnum).
  set (e3 := SetLastSequence e2 _) in Hap2.
  assert (Hcur0 : current (newVersionSet seq n0 m' sm') = newVersion) by apply current_AppendVersion.
  rewrite Hcur0 in Hap2. cbn [newVersionSet AppendVersion set_versions vs_compact_pointer] in Hap2.
  rewrite snapshot_edit_eq in Hsc, Hps, Hdel, Hnews.
  cbn [ve_compact_pointers ve_deleted_ss_pers ve_new_ss] in Hps, Hdel, Hnews. rewrite flat_map_copy in Hnews.
  assert (Hlv3 : edit_levels_ok e3).
  { unfold e3. split_and!; cbn [SetLastSequence ve_compact_pointers ve_deleted_ss ve_deleted_ss_pers ve_new_ss].
    - rewrite Hps. apply Forall_map. exact levels_ok.
    - rewrite Hdss, elements_empty. constructor.
    - eapply view_levels; [exact Hdel|]. apply flat_map_levels.
    - eapply view_levels; [exact Hnews|]. apply flat_map_levels. }
  assert (Hscal : ve_has_deleted_range e3 = true /\ ve_deleted_range e3 = v_ss_deleted_range v).
  { unfold e3. cbn. unfold scalars in Hsc. cbn in Hsc. destruct (ve_has_deleted_range e2); simplify_eq/=; done. }
  assert (Hcp0 : blen (replicate (Z.to_nat level_count) (@nil byte)) = level_count) by done.
  split_and!.
  - intros l Hl. destruct (apply_edit_level _ _ _ _ _ l Hlv3 Hcp0 Hap2 Hl) as (Hss & Hsd & _).
    destruct (level_tables_newVersion l) as [E1 E2]. rewrite E1 in Hss. rewrite E2, app_nil_l in Hsd.
    assert (Hl' : level_ok (Z.of_nat (Z.to_nat l))) by (unfold level_ok in *; lia).
    assert (El : Z.of_nat (Z.to_nat l) = l) by (unfold level_ok in *; lia).
    pose proof (at_level_view (Z.to_nat l) _ _ Hnews) as Vn. pose proof (at_level_view (Z.to_nat l) _ _ Hdel) as Vd.
    rewrite at_level_flat_map in Vd by done. rewrite El in Vn, Vd.
    rewrite at_level_flat_map, El in Vn by done.
    assert (Vn' : map (meta_view l) (map snd (at_level fst (Z.to_nat l) (ve_new_ss e2))) =
                  map (meta_view l) (level_tables (v_ss v) l)).
    { rewrite Vn, map_map. apply map_ext_in. intros m Hm. apply overlay_view.
      apply list_elem_of_In in Hm. by apply (so_tables _ _ Hsok l). }
    split; [|by rewrite Hsd].
    rewrite Hss, merged_new; [exact Vn'|exact Hdss|]. eapply view_sorted; [exact Vn'|by apply Hsorted].
  - destruct (apply_edit_level _ _ _ _ _ 0 Hlv3 Hcp0 Hap2 ltac:(done)) as (_ & _ & _ & Hr & _).
    rewrite Hr. destruct Hscal as [-> ->]. done.
  - destruct (apply_edit_level _ _ _ _ _ 0 Hlv3 Hcp0 Hap2 ltac:(done)) as (_ & _ & _ & _ & Hcps & _).
    destruct (apply_edit_level _ _ _ _ _ 0 ltac:(exact Hlv) Hcp Hap ltac:(done)) as (_ & _ & _ & _ & Hcps1 & _).
    apply list_eq. intros i. rewrite Hcps. unfold e3. cbn [SetLastSequence ve_compact_pointers]. rewrite Hps.
    rewrite (pointers_at (vs_compact_pointer vs')).
    assert (Hsome : is_Some (vs_compact_pointer vs' !! i) <-> (i < Z.to_nat level_count)%nat).
    { rewrite Hcps1, fmap_is_Some, lookup_lt_is_Some. unfold blen in Hcp. lia. }
    destruct (decide (i < Z.to_nat level_count)%nat) as [Hi|Hi].
    + rewrite lookup_replicate_2 by done. cbn [fmap option_fmap option_map].
      destruct (proj2 Hsome Hi) as [x Hx]. rewrite Hx. f_equal. by apply nth_lookup_Some.
    + rewrite (proj2 (lookup_ge_None _ _)) by (rewrite length_replicate; lia). cbn.
      destruct (vs_compact_pointer vs' !! i) as [x|] eqn:Ex; [|done]. exfalso. apply Hi, Hsome. done.
  - intros Hb l m Hl Hm. rewrite Hnum; [|by unfold scalars in Hsc; cbn in Hsc; destruct (ve_has_next_ss_number e2); simplify_eq/=|done].
    destruct (next_number_spec m_number (flat_map (level_tables (v_ss v2)) levels) 0) as [_ Hall].
    + apply Forall_forall. intros x Hx. apply list_elem_of_In, in_flat_map in Hx as (l' & Hl' & Hx).
      apply (Hb l'); [by apply elem_of_levels, list_elem_of_In|by apply list_elem_of_In].
    + rewrite Forall_forall in Hall. apply Hall. apply list_elem_of_In, in_flat_map. exists l.
      split; apply list_elem_of_In; [by apply elem_of_levels|done].
Qed.
End Recovery.

(** ** Reclaiming *)

(** No live version refers to the table, and the current version has marked it
    as deleted. *)
Definition unreferenced (vs : VS) (l : Z) (m : SSZoneMetaData) : Prop :=
  m ∈ level_tables (v_ss_d (current vs)) l /\
  forall v n m', (v, n) ∈ vs_versions vs -> m' ∈ level_tables (v_ss v) l -> m_number m' <> m_number m.

Lemma elem_of_GetLiveZones vs l n :
  n ∈ GetLiveZones vs l <-> exists v k m, (v, k) ∈ vs_versions vs /\ m ∈ level_tables (v_ss v) l /\ n = m_number m.
Proof.
  unfold GetLiveZones. rewrite elem_of_list_to_set, list_elem_of_fmap. split.
  - intros (m & -> & Hm). apply list_elem_of_In, in_flat_map in Hm as ([v k] & Hv & Hm).
    exists v, k, m. split_and!; [by apply list_elem_of_In|by apply list_elem_of_In|done].
  - intros (v & k & m & Hv & Hm & ->). exists m. split; [done|]. apply list_elem_of_In, in_flat_map.
    exists (v, k). split; by apply list_elem_of_In.
Qed.

Lemma split_live_unreferenced vs l m :
  m ∈ fst (split_live (GetLiveZones vs l) (level_tables (v_ss_d (current vs)) l)) <-> unreferenced vs l m.
Proof.
  unfold split_live, unreferenced. cbn [fst]. rewrite list_elem_of_filter, elem_of_GetLiveZones. split.
  - intros [Hn Hm]. split; [done|]. intros v n m' Hv Hm' E. apply Hn. naive_solver.
  - intros [Hm Hn]. split; [|done]. intros (v & k & m' & Hv & Hm' & E). by apply (Hn v k m').
Qed.

(** The live tables of a level and the deleted tables of another one do not
    change when a list of deleted tables is replaced. *)
Lemma set_current_deleted_unreferenced vs i k l m :
  0 <= i -> 0 <= l -> l <> i -> unreferenced (set_current_deleted vs i k) l m -> unreferenced vs l m.
Proof.
  intros Hi Hl0 Hl. unfold set_current_deleted, unreferenced, current.
  destruct (last (vs_versions vs)) as [[v n]|] eqn:El; [|by rewrite El].
  cbn [set_versions vs_versions]. rewrite last_snoc. cbn [fmap option_fmap option_map default fst v_ss_d id].
  apply last_Some in El as [k0 E]. rewrite E, removelast_last. intros [H1 H2]. split.
  - unfold level_tables in *. cbn [id v_ss_d] in H1. rewrite list_lookup_insert_ne in H1 by lia. done.
  - intros v' n' m' Hv Hm'. apply elem_of_app in Hv as [Hv|Hv%list_elem_of_singleton].
    + apply (H2 v' n' m'); [|done]. apply elem_of_app. by left.
    + injection Hv as -> ->. eapply H2; [apply elem_of_app; right; by apply list_elem_of_singleton|done].
Qed.

Lemma delete_ln_inv (Inv : S -> Prop) l ts sm s sm' :
  (forall sm m s sm', Inv sm -> m ∈ ts -> sm_DeleteLNTable sm l m = Some (s, sm') -> Inv sm') ->
  Inv sm -> delete_ln sm l ts = Some (s, sm') -> Inv sm'.
Proof.
  revert sm. induction ts as [|m ts IH]; intros sm Hd Hs; cbn [delete_ln]; [by intros [= _ <-]|].
  intros ([s1 sm1] & H1 & Hr)%bind_Some. assert (Hm : Inv sm1) by (eapply Hd; [done|by left|done]).
  destruct (negb (ok s1)); [by injection Hr as _ <-|]. eapply IH; [|done|done].
  intros sm0 m0 s0 sm0' H0 Hin. apply Hd; [done|by right].
Qed.

Lemma reclaim_levels_inv (Inv : S -> Prop) ls vs st vs' :
  NoDup ls -> Forall (fun l => 0 <= l) ls ->
  (forall sm l m s sm', l ∈ ls -> unreferenced vs l m -> Inv sm -> sm_DeleteLNTable sm l m = Some (s, sm') -> Inv sm') ->
  Inv (vs_ss_manager vs) -> reclaim_levels vs ls = Some (st, vs') -> Inv (vs_ss_manager vs').
Proof.
  revert vs. induction ls as [|i ls IH]; intros vs Hnd Hpos Hd Hs; cbn [reclaim_levels]; [by intros [= _ <-]|].
  apply NoDup_cons in Hnd as [Hni Hnd]. apply Forall_cons in Hpos as [Hi Hpos].
  pose proof (split_live_unreferenced vs i) as Hsp.
  destruct (split_live _ _) as [to_delete new_deleted]. cbn [fst] in Hsp.
  intros ([s sm] & Hdl & Hr)%bind_Some.
  assert (Hsm : Inv sm).
  { eapply delete_ln_inv; [|exact Hs|exact Hdl]. intros sm0 m s0 sm0' H0 Hm. apply Hd; [by left|by apply Hsp|done]. }
  destruct (negb (ok s)); [by injection Hr as _ <-|]. eapply IH; [done|done| | |exact Hr].
  - intros sm0 l m s0 sm0' Hl Hu H0. apply Hd; [by right| |done].
    rewrite Forall_forall in Hpos. apply (set_current_deleted_unreferenced (set_ss_manager vs sm) i new_deleted l m Hi (Hpos l Hl)); [|done].
    intros ->. done.
  - unfold set_current_deleted, set_ss_manager. cbn [vs_versions]. by destruct (last (vs_versions vs)) as [[? ?]|].
Qed.

Lemma ReclaimLN_inv (Inv : S -> Prop) vs st vs' :
  (forall sm l m s sm', 1 <= l < level_count -> unreferenced vs l m -> Inv sm ->
     sm_DeleteLNTable sm l m = Some (s, sm') -> Inv sm') ->
  Inv (vs_ss_manager vs) -> ReclaimStaleSSTablesLN vs = Some (st, vs') -> Inv (vs_ss_manager vs').
Proof.
  intros Hd Hs ([s vs1] & Hl1 & Hr)%bind_Some.
  assert (H1 : Inv (vs_ss_manager vs1)).
  { eapply reclaim_levels_inv; [| | |exact Hs|exact Hl1]; [apply NoDup_seqZ| |].
    - apply Forall_forall. intros l Hl%elem_of_seqZ. lia.
    - intros sm l m s0 sm' Hl%elem_of_seqZ. apply Hd. lia. }
  destruct (negb (ok s)); [by injection Hr as <- <-|].
  apply bind_Some in Hr as ([[s2 vs2] e2] & Hl & [= <- <-]).
  by apply LogAndApply_spec in Hl as (_ & _ & _ & _ & -> & _).
Qed.

(** Reclaiming only deletes tables that nobody uses.  Any property of the
    table storage that survives the deletion of a table which the current version
    has dropped and which no live version, the ones readers still hold included,
    refers to, survives [ReclaimStaleSSTablesLN]. *)
Theorem reclaim_only_unreferenced (Inv : S -> Prop) vs st vs' :
  (forall sm l m s sm', 1 <= l < level_count -> unreferenced vs l m -> Inv sm ->
     sm_DeleteLNTable sm l m = Some (s, sm') -> Inv sm') ->
  Inv (vs_ss_manager vs) -> ReclaimStaleSSTablesLN vs = Some (st, vs') -> Inv (vs_ss_manager vs').
Proof. apply ReclaimLN_inv. Qed.
End VersionSet.

(** ** Witnesses: a version set over an in-memory manifest log *)

Module VersionSetWitness.
#[global] Instance log_ops : CircularLog MemLog.t := MemLog.ops 64 0 64.
#[global] Instance log_laws : CircularLogLaws MemLog.t 64 0 64 := MemLog.laws 64 0 64 ltac:(lia) ltac:(lia).
#[global] Instance mf_ops : ManifestOps (TropoManifest MemLog.t) := manifest_ops 64 0 64 8.
#[global] Instance mf_laws : ManifestLaws (TropoManifest MemLog.t) :=
  manifest_laws 64 0 64 8 ltac:(lia) ltac:(lia) ltac:(lia) ltac:(lia).

(** The storage of the tables records what is deleted. *)
#[global] Instance sm_ops : SSTableManagerOps (list (Z * Z)) := {|
  sm_GetRecoveryData _ := [x07];
  sm_Recover s _ := (OK, s);
  sm_DeleteL0Table s _ remaining := Some (OK, remaining, s);
  sm_DeleteLNTable s l m := Some (OK, (l, m_number m) :: s)
|}.

Definition name : bytes := [x63].
Definition fresh : SSZoneMetaData := newSSZoneMetaData 77 (repeat 0 8) (repeat 0 8).

(** A version set that is opened with the manifest [m]. *)
Definition open (seq : Z) (m : TropoManifest MemLog.t) : TropoVersionSet (TropoManifest MemLog.t) (list (Z * Z)) :=
  newVersionSet seq 0 m [].

Definition vs : TropoVersionSet (TropoManifest MemLog.t) (list (Z * Z)) :=
  open 42 (newManifest 64 (MemLog.mk 0 [])).

(** Add a table to level 1 and one to level 0. *)
Definition edit : TropoVersionEdit :=
  AddSSDefinition fresh (AddSSDefinition fresh newEdit 1 wit_ln) 0 wit_l0.

Definition committed : option (Status * TropoVersionSet (TropoManifest MemLog.t) (list (Z * Z)) * TropoVersionEdit) :=
  LogAndApply (H := BytewiseComparator) name 64 fresh vs edit.
Definition vs' : TropoVersionSet (TropoManifest MemLog.t) (list (Z * Z)) :=
  match committed with Some (_, v, _) => v | None => vs end.
Definition edit' : TropoVersionEdit := match committed with Some (_, _, e) => e | None => edit end.

Definition recovered : option (Status * TropoVersionSet (TropoManifest MemLog.t) (list (Z * Z))) :=
  Recover (H := BytewiseComparator) name 64 fresh (open 0 (newManifest 64 (mf_log (vs_manifest vs')))).
Definition vs'' : TropoVersionSet (TropoManifest MemLog.t) (list (Z * Z)) :=
  match recovered with Some (_, v) => v | None => vs end.

Definition t0 : SSZoneMetaData := copy_definition fresh 0 wit_l0.
Definition t1 : SSZoneMetaData := copy_definition fresh 1 wit_ln.
End VersionSetWitness.

Lemma VersionSetWitness_tables :
  v_ss (current VersionSetWitness.vs') = [[VersionSetWitness.t0]; [VersionSetWitness.t1]; []; []; []; []] /\
  v_ss_d (current VersionSetWitness.vs') = [[]; []; []; []; []; []].
Proof. split; vm_compute; reflexivity. Qed.

Lemma wit_meta_ok m : m = VersionSetWitness.fresh \/ m = VersionSetWitness.t0 \/ m = VersionSetWitness.t1 -> meta_ok m.
Proof. intros [->|[-> | ->]]; constructor; try done; repeat constructor; done. Qed.

Lemma VersionSetWitness_level l :
  level_ok l -> level_tables (v_ss (current VersionSetWitness.vs')) l =
    (if l =? 0 then [VersionSetWitness.t0] else if l =? 1 then [VersionSetWitness.t1] else []) /\
  level_tables (v_ss_d (current VersionSetWitness.vs')) l = [].
Proof.
  intros Hl. unfold level_tables. destruct VersionSetWitness_tables as [-> ->].
  unfold level_ok in Hl. change level_count with 6 in Hl.
  assert (l = 0 \/ l = 1 \/ l = 2 \/ l = 3 \/ l = 4 \/ l = 5) as [->|[->|[->|[->|[->| ->]]]]] by lia; done.
Qed.

Lemma VersionSetWitness_restart :
  ml_restart (vs_manifest VersionSetWitness.vs') (newManifest 64 (mf_log (vs_manifest VersionSetWitness.vs'))).
Proof.
  generalize (vs_manifest VersionSetWitness.vs'). intros m. split; [reflexivity|]. split; eexists; reflexivity.
Qed.

Lemma version_recovery_witness :
  map (meta_view 1) (level_tables (v_ss (current VersionSetWitness.vs'')) 1) = [meta_view 1 VersionSetWitness.t1] /\
  vs_last_sequence VersionSetWitness.vs' = 42.
Proof.
  split; [|vm_compute; reflexivity].
  destruct (version_recovery (H := BytewiseComparator) VersionSetWitness.name 64 VersionSetWitness.fresh
    VersionSetWitness.vs VersionSetWitness.edit VersionSetWitness.vs' VersionSetWitness.edit'
    (newManifest 64 (mf_log (vs_manifest VersionSetWitness.vs'))) [] 0 0 VersionSetWitness.vs'') as (Hl & _).
  - apply wit_meta_ok. by left.
  - constructor; [done|done|done|]. exists 0. done.
  - split_and!; apply (bool_decide_unpack _); by vm_compute.
  - done.
  - vm_compute. reflexivity.
  - constructor.
    + intros l m Hl Hm. destruct (VersionSetWitness_level l Hl) as [E _]. rewrite E in Hm. apply wit_meta_ok.
      destruct (l =? 0), (l =? 1); [| |  |destruct (not_elem_of_nil _ Hm)];
        apply list_elem_of_singleton in Hm as ->; [right; left|right; left|right; right]; reflexivity.
    + intros l m Hl Hm. destruct (VersionSetWitness_level l Hl) as [_ E]. rewrite E in Hm. destruct (not_elem_of_nil _ Hm).
    + apply (bool_decide_unpack _). by vm_compute.
    + apply (bool_decide_unpack _). by vm_compute.
    + apply (bool_decide_unpack _). by vm_compute.
    + apply (bool_decide_unpack _). by vm_compute.
    + apply (bool_decide_unpack _). by vm_compute.
    + apply (bool_decide_unpack _). by vm_compute.
  - intros l Hl. destruct (VersionSetWitness_level l Hl) as [E _]. rewrite E.
    destruct (l =? 0), (l =? 1); repeat constructor.
  - vm_compute. discriminate.
  - exact VersionSetWitness_restart.
  - vm_compute. reflexivity.
  - assert (H1 : level_ok 1) by (unfold level_ok; vm_compute; split; congruence).
    rewrite (proj1 (Hl 1 H1)), (proj1 (VersionSetWitness_level 1 H1)). cbv beta iota. exact eq_refl.
Defined.

Lemma recover_loses_sequence_witness :
  vs_last_sequence VersionSetWitness.vs' = 42 /\ vs_last_sequence VersionSetWitness.vs'' = 0.
Proof.
  split; [vm_compute; reflexivity|].
  apply (recover_loses_sequence (H := BytewiseComparator) VersionSetWitness.name 64 VersionSetWitness.fresh
    (VersionSetWitness.open 0 (newManifest 64 (mf_log (vs_manifest VersionSetWitness.vs'))))).
  vm_compute. reflexivity.
Defined.

Lemma reclaim_only_unreferenced_witness :
  exists st vs2, ReclaimStaleSSTablesLN (H := BytewiseComparator) VersionSetWitness.name 64 VersionSetWitness.fresh
      VersionSetWitness.vs' = Some (st, vs2) /\ (1, 7) ∉ vs_ss_manager vs2.
Proof.
  eexists _, _. split; [vm_compute; reflexivity|].
  eapply (reclaim_only_unreferenced (H := BytewiseComparator) VersionSetWitness.name 64 VersionSetWitness.fresh
    (fun sm => (1, 7) ∉ sm) VersionSetWitness.vs').
  - intros sm l m s sm' Hl [Hm _] Hs. destruct (VersionSetWitness_level l) as [_ E]; [unfold level_ok; lia|].
    rewrite E in Hm. destruct (not_elem_of_nil _ Hm).
  - apply (bool_decide_unpack _). by vm_compute.
  - vm_compute. reflexivity.
Defined.
