(* ===== verification/PickCompaction.v ===== *)
(** * PickCompaction: the choice of the tables to compact

    The part of [index/tropodb_version_set.cc] that sets up a compaction: key
    ranges, boundary tables, the tables of the next level, and
    [PickCompaction], with the compaction object of
    [index/tropodb_compaction.h] that it fills. *)

From S2P Require Import Prelude Coding DbFormat Config SSTable SSTableIter VersionEdit Version VersionBuilder.
From S2P Require Import Crc32c Committer Szd CommitLog Manifest VersionSet.

(** What the choice asks of the SSTable manager: the blocks left on the log of
    the levels above 0 and on each log of level 0, and the share in use. *)
Class SSTableSpace (S : Type) := {
  sp_SpaceRemainingLN : S -> Z;
  sp_SpaceRemainingL0 : S -> Z -> Z;
  sp_GetFractionFilled : S -> Z -> f64
}.

(** [TropoCompaction], index/tropodb_compaction.h:75-89.  The version is [None]
    until the compaction holds a reference to it; the links to the version set,
    the environment and the timing counters are left out. *)
Record TropoCompaction := mkCompaction {
  c_first_level : Z;
  c_max_lba_count : Z;
  c_version : option TropoVersion;
  c_edit : TropoVersionEdit;
  c_targets0 : list SSZoneMetaData;
  c_targets1 : list SSZoneMetaData;
  c_level_ptrs : list nat;
  c_grandparents : list SSZoneMetaData;
  c_busy : bool
}.

Section PickCompaction.
Context `{UserComparator}.

(** [TropoCompaction::TropoCompaction], index/tropodb_compaction.cc:20-34 *)
Definition newCompaction (lba_size first_level : Z) : TropoCompaction :=
  mkCompaction first_level ((max_bytes_sstable_ + lba_size - 1) / lba_size) None newEdit [] []
    (replicate (Z.to_nat level_count) 0%nat) [] false.

Definition set_targets0 (c : TropoCompaction) (l : list SSZoneMetaData) : TropoCompaction :=
  mkCompaction (c_first_level c) (c_max_lba_count c) (c_version c) (c_edit c) l (c_targets1 c)
    (c_level_ptrs c) (c_grandparents c) (c_busy c).
Definition set_busy (c : TropoCompaction) : TropoCompaction :=
  mkCompaction (c_first_level c) (c_max_lba_count c) (c_version c) (c_edit c) (c_targets0 c) (c_targets1 c)
    (c_level_ptrs c) (c_grandparents c) true.

(** ** Key ranges *)

(** One table of the loop of [GetRange]. *)
Definition widen (r : bytes * bytes) (m : SSZoneMetaData) : bytes * bytes :=
  let '(smallest, largest) := r in
  (match InternalCompare (m_smallest m) smallest with Lt => m_smallest m | _ => smallest end,
   match InternalCompare (m_largest m) largest with Gt => m_largest m | _ => largest end).

(** [TropoVersionSet::GetRange], index/tropodb_version_set.cc:286-308.  An empty
    input fails the assertion. *)
Definition GetRange (inputs : list SSZoneMetaData) : option (bytes * bytes) :=
  match inputs with
  | [] => None
  | m :: inputs => Some (fold_left widen inputs (m_smallest m, m_largest m))
  end.

(** [TropoVersionSet::GetRange2], index/tropodb_version_set.cc:310-316 *)
Definition GetRange2 (inputs1 inputs2 : list SSZoneMetaData) : option (bytes * bytes) :=
  GetRange (inputs1 ++ inputs2).

(** ** Boundary tables *)

(** [FindLargestKey], index/tropodb_version_set.cc:318-334 *)
Definition FindLargestKey (ss : list SSZoneMetaData) : option bytes :=
  match ss with
  | [] => None
  | m :: ss =>
      Some (fold_left (fun largest_key m =>
        match InternalCompare (m_largest m) largest_key with Gt => m_largest m | _ => largest_key end)
        ss (m_largest m))
  end.

(** The table starts behind [largest_key], with the same user key. *)
Definition is_boundary (largest_key : bytes) (m : SSZoneMetaData) : bool :=
  cmp_is (InternalCompare (m_smallest m) largest_key) Gt &&
  cmp_is (Compare (smallest_user_key m) (ExtractUserKey largest_key)) Eq.

(** [FindSmallestBoundarySS], index/tropodb_version_set.cc:336-357 *)
Definition FindSmallestBoundarySS (level_ss : list SSZoneMetaData) (largest_key : bytes) : option SSZoneMetaData :=
  fold_left (fun smallest_boundary_ss m =>
    if is_boundary largest_key m then
      match smallest_boundary_ss with
      | None => Some m
      | Some b => match InternalCompare (m_smallest m) (m_smallest b) with Lt => Some m | _ => Some b end
      end
    else smallest_boundary_ss) level_ss None.

(** The loop of [AddBoundaryInputs]. *)
Fixpoint boundary_loop (fuel : nat) (level_ss compaction_ss : list SSZoneMetaData) (largest_key : bytes)
    : option (list SSZoneMetaData) :=
  match fuel with
  | O => None
  | Datatypes.S fuel =>
      match FindSmallestBoundarySS level_ss largest_key with
      | Some b => boundary_loop fuel level_ss (compaction_ss ++ [b]) (m_largest b)
      | None => Some compaction_ss
      end
  end.

(** [AddBoundaryInputs], index/tropodb_version_set.cc:359-383.  Each round moves
    the largest key over a table of the level, so there is at most one round per
    table and one that finds nothing. *)
Definition AddBoundaryInputs (level_ss compaction_ss : list SSZoneMetaData) : option (list SSZoneMetaData) :=
  match FindLargestKey compaction_ss with
  | None => Some compaction_ss
  | Some largest_key => boundary_loop (Datatypes.S (length level_ss)) level_ss compaction_ss largest_key
  end.

Context {M S : Type} `{!SSTableSpace S}.
Context (lba_size : Z).

Abbreviation VS := (TropoVersionSet M S).

(** ** The tables of the other levels *)

(** [TropoVersionSet::SetupOtherInputs], index/tropodb_version_set.cc:400-454.
    An access of the arrays behind the last level is [None]. *)
Definition SetupOtherInputs (vs : VS) (c : TropoCompaction) : option (TropoCompaction * VS) :=
  let level := c_first_level c in
  let v := current vs in
  targets0 ← AddBoundaryInputs (level_tables (v_ss v) level) (c_targets0 c);
  '(smallest, largest) ← GetRange targets0;
  targets1 ← GetOverlappingInputs v (level + 1) (Some smallest) (Some largest);
  targets1 ← AddBoundaryInputs (level_tables (v_ss v) (level + 1)) targets1;
  '(all_start, all_limit) ← GetRange2 targets0 targets1;
  grandparents ← (if level + 2 <? level_count
                  then GetOverlappingInputs v (level + 2) (Some all_start) (Some all_limit)
                  else Some (c_grandparents c));
  Some (mkCompaction level (c_max_lba_count c) (c_version c) (SetCompactPointer (c_edit c) level largest)
          targets0 targets1 (c_level_ptrs c) grandparents (c_busy c),
        set_compact_pointer vs (<[Z.to_nat level := largest]> (vs_compact_pointer vs))).

(** The literal [0.85]. *)
Definition f64_85 : f64 := f64_div (f64_of_Z 85) (f64_of_Z 100).

(** [TropoVersionSet::OnlyNeedDeletes], index/tropodb_version_set.cc:456-464 *)
Definition OnlyNeedDeletes (vs : VS) (level : Z) : bool :=
  (length (level_tables (v_ss (current vs)) level) =? 0)%nat ||
  ((0 <? level) && f64_gt (sp_GetFractionFilled (vs_ss_manager vs) level) f64_85).

(** ** Picking *)

(** The log of level 0 with the least space. *)
Definition l0_log_prio (s : S) : Z :=
  fst (fold_left (fun '(prio, space_rem) i =>
      if sp_SpaceRemainingL0 s i <? space_rem then (i, sp_SpaceRemainingL0 s i) else (prio, space_rem))
    (seqZ 1 (lower_concurrency - 1)) (0, sp_SpaceRemainingL0 s 0)).

(** The loop that picks the table with the lowest number: that number, the index
    and whether there is one. *)
Definition pick_oldest (P : SSZoneMetaData -> bool) (ss : list SSZoneMetaData) : Z * nat * bool :=
  fold_left (fun '(number, index, number_picked) '(i, m) =>
      if P m && ((m_number m <? number) || negb number_picked) then (m_number m, i, true)
      else (number, index, number_picked)) (imap pair ss) (0, 0%nat, false).

(** The table of level 0 to compact: the oldest one of the fullest log, else the
    oldest one of the other logs. *)
Definition pick_l0 (s : S) (ss : list SSZoneMetaData) : Z * nat * bool :=
  let prio := l0_log_prio s in
  let r := pick_oldest (fun m => m_L0_log_number m =? prio) ss in
  if snd r then r else pick_oldest (fun m => negb (m_L0_log_number m =? prio)) ss.

(** The number of the table is that of a busy one. *)
Definition is_busy (busy : list SSZoneMetaData) (m : SSZoneMetaData) : bool :=
  existsb (fun m2 => m_number m2 =? m_number m) busy.

(** The first table of a level above 0 behind the compaction pointer; on level 1
    the busy ones are skipped. *)
Definition pick_ln (level : Z) (compact_pointer : bytes) (busy ss : list SSZoneMetaData) : option SSZoneMetaData :=
  snd <$> list_find (fun m => Is_true
    ((bool_decide (compact_pointer = []) || cmp_is (InternalCompare (m_largest m) compact_pointer) Gt) &&
     negb ((level =? 1) && is_busy busy m))) ss.

(** The wrap-around of level 1: the first table whose number differs from that of
    some busy table, or the first one when no table is busy. *)
Definition pick_wrapped (busy ss : list SSZoneMetaData) : option SSZoneMetaData :=
  snd <$> list_find (fun m => Is_true
    (existsb (fun m2 => negb (m_number m2 =? m_number m)) busy || (length busy =? 0)%nat)) ss.

(** The loop that adds the overlapping tables of level 0 while they fit. *)
Fixpoint add_overlapping (L0index max_lba_c : Z) (overlapping targets : list SSZoneMetaData)
    : list SSZoneMetaData :=
  match overlapping with
  | [] => targets
  | target :: overlapping =>
      if m_number target =? L0index then add_overlapping L0index max_lba_c overlapping targets
      else if max_lba_c <? m_lba_count target then targets
      else add_overlapping L0index (u64 (max_lba_c - m_lba_count target)) overlapping (targets ++ [target])
  end.

(** A reference to the current version. *)
Definition ref_current (vs : VS) : VS :=
  match last (vs_versions vs) with
  | Some (v, n) => set_versions vs (removelast (vs_versions vs) ++ [(v, n + 1)])
  | None => vs
  end.

Definition set_version (c : TropoCompaction) (v : TropoVersion) : TropoCompaction :=
  mkCompaction (c_first_level c) (c_max_lba_count c) (Some v) (c_edit c) (c_targets0 c) (c_targets1 c)
    (c_level_ptrs c) (c_grandparents c) (c_busy c).

(** The end of [PickCompaction], once the first table is picked. *)
Definition finish_pick (vs : VS) (c : TropoCompaction) (L0index max_lba_c : Z) : option (TropoCompaction * VS) :=
  let c := set_version c (current vs) in
  let vs := ref_current vs in
  if c_first_level c =? 0 then
    '(smallest, largest) ← GetRange (c_targets0 c);
    overlapping ← GetOverlappingInputs (current vs) 0 (Some smallest) (Some largest);
    SetupOtherInputs vs (set_targets0 c (add_overlapping L0index max_lba_c overlapping (c_targets0 c)))
  else SetupOtherInputs vs c.

(** [TropoVersionSet::PickCompaction], index/tropodb_version_set.cc:466-619.  The
    results are the compaction and the version set; a compaction without targets
    is one that found nothing to do. *)
Definition PickCompaction (vs : VS) (level : Z) (busy : list SSZoneMetaData) : option (TropoCompaction * VS) :=
  let c := newCompaction lba_size level in
  let s := vs_ss_manager vs in
  let max_lba_c := Z.min (sp_SpaceRemainingLN s) max_lbas_compaction_l0 in
  let ss := level_tables (v_ss (current vs)) level in
  if level =? 0 then
    let '(number, index, number_picked) := pick_l0 s ss in
    if negb number_picked then Some (c, vs)
    else m ← ss !! index; finish_pick vs (set_targets0 c [m]) number max_lba_c
  else
    compact_pointer ← vs_compact_pointer vs !! Z.to_nat level;
    match pick_ln level compact_pointer busy ss with
    | Some m => finish_pick vs (set_targets0 c [m]) 0 (u64 (max_lba_c - m_lba_count m))
    | None =>
        if level =? 1 then
          match pick_wrapped busy ss with
          | Some m => finish_pick vs (set_targets0 c [m]) 0 max_lba_c
          | None => Some (set_busy c, vs)
          end
        else
          match ss with
          | m :: _ => finish_pick vs (set_targets0 c [m]) 0 (u64 (max_lba_c - m_lba_count m))
          | [] => Some (c, vs)
          end
    end.

(** ** Ranges and extrema *)

(** A fold that keeps the larger of two keys ends with the largest one. *)
Lemma fold_max {A K} (cmp : K -> K -> comparison) `{!CmpLaws cmp} (key : A -> K) (upd : K -> A -> K) l a :
  (forall acc m, upd acc m = match cmp (key m) acc with Gt => key m | _ => acc end) ->
  let r := fold_left upd l a in
  (r = a \/ exists m, m ∈ l /\ key m = r) /\ cle cmp a r /\ forall m, m ∈ l -> cle cmp (key m) r.
Proof.
  intros Hupd. revert a. induction l as [|x l IH]; intros a; simpl.
  - split_and!; [by left|apply (cle_refl cmp)|]. intros m Hm. by apply elem_of_nil in Hm.
  - destruct (IH (upd a x)) as (Hin & Hle & Hall).
    assert (Hx : cle cmp a (upd a x) /\ cle cmp (key x) (upd a x) /\ (upd a x = a \/ upd a x = key x)).
    { rewrite Hupd. destruct (cmp (key x) a) eqn:E.
      - apply (cmp_eq_le cmp) in E as [? ?]. split_and!; [apply (cle_refl cmp)|done|by left].
      - split_and!; [apply (cle_refl cmp)|by apply (clt_le cmp)|by left].
      - apply (cmp_gt_lt cmp) in E. split_and!; [by apply (clt_le cmp)|apply (cle_refl cmp)|by right]. }
    destruct Hx as (Hx1 & Hx2 & Hx3). split_and!.
    + destruct Hin as [Hr|(m & Hm & Hr)]; [|right; exists m; split; [by right|done]].
      destruct Hx3 as [E|E]; [left; congruence|right; exists x; split; [by left|congruence]].
    + by trans (upd a x).
    + intros m [->|Hm]%elem_of_cons; [by trans (upd a x)|by apply Hall].
Qed.

Lemma fold_widen l s g :
  fold_left widen l (s, g) =
  (fold_left (fun acc m => match InternalCompare (m_smallest m) acc with Lt => m_smallest m | _ => acc end) l s,
   fold_left (fun acc m => match InternalCompare (m_largest m) acc with Gt => m_largest m | _ => acc end) l g).
Proof. revert s g. induction l as [|m l IH]; intros s g; [done|]. simpl. apply IH. Qed.

(** [k] is the largest key of the tables. *)
Definition is_largest (ss : list SSZoneMetaData) (k : bytes) : Prop :=
  (exists m, m ∈ ss /\ m_largest m = k) /\ forall m, m ∈ ss -> cle InternalCompare (m_largest m) k.

Lemma fold_largest m ss :
  is_largest (m :: ss)
    (fold_left (fun acc m => match InternalCompare (m_largest m) acc with Gt => m_largest m | _ => acc end)
       ss (m_largest m)).
Proof.
  destruct (fold_max InternalCompare m_largest
    (fun acc m => match InternalCompare (m_largest m) acc with Gt => m_largest m | _ => acc end) ss (m_largest m))
    as (Hin & Hle & Hall); [done|]. split.
  - destruct Hin as [->|(x & Hx & E)]; [exists m; split; [by left|done]|exists x; split; [by right|done]].
  - intros x [->|Hx]%elem_of_cons; [done|by apply Hall].
Qed.

Lemma FindLargestKey_spec ss : ss <> [] -> exists k, FindLargestKey ss = Some k /\ is_largest ss k.
Proof. destruct ss as [|m ss]; [done|]. intros _. eexists. split; [done|]. apply fold_largest. Qed.

Lemma GetRange_spec ss :
  ss <> [] -> exists s g, GetRange ss = Some (s, g) /\ is_largest ss g /\
    (exists m, m ∈ ss /\ m_smallest m = s) /\ forall m, m ∈ ss -> cle InternalCompare s (m_smallest m).
Proof.
  destruct ss as [|m ss]; [done|]. intros _. unfold GetRange. rewrite fold_widen. eexists _, _.
  split; [done|]. split; [apply fold_largest|].
  pose proof (cmp_flip_laws InternalCompare _) as Hfl.
  destruct (fold_max (flip InternalCompare) m_smallest
    (fun acc m => match InternalCompare (m_smallest m) acc with Lt => m_smallest m | _ => acc end) ss (m_smallest m))
    as (Hin & Hle & Hall).
  { intros acc x. unfold flip. rewrite (cmp_opp (cmp:=InternalCompare) (m_smallest x) acc).
    by destruct (InternalCompare (m_smallest x) acc). }
  split.
  - destruct Hin as [->|(x & Hx & E)]; [exists m; split; [by left|done]|exists x; split; [by right|done]].
  - intros x [->|Hx]%elem_of_cons; [done|by apply Hall].
Qed.

(** ** Boundary tables *)

Lemma is_boundary_iff k m :
  is_boundary k m = true <->
  clt InternalCompare k (m_smallest m) /\ Compare (smallest_user_key m) (ExtractUserKey k) = Eq.
Proof. unfold is_boundary. rewrite andb_true_iff, !cmp_is_true. by rewrite (cmp_gt_lt InternalCompare). Qed.

Definition smallest_boundary (k : bytes) (ss : list SSZoneMetaData) (o : option SSZoneMetaData) : Prop :=
  match o with
  | None => forall m, m ∈ ss -> is_boundary k m = false
  | Some b => b ∈ ss /\ is_boundary k b = true /\
      forall m, m ∈ ss -> is_boundary k m = true -> cle InternalCompare (m_smallest b) (m_smallest m)
  end.

Lemma FindSmallestBoundarySS_spec ss k : smallest_boundary k ss (FindSmallestBoundarySS ss k).
Proof.
  unfold FindSmallestBoundarySS.
  enough (Hgen : forall acc seen, smallest_boundary k seen acc ->
    smallest_boundary k (seen ++ ss) (fold_left (fun smallest_boundary_ss m =>
      if is_boundary k m then
        match smallest_boundary_ss with
        | None => Some m
        | Some b => match InternalCompare (m_smallest m) (m_smallest b) with Lt => Some m | _ => Some b end
        end
      else smallest_boundary_ss) ss acc)).
  { apply (Hgen None []). intros m Hm. by apply elem_of_nil in Hm. }
  induction ss as [|x ss IH]; intros acc seen Hacc.
  - rewrite app_nil_r. exact Hacc.
  - cbn [fold_left]. replace (seen ++ x :: ss) with ((seen ++ [x]) ++ ss) by (by rewrite <-app_assoc).
    apply IH. clear IH ss. unfold smallest_boundary in *. destruct (is_boundary k x) eqn:Ex.
    + destruct acc as [b|].
      * destruct Hacc as (Hb & Hbb & Hmin).
        assert (Hcmp : match InternalCompare (m_smallest x) (m_smallest b) with
          | Lt => clt InternalCompare (m_smallest x) (m_smallest b)
          | _ => cle InternalCompare (m_smallest b) (m_smallest x) end).
        { destruct (InternalCompare (m_smallest x) (m_smallest b)) eqn:E; [|done|].
          - by apply (cmp_eq_le InternalCompare) in E as [_ ?].
          - apply (cmp_gt_lt InternalCompare) in E. by apply (clt_le InternalCompare). }
        assert (Hx : x ∈ seen ++ [x]) by set_solver. assert (Hb' : b ∈ seen ++ [x]) by set_solver.
        destruct (InternalCompare (m_smallest x) (m_smallest b)); split_and!; try done;
          intros m [Hm|Hm%list_elem_of_singleton]%elem_of_app Hmb; subst; auto; try apply (cle_refl InternalCompare).
        trans (m_smallest b); [by apply (clt_le InternalCompare)|by apply Hmin].
      * split_and!; [set_solver|done|]. intros m [Hm|Hm%list_elem_of_singleton]%elem_of_app Hmb; subst.
        -- rewrite (Hacc m Hm) in Hmb. done.
        -- apply (cle_refl InternalCompare).
    + destruct acc as [b|].
      * destruct Hacc as (Hb & Hbb & Hmin). split_and!; [set_solver|done|].
        intros m [Hm|Hm%list_elem_of_singleton]%elem_of_app Hmb; subst; [by apply Hmin|congruence].
      * intros m [Hm|Hm%list_elem_of_singleton]%elem_of_app; subst; [by apply Hacc|done].
Qed.

(** The tables of a level in order and their key ranges disjoint. *)
Definition before (a b : SSZoneMetaData) : Prop := clt InternalCompare (m_largest a) (m_smallest b).
Definition wf_tables (ss : list SSZoneMetaData) : Prop :=
  forall m, m ∈ ss -> cle InternalCompare (m_smallest m) (m_largest m).

(** A table of the level between two tables of the set belongs to the set. *)
Definition interval (ss cs : list SSZoneMetaData) : Prop :=
  forall a m b, a ∈ cs -> b ∈ cs -> m ∈ ss -> before a m -> before m b -> m ∈ cs.

(** No table of the level starts at the user key that the set ends with. *)
Definition closed_end (ss cs : list SSZoneMetaData) : Prop :=
  exists k, is_largest cs k /\ forall m, m ∈ ss -> is_boundary k m = false.

Lemma smallest_before_irrefl a m :
  cle InternalCompare (m_smallest m) (m_largest m) -> cle InternalCompare (m_largest m) a ->
  ~ clt InternalCompare a (m_smallest m).
Proof. intros H1 H2. apply (nclt_le InternalCompare). by trans (m_largest m). Qed.

Lemma is_largest_snoc cs b k :
  is_largest cs k -> clt InternalCompare k (m_smallest b) -> cle InternalCompare (m_smallest b) (m_largest b) ->
  is_largest (cs ++ [b]) (m_largest b).
Proof.
  intros [_ Hk] Hlt Hle. split; [exists b; split; [set_solver|done]|].
  intros m [Hm|Hm%list_elem_of_singleton]%elem_of_app; [|subst; apply (cle_refl InternalCompare)].
  trans k; [by apply Hk|]. apply (clt_le InternalCompare). by apply (clt_le_trans InternalCompare _ (m_smallest b)).
Qed.

(** A key between two keys of the same user key has it too. *)
Lemma user_key_between a b c :
  cle InternalCompare a b -> cle InternalCompare b c ->
  cle Compare (ExtractUserKey c) (ExtractUserKey a) -> Compare (ExtractUserKey b) (ExtractUserKey a) = Eq.
Proof.
  intros H1%InternalCompare_ukey H2%InternalCompare_ukey H3. apply (cmp_eq_le Compare). split; [|done].
  by trans (ExtractUserKey c).
Qed.

Lemma interval_snoc ss cs b k :
  StronglySorted before ss -> wf_tables ss -> cs ⊆ ss -> interval ss cs -> is_largest cs k -> b ∈ ss ->
  is_boundary k b = true ->
  (forall m, m ∈ ss -> is_boundary k m = true -> cle InternalCompare (m_smallest b) (m_smallest m)) ->
  interval ss (cs ++ [b]).
Proof.
  intros Hs Hwf Hsub Hint [(t & Ht & Hk) Hmax] Hb [Hbk Hbu]%is_boundary_iff Hmin a m x Ha Hx Hm Ham Hmx.
  assert (Hmwf := Hwf m Hm). unfold before in *.
  apply elem_of_app in Hx as [Hx|Hx%list_elem_of_singleton]; [|subst x].
  { apply elem_of_app in Ha as [Ha|Ha%list_elem_of_singleton]; [set_solver|subst a]. exfalso.
    apply (smallest_before_irrefl k b (Hwf b Hb)); [|done].
    trans (m_smallest m); [by apply (clt_le InternalCompare)|].
    trans (m_largest m); [done|]. trans (m_smallest x); [by apply (clt_le InternalCompare)|].
    trans (m_largest x); [by apply Hwf, Hsub|by apply Hmax]. }
  apply elem_of_app in Ha as [Ha|Ha%list_elem_of_singleton]; [|subst a].
  2: { exfalso. apply (smallest_before_irrefl (m_largest b) m Hmwf); [|done].
       trans (m_smallest b); [by apply (clt_le InternalCompare)|by apply Hwf]. }
  destruct (StronglySorted_trichotomy before ss m t Hs Hm (Hsub t Ht)) as [->|[Hmt|Htm]]; [set_solver| |].
  { apply elem_of_app. left. by apply (Hint a m t). }
  exfalso. unfold before in Htm. rewrite Hk in Htm.
  assert (Hmb : cle InternalCompare (m_smallest m) (m_smallest b)).
  { trans (m_largest m); [done|by apply (clt_le InternalCompare)]. }
  assert (Hbnd : is_boundary k m = true).
  { apply is_boundary_iff. split; [done|]. apply (user_key_between k (m_smallest m) (m_smallest b)); [|done|].
    - by apply (clt_le InternalCompare).
    - unfold smallest_user_key in Hbu. by apply (cmp_eq_le Compare) in Hbu as [? _]. }
  apply (clt_irrefl InternalCompare (m_smallest b)), (cle_lt_trans InternalCompare _ (m_largest m)); [|done].
  trans (m_smallest m); [by apply Hmin|done].
Qed.

(** The boundary tables end the set, and keep it an interval of the level. *)
Lemma boundary_loop_spec fuel ss cs k :
  wf_tables ss -> is_largest cs k ->
  (length (filter (fun m => clt InternalCompare k (m_smallest m)) ss) < fuel)%nat ->
  exists added k', boundary_loop fuel ss cs k = Some (cs ++ added) /\ added ⊆ ss /\
    (forall m, m ∈ added -> clt InternalCompare k (m_smallest m)) /\
    is_largest (cs ++ added) k' /\ (forall m, m ∈ ss -> is_boundary k' m = false) /\
    (StronglySorted before ss -> cs ⊆ ss -> interval ss cs -> interval ss (cs ++ added)).
Proof.
  intros Hwf. revert cs k. induction fuel as [|fuel IH]; intros cs k Hk Hf; [lia|].
  cbn [boundary_loop]. pose proof (FindSmallestBoundarySS_spec ss k) as Hb.
  destruct (FindSmallestBoundarySS ss k) as [b|]; cbn [smallest_boundary] in Hb.
  2: { exists [], k. rewrite app_nil_r. split_and!; [done|set_solver|set_solver|done..]. }
  destruct Hb as (Hin & Hbb & Hmin). pose proof Hbb as [Hlt _]%is_boundary_iff.
  assert (Hk' := is_largest_snoc cs b k Hk Hlt (Hwf b Hin)).
  destruct (IH (cs ++ [b]) (m_largest b) Hk') as (added & k' & Hloop & Hsub & Hgt & Hl & Hno & Hint).
  { enough ((length (filter (fun m => clt InternalCompare (m_largest b) (m_smallest m)) ss) <
             length (filter (fun m => clt InternalCompare k (m_smallest m)) ss))%nat) by lia.
    apply (filter_length_lt _ _ _ b); [|done|done|].
    - intros m. apply (clt_trans InternalCompare), (clt_le_trans InternalCompare _ (m_smallest b)); [done|by apply Hwf].
    - apply smallest_before_irrefl; [by apply Hwf|apply (cle_refl InternalCompare)]. }
  exists (b :: added), k'. rewrite <-app_assoc in *. split_and!; [done|set_solver| |done|done|].
  { intros m [->|Hm]%elem_of_cons; [done|]. apply (clt_trans InternalCompare _ (m_largest b)); [|by apply Hgt].
    apply (clt_le_trans InternalCompare _ (m_smallest b)); [done|by apply Hwf]. }
  intros Hs Hcs Hi. apply Hint; [done|set_solver|]. by apply (interval_snoc ss cs b k).
Qed.

Lemma AddBoundaryInputs_spec ss cs :
  wf_tables ss -> cs <> [] -> cs ⊆ ss ->
  exists added, AddBoundaryInputs ss cs = Some (cs ++ added) /\ added ⊆ ss /\
    (exists a, a ∈ cs /\ forall m, m ∈ added -> before a m) /\ closed_end ss (cs ++ added) /\
    (StronglySorted before ss -> interval ss cs -> interval ss (cs ++ added)).
Proof.
  intros Hwf Hne Hsub. unfold AddBoundaryInputs. destruct (FindLargestKey_spec cs Hne) as (k & -> & Hk).
  destruct (boundary_loop_spec (Datatypes.S (length ss)) ss cs k Hwf Hk) as (added & k' & -> & ? & Hgt & ? & ? & Hi).
  { pose proof (length_filter (fun m => clt InternalCompare k (m_smallest m)) ss). lia. }
  destruct Hk as [(a & Ha & <-) _]. exists added. split_and!; [done|done|by exists a|by exists k'|]. auto.
Qed.

(** A table that is left behind ends before every table of the set, or starts at
    a later user key. *)
Lemma closed_leftover ss cs m t :
  StronglySorted before ss -> wf_tables ss -> cs ⊆ ss -> interval ss cs -> closed_end ss cs ->
  m ∈ ss -> m ∉ cs -> t ∈ cs -> before m t \/ clt Compare (largest_user_key t) (smallest_user_key m).
Proof.
  intros Hs Hwf Hsub Hint (k & [(l & Hl & Hk) Hmax] & Hno) Hm Hmn Ht.
  destruct (StronglySorted_trichotomy before ss m t Hs Hm (Hsub t Ht)) as [->|[?|Htm]]; [done|by left|right].
  apply (clt_nle Compare). intros Hle.
  destruct (StronglySorted_trichotomy before ss m l Hs Hm (Hsub l Hl)) as [->|[Hml|Hlm]]; [done| |].
  { apply Hmn. by apply (Hint t m l). }
  unfold before in Htm, Hlm. rewrite Hk in Hlm. enough (Hb : is_boundary k m = true) by (rewrite Hno in Hb; done).
  apply is_boundary_iff. split; [done|]. apply (cmp_eq_le Compare). split.
  - trans (largest_user_key t); [done|]. by apply InternalCompare_ukey, Hmax.
  - by apply InternalCompare_ukey, (clt_le InternalCompare).
Qed.

(** ** The inputs of the next level *)

Lemma version_wf v kvs l : version_ok v kvs -> 0 <= l < level_count -> wf_tables (level_tables (v_ss v) l).
Proof. intros Hv Hl m Hm. by apply (table_ok_range m (kvs l m)), (vo_tables v kvs Hv). Qed.

Lemma before_ukey a b : before a b -> cle Compare (largest_user_key a) (smallest_user_key b).
Proof. intros Hab. by apply InternalCompare_ukey, (clt_le InternalCompare). Qed.

Lemma before_user a b : clt Compare (largest_user_key a) (smallest_user_key b) -> before a b.
Proof.
  unfold before, clt, largest_user_key, smallest_user_key. rewrite InternalCompare_lex. by intros ->.
Qed.

(** [m] ends before every table, or starts at a user key behind every table. *)
Definition apart (m : SSZoneMetaData) (ts : list SSZoneMetaData) : Prop :=
  (forall t, t ∈ ts -> before m t) \/ (forall t, t ∈ ts -> clt Compare (largest_user_key t) (smallest_user_key m)).

Lemma interval_overlap ss b e cs :
  wf_tables ss -> cs ⊆ ss ->
  (forall m, m ∈ ss -> cle Compare b (largest_user_key m) -> cle Compare (smallest_user_key m) e -> m ∈ cs) ->
  (forall m, m ∈ cs -> cle Compare b (largest_user_key m) /\ cle Compare (smallest_user_key m) e) ->
  interval ss cs.
Proof.
  intros Hwf Hsub Hall Honly a m x [Ha _]%Honly [_ Hx]%Honly Hm Ham%before_ukey Hmx%before_ukey.
  pose proof (InternalCompare_ukey _ _ (Hwf m Hm)) as Hmm. apply Hall; [done|..].
  - trans (largest_user_key a); [done|]. by trans (smallest_user_key m).
  - trans (smallest_user_key x); [|done]. by trans (largest_user_key m).
Qed.

Lemma overlap_apart ss b e cs m :
  StronglySorted before ss -> wf_tables ss -> cs ⊆ ss ->
  (forall m, m ∈ ss -> cle Compare b (largest_user_key m) -> cle Compare (smallest_user_key m) e -> m ∈ cs) ->
  (forall m, m ∈ cs -> cle Compare b (largest_user_key m) /\ cle Compare (smallest_user_key m) e) ->
  exists cs', AddBoundaryInputs ss cs = Some cs' /\ cs' ⊆ ss /\
   (m ∈ ss -> m ∉ cs' ->
    (clt Compare (largest_user_key m) b /\ forall t, t ∈ cs' -> before m t) \/
    (clt Compare e (smallest_user_key m) /\ forall t, t ∈ cs' -> clt Compare (largest_user_key t) (smallest_user_key m))).
Proof.
  intros Hs Hwf Hsub Hall Honly.
  assert (Hno : m ∈ ss -> m ∉ cs -> clt Compare (largest_user_key m) b \/ clt Compare e (smallest_user_key m)).
  { intros Hm Hn. destruct (decide (clt Compare (largest_user_key m) b)) as [|H1]; [by left|].
    destruct (decide (clt Compare e (smallest_user_key m))) as [|H2]; [by right|].
    rewrite (nclt_le Compare) in H1, H2. destruct Hn. by apply Hall. }
  destruct (decide (cs = [])) as [->|Hne].
  { exists []. split_and!; [done|set_solver|]. intros Hm Hn.
    destruct (Hno Hm Hn) as [?|?]; [left|right]; (split; [done|set_solver]). }
  destruct (AddBoundaryInputs_spec ss cs Hwf Hne Hsub) as (added & -> & Hadd & (a & Ha & Hgt) & Hend & Hint).
  specialize (Hint Hs (interval_overlap ss b e cs Hwf Hsub Hall Honly)).
  exists (cs ++ added). assert (Hsub' : cs ++ added ⊆ ss) by set_solver.
  split_and!; [done|done|]. intros Hm Hn.
  pose proof (InternalCompare_ukey _ _ (Hwf m Hm)) as Hmm.
  pose proof (fun t => closed_leftover ss (cs ++ added) m t Hs Hwf Hsub' Hint Hend Hm Hn) as Hleft.
  assert (Hge : forall t, t ∈ cs ++ added -> cle Compare b (largest_user_key t)).
  { intros t Ht. apply elem_of_app in Ht as [Ht|Ht]; [by apply Honly|]. trans (largest_user_key a); [by apply Honly|].
    trans (smallest_user_key t); [by apply before_ukey, Hgt|]. apply InternalCompare_ukey, Hwf. set_solver. }
  destruct (Hno Hm ltac:(set_solver)) as [Hb|He]; [left|right]; (split; [done|]); intros t Ht;
    destruct (Hleft t Ht) as [Hbt|Hlt]; try done; exfalso.
  - apply (clt_irrefl Compare b), (cle_lt_trans Compare _ (largest_user_key t)); [by apply Hge|].
    apply (clt_trans Compare _ (smallest_user_key m)); [done|]. by apply (cle_lt_trans Compare _ (largest_user_key m)).
  - assert (Hcs : forall x, x ∈ cs -> ~ before m x).
    { intros x [_ Hx]%Honly Hmx%before_ukey. apply (clt_irrefl Compare e).
      apply (clt_le_trans Compare _ (smallest_user_key m)); [done|].
      trans (largest_user_key m); [done|]. by trans (smallest_user_key x). }
    apply elem_of_app in Ht as [Ht|Ht]; [by apply (Hcs t)|].
    destruct (StronglySorted_trichotomy before ss m a Hs Hm (Hsub a Ha)) as [->|[Hma|Ham]].
    + set_solver.
    + by apply (Hcs a).
    + apply Hn, (Hint a m t); try done; set_solver.
Qed.

Lemma next_level_inputs v kvs l ts b e :
  version_ok v kvs -> 1 <= l < level_count -> ts <> [] -> GetRange ts = Some (b, e) ->
  exists t1 t1', GetOverlappingInputs v l (Some b) (Some e) = Some t1 /\
    AddBoundaryInputs (level_tables (v_ss v) l) t1 = Some t1' /\ t1' ⊆ level_tables (v_ss v) l /\
    forall m, m ∈ level_tables (v_ss v) l -> m ∉ t1' -> apart m (ts ++ t1').
Proof.
  intros Hv Hl Hne Hr.
  destruct (GetRange_spec ts Hne) as (b' & e' & Hr' & [_ Hmax] & _ & Hmin).
  rewrite Hr in Hr'. injection Hr' as <- <-.
  pose proof (version_wf v kvs l Hv ltac:(lia)) as Hwf.
  pose proof (vo_ln v kvs Hv l Hl) as Hs. fold before in Hs.
  destruct (GetOverlappingInputs_closed v l b e ltac:(lia)) as (t1 & Ht1 & Hsub & Hall & Honly & _).
  specialize (Honly ltac:(lia)). set (ss := level_tables (v_ss v) l) in *.
  assert (Hsub' : t1 ⊆ ss). { intros x Hx. by eapply elem_of_sublist. }
  pose proof (fun m => overlap_apart ss (ExtractUserKey b) (ExtractUserKey e) t1 m Hs Hwf Hsub' Hall Honly) as Hap.
  destruct (Hap (newSSZoneMetaData 0 [] [])) as (t1' & Ht1' & Hsub1 & _). exists t1, t1'. split_and!; [done..|].
  intros m Hm Hn. destruct (Hap m) as (t1'' & E & _ & Hm'). rewrite Ht1' in E. injection E as <-.
  destruct (Hm' Hm Hn) as [[Hlt Hb]|[Hlt Hb]]; [left|right]; intros t [Ht|Ht]%elem_of_app; auto.
  - apply before_user, (clt_le_trans Compare _ _ _ Hlt). by apply InternalCompare_ukey, Hmin.
  - refine (cle_lt_trans Compare _ _ _ _ Hlt). by apply InternalCompare_ukey, Hmax.
Qed.

(** What a compaction must take along: a table left on the next level is apart
    from all inputs, and the grandparents are the tables the inputs touch. *)
Record inputs_ok (v : TropoVersion) (c : TropoCompaction) : Prop := {
  io_targets0 : c_targets0 c ⊆ level_tables (v_ss v) (c_first_level c);
  io_targets1 : c_targets1 c ⊆ level_tables (v_ss v) (c_first_level c + 1);
  io_next : forall m, m ∈ level_tables (v_ss v) (c_first_level c + 1) -> m ∉ c_targets1 c ->
    apart m (c_targets0 c ++ c_targets1 c);
  io_grandparents : c_first_level c + 2 < level_count -> forall m t,
    m ∈ level_tables (v_ss v) (c_first_level c + 2) -> t ∈ c_targets0 c ++ c_targets1 c ->
    tables_touch t m -> m ∈ c_grandparents c
}.

Lemma SetupOtherInputs_spec vs c kvs :
  version_ok (current vs) kvs -> 0 <= c_first_level c < level_count - 1 -> c_targets0 c <> [] ->
  c_targets0 c ⊆ level_tables (v_ss (current vs)) (c_first_level c) ->
  exists c' vs' added k, SetupOtherInputs vs c = Some (c', vs') /\ inputs_ok (current vs) c' /\
    c_first_level c' = c_first_level c /\ c_busy c' = c_busy c /\ c_version c' = c_version c /\
    AddBoundaryInputs (level_tables (v_ss (current vs)) (c_first_level c)) (c_targets0 c) = Some (c_targets0 c') /\
    c_targets0 c' = c_targets0 c ++ added /\ is_largest (c_targets0 c') k /\
    vs' = set_compact_pointer vs (<[Z.to_nat (c_first_level c) := k]> (vs_compact_pointer vs)).
Proof.
  intros Hv Hl Hne Hsub. set (v := current vs) in *. set (level := c_first_level c) in *.
  pose proof (version_wf v kvs level Hv ltac:(lia)) as Hwf.
  destruct (AddBoundaryInputs_spec _ _ Hwf Hne Hsub) as (added & Hadd & Hsuba & _ & _ & _).
  set (ts := c_targets0 c ++ added) in *.
  assert (Hts : ts <> []) by (unfold ts; by destruct (c_targets0 c)).
  destruct (GetRange_spec ts Hts) as (b & e & Hr & Hmax & _ & _).
  destruct (next_level_inputs v kvs (level + 1) ts b e Hv ltac:(lia) Hts Hr) as (t1 & t1' & Ho & Hb & Hsub1 & Hap).
  destruct (GetRange_spec (ts ++ t1')) as (b2 & e2 & Hr2 & [_ Hmax2] & _ & Hmin2); [by destruct ts|].
  assert (Hg : exists gp, (if level + 2 <? level_count then GetOverlappingInputs v (level + 2) (Some b2) (Some e2)
      else Some (c_grandparents c)) = Some gp /\
    (level + 2 < level_count -> forall m t, m ∈ level_tables (v_ss v) (level + 2) -> t ∈ ts ++ t1' ->
       tables_touch t m -> m ∈ gp)).
  { destruct (Z.ltb_spec (level + 2) level_count) as [Hlt|]; [|eexists; split; [done|lia]].
    destruct (GetOverlappingInputs_closed v (level + 2) b2 e2 ltac:(lia)) as (gp & Hgp & _ & Hall & _).
    exists gp. split; [done|]. intros _ m t Hm Ht [H1 H2]. apply Hall; [done|..].
    - trans (smallest_user_key t); [by apply InternalCompare_ukey, Hmin2|done].
    - trans (largest_user_key t); [done|by apply InternalCompare_ukey, Hmax2]. }
  destruct Hg as (gp & Hgp & Hgpall).
  eexists _, _, added, e. split.
  { unfold SetupOtherInputs. fold v level. rewrite Hadd. obind. rewrite Hr. obind. rewrite Ho. obind.
    rewrite Hb. obind. unfold GetRange2. rewrite Hr2. obind. rewrite Hgp. obind. done. }
  split_and!; try done. split; cbn; try done. set_solver.
Qed.

(** A table that ends before another one, or starts at a later user key, wins for
    every key that both have. *)
Lemma shadows_apart m t km kt :
  table_ok m km -> table_ok t kt -> before m t \/ clt Compare (largest_user_key t) (smallest_user_key m) ->
  shadows km kt.
Proof.
  intros Hm Ht Hor a b Ha Hb E. destruct (table_bounds m km Hm a Ha) as [Ha1 Ha2].
  destruct (table_bounds t kt Ht b Hb) as [Hb1 Hb2]. destruct Hor as [Hbf|Hlt].
  - unfold kv_lt. apply (cle_lt_trans InternalCompare _ (m_largest m)); [done|].
    by apply (clt_le_trans InternalCompare _ (m_smallest t)).
  - exfalso. apply InternalCompare_ukey in Ha1, Hb2. unfold ukey in E.
    apply (clt_irrefl Compare (largest_user_key t)), (clt_le_trans Compare _ (smallest_user_key m)); [done|].
    trans (ExtractUserKey (fst a)); [done|]. by rewrite E.
Qed.

Lemma current_ref_current vs : current (ref_current vs) = current vs.
Proof.
  unfold ref_current, current. destruct (last (vs_versions vs)) as [[v n]|] eqn:E; [|by rewrite E].
  cbn. by rewrite last_snoc.
Qed.

(** ** Levels above 0 *)

(** What is left on the level wins over what is moved down. *)
Definition leaves_newer (kvs : Z -> SSZoneMetaData -> list KV) (v : TropoVersion) (c : TropoCompaction) : Prop :=
  let level := c_first_level c in
  forall m t, m ∈ level_tables (v_ss v) level -> m ∉ c_targets0 c -> t ∈ c_targets0 c ->
    shadows (kvs level m) (kvs level t).

Lemma finish_pick_ln vs c m kvs L0index max_lba_c :
  version_ok (current vs) kvs -> 1 <= c_first_level c < level_count - 1 ->
  blen (vs_compact_pointer vs) = level_count ->
  m ∈ level_tables (v_ss (current vs)) (c_first_level c) ->
  exists c' vs', finish_pick vs (set_targets0 c [m]) L0index max_lba_c = Some (c', vs') /\
    c_first_level c' = c_first_level c /\ m ∈ c_targets0 c' /\
    inputs_ok (current vs) c' /\ leaves_newer kvs (current vs) c' /\
    exists k, is_largest (c_targets0 c') k /\ vs_compact_pointer vs' !! Z.to_nat (c_first_level c) = Some k.
Proof.
  intros Hv Hl Hcp Hm. unfold finish_pick.
  change (c_first_level (set_version (set_targets0 c [m]) (current vs))) with (c_first_level c).
  rewrite (proj2 (Z.eqb_neq (c_first_level c) 0)) by lia.
  destruct (SetupOtherInputs_spec (ref_current vs) (set_version (set_targets0 c [m]) (current vs)) kvs)
    as (c' & vs' & added & k & E & Hok & Hfl & _ & _ & Hadd & Hts & Hk & ->);
    rewrite ?current_ref_current in *; try done; [cbn; lia|cbn; set_solver|].
  cbn [c_first_level c_targets0 set_version set_targets0] in *.
  eexists c', _. split; [exact E|]. pose proof (version_wf _ kvs (c_first_level c) Hv ltac:(lia)) as Hwf.
  destruct (AddBoundaryInputs_spec _ [m] Hwf) as (added' & Hadd' & Hsub & _ & Hend & Hint); [done|set_solver|].
  rewrite Hadd in Hadd'. injection Hadd' as Hts'.
  pose proof (vo_ln _ kvs Hv (c_first_level c) ltac:(lia)) as Hs. fold before in Hs.
  split_and!; [done|rewrite Hts; set_solver|done| |].
  - intros x t Hx Hxn Ht. rewrite Hfl in *.
    assert (Hsub' : c_targets0 c' ⊆ level_tables (v_ss (current vs)) (c_first_level c)) by (rewrite Hts'; set_solver).
    apply (shadows_apart x t); [by apply (vo_tables _ kvs Hv); [lia|]|by apply (vo_tables _ kvs Hv); [lia|apply Hsub']|].
    eapply closed_leftover; try done; rewrite Hts'; [|done]. apply Hint; [done|].
    intros a y b Ha%list_elem_of_singleton Hb%list_elem_of_singleton Hy Hay Hyb. subst a b. exfalso.
    apply (smallest_before_irrefl (m_largest m) y (Hwf y Hy)); [|done].
    trans (m_smallest m); [by apply (clt_le InternalCompare)|by apply Hwf].
  - exists k. split; [done|]. cbn. rewrite list_lookup_insert_eq; [done|].
    unfold ref_current. destruct (last (vs_versions vs)) as [[? ?]|]; cbn; unfold blen in Hcp; lia.
Qed.

Lemma list_find_snd_elem {A} (P : A -> Prop) `{!forall x, Decision (P x)} l x :
  snd <$> list_find P l = Some x -> x ∈ l /\ P x.
Proof.
  intros ([i y] & Hy & ->)%fmap_Some. apply list_find_Some in Hy as (Hl & HP & _). split; [|done].
  by eapply list_elem_of_lookup_2.
Qed.

(** C20: the inputs of a compaction of a level above 0.  From a well-formed
    index, [PickCompaction] returns, finds a table unless all of them are busy,
    and takes tables such that moving them down keeps every lookup right: an
    entry that stays on the level is newer than every moved entry of its user
    key, a table that stays on the next level is apart from all inputs, and the
    grandparents hold every table that the inputs touch.  The compaction pointer
    of the level moves to the largest key taken. *)
Theorem pick_compaction_keeps_order vs level busy kvs :
  version_ok (current vs) kvs -> 1 <= level < level_count - 1 -> blen (vs_compact_pointer vs) = level_count ->
  exists c vs', PickCompaction vs level busy = Some (c, vs') /\
    ((c_targets0 c = [] /\ forall m, m ∈ level_tables (v_ss (current vs)) level -> is_busy busy m = true) \/
     (c_targets0 c <> [] /\ c_first_level c = level /\ inputs_ok (current vs) c /\ leaves_newer kvs (current vs) c /\
      exists k, is_largest (c_targets0 c) k /\ vs_compact_pointer vs' !! Z.to_nat level = Some k)).
Proof.
  intros Hv Hl Hcp. unfold PickCompaction. rewrite (proj2 (Z.eqb_neq level 0)) by lia.
  destruct (lookup_lt_is_Some_2 (vs_compact_pointer vs) (Z.to_nat level)) as [cp Hcpl]; [unfold blen in Hcp; lia|].
  rewrite Hcpl. obind. set (ss := level_tables (v_ss (current vs)) level) in *.
  assert (Hfin : forall m L0 mx, m ∈ ss -> exists c vs',
    finish_pick vs (set_targets0 (newCompaction lba_size level) [m]) L0 mx = Some (c, vs') /\
    ((c_targets0 c = [] /\ forall m, m ∈ ss -> is_busy busy m = true) \/
     (c_targets0 c <> [] /\ c_first_level c = level /\ inputs_ok (current vs) c /\ leaves_newer kvs (current vs) c /\
      exists k, is_largest (c_targets0 c) k /\ vs_compact_pointer vs' !! Z.to_nat level = Some k))).
  { intros m L0 mx Hm. destruct (finish_pick_ln vs (newCompaction lba_size level) m kvs L0 mx Hv)
      as (c & vs' & E & Hf & Hin & ? & ? & ?); [done..|].
    exists c, vs'. split; [exact E|]. right. split; [by intros E0; rewrite E0 in Hin; apply elem_of_nil in Hin|done]. }
  destruct (pick_ln level cp busy ss) as [m|] eqn:Ep.
  { apply list_find_snd_elem in Ep as [Hm _]. by apply Hfin. }
  destruct (Z.eqb_spec level 1) as [->|Hl1].
  - destruct (pick_wrapped busy ss) as [m|] eqn:Ew.
    { apply list_find_snd_elem in Ew as [Hm _]. by apply Hfin. }
    eexists _, _. split; [done|]. left. split; [done|]. intros m Hm. unfold pick_wrapped in Ew.
    apply fmap_None, list_find_None in Ew. rewrite Forall_forall in Ew. specialize (Ew m Hm).
    rewrite Is_true_true, orb_true_iff in Ew. destruct busy as [|m2 busy]; [tauto|]. cbn in Ew |- *.
    destruct (m_number m2 =? m_number m); [done|]. cbn in Ew. tauto.
  - destruct ss as [|m ss'] eqn:Ess; [|apply Hfin; by left].
    eexists _, _. split; [done|]. left. split; [done|]. intros m Hm. by apply elem_of_nil in Hm.
Qed.

(** ** Level 0 *)

Lemma pick_oldest_spec (P : SSZoneMetaData -> bool) ss :
  let '(number, index, number_picked) := pick_oldest P ss in
  if number_picked then exists m, ss !! index = Some m /\ P m = true /\ m_number m = number /\
    forall m', m' ∈ ss -> P m' = true -> number <= m_number m'
  else forall m', m' ∈ ss -> P m' = false.
Proof.
  unfold pick_oldest. induction ss as [|x ss IH] using rev_ind.
  { intros m' Hm'. by apply elem_of_nil in Hm'. }
  rewrite imap_app, fold_left_app. simpl. rewrite Nat.add_0_r.
  destruct (fold_left _ (imap pair ss) _) as [[number index] picked]. destruct (P x) eqn:Px; cbn [andb].
  2: { destruct picked.
       - destruct IH as (m & Hm & HP & Hn & Hmin). exists m. split_and!; [by apply lookup_app_l_Some|done..|].
         intros m' [Hm'|Hm'%list_elem_of_singleton]%elem_of_app HP'; [by apply Hmin|congruence].
       - intros m' [Hm'|Hm'%list_elem_of_singleton]%elem_of_app; [by apply IH|congruence]. }
  destruct picked; cbn [negb orb].
  - rewrite orb_false_r. destruct IH as (m & Hm & HP & Hn & Hmin).
    destruct (Z.ltb_spec (m_number x) number) as [Hlt|Hge].
    + exists x. split_and!; [by rewrite lookup_app_r, Nat.sub_diag|done..|].
      intros m' [Hm'|Hm'%list_elem_of_singleton]%elem_of_app HP'; [specialize (Hmin m' Hm' HP'); lia|subst; lia].
    + exists m. split_and!; [by apply lookup_app_l_Some|done..|].
      intros m' [Hm'|Hm'%list_elem_of_singleton]%elem_of_app HP'; [by apply Hmin|subst; lia].
  - rewrite orb_true_r. exists x. split_and!; [by rewrite lookup_app_r, Nat.sub_diag|done..|].
    intros m' [Hm'|Hm'%list_elem_of_singleton]%elem_of_app HP'; [rewrite IH in HP'; done|subst; lia].
Qed.

Lemma pick_l0_spec s ss :
  let '(number, index, number_picked) := pick_l0 s ss in
  if number_picked then exists m, ss !! index = Some m /\ m_number m = number /\
    forall m', m' ∈ ss -> m_L0_log_number m' = l0_log_prio s -> number <= m_number m'
  else ss = [].
Proof.
  unfold pick_l0. pose proof (pick_oldest_spec (fun m => m_L0_log_number m =? l0_log_prio s) ss) as H1.
  pose proof (pick_oldest_spec (fun m => negb (m_L0_log_number m =? l0_log_prio s)) ss) as H2.
  destruct (pick_oldest (fun m => m_L0_log_number m =? _) ss) as [[n1 i1] [|]]; cbn [snd].
  - destruct H1 as (m & Hm & HP & Hn & Hmin). exists m. split_and!; [done..|]. intros m' Hm' E.
    apply Hmin; [done|]. by apply Z.eqb_eq.
  - destruct (pick_oldest _ ss) as [[n2 i2] [|]].
    + destruct H2 as (m & Hm & HP & Hn & Hmin). exists m. split_and!; [done..|]. intros m' Hm' E.
      specialize (H1 m' Hm'). apply Z.eqb_neq in H1. done.
    + destruct ss as [|m ss]; [done|]. specialize (H1 m ltac:(by left)). specialize (H2 m ltac:(by left)).
      cbn in *. rewrite H1 in H2. done.
Qed.

Definition total_lbas (ss : list SSZoneMetaData) : Z := foldr (fun m n => m_lba_count m + n) 0 ss.

Lemma total_lbas_sublist l k :
  l `sublist_of` k -> Forall (fun m => 0 <= m_lba_count m) k -> 0 <= total_lbas l <= total_lbas k.
Proof.
  induction 1 as [|x l k Hs IH|x l k Hs IH]; intros Hk; [done|..]; inversion Hk; subst;
    cbn [total_lbas foldr] in *; unfold total_lbas in *; destruct IH; try done; lia.
Qed.

Lemma add_overlapping_all n mx ov ts :
  Forall (fun m => 0 <= m_lba_count m) ov -> total_lbas ov <= mx -> is_u64 mx ->
  add_overlapping n mx ov ts = ts ++ filter (fun m => m_number m <> n) ov.
Proof.
  revert mx ts. induction ov as [|m ov IH]; intros mx ts Hf Hmx Hu; [by rewrite app_nil_r|].
  inversion Hf as [|? ? Hm Hf']; subst. pose proof (total_lbas_sublist [] ov ltac:(apply sublist_nil_l) Hf') as Hn.
  cbn [add_overlapping]. rewrite filter_cons. cbn in Hmx. fold (total_lbas ov) in Hmx.
  destruct (Z.eqb_spec (m_number m) n) as [E|E].
  - rewrite decide_False by (by intros ?). apply IH; [done|lia|done].
  - rewrite decide_True by done. rewrite (proj2 (Z.ltb_ge _ _)) by lia.
    rewrite u64_small by word. rewrite IH by (done || word || lia). by rewrite <-app_assoc.
Qed.

(** A closed set of tables of level 0 has no boundary tables. *)
Lemma AddBoundaryInputs_closed ss cs :
  wf_tables ss -> cs <> [] -> cs ⊆ ss ->
  (forall m m', m ∈ cs -> m' ∈ ss -> tables_touch m m' -> m' ∈ cs) -> AddBoundaryInputs ss cs = Some cs.
Proof.
  intros Hwf Hne Hsub Hclosed. unfold AddBoundaryInputs. destruct (FindLargestKey_spec cs Hne) as (k & -> & Hk).
  cbn [boundary_loop]. pose proof (FindSmallestBoundarySS_spec ss k) as Hb.
  destruct (FindSmallestBoundarySS ss k) as [b|]; [|done]. cbn [smallest_boundary] in Hb.
  destruct Hb as (Hin & [Hlt Hu]%is_boundary_iff & _). exfalso. destruct Hk as [(t & Ht & Htk) Hmax].
  assert (Hbt : Compare (smallest_user_key b) (largest_user_key t) = Eq) by (unfold largest_user_key; by rewrite Htk).
  apply (cmp_eq_le Compare) in Hbt as [Hbt Htb].
  apply (smallest_before_irrefl k b (Hwf b Hin)); [|done]. apply Hmax, (Hclosed t b Ht Hin). split; [|done].
  trans (largest_user_key t); [by apply InternalCompare_ukey, Hwf, Hsub|].
  trans (smallest_user_key b); [done|by apply InternalCompare_ukey, Hwf].
Qed.

(** What a compaction of level 0 gets when everything fits. *)
Lemma finish_pick_l0 vs c m kvs max_lba_c :
  version_ok (current vs) kvs -> c_first_level c = 0 ->
  Forall (fun m => 0 <= m_lba_count m) (level_tables (v_ss (current vs)) 0) ->
  total_lbas (level_tables (v_ss (current vs)) 0) <= max_lba_c -> is_u64 max_lba_c ->
  m ∈ level_tables (v_ss (current vs)) 0 ->
  exists c' vs', finish_pick vs (set_targets0 c [m]) (m_number m) max_lba_c = Some (c', vs') /\
    c_first_level c' = 0 /\ m ∈ c_targets0 c' /\ inputs_ok (current vs) c' /\ NoDup (m_number <$> c_targets0 c') /\
    forall t m', t ∈ c_targets0 c' -> m' ∈ level_tables (v_ss (current vs)) 0 -> tables_touch t m' -> m' ∈ c_targets0 c'.
Proof.
  intros Hv Hl0 Hnn Htot Hu Hm. unfold finish_pick.
  change (c_first_level (set_version (set_targets0 c [m]) (current vs))) with (c_first_level c). rewrite Hl0. cbn [Z.eqb].
  cbn [c_targets0 set_version set_targets0 GetRange fold_left]. obind. rewrite current_ref_current.
  set (ss := level_tables (v_ss (current vs)) 0) in *.
  destruct (GetOverlappingInputs_closed (current vs) 0 (m_smallest m) (m_largest m)) as (ov & -> & Hsub & Hall & _ & Hcl);
    [done|]. specialize (Hcl eq_refl). fold ss in Hsub, Hall, Hcl. obind.
  pose proof (version_wf _ kvs 0 Hv ltac:(done)) as Hwf. fold ss in Hwf.
  pose proof (total_lbas_sublist ov ss Hsub Hnn) as Hov.
  assert (Hsub' : ov ⊆ ss). { intros x Hx. by eapply elem_of_sublist. }
  rewrite add_overlapping_all; [|rewrite Forall_forall in *; auto|lia|done].
  assert (Hmm := InternalCompare_ukey _ _ (Hwf m Hm)).
  assert (Hmov : m ∈ ov) by (by apply Hall).
  set (ts := [m] ++ filter (fun x => m_number x <> m_number m) ov).
  assert (Hts : forall x, x ∈ ts <-> x ∈ ov).
  { intros x. unfold ts. rewrite elem_of_app, list_elem_of_singleton, list_elem_of_filter. split; [naive_solver|].
    intros Hx. destruct (decide (m_number x = m_number m)) as [E|]; [left|by right].
    apply (NoDup_fmap_inj_on m_number ss); auto. apply (vo_l0_numbers _ kvs Hv). }
  set (c0 := set_targets0 (set_version (set_targets0 c [m]) (current vs)) ts).
  destruct (SetupOtherInputs_spec (ref_current vs) c0 kvs)
    as (c' & vs' & added & k & E & Hok & Hfl & _ & _ & Hadd & _ & _ & _); rewrite ?current_ref_current in *;
    [done|cbn; rewrite Hl0; done|done|cbn; rewrite Hl0; intros x Hx; by apply Hsub', Hts|].
  exists c', vs'. split; [exact E|]. replace (c_first_level c0) with 0 in * by done.
  fold ss in Hadd. rewrite AddBoundaryInputs_closed in Hadd; [|done|done|intros x Hx; by apply Hsub', Hts|].
  2: { cbn. intros x y Hx Hy Hxy. apply Hts. apply (Hcl x y); [by apply Hts|done..]. }
  injection Hadd as Hadd. rewrite <-Hadd. cbn [c_targets0 c0 set_targets0]. split_and!; [done|set_solver|done| |].
  { unfold ts. cbn. constructor; [by intros (x & E' & [? _]%list_elem_of_filter)%list_elem_of_fmap|].
    eapply sublist_NoDup; [apply (vo_l0_numbers _ kvs Hv)|]. apply fmap_sublist; trans ov; [apply sublist_filter|exact Hsub]. }
  intros t m' Ht Hm' Htm. apply Hts. apply (Hcl t m'); [by apply Hts|done..].
Qed.

(** The inputs of a compaction of level 0 when all its tables fit.  From
    a well-formed index, [PickCompaction] returns, takes the oldest table of the
    fullest log and everything it overlaps, directly or through other tables, so
    that no table left on level 0 shares a key with one that moves; the inputs of
    the next level are as for the other levels. *)
Theorem pick_compaction_l0_closed vs busy kvs :
  version_ok (current vs) kvs -> level_tables (v_ss (current vs)) 0 <> [] ->
  Forall (fun m => 0 <= m_lba_count m) (level_tables (v_ss (current vs)) 0) ->
  total_lbas (level_tables (v_ss (current vs)) 0) <= Z.min (sp_SpaceRemainingLN (vs_ss_manager vs)) max_lbas_compaction_l0 ->
  exists c vs', PickCompaction vs 0 busy = Some (c, vs') /\ c_first_level c = 0 /\ inputs_ok (current vs) c /\
    (exists m, m ∈ c_targets0 c /\ forall m', m' ∈ level_tables (v_ss (current vs)) 0 ->
       m_L0_log_number m' = l0_log_prio (vs_ss_manager vs) -> m_number m <= m_number m') /\
    (forall t m, t ∈ c_targets0 c -> m ∈ level_tables (v_ss (current vs)) 0 -> m ∉ c_targets0 c -> ~ tables_touch t m).
Proof.
  intros Hv Hne Hnn Htot. unfold PickCompaction. cbn [Z.eqb].
  set (ss := level_tables (v_ss (current vs)) 0) in *.
  pose proof (pick_l0_spec (vs_ss_manager vs) ss) as Hp.
  destruct (pick_l0 (vs_ss_manager vs) ss) as [[number index] picked]. destruct picked; cbn [negb]; [|done].
  destruct Hp as (m & Hm & <- & Hmin). rewrite Hm. obind. pose proof (list_elem_of_lookup_2 _ _ _ Hm) as Hin.
  pose proof (total_lbas_sublist [] ss ltac:(apply sublist_nil_l) Hnn) as H0.
  destruct (finish_pick_l0 vs (newCompaction lba_size 0) m kvs
    (Z.min (sp_SpaceRemainingLN (vs_ss_manager vs)) max_lbas_compaction_l0) Hv) as (c' & vs' & E & Hf & Hmc & Hok & _ & Hcl);
    try done. { unfold max_lbas_compaction_l0 in *. word. }
  exists c', vs'. split_and!; [exact E|done|done|by exists m|].
  intros t x Ht Hx Hxn Htx. by apply Hxn, (Hcl t x).
Qed.
End PickCompaction.

(** ** Witnesses *)

Module PickWitness.
(** The storage has a number of blocks left. *)
#[global] Instance space : SSTableSpace Z := {|
  sp_SpaceRemainingLN s := s;
  sp_SpaceRemainingL0 s _ := s;
  sp_GetFractionFilled _ _ := f64_of_Z 0
|}.

Definition key (c : Z) : bytes := [z2b c].
Definition kv (c s : Z) : KV := (InternalKey (key c) s 1, [z2b s]).

(** The entries by table number. *)
Definition table (n : Z) : list KV :=
  match n with
  | 1 => [kv 1 10; kv 9 11]
  | 2 => [kv 3 20; kv 4 21]
  | 3 => [kv 2 30; kv 3 31]
  | 4 => [kv 1 5; kv 2 6; kv 3 9]
  | 5 => [kv 3 8; kv 3 7]
  | 6 => [kv 3 6; kv 5 5]
  | 7 => [kv 3 2; kv 4 1]
  | _ => []
  end.
Definition meta (n lbas : Z) : SSZoneMetaData :=
  mkMeta 0 0 n 0 0 n 0 [] [] (blen (table n)) lbas (default [] (fst <$> head (table n))) (default [] (fst <$> last (table n))).
Definition kvs (l : Z) (m : SSZoneMetaData) : list KV := table (m_number m).

(** Three tables of level 0; the second is too large for the space that is left. *)
Definition l0 (lbas : Z) : list SSZoneMetaData := [meta 1 1; meta 3 1; meta 2 lbas].
Definition v (lbas : Z) : TropoVersion := mkVersion [l0 lbas; []; []; []; []; []] [[]; []; []; []; []; []] (0, 0).
(** Three tables of level 1 that share a user key at their bounds. *)
Definition v1 : TropoVersion :=
  mkVersion [[]; [meta 4 1; meta 5 1; meta 6 1]; [meta 7 1]; []; []; []] [[]; []; []; []; []; []] (0, 0).

Definition vs (v : TropoVersion) (space : Z) : TropoVersionSet unit Z :=
  mkVersionSet [(v, 1)] (0, f64_of_Z 0) 0 0 0 (replicate 6 []) () space.
End PickWitness.

Lemma pick_compaction_keeps_order_witness :
  exists c vs', PickCompaction (H := BytewiseComparator) 512 (PickWitness.vs PickWitness.v1 100) 1 [] = Some (c, vs') /\
    leaves_newer (H := BytewiseComparator) PickWitness.kvs PickWitness.v1 c.
Proof.
  destruct (pick_compaction_keeps_order (H := BytewiseComparator) 512 (PickWitness.vs PickWitness.v1 100) 1 [] PickWitness.kvs)
    as (c & vs' & E & [(_ & Hb)|(_ & _ & _ & Hl & _)]).
  - apply version_check_sound, (bool_decide_unpack _). by vm_compute.
  - done.
  - done.
  - exfalso. specialize (Hb (PickWitness.meta 4 1) ltac:(left)). discriminate Hb.
  - exists c, vs'. split; [exact E|exact Hl].
Defined.

Lemma pick_compaction_l0_closed_witness :
  exists c vs', PickCompaction (H := BytewiseComparator) 512 (PickWitness.vs (PickWitness.v 5) 100) 0 [] = Some (c, vs') /\
    PickWitness.meta 2 5 ∈ c_targets0 c.
Proof.
  destruct (pick_compaction_l0_closed (H := BytewiseComparator) 512 (PickWitness.vs (PickWitness.v 5) 100) [] PickWitness.kvs)
    as (c & vs' & E & _ & _ & _ & Hn).
  - apply version_check_sound, (bool_decide_unpack _). by vm_compute.
  - done.
  - repeat constructor; done.
  - done.
  - exists c, vs'. split; [exact E|]. destruct (decide (PickWitness.meta 2 5 ∈ c_targets0 c)) as [|Hn2]; [done|].
    exfalso. apply (Hn (PickWitness.meta 1 1) (PickWitness.meta 2 5)); [|right; right; left|done|split; vm_compute; congruence].
    vm_compute in E. injection E as <- _. left.
Defined.

(** C40: when a table of level 0 does not fit, [PickCompaction] stops adding
    tables in key order, not by age.  Here it moves a table down and leaves an
    older table of the same user key on level 0, which from then on hides the
    newer entry, although the index was well formed. *)
Theorem pick_compaction_stale :
  exists c vs', PickCompaction (H := BytewiseComparator) 512 (PickWitness.vs (PickWitness.v 99) 50) 0 [] = Some (c, vs') /\
    version_ok (H := BytewiseComparator) (PickWitness.v 99) PickWitness.kvs /\
    ~ leaves_newer (H := BytewiseComparator) PickWitness.kvs (PickWitness.v 99) c.
Proof.
  eexists _, _. split; [vm_compute; reflexivity|]. split.
  - apply version_check_sound, (bool_decide_unpack _). by vm_compute.
  - intros Hl. specialize (Hl (PickWitness.meta 2 99) (PickWitness.meta 3 1) ltac:(right; right; left)).
    assert (Hlt : kv_lt (H := BytewiseComparator) (PickWitness.kv 3 20) (PickWitness.kv 3 31)).
    { apply Hl; [|right; left|left|right; left|done]. apply (bool_decide_unpack _). by vm_compute. }
    vm_compute in Hlt. discriminate Hlt.
Qed.
