(* ===== verification/L0SSTable.v ===== *)
(** * L0SSTable: the tables of level 0 in a circular log

    [table/tropodb_l0_sstable.h] and [.cc], without the flush of a memtable:
    writing a table at the head of the log, reading it back, and reclaiming the
    tables that were compacted away from the tail, zone by zone.  [None] is the
    end of the process: an [exit], a crash or a violated assertion. *)

From S2P Require Import Prelude Coding DbFormat Config SSTable SSTableIter VersionEdit Version Szd.

Definition set_L0_lba (m : SSZoneMetaData) (lba : Z) : SSZoneMetaData :=
  mkMeta (m_refs m) (m_allowed_seeks m) (m_number m) lba (m_L0_log_number m) (m_L0_number m) (m_LN_lba_regions m)
    (m_LN_lbas m) (m_LN_lba_region_sizes m) (m_numbers m) (m_lba_count m) (m_smallest m) (m_largest m).
Definition set_number (m : SSZoneMetaData) (n : Z) : SSZoneMetaData :=
  mkMeta (m_refs m) (m_allowed_seeks m) n (m_L0_lba m) (m_L0_log_number m) (m_L0_number m)
    (m_LN_lba_regions m) (m_LN_lbas m) (m_LN_lba_region_sizes m) (m_numbers m) (m_lba_count m) (m_smallest m) (m_largest m).

(** ** Iterators over the bytes of a table *)

(** What the [NewIterator]s do with the bytes that were read; the configuration
    selects the encoded format. *)
Definition table_iterator (data : bytes) : option SSTableIteratorCompressed := open_table data.

(** The type that [ParseInternalKey] leaves in a default [ParsedInternalKey],
    whether it succeeds or not. *)
Definition parsed_type (key : bytes) : Z :=
  if blen key <? kNumInternalBytes then kTypeDeletion else Z.land (ikey_num key) 0xff.

(** What the [Get]s of the tables do with an iterator: the value and the status
    of the entry.  A key that does not parse is used all the same. *)
Definition iterator_get `{UserComparator} (it : SSTableIteratorCompressed) (key value : bytes)
    : option (option (bytes * EntryStatus)) :=
  it ← Seek it key;
  if Valid it then
    if parsed_type (it_key it) =? kTypeDeletion then Some (Some ([], deleted))
    else v ← it_value_bytes it; Some (Some (v, found))
  else Some None.

Section L0SSTable.
Context `{UserComparator} {Log : Type} `{!CircularLog Log}.
(** The size of a block, the blocks of a zone, and the blocks of the log. *)
Context (lba_size zone_cap min_zone_head max_zone_head : Z).

(** [TropoL0SSTable::Recover], table/tropodb_l0_sstable.cc:34-34 *)
Definition l0_Recover (log : Log) : Status * Log :=
  let '(r, log) := cl_RecoverPointers log in (FromStatus r, log).

(** [TropoL0SSTable::NewBuilder], table/tropodb_l0_sstable.cc:36-39 *)
Definition l0_NewBuilder (meta : SSZoneMetaData) : TropoSSTableBuilder := newBuilder meta use_sstable_encoding.

(** [TropoL0SSTable::EnoughSpaceAvailable], table/tropodb_l0_sstable.cc:41-43 *)
Definition l0_EnoughSpaceAvailable (log : Log) (content : bytes) : bool := cl_SpaceLeft log (blen content).

(** [TropoL0SSTable::SpaceAvailable], table/tropodb_l0_sstable.cc:45-47 *)
Definition l0_SpaceAvailable (log : Log) : Z := cl_SpaceAvailable log.

(** [TropoL0SSTable::WriteSSTable], table/tropodb_l0_sstable.cc:49-60 *)
Definition l0_WriteSSTable (log : Log) (content : bytes) (meta : SSZoneMetaData) : Status * Log * SSZoneMetaData :=
  if negb (l0_EnoughSpaceAvailable log content) then (IOError, log, meta)
  else
    let meta := set_L0_lba meta (cl_GetWriteHead log) in
    let '(r, lbas, log) := cl_Append log content in
    (FromStatus r, log, set_lba_count meta lbas).

(** [TropoL0SSTable::ReadSSTable], table/tropodb_l0_sstable.cc:279-301.  The reader
    number only selects one of the I/O channels of the log. *)
Definition l0_ReadSSTable (log : Log) (meta : SSZoneMetaData) : option (Status * bytes) :=
  if (max_zone_head <? m_L0_lba meta) || (m_L0_lba meta <? min_zone_head) ||
     (max_zone_head - min_zone_head <? m_lba_count meta)
  then Some (Corruption, [])
  else
    match cl_Read log (m_L0_lba meta) (u64 (m_lba_count meta * lba_size)) with
    | (Success, data) => Some (OK, data)
    | _ => None
    end.

(** [TropoL0SSTable::InvalidateSSZone], table/tropodb_l0_sstable.cc:374-377 *)
Definition l0_InvalidateSSZone (log : Log) (meta : SSZoneMetaData) : Status * Log :=
  let '(r, log) := cl_ConsumeTail log (m_L0_lba meta) (u64 (m_L0_lba meta + m_lba_count meta)) in (FromStatus r, log).

(** [TropoL0SSTable::NewIterator], table/tropodb_l0_sstable.cc:379-403.  The inner
    [None] is a null pointer. *)
Definition l0_NewIterator (log : Log) (meta : SSZoneMetaData) : option (option SSTableIteratorCompressed) :=
  '(s, sstable) ← l0_ReadSSTable log meta;
  if ok s then it ← table_iterator sstable; Some (Some it) else Some None.

(** [TropoL0SSTable::Get], table/tropodb_l0_sstable.cc:405-431 *)
Definition l0_Get (log : Log) (key value : bytes) (meta : SSZoneMetaData) (status : EntryStatus)
    : option (Status * bytes * EntryStatus) :=
  it ← l0_NewIterator log meta;
  match it with
  | None => Some (Corruption, value, status)
  | Some it =>
      r ← iterator_get it key value;
      match r with
      | Some (v, es) => Some (OK, v, es)
      | None => Some (OK, [], notfound)
      end
  end.

(** ** Reclaiming *)

(** The loop of [TryInvalidateSSZones] over the tables behind [prev]: the blocks
    to delete, how many tables they belong to, and the number of the last one;
    [None] when two tables have the same number. *)
Fixpoint reclaim_scan (log : Log) (metas : list SSZoneMetaData) (prev : SSZoneMetaData) (i : nat) (blocks : Z)
    (acc : Z * nat * Z) : option (Z * nat * Z) :=
  match metas with
  | [] => Some acc
  | m :: metas =>
      if m_number prev =? m_number m then None
      else if negb (cl_wrapped_addr log (u64 (m_L0_lba prev + m_lba_count prev)) =? m_L0_lba m) then Some acc
      else
        let blocks := u64 (blocks + m_lba_count m) in
        if zone_cap <=? blocks then
          let '(blocks_to_delete, _, _) := acc in
          reclaim_scan log metas m (S i) 0 (u64 (blocks_to_delete + blocks), S i, m_number m)
        else reclaim_scan log metas m (S i) blocks acc
  end.

(** [TropoL0SSTable::TryInvalidateSSZones], table/tropodb_l0_sstable.cc:303-372.
    The results are the status, the tables that stay marked as deleted, and the
    log.  The first table is reused in place as the stand-in for the part of its
    successors that shares a zone with live tables. *)
Definition TryInvalidateSSZones (log : Log) (metas : list SSZoneMetaData) : Status * list SSZoneMetaData * Log :=
  match metas with
  | [] => (Corruption, [], log)
  | first :: rest =>
      let tail := cl_GetWriteTail log in
      if negb (tail =? m_L0_lba first) then (OK, metas, log)
      else
        let blocks := u64 (m_L0_lba first - m_L0_lba first / zone_cap * zone_cap + m_lba_count first) in
        match reclaim_scan log rest first 1 blocks (0, 0%nat, m_number first) with
        | None => (Corruption, [], log)
        | Some (blocks_to_delete, upto, number) =>
            let safe := blocks_to_delete / zone_cap * zone_cap in
            let mock := set_number first number in
            let remaining :=
              if negb (blocks_to_delete mod zone_cap =? 0) then
                [set_L0_lba (set_lba_count mock (blocks_to_delete - safe)) (cl_wrapped_addr log (u64 (tail + safe)))]
              else [] in
            let '(s, log) :=
              if 0 <? safe then let '(r, log) := cl_ConsumeTail log tail (u64 (tail + safe)) in (FromStatus r, log)
              else (OK, log) in
            (s, remaining ++ drop upto metas, log)
        end
  end.

(** ** Tables on the log *)

Context `{!CircularLogLaws Log lba_size min_zone_head max_zone_head}.
Context (HL : 0 < lba_size) (Hgeo : 0 <= min_zone_head) (Hbig : max_zone_head * lba_size < 2 ^ 62).

Abbreviation wrap := (cl_wrap min_zone_head max_zone_head).

(** The blocks from index [i] of the log hold the table. *)
Record table_at (log : Log) (m : SSZoneMetaData) (i : Z) (bs : list bytes) : Prop := {
  ta_blocks : exists pre post, cl_blocks log = pre ++ bs ++ post /\ blen pre = i;
  ta_lba : m_L0_lba m = wrap (cl_GetWriteTail log + i);
  ta_count : m_lba_count m = blen bs;
  ta_nonempty : bs <> []
}.

Lemma wrap_in_log log i :
  0 <= i < max_zone_head - min_zone_head ->
  min_zone_head <= wrap (cl_GetWriteTail log + i) < max_zone_head.
Proof.
  intros Hi. pose proof (cl_tail_range log). unfold cl_wrap. destruct (Z.ltb_spec (cl_GetWriteTail log + i) max_zone_head); lia.
Qed.

Lemma wrap_wrap a : min_zone_head <= a < max_zone_head + (max_zone_head - min_zone_head) -> wrap (wrap a) = wrap a.
Proof.
  intros Ha. unfold cl_wrap at 2. destruct (Z.ltb_spec a max_zone_head); [done|].
  unfold cl_wrap. rewrite (proj2 (Z.ltb_lt _ _)), (proj2 (Z.ltb_ge a _)) by lia. done.
Qed.

Lemma table_at_range log m i bs :
  table_at log m i bs -> 0 <= i /\ 0 < blen bs /\ i + blen bs < max_zone_head - min_zone_head.
Proof.
  intros [(pre & post & Hb & <-) _ _ Hne]. pose proof (cl_not_full log) as Hf. rewrite Hb, !blen_app in Hf.
  pose_blen. destruct bs; [done|]. rewrite blen_cons in *. pose_blen. lia.
Qed.

Lemma l0_read_table log m i bs :
  table_at log m i bs -> l0_ReadSSTable log m = Some (OK, concat bs).
Proof.
  intros Ht. pose proof (table_at_range _ _ _ _ Ht) as (Hi & Hbs & Hlt).
  destruct Ht as [(pre & post & Hb & <-) Hl Hc Hne]. unfold l0_ReadSSTable. rewrite Hl, Hc.
  pose proof (wrap_in_log log (blen pre) ltac:(lia)) as Hw. pose proof (cl_tail_range log) as Htl.
  rewrite !(proj2 (Z.ltb_ge _ _)) by lia. cbn [orb].
  rewrite u64_small by (unfold is_u64; nia).
  erewrite (cl_read_ok log pre bs post); [done|done|done|lia|]. apply wrap_wrap. lia.
Qed.

(** What [WriteSSTable] leaves on the log. *)
Lemma l0_write_table log content meta log' meta' :
  content <> [] -> l0_WriteSSTable log content meta = (OK, log', meta') ->
  exists bs pad, table_at log' meta' (blen (cl_blocks log)) bs /\ concat bs = content ++ pad /\ blen pad < lba_size /\
    (m_number meta' = m_number meta /\ m_smallest meta' = m_smallest meta /\ m_largest meta' = m_largest meta) /\
    forall m i cs, table_at log m i cs -> table_at log' m i cs.
Proof.
  intros Hne. unfold l0_WriteSSTable. destruct (negb _); [done|]. destruct (cl_Append log content) as [[r n] l1] eqn:Ea.
  intros [= Hr <- <-]. apply FromStatus_ok in Hr as ->.
  apply cl_append_ok in Ea as (Ht & bs & pad & Hc & Hp & Hf & Hn & Hv).
  exists bs, pad. split_and!; [|done|done|done|done|done|].
  - constructor; cbn.
    + exists (cl_blocks log), []. by rewrite app_nil_r.
    + by rewrite cl_head, Ht.
    + done.
    + intros ->. by destruct content.
  - intros m i cs [(pre & post & Hb & Hpre) Hl Hcn Hcs]. constructor; [|by rewrite Ht|done|done].
    exists pre, (post ++ bs). by rewrite Hv, Hb, <-!app_assoc.
Qed.

(** ** Reclaiming keeps the live tables *)

(** The blocks of the log that belong to a deleted table. *)
Definition extent (log : Log) (m : SSZoneMetaData) (i : Z) : Prop :=
  0 <= i /\ 0 < m_lba_count m /\ i + m_lba_count m <= blen (cl_blocks log) /\
  m_L0_lba m = wrap (cl_GetWriteTail log + i).

(** Every block below [n] belongs to one of the tables. *)
Definition covered (log : Log) (metas : list SSZoneMetaData) (n : Z) : Prop :=
  forall x, 0 <= x < n -> exists m i, m ∈ metas /\ extent log m i /\ i <= x < i + m_lba_count m.

Lemma wrap_inj log i j :
  0 <= i < max_zone_head - min_zone_head -> 0 <= j < max_zone_head - min_zone_head ->
  wrap (cl_GetWriteTail log + i) = wrap (cl_GetWriteTail log + j) -> i = j.
Proof.
  intros Hi Hj. pose proof (cl_tail_range log). unfold cl_wrap.
  destruct (Z.ltb_spec (cl_GetWriteTail log + i) max_zone_head), (Z.ltb_spec (cl_GetWriteTail log + j) max_zone_head); lia.
Qed.

Lemma wrap_add log i n :
  0 <= i -> 0 <= n -> i + n < max_zone_head - min_zone_head ->
  wrap (wrap (cl_GetWriteTail log + i) + n) = wrap (cl_GetWriteTail log + (i + n)).
Proof.
  intros Hi Hn Hin. pose proof (cl_tail_range log). unfold cl_wrap.
  repeat match goal with |- context [?a <? ?b] => destruct (Z.ltb_spec a b) end; lia.
Qed.

Lemma extent_bound log m i : extent log m i -> 0 <= i /\ i + m_lba_count m < max_zone_head - min_zone_head.
Proof. intros (? & ? & ? & ?). pose proof (cl_not_full log). lia. Qed.

Lemma max_head_u64 : max_zone_head < 2 ^ 62.
Proof. destruct (Z.le_gt_cases max_zone_head 0); nia. Qed.

(** The address behind a table. *)
Lemma extent_next log m i :
  extent log m i ->
  cl_wrapped_addr log (u64 (m_L0_lba m + m_lba_count m)) = wrap (cl_GetWriteTail log + (i + m_lba_count m)).
Proof.
  intros He. pose proof (extent_bound _ _ _ He) as [Hi Hb]. destruct He as (_ & Hc & _ & Hl).
  pose proof max_head_u64. pose proof (wrap_in_log log i ltac:(lia)) as Hw. rewrite <-Hl in Hw.
  rewrite u64_small by (unfold is_u64; lia). rewrite cl_wrapped by lia. rewrite Hl. apply wrap_add; lia.
Qed.

Lemma covered_snoc log metas m n :
  covered log metas n -> extent log m n -> covered log (metas ++ [m]) (n + m_lba_count m).
Proof.
  intros Hc He x Hx. destruct (Z.lt_ge_cases x n) as [Hlt|Hge].
  - destruct (Hc x ltac:(lia)) as (a & i & Ha & ? & ?). exists a, i. split; [set_solver|done].
  - exists m, n. split_and!; [set_solver|done|lia|lia].
Qed.

Lemma covered_mono log metas metas' n n' : covered log metas n -> metas ⊆ metas' -> n' <= n -> covered log metas' n'.
Proof. intros Hc Hs Hn x Hx. destruct (Hc x ltac:(lia)) as (a & i & Ha & ? & ?). exists a, i. split; [by apply Hs|done]. Qed.

Lemma reclaim_scan_spec log metas seen prev e b2d upto num b2d' upto' num' :
  (forall m, m ∈ metas -> exists i, extent log m i) ->
  extent log prev (e - m_lba_count prev) -> covered log seen e -> 0 <= b2d <= e -> e <= blen (cl_blocks log) ->
  covered log (take upto seen) b2d -> (upto <= length seen)%nat ->
  reclaim_scan log metas prev (length seen) (e - b2d) (b2d, upto, num) = Some (b2d', upto', num') ->
  covered log (take upto' (seen ++ metas)) b2d' /\ 0 <= b2d' <= blen (cl_blocks log).
Proof.
  revert seen prev e b2d upto num.
  induction metas as [|m metas IH]; intros seen prev e b2d upto num Hm Hp Hc Hb He Hcu Hu.
  { intros [= <- <- <-]. rewrite app_nil_r. split; [done|lia]. }
  cbn [reclaim_scan]. destruct (_ =? _) eqn:En; [done|].
  rewrite (extent_next _ _ _ Hp). replace (e - m_lba_count prev + m_lba_count prev) with e by lia.
  destruct (Z.eqb_spec (wrap (cl_GetWriteTail log + e)) (m_L0_lba m)) as [E|]; cbn [negb].
  2: { intros [= <- <- <-]. rewrite take_app_le by done. split; [done|lia]. }
  destruct (Hm m ltac:(by left)) as (k & Hk). pose proof (extent_bound _ _ _ Hk) as Hkb.
  pose proof (cl_not_full log) as Hnf. pose proof Hk as (_ & Hcnt & Hend & Hkl).
  assert (k = e) as ->. { apply (wrap_inj log); [lia|lia|congruence]. }
  pose proof max_head_u64. replace (u64 (e - b2d + m_lba_count m)) with (e + m_lba_count m - b2d)
    by (rewrite u64_small by (unfold is_u64; lia); lia).
  assert (Hp' : extent log m (e + m_lba_count m - m_lba_count m)) by (by replace (e + m_lba_count m - m_lba_count m) with e by lia).
  pose proof (covered_snoc _ _ _ _ Hc Hk) as Hc'.
  assert (Hm' : forall x, x ∈ metas -> exists i, extent log x i) by (intros; apply Hm; by right).
  replace (seen ++ m :: metas) with ((seen ++ [m]) ++ metas) by (by rewrite <-app_assoc).
  replace (S (length seen)) with (length (seen ++ [m])) by (rewrite length_app; simpl; lia).
  destruct (zone_cap <=? e + m_lba_count m - b2d).
  - replace (u64 (b2d + (e + m_lba_count m - b2d))) with (e + m_lba_count m)
      by (rewrite u64_small by (unfold is_u64; lia); lia).
    replace 0 with (e + m_lba_count m - (e + m_lba_count m)) at 1 by lia.
    apply IH; try done; try lia. by rewrite firstn_all.
  - apply IH; try done; try lia; [by rewrite take_app_le|rewrite length_app; lia].
Qed.

(** The deleted tables and the live tables [lives], with their blocks, share the
    log; the tail is at the start of a zone. *)
Record l0_inv (log : Log) (metas : list SSZoneMetaData) (lives : list (SSZoneMetaData * list bytes)) : Prop := {
  li_aligned : (zone_cap | cl_GetWriteTail log);
  li_deleted : forall m, m ∈ metas -> exists i, extent log m i;
  li_apart : forall a b m m' i j, a <> b -> metas !! a = Some m -> metas !! b = Some m' ->
    extent log m i -> extent log m' j -> i + m_lba_count m <= j \/ j + m_lba_count m' <= i;
  li_live : forall t bs, (t, bs) ∈ lives -> exists j, table_at log t j bs;
  li_disjoint : forall m i t bs j, m ∈ metas -> extent log m i -> (t, bs) ∈ lives -> table_at log t j bs ->
    i + m_lba_count m <= j \/ j + blen bs <= i
}.

(** The log after [k] blocks were consumed at the tail. *)
Definition shifted (log log' : Log) (k : Z) : Prop :=
  cl_blocks log' = zdrop k (cl_blocks log) /\ cl_GetWriteTail log' = wrap (cl_GetWriteTail log + k).

Section Shift.
Context (log log' : Log) (k : Z) (Hs : shifted log log' k) (Hk : 0 <= k <= blen (cl_blocks log)).

Lemma shift_wrap i : k <= i < max_zone_head - min_zone_head ->
  wrap (cl_GetWriteTail log' + (i - k)) = wrap (cl_GetWriteTail log + i).
Proof.
  intros Hi. destruct Hs as [_ ->]. rewrite wrap_add by lia. do 2 f_equal. lia.
Qed.

Lemma shift_extent m i : extent log m i -> k <= i -> extent log' m (i - k).
Proof.
  intros He Hi. pose proof (extent_bound _ _ _ He). destruct He as (? & ? & ? & Hl). pose proof Hs as [Hb _].
  split_and!; [lia|done| |by rewrite Hl, shift_wrap by lia]. rewrite Hb, blen_zdrop. lia.
Qed.

Lemma shift_extent_inv m i : extent log' m i -> extent log m (i + k).
Proof.
  intros He. pose proof (extent_bound _ _ _ He). destruct He as (? & ? & Hle & Hl). pose proof Hs as [Hb _].
  rewrite Hb, blen_zdrop in Hle. pose proof (cl_not_full log).
  split_and!; [lia|done|lia|]. rewrite Hl, <-(shift_wrap (i + k)) by lia. do 2 f_equal. lia.
Qed.

Lemma shift_table t j bs : table_at log t j bs -> k <= j -> table_at log' t (j - k) bs.
Proof.
  intros Ht Hj. pose proof (table_at_range _ _ _ _ Ht) as (Hj0 & Hb0 & Hlt).
  destruct Ht as [(pre & post & Hb & Hpre) Hl Hc Hne]. pose proof Hs as [Hb' _]. constructor; [|by rewrite Hl, shift_wrap by lia|done|done].
  exists (zdrop k pre), post. split; [|rewrite blen_zdrop; lia]. rewrite Hb', Hb. unfold zdrop.
  rewrite drop_app_le by (unfold blen in *; lia). done.
Qed.

Lemma shift_table_inv t j bs : table_at log' t j bs -> table_at log t (j + k) bs.
Proof.
  intros Ht. pose proof (table_at_range _ _ _ _ Ht) as (Hj0 & Hb0 & Hlt).
  destruct Ht as [(pre & post & Hb & Hpre) Hl Hc Hne]. pose proof Hs as [Hb' _].
  assert (Hfull : cl_blocks log = (ztake k (cl_blocks log) ++ pre) ++ bs ++ post)
    by (rewrite <-app_assoc, <-Hb, Hb', ztake_zdrop; done).
  pose proof (cl_not_full log) as Hnf. rewrite Hfull, !blen_app, blen_ztake in Hnf. pose proof (blen_nonneg post).
  constructor; [| |done|done].
  - exists (ztake k (cl_blocks log) ++ pre), post. split; [done|]. rewrite blen_app, blen_ztake. lia.
  - rewrite Hl, <-(shift_wrap (j + k)) by lia. do 2 f_equal. lia.
Qed.
End Shift.

Context (Hzc : 0 < zone_cap) (Hwhole : (zone_cap | max_zone_head - min_zone_head)).

Section Reclaim.
Context (log : Log) (metas : list SSZoneMetaData) (lives : list (SSZoneMetaData * list bytes)) (Hinv : l0_inv log metas lives).
Context (upto : nat) (b2d : Z) (Hcov : covered log (take upto metas) b2d) (Hb2d : 0 <= b2d <= blen (cl_blocks log)).

Lemma deleted_behind b m i : (upto <= b)%nat -> metas !! b = Some m -> extent log m i -> b2d <= i.
Proof.
  intros Hb Hm He. destruct (Z.le_gt_cases b2d i) as [|Hlt]; [done|]. pose proof He as (Hi & Hc & _).
  destruct (Hcov i ltac:(lia)) as (a & k & Ha & Hk & Hr). apply list_elem_of_lookup in Ha as [x Hx].
  apply lookup_take_Some in Hx as [Hx Hlx].
  destruct (li_apart _ _ _ Hinv x b a m k i ltac:(lia) Hx Hm Hk He); lia.
Qed.

Lemma live_behind t bs j : (t, bs) ∈ lives -> table_at log t j bs -> b2d <= j.
Proof.
  intros Ht Hj. destruct (Z.le_gt_cases b2d j) as [|Hlt]; [done|]. pose proof (table_at_range _ _ _ _ Hj) as (Hj0 & Hb & _).
  destruct (Hcov j ltac:(lia)) as (a & k & Ha & Hk & Hr).
  eapply elem_of_sublist in Ha; [|apply sublist_take].
  destruct (li_disjoint _ _ _ Hinv a k t bs j Ha Hk Ht Hj); lia.
Qed.

(** The deleted tables behind the consumed blocks, with the stand-in for the rest
    of their last zone. *)
Lemma reclaim_keeps log' k mocks safe :
  shifted log log' k -> 0 <= k <= safe -> safe <= b2d -> (zone_cap | k) ->
  mocks = [] \/ (exists mock, mocks = [mock] /\ extent log mock safe /\ safe + m_lba_count mock = b2d) ->
  l0_inv log' (mocks ++ drop upto metas) lives.
Proof.
  intros Hs Hk Hsafe Hdiv Hmock. assert (Hkb : 0 <= k <= blen (cl_blocks log)) by lia.
  (* every remaining table lies in the old log, behind the consumed blocks *)
  assert (Hrem : forall b m, (mocks ++ drop upto metas) !! b = Some m ->
    (exists i, extent log m i) /\ forall i, extent log m i -> k <= i /\
      ((mocks = [m] /\ b = 0%nat /\ i = safe) \/ (b2d <= i /\ exists c, metas !! c = Some m /\ c = (b - length mocks + upto)%nat /\ (length mocks <= b)%nat))).
  { intros b m [Hb|[Hlen Hb]]%lookup_app_Some.
    - destruct Hmock as [->|(mock & -> & Hme & Hmc)]; [done|].
      destruct b as [|b]; [|done]. injection Hb as <-. split; [by exists safe|]. intros i He.
      assert (i = safe) as ->; [|split; [lia|by left]].
      pose proof (extent_bound _ _ _ He). pose proof (extent_bound _ _ _ Hme).
      destruct He as (? & ? & ? & E1), Hme as (? & ? & ? & E2). apply (wrap_inj log); [lia|lia|congruence].
    - rewrite lookup_drop in Hb. split.
      { apply (li_deleted _ _ _ Hinv). by eapply list_elem_of_lookup_2. }
      intros i He. pose proof (deleted_behind _ m i (Nat.le_add_r upto (b - length mocks)) Hb He). split; [lia|]. right.
      split; [done|]. eexists. split; [exact Hb|]. split; [lia|done]. }
  constructor.
  - destruct Hs as [_ ->]. unfold cl_wrap. pose proof (li_aligned _ _ _ Hinv).
    destruct (_ <? _); [by apply Z.divide_add_r|]. apply Z.divide_sub_r; [by apply Z.divide_add_r|done].
  - intros m [b Hb]%list_elem_of_lookup. destruct (Hrem b m Hb) as [(i & He) Hall].
    exists (i - k). eapply (shift_extent log); [eassumption..|]. by apply Hall.
  - intros a b m m' i j Hab Ha Hb He Hf. eapply (shift_extent_inv log) in He, Hf; [|eassumption..].
    destruct (Hrem a m Ha) as [_ Ra], (Hrem b m' Hb) as [_ Rb]. specialize (Ra _ He). specialize (Rb _ Hf).
    destruct Hmock as [E0|(mock & E0 & Hme & Hmc)].
    + destruct Ra as [_ [(E1 & _)|(_ & c & Hc & Eca & _)]]; [by rewrite E0 in E1|].
      destruct Rb as [_ [(E2 & _)|(_ & d & Hd & Edb & _)]]; [by rewrite E0 in E2|]. rewrite E0 in *. simpl in *.
      assert (Hcd : c <> d) by lia. destruct (li_apart _ _ _ Hinv c d m m' (i + k) (j + k) Hcd Hc Hd He Hf); lia.
    + rewrite E0 in *. simpl in *.
      destruct Ra as [_ [([= <-] & -> & Ea)|(Hi & c & Hc & Eca & Hla)]],
               Rb as [_ [([= <-] & -> & Eb)|(Hj & d & Hd & Edb & Hlb)]]; try done; try lia.
      assert (Hcd : c <> d) by lia. destruct (li_apart _ _ _ Hinv c d m m' (i + k) (j + k) Hcd Hc Hd He Hf); lia.
  - intros t bs Ht. destruct (li_live _ _ _ Hinv t bs Ht) as (j & Hj). exists (j - k).
    eapply (shift_table log); [eassumption..|]. pose proof (live_behind t bs j Ht Hj). lia.
  - intros m i t bs j [b Hb]%list_elem_of_lookup He Ht Hj. eapply (shift_extent_inv log) in He; [|eassumption..].
    eapply (shift_table_inv log) in Hj; [|eassumption..]. destruct (Hrem b m Hb) as [_ Rb].
    destruct (Rb _ He) as [_ [(-> & _ & Ei)|(_ & c & Hc & _)]].
    + pose proof (live_behind t bs _ Ht Hj). destruct Hmock as [|(mock & [= <-] & _ & Hmc)]; [done|]. lia.
    + destruct (li_disjoint _ _ _ Hinv m _ t bs _ ltac:(by eapply list_elem_of_lookup_2) He Ht Hj); lia.
Qed.
End Reclaim.

(** The first deleted table is at the tail, and what the scan finds is covered. *)
Lemma first_extent log first rest lives :
  l0_inv log (first :: rest) lives -> cl_GetWriteTail log = m_L0_lba first ->
  extent log first 0 /\
  u64 (m_L0_lba first - m_L0_lba first / zone_cap * zone_cap + m_lba_count first) = m_lba_count first.
Proof.
  intros Hinv Et. destruct (li_deleted _ _ _ Hinv first ltac:(by left)) as (i0 & He0).
  pose proof (extent_bound _ _ _ He0) as Hb0. pose proof (cl_tail_range log) as Htr. pose proof (cl_not_full log) as Hnf.
  pose proof max_head_u64. pose proof He0 as (_ & Hc & _ & Hl).
  assert (i0 = 0) as ->.
  { apply (wrap_inj log); [lia|lia|]. rewrite <-Hl, Z.add_0_r. unfold cl_wrap. by rewrite (proj2 (Z.ltb_lt _ _)) by lia. }
  split; [done|]. rewrite <-Et. destruct (li_aligned _ _ _ Hinv) as [q ->]. rewrite Z.div_mul, Z.sub_diag by lia.
  apply u64_small. unfold is_u64. lia.
Qed.

Lemma first_scan log first rest lives b2d upto number :
  l0_inv log (first :: rest) lives -> extent log first 0 ->
  reclaim_scan log rest first 1 (m_lba_count first) (0, 0%nat, m_number first) = Some (b2d, upto, number) ->
  covered log (take upto (first :: rest)) b2d /\ 0 <= b2d <= blen (cl_blocks log).
Proof.
  intros Hinv He0 Esc. pose proof He0 as (_ & Hc0 & Hc0b & _).
  apply (reclaim_scan_spec log rest [first] first (m_lba_count first) 0 0 (m_number first) b2d upto number); try done; try lia.
  - intros m Hm. apply (li_deleted _ _ _ Hinv). by right.
  - by rewrite Z.sub_diag.
  - intros x Hx. exists first, 0. split; [by left|]. split; [done|lia].
  - intros x Hx. lia.
  - cbn [length]. rewrite Z.sub_0_r. exact Esc.
Qed.

Lemma shifted_0 log log' :
  cl_blocks log' = cl_blocks log -> cl_GetWriteTail log' = cl_GetWriteTail log -> shifted log log' 0.
Proof.
  intros Hb Ht. pose proof (cl_tail_range log). split; [by rewrite Hb, zdrop_0|].
  rewrite Ht, Z.add_0_r. unfold cl_wrap. by rewrite (proj2 (Z.ltb_lt _ _)) by lia.
Qed.

Lemma whole_zones b2d : 0 <= b2d ->
  let safe := b2d / zone_cap * zone_cap in
  0 <= safe <= b2d /\ b2d - safe = b2d mod zone_cap /\ (zone_cap | safe).
Proof.
  intros Hb. cbv zeta. pose proof (Z.div_mod b2d zone_cap ltac:(lia)). pose proof (Z.mod_pos_bound b2d zone_cap Hzc).
  pose proof (Z.div_pos b2d zone_cap Hb Hzc). split_and!; [nia|lia|lia|apply Z.divide_factor_r].
Qed.

(** C22: reclaiming the tables of level 0 never touches a live table.  When the
    deleted tables and the live tables occupy disjoint blocks of the log, then
    after [TryInvalidateSSZones], whatever it returns, every live table still has
    its blocks, the tail is at the start of a zone, and the tables that stay
    marked as deleted again occupy blocks that no live table uses. *)
Theorem l0_reclaim_safe log metas lives s remaining log' :
  l0_inv log metas lives -> TryInvalidateSSZones log metas = (s, remaining, log') -> l0_inv log' remaining lives.
Proof.
  intros Hinv. destruct metas as [|first rest]; cbn [TryInvalidateSSZones].
  { by intros [= <- <- <-]. }
  destruct (Z.eqb_spec (cl_GetWriteTail log) (m_L0_lba first)) as [Et|]; cbn [negb]; [|by intros [= <- <- <-]].
  destruct (first_extent log first rest lives Hinv Et) as [He0 ->].
  destruct (reclaim_scan _ _ _ _ _ _) as [[[b2d upto] number]|] eqn:Esc.
  2: { intros [= <- <- <-]. destruct Hinv as [? _ _ ? _]. constructor; try done; intros; set_solver. }
  destruct (first_scan log first rest lives b2d upto number Hinv He0 Esc) as [Hcov Hb2d].
  destruct (whole_zones b2d ltac:(lia)) as (Hsafe & Hmod & Hdiv). set (safe := b2d / zone_cap * zone_cap) in *.
  pose proof (cl_tail_range log) as Htr. pose proof (cl_not_full log) as Hnf. pose proof max_head_u64.
  rewrite (u64_small (cl_GetWriteTail log + safe)) by (unfold is_u64; lia). rewrite cl_wrapped by lia.
  set (mocks := if negb (b2d mod zone_cap =? 0) then _ else _).
  assert (Hmocks : mocks = [] \/ exists mock, mocks = [mock] /\ extent log mock safe /\ safe + m_lba_count mock = b2d).
  { unfold mocks. destruct (Z.eqb_spec (b2d mod zone_cap) 0) as [|Hne]; cbn [negb]; [by left|]. right.
    eexists. split; [done|]. pose proof (Z.mod_pos_bound b2d zone_cap Hzc). split; [|cbn; lia]. split_and!; cbn; lia. }
  assert (Hkeep : forall log1 k, shifted log log1 k -> 0 <= k <= safe -> (zone_cap | k) ->
    l0_inv log1 (mocks ++ drop upto (first :: rest)) lives).
  { intros log1 k Hs Hk Hd.
    by apply (reclaim_keeps log (first :: rest) lives Hinv upto b2d Hcov Hb2d log1 k mocks safe); try lia. }
  destruct (Z.ltb_spec 0 safe) as [Hpos|Hz].
  - destruct (cl_ConsumeTail log (cl_GetWriteTail log) (cl_GetWriteTail log + safe)) as [r log1] eqn:Econ.
    intros [= <- <- <-]. destruct (decide (r = Success)) as [->|Hr].
    + apply cl_consume_ok in Econ as [Hbl Htl]; [|done|lia].
      replace (cl_GetWriteTail log + safe - cl_GetWriteTail log) with safe in Hbl by lia. by apply (Hkeep _ safe); [|lia|].
    + apply cl_consume_fail in Econ as [Hbl Htl]; [|done]. apply (Hkeep _ 0); [by apply shifted_0|lia|apply Z.divide_0_r].
  - intros [= <- <- <-]. apply (Hkeep _ 0); [by apply shifted_0|lia|apply Z.divide_0_r].
Qed.
End L0SSTable.

(** ** Witness: zones of four blocks, two deleted tables of three blocks and a live one *)

Module L0Witness.
#[global] Instance log_ops : CircularLog MemLog.t := MemLog.ops 1 0 32.
#[global] Instance log_laws : CircularLogLaws MemLog.t 1 0 32 := MemLog.laws 1 0 32 ltac:(lia) ltac:(lia).

Definition block (i : nat) : bytes := [z2b (Z.of_nat i)].
Definition log : MemLog.t := MemLog.mk 0 (map block (seq 0 9)).
Definition meta (n lba : Z) : SSZoneMetaData := mkMeta 0 0 n lba 0 n 0 [] [] 0 3 [] [].
Definition live : SSZoneMetaData := meta 3 6.
Definition live_blocks : list bytes := map block (seq 6 3).
Definition result : Status * list SSZoneMetaData * MemLog.t := TryInvalidateSSZones 4 log [meta 1 0; meta 2 3].
End L0Witness.

Lemma L0Witness_index (i lba : Z) :
  0 <= i < 32 -> 0 <= lba < 32 -> lba = cl_wrap 0 32 (cl_GetWriteTail L0Witness.log + i) -> i = lba.
Proof.
  intros Hi Hl. change (cl_GetWriteTail L0Witness.log) with 0. unfold cl_wrap. destruct (Z.ltb_spec (0 + i) 32); lia.
Qed.

Lemma L0Witness_inv :
  l0_inv 1 4 0 32 L0Witness.log [L0Witness.meta 1 0; L0Witness.meta 2 3] [(L0Witness.live, L0Witness.live_blocks)].
Proof.
  change (blen (cl_blocks L0Witness.log)) with 9.
  assert (He : forall m i, m ∈ [L0Witness.meta 1 0; L0Witness.meta 2 3] ->
    extent 1 0 32 L0Witness.log m i -> i = m_L0_lba m /\ m_lba_count m = 3 /\ (m_number m = 1 /\ m_L0_lba m = 0 \/ m_number m = 2 /\ m_L0_lba m = 3)).
  { intros m i Hm (H1 & H2 & H3 & H4). change (blen (cl_blocks L0Witness.log)) with 9 in H3.
    apply elem_of_cons in Hm as [->|Hm%list_elem_of_singleton]; [|subst m]; cbn in H2, H3 |- *;
      (split; [apply L0Witness_index; [lia|lia|exact H4]|auto]). }
  assert (Ht : forall t bs j, (t, bs) ∈ [(L0Witness.live, L0Witness.live_blocks)] -> table_at 1 0 32 L0Witness.log t j bs ->
    j = 6 /\ blen bs = 3).
  { intros t bs j [= -> ->]%list_elem_of_singleton Ht. pose proof (table_at_range 1 0 32 _ _ _ _ Ht) as Hr.
    change (blen L0Witness.live_blocks) with 3 in *. split; [|done].
    apply L0Witness_index; [lia|lia|]. exact (ta_lba _ _ _ _ _ _ _ Ht). }
  constructor.
  - exists 0. reflexivity.
  - intros m Hm. apply elem_of_cons in Hm as [->|Hm%list_elem_of_singleton]; [exists 0|subst m; exists 3];
      (split_and!; [lia|cbn; lia|vm_compute; congruence|reflexivity]).
  - intros a b m m' i j Hab Ha Hb Hi Hj.
    destruct (He m i ltac:(by eapply list_elem_of_lookup_2) Hi) as (-> & -> & Hm).
    destruct (He m' j ltac:(by eapply list_elem_of_lookup_2) Hj) as (-> & -> & Hm').
    destruct a as [|[|a]], b as [|[|b]]; simplify_eq/=; lia.
  - intros t bs [= -> ->]%list_elem_of_singleton. exists 6. constructor; [|reflexivity|reflexivity|done].
    exists (map L0Witness.block (seq 0 6)), []. done.
  - intros m i t bs j Hm Hi Ht' Hj. destruct (He m i Hm Hi) as (-> & -> & _). destruct (Ht t bs j Ht' Hj) as [-> ->].
    apply elem_of_cons in Hm as [->|Hm%list_elem_of_singleton]; [|subst m]; cbn; lia.
Qed.

Lemma l0_reclaim_safe_witness :
  l0_inv 1 4 0 32 (snd L0Witness.result) (snd (fst L0Witness.result)) [(L0Witness.live, L0Witness.live_blocks)] /\
  cl_GetWriteTail (snd L0Witness.result) = 4.
Proof.
  split; [|reflexivity].
  apply (l0_reclaim_safe 1 4 0 32 ltac:(lia) ltac:(lia) ltac:(lia) ltac:(lia) ltac:(by exists 8) L0Witness.log
    [L0Witness.meta 1 0; L0Witness.meta 2 3] [(L0Witness.live, L0Witness.live_blocks)] OK).
  - exact L0Witness_inv.
  - reflexivity.
Defined.
