(* ===== verification/LNSSTable.v ===== *)
(** * LNSSTable: the tables of the levels above 0 in a fragmented log

    [table/tropodb_ln_sstable.h] and [.cc].  A table occupies up to eight
    regions of whole zones, which its metadata records as block addresses; the
    log works with zone numbers.  [None] is an access outside of the arrays of
    the metadata. *)

From S2P Require Import Prelude Coding DbFormat Config SSTable SSTableIter VersionEdit Version Szd L0SSTable.

(** The slots that the metadata has for regions. *)
Definition max_lba_regions : Z := 8.

Definition set_LN (m : SSZoneMetaData) (lba_regions : Z) (lbas sizes : list Z) (count : Z) : SSZoneMetaData :=
  mkMeta (m_refs m) (m_allowed_seeks m) (m_number m) (m_L0_lba m) (m_L0_log_number m) (m_L0_number m)
    lba_regions lbas sizes (m_numbers m) count (m_smallest m) (m_largest m).

Section LNSSTable.
Context `{UserComparator} {Log : Type} `{!FragmentedLog Log}.
(** The size of a block, the blocks of a zone, and the zones of the log. *)
Context (lba_size zone_cap min_zone max_zone : Z).

(** [TropoSSTable::TropoSSTable], table/tropodb_sstable.h:24-36 *)
Definition ln_min_zone_head : Z := u64 (min_zone * zone_cap).
Definition ln_max_zone_head : Z := u64 (max_zone * zone_cap).

(** [TropoLNSSTable::Recover], table/tropodb_ln_sstable.cc:32-34 *)
Definition ln_Recover (log : Log) (from : bytes) : Status * Log :=
  let '(r, log) := fl_DecodeFrom log from in (FromStatus r, log).

(** [TropoLNSSTable::Encode], table/tropodb_ln_sstable.cc:36-36 *)
Definition ln_Encode (log : Log) : bytes := fl_Encode log.

(** [TropoLNSSTable::NewBuilder], table/tropodb_ln_sstable.cc:38-46.  [NewLNBuilder]
    only selects another writer of the log. *)
Definition ln_NewBuilder (meta : SSZoneMetaData) : TropoSSTableBuilder := newBuilder meta use_sstable_encoding.

(** [TropoLNSSTable::EnoughSpaceAvailable], table/tropodb_ln_sstable.cc:48-50 *)
Definition ln_EnoughSpaceAvailable (log : Log) (content : bytes) : bool := fl_SpaceLeft log (blen content).

(** [TropoLNSSTable::SpaceAvailable], table/tropodb_ln_sstable.cc:52-54 *)
Definition ln_SpaceAvailable (log : Log) : Z := fl_SpaceAvailable log.

(** One round of the loop of [WriteSSTable] over the regions of the append. *)
Definition record_region (ptr : Z * Z) (meta : SSZoneMetaData) : option SSZoneMetaData :=
  let n := m_LN_lba_regions meta in
  if n <? max_lba_regions then
    let size := u64 (snd ptr * zone_cap) in
    Some (set_LN meta (u8 (n + 1)) (<[Z.to_nat n := u64 (fst ptr * zone_cap)]> (m_LN_lbas meta))
      (<[Z.to_nat n := size]> (m_LN_lba_region_sizes meta)) (u64 (m_lba_count meta + size)))
  else None.

Fixpoint record_regions (ptrs : regions) (meta : SSZoneMetaData) : option SSZoneMetaData :=
  match ptrs with
  | [] => Some meta
  | ptr :: ptrs => meta ← record_region ptr meta; record_regions ptrs meta
  end.

(** [TropoLNSSTable::WriteSSTable], table/tropodb_ln_sstable.cc:56-90 *)
Definition ln_WriteSSTable (log : Log) (content : bytes) (meta : SSZoneMetaData) (writer : Z)
    : option (Status * Log * SSZoneMetaData) :=
  if negb (ln_EnoughSpaceAvailable log content) then Some (IOError, log, meta)
  else
    let '(r, ptrs, log) := fl_Append log content writer in
    if negb (ok (FromStatus r)) then Some (IOError, log, meta)
    else
      meta ← record_regions ptrs (set_LN meta 0 (m_LN_lbas meta) (m_LN_lba_region_sizes meta) 0);
      Some (OK, log, meta).

(** The loops that turn the addresses of the metadata into regions of the log;
    [inl] is the error for an address outside of the log. *)
Fixpoint meta_regions (lbas sizes : list Z) (n : nat) {struct n} : option (Status + regions) :=
  match n, lbas, sizes with
  | O, _, _ => Some (inr [])
  | S n, from :: lbas, blocks :: sizes =>
      if (ln_max_zone_head <? from) || (from <? ln_min_zone_head) then Some (inl Corruption)
      else
        r ← meta_regions lbas sizes n;
        Some (match r with inl s => inl s | inr ptrs => inr ((from / zone_cap, blocks / zone_cap) :: ptrs) end)
  | S _, _, _ => None
  end.

(** [TropoLNSSTable::ReadSSTable], table/tropodb_ln_sstable.cc:127-158 *)
Definition ln_ReadSSTable (log : Log) (meta : SSZoneMetaData) : option (Status * bytes) :=
  if max_lba_regions <? m_LN_lba_regions meta then Some (Corruption, [])
  else
    r ← meta_regions (m_LN_lbas meta) (m_LN_lba_region_sizes meta) (Z.to_nat (m_LN_lba_regions meta));
    match r with
    | inl s => Some (s, [])
    | inr ptrs =>
        match fl_Read log ptrs (u64 (m_lba_count meta * lba_size)) with
        | (Success, data) => Some (OK, data)
        | (r, _) => Some (FromStatus r, [])
        end
    end.

(** [TropoLNSSTable::InvalidateSSZone], table/tropodb_ln_sstable.cc:160-172 *)
Definition ln_InvalidateSSZone (log : Log) (meta : SSZoneMetaData) : option (Status * Log) :=
  r ← meta_regions (m_LN_lbas meta) (m_LN_lba_region_sizes meta) (Z.to_nat (m_LN_lba_regions meta));
  Some match r with
       | inl s => (s, log)
       | inr ptrs => let '(r, log) := fl_Reset log ptrs 1 in (FromStatus r, log)
       end.

(** [TropoLNSSTable::NewIterator], table/tropodb_ln_sstable.cc:174-196 *)
Definition ln_NewIterator (log : Log) (meta : SSZoneMetaData) : option (option SSTableIteratorCompressed) :=
  '(s, sstable) ← ln_ReadSSTable log meta;
  if ok s then it ← table_iterator sstable; Some (Some it) else Some None.

(** [TropoLNSSTable::Get], table/tropodb_ln_sstable.cc:198-223 *)
Definition ln_Get (log : Log) (key value : bytes) (meta : SSZoneMetaData) (status : EntryStatus)
    : option (Status * bytes * EntryStatus) :=
  it ← ln_NewIterator log meta;
  match it with
  | None => Some (Corruption, value, status)
  | Some it =>
      r ← iterator_get it key value;
      match r with
      | Some (v, es) => Some (OK, v, es)
      | None => Some (OK, value, notfound)
      end
  end.

(** ** Tables on the log *)

Context `{!FragmentedLogLaws Log (zone_cap * lba_size) min_zone max_zone}.
Context (HL : 0 < lba_size) (Hzc : 0 < zone_cap) (Hmin : 0 <= min_zone <= max_zone).
Context (Hbig : max_zone * zone_cap * lba_size < 2 ^ 60).

Lemma take_insert_snoc {A} (l : list A) k x (p : list A) :
  (k < length l)%nat -> take k l = p -> take (k + 1) (<[k := x]> l) = p ++ [x].
Proof.
  intros Hk <-. rewrite Nat.add_1_r. rewrite (take_S_r _ _ x) by (by apply list_lookup_insert_eq).
  f_equal. apply take_insert_ge. lia.
Qed.

(** The metadata records the regions. *)
Record records (m : SSZoneMetaData) (ptrs : regions) : Prop := {
  rc_max : blen ptrs <= max_lba_regions;
  rc_regions : m_LN_lba_regions m = blen ptrs;
  rc_lbas : take (length ptrs) (m_LN_lbas m) = map (fun p => fst p * zone_cap) ptrs;
  rc_sizes : take (length ptrs) (m_LN_lba_region_sizes m) = map (fun p => snd p * zone_cap) ptrs;
  rc_count : m_lba_count m = region_count ptrs * zone_cap
}.

Definition regions_ok (ptrs : regions) : Prop :=
  Forall (fun '(z, n) => min_zone <= z /\ 0 < n /\ z + n <= max_zone) ptrs.

(** The table with the contents [d] is stored in the regions. *)
Definition ln_table_at (log : Log) (m : SSZoneMetaData) (ptrs : regions) (d : bytes) : Prop :=
  fl_holds log ptrs d /\ records m ptrs.

Lemma zone_blocks_small z : 0 <= z <= max_zone -> 0 <= z * zone_cap < 2 ^ 60.
Proof.
  intros Hz. assert (z * zone_cap <= max_zone * zone_cap) by nia.
  assert (max_zone * zone_cap <= max_zone * zone_cap * lba_size) by nia. nia.
Qed.

Lemma region_count_app p q : region_count (p ++ q) = region_count p + region_count q.
Proof. unfold region_count. induction p as [|[z n] p IH]; [done|]. cbn [app foldr]. lia. Qed.

Lemma region_count_bound ptrs : regions_ok ptrs -> 0 <= region_count ptrs <= blen ptrs * max_zone.
Proof.
  induction 1 as [|[z n] p Hp _ IH]; [done|]. rewrite blen_cons.
  change (region_count ((z, n) :: p)) with (n + region_count p). nia.
Qed.

Lemma record_regions_spec ptrs pre m m' :
  records m pre -> regions_ok (pre ++ ptrs) ->
  length (m_LN_lbas m) = 8%nat -> length (m_LN_lba_region_sizes m) = 8%nat ->
  record_regions ptrs m = Some m' ->
  records m' (pre ++ ptrs) /\ m_number m' = m_number m /\ m_smallest m' = m_smallest m /\ m_largest m' = m_largest m.
Proof.
  revert pre m. induction ptrs as [|[z n] ptrs IH]; intros pre m Hr Hok H8 H8'; cbn [record_regions].
  { intros [= <-]. by rewrite app_nil_r. }
  unfold record_region. destruct (Z.ltb_spec (m_LN_lba_regions m) max_lba_regions) as [Hlt|]; [|done]. obind.
  replace (pre ++ (z, n) :: ptrs) with ((pre ++ [(z, n)]) ++ ptrs) in * by (by rewrite <-app_assoc).
  intros Hrec. eapply (IH (pre ++ [(z, n)])) in Hrec; [exact Hrec| |done|by cbn; rewrite length_insert..].
  destruct Hr as [Hm Hn Hl Hs Hc]. pose proof Hok as Hok'. apply Forall_app in Hok' as [Hok' _].
  pose proof (region_count_bound _ Hok') as Hb. rewrite region_count_app, blen_app in Hb. change (blen [(z, n)]) with 1 in Hb.
  cbn in Hb. apply Forall_app in Hok' as [Hpre [Hz _]%Forall_cons]. pose proof (region_count_bound _ Hpre) as Hb'.
  unfold max_lba_regions in *. pose proof (blen_nonneg pre) as Hp0.
  pose proof (zone_blocks_small z ltac:(lia)) as Bz. pose proof (zone_blocks_small n ltac:(lia)) as Bn.
  assert (region_count pre * zone_cap < 2 ^ 63).
  { pose proof (zone_blocks_small max_zone ltac:(lia)). nia. }
  assert (Hlen : Z.to_nat (m_LN_lba_regions m) = length pre) by (unfold blen in *; lia).
  assert (Hpl : (length pre < 8)%nat) by (unfold blen in *; lia).
  constructor; cbn [m_LN_lba_regions m_LN_lbas m_LN_lba_region_sizes m_lba_count set_LN fst snd]; rewrite ?Hlen.
  - rewrite blen_app. change (blen [(z, n)]) with 1. unfold max_lba_regions. lia.
  - rewrite u8_small by (unfold is_u8; lia). rewrite blen_app. change (blen [(z, n)]) with 1. lia.
  - rewrite length_app, map_app, u64_small by (unfold is_u64; lia). by apply take_insert_snoc; [lia|].
  - rewrite length_app, map_app, u64_small by (unfold is_u64; lia). by apply take_insert_snoc; [lia|].
  - rewrite region_count_app. cbn. rewrite (u64_small (n * zone_cap)) by (unfold is_u64; lia). rewrite u64_small; [lia|].
    unfold is_u64. nia.
Qed.

Lemma meta_regions_spec ptrs lbas sizes :
  regions_ok ptrs ->
  take (length ptrs) lbas = map (fun p => fst p * zone_cap) ptrs ->
  take (length ptrs) sizes = map (fun p => snd p * zone_cap) ptrs ->
  meta_regions lbas sizes (length ptrs) = Some (inr ptrs).
Proof.
  intros Hok. revert lbas sizes. induction Hok as [|[z n] ptrs Hz _ IH]; intros lbas sizes Hl Hs; [reflexivity|].
  destruct lbas as [|a lbas]; [discriminate|]. destruct sizes as [|b sizes]; [discriminate|]. cbn in Hl, Hs. injection Hl as -> Hl.
  injection Hs as -> Hs. cbn [length meta_regions].
  assert (E : forall x, 0 <= x <= max_zone -> u64 (x * zone_cap) = x * zone_cap).
  { intros x Hx. pose proof (zone_blocks_small x Hx). rewrite u64_small; [done|]. unfold is_u64. lia. }
  unfold ln_max_zone_head, ln_min_zone_head. rewrite !E by lia.
  rewrite !(proj2 (Z.ltb_ge _ _)) by nia. cbn [orb]. rewrite IH by done. obind. by rewrite !Z.div_mul by lia.
Qed.

Lemma records_regions m ptrs :
  regions_ok ptrs -> records m ptrs ->
  meta_regions (m_LN_lbas m) (m_LN_lba_region_sizes m) (Z.to_nat (m_LN_lba_regions m)) = Some (inr ptrs).
Proof.
  intros Hok [Hm Hn Hl Hs Hc]. rewrite Hn. unfold blen. rewrite Nat2Z.id. by apply meta_regions_spec.
Qed.

Lemma ln_read_table log m ptrs d :
  ln_table_at log m ptrs d -> exists pad, ln_ReadSSTable log m = Some (OK, d ++ pad).
Proof.
  intros [Hh Hr]. pose proof (fl_holds_regions _ _ _ Hh) as Hok. unfold ln_ReadSSTable.
  rewrite (proj2 (Z.ltb_ge _ _)) by (rewrite (rc_regions _ _ Hr); apply Hr).
  rewrite records_regions with (ptrs := ptrs) by done. obind. rewrite (rc_count _ _ Hr).
  pose proof (region_count_bound _ Hok) as Hb. pose proof (rc_max _ _ Hr). unfold max_lba_regions in *.
  pose proof (blen_nonneg ptrs). pose proof (zone_blocks_small 0) as Z0.
  destruct (fl_read_ok _ _ _ Hh) as (pad & E & _). exists pad. rewrite u64_small, <-Z.mul_assoc, E; [done|].
  assert (Hc : region_count ptrs <= 8 * max_zone) by nia.
  apply (Z.mul_le_mono_nonneg_r _ _ (zone_cap * lba_size)) in Hc; [|nia]. unfold is_u64. nia.
Qed.

Lemma list_disjoint_sym {A} (l k : list A) : l ## k -> k ## l.
Proof. intros Hd x Hk Hl. exact (Hd x Hl Hk). Qed.

(** ** The store of tables *)

(** The tables of the store, with their regions and contents. *)
Abbreviation stored := (SSZoneMetaData * regions * bytes)%type.

Record ln_store (log : Log) (ts : list stored) : Prop := {
  ls_tables : Forall (fun '(m, ptrs, d) => ln_table_at log m ptrs d) ts;
  ls_apart : ForallOrdPairs (fun a b : stored => region_zones (snd (fst a)) ## region_zones (snd (fst b))) ts
}.

Lemma ln_store_write log ts content meta w log' meta' :
  length (m_LN_lbas meta) = 8%nat -> length (m_LN_lba_region_sizes meta) = 8%nat ->
  ln_store log ts -> ln_WriteSSTable log content meta w = Some (OK, log', meta') ->
  exists ptrs, ln_store log' ((meta', ptrs, content) :: ts).
Proof.
  intros H8 H8' [Ht Ha]. unfold ln_WriteSSTable. destruct (negb _); [done|].
  destruct (fl_Append log content w) as [[r ptrs] l1] eqn:Eap. destruct (negb (ok (FromStatus r))) eqn:Er; [done|].
  destruct (record_regions _ _) as [m1|] eqn:Erec; [|done]. intros [= <- <-].
  assert (r = Success) as -> by (apply FromStatus_ok; by destruct (FromStatus r)).
  destruct (fl_append_ok _ _ _ _ _ Eap) as [Hh Hkeep]. exists ptrs. constructor.
  - constructor.
    + split; [done|]. pose proof (fl_holds_regions _ _ _ Hh) as Hok.
      eapply (record_regions_spec ptrs []) in Erec; [by apply Erec|by constructor|done..].
    + eapply Forall_impl; [exact Ht|]. intros [[m q] e] [Hq ?]. split; [by apply Hkeep|done].
  - constructor; [|done]. apply Forall_forall. intros [[m q] e] Hin. rewrite Forall_forall in Ht.
    destruct (Ht _ Hin) as [Hq _]. cbn. eapply list_disjoint_sym, Hkeep, Hq.
Qed.

Lemma record_regions_keys ptrs m m' :
  record_regions ptrs m = Some m' ->
  m_number m' = m_number m /\ m_smallest m' = m_smallest m /\ m_largest m' = m_largest m.
Proof.
  revert m. induction ptrs as [|p ptrs IH]; intros m; cbn [record_regions]; [by intros [= <-]|].
  unfold record_region. destruct (_ <? _); [|done]. obind. intros E. by apply IH in E.
Qed.

(** A write only changes where the table is. *)
Lemma ln_write_keys log content meta w s log' meta' :
  ln_WriteSSTable log content meta w = Some (s, log', meta') ->
  m_number meta' = m_number meta /\ m_smallest meta' = m_smallest meta /\ m_largest meta' = m_largest meta.
Proof.
  unfold ln_WriteSSTable. destruct (negb _); [by intros [= <- <- <-]|].
  destruct (fl_Append log content w) as [[r ptrs] l1]. destruct (negb _); [by intros [= <- <- <-]|].
  intros (m1 & Hm & [= <- <- <-])%bind_Some. by apply record_regions_keys in Hm.
Qed.

Lemma ln_store_write_fail log ts content meta w s log' meta' :
  s <> OK -> ln_store log ts -> ln_WriteSSTable log content meta w = Some (s, log', meta') ->
  ln_store log' ts /\ meta' = meta.
Proof.
  intros Hs [Ht Ha]. unfold ln_WriteSSTable. destruct (negb _); [by intros [= <- <- <-]|].
  destruct (fl_Append log content w) as [[r ptrs] l1] eqn:Eap. destruct (negb (ok (FromStatus r))) eqn:Er.
  2: { destruct (record_regions _ _); [|done]. by intros [= <- <- <-]. }
  intros [= <- <- <-]. split; [|done]. constructor; [|done]. eapply Forall_impl; [exact Ht|].
  intros [[m q] e] [Hq ?]. split; [|done]. eapply fl_append_fail; [exact Eap| |done]. intros ->. done.
Qed.

(** Deleting a table keeps a table with other zones. *)
Lemma ln_delete_keeps log m' ptrs' s log' m ptrs d :
  records m' ptrs' -> regions_ok ptrs' -> region_zones ptrs ## region_zones ptrs' ->
  ln_InvalidateSSZone log m' = Some (s, log') -> ln_table_at log m ptrs d -> ln_table_at log' m ptrs d.
Proof.
  intros Hr Hok Hd. unfold ln_InvalidateSSZone. rewrite records_regions with (ptrs := ptrs') by done. obind.
  destruct (fl_Reset log ptrs' 1) as [r l1] eqn:E. intros [= <- <-] [Hh Hm]. split; [|done]. by eapply fl_reset_ok.
Qed.

(** Two different tables of the store have different zones. *)
Lemma ln_store_apart log ts m ptrs d m' ptrs' d' :
  ln_store log ts -> (m, ptrs, d) ∈ ts -> (m', ptrs', d') ∈ ts -> m <> m' -> region_zones ptrs ## region_zones ptrs'.
Proof.
  intros [_ Ha] H1 H2 Hne. destruct (ForallOrdPairs_In Ha (m, ptrs, d) (m', ptrs', d')) as [E|[E|E]];
    [by apply list_elem_of_In..|by injection E as ->|done|by apply list_disjoint_sym].
Qed.

Lemma ln_store_delete log ts1 m ptrs d ts2 s log' :
  ln_store log (ts1 ++ (m, ptrs, d) :: ts2) -> ln_InvalidateSSZone log m = Some (s, log') -> ln_store log' (ts1 ++ ts2).
Proof.
  intros [Ht Ha]. rewrite Forall_forall in Ht. destruct (Ht (m, ptrs, d) ltac:(set_solver)) as [Hh Hr].
  intros E. assert (Hother : Forall (fun x : stored => region_zones (snd (fst x)) ## region_zones ptrs) (ts1 ++ ts2) /\
    ForallOrdPairs (fun a b : stored => region_zones (snd (fst a)) ## region_zones (snd (fst b))) (ts1 ++ ts2)).
  { clear Ht. induction ts1 as [|x ts1 IH]; inversion Ha as [|? ? Hx Hxs]; subst; cbn [app].
    - split; [|done]. eapply Forall_impl; [exact Hx|]. intros y Hy. by apply list_disjoint_sym.
    - destruct (IH Hxs) as [? ?]. apply Forall_app in Hx as [? [? ?]%Forall_cons]. split; constructor; try done.
      by apply Forall_app. }
  destruct Hother as [Hd Hop]. constructor; [|done]. apply Forall_forall. intros [[x q] e] Hx.
  rewrite Forall_forall in Hd. eapply ln_delete_keeps; [exact Hr|by eapply fl_holds_regions|by apply (Hd (x, q, e))|done|].
  apply (Ht (x, q, e)). set_solver.
Qed.

(** The log stores the tables [ts], each with its contents. *)
Definition ln_contents (log : Log) (ts : list (SSZoneMetaData * bytes)) : Prop :=
  exists sts : list stored, ts = map (fun x => (fst (fst x), snd x)) sts /\ ln_store log sts.

Lemma ln_contents_table log ts m d :
  ln_contents log ts -> (m, d) ∈ ts -> exists ptrs, ln_table_at log m ptrs d.
Proof.
  intros (sts & -> & [Ht _]) Hin. apply list_elem_of_fmap in Hin as ([[m' q] e] & [= -> ->] & Hin).
  rewrite Forall_forall in Ht. exists q. exact (Ht _ Hin).
Qed.

(** C23: the log of the upper levels is a store of tables.  A table that is
    stored reads back as its contents followed by padding; a write that
    succeeds adds the table and keeps every other one; a write that fails, for
    want of space or by an I/O error, keeps the tables as they were; deleting a
    table removes that table and no other. *)
Theorem ln_store_refines log ts :
  ln_contents log ts ->
  (forall m d, (m, d) ∈ ts -> exists pad, ln_ReadSSTable log m = Some (OK, d ++ pad)) /\
  (forall content meta w s log' meta',
     length (m_LN_lbas meta) = 8%nat -> length (m_LN_lba_region_sizes meta) = 8%nat ->
     ln_WriteSSTable log content meta w = Some (s, log', meta') ->
     ln_contents log' (if ok s then (meta', content) :: ts else ts)) /\
  (forall ts1 m d ts2, ts = ts1 ++ (m, d) :: ts2 ->
     exists s log', ln_InvalidateSSZone log m = Some (s, log') /\ ln_contents log' (ts1 ++ ts2)).
Proof.
  intros Hc. split_and!.
  - intros m d Hin. destruct (ln_contents_table _ _ _ _ Hc Hin) as (ptrs & Ht). by eapply ln_read_table.
  - destruct Hc as (sts & -> & Hs). intros content meta w s log' meta' H8 H8' Hw. destruct (decide (s = OK)) as [->|Hne].
    + destruct (ln_store_write _ _ _ _ _ _ _ H8 H8' Hs Hw) as (ptrs & Hs'). by exists ((meta', ptrs, content) :: sts).
    + eapply ln_store_write_fail in Hw as [Hs' _]; [|done|done]. exists sts. split; [by destruct s|done].
  - intros ts1 m d ts2 ->. destruct Hc as (sts & E & Hs).
    symmetry in E. apply fmap_app_inv in E as (s1 & s2' & -> & E & ->).
    destruct s2' as [|[[m' q] e] s2]; [done|]. injection E as <- <- E. change (ts2 = map (fun x : stored => (fst (fst x), snd x)) s2) in E. subst ts2.
    assert (Ht : ln_table_at log m q d).
    { destruct Hs as [Hf _]. rewrite Forall_forall in Hf. apply (Hf (m, q, d)). set_solver. }
    assert (exists s log', ln_InvalidateSSZone log m = Some (s, log')) as (s & log' & E).
    { destruct Ht as [Hh Hr]. unfold ln_InvalidateSSZone.
      rewrite records_regions with (ptrs := q); [|by eapply fl_holds_regions|done]. obind. destruct (fl_Reset log q 1) as [r l]. by exists (FromStatus r), l. }
    exists s, log'. split; [done|]. exists (s1 ++ s2). split; [by rewrite map_app|]. by eapply ln_store_delete.
Qed.

Lemma record_regions_defined ptrs m :
  0 <= m_LN_lba_regions m <= max_lba_regions ->
  is_Some (record_regions ptrs m) <-> m_LN_lba_regions m + blen ptrs <= max_lba_regions.
Proof.
  unfold max_lba_regions. revert m.
  induction ptrs as [|[z n] ptrs IH]; intros m Hm; cbn [record_regions]; [rewrite blen_nil; split; [lia|done]|].
  rewrite blen_cons. pose proof (blen_nonneg ptrs). unfold record_region, max_lba_regions.
  destruct (Z.ltb_spec (m_LN_lba_regions m) 8) as [Hlt|Hge]; obind.
  - assert (E : forall k l l' c, k = m_LN_lba_regions m + 1 ->
      is_Some (record_regions ptrs (set_LN m k l l' c)) <-> m_LN_lba_regions m + 1 + blen ptrs <= 8).
    { intros k l l' c ->. rewrite IH; cbn; [done|lia]. }
    rewrite E by (rewrite u8_small; [lia|unfold is_u8; lia]). lia.
  - split; [by intros [? [=]]|lia].
Qed.

(** A table is written within the arrays of its metadata exactly when the
    log places it in at most eight regions.  Nothing bounds the regions that
    [Append] returns, so with more of them the loop over the regions writes
    behind the end of [LN.lbas]. *)
Theorem ln_write_regions log content meta w ptrs log' :
  ln_EnoughSpaceAvailable log content = true -> fl_Append log content w = (Success, ptrs, log') ->
  is_Some (ln_WriteSSTable log content meta w) <-> blen ptrs <= max_lba_regions.
Proof.
  intros He Ea. unfold ln_WriteSSTable. rewrite He, Ea. cbn [negb ok FromStatus].
  pose proof (record_regions_defined ptrs (set_LN meta 0 (m_LN_lbas meta) (m_LN_lba_region_sizes meta) 0)) as E.
  cbn [m_LN_lba_regions set_LN] in E. rewrite Z.add_0_l in E. rewrite <-E by (unfold max_lba_regions; lia).
  destruct (record_regions _ _); obind; [done|]. split; by intros [? [=]].
Qed.

End LNSSTable.

(** ** Witness: zones of two blocks of four bytes *)

Module LNWitness.
#[global] Instance log_ops : FragmentedLog MemFrag.t := MemFrag.ops 8 3 20.
#[global] Instance log_laws : FragmentedLogLaws MemFrag.t (2 * 4) 3 20 := MemFrag.laws 8 3 20 ltac:(lia).

Definition meta : SSZoneMetaData := newSSZoneMetaData 7 (repeat 0 8) (repeat 0 8).
Definition content (n : nat) : bytes := repeat x41 n.
Definition stored_meta : SSZoneMetaData :=
  mkMeta 0 (2 ^ 30) 0 0 0 7 3 ([6; 8; 10] ++ repeat 0 5) ([2; 2; 2] ++ repeat 0 5) 0 6 [] [].
Definition result : option (Status * MemFrag.t * SSZoneMetaData) := ln_WriteSSTable 2 ∅ (content 20) meta 0.
Definition log : MemFrag.t := default ∅ (snd ∘ fst <$> result).
End LNWitness.

Lemma ln_store_refines_witness :
  LNWitness.result = Some (OK, LNWitness.log, LNWitness.stored_meta) /\
  ln_contents 4 2 3 20 LNWitness.log [(LNWitness.stored_meta, LNWitness.content 20)].
Proof.
  assert (E : LNWitness.result = Some (OK, LNWitness.log, LNWitness.stored_meta)) by (vm_compute; reflexivity).
  split; [exact E|].
  apply (proj1 (proj2 (ln_store_refines 4 2 3 20 ltac:(lia) ltac:(lia) ltac:(lia) ltac:(lia) (∅ : MemFrag.t) []
    ltac:(exists []; split; [reflexivity|constructor; constructor])))
    (LNWitness.content 20) LNWitness.meta 0 OK LNWitness.log LNWitness.stored_meta eq_refl eq_refl E).
Defined.

Lemma ln_write_regions_witness :
  is_Some (ln_WriteSSTable 2 (∅ : MemFrag.t) (LNWitness.content 72) LNWitness.meta 0) <->
  blen (snd (fst (fl_Append (∅ : MemFrag.t) (LNWitness.content 72) 0))) <= max_lba_regions.
Proof.
  apply (ln_write_regions 2 (∅ : MemFrag.t) (LNWitness.content 72) LNWitness.meta 0 _
    (snd (fl_Append (∅ : MemFrag.t) (LNWitness.content 72) 0))).
  - vm_compute; reflexivity.
  - vm_compute; reflexivity.
Defined.
