(* ===== verification/ReadQueue.v ===== *)
(** * ReadQueue: sharing the readers of a log between threads

    [request_read_queue] and [release_read_queue] of
    [table/tropodb_l0_sstable.cc] and [table/tropodb_ln_sstable.cc], which are
    the same code with their own number of readers.  Both run under the mutex
    of the table, so each is one step of a transition system; [Wait] gives the
    mutex up, and the scan that follows a wakeup is a step of its own. *)

From S2P Require Import Prelude Config.

Section ReadQueue.
(** The number of readers. *)
Context (readers : nat).

(** [read_queue_]: 0 for a free reader. *)
Definition newQueue : list Z := replicate readers 0.

(** The loops that look for a free reader. *)
Fixpoint free_reader (q : list Z) : option nat :=
  match q with
  | [] => None
  | x :: q => if x =? 0 then Some O else S <$> free_reader q
  end.

(** [TropoLNSSTable::request_read_queue], table/tropodb_ln_sstable.cc:94-116.
    [None] is the call of [Wait]. *)
Definition request_read_queue (q : list Z) : option (nat * list Z) :=
  i ← free_reader q; x ← q !! i; Some (i, <[i := u8 (x + 1)]> q).

(** [TropoLNSSTable::release_read_queue], table/tropodb_ln_sstable.cc:118-125.
    [None] is a violated assertion. *)
Definition release_read_queue (q : list Z) (reader : nat) : option (list Z) :=
  x ← q !! reader; if x =? 0 then None else Some (<[reader := 0]> q).

(** ** The threads *)

Inductive phase := Waiting | Reading (reader : nat).

Record state := mkState { st_queue : list Z; st_threads : gmap nat phase }.

Definition init : state := mkState newQueue ∅.

Inductive step : state -> state -> Prop :=
| step_request q ts t i q' :
    ts !! t = None -> request_read_queue q = Some (i, q') -> step (mkState q ts) (mkState q' (<[t := Reading i]> ts))
| step_wait q ts t :
    ts !! t = None -> request_read_queue q = None -> step (mkState q ts) (mkState q (<[t := Waiting]> ts))
| step_wake q ts t i q' :
    ts !! t = Some Waiting -> request_read_queue q = Some (i, q') ->
    step (mkState q ts) (mkState q' (<[t := Reading i]> ts))
| step_release q ts t i q' :
    ts !! t = Some (Reading i) -> release_read_queue q i = Some q' -> step (mkState q ts) (mkState q' (delete t ts)).

(** A reader is taken exactly when one thread has it. *)
Record queue_inv (s : state) : Prop := {
  qi_length : length (st_queue s) = readers;
  qi_taken : forall i x, st_queue s !! i = Some x -> (x = 0 /\ forall t, st_threads s !! t <> Some (Reading i)) \/
    (x = 1 /\ exists t, st_threads s !! t = Some (Reading i));
  qi_range : forall t i, st_threads s !! t = Some (Reading i) -> (i < readers)%nat;
  qi_one : forall t t' i, st_threads s !! t = Some (Reading i) -> st_threads s !! t' = Some (Reading i) -> t = t'
}.

Lemma free_reader_Some q i : free_reader q = Some i -> q !! i = Some 0.
Proof.
  revert i. induction q as [|x q IH]; intros i; [done|]. cbn. destruct (Z.eqb_spec x 0) as [->|]; [by intros [= <-]|].
  intros (j & Hj & ->)%fmap_Some. by apply IH.
Qed.

Lemma free_reader_None q i x : free_reader q = None -> q !! i = Some x -> x <> 0.
Proof.
  revert i. induction q as [|y q IH]; intros i; [done|]. cbn. destruct (Z.eqb_spec y 0); [done|].
  intros E%fmap_None. destruct i as [|i]; [by intros [= <-]|by apply IH].
Qed.

Lemma request_Some q i q' :
  request_read_queue q = Some (i, q') -> q !! i = Some 0 /\ q' = <[i := 1]> q.
Proof.
  unfold request_read_queue. destruct (free_reader q) as [j|] eqn:Ef; [|done]. obind.
  apply free_reader_Some in Ef as Hq. rewrite Hq. obind. by intros [= <- <-].
Qed.

Lemma request_None q : request_read_queue q = None <-> free_reader q = None.
Proof.
  unfold request_read_queue. destruct (free_reader q) as [j|] eqn:Ef; [|done]. obind.
  apply free_reader_Some in Ef as ->. done.
Qed.

(** Taking the free reader [i] for a thread that had none. *)
Lemma take_reader q ts t i :
  queue_inv (mkState q ts) -> q !! i = Some 0 -> (forall j, ts !! t <> Some (Reading j)) ->
  queue_inv (mkState (<[i := 1]> q) (<[t := Reading i]> ts)).
Proof.
  intros [Hl Ht Hr Ho] Hi Hn. cbn in *. assert (Hlt : (i < length q)%nat) by (by apply lookup_lt_Some in Hi).
  assert (Hfree : forall t', ts !! t' <> Some (Reading i)) by (destruct (Ht i 0 Hi) as [[_ ?]|[? _]]; [done|lia]).
  constructor; cbn.
  - by rewrite length_insert.
  - intros j x [(<- & <- & _)|[Hne Hj]]%list_lookup_insert_Some.
    + right. split; [done|]. exists t. apply lookup_insert_eq.
    + destruct (Ht j x Hj) as [[-> Hj']|[-> (t' & Ht')]]; [left|right]; (split; [done|]).
      * intros t'. destruct (decide (t = t')) as [<-|]; [rewrite lookup_insert_eq|by rewrite lookup_insert_ne]. congruence.
      * exists t'. rewrite lookup_insert_ne; [done|]. intros ->. by destruct (Hn j).
  - intros t' j [[<- [= <-]]|[_ ?]]%lookup_insert_Some; [lia|by eapply Hr].
  - intros t1 t2 j [[<- [= <-]]|[? H1]]%lookup_insert_Some [[<- E]|[? H2]]%lookup_insert_Some; try done.
    + by destruct (Hfree t2).
    + injection E as <-. by destruct (Hfree t1).
    + by eapply Ho.
Qed.

Lemma add_waiting q ts t : queue_inv (mkState q ts) -> ts !! t = None -> queue_inv (mkState q (<[t := Waiting]> ts)).
Proof.
  intros [Hl Ht Hr Ho] Hn. cbn in *.
  assert (E : forall t' j, <[t := Waiting]> ts !! t' = Some (Reading j) <-> ts !! t' = Some (Reading j)).
  { intros t' j. rewrite lookup_insert_Some. split; [by intros [[_ ?]|[_ ?]]|]. intros ?. right. split; [congruence|done]. }
  constructor; cbn; [done| |intros t' j ?%E; by eapply Hr|intros t1 t2 j ?%E ?%E; by eapply Ho].
  intros i x Hi. destruct (Ht i x Hi) as [[-> Hf]|[-> (t' & Ht')]]; [left|right]; (split; [done|]).
  - intros t' ?%E. by destruct (Hf t').
  - exists t'. by apply E.
Qed.

Lemma free_the_reader q ts t i :
  queue_inv (mkState q ts) -> ts !! t = Some (Reading i) -> queue_inv (mkState (<[i := 0]> q) (delete t ts)).
Proof.
  intros [Hl Ht Hr Ho] Hi. cbn in *. constructor; cbn.
  - by rewrite length_insert.
  - intros j x [(<- & <- & _)|[Hne Hj]]%list_lookup_insert_Some.
    + left. split; [done|]. intros t' [Hne H2]%lookup_delete_Some. by apply Hne, (Ho t t' i).
    + destruct (Ht j x Hj) as [[-> Hj']|[-> (t' & Ht')]]; [left|right]; (split; [done|]).
      * by intros t' [_ ?%Hj']%lookup_delete_Some.
      * exists t'. apply lookup_delete_Some. split; [|done]. intros ->. congruence.
  - intros t' j [_ ?]%lookup_delete_Some. by eapply Hr.
  - intros t1 t2 j [_ ?]%lookup_delete_Some [_ ?]%lookup_delete_Some. by eapply Ho.
Qed.

Lemma release_reading q ts t i :
  queue_inv (mkState q ts) -> ts !! t = Some (Reading i) -> release_read_queue q i = Some (<[i := 0]> q).
Proof.
  intros [Hl Ht Hr Ho] Hi. cbn in *. destruct (lookup_lt_is_Some_2 q i) as [x Hx]; [rewrite Hl; by eapply Hr|].
  unfold release_read_queue. rewrite Hx. obind. destruct (Ht i x Hx) as [[_ Hf]|[-> _]]; [by destruct (Hf t)|done].
Qed.

Lemma step_inv s s' : queue_inv s -> step s s' -> queue_inv s'.
Proof.
  intros Hinv. inversion 1; subst.
  - apply request_Some in H1 as [? ->]. by apply take_reader; [| |rewrite H0].
  - by apply add_waiting.
  - apply request_Some in H1 as [? ->]. by apply take_reader; [| |rewrite H0].
  - erewrite release_reading in H1 by done. injection H1 as <-. by eapply free_the_reader.
Qed.

Lemma init_inv : queue_inv init.
Proof.
  constructor; cbn; try done; [apply length_replicate|].
  intros i x [-> _]%lookup_replicate. by left.
Qed.

Lemma reachable_inv s : rtc step init s -> queue_inv s.
Proof.
  intros Hr. remember init as s0 eqn:E. assert (queue_inv s0) as H0 by (subst; apply init_inv). clear E.
  induction Hr; [done|]. eauto using step_inv.
Qed.

End ReadQueue.

