(* ===== verification/DeferredWriter.v ===== *)
(** * DeferredWriter: writing tables in a second thread

    A flush and a compaction hand their finished tables to a worker thread:
    [DeferFlushWrite] and [FlushSSTable] of [table/tropodb_l0_sstable.cc], and the
    same code in [DeferCompactionWrite] and [FlushSSTable] of
    [index/tropodb_compaction.cc].  The two threads share a list of builders
    behind a mutex and one condition variable.

    What a thread does between taking the mutex and giving it up (or waiting) is
    one step; so is the write of a table, which is done without the mutex by the
    worker alone.  [SignalAll] wakes every waiting thread; a woken thread goes on
    when it gets the mutex.  Undefined behaviour is a state of its own. *)

From S2P Require Import Prelude Config.

Section Deferred.
(** The builders, what the device holds, and the metadata of a written table. *)
Context {Task Dev Meta : Type}.
(** [TropoSSTableBuilder::Flush]: the status, the device, and the metadata. *)
Context (flush : Dev -> Task -> Status * Dev * Meta).
(** The number of builders that may wait. *)
Context (maximum_deferred_writes : Z).
(** Whether a wait may end without a signal. *)
Context (spurious : bool).

(** ** The threads *)

(** [DeferredFlush], table/tropodb_l0_sstable.h:17-28: the shared data.  A null
    pointer is [None]; [index_] is a [uint8_t]. *)
Record deferred := mkDeferred {
  deferred_builds_ : list (option Task);
  index_ : Z;
  last_ : bool;
  done_ : bool;
  metas_ : list Meta;
  device : Dev
}.

(** The host: it pushes the builders one by one, each time waiting while the
    mailbox is full, then asks the worker to stop and waits until it has. *)
Inductive host :=
  | Pushing (todo : list Task)
  | WaitFull (woken : bool) (t : Task) (todo : list Task)
  | WaitDone (woken : bool)
  | Unlocked                       (* after [Unlock] at the end of the join loop *)
  | Finished
  | WaitsUnlocked.                 (* [Wait] without holding the mutex: undefined *)

(** The worker: at the top of its loop, waiting for a task, with a task whose
    table is to be written, or with the outcome of the write. *)
Inductive worker :=
  | Top
  | WaitTask (woken : bool)
  | Writing (t : option Task)
  | Written (t : option Task) (s : Status) (m : option Meta)
  | Dead
  | OutOfBounds.                   (* a read past the end of the vector: undefined *)

Definition state : Type := host * worker * deferred.

(** [SignalAll] *)
Definition wake_host (h : host) : host :=
  match h with WaitFull _ t todo => WaitFull true t todo | WaitDone _ => WaitDone true | _ => h end.
Definition wake_worker (w : worker) : worker := match w with WaitTask _ => WaitTask true | _ => w end.

(** The mailbox is full: the condition of the host's wait. *)
Definition full (d : deferred) : bool :=
  (index_ d <? Z.of_nat (length (deferred_builds_ d))) &&
  (maximum_deferred_writes <? Z.of_nat (length (deferred_builds_ d)) - index_ d).

Definition push (d : deferred) (t : Task) : deferred :=
  mkDeferred (deferred_builds_ d ++ [Some t]) (index_ d) (last_ d) (done_ d) (metas_ d) (device d).
Definition set_last (d : deferred) : deferred :=
  mkDeferred (deferred_builds_ d) (index_ d) true (done_ d) (metas_ d) (device d).
Definition set_done (d : deferred) : deferred :=
  mkDeferred (deferred_builds_ d) (index_ d) (last_ d) true (metas_ d) (device d).
Definition set_device (d : deferred) (x : Dev) : deferred :=
  mkDeferred (deferred_builds_ d) (index_ d) (last_ d) (done_ d) (metas_ d) x.

(** The worker reads the builder at [index_], whatever the size is. *)
Definition take_task (d : deferred) : worker :=
  match deferred_builds_ d !! Z.to_nat (index_ d) with Some t => Writing t | None => OutOfBounds end.

(** The worker reports the outcome: the metadata is added, and the builder
    deleted, only after a success. *)
Definition report (d : deferred) (s : Status) (m : option Meta) : deferred :=
  if ok s
  then mkDeferred (<[Z.to_nat (index_ d) := None]> (deferred_builds_ d)) (u8 (index_ d + 1)) (last_ d) (done_ d)
         (metas_ d ++ match m with Some m => [m] | None => [] end) (device d)
  else mkDeferred (deferred_builds_ d) (u8 (index_ d + 1)) (last_ d) (done_ d) (metas_ d) (device d).

(** [TropoL0SSTable::FlushSSTable], table/tropodb_l0_sstable.cc:111-132, and the
    teardown of [FlushMemTable], table/tropodb_l0_sstable.cc:219-230. *)
Inductive host_step : state -> state -> Prop :=
  | push_task t todo w d :
      full d = false -> host_step (Pushing (t :: todo), w, d) (Pushing todo, wake_worker w, push d t)
  | push_wait t todo w d :
      full d = true -> host_step (Pushing (t :: todo), w, d) (WaitFull false t todo, w, d)
  | full_push t todo w d :
      full d = false -> host_step (WaitFull true t todo, w, d) (Pushing todo, wake_worker w, push d t)
  | full_wait t todo w d :
      full d = true -> host_step (WaitFull true t todo, w, d) (WaitFull false t todo, w, d)
  | close w d :
      done_ d = false -> host_step (Pushing [], w, d) (WaitDone false, wake_worker w, set_last d)
  | join_unlock w d : host_step (WaitDone true, w, d) (Unlocked, w, d)
  | join_done w d : done_ d = true -> host_step (Unlocked, w, d) (Finished, w, d)
  | join_again w d : done_ d = false -> host_step (Unlocked, w, d) (WaitsUnlocked, w, d).

(** [TropoL0SSTable::DeferFlushWrite], table/tropodb_l0_sstable.cc:62-109 *)
Inductive worker_step : state -> state -> Prop :=
  | task_die h d :
      Z.of_nat (length (deferred_builds_ d)) <= index_ d -> last_ d = true ->
      worker_step (h, Top, d) (wake_host h, Dead, set_done d)
  | task_wait h d :
      Z.of_nat (length (deferred_builds_ d)) <= index_ d -> last_ d = false ->
      worker_step (h, Top, d) (h, WaitTask false, d)
  | task_take h d :
      index_ d < Z.of_nat (length (deferred_builds_ d)) -> worker_step (h, Top, d) (h, take_task d, d)
  | task_woken h d : worker_step (h, WaitTask true, d) (h, take_task d, d)
  | task_null h d : worker_step (h, Writing None, d) (h, Written None Corruption None, d)
  | task_flush h t d s dev m :
      flush (device d) t = (s, dev, m) ->
      worker_step (h, Writing (Some t), d) (h, Written (Some t) s (Some m), set_device d dev)
  | task_report h t s m d : worker_step (h, Written t s m, d) (wake_host h, Top, report d s m).

(** Any interleaving of the two threads, and waits that end by themselves if the
    platform has such. *)
Inductive step : state -> state -> Prop :=
  | step_host st st' : host_step st st' -> step st st'
  | step_worker st st' : worker_step st st' -> step st st'
  | step_spurious_host h w d : spurious = true -> step (h, w, d) (wake_host h, w, d)
  | step_spurious_worker h w d : spurious = true -> step (h, w, d) (h, wake_worker w, d).

Definition init (dev : Dev) (tasks : list Task) : state :=
  (Pushing tasks, Top, mkDeferred [] 0 false false [] dev).

Definition undefined (st : state) : Prop :=
  fst (fst st) = WaitsUnlocked \/ snd (fst st) = OutOfBounds.

(** ** The reference: the tables are written one after the other *)

Fixpoint flush_all (dev : Dev) (tasks : list Task) : Dev * list Meta :=
  match tasks with
  | [] => (dev, [])
  | t :: tasks =>
      let '(s, dev, m) := flush dev t in
      let '(dev, ms) := flush_all dev tasks in
      (dev, if ok s then m :: ms else ms)
  end.

Lemma flush_all_app dev ts ts' :
  flush_all dev (ts ++ ts') =
  (fst (flush_all (fst (flush_all dev ts)) ts'), snd (flush_all dev ts) ++ snd (flush_all (fst (flush_all dev ts)) ts')).
Proof.
  revert dev. induction ts as [|t ts IH]; intros dev; simpl; [by destruct (flush_all dev ts')|].
  destruct (flush dev t) as [[s dev1] m]. rewrite IH. destruct (flush_all dev1 ts) as [dev2 ms]. simpl.
  by destruct (ok s).
Qed.

(** ** What holds in every state *)

Section Proofs.
Context (dev0 : Dev) (tasks : list Task).

(** The builders that the host has not pushed yet. *)
Definition todo_of (h : host) : list Task :=
  match h with Pushing todo => todo | WaitFull _ t todo => t :: todo | _ => [] end.

Definition closed (h : host) : bool := match h with Pushing _ | WaitFull _ _ _ => false | _ => true end.

(** The bookkeeping, whatever the number of tasks is. *)
Record count_inv (st : state) : Prop := {
  ci_pushed : (length (deferred_builds_ (snd st)) + length (todo_of (fst (fst st))) = length tasks)%nat;
  ci_index : 0 <= index_ (snd st) < 256;
  ci_last : last_ (snd st) = closed (fst (fst st));
  ci_done : done_ (snd st) = true <-> snd (fst st) = Dead;
  ci_dead : snd (fst st) = Dead -> closed (fst (fst st)) = true /\ Z.of_nat (length tasks) <= index_ (snd st);
  ci_finished : fst (fst st) = Finished -> snd (fst st) = Dead
}.

Lemma wake_host_same h : todo_of (wake_host h) = todo_of h /\ closed (wake_host h) = closed h /\
  (wake_host h = Finished <-> h = Finished).
Proof. by destruct h. Qed.

Lemma wake_worker_dead w : wake_worker w = Dead <-> w = Dead.
Proof. by destruct w. Qed.

Lemma take_task_dead d : take_task d <> Dead.
Proof. unfold take_task. by case_match. Qed.

Lemma report_same d s m :
  length (deferred_builds_ (report d s m)) = length (deferred_builds_ d) /\ index_ (report d s m) = u8 (index_ d + 1) /\
  last_ (report d s m) = last_ d /\ done_ (report d s m) = done_ d /\ device (report d s m) = device d.
Proof. unfold report. destruct (ok s); cbn; rewrite ?length_insert; done. Qed.

Lemma count_init : count_inv (init dev0 tasks).
Proof. constructor; cbn; try done; lia. Qed.

Lemma count_host st st' : host_step st st' -> count_inv st -> count_inv st'.
Proof.
  destruct 1; intros [Hp Hi Hl Hd Hdd Hf]; cbn in *;
    constructor; cbn; rewrite ?length_app, ?wake_worker_dead; cbn; try done; try lia; try (intros ?; naive_solver lia).
Qed.

Lemma count_worker st st' : worker_step st st' -> count_inv st -> count_inv st'.
Proof.
  destruct 1; intros [Hp Hi Hl Hd Hdd Hf]; cbn in *; try (pose proof (wake_host_same h) as (Et & Ec & Ef));
    try (pose proof (report_same d s m) as (El & Ei & Ela & Ed & _)); try (pose proof (take_task_dead d));
    constructor; cbn; rewrite ?Et, ?Ec, ?Ef, ?El, ?Ei, ?Ela, ?Ed; try done; try lia;
    try (by rewrite Hd; split); try (by intros E%Hf); try (by intros E).
  - intros _. assert (Hc : closed h = true) by congruence. split; [done|]. destruct h; cbn in *; try done; lia.
  - pose proof (u8_range (index_ d + 1)). word.
Qed.

Lemma count_step st st' : step st st' -> count_inv st -> count_inv st'.
Proof.
  destruct 1 as [st st' Hs|st st' Hs|h w d _|h w d _]; [by apply count_host|by apply count_worker| |];
    intros [Hp Hi Hl Hd Hdd Hf]; pose proof (wake_host_same h) as (Et & Ec & Ef); constructor; cbn in *;
    rewrite ?Et, ?Ec, ?Ef, ?wake_worker_dead; done.
Qed.

(** ** The tables are written in order, each once *)

(** What the worker has done: the first [index_] tasks, and its part of the next. *)
Definition worker_ok (w : worker) (pushed : list Task) (d : deferred) : Prop :=
  let dev := fst (flush_all dev0 (take (Z.to_nat (index_ d)) pushed)) in
  metas_ d = snd (flush_all dev0 (take (Z.to_nat (index_ d)) pushed)) /\
  match w with
  | Writing x => exists t, x = Some t /\ pushed !! Z.to_nat (index_ d) = Some t /\ device d = dev
  | Written x s m => exists t m', x = Some t /\ m = Some m' /\ pushed !! Z.to_nat (index_ d) = Some t /\
      flush dev t = (s, device d, m')
  | _ => device d = dev
  end.

Record written_upto (h : host) (w : worker) (d : deferred) (pushed : list Task) : Prop := {
  wu_tasks : tasks = pushed ++ todo_of h;
  wu_index : index_ d <= Z.of_nat (length pushed);
  wu_builds : forall i t, (Z.to_nat (index_ d) <= i)%nat -> pushed !! i = Some t -> deferred_builds_ d !! i = Some (Some t);
  wu_worker : worker_ok w pushed d
}.

Definition written_inv (st : state) : Prop := exists pushed, written_upto (fst (fst st)) (snd (fst st)) (snd st) pushed.

Lemma worker_ok_wake w pushed d : worker_ok w pushed d -> worker_ok (wake_worker w) pushed d.
Proof. by destruct w. Qed.

Lemma worker_ok_push w pushed d t :
  index_ d <= Z.of_nat (length pushed) -> worker_ok w pushed d -> worker_ok w (pushed ++ [t]) (push d t).
Proof.
  intros Hi [Hm Hw]. unfold worker_ok. cbn. rewrite take_app_le by lia. split; [done|].
  destruct w; try done; [destruct Hw as (t' & -> & Hl & Hw)|destruct Hw as (t' & m' & -> & -> & Hl & Hw)];
    repeat eexists; try done; by apply lookup_app_l_Some.
Qed.

Lemma written_push h h' w d t todo pushed :
  todo_of h = t :: todo -> todo_of h' = todo -> length (deferred_builds_ d) = length pushed ->
  written_upto h w d pushed -> written_upto h' (wake_worker w) (push d t) (pushed ++ [t]).
Proof.
  intros Eh Eh' Hlen [Ht Hi Hb Hw]. constructor.
  - by rewrite <- app_assoc, Eh', Ht, Eh.
  - cbn. rewrite length_app. lia.
  - cbn. intros i t' Hi' [Hl|[Hge Hl]]%lookup_app_Some.
    + apply lookup_app_l_Some. by apply Hb.
    + apply list_lookup_singleton_Some in Hl as [Hz ->]. replace i with (length (deferred_builds_ d)) by lia.
      by rewrite list_lookup_middle.
  - by apply worker_ok_wake, worker_ok_push.
Qed.

Lemma written_take h w d pushed :
  length (deferred_builds_ d) = length pushed -> device d = fst (flush_all dev0 (take (Z.to_nat (index_ d)) pushed)) ->
  written_upto h w d pushed -> written_upto h (take_task d) d pushed.
Proof.
  intros Hlen Hdev [Ht Hi Hb [Hm _]]. constructor; try done. split; [done|]. unfold take_task.
  destruct (pushed !! Z.to_nat (index_ d)) as [t|] eqn:El.
  - rewrite (Hb _ t) by done. by exists t.
  - apply lookup_ge_None in El. by rewrite lookup_ge_None_2 by lia.
Qed.

Lemma written_report h x s m d pushed :
  Z.of_nat (length pushed) < 256 -> 0 <= index_ d ->
  written_upto h (Written x s m) d pushed -> written_upto (wake_host h) Top (report d s m) pushed.
Proof.
  intros Hlen Hi0 [Ht Hi Hb (Hm & t & m' & -> & -> & Hl & Hw)]. apply lookup_lt_Some in Hl as Hlt.
  pose proof (report_same d s (Some m')) as (_ & Ei & _ & _ & Ed).
  rewrite u8_small in Ei by word.
  assert (En : Z.to_nat (index_ d + 1) = S (Z.to_nat (index_ d))) by lia.
  constructor.
  - by rewrite (proj1 (wake_host_same h)).
  - rewrite Ei. lia.
  - rewrite Ei, En. intros i t' Hge Hi'. rewrite <- (Hb i t') by (done || lia).
    unfold report. destruct (ok s); [|done]. cbn. apply list_lookup_insert_ne. lia.
  - unfold worker_ok. rewrite Ed, Ei, En, (take_S_r _ _ _ Hl), flush_all_app. cbn. rewrite Hw. cbn. split; [|done].
    rewrite <- Hm. unfold report. destruct (ok s); cbn; [done|]. by rewrite app_nil_r.
Qed.

(** At most 255 tasks: the index does not wrap. *)
Hypothesis Hfew : Z.of_nat (length tasks) <= 255.

Lemma written_length h w d pushed :
  count_inv (h, w, d) -> written_upto h w d pushed -> length (deferred_builds_ d) = length pushed.
Proof. intros [Hp _ _ _ _ _] [Ht _ _ _]. cbn in Hp. rewrite Ht, length_app in Hp. lia. Qed.

Lemma written_host st st' : host_step st st' -> count_inv st -> written_inv st -> written_inv st'.
Proof.
  destruct 1; intros Hc [pushed Hw]; cbn in *; pose proof (written_length _ _ _ _ Hc Hw) as Hlen;
    try (exists (pushed ++ [t]); by eapply written_push; [| | |exact Hw]); exists pushed; destruct Hw as [Ht Hi Hb Hw];
    constructor; cbn; try done; by apply worker_ok_wake.
Qed.

Lemma written_worker st st' : worker_step st st' -> count_inv st -> written_inv st -> written_inv st'.
Proof.
  destruct 1; intros Hc [pushed Hw]; cbn in *; pose proof (written_length _ _ _ _ Hc Hw) as Hlen; exists pushed; cbn.
  - destruct Hw as [Ht Hi Hb Hw]. by constructor; [rewrite (proj1 (wake_host_same h))|..].
  - by destruct Hw.
  - eapply written_take; [done| |done]. apply Hw.
  - eapply written_take; [done| |done]. apply Hw.
  - by destruct Hw as [_ _ _ (_ & t & ? & _)].
  - destruct Hw as [Ht Hi Hb (Hm & t' & [= <-] & Hl & Hdev)]. constructor; try done. split; [done|].
    cbn. rewrite <- Hdev. by exists t, m.
  - eapply written_report; [|apply Hc|done]. destruct Hw as [-> _ _ _]. rewrite length_app in Hfew. lia.
Qed.

Lemma written_step st st' : step st st' -> count_inv st -> written_inv st -> written_inv st'.
Proof.
  destruct 1 as [st st' Hs|st st' Hs|h w d _|h w d _]; [by apply written_host|by apply written_worker| |];
    intros _ [pushed [Ht Hi Hb Hw]]; exists pushed; constructor; cbn in *; try done.
  - by rewrite (proj1 (wake_host_same h)).
  - by apply worker_ok_wake.
Qed.

(** ** No lost wakeup: a thread that waits has a reason to *)

Record wait_inv (st : state) : Prop := {
  wi_full : forall t todo, fst (fst st) = WaitFull false t todo -> full (snd st) = true;
  wi_task : snd (fst st) = WaitTask false ->
    Z.of_nat (length (deferred_builds_ (snd st))) <= index_ (snd st) /\ closed (fst (fst st)) = false;
  wi_done : fst (fst st) = WaitDone false -> snd (fst st) <> Dead
}.

Lemma wake_host_waits h : (forall t todo, wake_host h <> WaitFull false t todo) /\ wake_host h <> WaitDone false.
Proof. by destruct h. Qed.

Lemma wake_worker_waits w : wake_worker w <> WaitTask false.
Proof. by destruct w. Qed.

Lemma take_task_waits d : take_task d <> WaitTask false.
Proof. unfold take_task. by case_match. Qed.

Lemma wait_host st st' : host_step st st' -> count_inv st -> wait_inv st -> wait_inv st'.
Proof.
  destruct 1; intros [_ _ _ Hd _ _] [Hf Ht Hdn]; cbn in *; try (pose proof (wake_worker_waits w)); constructor; cbn in *; try done;
    try (by intros E%Ht; destruct E).
  intros _ E%wake_worker_dead%Hd. congruence.
Qed.

Lemma wait_worker st st' : worker_step st st' -> count_inv st -> wait_inv st -> wait_inv st'.
Proof.
  destruct 1; intros [_ _ Hl _ _ _] [Hf Ht Hdn]; cbn in *; try (pose proof (wake_host_waits h) as [Hwf Hwd]);
    try (pose proof (take_task_waits d)); try (pose proof (take_task_dead d));
    constructor; cbn in *; try done; try (by intros t0 todo E; specialize (Hf _ _ E)).
  - by intros t todo E%Hwf.
  - intros _. split; [done|]. congruence.
  - by intros t' todo E%Hwf.
Qed.

Lemma wait_step st st' : step st st' -> count_inv st -> wait_inv st -> wait_inv st'.
Proof.
  destruct 1 as [st st' Hs|st st' Hs|h w d _|h w d _]; [by apply wait_host|by apply wait_worker| |];
    intros _ [Hf Ht Hdn]; cbn in *; constructor; cbn.
  - by intros t todo E%wake_host_waits.
  - by rewrite (proj1 (proj2 (wake_host_same h))).
  - by intros E%wake_host_waits.
  - done.
  - by intros E%wake_worker_waits.
  - by rewrite wake_worker_dead.
Qed.

Lemma worker_moves h w d :
  w <> WaitTask false -> w <> Dead -> w <> OutOfBounds -> exists st', step (h, w, d) st'.
Proof.
  intros H1 H2 H3. destruct w as [|[]|[t|]|t s m| |]; try done.
  - destruct (Z.le_gt_cases (Z.of_nat (length (deferred_builds_ d))) (index_ d)) as [|];
      [destruct (last_ d) eqn:El|]; eexists; apply step_worker; [by apply task_die|by apply task_wait|apply task_take; lia].
  - eexists. apply step_worker, task_woken.
  - destruct (flush (device d) t) as [[s dev] m] eqn:E. eexists. by eapply step_worker, task_flush.
  - eexists. apply step_worker, task_null.
  - eexists. apply step_worker, task_report.
Qed.

Lemma host_moves h w d :
  (w = Dead -> closed h = true) -> (done_ d = true <-> w = Dead) ->
  (forall t todo, h <> WaitFull false t todo) -> h <> WaitDone false -> h <> Finished -> h <> WaitsUnlocked ->
  exists st', step (h, w, d) st'.
Proof.
  intros Hc Hd H1 H2 H3 H4. destruct h as [[|t todo]|[] t todo|[]| | |]; try done.
  - eexists. apply step_host, close. destruct (done_ d); [|done]. by specialize (Hc (proj1 Hd eq_refl)).
  - destruct (full d) eqn:E; eexists; apply step_host; [by apply push_wait|by apply push_task].
  - destruct (full d) eqn:E; eexists; apply step_host; [by apply full_wait|by apply full_push].
  - by destruct (H1 t todo).
  - eexists. apply step_host, join_unlock.
  - destruct (done_ d) eqn:E; eexists; apply step_host; [by apply join_done|by apply join_again].
Qed.

Lemma some_thread_moves st :
  count_inv st -> wait_inv st -> ~ undefined st -> fst (fst st) <> Finished -> exists st', step st st'.
Proof.
  destruct st as [[h w] d]. intros [_ _ _ Hd Hdd Hfin] [Hf Ht Hdn] Hu Hn. unfold undefined in Hu. cbn in *.
  assert (Hw : w <> OutOfBounds /\ h <> WaitsUnlocked) by tauto. destruct Hw as [Hw Hh].
  assert (Hcase : (w = WaitTask false \/ w = Dead) \/ (w <> WaitTask false /\ w <> Dead))
    by (destruct w as [|[]| | | |]; auto).
  destruct Hcase as [Hstuck|[? ?]]; [|by apply worker_moves].
  apply host_moves; try done; [intros E; apply (Hdd E)| |].
  - intros t todo E. specialize (Hf _ _ E). destruct Hstuck as [E'|E'].
    + destruct (Ht E') as [Hle _]. unfold full in Hf. lia.
    + destruct (Hdd E') as [Hc _]. by subst h.
  - intros E. destruct Hstuck as [E'|E']; [|by apply Hdn]. destruct (Ht E') as [_ Hc]. by subst h.
Qed.

(** ** The threads come to an end *)

Definition host_left (h : host) : nat :=
  match h with
  | Pushing _ => 10 | WaitFull true _ _ => 9 | WaitFull false _ _ => 8 | WaitDone true => 3 | WaitDone false => 2
  | Unlocked => 1 | _ => 0
  end.
Definition worker_left (w : worker) : nat :=
  match w with Top | WaitTask true => 4 | Writing _ => 3 | Written _ _ _ => 2 | WaitTask false => 1 | _ => 0 end.
Definition steps_left (st : state) : nat :=
  5 * length (todo_of (fst (fst st))) + 5 * (length tasks - Z.to_nat (index_ (snd st))) +
  host_left (fst (fst st)) + worker_left (snd (fst st)).

Lemma wake_worker_left w : (worker_left (wake_worker w) <= worker_left w + 3)%nat.
Proof. destruct w as [|[]| | | |]; cbn; lia. Qed.

Lemma wake_host_left h : (host_left (wake_host h) <= host_left h + 1)%nat.
Proof. destruct h as [|[]|[]| | |]; cbn; lia. Qed.

Lemma take_task_left d : (worker_left (take_task d) <= 3)%nat.
Proof. unfold take_task. case_match; cbn; lia. Qed.

Lemma steps_left_dec st st' :
  spurious = false -> step st st' -> count_inv st -> written_inv st -> (steps_left st' < steps_left st)%nat.
Proof.
  intros Hsp Hs [_ Hi _ _ _ _] [pushed [Ht Hix _ Hw]]. destruct Hs as [st st' Hs|st st' Hs|h w d ?|h w d ?]; [| |congruence..].
  - destruct Hs; cbn in *; unfold steps_left; cbn; pose proof (wake_worker_left w); lia.
  - destruct Hs; cbn in *; unfold steps_left; cbn; rewrite ?(proj1 (wake_host_same h));
      pose proof (wake_host_left h); pose proof (take_task_left d); try lia.
    destruct Hw as (_ & t' & m' & -> & -> & Hl & _). apply lookup_lt_Some in Hl.
    pose proof (report_same d s (Some m')) as (_ & -> & _). rewrite Ht, length_app in *. rewrite u8_small by word. lia.
Qed.

Lemma run_inv n st st' :
  relations.nsteps step n st st' -> count_inv st -> written_inv st -> wait_inv st ->
  count_inv st' /\ written_inv st' /\ wait_inv st' /\ (spurious = false -> n + steps_left st' <= steps_left st)%nat.
Proof.
  induction 1 as [st|n st st1 st2 Hs _ IH]; intros Hc Hw Hwt; [by split_and!|].
  destruct IH as (? & ? & ? & Hn); [by eapply count_step|by eapply written_step|by eapply wait_step|].
  split_and!; try done. intros Hsp. specialize (Hn Hsp). pose proof (steps_left_dec _ _ Hsp Hs Hc Hw). lia.
Qed.

Lemma written_init : written_inv (init dev0 tasks).
Proof. exists []. constructor; cbn; try done. Qed.

Lemma wait_init : wait_inv (init dev0 tasks).
Proof. constructor; cbn; try done. Qed.

Lemma finished_result st :
  count_inv st -> written_inv st -> fst (fst st) = Finished -> (device (snd st), metas_ (snd st)) = flush_all dev0 tasks.
Proof.
  destruct st as [[h w] d]. intros Hc [pushed Hw] Hf. pose proof (written_length _ _ _ _ Hc Hw) as Hlen.
  destruct Hc as [Hp Hi _ _ Hdd Hfin]. cbn in *. specialize (Hfin Hf). subst h w. destruct (Hdd eq_refl) as [_ Hn].
  destruct Hw as [Ht Hix _ [Hm Hdev]]. cbn in *. rewrite app_nil_r in Ht. subst pushed.
  rewrite take_ge in Hm, Hdev by lia. rewrite Hdev, Hm. by destruct (flush_all dev0 tasks).
Qed.
End Proofs.

Lemma run_count dev tasks st : rtc step (init dev tasks) st -> count_inv tasks st.
Proof.
  intros Hr. pose proof (count_init dev tasks) as Hc. revert Hc.
  induction Hr as [st|st st1 st2 Hs _ IH]; intros Hc; [done|]. by eapply IH, count_step.
Qed.

(** ** Runs into undefined behaviour *)

(** Every pushed builder has been dealt with. *)
Definition idle (d : deferred) : Prop :=
  index_ d = Z.of_nat (length (deferred_builds_ d)) /\ last_ d = false /\ done_ d = false.

Lemma idle_full d : idle d -> full d = false.
Proof. intros [E _]. unfold full. lia. Qed.

Lemma take_pushed d t :
  index_ d = Z.of_nat (length (deferred_builds_ d)) -> take_task (push d t) = Writing (Some t).
Proof. intros E. unfold take_task. cbn. by rewrite E, Nat2Z.id, list_lookup_middle. Qed.

(** The worker writes the builder that was pushed last, and reports. *)
Lemma write_one h d t :
  index_ d = Z.of_nat (length (deferred_builds_ d)) ->
  exists s m dev, rtc step (h, Top, push d t) (wake_host h, Top, report (set_device (push d t) dev) s m).
Proof.
  intros Hid. destruct (flush (device d) t) as [[s dev] m] eqn:E. exists s, (Some m), dev.
  eapply rtc_l; [apply step_worker, task_take; cbn; rewrite length_app; cbn; lia|].
  rewrite take_pushed by done. eapply rtc_l; [by apply step_worker, (task_flush h t (push d t))|].
  eapply rtc_once, step_worker, task_report.
Qed.

Lemma report_idle d t dev s m :
  idle d -> Z.of_nat (length (deferred_builds_ d)) < 255 -> idle (report (set_device (push d t) dev) s m) /\
  length (deferred_builds_ (report (set_device (push d t) dev) s m)) = S (length (deferred_builds_ d)).
Proof.
  intros (Ei & El & Ed) Hlt. pose proof (report_same (set_device (push d t) dev) s m) as (Hl & Hi & Hla & Hd & _).
  unfold idle. rewrite Hl, Hi, Hla, Hd. cbn. rewrite length_app, u8_small by word. cbn. split_and!; (done || lia).
Qed.

(** The two threads in lockstep. *)
Lemma lockstep ts ts' d :
  idle d -> Z.of_nat (length (deferred_builds_ d)) + Z.of_nat (length ts) <= 255 ->
  exists d', rtc step (Pushing (ts ++ ts'), Top, d) (Pushing ts', Top, d') /\ idle d' /\
    length (deferred_builds_ d') = (length (deferred_builds_ d) + length ts)%nat.
Proof.
  revert d. induction ts as [|t ts IH]; intros d Hid Hlen; cbn in *; [exists d; split_and!; [done..|lia]|].
  destruct (write_one (Pushing (ts ++ ts')) d t (proj1 Hid)) as (s & m & dev & Hr).
  destruct (report_idle d t dev s m Hid) as [Hid' El]; [lia|].
  destruct (IH _ Hid') as (d' & Hr' & Hid'' & El'); [lia|]. exists d'. split_and!; [|done|lia].
  eapply rtc_l; [apply step_host, push_task, idle_full, Hid|]. by etrans.
Qed.

Lemma init_idle dev tasks : exists d, init dev tasks = (Pushing tasks, Top, d) /\ idle d /\ deferred_builds_ d = [].
Proof. by eexists. Qed.

(** ** Theorems *)


(** C33: both waits of the deferred writer go wrong for some interleaving,
    whatever the tables are and without any spurious wakeup.  A worker that waits
    for a task when the host asks it to stop goes on to read past the end of the
    vector, because it does not test the condition again; and a host that is woken
    by the end of a task, before the worker has stopped, waits again without
    holding the mutex. *)
Theorem deferred_undefined (dev : Dev) (tasks : list Task) (Hfew : Z.of_nat (length tasks) <= 255) :
  (exists h d, rtc step (init dev tasks) (h, OutOfBounds, d)) /\
  (tasks <> [] -> exists w d, rtc step (init dev tasks) (WaitsUnlocked, w, d)).
Proof.
  destruct (init_idle dev tasks) as (d0 & -> & Hid0 & El0). split.
  - destruct (lockstep tasks [] d0 Hid0) as (d & Hr & (Ei & El & Ed) & _); [rewrite El0; cbn; lia|].
    rewrite app_nil_r in Hr. exists (WaitDone false), (set_last d).
    etrans; [exact Hr|]. eapply rtc_l; [apply step_worker, task_wait; [lia|done]|].
    eapply rtc_l; [by apply step_host, close|]. cbn. eapply rtc_l; [apply step_worker, task_woken|].
    unfold take_task. cbn. by rewrite Ei, Nat2Z.id, lookup_ge_None_2 by lia.
  - intros Hne. destruct (exists_last Hne) as (ts & t & ->). rewrite length_app in Hfew. cbn in Hfew.
    destruct (lockstep ts [t] d0 Hid0) as (d & Hr & Hid & El); [rewrite El0; cbn; lia|].
    destruct (write_one (WaitDone false) (set_last d) t) as (s & m & dev' & Hw); [apply Hid|].
    eexists Top, _. etrans; [exact Hr|]. eapply rtc_l; [apply step_host, push_task, idle_full, Hid|].
    eapply rtc_l; [apply step_host, close, Hid|]. etrans; [exact Hw|]. cbn.
    eapply rtc_l; [apply step_host, join_unlock|]. eapply rtc_once, step_host, join_again.
    rewrite (proj1 (proj2 (proj2 (proj2 (report_same _ _ _))))). apply Hid.
Qed.

(** The worker's index is a byte.  With 256 tables or more it comes
    back to the first builder instead of reaching the end of the vector, so the
    worker never stops and the host never comes back from the join, whatever the
    interleaving is. *)
Theorem deferred_index_wraps (dev : Dev) (tasks : list Task) (st : state)
  (Hmany : 256 <= Z.of_nat (length tasks)) (Hrun : rtc step (init dev tasks) st) :
  fst (fst st) <> Finished.
Proof. intros Hf. apply run_count in Hrun as [_ Hi _ _ Hdd Hfin]. apply Hfin, Hdd in Hf as [_ ?]. lia. Qed.
End Deferred.

(** ** Witnesses *)

Module DeferredWitness.
(** A device that counts tables and refuses the second one. *)
Definition flush (dev : nat) (t : Z) : Status * nat * Z := (if decide (dev = 1%nat) then IOError else OK, S dev, t).

(** Both tables are dealt with, and the threads are done. *)
Definition st_end : state := (@Finished Z, @Dead Z Z, mkDeferred [None; Some 8] 2 true true [7] 2%nat).


Lemma deferred_undefined_witness :
  exists w d, rtc (step flush 4 false) (init O [7; 8; 9]) (WaitsUnlocked, w, d).
Proof. apply (deferred_undefined flush 4 false O [7; 8; 9]); [cbn; lia|done]. Defined.

Lemma deferred_index_wraps_witness :
  fst (fst (@init Z nat Z O (replicate 256 7))) <> Finished.
Proof.
  apply (deferred_index_wraps flush 4 false O (replicate 256 7)); [rewrite length_replicate; lia|apply rtc_refl].
Defined.
End DeferredWitness.
