(* ===== verification/SSTableManager.v ===== *)
(** * SSTableManager: dividing the zones between the levels

    [table/tropodb_sstable_manager.h] and [.cc], without the flush of a
    memtable and the diagnostics.  Level 0 has one circular log per concurrent
    writer, all the levels above share one fragmented log; a table is found
    through its level and metadata.  [None] is an access outside of an array, a
    violated assertion or the end of the process. *)

From S2P Require Import Prelude Coding DbFormat Config SSTable SSTableIter VersionEdit Version Szd.
From S2P Require Import VersionBuilder Manifest VersionSet PickCompaction L0SSTable LNSSTable.

(** [TropoSSTableManager], table/tropodb_sstable_manager.h:92-99: the tables of
    [sstable_level_], and the zones that each of them was given. *)
Record TropoSSTableManager (L0 LN : Type) := mkManager {
  mg_l0 : list L0;
  mg_ln : LN;
  mg_zones : list (Z * Z)
}.
Arguments mkManager {L0 LN}.
Arguments mg_l0 {L0 LN}.
Arguments mg_ln {L0 LN}.
Arguments mg_zones {L0 LN}.

(** The loop that distributes the zones of level 0. *)
Fixpoint l0_ranges (n : nat) (zone_head zone_step : Z) : list (Z * Z) * Z :=
  match n with
  | O => ([], zone_head)
  | S n =>
      let '(rs, head) := l0_ranges n (u64 (zone_head + zone_step)) zone_step in
      ((zone_head, u64 (zone_head + zone_step)) :: rs, head)
  end.

(** [TropoSSTableManager::NewTropoDBSSTableManager], table/tropodb_sstable_manager.cc:403-446:
    the zones of the logs of level 0 and, last, of the other levels. *)
Definition NewTropoDBSSTableManager (min_zone max_zone : Z) : option (list (Z * Z)) :=
  let num_zones := u64 (max_zone - min_zone) in
  if (max_zone <? min_zone) || (num_zones <? level_count * min_ss_zone_count) then None
  else
    let zone_step := if L0_zones <? min_ss_zone_count then min_ss_zone_count else L0_zones in
    let zone_step := zone_step / lower_concurrency in
    let '(rs, zone_head) := l0_ranges (Z.to_nat lower_concurrency) min_zone zone_step in
    let zone_step := u64 (max_zone - zone_head) in
    let rs := rs ++ [(zone_head, u64 (zone_head + zone_step))] in
    let zone_head := u64 (zone_head + zone_step) in
    if negb (zone_head =? max_zone) then None else Some rs.

Section Manager.
Context `{UserComparator} {L0 LN : Type} `{!CircularLog L0} `{!FragmentedLog LN}.
(** The size of a block and the blocks of a zone. *)
Context (lba_size zone_cap : Z).

Abbreviation Manager := (TropoSSTableManager L0 LN).
Implicit Types mg : Manager.

(** [TropoSSTableManager::TropoSSTableManager], table/tropodb_sstable_manager.cc:20-46:
    [ranges_] in blocks. *)
Definition block_ranges mg : list (Z * Z) :=
  map (fun '(a, b) => (u64 (a * zone_cap), u64 (b * zone_cap))) (mg_zones mg).

(** Calls of [sstable_level_[i]]: the call for a log of level 0 with its first
    and last block, and the one for the log of the other levels with its zones. *)
Definition on_table {A} mg (i : Z) (f0 : L0 -> Z -> Z -> option A) (fn : LN -> Z -> Z -> option A) : option A :=
  if i <? 0 then None
  else if i <? lower_concurrency then
    log ← mg_l0 mg !! Z.to_nat i; '(a, b) ← block_ranges mg !! Z.to_nat i; f0 log a b
  else if i =? lower_concurrency then
    '(a, b) ← mg_zones mg !! Z.to_nat i; fn (mg_ln mg) a b
  else None.

(** The table that the operations select by level. *)
Definition table_index (level : Z) (meta : SSZoneMetaData) : Z :=
  if level =? 0 then m_L0_log_number meta else lower_concurrency.

Definition set_l0 mg (i : Z) (log : L0) : Manager :=
  mkManager (<[Z.to_nat i := log]> (mg_l0 mg)) (mg_ln mg) (mg_zones mg).
Definition set_ln mg (log : LN) : Manager := mkManager (mg_l0 mg) log (mg_zones mg).

(** ** Reading *)

(** [TropoSSTableManager::Get], table/tropodb_sstable_manager.cc:57-70 *)
Definition mg_Get mg (level : Z) (key value : bytes) (meta : SSZoneMetaData) (status : EntryStatus)
    : option (Status * bytes * EntryStatus) :=
  if level_count <=? level then None
  else on_table mg (table_index level meta)
    (fun log a b => l0_Get lba_size a b log key value meta status)
    (fun log a b => ln_Get lba_size zone_cap a b log key value meta status).

(** [TropoSSTableManager::ReadSSTable], table/tropodb_sstable_manager.cc:72-81 *)
Definition mg_ReadSSTable mg (level : Z) (meta : SSZoneMetaData) : option (Status * bytes) :=
  if level_count <=? level then None
  else on_table mg (table_index level meta)
    (fun log a b => l0_ReadSSTable lba_size a b log meta)
    (fun log a b => ln_ReadSSTable lba_size zone_cap a b log meta).

(** [TropoSSTableManager::NewIterator], table/tropodb_sstable_manager.cc:90-100 *)
Definition mg_NewIterator mg (level : Z) (meta : SSZoneMetaData) : option (option SSTableIteratorCompressed) :=
  if level_count <=? level then None
  else on_table mg (table_index level meta)
    (fun log a b => l0_NewIterator lba_size a b log meta)
    (fun log a b => ln_NewIterator lba_size zone_cap a b log meta).

(** ** Recovery *)

(** The loop of [RecoverL0] from the logs that are not recovered yet. *)
Fixpoint recover_logs (logs : list L0) : Status * list L0 :=
  match logs with
  | [] => (OK, [])
  | log :: logs =>
      let '(s, log) := l0_Recover log in
      if negb (ok s) then (s, log :: logs) else let '(s, logs) := recover_logs logs in (s, log :: logs)
  end.

(** [TropoSSTableManager::RecoverL0], table/tropodb_sstable_manager.cc:102-113 *)
Definition mg_RecoverL0 mg : Status * Manager :=
  let '(s, logs) := recover_logs (mg_l0 mg) in (s, mkManager logs (mg_ln mg) (mg_zones mg)).

(** [TropoSSTableManager::RecoverLN], table/tropodb_sstable_manager.cc:115-126 *)
Definition mg_RecoverLN mg (recovery_data : bytes) : Status * Manager :=
  if decide (recovery_data = []) then (OK, mg)
  else let '(s, log) := ln_Recover (mg_ln mg) recovery_data in (s, set_ln mg log).

(** [TropoSSTableManager::Recover], table/tropodb_sstable_manager.cc:128-133 *)
Definition mg_Recover mg (recovery_data : bytes) : Status * Manager :=
  let '(s, mg) := mg_RecoverL0 mg in
  if ok s then mg_RecoverLN mg recovery_data else (s, mg).

(** [TropoSSTableManager::GetRecoveryData], table/tropodb_sstable_manager.cc:135-139 *)
Definition mg_GetRecoveryData mg : bytes := ln_Encode (mg_ln mg).

(** ** Compaction *)

(** [TropoSSTableManager::NewTropoSSTableBuilder], table/tropodb_sstable_manager.cc:141-153 *)
Definition NewTropoSSTableBuilder mg (level : Z) (meta : SSZoneMetaData) : option TropoSSTableBuilder :=
  if level_count <=? level then None
  else on_table mg (table_index level meta) (fun _ _ _ => Some (l0_NewBuilder meta)) (fun _ _ _ => Some (ln_NewBuilder meta)).

(** [WriteSSTable] of the table [sstable_level_[i]]. *)
Definition write_table mg (i : Z) (content : bytes) (meta : SSZoneMetaData) (writer : Z)
    : option (Status * Manager * SSZoneMetaData) :=
  on_table mg i
    (fun log _ _ => let '(s, log, meta) := l0_WriteSSTable log content meta in Some (s, set_l0 mg i log, meta))
    (fun log _ _ => '(s, log, meta) ← ln_WriteSSTable zone_cap log content meta writer; Some (s, set_ln mg log, meta)).

(** [TropoSSTableManager::CopySSTable], table/tropodb_sstable_manager.cc:155-182.
    [new_meta] is the object that receives the copy. *)
Definition CopySSTable mg (level1 level2 : Z) (meta new_meta : SSZoneMetaData)
    : option (Status * Manager * SSZoneMetaData) :=
  if negb (level1 =? 0) then Some (OK, mg, meta_copy meta)
  else
    '(s, original) ← mg_ReadSSTable mg level1 meta;
    if negb (ok s) || (blen original =? 0) then Some (s, mg, new_meta)
    else write_table mg level2 original (meta_copy meta) 0.

(** [(double)(total_space - space_available) / (double)total_space] *)
Definition fraction (total_space space_available : Z) : f64 :=
  f64_div (f64_of_Z (u64 (total_space - space_available))) (f64_of_Z total_space).

(** [TropoSSTableManager::GetFractionFilled], table/tropodb_sstable_manager.cc:184-201 *)
Definition mg_GetFractionFilled mg (level : Z) : option f64 :=
  if level_count <=? level then None
  else if level =? 0 then
    let space_available := foldr (fun log acc => u64 (l0_SpaceAvailable log / lba_size + acc)) 0 (mg_l0 mg) in
    let total_space := foldr (fun '(a, b) acc => u64 (b - a + acc)) 0
      (take (Z.to_nat lower_concurrency) (block_ranges mg)) in
    Some (fraction total_space space_available)
  else
    '(a, b) ← block_ranges mg !! Z.to_nat lower_concurrency;
    Some (fraction (u64 (b - a)) (ln_SpaceAvailable (mg_ln mg) / lba_size)).

(** [TropoSSTableManager::EnoughSpaceAvailable], table/tropodb_sstable_manager.cc:203-218 *)
Definition mg_EnoughSpaceAvailable mg (level : Z) (slice : bytes) : option bool :=
  if level_count <=? level then None
  else if level =? 0 then Some (forallb (fun log => l0_EnoughSpaceAvailable log slice) (mg_l0 mg))
  else Some (ln_EnoughSpaceAvailable (mg_ln mg) slice).

(** [TropoSSTableManager::SpaceRemainingInBytesL0], table/tropodb_sstable_manager.cc:281-285 *)
Definition SpaceRemainingInBytesL0 mg (parallel_number : Z) : option Z :=
  l0_SpaceAvailable <$> mg_l0 mg !! Z.to_nat parallel_number.

(** [TropoSSTableManager::SpaceRemainingL0], table/tropodb_sstable_manager.cc:287-291 *)
Definition mg_SpaceRemainingL0 mg (parallel_number : Z) : option Z :=
  b ← SpaceRemainingInBytesL0 mg parallel_number; Some (b / lba_size).

(** [TropoSSTableManager::SpaceRemainingLN], table/tropodb_sstable_manager.cc:303-309 *)
Definition mg_SpaceRemainingLN mg : Z := ln_SpaceAvailable (mg_ln mg) / lba_size.

(** ** Deletion *)

(** The loop of [DeleteL0Table] over the logs, for more than one log. *)
Fixpoint delete_l0 mg (logs : list Z) (metas remaining : list SSZoneMetaData)
    : option (Status * list SSZoneMetaData * Manager) :=
  match logs with
  | [] => Some (OK, remaining, mg)
  | i :: logs =>
      let metas_for_log := filter (fun m => m_L0_log_number m = i) metas in
      if (length metas_for_log =? 0)%nat then delete_l0 mg logs metas remaining
      else
        log ← mg_l0 mg !! Z.to_nat i;
        let '(s, r, log) := TryInvalidateSSZones zone_cap log metas_for_log in
        let mg := set_l0 mg i log in
        if negb (ok s) then Some (s, remaining ++ r, mg) else delete_l0 mg logs metas (remaining ++ r)
  end.

(** [TropoSSTableManager::DeleteL0Table], table/tropodb_sstable_manager.cc:235-268 *)
Definition DeleteL0Table mg (metas remaining : list SSZoneMetaData) : option (Status * list SSZoneMetaData * Manager) :=
  if lower_concurrency =? 1 then
    log ← mg_l0 mg !! 0%nat;
    let '(s, r, log) := TryInvalidateSSZones zone_cap log metas in Some (s, remaining ++ r, set_l0 mg 0 log)
  else delete_l0 mg (seqZ 0 lower_concurrency) metas remaining.

(** [TropoSSTableManager::DeleteLNTable], table/tropodb_sstable_manager.cc:293-301 *)
Definition DeleteLNTable mg (level : Z) (meta : SSZoneMetaData) : option (Status * Manager) :=
  if level =? 0 then Some (InvalidArgument, mg)
  else
    '(a, b) ← mg_zones mg !! Z.to_nat lower_concurrency;
    '(s, log) ← ln_InvalidateSSZone zone_cap a b (mg_ln mg) meta;
    Some (s, set_ln mg log).

(** What the version set uses of the manager. *)
#[global] Instance manager_ops : SSTableManagerOps Manager := {|
  sm_GetRecoveryData := mg_GetRecoveryData;
  sm_Recover := mg_Recover;
  sm_DeleteL0Table := DeleteL0Table;
  sm_DeleteLNTable := DeleteLNTable
|}.

(** ** The storage behind the manager *)

Context (l0_min l0_max ln_min ln_max : Z).
Context `{!CircularLogLaws L0 lba_size (l0_min * zone_cap) (l0_max * zone_cap)}.
Context `{!FragmentedLogLaws LN (zone_cap * lba_size) ln_min ln_max}.
Context (HL : 0 < lba_size) (Hzc : 0 < zone_cap) (Hl0 : 0 <= l0_min <= l0_max) (Hln : 0 <= ln_min <= ln_max).
Context (Hbig0 : l0_max * zone_cap * lba_size < 2 ^ 60) (Hbig : ln_max * zone_cap * lba_size < 2 ^ 60).

(** The manager has its two logs. *)
Definition mg_wf mg : Prop := length (mg_l0 mg) = 1%nat /\ mg_zones mg = [(l0_min, l0_max); (ln_min, ln_max)].

(** A table with the contents [d] is stored at the level. *)
Definition mg_table mg (level : Z) (m : SSZoneMetaData) (d : bytes) : Prop :=
  if level =? 0 then
    m_L0_log_number m = 0 /\
    exists log i bs pad, mg_l0 mg = [log] /\
      table_at lba_size (l0_min * zone_cap) (l0_max * zone_cap) log m i bs /\ concat bs = d ++ pad
  else exists ptrs, ln_table_at lba_size zone_cap ln_min ln_max (mg_ln mg) m ptrs d.

Lemma l0_block_ranges mg : mg_wf mg -> block_ranges mg !! 0%nat = Some (l0_min * zone_cap, l0_max * zone_cap).
Proof.
  intros [_ Hz]. unfold block_ranges. rewrite Hz. cbn.
  assert (0 <= l0_min * zone_cap <= l0_max * zone_cap) by nia.
  assert (l0_max * zone_cap <= l0_max * zone_cap * lba_size) by nia.
  rewrite !u64_small by (unfold is_u64; nia). done.
Qed.

(** What a call does at the table of a level. *)
Lemma on_table_l0 {A} mg m log (f0 : L0 -> Z -> Z -> option A) fn :
  mg_wf mg -> m_L0_log_number m = 0 -> mg_l0 mg = [log] ->
  on_table mg (table_index 0 m) f0 fn = f0 log (l0_min * zone_cap) (l0_max * zone_cap).
Proof.
  intros Hwf Hm Hl. unfold table_index, on_table. cbn [Z.eqb]. rewrite Hm, Hl. cbn [Z.ltb Z.compare lower_concurrency].
  rewrite l0_block_ranges by done. done.
Qed.

Lemma on_table_ln {A} mg level m (f0 : L0 -> Z -> Z -> option A) fn :
  mg_wf mg -> level <> 0 -> on_table mg (table_index level m) f0 fn = fn (mg_ln mg) ln_min ln_max.
Proof.
  intros [_ Hz] Hl. unfold table_index, on_table. rewrite (proj2 (Z.eqb_neq _ _)) by done. cbn. by rewrite Hz.
Qed.

Lemma mg_read mg level m d :
  mg_wf mg -> level < level_count -> mg_table mg level m d ->
  exists pad, mg_ReadSSTable mg level m = Some (OK, d ++ pad).
Proof.
  intros Hwf Hl. unfold mg_table, mg_ReadSSTable. rewrite (proj2 (Z.leb_gt _ _)) by done.
  destruct (Z.eqb_spec level 0) as [->|Hne].
  - intros (Hm & log & i & bs & pad & Hlog & Ht & E). erewrite on_table_l0 by done. exists pad. rewrite <-E.
    eapply l0_read_table; [exact HL|nia|lia|exact Ht].
  - intros (ptrs & Ht). rewrite on_table_ln by done. by eapply ln_read_table.
Qed.

(** The iterator over a table that was built from [kvs]. *)
Lemma mg_iterator mg level m kvs pad0 :
  mg_wf mg -> level < level_count -> mg_table mg level m (table_image kvs ++ pad0) -> kvs <> [] -> small_table kvs ->
  exists it pad, mg_NewIterator mg level m = Some (Some it) /\ table_it kvs pad it /\ it_status it = OK /\ Valid it = false.
Proof.
  intros Hwf Hl Ht Hne Hs. destruct (mg_read mg level m _ Hwf Hl Ht) as (pad & Hr).
  rewrite <-app_assoc in Hr.
  destruct (open_table_spec kvs (pad0 ++ pad) Hne Hs) as (it & Ho & H1 & H2 & H3). exists it, (pad0 ++ pad). split; [|done].
  unfold mg_ReadSSTable in Hr. unfold mg_NewIterator, mg_table in *. rewrite (proj2 (Z.leb_gt _ _)) in * by done.
  destruct (Z.eqb_spec level 0) as [->|Hn].
  - destruct Ht as (Hm & log & _ & _ & _ & Hlog & _). erewrite on_table_l0 by done. erewrite on_table_l0 in Hr by done.
    unfold l0_NewIterator. rewrite Hr. obind. unfold table_iterator. by rewrite Ho.
  - rewrite on_table_ln by done. rewrite on_table_ln in Hr by done. unfold ln_NewIterator. rewrite Hr. obind. unfold table_iterator. by rewrite Ho.
Qed.

(** ** Reclaiming *)

Lemma DeleteLNTable_keeps mg level m' ptrs' s mg' m ptrs d :
  mg_wf mg -> records zone_cap m' ptrs' -> regions_ok ln_min ln_max ptrs' -> region_zones ptrs ## region_zones ptrs' ->
  DeleteLNTable mg level m' = Some (s, mg') ->
  ln_table_at lba_size zone_cap ln_min ln_max (mg_ln mg) m ptrs d ->
  mg_wf mg' /\ ln_table_at lba_size zone_cap ln_min ln_max (mg_ln mg') m ptrs d.
Proof.
  intros Hwf Hr Hok Hd. unfold DeleteLNTable. destruct (level =? 0); [by intros [= <- <-]|].
  rewrite (proj2 Hwf). change ([(l0_min, l0_max); (ln_min, ln_max)] !! Z.to_nat lower_concurrency) with (Some (ln_min, ln_max)).
  obind.
  intros ([s1 l1] & Hi & [= <- <-])%bind_Some Ht. split; [done|]. cbn. by eapply ln_delete_keeps.
Qed.

Context {M : Type} `{!ManifestOps M}.
Context (comparator_name : bytes) (fresh : SSZoneMetaData).


End Manager.

(** ** The division of the zones *)

(** The manager accepts every range of at least [level_count] times [min_ss_zone_count] zones, gives the
    first [L0_zones] zones from its start to level 0 and the remainder to the other levels. *)
Lemma manager_ranges min_zone max_zone :
  0 <= min_zone -> 0 <= max_zone -> min_zone + L0_zones < 2 ^ 64 -> max_zone < 2 ^ 64 ->
  NewTropoDBSSTableManager min_zone max_zone =
  if max_zone <? min_zone + level_count * min_ss_zone_count then None
  else Some [(min_zone, min_zone + L0_zones); (min_zone + L0_zones, max_zone)].
Proof.
  unfold L0_zones. intros H0 H1 H2 H3. unfold NewTropoDBSSTableManager.
  change (level_count * min_ss_zone_count) with 30. change (Z.to_nat lower_concurrency) with 1%nat.
  change ((if L0_zones <? min_ss_zone_count then min_ss_zone_count else L0_zones) / lower_concurrency) with 100.
  destruct (Z.ltb_spec max_zone min_zone) as [Hlt|Hge]; cbn [orb].
  { by rewrite (proj2 (Z.ltb_lt _ _)) by lia. }
  rewrite (u64_small (max_zone - min_zone)) by word.
  destruct (Z.ltb_spec (max_zone - min_zone) 30), (Z.ltb_spec max_zone (min_zone + 30)); [done|lia|lia|].
  cbn [l0_ranges app]. rewrite (u64_small (min_zone + 100)) by word.
  assert (E : u64 (min_zone + 100 + u64 (max_zone - (min_zone + 100))) = max_zone).
  { unfold u64. rewrite Zplus_mod_idemp_r. rewrite Z.mod_small; lia. }
  by rewrite E, Z.eqb_refl.
Qed.

(** ** Witness: a live and a deleted table on level 1 *)

Module ManagerWitness.
Definition meta (n : Z) : SSZoneMetaData :=
  mkMeta 0 0 n 0 0 0 0 (repeat 0 8) (repeat 0 8) 1 0 (InternalKey [z2b n] 1 1) (InternalKey [z2b n] 1 1).
Definition content (n : Z) : bytes := repeat (z2b n) 20.

Definition write (log : MemFrag.t) (n : Z) : option (Status * MemFrag.t * SSZoneMetaData) :=
  ln_WriteSSTable 2 log (content n) (meta n) 0.
Definition log1 : MemFrag.t := default ∅ (snd ∘ fst <$> write ∅ 1).
Definition m1 : SSZoneMetaData := default (meta 1) (snd <$> write ∅ 1).
Definition log2 : MemFrag.t := default ∅ (snd ∘ fst <$> write log1 2).
Definition m2 : SSZoneMetaData := default (meta 2) (snd <$> write log1 2).

(** Level 0 has the first three zones of two blocks. *)
#[global] Instance l0_ops : CircularLog MemLog.t := MemLog.ops 4 0 6.
#[global] Instance l0_laws : CircularLogLaws MemLog.t 4 (0 * 2) (3 * 2) := MemLog.laws 4 0 6 ltac:(lia) ltac:(lia).

Definition mg : TropoSSTableManager MemLog.t MemFrag.t := mkManager [MemLog.mk 0 []] log2 [(0, 3); (3, 20)].
Definition version : TropoVersion :=
  mkVersion [[]; [m1]; []; []; []; []] [[]; [m2]; []; []; []; []] (0, 0).

Definition vs : TropoVersionSet (TropoManifest MemLog.t) (TropoSSTableManager MemLog.t MemFrag.t) :=
  mkVersionSet [(version, 1)] (0, f64_of_Z 0) 3 3 0 (repeat [] 6) (newManifest 64 (MemLog.mk 0 [])) mg.
Definition reclaimed : option (Status * TropoVersionSet (TropoManifest MemLog.t) (TropoSSTableManager MemLog.t MemFrag.t)) :=
  ReclaimStaleSSTablesLN (H := BytewiseComparator) (ManifestOps0 := VersionSetWitness.mf_ops)
    (SSTableManagerOps0 := manager_ops 2) VersionSetWitness.name 4
    VersionSetWitness.fresh vs.
Definition vs' : TropoVersionSet (TropoManifest MemLog.t) (TropoSSTableManager MemLog.t MemFrag.t) :=
  match reclaimed with Some (_, v) => v | None => vs end.
End ManagerWitness.

Lemma ManagerWitness_store : exists p1 p2,
  ln_store 4 2 3 20 ManagerWitness.log2
    [(ManagerWitness.m2, p2, ManagerWitness.content 2); (ManagerWitness.m1, p1, ManagerWitness.content 1)].
Proof.
  destruct (ln_store_write 4 2 3 20 ltac:(lia) ltac:(lia) ltac:(lia) ltac:(lia) (∅ : MemFrag.t) []
    (ManagerWitness.content 1) (ManagerWitness.meta 1) 0 ManagerWitness.log1 ManagerWitness.m1) as (p1 & H1).
  { reflexivity. }
  { reflexivity. }
  { constructor; constructor. }
  { vm_compute. reflexivity. }
  destruct (ln_store_write 4 2 3 20 ltac:(lia) ltac:(lia) ltac:(lia) ltac:(lia) ManagerWitness.log1 _
    (ManagerWitness.content 2) (ManagerWitness.meta 2) 0 ManagerWitness.log2 ManagerWitness.m2 eq_refl eq_refl H1) as (p2 & H2).
  { vm_compute. reflexivity. }
  by exists p1, p2.
Qed.

Lemma ManagerWitness_unreferenced l m :
  1 <= l < level_count -> unreferenced ManagerWitness.vs l m -> l = 1 /\ m = ManagerWitness.m2.
Proof.
  change level_count with 6. intros Hl [Hm _].
  assert (l = 1 \/ l = 2 \/ l = 3 \/ l = 4 \/ l = 5) as [->|[->|[->|[->| ->]]]] by lia;
    [split; [reflexivity|by apply list_elem_of_singleton in Hm]|destruct (not_elem_of_nil _ Hm)..].
Qed.

