(* ===== verification/TableCache.v ===== *)
(** * TableCache: iterators over tables, kept between lookups

    [table/tropodb_table_cache.h] and [.cc].  The cache of RocksDB keeps one
    iterator per table, under the number of the table; a lookup takes it, moves
    it and leaves it where it is.  The iterators are objects on the heap, which
    the cache holds by address and deletes when it drops an entry.  [None] is a
    read through a null or dangling pointer, or the end of the process. *)

From S2P Require Import Prelude Coding DbFormat Config SSTable SSTableIter VersionEdit Version Szd.
From S2P Require Import L0SSTable LNSSTable SSTableManager.

(** ** The cache of RocksDB ([rocksdb/cache.h]) *)

(** A handle is identified by the value that it refers to; the lists are the
    values that were passed to the deleter. *)
Class Cache (C : Type) := {
  cache_Lookup : C -> bytes -> option Z * C;
  cache_Insert : C -> bytes -> Z -> Status * C * list Z;
  cache_Release : C -> Z -> C * list Z;
  cache_Erase : C -> bytes -> C * list Z
}.

Class CacheLaws (C : Type) `{!Cache C} := {
  (** a lookup of the key can return the value *)
  cache_has : C -> bytes -> Z -> Prop;
  cache_lookup_ok : forall c k r c', cache_Lookup c k = (r, c') ->
    (forall a, r = Some a -> cache_has c k a) /\ forall k' a, cache_has c' k' a -> cache_has c k' a;
  (** without a strict capacity limit every insertion succeeds, and the handle
      protects the new entry *)
  cache_insert_ok : forall c k a s c' dead, cache_Insert c k a = (s, c', dead) ->
    s = OK /\ a ∉ dead /\
    forall k' a', cache_has c' k' a' -> a' ∉ dead /\ ((k' = k /\ a' = a) \/ cache_has c k' a');
  cache_release_ok : forall c a c' dead, cache_Release c a = (c', dead) ->
    forall k' a', cache_has c' k' a' -> a' ∉ dead /\ cache_has c k' a';
  cache_erase_ok : forall c k c' dead, cache_Erase c k = (c', dead) ->
    forall k' a', cache_has c' k' a' -> a' ∉ dead /\ cache_has c k' a' /\ k' <> k
}.

(** [TropoTableCache], table/tropodb_table_cache.h:43-46, with the heap of the
    [LockedIterator]s; an iterator is [None] when the table could not be read. *)
Record TropoTableCache (C Mg : Type) := mkTableCache {
  tcs_cache : C;
  tcs_heap : gmap Z (option SSTableIteratorCompressed);
  tcs_next : Z;
  tcs_ssmanager : Mg
}.
Arguments mkTableCache {C Mg}.
Arguments tcs_cache {C Mg}.
Arguments tcs_heap {C Mg}.
Arguments tcs_next {C Mg}.
Arguments tcs_ssmanager {C Mg}.

Section TableCache.
Context `{UserComparator} {L0 LN C : Type} `{!CircularLog L0} `{!FragmentedLog LN} `{!Cache C}.
Context (lba_size zone_cap : Z).
(** What the caller's variable for the status of the entry holds. *)
Context (status : EntryStatus).

Abbreviation TC := (TropoTableCache C (TropoSSTableManager L0 LN)).
Implicit Types st : TC.

(** [DeleteEntry], table/tropodb_table_cache.cc:23-27, for each of the values. *)
Definition DeleteEntries (heap : gmap Z (option SSTableIteratorCompressed)) (dead : list Z)
    : gmap Z (option SSTableIteratorCompressed) :=
  foldr delete heap dead.

(** The key of a table in the cache. *)
Definition cache_key (number : Z) : bytes := EncodeFixed64 number.

(** [TropoTableCache::FindSSZone], table/tropodb_table_cache.cc:47-63 *)
Definition FindSSZone st (meta : SSZoneMetaData) (level : Z) : option (Status * Z * TC) :=
  let key := cache_key (m_number meta) in
  let '(handle, c) := cache_Lookup (tcs_cache st) key in
  match handle with
  | Some a => Some (OK, a, mkTableCache c (tcs_heap st) (tcs_next st) (tcs_ssmanager st))
  | None =>
      it ← mg_NewIterator lba_size zone_cap (tcs_ssmanager st) level meta;
      let lit := tcs_next st in
      let heap := <[lit := it]> (tcs_heap st) in
      let '(s, c, dead) := cache_Insert c key lit in
      Some (s, lit, mkTableCache c (DeleteEntries heap dead) (lit + 1) (tcs_ssmanager st))
  end.

(** [TropoTableCache::Get], table/tropodb_table_cache.cc:85-119 *)
Definition tc_get st (meta : SSZoneMetaData) (level : Z) (key value : bytes) : option (TC * Status * bytes * EntryStatus) :=
  '(s, handle, st) ← FindSSZone st meta level;
  if ok s then
    it ← tcs_heap st !! handle; it ← it;
    it ← Seek it key;
    '(value, es) ←
      (if Valid it then
         match ParseInternalKey (it_key it) with
         | None => Some (value, notfound)
         | Some p => if pik_type p =? kTypeDeletion then Some ([], deleted) else v ← it_value_bytes it; Some (v, found)
         end
       else Some (value, notfound));
    let heap := <[handle := Some it]> (tcs_heap st) in
    let '(c, dead) := cache_Release (tcs_cache st) handle in
    Some (mkTableCache c (DeleteEntries heap dead) (tcs_next st) (tcs_ssmanager st), s, value, es)
  else Some (st, s, value, status).

(** [TropoTableCache::Evict], table/tropodb_table_cache.cc:121-125 *)
Definition Evict st (ss_number : Z) : TC :=
  let '(c, dead) := cache_Erase (tcs_cache st) (cache_key ss_number) in
  mkTableCache c (DeleteEntries (tcs_heap st) dead) (tcs_next st) (tcs_ssmanager st).

#[global] Instance table_cache_ops : TableCache TC := tc_get.

(** ** The cached iterators *)

Context `{!CacheLaws C}.
Context (l0_min l0_max ln_min ln_max : Z).
Context `{!CircularLogLaws L0 lba_size (l0_min * zone_cap) (l0_max * zone_cap)}.
Context `{!FragmentedLogLaws LN (zone_cap * lba_size) ln_min ln_max}.
Context (HL : 0 < lba_size) (Hzc : 0 < zone_cap) (Hl0 : 0 <= l0_min <= l0_max) (Hln : 0 <= ln_min <= ln_max).
Context (Hbig0 : l0_max * zone_cap * lba_size < 2 ^ 60) (Hbig : ln_max * zone_cap * lba_size < 2 ^ 60).

(** The entries of the table with a number: the version set gives every number
    to one table. *)
Context (contents : Z -> list KV).

Definition readable_kvs (kvs : list KV) : Prop := kvs <> [] /\ small_table kvs /\ StronglySorted kv_lt kvs.

(** An iterator that [Seek] can start from: it is invalid, or on the first entry
    of its user key. *)
Definition iter_ok (kvs : list KV) (it : SSTableIteratorCompressed) : Prop :=
  exists pad, pos_end kvs pad it \/
    exists i kv, pos_at kvs pad it i /\ kvs !! i = Some kv /\ all_before kvs (ukey kv) i.

(** Every cached iterator is one over the table with its number. *)
Record cache_inv st : Prop := {
  ci_wf : mg_wf l0_min l0_max ln_min ln_max (tcs_ssmanager st);
  ci_next : forall k a, cache_has (tcs_cache st) k a -> a < tcs_next st;
  ci_key : forall k k' a, cache_has (tcs_cache st) k a -> cache_has (tcs_cache st) k' a -> k = k';
  ci_iters : forall n a, is_u64 n -> cache_has (tcs_cache st) (cache_key n) a ->
    readable_kvs (contents n) /\ exists it, tcs_heap st !! a = Some (Some it) /\ iter_ok (contents n) it
}.

(** The table is stored at the level and its entries are the ones of its number. *)
Definition cached_table st (level : Z) (m : SSZoneMetaData) (kvs : list KV) : Prop :=
  kvs = contents (m_number m) /\ is_u64 (m_number m) /\ readable_kvs kvs /\ level < level_count /\
  exists pad, mg_table lba_size zone_cap l0_min l0_max ln_min ln_max (tcs_ssmanager st) level m (table_image kvs ++ pad).

Lemma readable_sorted kvs i j a b :
  readable_kvs kvs -> (i < j)%nat -> kvs !! i = Some a -> kvs !! j = Some b -> cle Compare (ukey a) (ukey b).
Proof.
  intros (_ & _ & Hs) Hij Ha Hb. assert (Hlt : kv_lt a b) by (by eapply (StronglySorted_lookup kv_lt)).
  apply InternalCompare_ukey. by apply kv_lt_le in Hlt.
Qed.

Lemma DeleteEntries_lookup heap dead a : a ∉ dead -> DeleteEntries heap dead !! a = heap !! a.
Proof.
  intros Hn. unfold DeleteEntries. induction dead as [|d dead IH]; [done|]. cbn.
  rewrite lookup_delete_ne by set_solver. apply IH. set_solver.
Qed.

Lemma cache_key_inj n n' : is_u64 n -> is_u64 n' -> cache_key n = cache_key n' -> n = n'.
Proof.
  intros Hn Hn' E. pose proof (DecodeFixed64_at [] [] n 0 Hn ltac:(done)) as H1.
  pose proof (DecodeFixed64_at [] [] n' 0 Hn' ltac:(done)) as H2. unfold cache_key in E. rewrite E in H1. congruence.
Qed.

Lemma table_lookup_at kvs t i kv :
  kvs !! i = Some kv -> ukey kv = t -> all_before kvs t i -> table_lookup kvs t = Some kv.
Proof.
  intros Hi Hu Hb. unfold table_lookup.
  assert (list_find (fun kv => ukey kv = t) kvs = Some (i, kv)) as ->; [|done].
  apply list_find_Some. split_and!; [done|done|]. intros j a Hj Hlt E. specialize (Hb j a Hlt Hj).
  rewrite E in Hb. by apply (clt_irrefl Compare) in Hb.
Qed.

(** A seek from wherever the last lookup left the iterator. *)
Lemma Seek_cached kvs it key :
  readable_kvs kvs -> iter_ok kvs it ->
  exists it', Seek it key = Some it' /\ iter_ok kvs it' /\
    match table_lookup kvs (ExtractUserKey key) with
    | None => Valid it' = false
    | Some kv => Valid it' = true /\ it_key it' = fst kv /\ it_value_bytes it' = Some (snd kv)
    end.
Proof.
  intros Hr (pad & Hi). pose proof Hr as (Hne & Hs & _).
  destruct (Seek_spec kvs pad Hne Hs (fun i j a b => readable_sorted kvs i j a b Hr) it key) as (it' & E & Hso).
  { destruct Hi as [?|(i & kv & ? & _)]; [by left|right; by exists i]. }
  exists it'. split; [done|]. destruct Hso as [[(i & kv & Ha & Hkv & Hu & Hb)|[Hend Hno]]|(-> & Hv & Hu)].
  - split; [exists pad; right; exists i, kv; by rewrite Hu|]. rewrite (table_lookup_at kvs _ i kv) by done.
    split; [by eapply (pos_at_valid kvs pad)|]. by apply (pos_at_value kvs pad) with i.
  - split; [by exists pad; left|]. destruct (table_lookup kvs _) as [kv|] eqn:El; [|apply Hend].
    apply fmap_Some in El as ([i kv0] & Hf & ->). apply list_find_Some in Hf as (Hi' & Hu & _).
    exfalso. apply (Hno kv0); [by eapply list_elem_of_lookup_2|done].
  - split; [by exists pad|]. destruct Hi as [(_ & _ & ?)|(i & kv & Ha & Hkv & Hb)]; [congruence|].
    destruct (pos_at_value kvs pad _ _ _ Ha Hkv) as [Hk Hval].
    assert (Hu' : ukey kv = ExtractUserKey key) by (unfold ukey; by rewrite <-Hk).
    rewrite (table_lookup_at kvs _ i kv) by (done || by rewrite <-Hu'). done.
Qed.

(** Finding a table gives an iterator over its entries. *)
Lemma FindSSZone_ok st m level kvs :
  cache_inv st -> cached_table st level m kvs ->
  exists a it st', FindSSZone st m level = Some (OK, a, st') /\ cache_inv st' /\
    tcs_ssmanager st' = tcs_ssmanager st /\ tcs_heap st' !! a = Some (Some it) /\ iter_ok kvs it /\
    forall k, cache_has (tcs_cache st') k a -> k = cache_key (m_number m).
Proof.
  intros [Hwf Hn Hkey Hit] (-> & Hu & Hr & Hlev & pad & Ht). unfold FindSSZone.
  destruct (cache_Lookup (tcs_cache st) (cache_key (m_number m))) as [r c] eqn:El.
  destruct (cache_lookup_ok _ _ _ _ El) as [Hsome Hkeep]. destruct r as [a|].
  - specialize (Hsome a eq_refl). destruct (Hit _ _ Hu Hsome) as (_ & it & Hh & Hok). eexists a, it, _. split; [done|].
    split_and!; cbn; [|done|done|done|intros k Hk; eauto]. constructor; cbn; eauto.
  - destruct (mg_iterator lba_size zone_cap l0_min l0_max ln_min ln_max HL Hzc Hl0 Hln Hbig0 Hbig _ _ _ _ _ Hwf Hlev Ht
      (proj1 Hr) (proj1 (proj2 Hr))) as (it & pad' & -> & Hend). obind.
    destruct (cache_Insert c _ _) as [[s c'] dead] eqn:Ei. destruct (cache_insert_ok _ _ _ _ _ _ Ei) as (-> & Ha & Hnew).
    assert (Hok : iter_ok (contents (m_number m)) it) by (exists pad'; by left).
    assert (Hold : forall k a, cache_has c' k a -> (k = cache_key (m_number m) /\ a = tcs_next st) \/
      (cache_has (tcs_cache st) k a /\ a < tcs_next st)).
    { intros k a Hk. destruct (Hnew k a Hk) as [_ [?|Hc%Hkeep]]; [by left|right; eauto]. }
    eexists _, it, _. split; [done|]. cbn.
    split_and!; [|done|by rewrite DeleteEntries_lookup, lookup_insert_eq by done|done|].
    2: { intros k [[-> _]|[_ ?]]%Hold; [done|lia]. }
    constructor; cbn; [done| | |].
    + intros k a [[_ ->]|[_ ?]]%Hold; lia.
    + intros k k' a [[-> ->]|[? ?]]%Hold [[-> E]|[? ?]]%Hold; [done|lia|lia|eauto].
    + intros n a Hnu Hk. destruct (Hnew _ a Hk) as [Hd _]. rewrite DeleteEntries_lookup by done.
      apply Hold in Hk as [[Ek ->]|[Hk Hlt]].
      * apply cache_key_inj in Ek as ->; [|done|done]. split; [done|]. exists it. by rewrite lookup_insert_eq.
      * rewrite lookup_insert_ne by lia. eauto.
Qed.

(** Leaving the iterator at another place and releasing the handle. *)
Lemma release_inv st a number it c dead :
  cache_inv st -> is_u64 number -> readable_kvs (contents number) -> (forall k, cache_has (tcs_cache st) k a -> k = cache_key number) ->
  iter_ok (contents number) it -> cache_Release (tcs_cache st) a = (c, dead) ->
  cache_inv (mkTableCache c (DeleteEntries (<[a := Some it]> (tcs_heap st)) dead) (tcs_next st) (tcs_ssmanager st)).
Proof.
  intros [Hwf Hn Hkey Hit] Hu Hr Ha Hok Er. pose proof (cache_release_ok _ _ _ _ Er) as Hrel.
  assert (Hold : forall k b, cache_has c k b -> cache_has (tcs_cache st) k b) by (intros k b Hb; by apply Hrel in Hb as [_ ?]).
  constructor; cbn; [done|eauto..|].
  intros n b Hnu Hb. destruct (Hrel _ _ Hb) as [Hd Hb']. rewrite DeleteEntries_lookup by done.
  destruct (decide (a = b)) as [<-|Hne]; [|rewrite lookup_insert_ne by done; eauto].
  apply Ha, cache_key_inj in Hb' as ->; [|done|done]. split; [done|]. exists it. by rewrite lookup_insert_eq.
Qed.

(** The table cache keeps its promise to the version. *)
Lemma tc_get_ok st m level kvs key value :
  cache_inv st -> cached_table st level m kvs ->
  exists st', cache_inv st' /\ tcs_ssmanager st' = tcs_ssmanager st /\
    tc_get st m level key value =
    Some (st', OK, fst (entry_answer (table_lookup kvs (ExtractUserKey key)) value),
      snd (entry_answer (table_lookup kvs (ExtractUserKey key)) value)).
Proof.
  intros Hinv Ht. destruct (FindSSZone_ok st m level kvs Hinv Ht) as (a & it & st1 & E & Hinv1 & Hmg & Hh & Hok & Hk).
  pose proof Ht as (Hc & Hu & Hr & _). destruct (Seek_cached kvs it key Hr Hok) as (it' & Es & Hok' & Hans).
  unfold tc_get. rewrite E. obind. cbn [ok]. rewrite Hh. obind. rewrite Es. obind.
  destruct (cache_Release (tcs_cache st1) a) as [c dead] eqn:Er. rewrite Hc in Hok'.
  pose proof (release_inv st1 a (m_number m) it' c dead Hinv1 Hu ltac:(by rewrite <-Hc) Hk Hok' Er) as Hinv2.
  eexists. split; [exact Hinv2|]. split; [exact Hmg|].
  destruct (table_lookup kvs (ExtractUserKey key)) as [[k v]|]; [|by rewrite Hans].
  destruct Hans as (-> & Hkey & Hval). cbn in Hkey, Hval. rewrite Hkey. cbn [entry_answer].
  destruct (ParseInternalKey k) as [p|]; [|done]. destruct (pik_type p =? kTypeDeletion); [done|]. by rewrite Hval.
Qed.

#[global] Instance table_cache_laws : TableCacheLaws TC.
Proof.
  refine {| tc_inv := cache_inv; tc_table := cached_table |}.
  intros st m level kvs key value Hinv Ht. destruct (tc_get_ok st m level kvs key value Hinv Ht) as (st' & H1 & H2 & H3).
  exists st'. split_and!; [done| |done]. intros l m' k. unfold cached_table. by rewrite H2.
Defined.

(** Evicting a table keeps the cached iterators of the others. *)
Lemma Evict_inv st n : cache_inv st -> cache_inv (Evict st n).
Proof.
  intros [Hwf Hn Hkey Hit]. unfold Evict. destruct (cache_Erase _ _) as [c dead] eqn:E.
  pose proof (cache_erase_ok _ _ _ _ E) as He.
  assert (Hold : forall k a, cache_has c k a -> cache_has (tcs_cache st) k a) by (intros k a Ha; by apply He in Ha as (_ & ? & _)).
  constructor; cbn; [done|eauto..|].
  intros m a Hm Ha. destruct (He _ _ Ha) as (Hd & Ha' & _). rewrite DeleteEntries_lookup by done. eauto.
Qed.

(** A sequence of lookups in the version, with the caller's [value] each time. *)
Fixpoint lookups st (v : TropoVersion) (us : list (bytes * Z)) (value : bytes) : option (TC * list (Status * bytes)) :=
  match us with
  | [] => Some (st, [])
  | (u, s) :: us =>
      '(st, r, x) ← Get st v (newLookupKey u s) value;
      '(st, rs) ← lookups st v us value;
      Some (st, (r, x) :: rs)
  end.

(** What a lookup of the user key [u] has to answer. *)
Definition right_answer (v : TropoVersion) (kvs : Z -> SSZoneMetaData -> list KV) (value u : bytes) (r : Status * bytes) : Prop :=
  (exists kv, newest v kvs u kv /\ r = key_answer kv) \/
  ((forall l m kv, 0 <= l < level_count -> m ∈ level_tables (v_ss v) l -> kv ∈ kvs l m -> ukey kv <> u) /\
   r = (NotFound, value)).

(** C2: reads are right down to the device.  Let the tables of a well
    formed version be stored in the logs of their levels; then every sequence of
    lookups, from a cold cache or from one that earlier lookups have filled, with
    whatever entries the cache drops in between, answers each key with its newest
    entry in the version: the version searches its levels, the table cache finds
    or opens the iterators, and these decode the bytes that the logs return. *)
Theorem lookups_newest v kvs st us value :
  version_ok v kvs -> cache_inv st ->
  (forall l m, 0 <= l < level_count -> m ∈ level_tables (v_ss v) l -> cached_table st l m (kvs l m)) ->
  exists st' rs, lookups st v us value = Some (st', rs) /\ cache_inv st' /\
    Forall2 (fun us r => right_answer v kvs value (fst us) r) us rs.
Proof.
  intros Hv. revert st. induction us as [|[u s] us IH]; intros st Hinv Ht; cbn [lookups].
  { exists st, []. split_and!; [done|done|constructor]. }
  destruct (Get_newest (TableCacheLaws0 := table_cache_laws) v kvs st u s value Hv Hinv Ht) as (st1 & Hinv1 & Hkeep & Hans).
  destruct (IH st1 Hinv1) as (st' & rs & E & Hinv' & Hrs).
  { intros l m Hl Hm. by apply Hkeep, Ht. }
  exists st'. destruct Hans as [(kv & Hn & ->)|[Hn ->]]; obind; rewrite E; obind; eexists; (split; [done|]); (split; [done|]);
    (constructor; [|done]); [left|by right].
  exists kv. split; [done|]. by destruct (key_answer kv).
Qed.

End TableCache.

(** ** Witness: a cache of two iterators over three tables *)

(** A cache that drops the oldest entries. *)
Module MemCache.
Definition t : Type := list (bytes * Z).
Definition has (c : t) (k : bytes) (a : Z) : Prop := (k, a) ∈ c.

Definition find (c : t) (k : bytes) : option Z := snd ∘ snd <$> list_find (fun e => fst e = k) c.
(** The values of [c] that [c'] does not have any more. *)
Definition dropped (c c' : t) : list Z := filter (fun a => a ∉ map snd c') (map snd c).

#[global] Instance ops (capacity : nat) : Cache t := {|
  cache_Lookup c k := (find c k, c);
  cache_Insert c k a := let c' := take (S capacity) ((k, a) :: c) in (OK, c', dropped c c');
  cache_Release c a := (c, []);
  cache_Erase c k := let c' := filter (fun e => fst e <> k) c in (c', dropped c c')
|}.

Lemma dropped_not c c' k a : (k, a) ∈ c' -> a ∉ dropped c c'.
Proof.
  unfold dropped. rewrite list_elem_of_filter. intros Hin [Hn _]. apply Hn. apply list_elem_of_fmap. by exists (k, a).
Qed.

#[global] Instance laws capacity : CacheLaws t (Cache0 := ops capacity).
Proof.
  refine (@Build_CacheLaws t (ops capacity) has _ _ _ _); unfold has; cbn -[take].
  - intros c k r c' [= <- <-]. split; [|done]. unfold find.
    intros a ([i [k' b]] & Hf & ->)%fmap_Some. apply list_find_Some in Hf as (Hi & Hk & _).
    cbn in *. subst. by eapply list_elem_of_lookup_2.
  - intros c k a s c' dead [= <- <- <-]. split; [done|]. split.
    + apply (dropped_not _ _ k). cbn. left.
    + intros k' a' Hin. split; [by eapply dropped_not|].
      apply elem_of_cons in Hin as [[= -> ->]|Hin]; [by left|right]. eapply elem_of_sublist; [exact Hin|apply sublist_take].
  - intros c a c' dead [= <- <-] k' a' Hin. split; [apply not_elem_of_nil|done].
  - intros c k c' dead [= <- <-] k' a' Hin. split; [by eapply dropped_not|].
    apply list_elem_of_filter in Hin as [? ?]. done.
Defined.
End MemCache.

(** The tables of [VersionWitness] on blocks of 16 bytes and zones of four. *)
Module CacheWitness.
#[global] Instance l0_ops : CircularLog MemLog.t := MemLog.ops 16 0 32.
#[global] Instance l0_laws : CircularLogLaws MemLog.t 16 (0 * 4) (8 * 4) := MemLog.laws 16 0 32 ltac:(lia) ltac:(lia).
#[global] Instance ln_ops : FragmentedLog MemFrag.t := MemFrag.ops 64 8 20.
#[global] Instance ln_laws : FragmentedLogLaws MemFrag.t (4 * 16) 8 20 := MemFrag.laws 64 8 20 ltac:(lia).

Definition contents (n : Z) : list KV := default [] (snd <$> list_find (fun e => fst e = n) VersionWitness.tables ≫= fun r => Some (snd r)).
Definition image (n : Z) : bytes := table_image (contents n).
Definition meta (m : SSZoneMetaData) : SSZoneMetaData :=
  mkMeta 0 0 (m_number m) 0 0 (m_L0_number m) 0 (repeat 0 8) (repeat 0 8) 2 0 (m_smallest m) (m_largest m).

Definition write1 : Status * MemLog.t * SSZoneMetaData := l0_WriteSSTable (MemLog.mk 0 []) (image 1) (meta VersionWitness.m1).
Definition log1 : MemLog.t := snd (fst write1).
Definition m1 : SSZoneMetaData := snd write1.
Definition write2 : Status * MemLog.t * SSZoneMetaData := l0_WriteSSTable log1 (image 2) (meta VersionWitness.m2).
Definition log2 : MemLog.t := snd (fst write2).
Definition m2 : SSZoneMetaData := snd write2.
Definition write3 : option (Status * MemFrag.t * SSZoneMetaData) := ln_WriteSSTable 4 ∅ (image 3) (meta VersionWitness.m3) 0.
Definition log3 : MemFrag.t := default ∅ (snd ∘ fst <$> write3).
Definition m3 : SSZoneMetaData := default (meta VersionWitness.m3) (snd <$> write3).

Definition v : TropoVersion := mkVersion [[m1; m2]; [m3]; []; []; []; []] [[]; []; []; []; []; []] (0, 0).
Definition kvs (l : Z) (m : SSZoneMetaData) : list KV := contents (m_number m).

Definition st : TropoTableCache MemCache.t (TropoSSTableManager MemLog.t MemFrag.t) :=
  mkTableCache [] ∅ 0 (mkManager [log2] log3 [(0, 8); (8, 20)]).
#[global] Instance cache_ops : Cache MemCache.t := MemCache.ops 1.
#[global] Instance cache_laws : CacheLaws MemCache.t := MemCache.laws 1.
End CacheWitness.

Lemma CacheWitness_l0 m :
  m = CacheWitness.m1 \/ m = CacheWitness.m2 -> exists i bs pad,
    table_at 16 0 32 CacheWitness.log2 m i bs /\ concat bs = CacheWitness.image (m_number m) ++ pad.
Proof.
  destruct (l0_write_table 16 0 32 (MemLog.mk 0 []) (CacheWitness.image 1) (CacheWitness.meta VersionWitness.m1)
    CacheWitness.log1 CacheWitness.m1) as (bs1 & pad1 & H1 & E1 & _); [discriminate|vm_compute; reflexivity|].
  destruct (l0_write_table 16 0 32 CacheWitness.log1 (CacheWitness.image 2) (CacheWitness.meta VersionWitness.m2)
    CacheWitness.log2 CacheWitness.m2) as (bs2 & pad2 & H2 & E2 & _ & _ & Hk); [discriminate|vm_compute; reflexivity|].
  intros [-> | ->]; [exists 0, bs1, pad1|eexists _, bs2, pad2]; split; [by apply Hk|exact E1|exact H2|exact E2].
Qed.

Lemma CacheWitness_ln : exists ptrs,
  ln_table_at 16 4 8 20 CacheWitness.log3 CacheWitness.m3 ptrs (CacheWitness.image 3).
Proof.
  destruct (ln_store_write 16 4 8 20 ltac:(lia) ltac:(lia) ltac:(lia) ltac:(lia) (∅ : MemFrag.t) []
    (CacheWitness.image 3) (CacheWitness.meta VersionWitness.m3) 0 CacheWitness.log3 CacheWitness.m3 eq_refl eq_refl)
    as (ptrs & [Hs _]); [constructor; constructor|vm_compute; reflexivity|].
  exists ptrs. by apply Forall_cons in Hs as [? _].
Qed.

Lemma CacheWitness_readable n : n = 1 \/ n = 2 \/ n = 3 -> readable_kvs (H := BytewiseComparator) (CacheWitness.contents n).
Proof.
  intros [->|[->| ->]]; (split; [discriminate|]); (split; [|unfold kv_lt; apply (bool_decide_unpack _); by vm_compute]);
    (split; [repeat constructor|split; reflexivity]).
Qed.

Lemma CacheWitness_tables l m :
  0 <= l < level_count -> m ∈ level_tables (v_ss CacheWitness.v) l ->
  cached_table (H := BytewiseComparator) 16 4 0 8 8 20 CacheWitness.contents CacheWitness.st l m (CacheWitness.kvs l m).
Proof.
  change level_count with 6. intros Hl Hm.
  assert ((l = 0 /\ (m = CacheWitness.m1 \/ m = CacheWitness.m2)) \/ (l = 1 /\ m = CacheWitness.m3)) as Hc.
  { assert (l = 0 \/ l = 1 \/ l = 2 \/ l = 3 \/ l = 4 \/ l = 5) as [->|[->|[->|[->|[->| ->]]]]] by lia;
      [left|right|destruct (not_elem_of_nil _ Hm)..]; (split; [reflexivity|]).
    - change (m ∈ [CacheWitness.m1; CacheWitness.m2]) in Hm. apply elem_of_cons in Hm as [?|Hm%list_elem_of_singleton]; auto.
    - by apply list_elem_of_singleton in Hm. }
  split; [reflexivity|]. destruct Hc as [[-> Hm']|[-> ->]].
  - assert (Hn : m_number m = 1 \/ m_number m = 2) by (destruct Hm' as [-> | ->]; [left|right]; reflexivity).
    split_and!; [destruct Hn as [-> | ->]; done..|apply CacheWitness_readable; tauto|done|].
    exists []. rewrite app_nil_r. split; [by destruct Hm' as [-> | ->]|].
    destruct (CacheWitness_l0 m Hm') as (i & bs & pad & Ht & E). exists CacheWitness.log2, i, bs, pad. done.
  - split_and!; [done..|apply CacheWitness_readable; tauto|done|].
    exists []. rewrite app_nil_r. exact CacheWitness_ln.
Qed.

Lemma lookups_newest_witness : exists st' rs,
  lookups (H := BytewiseComparator) 16 4 notfound CacheWitness.st CacheWitness.v
    [(VersionWitness.key 3, 20); (VersionWitness.key 4, 20); (VersionWitness.key 1, 20); (VersionWitness.key 3, 20)] [] =
  Some (st', rs) /\ Forall2 (fun us r => right_answer (H := BytewiseComparator) CacheWitness.v CacheWitness.kvs [] (fst us) r)
    [(VersionWitness.key 3, 20); (VersionWitness.key 4, 20); (VersionWitness.key 1, 20); (VersionWitness.key 3, 20)] rs.
Proof.
  destruct (lookups_newest (H := BytewiseComparator) 16 4 notfound 0 8 8 20 ltac:(lia) ltac:(lia) ltac:(lia) ltac:(lia)
    ltac:(lia) ltac:(lia) CacheWitness.contents CacheWitness.v CacheWitness.kvs CacheWitness.st
    [(VersionWitness.key 3, 20); (VersionWitness.key 4, 20); (VersionWitness.key 1, 20); (VersionWitness.key 3, 20)] [])
    as (st' & rs & H1 & _ & H2).
  - apply version_check_sound, (bool_decide_unpack _). by vm_compute.
  - constructor; [split; reflexivity|intros k a Hk|intros k k' a Hk|intros n a _ Hk]; destruct (not_elem_of_nil _ Hk).
  - exact CacheWitness_tables.
  - exists st', rs. split; [exact H1|exact H2].
Defined.
