(* ===== verification/Iterators.v ===== *)
(** * Iterators: the merging iterator

    [table/iterators/iterator_wrapper.h] and [merging_iterator.cc].  An
    iterator is a value with the operations of the interface [Iterator] of
    RocksDB; [None] is a violated assertion or whatever the wrapped iterator
    fails with. *)

From S2P Require Import Prelude Coding DbFormat Config SSTable SSTableIter Version.

(** ** The interface *)

Class Iterator (I : Type) := {
  i_Valid : I -> bool;
  i_key : I -> bytes;
  i_value : I -> option bytes;
  i_status : I -> Status;
  i_SeekToFirst : I -> option I;
  i_SeekToLast : I -> option I;
  i_Seek : I -> bytes -> option I;
  i_Next : I -> option I;
  i_Prev : I -> option I
}.

(** What a forward scan relies on: [fi_over it kvs] before the first seek,
    [fi_rest it kvs] for an iterator whose current entry is the first of [kvs]. *)
Class ForwardIterator (I : Type) `{!Iterator I} := {
  fi_over : I -> list KV -> Prop;
  fi_rest : I -> list KV -> Prop;
  fi_first : forall i kvs, fi_over i kvs -> exists i', i_SeekToFirst i = Some i' /\ fi_rest i' kvs;
  fi_valid : forall i kvs, fi_rest i kvs -> i_Valid i = match kvs with [] => false | _ => true end;
  fi_head : forall i kv kvs, fi_rest i (kv :: kvs) -> i_key i = fst kv /\ i_value i = Some (snd kv);
  fi_next : forall i kv kvs, fi_rest i (kv :: kvs) -> exists i', i_Next i = Some i' /\ fi_rest i' kvs
}.

(** The iterator over one table. *)
#[global] Instance table_iterator_ops `{UserComparator} : Iterator SSTableIteratorCompressed := {|
  i_Valid := Valid;
  i_key := it_key;
  i_value := it_value_bytes;
  i_status := it_status;
  i_SeekToFirst := SeekToFirst;
  i_SeekToLast := SeekToLast;
  i_Seek := Seek;
  i_Next := Next;
  i_Prev := Prev
|}.

Definition table_over (it : SSTableIteratorCompressed) (kvs : list KV) : Prop :=
  exists pad, kvs <> [] /\ small_table kvs /\ table_it kvs pad it /\ it_status it = OK.

Definition table_rest (it : SSTableIteratorCompressed) (rest : list KV) : Prop :=
  exists kvs pad, kvs <> [] /\ small_table kvs /\
    ((exists i, pos_at kvs pad it i /\ rest = drop i kvs) \/ (pos_end kvs pad it /\ rest = [])).

#[global] Instance table_forward `{UserComparator} : ForwardIterator SSTableIteratorCompressed.
Proof.
  refine {| fi_over := table_over; fi_rest := table_rest |}; cbn.
  - intros i kvs (pad & Hne & Hs & Ht & Hok). destruct (SeekToFirst_spec kvs pad Hne Hs i Ht Hok) as (i' & E & Hp).
    exists i'. split; [done|]. exists kvs, pad. split_and!; [done..|]. left. by exists 0%nat.
  - intros i rest (kvs & pad & Hne & Hs & [(n & Hp & ->)|[(_ & _ & ->) ->]]); [|done].
    assert (Valid i = true) as -> by (by eapply (pos_at_valid kvs pad)). destruct (pa_kv _ _ _ _ Hp) as (kv & Hkv & _). by rewrite (drop_S _ _ _ Hkv).
  - intros i kv rest (kvs & pad & Hne & Hs & [(n & Hp & E)|[_ E]]); [|done].
    destruct (pa_kv _ _ _ _ Hp) as (kv' & Hkv & _). rewrite (drop_S _ _ _ Hkv) in E. injection E as -> ->.
    by eapply (pos_at_value kvs pad).
  - intros i kv rest (kvs & pad & Hne & Hs & [(n & Hp & E)|[_ E]]); [|done].
    destruct (pa_kv _ _ _ _ Hp) as (kv' & Hkv & _). rewrite (drop_S _ _ _ Hkv) in E. injection E as -> ->.
    destruct (Next_spec kvs pad Hne Hs i n Hp) as (i' & En & [[Hl Ha]|[Hl He]]); exists i'; (split; [done|]);
      exists kvs, pad; (split_and!; [done..|]); [left; by exists (S n)|right]. split; [done|]. by rewrite drop_ge by lia.
Defined.

(** ** The wrapper *)

(** [IteratorWrapper], table/iterators/iterator_wrapper.h:86-88 *)
Record IteratorWrapper (I : Type) := mkWrapper {
  iw_iter : option I;
  iw_valid : bool;
  iw_key : bytes
}.
Arguments mkWrapper {I}.
Arguments iw_iter {I}.
Arguments iw_valid {I}.
Arguments iw_key {I}.

Section Wrapper.
Context {I : Type} `{!Iterator I}.
Implicit Types w : IteratorWrapper I.

(** [IteratorWrapper::Update], table/iterators/iterator_wrapper.h:79-84 *)
Definition Update w (it : I) : IteratorWrapper I :=
  mkWrapper (Some it) (i_Valid it) (if i_Valid it then i_key it else iw_key w).

(** [IteratorWrapper::Set], table/iterators/iterator_wrapper.h:27-35 *)
Definition iw_Set w (it : option I) : IteratorWrapper I :=
  match it with None => mkWrapper None false (iw_key w) | Some it => Update w it end.

(** [IteratorWrapper::IteratorWrapper], table/iterators/iterator_wrapper.h:20-21 *)
Definition newWrapper (it : option I) : IteratorWrapper I := iw_Set (mkWrapper None false []) it.

(** The operations of [IteratorWrapper], table/iterators/iterator_wrapper.h:52-76: they need
    an iterator, and refresh what is cached of it. *)
Definition iw_move w (f : I -> option I) : option (IteratorWrapper I) :=
  it ← iw_iter w; it ← f it; Some (Update w it).

(** [IteratorWrapper::value], table/iterators/iterator_wrapper.h:43-46 *)
Definition iw_value w : option bytes :=
  if iw_valid w then it ← iw_iter w; i_value it else None.

(** [IteratorWrapper::key], table/iterators/iterator_wrapper.h:39-42 *)
Definition iw_get_key w : option bytes := if iw_valid w then Some (iw_key w) else None.

(** [IteratorWrapper::status], table/iterators/iterator_wrapper.h:48-51 *)
Definition iw_status w : option Status := i_status <$> iw_iter w.

(** What is cached agrees with the iterator. *)
Definition iw_ok w : Prop :=
  match iw_iter w with
  | None => iw_valid w = false
  | Some it => iw_valid w = i_Valid it /\ (i_Valid it = true -> iw_key w = i_key it)
  end.

Lemma Update_ok w it : iw_ok (Update w it).
Proof. unfold iw_ok, Update. cbn. split; [done|]. by intros ->. Qed.

Lemma iw_Set_ok w it : iw_ok (iw_Set w it).
Proof. destruct it; [apply Update_ok|done]. Qed.

Context `{!ForwardIterator I}.

(** The wrapped iterator has the entries [kvs] ahead. *)
Definition iw_rest w (kvs : list KV) : Prop := iw_ok w /\ exists it, iw_iter w = Some it /\ fi_rest it kvs.

Lemma iw_rest_valid w kvs : iw_rest w kvs -> iw_valid w = match kvs with [] => false | _ => true end.
Proof. intros [Hok (it & E & Hr)]. unfold iw_ok in Hok. rewrite E in Hok. rewrite (proj1 Hok). by apply fi_valid. Qed.

Lemma iw_rest_head w kv kvs :
  iw_rest w (kv :: kvs) -> iw_get_key w = Some (fst kv) /\ iw_value w = Some (snd kv).
Proof.
  intros Hr. pose proof (iw_rest_valid _ _ Hr) as Hv. destruct Hr as [Hok (it & E & Hr)].
  destruct (fi_head _ _ _ Hr) as [Hk Hval]. unfold iw_get_key, iw_value, iw_ok in *. rewrite Hv, E in *. obind.
  split; [|done]. destruct Hok as [Hiv Hkey]. by rewrite Hkey, Hk.
Qed.

Lemma iw_rest_next w kv kvs :
  iw_rest w (kv :: kvs) -> exists w', iw_move w i_Next = Some w' /\ iw_rest w' kvs.
Proof.
  intros [_ (it & E & Hr)]. destruct (fi_next _ _ _ Hr) as (it' & En & Hr'). unfold iw_move. rewrite E. obind.
  rewrite En. obind. exists (Update w it'). split; [done|]. split; [apply Update_ok|]. by exists it'.
Qed.

Lemma iw_first w it kvs :
  iw_iter w = Some it -> fi_over it kvs -> exists w', iw_move w i_SeekToFirst = Some w' /\ iw_rest w' kvs.
Proof.
  intros E Ho. destruct (fi_first _ _ Ho) as (it' & En & Hr'). unfold iw_move. rewrite E. obind.
  rewrite En. obind. exists (Update w it'). split; [done|]. split; [apply Update_ok|]. by exists it'.
Qed.
End Wrapper.

(** ** The merging iterator *)

Inductive Direction := kForward | kReverse.

#[export] Instance Direction_eq_dec : EqDecision Direction.
Proof. solve_decision. Defined.

(** [MergingIterator], table/iterators/merging_iterator.cc:147-151.  [current_] is an index of
    [children_]. *)
Record MergingIterator (I : Type) := mkMerging {
  mi_children : list (IteratorWrapper I);
  mi_current : option nat;
  mi_direction : Direction
}.
Arguments mkMerging {I}.
Arguments mi_children {I}.
Arguments mi_current {I}.
Arguments mi_direction {I}.

Section Merging.
Context `{UserComparator}.

(** The loop of [FindSmallest], table/iterators/merging_iterator.cc:156-165, over the keys of
    the children that are valid. *)
Fixpoint smallest_key (keys : list (option bytes)) (i : nat) (smallest : option (nat * bytes)) : option (nat * bytes) :=
  match keys with
  | [] => smallest
  | None :: keys => smallest_key keys (S i) smallest
  | Some k :: keys =>
      smallest_key keys (S i)
        (match smallest with
         | None => Some (i, k)
         | Some (_, s) => if decide (InternalCompare k s = Lt) then Some (i, k) else smallest
         end)
  end.

(** The loop of [FindLargest], table/iterators/merging_iterator.cc:171-180, from the last child
    to the first: [keys] is in that order. *)
Fixpoint largest_key (keys : list (option bytes)) (i : nat) (largest : option (nat * bytes)) : option (nat * bytes) :=
  match keys with
  | [] => largest
  | None :: keys => largest_key keys (i - 1) largest
  | Some k :: keys =>
      largest_key keys (i - 1)
        (match largest with
         | None => Some (i, k)
         | Some (_, s) => if decide (InternalCompare k s = Gt) then Some (i, k) else largest
         end)
  end.

Context {I : Type} `{!Iterator I}.
Abbreviation MI := (MergingIterator I).
Implicit Types mi : MI.

(** [MergingIterator::MergingIterator], table/iterators/merging_iterator.cc:17-26 *)
Definition newMerging (children : list (option I)) : MI := mkMerging (map newWrapper children) None kForward.

(** [MergingIterator::FindSmallest], table/iterators/merging_iterator.cc:154-167 *)
Definition FindSmallest (children : list (IteratorWrapper I)) : option nat :=
  fst <$> smallest_key (map iw_get_key children) 0 None.

(** [MergingIterator::FindLargest], table/iterators/merging_iterator.cc:169-182 *)
Definition FindLargest (children : list (IteratorWrapper I)) : option nat :=
  fst <$> largest_key (reverse (map iw_get_key children)) (length children - 1) None.

(** [MergingIterator::Valid], table/iterators/merging_iterator.cc:30-30 *)
Definition mi_Valid mi : bool := bool_decide (is_Some (mi_current mi)).

(** Apply an operation to all the children. *)
Definition all_children (ws : list (IteratorWrapper I)) (f : I -> option I) : option (list (IteratorWrapper I)) :=
  mapM (fun w => iw_move w f) ws.

(** [MergingIterator::SeekToFirst], table/iterators/merging_iterator.cc:32-38 *)
Definition mi_SeekToFirst mi : option MI :=
  ws ← all_children (mi_children mi) i_SeekToFirst; Some (mkMerging ws (FindSmallest ws) kForward).

(** [MergingIterator::SeekToLast], table/iterators/merging_iterator.cc:40-46 *)
Definition mi_SeekToLast mi : option MI :=
  ws ← all_children (mi_children mi) i_SeekToLast; Some (mkMerging ws (FindLargest ws) kReverse).

(** [MergingIterator::Seek], table/iterators/merging_iterator.cc:48-54 *)
Definition mi_Seek mi (target : bytes) : option MI :=
  ws ← all_children (mi_children mi) (fun it => i_Seek it target); Some (mkMerging ws (FindSmallest ws) kForward).

(** [current_], with the assertion that the iterator is valid. *)
Definition mi_child mi : option (nat * IteratorWrapper I) :=
  i ← mi_current mi; w ← mi_children mi !! i; Some (i, w).

(** [MergingIterator::key], table/iterators/merging_iterator.cc:116-119 *)
Definition mi_key mi : option bytes := '(_, w) ← mi_child mi; iw_get_key w.

(** [MergingIterator::value], table/iterators/merging_iterator.cc:121-124 *)
Definition mi_value mi : option bytes := '(_, w) ← mi_child mi; iw_value w.

(** [MergingIterator::status], table/iterators/merging_iterator.cc:126-135 *)
Fixpoint mi_status_of (ws : list (IteratorWrapper I)) (s : Status) : option Status :=
  match ws with
  | [] => Some s
  | w :: ws => s ← iw_status w; if ok s then mi_status_of ws s else Some s
  end.
Definition mi_status mi : option Status := mi_status_of (mi_children mi) OK.

(** The loops of [Next] and [Prev] that move the other children to [key()]
    after a change of direction. *)
Definition turn (f : bytes -> IteratorWrapper I -> option (IteratorWrapper I)) (i : nat) (k : bytes)
    (ws : list (IteratorWrapper I)) : option (list (IteratorWrapper I)) :=
  mapM (fun '(j, w) => if (j =? i)%nat then Some w else f k w) (imap pair ws).

(** The turn of a child in [Next], table/iterators/merging_iterator.cc:73-77 *)
Definition turn_forward (k : bytes) (w : IteratorWrapper I) : option (IteratorWrapper I) :=
  w ← iw_move w (fun it => i_Seek it k);
  if iw_valid w then
    if decide (InternalCompare k (iw_key w) = Eq) then iw_move w i_Next else Some w
  else Some w.

(** The turn of a child in [Prev], table/iterators/merging_iterator.cc:99-106 *)
Definition turn_reverse (k : bytes) (w : IteratorWrapper I) : option (IteratorWrapper I) :=
  w ← iw_move w (fun it => i_Seek it k);
  if iw_valid w then iw_move w i_Prev else iw_move w i_SeekToLast.

(** [MergingIterator::Next], table/iterators/merging_iterator.cc:61-85 *)
Definition mi_Next mi : option MI :=
  '(i, _) ← mi_child mi;
  ws ← (if decide (mi_direction mi = kForward) then Some (mi_children mi)
        else k ← mi_key mi; turn turn_forward i k (mi_children mi));
  w ← ws !! i;
  w ← iw_move w i_Next;
  let ws := <[i := w]> ws in
  Some (mkMerging ws (FindSmallest ws) kForward).

(** [MergingIterator::Prev], table/iterators/merging_iterator.cc:87-114 *)
Definition mi_Prev mi : option MI :=
  '(i, _) ← mi_child mi;
  ws ← (if decide (mi_direction mi = kReverse) then Some (mi_children mi)
        else k ← mi_key mi; turn turn_reverse i k (mi_children mi));
  w ← ws !! i;
  w ← iw_move w i_Prev;
  let ws := <[i := w]> ws in
  Some (mkMerging ws (FindLargest ws) kReverse).

(** [MergingIterator::SeekForPrev], table/iterators/merging_iterator.cc:56-59 *)
Definition mi_SeekForPrev mi (target : bytes) : option MI := mi ← mi_Seek mi target; mi_Prev mi.

#[global] Instance merging_ops : Iterator MI := {|
  i_Valid := mi_Valid;
  i_key mi := default [] (mi_key mi);
  i_value := mi_value;
  i_status mi := default OK (mi_status mi);
  i_SeekToFirst := mi_SeekToFirst;
  i_SeekToLast := mi_SeekToLast;
  i_Seek := mi_Seek;
  i_Next := mi_Next;
  i_Prev := mi_Prev
|}.

(** ** Merging lists *)

(** Take the smallest of the first entries, the leftmost one when several are. *)
Definition pick_min (ls : list (list KV)) : option nat := fst <$> smallest_key (map (fun l => fst <$> head l) ls) 0 None.

Fixpoint kmerge (fuel : nat) (ls : list (list KV)) : list KV :=
  match fuel with
  | O => []
  | S fuel =>
      match pick_min ls with
      | None => []
      | Some i =>
          match ls !! i with
          | Some (kv :: l) => kv :: kmerge fuel (<[i := l]> ls)
          | _ => []
          end
      end
  end.

Lemma smallest_key_spec keys n best :
  (forall i k, best = Some (i, k) -> (i < n)%nat) ->
  match smallest_key keys n best with
  | None => best = None /\ forall j, keys !! j = Some None \/ keys !! j = None
  | Some (i, k) =>
      (best = Some (i, k) \/ (n <= i)%nat /\ keys !! (i - n)%nat = Some (Some k)) /\
      (forall b, best = Some b -> cle InternalCompare k (snd b)) /\
      forall j k', keys !! j = Some (Some k') -> cle InternalCompare k k'
  end.
Proof.
  revert n best. induction keys as [|[k|] keys IH]; intros n best Hb; cbn [smallest_key].
  - destruct best as [[i k]|]; [|split; [done|by right]]. split_and!; [by left|by intros b [= <-]; apply (cle_refl InternalCompare)|done].
  - set (best' := match best with None => Some (n, k) | Some (_, s) => _ end).
    assert (Hb' : forall i k', best' = Some (i, k') -> (i < S n)%nat).
    { intros i k' E. unfold best' in E. destruct best as [[i0 s0]|]; [|injection E as <- <-; lia].
      specialize (Hb i0 s0 eq_refl). case_decide; injection E as <- <-; lia. }
    specialize (IH (S n) best' Hb'). destruct (smallest_key keys (S n) best') as [[i m]|] eqn:E.
    2: { destruct IH as [IH _]. unfold best' in IH. destruct best as [[? ?]|]; [|done]. by case_decide. }
    destruct IH as (H1 & H2 & H3).
    assert (Hk : cle InternalCompare m k /\ forall b, best = Some b -> cle InternalCompare m (snd b)).
    { unfold best' in H2. destruct best as [[i0 s0]|]; [|split; [by apply (H2 (n, k))|done]].
      case_decide as Hc; specialize (H2 _ eq_refl); cbn in H2.
      - split; [done|]. intros b [= <-]. cbn. trans k; [done|by apply (clt_le InternalCompare)].
      - split; [|by intros b [= <-]]. trans s0; [done|]. by apply (nclt_le InternalCompare). }
    split_and!; [|apply Hk|].
    + destruct H1 as [H1|[H1 H1']].
      * unfold best' in H1. destruct best as [[i0 s0]|]; [|injection H1 as <- <-; right; split; [lia|by rewrite Nat.sub_diag]].
        case_decide; injection H1 as <- <-; [right; split; [lia|by rewrite Nat.sub_diag]|by left].
      * right. split; [lia|]. replace (i - n)%nat with (S (i - S n)) by lia. done.
    + intros [|j] k' Hj; [injection Hj as <-; apply Hk|by apply (H3 j)].
  - specialize (IH (S n) best ltac:(intros i k E; specialize (Hb i k E); lia)).
    destruct (smallest_key keys (S n) best) as [[i m]|].
    + destruct IH as (H1 & H2 & H3). split_and!; [|done|].
      * destruct H1 as [?|[? ?]]; [by left|right]. split; [lia|]. by replace (i - n)%nat with (S (i - S n)) by lia.
      * intros [|j] k' Hj; [done|by apply (H3 j)].
    + destruct IH as [-> H2]. split; [done|]. intros [|j]; [by left|apply H2].
Qed.

Lemma pick_min_Some ls i :
  pick_min ls = Some i -> exists kv l, ls !! i = Some (kv :: l) /\
    forall l' kv', l' ∈ ls -> head l' = Some kv' -> kv_le kv kv'.
Proof.
  unfold pick_min. pose proof (smallest_key_spec (map (fun l => fst <$> head l) ls) 0 None ltac:(done)) as Hs.
  destruct (smallest_key _ 0 None) as [[j k]|]; [|done]. intros [= <-].
  destruct Hs as ([?|[_ Hj]] & _ & Hmin); [done|]. rewrite Nat.sub_0_r in Hj. apply list_lookup_fmap_Some in Hj as (l & E & Hl).
  destruct l as [|kv l]; [done|]. cbn in E. injection E as ->. exists kv, l. split; [done|].
  intros l' kv' [m Hm]%list_elem_of_lookup Hh. apply (Hmin m). apply list_lookup_fmap_Some. exists l'.
  split; [by rewrite Hh|done].
Qed.

Lemma pick_min_None ls : pick_min ls = None -> concat ls = [].
Proof.
  unfold pick_min. pose proof (smallest_key_spec (map (fun l => fst <$> head l) ls) 0 None ltac:(done)) as Hs.
  destruct (smallest_key _ 0 None) as [[j k]|]; [done|]. intros _. destruct Hs as [_ Hn].
  apply concat_nil_Forall, Forall_forall. intros l [m Hm]%list_elem_of_lookup. specialize (Hn m).
  rewrite list_lookup_fmap, Hm in Hn. destruct l; [done|]. by destruct Hn.
Qed.

Lemma concat_insert_perm (ls : list (list KV)) i kv l :
  ls !! i = Some (kv :: l) -> concat ls ≡ₚ kv :: concat (<[i := l]> ls).
Proof.
  intros Hi. rewrite <-(take_drop_middle ls i _ Hi) at 1. rewrite (insert_take_drop _ _ _ ltac:(by eapply lookup_lt_Some)).
  rewrite !concat_app. cbn [concat]. rewrite <-app_comm_cons. symmetry. apply Permutation_middle.
Qed.

Lemma kmerge_perm fuel ls : (length (concat ls) <= fuel)%nat -> kmerge fuel ls ≡ₚ concat ls.
Proof.
  revert ls. induction fuel as [|fuel IH]; intros ls Hf; cbn [kmerge].
  { destruct (concat ls); [done|cbn in Hf; lia]. }
  destruct (pick_min ls) as [i|] eqn:E; [|by rewrite pick_min_None].
  destruct (pick_min_Some _ _ E) as (kv & l & Hi & _). rewrite Hi.
  pose proof (concat_insert_perm ls i kv l Hi) as Hp. rewrite Hp. f_equiv. apply IH.
  apply Permutation_length in Hp. cbn in Hp. lia.
Qed.

Lemma kmerge_sorted fuel ls :
  Forall (StronglySorted kv_le) ls -> StronglySorted kv_le (kmerge fuel ls).
Proof.
  revert ls. induction fuel as [|fuel IH]; intros ls Hs; cbn [kmerge]; [constructor|].
  destruct (pick_min ls) as [i|] eqn:E; [|constructor].
  destruct (pick_min_Some _ _ E) as (kv & l & Hi & Hmin). rewrite Hi.
  assert (Hl : StronglySorted kv_le (kv :: l)) by (by eapply Forall_lookup_1 in Hs).
  constructor; [apply IH, Forall_insert; [done|by inversion Hl]|].
  apply Forall_forall. intros x Hx.
  assert (Hx' : x ∈ concat ls).
  { rewrite concat_insert_perm by exact Hi. right. clear -Hx. revert Hx. generalize (<[i:=l]> ls). clear.
    induction fuel as [|fuel IH]; intros ls Hx; cbn [kmerge] in Hx; [by apply not_elem_of_nil in Hx|].
    destruct (pick_min ls) as [i|]; [|by apply not_elem_of_nil in Hx].
    destruct (ls !! i) as [[|kv l]|] eqn:Hi; [by apply not_elem_of_nil in Hx| |by apply not_elem_of_nil in Hx].
    rewrite concat_insert_perm by exact Hi. apply elem_of_cons in Hx as [->|Hx]; [left|right; by apply IH]. }
  apply list_elem_of_In, in_concat in Hx' as (l' & Hl' & Hin). apply list_elem_of_In in Hl', Hin.
  rewrite Forall_forall in Hs. specialize (Hs l' Hl'). destruct l' as [|a l']; [by apply not_elem_of_nil in Hin|].
  specialize (Hmin _ a Hl' eq_refl). apply elem_of_cons in Hin as [->|Hin]; [done|].
  apply kv_le_trans with a; [done|]. apply StronglySorted_inv in Hs as [_ Hf]. rewrite Forall_forall in Hf. by apply Hf.
Qed.

(** ** The merging iterator merges *)

Context `{!ForwardIterator I}.

Definition merged (ls : list (list KV)) : list KV := kmerge (length (concat ls)) ls.

Definition mi_over mi (kvs : list KV) : Prop :=
  exists ls, Forall2 (fun w l => exists it, iw_iter w = Some it /\ fi_over it l) (mi_children mi) ls /\ kvs = merged ls.

Definition mi_rest mi (kvs : list KV) : Prop :=
  exists ls, Forall2 iw_rest (mi_children mi) ls /\ mi_direction mi = kForward /\ mi_current mi = pick_min ls /\ kvs = merged ls.

Lemma children_keys ws ls : Forall2 iw_rest ws ls -> map iw_get_key ws = map (fun l => fst <$> head l) ls.
Proof.
  induction 1 as [|w [|kv l] ws ls Hw _ IH]; [done| |]; cbn; rewrite IH; f_equal.
  - unfold iw_get_key. by rewrite (iw_rest_valid _ _ Hw).
  - by apply iw_rest_head in Hw as [-> _].
Qed.

Lemma FindSmallest_pick ws ls : Forall2 iw_rest ws ls -> FindSmallest ws = pick_min ls.
Proof. intros Hw. unfold FindSmallest, pick_min. by rewrite (children_keys _ _ Hw). Qed.

Lemma children_first ws ls :
  Forall2 (fun w l => exists it, iw_iter w = Some it /\ fi_over it l) ws ls ->
  exists ws', all_children ws i_SeekToFirst = Some ws' /\ Forall2 iw_rest ws' ls.
Proof.
  unfold all_children. induction 1 as [|w l ws ls (it & E & Ho) _ (ws' & E' & Hr)].
  - exists []. split; [done|constructor].
  - destruct (iw_first w it l E Ho) as (w' & Ew & Hw). exists (w' :: ws'). split; [|by constructor].
    cbn [mapM]. rewrite Ew. obind. by rewrite E'.
Qed.

(** The entries ahead, by the current child. *)
Lemma merged_step ls :
  match pick_min ls with
  | None => merged ls = []
  | Some i => exists kv l, ls !! i = Some (kv :: l) /\ merged ls = kv :: merged (<[i := l]> ls)
  end.
Proof.
  unfold merged. destruct (pick_min ls) as [i|] eqn:E.
  - destruct (pick_min_Some _ _ E) as (kv & l & Hi & _). exists kv, l. split; [done|].
    pose proof (Permutation_length (concat_insert_perm ls i kv l Hi)) as Hl. rewrite Hl. cbn [length kmerge]. by rewrite E, Hi.
  - by rewrite (pick_min_None _ E).
Qed.

Lemma mi_rest_current mi kv kvs :
  mi_rest mi (kv :: kvs) -> exists ls i w l, Forall2 iw_rest (mi_children mi) ls /\ mi_direction mi = kForward /\
    mi_child mi = Some (i, w) /\ mi_children mi !! i = Some w /\ iw_rest w (kv :: l) /\ kvs = merged (<[i := l]> ls).
Proof.
  intros (ls & Hw & Hd & Hc & E). pose proof (merged_step ls) as Hm. rewrite <-E in Hm.
  destruct (pick_min ls) as [i|] eqn:Ep; [|done]. destruct Hm as (kv' & l & Hi & [= -> ->]).
  destruct (Forall2_lookup_r _ _ _ _ _ Hw Hi) as (w & Hwi & Hrest). exists ls, i, w, l. split_and!; try done.
  unfold mi_child. rewrite Hc. obind. by rewrite Hwi.
Qed.

#[global] Instance merging_forward : ForwardIterator MI.
Proof.
  refine {| fi_over := mi_over; fi_rest := mi_rest |}; cbn [i_SeekToFirst i_Valid i_key i_value i_Next merging_ops].
  - intros mi kvs (ls & Ho & ->). destruct (children_first _ _ Ho) as (ws & E & Hw). unfold mi_SeekToFirst. rewrite E. obind.
    eexists. split; [done|]. exists ls. cbn. split_and!; [done|done|by apply FindSmallest_pick|done].
  - intros mi kvs (ls & _ & _ & Hc & ->). pose proof (merged_step ls) as Hm. unfold mi_Valid. rewrite Hc.
    destruct (pick_min ls); [destruct Hm as (kv & l & _ & ->)|rewrite Hm]; done.
  - intros mi kv kvs Hr. destruct (mi_rest_current _ _ _ Hr) as (ls & i & w & l & _ & _ & Hc & _ & Hw & _).
    unfold mi_key, mi_value. rewrite Hc. obind. apply iw_rest_head in Hw as [-> ->]. done.
  - intros mi kv kvs Hr. destruct (mi_rest_current _ _ _ Hr) as (ls & i & w & l & Hws & Hd & Hc & Hi & Hw & ->).
    destruct (iw_rest_next _ _ _ Hw) as (w' & En & Hw'). unfold mi_Next. rewrite Hc. obind.
    rewrite decide_True by done. obind. rewrite Hi. obind. rewrite En. obind. eexists. split; [done|].
    assert (Hf : Forall2 iw_rest (<[i := w']> (mi_children mi)) (<[i := l]> ls)) by (by apply Forall2_insert).
    exists (<[i := l]> ls). cbn. split_and!; [done|done|by apply FindSmallest_pick|done].
Defined.

Lemma merged_spec ls :
  Forall (StronglySorted kv_lt) ls -> StronglySorted kv_le (merged ls) /\ merged ls ≡ₚ concat ls.
Proof.
  intros Hs. split; [|by apply kmerge_perm]. apply kmerge_sorted. eapply Forall_impl; [exact Hs|].
  intros l Hl. eapply StronglySorted_weaken; [|exact Hl]. intros ? ?. apply kv_lt_le.
Qed.
End Merging.

(** ** Scanning *)

(** The loop that every scan uses: [SeekToFirst], then [Next] while valid. *)
Fixpoint drain {I} `{!Iterator I} (fuel : nat) (i : I) : option (list KV) :=
  match fuel with
  | O => None
  | S fuel =>
      if i_Valid i then
        v ← i_value i; i' ← i_Next i; l ← drain fuel i'; Some ((i_key i, v) :: l)
      else Some []
  end.

Lemma drain_spec {I} `{!Iterator I} `{!ForwardIterator I} fuel (i : I) kvs :
  fi_rest i kvs -> (length kvs < fuel)%nat -> drain fuel i = Some kvs.
Proof.
  revert i kvs. induction fuel as [|fuel IH]; intros i kvs Hr Hf; [lia|]. cbn [drain]. rewrite (fi_valid _ _ Hr).
  destruct kvs as [|[k v] kvs]; [done|]. destruct (fi_head _ _ _ Hr) as [-> ->]. obind.
  destruct (fi_next _ _ _ Hr) as (i' & -> & Hr'). obind. rewrite (IH i' kvs) by (done || (cbn in Hf; lia)). done.
Qed.

(** C25: a scan of the merging iterator yields all the entries of all its
    children, each exactly as often as they have it, in the order of the
    internal keys. *)
Theorem merging_scan `{UserComparator} {I : Type} `{!Iterator I} `{!ForwardIterator I} (children : list I) ls :
  Forall2 fi_over children ls -> Forall (StronglySorted kv_lt) ls ->
  exists mi out, mi_SeekToFirst (newMerging (Some <$> children)) = Some mi /\
    drain (S (length (concat ls))) mi = Some out /\ out ≡ₚ concat ls /\ StronglySorted kv_le out.
Proof.
  intros Ho Hs. destruct (merged_spec ls Hs) as [Hsort Hperm].
  destruct (fi_first (newMerging (Some <$> children)) (merged ls)) as (mi & E & Hr).
  { exists ls. split; [|done]. cbn [mi_children newMerging]. clear -Ho.
    induction Ho as [|c l cs ls Hc _ IH]; [constructor|]. constructor; [by exists c|done]. }
  exists mi, (merged ls). split_and!; [exact E| |done|done].
  apply drain_spec; [exact Hr|]. rewrite (Permutation_length Hperm). lia.
Qed.

Lemma table_over_open `{UserComparator} kvs :
  kvs <> [] -> small_table kvs -> exists it, open_table (table_image kvs) = Some it /\ table_over it kvs.
Proof.
  intros Hne Hs. destruct (open_table_spec kvs [] Hne Hs) as (it & E & Ht & Hok & _). rewrite app_nil_r in E.
  exists it. split; [done|]. by exists [].
Qed.

Lemma merging_scan_witness : exists it1 it2 mi out,
  open_table (table_image (VersionWitness.kvs 0 VersionWitness.m1)) = Some it1 /\
  open_table (table_image (VersionWitness.kvs 0 VersionWitness.m2)) = Some it2 /\
  mi_SeekToFirst (H := BytewiseComparator) (newMerging [Some it1; Some it2]) = Some mi /\
  drain (Iterator0 := merging_ops (H := BytewiseComparator)) 5 mi = Some out /\ length out = 4%nat /\
  StronglySorted (kv_le (H := BytewiseComparator)) out.
Proof.
  destruct (table_over_open (H := BytewiseComparator) (VersionWitness.kvs 0 VersionWitness.m1)) as (it1 & E1 & O1);
    [discriminate|split; [repeat constructor|split; reflexivity]|].
  destruct (table_over_open (H := BytewiseComparator) (VersionWitness.kvs 0 VersionWitness.m2)) as (it2 & E2 & O2);
    [discriminate|split; [repeat constructor|split; reflexivity]|].
  destruct (merging_scan (H := BytewiseComparator) [it1; it2]
    [VersionWitness.kvs 0 VersionWitness.m1; VersionWitness.kvs 0 VersionWitness.m2]) as (mi & out & H1 & H2 & H3 & H4).
  - constructor; [exact O1|]. constructor; [exact O2|constructor].
  - constructor; [|constructor; [|constructor]]; unfold kv_lt; apply (bool_decide_unpack _); by vm_compute.
  - exists it1, it2, mi, out. split_and!; [exact E1|exact E2|exact H1|exact H2|exact (Permutation_length H3)|exact H4].
Defined.
