(* ===== verification/Prefetch.v ===== *)
(** * Prefetch: opening the tables of a level in a second thread

    [LNZonePrefetcher], [ZonePrefetcher] and the parts of [LNIterator] that talk to
    them, in [table/iterators/sstable_ln_iterator.h] and [.cc].  The reader walks over
    the tables of a level; a worker thread opens the iterators of the next tables ahead
    of it.  They share the prefetcher behind a mutex and one condition variable.

    What a thread does between taking the mutex and giving it up (or waiting) is one
    step; so is opening a table, which the worker does without the mutex.  [SignalAll]
    wakes every waiting thread; a woken thread goes on when it gets the mutex.  An
    access outside of the vector is a state of its own.

    [LNIterator] opens a table where the reader waits for the worker; [prefetch_scan]
    shows that the reader gets exactly these iterators from the worker. *)

From S2P Require Import Prelude Config.

Section Prefetch.
(** The iterators, and the function that opens the table of a handle. *)
Context {It : Type} (zonefunc_ : bytes -> It).
(** Whether a wait may end without a signal. *)
Context (spurious : bool).

(** ** The threads *)

(** [ZonePrefetcher], table/iterators/sstable_ln_iterator.h:58-70 *)
Record ZonePrefetcher := mkPrefetcher {
  zp_done : bool;
  zp_quit : bool;
  zp_tail : nat;
  zp_tail_read : nat;
  zp_index : nat;
  zp_its : list (bytes * option It)
}.

(** The prefetcher that the constructor of [LNIterator] fills,
    table/iterators/sstable_ln_iterator.cc:146-150; the first entry is not prefetched. *)
Definition newPrefetcher (handles : list bytes) : ZonePrefetcher :=
  mkPrefetcher false false 0 0 1 (map (fun h => (h, None)) handles).

(** The reader: between two calls with the tables that it has taken, waiting for the
    worker to reach its table, waiting for the worker to stop, or destroyed. *)
Inductive reader :=
  | Reading (got : list (bytes * option It))
  | WaitTable (woken : bool) (got : list (bytes * option It))
  | WaitQuit (woken : bool) (got : list (bytes * option It))
  | Destroyed (got : list (bytes * option It))
  | ReadOutside.

(** The worker: scheduled, at the top of its loop, waiting, opening a table, after the
    loop, gone. *)
Inductive worker :=
  | Scheduled
  | Top
  | WaitWork (woken : bool)
  | Opening (handle : bytes)
  | Leaving
  | Gone
  | WorkOutside.

Definition state : Type := reader * worker * ZonePrefetcher.

(** [SignalAll] *)
Definition wake_reader (r : reader) : reader :=
  match r with WaitTable _ got => WaitTable true got | WaitQuit _ got => WaitQuit true got | _ => r end.
Definition wake_worker (w : worker) : worker := match w with WaitWork _ => WaitWork true | _ => w end.

(** The condition of the worker's wait; the difference of the two indices is unsigned. *)
Definition must_wait (p : ZonePrefetcher) : bool :=
  (compaction_maximum_prefetches <? u64 (Z.of_nat (zp_index p) - Z.of_nat (zp_tail_read p))) ||
  (zp_index p =? length (zp_its p))%nat.

(** The cleanup of the worker, table/iterators/sstable_ln_iterator.cc:99-106. *)
Fixpoint cleanup (fuel tail tail_read size : nat) : nat :=
  match fuel with
  | O => tail
  | S fuel => if (tail + 1 <? tail_read)%nat && (tail <? size)%nat then cleanup fuel (tail + 1) tail_read size else tail
  end.

Definition set_tail (p : ZonePrefetcher) : ZonePrefetcher :=
  mkPrefetcher (zp_done p) (zp_quit p) (cleanup (length (zp_its p)) (zp_tail p) (zp_tail_read p) (length (zp_its p)))
    (zp_tail_read p) (zp_index p) (zp_its p).
Definition set_done (p : ZonePrefetcher) : ZonePrefetcher :=
  mkPrefetcher true (zp_quit p) (zp_tail p) (zp_tail_read p) (zp_index p) (zp_its p).
Definition set_quit (p : ZonePrefetcher) : ZonePrefetcher :=
  mkPrefetcher (zp_done p) true (zp_tail p) (zp_tail_read p) (zp_index p) (zp_its p).
Definition set_tail_read (p : ZonePrefetcher) : ZonePrefetcher :=
  mkPrefetcher (zp_done p) (zp_quit p) (zp_tail p) (S (zp_tail_read p)) (zp_index p) (zp_its p).

(** The worker has the mutex at its loop: where it goes, and the prefetcher. *)
Definition work (p : ZonePrefetcher) : worker * ZonePrefetcher :=
  if must_wait p && negb (zp_done p) then (WaitWork false, p)
  else
    let p := set_tail p in
    if zp_done p then (Leaving, p)
    else match zp_its p !! zp_index p with Some (handle, _) => (Opening handle, p) | None => (WorkOutside, p) end.

(** The worker puts the iterator of the opened table into the vector. *)
Definition put (p : ZonePrefetcher) (handle : bytes) : option ZonePrefetcher :=
  '(h, _) ← zp_its p !! zp_index p;
  Some (mkPrefetcher (zp_done p) (zp_quit p) (zp_tail p) (zp_tail_read p) (S (zp_index p))
    (<[zp_index p := (h, Some (zonefunc_ handle))]> (zp_its p))).

(** [LNZonePrefetcher], table/iterators/sstable_ln_iterator.cc:83-133 *)
Inductive worker_step : state -> state -> Prop :=
  | work_start r p : worker_step (r, Scheduled, p) (r, Top, p)
  | work_top r p w p' : work p = (w, p') -> worker_step (r, Top, p) (r, w, p')
  | work_woken r p w p' : work p = (w, p') -> worker_step (r, WaitWork true, p) (r, w, p')
  | work_put r handle p p' : put p handle = Some p' -> worker_step (r, Opening handle, p) (wake_reader r, Top, p')
  | work_put_outside r handle p : put p handle = None -> worker_step (r, Opening handle, p) (r, WorkOutside, p)
  | work_leave r p : worker_step (r, Leaving, p) (wake_reader r, Gone, set_quit p).

(** The reader has the mutex and its table: it waits or takes the iterator. *)
Definition take_table (p : ZonePrefetcher) (got : list (bytes * option It)) : reader :=
  if (zp_index p <=? zp_tail_read p)%nat then WaitTable false got
  else match zp_its p !! zp_tail_read p with Some x => Reading (got ++ [x]) | None => ReadOutside end.

(** The reader moves to the next table in [SkipEmptyDataLbasForward], lines 226 to 247, as long as its
    index has one, and is destroyed in [LNIterator::~LNIterator], table/iterators/sstable_ln_iterator.cc:166-178 *)
Inductive reader_step : state -> state -> Prop :=
  | read_next got w p :
      (S (zp_tail_read p) < length (zp_its p))%nat ->
      reader_step (Reading got, w, p) (take_table (set_tail_read p) got, wake_worker w, set_tail_read p)
  | read_woken got w p : reader_step (WaitTable true got, w, p) (take_table p got, w, p)
  | destroy got w p :
      reader_step (Reading got, w, p)
        (if zp_quit p then Destroyed got else WaitQuit false got, wake_worker w, set_done p)
  | quit_woken got w p :
      reader_step (WaitQuit true got, w, p) (if zp_quit p then Destroyed got else WaitQuit false got, w, p).

Inductive step : state -> state -> Prop :=
  | step_reader st st' : reader_step st st' -> step st st'
  | step_worker st st' : worker_step st st' -> step st st'
  | step_spurious_reader r w p : spurious = true -> step (r, w, p) (wake_reader r, w, p)
  | step_spurious_worker r w p : spurious = true -> step (r, w, p) (r, wake_worker w, p).

Definition init (handles : list bytes) : state := (Reading [], Scheduled, newPrefetcher handles).

(** ** What holds in every state *)

Definition opened (h : bytes) : bytes * option It := (h, Some (zonefunc_ h)).

Definition got_of (r : reader) : list (bytes * option It) :=
  match r with Reading got | WaitTable _ got | WaitQuit _ got | Destroyed got => got | ReadOutside => [] end.

(** The tables before the index are open, the others are not. *)
Definition its_at (handles : list bytes) (index : nat) : list (bytes * option It) :=
  imap (fun i h => (h, if (i =? 0)%nat then None else if (i <? index)%nat then Some (zonefunc_ h) else None)) handles.

(** How far the worker is ahead of the reader. *)
Definition ahead (p : ZonePrefetcher) : Z := Z.of_nat (zp_index p) - Z.of_nat (zp_tail_read p).

Definition worker_ok (handles : list bytes) (p : ZonePrefetcher) (w : worker) : Prop :=
  match w with
  | WaitWork false => must_wait p = true /\ zp_done p = false
  | Opening h => handles !! zp_index p = Some h /\ ahead p <= compaction_maximum_prefetches
  | Leaving => zp_done p = true /\ zp_quit p = false
  | Gone => zp_quit p = true /\ zp_done p = true
  | WorkOutside => False
  | _ => True
  end.
#[local] Arguments worker_ok : simpl never.

Record prefetch_inv (handles : list bytes) (st : state) : Prop := {
  pi_its : zp_its st.2 = its_at handles (zp_index st.2);
  pi_index : (0 < zp_index st.2 <= length handles)%nat;
  pi_read : (zp_tail_read st.2 <= zp_index st.2)%nat;
  pi_ahead : ahead st.2 <= compaction_maximum_prefetches + 1;
  pi_last : (zp_tail_read st.2 < length handles)%nat;
  pi_reader : match st.1.1 with
    | Reading got => length got = zp_tail_read st.2 /\ (zp_tail_read st.2 < zp_index st.2)%nat
    | WaitTable woken got => S (length got) = zp_tail_read st.2 /\ (woken = false -> (zp_index st.2 <= zp_tail_read st.2)%nat)
    | WaitQuit woken got => woken = false -> zp_quit st.2 = false
    | Destroyed _ => zp_quit st.2 = true
    | ReadOutside => False
    end;
  pi_got : got_of st.1.1 = opened <$> take (length (got_of st.1.1)) (drop 1 handles);
  pi_worker : worker_ok handles st.2 st.1.2;
  pi_done : zp_done st.2 = match st.1.1 with WaitQuit _ _ | Destroyed _ => true | _ => false end;
  pi_quit : zp_quit st.2 = match st.1.2 with Gone => true | _ => false end
}.

Context (handles : list bytes) (Hlen : blen handles < 2 ^ 64).

Lemma its_at_length i : length (its_at handles i) = length handles.
Proof. apply length_imap. Qed.

Lemma its_at_lookup index i h :
  handles !! i = Some h -> (0 < i)%nat -> its_at handles index !! i = Some (h, if (i <? index)%nat then Some (zonefunc_ h) else None).
Proof. intros Hh Hi. unfold its_at. rewrite list_lookup_imap, Hh. cbn. by rewrite (proj2 (Nat.eqb_neq _ _)) by lia. Qed.

Lemma its_at_put index h :
  handles !! index = Some h -> (0 < index)%nat -> <[index := opened h]> (its_at handles index) = its_at handles (S index).
Proof.
  intros Hh Hi. pose proof (lookup_lt_Some _ _ _ Hh). apply list_eq. intros i. destruct (decide (i = index)) as [-> | Hne].
  - rewrite list_lookup_insert_eq by (by rewrite its_at_length). rewrite (its_at_lookup _ _ h) by (done || lia).
    by rewrite (proj2 (Nat.ltb_lt _ _)) by lia.
  - rewrite list_lookup_insert_ne by done. unfold its_at. rewrite !list_lookup_imap. destruct (handles !! i) as [x|]; [|done].
    cbn [fmap option_fmap option_map]. destruct (Nat.eqb_spec i 0), (Nat.ltb_spec i index), (Nat.ltb_spec i (S index)); try done; lia.
Qed.

Lemma its_at_new : zp_its (newPrefetcher handles) = its_at handles 1.
Proof.
  apply list_eq. intros i. cbn. unfold its_at. rewrite list_lookup_fmap, list_lookup_imap. destruct (handles !! i); [|done].
  cbn [fmap option_fmap option_map]. destruct (Nat.eqb_spec i 0), (Nat.ltb_spec i 1); try done; lia.
Qed.

Lemma prefetch_init : (1 < length handles)%nat -> prefetch_inv handles (init handles).
Proof. intros Hn. constructor; cbn -[newPrefetcher]; try done; [apply its_at_new|cbn; lia..]. Qed.

Lemma distance i j : (j <= i <= length handles)%nat -> u64 (Z.of_nat i - Z.of_nat j) = Z.of_nat i - Z.of_nat j.
Proof. intros Hij. apply u64_small. unfold is_u64. unfold blen in Hlen. lia. Qed.

(** The worker that goes on has a table to open. *)
Lemma work_spec p w p' :
  zp_its p = its_at handles (zp_index p) -> (0 < zp_index p <= length handles)%nat -> (zp_tail_read p <= zp_index p)%nat -> work p = (w, p') ->
  zp_its p' = zp_its p /\ zp_index p' = zp_index p /\ zp_tail_read p' = zp_tail_read p /\ zp_done p' = zp_done p /\ zp_quit p' = zp_quit p /\
  ((w = WaitWork false /\ must_wait p' = true /\ zp_done p = false) \/ (w = Leaving /\ zp_done p = true) \/
   exists h, w = Opening h /\ handles !! zp_index p = Some h /\ ahead p <= compaction_maximum_prefetches).
Proof.
  intros Hits Hi Hr. unfold work. destruct (must_wait p) eqn:Ew, (zp_done p) eqn:Ed; cbn [andb negb zp_done set_tail]; rewrite ?Ed.
  1, 3: intros [= <- <-]; cbn; rewrite Ed; split_and!; try done; right; by left.
  - intros [= <- <-]. split_and!; try done. by left.
  - change (zp_its (set_tail p)) with (zp_its p). change (zp_index (set_tail p)) with (zp_index p).
    assert (Hlt : (zp_index p < length handles)%nat).
    { unfold must_wait in Ew. apply orb_false_iff in Ew as [_ Ew]. apply Nat.eqb_neq in Ew. rewrite Hits, its_at_length in Ew. lia. }
    assert (Ha : ahead p <= compaction_maximum_prefetches).
    { unfold must_wait in Ew. apply orb_false_iff in Ew as [Ew _]. apply Z.ltb_ge in Ew. by rewrite distance in Ew by lia. }
    destruct (lookup_lt_is_Some_2 _ _ Hlt) as [h Hh]. rewrite Hits. erewrite its_at_lookup by (done || lia).
    intros [= <- <-]. cbn. rewrite Ed. split_and!; try done. right; right. by exists h.
Qed.

Lemma take_table_spec p got :
  zp_its p = its_at handles (zp_index p) -> (0 < zp_tail_read p < length handles)%nat ->
  got = opened <$> take (length got) (drop 1 handles) -> S (length got) = zp_tail_read p ->
  (take_table p got = WaitTable false got /\ (zp_index p <= zp_tail_read p)%nat) \/
  (exists h, take_table p got = Reading (got ++ [opened h]) /\ handles !! zp_tail_read p = Some h /\ (zp_tail_read p < zp_index p)%nat /\
     got ++ [opened h] = opened <$> take (length (got ++ [opened h])) (drop 1 handles)).
Proof.
  intros Hits Hr Hgot Hl. unfold take_table. destruct (Nat.leb_spec (zp_index p) (zp_tail_read p)); [by left|]. right.
  destruct (lookup_lt_is_Some_2 handles (zp_tail_read p) ltac:(lia)) as [h Hh]. exists h. rewrite Hits.
  erewrite its_at_lookup by (done || lia). rewrite (proj2 (Nat.ltb_lt _ _)) by lia. split_and!; [done|done|done|].
  rewrite length_app. cbn [length]. rewrite Nat.add_1_r. erewrite take_S_r; [|by rewrite lookup_drop, <-Hl in *].
  by rewrite fmap_app, <-Hgot.
Qed.

(** What a woken worker has to satisfy. *)
Lemma wake_worker_ok w p p' :
  worker_ok handles p w -> zp_index p' = zp_index p -> (zp_tail_read p <= zp_tail_read p')%nat -> zp_quit p' = zp_quit p ->
  (zp_done p = true -> zp_done p' = true) -> worker_ok handles p' (wake_worker w).
Proof.
  unfold worker_ok, ahead. intros Hw -> Hr -> Hd. destruct w; cbn; try done; [split; [apply Hw|lia]|..]; destruct Hw; auto.
Qed.

Lemma wake_worker_gone w : match wake_worker w with Gone => true | _ => false end = match w with Gone => true | _ => false end.
Proof. by destruct w. Qed.

Lemma reader_step_inv st st' : reader_step st st' -> prefetch_inv handles st -> prefetch_inv handles st'.
Proof.
  intros Hs [Pits Pidx Prd Pah Plast Pr Pgot Pw Pd Pq]. destruct Hs as [got w p Hlt|got w p|got w p|got w p]; cbn in *.
  - rewrite Pits, its_at_length in Hlt. destruct Pr as [Pr Pri].
    destruct (take_table_spec (set_tail_read p) got) as [[-> Hle]|(h & -> & Hh & Hlt' & Hg)]; [done|cbn; lia|done|cbn; lia|..];
      constructor; cbn in *; rewrite ?wake_worker_gone; try done; try lia; try (unfold ahead in *; cbn in *; lia);
      try (apply (wake_worker_ok w p); cbn; (done || lia)).
    rewrite length_app. cbn. lia.
  - destruct Pr as [Pr Pri].
    destruct (take_table_spec p got) as [[-> Hle]|(h & -> & Hh & Hlt' & Hg)]; [done|lia|done|lia|..]; constructor; cbn in *; try done; try lia.
    rewrite length_app. cbn. lia.
  - destruct Pr as [Pr Pri]. destruct (zp_quit p) eqn:Eq; constructor; cbn in *; rewrite ?wake_worker_gone; try done; try congruence; by apply (wake_worker_ok w p); cbn.
  - destruct (zp_quit p) eqn:Eq; constructor; cbn in *; try done; congruence.
Qed.

Lemma worker_step_inv st st' : worker_step st st' -> prefetch_inv handles st -> prefetch_inv handles st'.
Proof.
  intros Hs [Pits Pidx Prd Pah Plast Pr Pgot Pw Pd Pq].
  destruct Hs as [r p|r p w p' Hw|r p w p' Hw|r h p p' Hput|r h p Hput|r p]; cbn in *; [done|..].
  1, 2: destruct (work_spec _ _ _ Pits Pidx Prd Hw) as (E1 & E2 & E3 & E4 & E5 & Hc); constructor; cbn in *; rewrite ?E1, ?E2, ?E3, ?E4, ?E5; try done;
    destruct Hc as [(-> & Hm & Hd)|[[-> Hd]|(x & -> & Hx & Ha)]]; try done; unfold worker_ok, ahead in *; by rewrite ?E2, ?E3, ?E5, ?E4.
  - destruct Pw as [Pw Hah]. unfold put in Hput. rewrite Pits, (its_at_lookup _ _ h) in Hput by (done || lia). cbn in Hput.
    injection Hput as <-. pose proof (lookup_lt_Some _ _ _ Pw). constructor; cbn; try done; try lia.
    + by apply its_at_put; [|lia].
    + unfold ahead in *. cbn. lia.
    + destruct r as [got|[] got|[] got|got|]; cbn in *; intuition lia.
    + by destruct r as [got|[] got|[] got|got|].
    + by destruct r as [got|[] got|[] got|got|].
  - destruct Pw as [Pw Hah]. unfold put in Hput. by rewrite Pits, (its_at_lookup _ _ h) in Hput by (done || lia).
  - unfold worker_ok in Pw. destruct Pw as [Hd Hq]. constructor; cbn; try done; [|by destruct r|by destruct r]. destruct r as [got|[] got|[] got|got|]; cbn in *; intuition congruence.
Qed.

Lemma prefetch_step_inv st st' : step st st' -> prefetch_inv handles st -> prefetch_inv handles st'.
Proof.
  intros [x y Hs|x y Hs|r w p _|r w p _]; [by apply reader_step_inv|by apply worker_step_inv|..]; intros [Pits Pidx Prd Pah Plast Pr Pgot Pw Pd Pq].
  - constructor; cbn in *; try done; destruct r; cbn in *; try done; intuition congruence.
  - constructor; cbn in *; rewrite ?wake_worker_gone; try done. by apply (wake_worker_ok w p).
Qed.

(** ** Progress *)

(** Some thread can go on until both have ended. *)
Lemma prefetch_moves r w p :
  prefetch_inv handles (r, w, p) -> (exists st', step (r, w, p) st') \/ ((exists got, r = Destroyed got) /\ w = Gone).
Proof.
  intros [Pits Pidx Prd Pah Plast Pr Pgot Pw Pd Pq]. cbn in *. destruct (work p) as [w' p'] eqn:Ew.
  destruct w as [| |[]|h| | |]; try (by left; eexists; apply step_worker; econstructor).
  - destruct Pw as [Hm Hd]. destruct r as [got|[] got|[] got|got|]; try (by left; eexists; apply step_reader; econstructor).
    + destruct Pr as [_ Hle]. specialize (Hle eq_refl). unfold must_wait in Hm. rewrite Pits, its_at_length, distance in Hm by lia.
      apply orb_true_iff in Hm as [Hm%Z.ltb_lt|Hm%Nat.eqb_eq]; [unfold compaction_maximum_prefetches in Hm; lia|lia].
    + congruence.
    + congruence.
    + done.
  - left. destruct (put p h) eqn:Ep; eexists; apply step_worker; by econstructor.
  - destruct r as [got|[] got|[] got|got|]; try (by left; eexists; apply step_reader; econstructor).
    + by destruct Pw; congruence.
    + specialize (Pr eq_refl). congruence.
    + by right; split; [eexists|].
    + done.
  - done.
Qed.

(** Bounds the number of steps that are left. *)
Definition reader_left (r : reader) : nat :=
  match r with
  | Reading _ => 11 | WaitTable false _ => 12 | WaitTable true _ => 13
  | WaitQuit false _ => 2 | WaitQuit true _ => 3 | Destroyed _ | ReadOutside => 0
  end.
Definition worker_left (w : worker) : nat :=
  match w with Scheduled => 4 | Top | WaitWork true => 3 | Opening _ | Leaving => 2 | WaitWork false => 1 | Gone | WorkOutside => 0 end.
Definition steps_left (st : state) : nat :=
  (5 * (length handles - zp_index st.2) + 5 * (length handles - zp_tail_read st.2) + reader_left st.1.1 + worker_left st.1.2)%nat.

Lemma wake_reader_left r : (reader_left (wake_reader r) <= reader_left r + 1)%nat.
Proof. destruct r as [|[]|[]| |]; cbn; lia. Qed.
Lemma prefetch_wake_left w : (worker_left (wake_worker w) <= worker_left w + 2)%nat.
Proof. destruct w as [| |[]| | | |]; cbn; lia. Qed.

Lemma take_table_left p got : (reader_left (take_table p got) <= 12)%nat.
Proof. unfold take_table. destruct (_ <=? _)%nat; [cbn; lia|]. destruct (_ !! _); cbn; lia. Qed.

Lemma prefetch_step_left st st' : spurious = false -> prefetch_inv handles st -> step st st' -> (steps_left st' < steps_left st)%nat.
Proof.
  intros Hsp Hi Hs. destruct Hs as [x y Hs|x y Hs|r w p E|r w p E]; [..|congruence|congruence]; unfold steps_left;
    destruct Hi as [Pits Pidx Prd Pah Plast Pr Pgot Pw Pd Pq].
  - destruct Hs as [got w p Hlt|got w p|got w p|got w p]; cbn -[Nat.mul Nat.sub] in *.
    + pose proof (take_table_left (set_tail_read p) got). pose proof (prefetch_wake_left w). lia.
    + pose proof (take_table_left p got). lia.
    + pose proof (prefetch_wake_left w). destruct (zp_quit p); cbn -[Nat.mul Nat.sub]; lia.
    + destruct (zp_quit p); cbn -[Nat.mul Nat.sub]; lia.
  - destruct Hs as [r p|r p w p' Hw|r p w p' Hw|r h p p' Hput|r h p Hput|r p]; cbn -[Nat.mul Nat.sub] in *.
    + lia.
    + destruct (work_spec _ _ _ Pits Pidx Prd Hw) as (_ & -> & -> & _ & _ & [(-> & _)|[[-> _]|(x & -> & _)]]); cbn -[Nat.mul Nat.sub]; lia.
    + destruct (work_spec _ _ _ Pits Pidx Prd Hw) as (_ & -> & -> & _ & _ & [(-> & _)|[[-> _]|(x & -> & _)]]); cbn -[Nat.mul Nat.sub]; lia.
    + destruct Pw as [Pw _]. apply lookup_lt_Some in Pw. pose proof (wake_reader_left r).
      apply bind_Some in Hput as ([h' x] & _ & [= <-]). cbn -[Nat.mul Nat.sub]. lia.
    + lia.
    + pose proof (wake_reader_left r). lia.
Qed.

Lemma prefetch_run_inv n st st' :
  relations.nsteps step n st st' -> prefetch_inv handles st ->
  prefetch_inv handles st' /\ (spurious = false -> (n + steps_left st' <= steps_left st)%nat).
Proof.
  induction 1 as [st|n x y z Hxy _ IH]; intros Hi; [split; [done|lia]|].
  destruct (IH (prefetch_step_inv _ _ Hxy Hi)) as [Hz Hn]. split; [done|]. intros Hsp. specialize (Hn Hsp).
  pose proof (prefetch_step_left _ _ Hsp Hi Hxy). lia.
Qed.
End Prefetch.

(** C14: the reader of a level gets the right tables from the prefetching
    thread, and never waits in vain.  However the two threads are interleaved: neither
    leaves the vector; the tables that the reader has taken are the second, the third and
    so on, each with the iterator that was opened from its handle; the worker is never
    more than six tables ahead of the one that is read; and some thread can go on until
    the iterator is destroyed and the worker has ended, which, without spurious wakeups,
    is after a bounded number of steps. *)
Theorem prefetch_scan {It : Type} (zonefunc_ : bytes -> It) spurious handles n st :
  (1 < length handles)%nat -> blen handles < 2 ^ 64 -> relations.nsteps (step zonefunc_ spurious) n (init handles) st ->
  st.1.1 <> ReadOutside /\ st.1.2 <> WorkOutside /\
  got_of st.1.1 = opened zonefunc_ <$> take (length (got_of st.1.1)) (drop 1 handles) /\
  ahead st.2 <= compaction_maximum_prefetches + 1 /\
  ((exists st', step zonefunc_ spurious st st') \/ ((exists got, st.1.1 = Destroyed got) /\ st.1.2 = Gone)) /\
  (spurious = false -> (n <= 10 * length handles + 10)%nat).
Proof.
  intros Hn Hlen Hrun. destruct (prefetch_run_inv zonefunc_ spurious handles Hlen _ _ _ Hrun (prefetch_init zonefunc_ handles Hn)) as [Hi Hb].
  pose proof Hi as [_ _ _ Ha _ Hr Hg Hw _ _]. split_and!; [by intros E; rewrite E in Hr|by intros E; rewrite E in Hw|done|done|..].
  - destruct st as [[r w] p]. by eapply prefetch_moves.
  - intros Hsp. specialize (Hb Hsp). unfold steps_left in Hb. cbn in Hb. lia.
Qed.

(** Three tables; the reader waits for the second one and is destroyed before the third one. *)
Module PrefetchWitness.
Definition handles : list bytes := [[x61]; [x62]; [x63]].
Definition p1 : ZonePrefetcher (It := Z) := set_tail_read (newPrefetcher handles).
Definition p2 : ZonePrefetcher (It := Z) := default p1 (put blen p1 [x62]).
Definition last : state (It := Z) := (Destroyed [([x62], Some 1)], Gone, set_quit (set_tail (set_done p2))).

Lemma run : relations.nsteps (step blen false) 9 (init handles) last.
Proof.
  eapply nsteps_l; [apply step_reader, (read_next [] Scheduled (newPrefetcher handles)); cbn; lia|].
  eapply nsteps_l; [by apply step_worker, work_start|]. eapply nsteps_l; [by apply step_worker, work_top|].
  eapply nsteps_l; [by apply step_worker, (work_put _ _ _ p1 p2)|]. eapply nsteps_l; [by apply step_reader, read_woken|].
  eapply nsteps_l; [by apply step_reader, destroy|]. eapply nsteps_l; [by apply step_worker, work_top|].
  eapply nsteps_l; [by apply step_worker, work_leave|]. eapply nsteps_l; [by apply step_reader, quit_woken|]. apply nsteps_O.
Qed.
End PrefetchWitness.

Lemma prefetch_scan_witness :
  got_of PrefetchWitness.last.1.1 = [([x62], Some 1)] /\ ahead PrefetchWitness.last.2 <= compaction_maximum_prefetches + 1.
Proof.
  split; [done|].
  exact (proj1 (proj2 (proj2 (proj2 (prefetch_scan blen false PrefetchWitness.handles 9 PrefetchWitness.last
    ltac:(cbn; lia) ltac:(by vm_compute) PrefetchWitness.run))))).
Defined.
