(* ===== verification/LNIterator.v ===== *)
(** * LNIterator: iterating over the tables of a level

    [table/iterators/sstable_ln_iterator.h] and [.cc].  An index iterator walks
    over the metadata of the tables and yields handles, encoded descriptions of
    where a table is; the iterator of a table is opened from its handle when it
    is reached, by the caller or ahead of it by the prefetching thread.  The
    thread only calls the function that opens an iterator, so the model calls it
    where the caller waits for the thread.  [None] is an access outside of an
    array, a violated assertion or the end of the process. *)

From S2P Require Import Prelude Coding DbFormat Config SSTable SSTableIter VersionEdit Version Szd Iterators.
From S2P Require Import L0SSTable LNSSTable SSTableManager.

(** ** The index *)

(** [LNZoneIterator], table/iterators/sstable_ln_iterator.h:46-50 *)
Record LNZoneIterator := mkZoneIterator {
  lz_level : Z;
  lz_slist : list SSZoneMetaData;
  lz_index : nat
}.

(** [LNZoneIterator::LNZoneIterator], table/iterators/sstable_ln_iterator.cc:12-15 *)
Definition newZoneIterator (slist : list SSZoneMetaData) (level : Z) : LNZoneIterator :=
  mkZoneIterator level slist (length slist).

Definition set_index (it : LNZoneIterator) (i : nat) : LNZoneIterator := mkZoneIterator (lz_level it) (lz_slist it) i.

(** The size of [value_buf_]. *)
Definition value_buf_size : Z := 256.

(** What [value] writes to the buffer. *)
Definition handle_image (m : SSZoneMetaData) (level : Z) : bytes :=
  EncodeFixed8 (m_LN_lba_regions m) ++
  concat (map (fun '(a, n) => EncodeFixed64 a ++ EncodeFixed64 n)
    (ztake (m_LN_lba_regions m) (zip (m_LN_lbas m) (m_LN_lba_region_sizes m)))) ++
  EncodeFixed64 (m_lba_count m) ++ EncodeFixed8 level ++ EncodeFixed64 (m_number m).

(** [LNZoneIterator::value], table/iterators/sstable_ln_iterator.cc:38-56 *)
Definition lz_value (it : LNZoneIterator) : option bytes :=
  m ← lz_slist it !! lz_index it;
  if max_lba_regions <? m_LN_lba_regions m then None
  else
    let buf := handle_image m (lz_level it) in
    Some (buf ++ replicate (Z.to_nat (value_buf_size - blen buf)) x00).

(** The loop of [DecodeLNIterator]. *)
Fixpoint decode_handle_regions (file_value : bytes) (n : nat) (i : Z) (lbas sizes : list Z) : option (list Z * list Z) :=
  match n with
  | O => Some (lbas, sizes)
  | S n =>
      a ← DecodeFixed64 file_value (1 + 16 * i);
      s ← DecodeFixed64 file_value (9 + 16 * i);
      if i <? max_lba_regions then
        decode_handle_regions file_value n (i + 1) (<[Z.to_nat i := a]> lbas) (<[Z.to_nat i := s]> sizes)
      else None
  end.

(** [LNZoneIterator::DecodeLNIterator], table/iterators/sstable_ln_iterator.cc:19-36.
    [fresh] is the object that the metadata is decoded into. *)
Definition DecodeLNIterator (fresh : SSZoneMetaData) (file_value : bytes) : option (SSZoneMetaData * Z) :=
  regions ← DecodeFixed8 file_value 0;
  '(lbas, sizes) ← decode_handle_regions file_value (Z.to_nat regions) 0 (m_LN_lbas fresh) (m_LN_lba_region_sizes fresh);
  lba_count ← DecodeFixed64 file_value (1 + 16 * regions);
  level ← DecodeFixed8 file_value (9 + 16 * regions);
  number ← DecodeFixed64 file_value (10 + 16 * regions);
  Some (set_number (set_LN fresh regions lbas sizes lba_count) number, level).

(** [LNZoneIterator], table/iterators/sstable_ln_iterator.h:31-37: the simple accessors; with
    [Seek], [SeekToFirst], [SeekToLast], [Next] and [Prev] of the source file. *)
Definition lz_Valid (it : LNZoneIterator) : bool := (lz_index it <? length (lz_slist it))%nat.

(** [LNZoneIterator::Seek], table/iterators/sstable_ln_iterator.cc:58-60 *)
Definition lz_Seek `{UserComparator} (it : LNZoneIterator) (target : bytes) : option LNZoneIterator :=
  i ← FindSSTableIndex (lz_slist it) target; Some (set_index it i).

(** [LNZoneIterator::SeekToFirst], table/iterators/sstable_ln_iterator.cc:67-67 *)
Definition lz_SeekToFirst (it : LNZoneIterator) : option LNZoneIterator := Some (set_index it 0).

(** [LNZoneIterator::SeekToLast], table/iterators/sstable_ln_iterator.cc:69-71 *)
Definition lz_SeekToLast (it : LNZoneIterator) : option LNZoneIterator := Some (set_index it (length (lz_slist it) - 1)).

(** [LNZoneIterator::Next], table/iterators/sstable_ln_iterator.cc:73-76 *)
Definition lz_Next (it : LNZoneIterator) : option LNZoneIterator :=
  if lz_Valid it then Some (set_index it (S (lz_index it))) else None.

(** [LNZoneIterator::Prev], table/iterators/sstable_ln_iterator.cc:78-81 *)
Definition lz_Prev (it : LNZoneIterator) : option LNZoneIterator :=
  if lz_Valid it then Some (set_index it (if (lz_index it =? 0)%nat then length (lz_slist it) else (lz_index it - 1)%nat))
  else None.

#[global] Instance zone_iterator_ops `{UserComparator} : Iterator LNZoneIterator := {|
  i_Valid := lz_Valid;
  i_key it := default [] (m_largest <$> lz_slist it !! lz_index it);
  i_value := lz_value;
  i_status _ := OK;
  i_SeekToFirst := lz_SeekToFirst;
  i_SeekToLast := lz_SeekToLast;
  i_Seek := lz_Seek;
  i_Next := lz_Next;
  i_Prev := lz_Prev
|}.

(** ** The iterator *)

(** [LNIterator], table/iterators/sstable_ln_iterator.h:101-109, with the part of the
    [ZonePrefetcher] that it reads: [tail_read_] and the handles of [its]. *)
Record LNIterator (I : Type) := mkLNIterator {
  li_index : IteratorWrapper LNZoneIterator;
  li_data : IteratorWrapper I;
  li_handle : bytes;
  li_prefetching : bool;
  li_tail_read : nat;
  li_its : list bytes
}.
Arguments mkLNIterator {I}.
Arguments li_index {I}.
Arguments li_data {I}.
Arguments li_handle {I}.
Arguments li_prefetching {I}.
Arguments li_tail_read {I}.
Arguments li_its {I}.

Section LNIterator.
Context `{UserComparator} {I : Type} `{!Iterator I}.
(** [zone_function_]: the iterator of a handle, [Some None] for a null pointer. *)
Context (zone_function : bytes -> option (option I)).

Abbreviation LI := (LNIterator I).
Implicit Types li : LI.

Definition with_index li (w : IteratorWrapper LNZoneIterator) : LI :=
  mkLNIterator w (li_data li) (li_handle li) (li_prefetching li) (li_tail_read li) (li_its li).

(** [LNIterator::SetDataIterator], table/iterators/sstable_ln_iterator.cc:267-269 *)
Definition SetDataIterator li (w : IteratorWrapper I) : LI :=
  mkLNIterator (li_index li) w (li_handle li) (li_prefetching li) (li_tail_read li) (li_its li).

Definition set_handle li (h : bytes) : LI :=
  mkLNIterator (li_index li) (li_data li) h (li_prefetching li) (li_tail_read li) (li_its li).

(** The loop of the constructor that collects the handles of all tables. *)
Fixpoint collect_handles (fuel : nat) (w : IteratorWrapper LNZoneIterator) : option (list bytes) :=
  match fuel with
  | O => None
  | S fuel =>
      if iw_valid w then
        h ← iw_value w; w ← iw_move w i_Next; hs ← collect_handles fuel w; Some (h :: hs)
      else Some []
  end.

(** [LNIterator::LNIterator], table/iterators/sstable_ln_iterator.cc:135-164 *)
Definition newLNIterator (ln_iterator : LNZoneIterator) (env : bool) : option LI :=
  let index := newWrapper (Some ln_iterator) in
  let data := newWrapper None in
  if compaction_allow_prefetching && env then
    index ← iw_move index i_SeekToFirst;
    its ← collect_handles (S (length (lz_slist ln_iterator))) index;
    Some (mkLNIterator index data [] (1 <? length its)%nat 0 its)
  else Some (mkLNIterator index data [] false 0 []).

(** [LNIterator::InitDataZone], table/iterators/sstable_ln_iterator.cc:271-283 *)
Definition InitDataZone li : option LI :=
  if iw_valid (li_index li) then
    handle ← iw_value (li_index li);
    if bool_decide (is_Some (iw_iter (li_data li))) && bool_decide (handle = li_handle li) then Some li
    else
      iter ← zone_function handle;
      Some (SetDataIterator (set_handle li handle) (iw_Set (li_data li) iter))
  else Some (SetDataIterator li (iw_Set (li_data li) None)).

(** The branch of [SkipEmptyDataLbasForward] that takes the next iterator from
    the prefetching thread. *)
Definition take_prefetched li : option LI :=
  let tail_read := S (li_tail_read li) in
  handle ← li_its li !! tail_read;
  current ← iw_value (li_index li);
  let li := mkLNIterator (li_index li) (li_data li) (li_handle li) (li_prefetching li) tail_read (li_its li) in
  if bool_decide (handle = current) then
    if bool_decide (is_Some (iw_iter (li_data li))) && bool_decide (handle = li_handle li) then Some li
    else
      iter ← zone_function handle;
      Some (SetDataIterator (set_handle li handle) (iw_Set (li_data li) iter))
  else None.

(** [if (data_iter_.iter() != nullptr) data_iter_.f()] *)
Definition on_data li (f : I -> option I) : option LI :=
  match iw_iter (li_data li) with
  | None => Some li
  | Some _ => w ← iw_move (li_data li) f; Some (SetDataIterator li w)
  end.

(** [LNIterator::SkipEmptyDataLbasForward], table/iterators/sstable_ln_iterator.cc:218-253 *)
Fixpoint SkipEmptyDataLbasForward (fuel : nat) li : option LI :=
  match fuel with
  | O => None
  | S fuel =>
      if bool_decide (iw_iter (li_data li) = None) || negb (iw_valid (li_data li)) then
        if iw_valid (li_index li) then
          w ← iw_move (li_index li) i_Next;
          let li := with_index li w in
          li ← (if iw_valid (li_index li) && li_prefetching li then take_prefetched li else InitDataZone li);
          li ← on_data li i_SeekToFirst;
          SkipEmptyDataLbasForward fuel li
        else Some (SetDataIterator li (iw_Set (li_data li) None))
      else Some li
  end.

(** [LNIterator::SkipEmptyDataLbasBackward], table/iterators/sstable_ln_iterator.cc:255-265 *)
Fixpoint SkipEmptyDataLbasBackward (fuel : nat) li : option LI :=
  match fuel with
  | O => None
  | S fuel =>
      if bool_decide (iw_iter (li_data li) = None) || negb (iw_valid (li_data li)) then
        if iw_valid (li_index li) then
          w ← iw_move (li_index li) i_Prev;
          li ← InitDataZone (with_index li w);
          li ← on_data li i_SeekToFirst;
          SkipEmptyDataLbasBackward fuel li
        else Some (SetDataIterator li (iw_Set (li_data li) None))
      else Some li
  end.

(** Rounds of the skipping loops: every table once, and the end. *)
Definition skip_fuel li : nat :=
  match iw_iter (li_index li) with Some it => S (S (length (lz_slist it))) | None => 1 end.

(** [LNIterator::Seek], table/iterators/sstable_ln_iterator.cc:180-185 *)
Definition li_Seek li (target : bytes) : option LI :=
  w ← iw_move (li_index li) (fun it => i_Seek it target);
  li ← InitDataZone (with_index li w);
  li ← on_data li (fun it => i_Seek it target);
  SkipEmptyDataLbasForward (skip_fuel li) li.

(** [LNIterator::SeekToFirst], table/iterators/sstable_ln_iterator.cc:192-197 *)
Definition li_SeekToFirst li : option LI :=
  w ← iw_move (li_index li) i_SeekToFirst;
  li ← InitDataZone (with_index li w);
  li ← on_data li i_SeekToFirst;
  SkipEmptyDataLbasForward (skip_fuel li) li.

(** [LNIterator::SeekToLast], table/iterators/sstable_ln_iterator.cc:199-204 *)
Definition li_SeekToLast li : option LI :=
  w ← iw_move (li_index li) i_SeekToLast;
  li ← InitDataZone (with_index li w);
  li ← on_data li i_SeekToLast;
  SkipEmptyDataLbasForward (skip_fuel li) li.

(** [LNIterator::Next], table/iterators/sstable_ln_iterator.cc:206-210 *)
Definition li_Next li : option LI :=
  if iw_valid (li_data li) then
    w ← iw_move (li_data li) i_Next;
    SkipEmptyDataLbasForward (skip_fuel li) (SetDataIterator li w)
  else None.

(** [LNIterator::Prev], table/iterators/sstable_ln_iterator.cc:212-216: it moves the iterator of
    the table forward. *)
Definition li_Prev li : option LI :=
  if iw_valid (li_data li) then
    w ← iw_move (li_data li) i_Next;
    SkipEmptyDataLbasBackward (skip_fuel li) (SetDataIterator li w)
  else None.

(** [LNIterator::SeekForPrev], table/iterators/sstable_ln_iterator.cc:187-190 *)
Definition li_SeekForPrev li (target : bytes) : option LI := li ← li_Seek li target; li_Prev li.

Definition li_ops : Iterator LI := {|
  i_Valid li := iw_valid (li_data li);
  i_key li := iw_key (li_data li);
  i_value li := iw_value (li_data li);
  i_status _ := OK;
  i_SeekToFirst := li_SeekToFirst;
  i_SeekToLast := li_SeekToLast;
  i_Seek := li_Seek;
  i_Next := li_Next;
  i_Prev := li_Prev
|}.
End LNIterator.

(** [TropoSSTableManager::GetLNIterator], table/tropodb_sstable_manager.cc:83-88 *)
Definition GetLNIterator `{UserComparator} {L0 LN : Type} `{!CircularLog L0} `{!FragmentedLog LN} (lba_size zone_cap : Z)
    (fresh : SSZoneMetaData) (mg : TropoSSTableManager L0 LN) (file_value : bytes)
    : option (option SSTableIteratorCompressed) :=
  '(meta, level) ← DecodeLNIterator fresh file_value;
  mg_NewIterator lba_size zone_cap mg level meta.

(** ** Handles *)

Definition region_image (p : Z * Z) : bytes := let '(a, n) := p in EncodeFixed64 a ++ EncodeFixed64 n.

Lemma blen_region_images l : blen (concat (map region_image l)) = 16 * blen l.
Proof.
  induction l as [|[a n] l IH]; [done|]. cbn [map concat]. rewrite blen_app, IH, blen_cons.
  unfold region_image. rewrite blen_app, !blen_EncodeFixed64. lia.
Qed.

(** Overwriting the slots from [k] on. *)
Lemma insert_overlay (l : list Z) k x r :
  (k < length l)%nat -> take (S k) (<[k := x]> l) ++ r = (take k l ++ [x]) ++ r.
Proof.
  intros Hk. rewrite (take_S_r _ _ x) by (by apply list_lookup_insert_eq). by rewrite take_insert_ge by lia.
Qed.

Lemma decode_handle_regions_spec pre done l post lbas sizes :
  blen pre = 1 -> Forall (fun p => is_u64 (fst p) /\ is_u64 (snd p)) l -> (length done + length l <= 8)%nat ->
  length lbas = 8%nat -> length sizes = 8%nat ->
  decode_handle_regions (pre ++ concat (map region_image (done ++ l)) ++ post) (length l) (blen done) lbas sizes =
  Some (take (length done) lbas ++ map fst l ++ drop (length done + length l) lbas,
        take (length done) sizes ++ map snd l ++ drop (length done + length l) sizes).
Proof.
  intros Hpre. revert done lbas sizes. induction l as [|[a n] l IH]; intros done lbas sizes Hok Hlen H8 H8'; cbn [length decode_handle_regions].
  { rewrite Nat.add_0_r. cbn [map app]. by rewrite !take_drop. }
  apply Forall_cons in Hok as [[Ha Hn] Hok]. cbn [fst snd length] in *.
  rewrite map_app, concat_app. cbn [map concat region_image].
  assert (H1 : DecodeFixed64 (pre ++ (concat (map region_image done) ++ (EncodeFixed64 a ++ EncodeFixed64 n) ++
      concat (map region_image l)) ++ post) (1 + 16 * blen done) = Some a).
  { rewrite <-!app_assoc, app_assoc. apply DecodeFixed64_at; [done|]. rewrite blen_app, blen_region_images. lia. }
  assert (H2 : DecodeFixed64 (pre ++ (concat (map region_image done) ++ (EncodeFixed64 a ++ EncodeFixed64 n) ++
      concat (map region_image l)) ++ post) (9 + 16 * blen done) = Some n).
  { rewrite <-!app_assoc, (app_assoc pre), (app_assoc _ (EncodeFixed64 a)). apply DecodeFixed64_at; [done|].
    rewrite !blen_app, blen_region_images, blen_EncodeFixed64. lia. }
  rewrite H1. obind. rewrite H2. obind.
  rewrite (proj2 (Z.ltb_lt _ _)) by (unfold max_lba_regions, blen; lia).
  specialize (IH (done ++ [(a, n)]) (<[Z.to_nat (blen done) := a]> lbas) (<[Z.to_nat (blen done) := n]> sizes)).
  assert (E : Z.to_nat (blen done) = length done) by (unfold blen; lia). rewrite E in *.
  replace (blen (done ++ [(a, n)])) with (blen done + 1) in IH by (rewrite blen_app; done).
  rewrite <-app_assoc in IH. cbn [app] in IH. rewrite map_app, concat_app in IH. cbn [map concat region_image] in IH.
  rewrite IH; [|done|rewrite length_app; cbn; lia|by rewrite length_insert|by rewrite length_insert].
  rewrite length_app. cbn [length]. rewrite !Nat.add_1_r, !insert_overlay by lia. cbn [map app].
  rewrite <-!app_assoc. cbn [app]. rewrite !drop_insert_lt by lia.
  replace (S (length done) + length l)%nat with (length done + S (length l))%nat by lia. done.
Qed.

(** The metadata that a handle decodes to. *)
Definition handle_meta (fresh m : SSZoneMetaData) : SSZoneMetaData :=
  let n := m_LN_lba_regions m in
  set_number (set_LN fresh n (ztake n (m_LN_lbas m) ++ zdrop n (m_LN_lbas fresh))
    (ztake n (m_LN_lba_region_sizes m) ++ zdrop n (m_LN_lba_region_sizes fresh)) (m_lba_count m)) (m_number m).

Lemma handle_decode fresh m level pad :
  meta_ok m -> is_u8 level -> length (m_LN_lbas fresh) = 8%nat -> length (m_LN_lba_region_sizes fresh) = 8%nat ->
  DecodeLNIterator fresh (handle_image m level ++ pad) = Some (handle_meta fresh m, level).
Proof.
  intros Hm Hl H8 H8'. destruct Hm as [Hnum _ _ _ Hreg [Hlb Hlbu] [Hsz Hszu] _ Hcnt _ _].
  set (n := m_LN_lba_regions m) in *. set (l := ztake n (zip (m_LN_lbas m) (m_LN_lba_region_sizes m))).
  assert (Hll : length l = Z.to_nat n) by (unfold l, ztake; rewrite length_take, length_zip; lia).
  assert (Hbl : blen l = n) by (unfold blen; lia).
  assert (Hfst : map fst l = ztake n (m_LN_lbas m)).
  { unfold l, ztake. change (map fst) with (fmap (M := list) (@fst Z Z)). rewrite fmap_take, fst_zip by lia. done. }
  assert (Hsnd : map snd l = ztake n (m_LN_lba_region_sizes m)).
  { unfold l, ztake. change (map snd) with (fmap (M := list) (@snd Z Z)). rewrite fmap_take, snd_zip by lia. done. }
  assert (Hu : Forall (fun p => is_u64 (fst p) /\ is_u64 (snd p)) l).
  { apply Forall_forall. intros [a b] Hin. rewrite Forall_forall in Hlbu, Hszu.
    eapply elem_of_sublist in Hin; [|unfold l, ztake; apply sublist_take].
    split; [apply Hlbu|apply Hszu]; [eapply elem_of_zip_l|eapply elem_of_zip_r]; exact Hin. }
  assert (Ei : handle_image m level ++ pad = EncodeFixed8 n ++ concat (map region_image ([] ++ l)) ++
    EncodeFixed64 (m_lba_count m) ++ EncodeFixed8 level ++ EncodeFixed64 (m_number m) ++ pad).
  { unfold handle_image. fold n. fold l. rewrite <-!app_assoc. done. }
  pose proof (decode_handle_regions_spec (EncodeFixed8 n) [] l
    (EncodeFixed64 (m_lba_count m) ++ EncodeFixed8 level ++ EncodeFixed64 (m_number m) ++ pad)
    (m_LN_lbas fresh) (m_LN_lba_region_sizes fresh)) as Hdec.
  rewrite <-Ei in Hdec. rewrite Hll in Hdec. unfold DecodeLNIterator.
  assert (D1 : DecodeFixed8 (handle_image m level ++ pad) 0 = Some n).
  { rewrite Ei. apply (DecodeFixed8_at []); [unfold is_u8; lia|done]. }
  assert (D2 : DecodeFixed64 (handle_image m level ++ pad) (1 + 16 * n) = Some (m_lba_count m)).
  { rewrite Ei, app_assoc. apply DecodeFixed64_at; [done|]. rewrite blen_app, blen_region_images, blen_EncodeFixed8. cbn [app]. lia. }
  assert (D3 : DecodeFixed8 (handle_image m level ++ pad) (9 + 16 * n) = Some level).
  { rewrite Ei, app_assoc, (app_assoc _ (EncodeFixed64 _)). apply DecodeFixed8_at; [done|].
    rewrite !blen_app, blen_region_images, blen_EncodeFixed8, blen_EncodeFixed64. cbn [app]. lia. }
  assert (D4 : DecodeFixed64 (handle_image m level ++ pad) (10 + 16 * n) = Some (m_number m)).
  { rewrite Ei, app_assoc, (app_assoc _ (EncodeFixed64 _)), (app_assoc _ (EncodeFixed8 _)). apply DecodeFixed64_at; [done|].
    rewrite !blen_app, blen_region_images, !blen_EncodeFixed8, blen_EncodeFixed64. cbn [app]. lia. }
  rewrite D1. obind. change (blen (A := Z * Z) []) with 0 in Hdec. rewrite Hdec; [|apply blen_EncodeFixed8|done|cbn; lia|done|done].
  obind. rewrite D2. obind. rewrite D3. obind. rewrite D4. obind. cbn [length Nat.add take app].
  rewrite Hfst, Hsnd. done.
Qed.

(** ** A scan of the level *)

Section Scan.
Context `{UserComparator} {I : Type} `{!Iterator I} `{!ForwardIterator I}.
Context (zone_function : bytes -> option (option I)).
(** The tables of the level, their handles and their entries. *)
Context (level : Z) (slist : list SSZoneMetaData) (handles : list bytes) (kvss : list (list KV)).
Context (Hhandles : forall k, lz_value (mkZoneIterator level slist k) = handles !! k).
Context (Hlength : length handles = length slist) (Hdistinct : NoDup handles).
Context (Hopen : Forall2 (fun h kvs => kvs <> [] /\ exists it, zone_function h = Some (Some it) /\ fi_over it kvs) handles kvss).

Abbreviation LI := (LNIterator I).
Implicit Types li : LI.

Definition index_at li (k : nat) : Prop :=
  iw_ok (li_index li) /\ iw_iter (li_index li) = Some (mkZoneIterator level slist k).

(** The prefetching thread is as far as the index. *)
Definition prefetch_at li (k : nat) : Prop :=
  li_prefetching li = true -> li_tail_read li = k /\ li_its li = handles.

Definition li_rest li (rest : list KV) : Prop :=
  (exists k h r, index_at li k /\ handles !! k = Some h /\ li_handle li = h /\ prefetch_at li k /\
     iw_rest (li_data li) r /\ r <> [] /\ rest = r ++ concat (drop (S k) kvss)) \/
  (iw_valid (li_data li) = false /\ rest = []).

Definition li_over li (kvs : list KV) : Prop :=
  iw_ok (li_index li) /\ (exists k, iw_iter (li_index li) = Some (mkZoneIterator level slist k)) /\
  iw_iter (li_data li) = None /\ prefetch_at li 0 /\ kvs = concat kvss.

Lemma index_valid li k : index_at li k -> iw_valid (li_index li) = (k <? length slist)%nat.
Proof. intros [Hok E]. unfold iw_ok in Hok. rewrite E in Hok. apply Hok. Qed.

Lemma index_value li k : index_at li k -> (k < length slist)%nat -> iw_value (li_index li) = handles !! k.
Proof.
  intros Hi Hk. unfold iw_value. rewrite (index_valid _ _ Hi), (proj2 (Nat.ltb_lt _ _)) by done.
  destruct Hi as [_ ->]. obind. apply Hhandles.
Qed.

Lemma skip_fuel_at li k : index_at li k -> skip_fuel li = S (S (length slist)).
Proof. intros [_ E]. unfold skip_fuel. by rewrite E. Qed.

(** The iterator of table [k] is opened and moved to its first entry. *)
Lemma open_zone k h : handles !! k = Some h ->
  exists kvs it, kvss !! k = Some kvs /\ kvs <> [] /\ zone_function h = Some (Some it) /\ fi_over it kvs.
Proof.
  intros Hk. destruct (Forall2_lookup_l _ _ _ _ _ Hopen Hk) as (kvs & Hkvs & Hne & it & Hz & Ho). by exists kvs, it.
Qed.

Lemma kvss_drop k kvs : kvss !! k = Some kvs -> concat (drop k kvss) = kvs ++ concat (drop (S k) kvss).
Proof. intros Hk. by rewrite (drop_S _ _ _ Hk). Qed.

(** The loop of the skipping stops at an iterator that has entries. *)
Lemma skip_done fuel li r : iw_rest (li_data li) r -> r <> [] -> SkipEmptyDataLbasForward zone_function (S fuel) li = Some li.
Proof.
  intros Hr Hne. cbn [SkipEmptyDataLbasForward]. rewrite (iw_rest_valid _ _ Hr).
  destruct Hr as [_ (it & -> & _)]. rewrite bool_decide_false by done. by destruct r.
Qed.

Lemma skip_end fuel li k :
  iw_iter (li_data li) = None -> index_at li k -> (length slist <= k)%nat ->
  exists li', SkipEmptyDataLbasForward zone_function (S fuel) li = Some li' /\ li_rest li' [].
Proof.
  intros Hd Hi Hk. cbn [SkipEmptyDataLbasForward]. rewrite bool_decide_true by done. cbn [orb].
  rewrite (index_valid _ _ Hi), (proj2 (Nat.ltb_ge _ _)) by done. eexists. split; [done|]. by right.
Qed.

(** Opening the table of the index, with the iterator of another one before. *)
Lemma open_at li k h (f : LI -> option LI) :
  index_at li k -> handles !! k = Some h ->
  (forall it, zone_function h = Some (Some it) ->
     exists li1, f li = Some li1 /\ li_data li1 = iw_Set (li_data li) (Some it) /\
       index_at li1 k /\ li_handle li1 = h /\ prefetch_at li1 k) ->
  exists li2 rest, (li1 ← f li; on_data li1 i_SeekToFirst) = Some li2 /\ index_at li2 k /\ li_rest li2 rest /\
    rest = concat (drop k kvss) /\ (exists r, iw_rest (li_data li2) r /\ r <> []).
Proof.
  intros Hi Hh Hf. destruct (open_zone k h Hh) as (kvs & it & Hk & Hne & Hz & Ho).
  destruct (Hf it Hz) as (li1 & -> & Hd & Hi1 & Hh1 & Hp1). obind.
  destruct (iw_first (li_data li1) it kvs) as (w & Ew & Hw); [by rewrite Hd|done|].
  unfold on_data. rewrite Ew. rewrite Hd. cbn [iw_Set Update iw_iter]. obind.
  exists (SetDataIterator li1 w), (concat (drop k kvss)). split_and!; [done|exact Hi1| |done|by exists kvs].
  left. exists k, h, kvs. split_and!; [exact Hi1|done|exact Hh1|exact Hp1|exact Hw|done|by apply kvss_drop].
Qed.

Lemma InitDataZone_open li k h it :
  index_at li k -> handles !! k = Some h -> prefetch_at li k -> (iw_iter (li_data li) = None \/ li_handle li <> h) ->
  zone_function h = Some (Some it) ->
  exists li1, InitDataZone zone_function li = Some li1 /\ li_data li1 = iw_Set (li_data li) (Some it) /\
    index_at li1 k /\ li_handle li1 = h /\ prefetch_at li1 k.
Proof.
  intros Hi Hh Hp Hnew Hz. assert (Hk : (k < length slist)%nat) by (rewrite <-Hlength; by eapply lookup_lt_Some).
  unfold InitDataZone. rewrite (index_valid _ _ Hi), (proj2 (Nat.ltb_lt _ _)) by done.
  rewrite (index_value _ _ Hi Hk), Hh. obind.
  replace (bool_decide _ && bool_decide _) with false.
  2: { symmetry. apply andb_false_iff. destruct Hnew as [->|Hne]; [left|right]; apply bool_decide_false; [by intros []|done]. }
  rewrite Hz. obind. eexists. split; [done|]. cbn. split_and!; [done|exact Hi|done|exact Hp].
Qed.

Lemma take_prefetched_open li k h it :
  index_at li (S k) -> handles !! S k = Some h -> li_prefetching li = true -> prefetch_at li k -> li_handle li <> h ->
  zone_function h = Some (Some it) ->
  exists li1, take_prefetched zone_function li = Some li1 /\ li_data li1 = iw_Set (li_data li) (Some it) /\
    index_at li1 (S k) /\ li_handle li1 = h /\ prefetch_at li1 (S k).
Proof.
  intros Hi Hh Hpf Hp Hnew Hz. assert (Hk : (S k < length slist)%nat) by (rewrite <-Hlength; by eapply lookup_lt_Some).
  destruct (Hp Hpf) as [Ht Hits]. unfold take_prefetched. rewrite Ht, Hits, Hh. obind.
  rewrite (index_value _ _ Hi Hk), Hh. obind. rewrite bool_decide_true by done. cbn [li_data li_handle].
  rewrite (bool_decide_false (h = li_handle li)) by congruence. rewrite andb_false_r.
  rewrite Hz. obind. eexists. split; [done|]. cbn. split_and!; [done|exact Hi|done|]. intros _. done.
Qed.

(** From an exhausted table to the next one, or to the end. *)
Lemma skip_next fuel li k h :
  index_at li k -> handles !! k = Some h -> li_handle li = h -> prefetch_at li k -> iw_valid (li_data li) = false ->
  exists li', SkipEmptyDataLbasForward zone_function (S (S fuel)) li = Some li' /\ li_rest li' (concat (drop (S k) kvss)).
Proof.
  intros Hi Hh Hhan Hp Hv. assert (Hk : (k < length slist)%nat) by (rewrite <-Hlength; by eapply lookup_lt_Some).
  remember (S fuel) as fuel1 eqn:Ef. cbn [SkipEmptyDataLbasForward]. rewrite Hv, orb_true_r.
  rewrite (index_valid _ _ Hi), (proj2 (Nat.ltb_lt _ _)) by done.
  unfold iw_move at 1. rewrite (proj2 Hi). obind. cbn [i_Next zone_iterator_ops]. unfold lz_Next, lz_Valid at 1.
  cbn [lz_index lz_slist]. rewrite (proj2 (Nat.ltb_lt _ _)) by done. obind.
  set (w := Update _ _). assert (Hi1 : index_at (with_index li w) (S k)) by (split; [apply Update_ok|done]).
  assert (Hp1 : prefetch_at (with_index li w) k) by exact Hp.
  rewrite (index_valid _ _ Hi1). cbn [li_prefetching with_index].
  destruct (handles !! S k) as [h'|] eqn:Hh'.
  - assert (Hk' : (S k < length slist)%nat) by (rewrite <-Hlength; by eapply lookup_lt_Some).
    rewrite (proj2 (Nat.ltb_lt _ _)) by done. cbn [andb].
    assert (Hne : li_handle (with_index li w) <> h').
    { cbn. rewrite Hhan. intros ->. assert (k = S k) by (by eapply NoDup_lookup). lia. }
    destruct (open_at (with_index li w) (S k) h' (fun li => if li_prefetching li then take_prefetched zone_function li
      else InitDataZone zone_function li) Hi1 Hh') as (li2 & rest & E & Hi2 & Hr2 & -> & r & Hr & Hrne).
    { intros it Hz. cbn [li_prefetching with_index]. destruct (li_prefetching li) eqn:Epf.
      - apply take_prefetched_open; try done.
      - apply InitDataZone_open; try done; [|by right]. intros Ht. cbn in Ht. congruence. }
    cbn [li_prefetching with_index] in E. cbn [mbind option_bind] in E |- *.
    destruct (if li_prefetching li then _ else _) as [li1|]; [|done]. cbn [mbind option_bind] in E |- *.
    rewrite E. cbn [mbind option_bind]. exists li2. split; [|done]. subst fuel1. by eapply skip_done.
  - assert (Hge : (length slist <= S k)%nat) by (rewrite <-Hlength; by apply lookup_ge_None).
    rewrite (proj2 (Nat.ltb_ge _ _)) by done. cbn [andb]. unfold InitDataZone. rewrite (index_valid _ _ Hi1).
    rewrite (proj2 (Nat.ltb_ge _ _)) by done. obind. unfold on_data. cbn [li_data SetDataIterator iw_Set iw_iter]. obind.
    assert (E : concat (drop (S k) kvss) = []).
    { rewrite drop_ge; [done|]. rewrite <-(Forall2_length _ _ _ Hopen), Hlength. lia. }
    rewrite E. subst fuel1. eapply skip_end; [done|exact Hi1|done].
Qed.

Lemma li_first li kvs :
  li_over li kvs -> exists li', li_SeekToFirst zone_function li = Some li' /\ li_rest li' kvs.
Proof.
  intros (Hok & (k & Ek) & Hd & Hp & ->). unfold li_SeekToFirst, iw_move at 1. rewrite Ek. obind.
  cbn [i_SeekToFirst zone_iterator_ops]. unfold lz_SeekToFirst. obind. set (w := Update _ _).
  assert (Hi1 : index_at (with_index li w) 0) by (split; [apply Update_ok|done]).
  destruct (handles !! 0%nat) as [h|] eqn:Hh.
  - destruct (open_at (with_index li w) 0 h (InitDataZone zone_function) Hi1 Hh) as (li2 & rest & E & Hi2 & Hr2 & -> & r & Hr & Hrne).
    { intros it Hz. apply InitDataZone_open; try done. by left. }
    apply bind_Some in E as (li1 & -> & E). obind. rewrite E. obind. exists li2.
    rewrite (skip_fuel_at _ _ Hi2). split; [by eapply skip_done|done].
  - assert (Hge : (length slist <= 0)%nat) by (rewrite <-Hlength; by apply lookup_ge_None).
    unfold InitDataZone. rewrite (index_valid _ _ Hi1), (proj2 (Nat.ltb_ge _ _)) by done. obind.
    unfold on_data. cbn [li_data SetDataIterator iw_Set iw_iter]. obind.
    assert (E : concat kvss = []).
    { destruct kvss; [done|]. apply Forall2_length in Hopen. cbn in Hopen. lia. }
    rewrite E. eapply skip_end; [done|exact Hi1|done].
Qed.

Lemma li_next li kv kvs :
  li_rest li (kv :: kvs) -> exists li', li_Next zone_function li = Some li' /\ li_rest li' kvs.
Proof.
  intros [(k & h & r & Hi & Hh & Hhan & Hp & Hr & Hne & E)|[_ ?]]; [|done]. destruct r as [|kv' r]; [done|].
  injection E as -> ->. unfold li_Next. rewrite (iw_rest_valid _ _ Hr).
  destruct (iw_rest_next _ _ _ Hr) as (w & Ew & Hw). rewrite Ew. obind.
  assert (Hi' : index_at (SetDataIterator li w) k) by exact Hi.
  rewrite (skip_fuel_at _ _ Hi). destruct r as [|kv1 r].
  - eapply skip_next; [exact Hi'|exact Hh|exact Hhan|exact Hp|exact (iw_rest_valid _ _ Hw)].
  - exists (SetDataIterator li w). split; [by eapply skip_done|]. left. exists k, h, (kv1 :: r). done.
Qed.

Definition li_forward : ForwardIterator LI (Iterator0 := li_ops zone_function).
Proof.
  refine (@Build_ForwardIterator LI (li_ops zone_function) li_over li_rest li_first _ _ li_next);
    cbn [i_Valid i_key i_value li_ops].
  - intros li kvs [(k & h & r & _ & _ & _ & _ & Hr & Hne & ->)|[-> ->]]; [|done].
    rewrite (iw_rest_valid _ _ Hr). by destruct r.
  - intros li kv kvs [(k & h & r & _ & _ & _ & _ & Hr & Hne & E)|[_ ?]]; [|done]. destruct r as [|kv' r]; [done|].
    injection E as -> ->. destruct (iw_rest_head _ _ _ Hr) as [Hk Hv]. split; [|done].
    unfold iw_get_key in Hk. rewrite (iw_rest_valid _ _ Hr) in Hk. by injection Hk.
Defined.

(** The handles that the constructor collects. *)
Lemma collect_handles_spec fuel w k :
  iw_ok w -> iw_iter w = Some (mkZoneIterator level slist k) -> (length slist - k < fuel)%nat ->
  collect_handles fuel w = Some (drop k handles).
Proof.
  revert w k. induction fuel as [|fuel IH]; intros w k Hok E Hf; [lia|]. cbn [collect_handles].
  assert (Hi : index_at (mkLNIterator w (newWrapper None) [] false 0 []) k) by done.
  pose proof (index_valid _ _ Hi) as Hv. cbn [li_index] in Hv. rewrite Hv.
  destruct (Nat.ltb_spec k (length slist)) as [Hlt|Hge]; [|by rewrite drop_ge by lia].
  pose proof (index_value _ _ Hi Hlt) as Hval. cbn [li_index] in Hval. rewrite Hval.
  destruct (lookup_lt_is_Some_2 handles k ltac:(lia)) as [h Hh]. rewrite Hh. obind.
  unfold iw_move. rewrite E. obind. cbn [i_Next zone_iterator_ops]. unfold lz_Next, lz_Valid. cbn [lz_index lz_slist].
  rewrite (proj2 (Nat.ltb_lt _ _)) by done. obind. rewrite (IH _ (S k)); [|apply Update_ok|done|lia]. obind.
  by rewrite (drop_S _ _ _ Hh).
Qed.

(** The iterator that the constructor makes, with and without the thread. *)
Lemma newLNIterator_over env : exists li, newLNIterator (newZoneIterator slist level) env = Some li /\ li_over li (concat kvss).
Proof.
  unfold newLNIterator. destruct (compaction_allow_prefetching && env).
  - unfold iw_move. cbn [newWrapper iw_Set Update iw_iter i_SeekToFirst zone_iterator_ops lz_SeekToFirst newZoneIterator
      set_index lz_slist lz_level mbind option_bind].
    rewrite (collect_handles_spec _ _ 0) by (apply Update_ok || done || lia). obind. rewrite drop_0.
    eexists. split; [done|]. split_and!; [apply Update_ok|by exists 0%nat|done| |done]. intros _. done.
  - eexists. split; [done|]. split_and!; [apply Update_ok|by exists (length slist)|done|done|done].
Qed.
End Scan.

(** What a scan of a level needs: distinct handles, one for each table, that open
    iterators over its entries. *)
Record scan_ok {I} `{!Iterator I} `{!ForwardIterator I} (zone_function : bytes -> option (option I))
    (level : Z) (slist : list SSZoneMetaData) (handles : list bytes) (kvss : list (list KV)) : Prop := {
  so_handles : forall k, lz_value (mkZoneIterator level slist k) = handles !! k;
  so_length : length handles = length slist;
  so_distinct : NoDup handles;
  so_open : Forall2 (fun h kvs => kvs <> [] /\ exists it, zone_function h = Some (Some it) /\ fi_over it kvs) handles kvss
}.

Section Children.
Context `{UserComparator} {I : Type} `{!Iterator I} `{!ForwardIterator I}.
Context (zone_function : bytes -> option (option I)).

(** The children of a compaction: tables of level 0 and iterators over levels. *)
Inductive child := CTable (it : I) | CLevel (li : LNIterator I).

Definition child_map (c : child) (f : I -> option I) (g : LNIterator I -> option (LNIterator I)) : option child :=
  match c with CTable it => CTable <$> f it | CLevel li => CLevel <$> g li end.

Definition child_ops : Iterator child := {|
  i_Valid c := match c with CTable it => i_Valid it | CLevel li => i_Valid (Iterator := li_ops zone_function) li end;
  i_key c := match c with CTable it => i_key it | CLevel li => i_key (Iterator := li_ops zone_function) li end;
  i_value c := match c with CTable it => i_value it | CLevel li => i_value (Iterator := li_ops zone_function) li end;
  i_status c := match c with CTable it => i_status it | CLevel li => i_status (Iterator := li_ops zone_function) li end;
  i_SeekToFirst c := child_map c i_SeekToFirst (li_SeekToFirst zone_function);
  i_SeekToLast c := child_map c i_SeekToLast (li_SeekToLast zone_function);
  i_Seek c target := child_map c (fun it => i_Seek it target) (fun li => li_Seek zone_function li target);
  i_Next c := child_map c i_Next (li_Next zone_function);
  i_Prev c := child_map c i_Prev (li_Prev zone_function)
|}.

Definition child_over (c : child) (kvs : list KV) : Prop :=
  match c with
  | CTable it => fi_over it kvs
  | CLevel li => exists level slist handles kvss, scan_ok zone_function level slist handles kvss /\
      li_over level slist handles kvss li kvs
  end.
Definition child_rest (c : child) (kvs : list KV) : Prop :=
  match c with
  | CTable it => fi_rest it kvs
  | CLevel li => exists level slist handles kvss, scan_ok zone_function level slist handles kvss /\
      li_rest level slist handles kvss li kvs
  end.

Definition child_forward : ForwardIterator child (Iterator0 := child_ops).
Proof.
  refine (@Build_ForwardIterator child child_ops child_over child_rest _ _ _ _);
    intros [it|li]; cbn [i_SeekToFirst i_Valid i_key i_value i_Next child_ops child_map child_over child_rest].
  - intros kvs Ho. destruct (fi_first _ _ Ho) as (it' & -> & Hr). by exists (CTable it').
  - intros kvs (level & slist & hs & kvss & Hok & Ho). pose proof Hok as [H1 H2 H3 H4].
    destruct (li_first zone_function level slist hs kvss H1 H2 H4 li kvs Ho) as (li' & -> & Hr).
    exists (CLevel li'). split; [done|]. by exists level, slist, hs, kvss.
  - intros kvs Hr. by apply fi_valid.
  - intros kvs (level & slist & hs & kvss & Hok & Hr). pose proof Hok as [H1 H2 H3 H4].
    exact (fi_valid (ForwardIterator := li_forward zone_function level slist hs kvss H1 H2 H3 H4) li kvs Hr).
  - intros kv kvs Hr. by apply fi_head in Hr.
  - intros kv kvs (level & slist & hs & kvss & Hok & Hr). pose proof Hok as [H1 H2 H3 H4].
    exact (fi_head (ForwardIterator := li_forward zone_function level slist hs kvss H1 H2 H3 H4) li kv kvs Hr).
  - intros kv kvs Hr. destruct (fi_next _ _ _ Hr) as (it' & -> & Hr'). by exists (CTable it').
  - intros kv kvs (level & slist & hs & kvss & Hok & Hr). pose proof Hok as [H1 H2 H3 H4].
    destruct (li_next zone_function level slist hs kvss H1 H2 H3 H4 li kv kvs Hr) as (li' & -> & Hr').
    exists (CLevel li'). split; [done|]. by exists level, slist, hs, kvss.
Defined.
End Children.

(** ** The tables of a stored level *)

(** Metadata with the regions of other metadata. *)
Lemma records_copy zone_cap m m' ptrs k k' :
  records zone_cap m ptrs -> m_LN_lba_regions m' = m_LN_lba_regions m ->
  m_LN_lbas m' = ztake (m_LN_lba_regions m) (m_LN_lbas m) ++ k ->
  m_LN_lba_region_sizes m' = ztake (m_LN_lba_regions m) (m_LN_lba_region_sizes m) ++ k' ->
  m_lba_count m' = m_lba_count m -> records zone_cap m' ptrs.
Proof.
  intros [Hmax Hn Hl Hs Hc] En El Es Ec. rewrite Hn in *. pose proof (blen_nonneg ptrs).
  assert (E : Z.to_nat (blen ptrs) = length ptrs) by (unfold blen; lia).
  assert (Hlen : forall (l k : list Z) (g : Z * Z -> Z), take (length ptrs) l = map g ptrs ->
    take (length ptrs) (ztake (blen ptrs) l ++ k) = map g ptrs).
  { intros l k0 g Ht. unfold ztake. rewrite E, Ht, take_app_length'; [done|]. by rewrite length_map. }
  constructor; [done|done|rewrite El; by apply Hlen|rewrite Es; by apply Hlen|congruence].
Qed.

Section Stored.
Context `{UserComparator} {L0 LN : Type} `{!CircularLog L0} `{!FragmentedLog LN}.
Context (lba_size zone_cap l0_min l0_max ln_min ln_max : Z).
Context `{!CircularLogLaws L0 lba_size (l0_min * zone_cap) (l0_max * zone_cap)}.
Context `{!FragmentedLogLaws LN (zone_cap * lba_size) ln_min ln_max}.
Context (HL : 0 < lba_size) (Hzc : 0 < zone_cap) (Hl0 : 0 <= l0_min <= l0_max) (Hln : 0 <= ln_min <= ln_max).
Context (Hbig0 : l0_max * zone_cap * lba_size < 2 ^ 60) (Hbig : ln_max * zone_cap * lba_size < 2 ^ 60).
Context (fresh : SSZoneMetaData) (H8 : length (m_LN_lbas fresh) = 8%nat) (H8' : length (m_LN_lba_region_sizes fresh) = 8%nat).

Lemma handle_records m ptrs : records zone_cap m ptrs -> records zone_cap (handle_meta fresh m) ptrs.
Proof. intros Hr. by eapply records_copy. Qed.

(** A table of the level, with its entries. *)
Definition stored_table (mg : TropoSSTableManager L0 LN) (level : Z) (m : SSZoneMetaData) (kvs : list KV) : Prop :=
  meta_ok m /\ kvs <> [] /\ small_table kvs /\
  exists pad, mg_table lba_size zone_cap l0_min l0_max ln_min ln_max mg level m (table_image kvs ++ pad).

Abbreviation zone_function mg := (GetLNIterator lba_size zone_cap fresh mg).

Lemma stored_open mg level m kvs pad :
  mg_wf l0_min l0_max ln_min ln_max mg -> 1 <= level < level_count -> stored_table mg level m kvs ->
  exists it, zone_function mg (handle_image m level ++ pad) = Some (Some it) /\ table_over it kvs.
Proof.
  intros Hwf Hl (Hm & Hne & Hs & pad0 & Ht). unfold GetLNIterator.
  rewrite handle_decode by (done || (unfold is_u8; change level_count with 6 in Hl; lia)). obind.
  destruct (mg_iterator lba_size zone_cap l0_min l0_max ln_min ln_max HL Hzc Hl0 Hln Hbig0 Hbig mg level
    (handle_meta fresh m) kvs pad0 Hwf) as (it & pad1 & -> & Hti & Hok & _); [lia| |done|done|].
  - unfold mg_table in *. rewrite (proj2 (Z.eqb_neq _ _)) in * by lia. destruct Ht as (ptrs & Hh & Hr).
    exists ptrs. split; [done|]. by apply handle_records.
  - exists it. split; [done|]. by exists pad1.
Qed.

(** The handles of the tables. *)
Definition handle_of (level : Z) (m : SSZoneMetaData) : bytes :=
  handle_image m level ++ replicate (Z.to_nat (value_buf_size - blen (handle_image m level))) x00.

Lemma stored_scan_ok mg level slist kvss :
  mg_wf l0_min l0_max ln_min ln_max mg -> 1 <= level < level_count -> NoDup (m_number <$> slist) ->
  Forall2 (stored_table mg level) slist kvss ->
  scan_ok (zone_function mg) level slist (handle_of level <$> slist) kvss.
Proof.
  intros Hwf Hl Hnd Hst. assert (Hu8 : is_u8 level) by (unfold is_u8; change level_count with 6 in Hl; lia).
  assert (Hok : forall m, m ∈ slist -> meta_ok m).
  { intros m [k Hk]%list_elem_of_lookup. destruct (Forall2_lookup_l _ _ _ _ _ Hst Hk) as (kvs & _ & Hm & _). done. }
  constructor.
  - intros k. rewrite list_lookup_fmap. unfold lz_value. cbn [lz_slist lz_index lz_level].
    destruct (slist !! k) as [m|] eqn:Hk; [|done]. obind. cbn [fmap option_fmap option_map].
    rewrite (proj2 (Z.ltb_ge _ _)); [done|]. pose proof (mo_regions _ (Hok m ltac:(by eapply list_elem_of_lookup_2))).
    unfold max_lba_regions. lia.
  - apply length_fmap.
  - apply NoDup_fmap_2_strong; [|by eapply NoDup_fmap_1]. intros m m' Hm Hm' E.
    pose proof (handle_decode fresh m level (replicate (Z.to_nat (value_buf_size - blen (handle_image m level))) x00) (Hok m Hm) Hu8 H8 H8') as D1.
    pose proof (handle_decode fresh m' level (replicate (Z.to_nat (value_buf_size - blen (handle_image m' level))) x00) (Hok m' Hm') Hu8 H8 H8') as D2.
    fold (handle_of level m) in D1. fold (handle_of level m') in D2. rewrite E, D2 in D1.
    apply (f_equal (fun r => m_number (default (fresh, 0) r).1)) in D1. cbn in D1.
    symmetry. by apply (NoDup_fmap_inj_on m_number slist).
  - clear Hnd Hok. induction Hst as [|m kvs slist kvss Hm _ IH]; [constructor|]. constructor; [|done].
    split; [apply Hm|]. by apply (stored_open mg level m kvs).
Qed.
End Stored.
