(* ===== verification/Compaction.v ===== *)
(** * Compaction: merging the tables of two levels

    [index/tropodb_compaction.h] and [.cc].  A compaction reads its input tables
    through one merging iterator, drops the entries that newer ones shadow, and
    writes the rest as new tables of the next level.  With deferred writes, which
    the configuration selects, finished tables are queued for a second thread
    that writes them in order; the model writes the queue when the main thread
    joins it, since a write leaves the stored tables as they are.  [None] is a
    violated assertion, an access outside of an array or the end of the
    process. *)

From S2P Require Import Prelude Coding DbFormat Config SSTable SSTableIter VersionEdit Version Szd Iterators.
From S2P Require Import VersionBuilder Manifest VersionSet PickCompaction L0SSTable LNSSTable SSTableManager LNIterator.

(** ** The targets *)

(** [TropoCompaction::HasOverlapWithOtherCompaction], index/tropodb_compaction.cc:42-57 *)
Definition HasOverlapWithOtherCompaction (c : TropoCompaction) (metas : list SSZoneMetaData) : bool :=
  existsb (fun target =>
    existsb (fun c0 => m_number target =? m_number c0) (c_targets0 c) ||
    existsb (fun c1 => m_number target =? m_number c1) (c_targets1 c)) metas.

(** [TropoCompaction::GetCompactionTargets], index/tropodb_compaction.cc:59-64 *)
Definition GetCompactionTargets (c : TropoCompaction) : list SSZoneMetaData := c_targets0 c ++ c_targets1 c.

(** The value of an [int]. *)
Definition i32 (z : Z) : Z := (z + 2 ^ 31) mod 2 ^ 32 - 2 ^ 31.

(** [LbasInSSTables], index/tropodb_compaction.cc:66-71.  The accumulator is an [int]. *)
Definition LbasInSSTables (ss : list SSZoneMetaData) : Z :=
  u64 (fold_left (fun sum m => i32 (u64 (sum + m_lba_count m))) ss 0).

(** [MaxGrandParentOverlapBytes], index/tropodb_compaction.cc:73-77 *)
Definition MaxGrandParentOverlapBytes (lba_size : Z) : Z :=
  u64 (compaction_max_grandparents_overlapping_tables * ((max_bytes_sstable_ + lba_size - 1) / lba_size * lba_size)).

(** [TropoCompaction::IsTrivialMove], index/tropodb_compaction.cc:79-86 *)
Definition IsTrivialMove (lba_size : Z) (c : TropoCompaction) : bool :=
  (length (c_targets0 c) =? 1)%nat && (length (c_targets1 c) =? 0)%nat &&
  (LbasInSSTables (c_grandparents c) <=? MaxGrandParentOverlapBytes lba_size).

(** ** Which keys live further down *)

Section Compaction.
Context `{UserComparator}.

(** The loop of [IsBaseLevelForKey] over the tables of a level, index/tropodb_compaction.cc:292-302:
    the pointer behind the last table before the key, and whether the key is in
    the range of the table there. *)
Fixpoint level_has_key (sstables : list SSZoneMetaData) (ptr : nat) (user_key : bytes) : nat * bool :=
  match sstables with
  | [] => (ptr, false)
  | m :: sstables =>
      match Compare user_key (largest_user_key m) with
      | Gt => level_has_key sstables (S ptr) user_key
      | _ => (ptr, match Compare user_key (smallest_user_key m) with Lt => false | _ => true end)
      end
  end.

(** The loop of [IsBaseLevelForKey] over the levels. *)
Fixpoint base_level_loop (v : TropoVersion) (levels : list Z) (ptrs : list nat) (user_key : bytes) : bool * list nat :=
  match levels with
  | [] => (true, ptrs)
  | lvl :: levels =>
      let sstables := level_tables (v_ss v) lvl in
      let ptr := default 0%nat (ptrs !! Z.to_nat lvl) in
      let '(ptr, has) := level_has_key (drop ptr sstables) ptr user_key in
      let ptrs := <[Z.to_nat lvl := ptr]> ptrs in
      if has then (false, ptrs) else base_level_loop v levels ptrs user_key
  end.

(** [TropoCompaction::IsBaseLevelForKey], index/tropodb_compaction.cc:285-305.  [v] is the
    current version. *)
Definition IsBaseLevelForKey (first_level : Z) (v : TropoVersion) (ptrs : list nat) (user_key : bytes) : bool * list nat :=
  base_level_loop v (seqZ (first_level + 1) (level_count - (first_level + 1))) ptrs user_key.

(** ** Dropping entries *)

(** What the loop of [DoCompaction] remembers of the keys before: the current
    user key, the sequence number of its last entry, the sequence number that was
    parsed last, and [level_ptrs_]. *)
Record key_state := mkKeys {
  ks_user_key : option bytes;
  ks_last_sequence : Z;
  ks_parsed_sequence : Z;
  ks_ptrs : list nat
}.

(** The sequence number that [ParseInternalKey] leaves in a key it rejects. *)
Definition rejected_sequence (key : bytes) (old : Z) : Z :=
  if blen key <? kNumInternalBytes then old else Z.shiftr (ikey_num key) 8.

(** The body of the loop of [DoCompaction], index/tropodb_compaction.cc:356-387: whether to drop the
    entry. *)
Definition drop_entry (first_level min_seq : Z) (v : TropoVersion) (ks : key_state) (key : bytes) : bool * key_state :=
  match ParseInternalKey key with
  | None =>
      let seq := rejected_sequence key (ks_parsed_sequence ks) in (false, mkKeys None seq seq (ks_ptrs ks))
  | Some ikey =>
      let same := match ks_user_key ks with Some u => bool_decide (Compare (pik_user_key ikey) u = Eq) | None => false end in
      let user_key := if same then ks_user_key ks else Some (pik_user_key ikey) in
      let last := if same then ks_last_sequence ks else kMaxSequenceNumber in
      let '(drop, ptrs) :=
        if last <=? min_seq then (true, ks_ptrs ks)
        else if (pik_type ikey =? kTypeDeletion) && (pik_sequence ikey <=? min_seq) then
          IsBaseLevelForKey first_level v (ks_ptrs ks) (pik_user_key ikey)
        else (false, ks_ptrs ks) in
      (drop, mkKeys user_key (pik_sequence ikey) (pik_sequence ikey) ptrs)
  end.

(** ** The operations of a compaction *)

Context {M L0 LN : Type} `{!CircularLog L0} `{!FragmentedLog LN}.
Context (lba_size zone_cap : Z) (fresh : SSZoneMetaData).

Abbreviation Manager := (TropoSSTableManager L0 LN).
Abbreviation VS := (TropoVersionSet M Manager).
Implicit Types (vs : VS) (c : TropoCompaction) (edit : TropoVersionEdit).

(** [TropoVersionSet::NewSSNumber], index/tropodb_version_set.h:56-56 *)
Definition NewSSNumber vs : Z * VS :=
  (vs_ss_number vs, set_numbers vs (vs_last_sequence vs) (u64 (vs_ss_number vs + 1)) (vs_ss_number_l0 vs)).

(** [TropoCompaction::DoTrivialMove], index/tropodb_compaction.cc:88-101 *)
Definition DoTrivialMove vs c edit : option (Status * VS * TropoVersionEdit) :=
  old_meta ← head (c_targets0 c);
  '(s, mg, meta) ← CopySSTable lba_size zone_cap (vs_ss_manager vs) (c_first_level c) (c_first_level c + 1) old_meta fresh;
  let '(number, vs) := NewSSNumber (set_ss_manager vs mg) in
  let meta := set_number meta number in
  if negb (ok s) then Some (s, vs, edit)
  else Some (s, vs, AddSSDefinition fresh edit (c_first_level c + 1) meta).

(** The oldest table of the targets and the blocks of all of them. *)
Definition dead_range (targets : list SSZoneMetaData) : option (Z * Z) :=
  m ← head targets;
  let '(lba, number) := fold_left (fun '(lba, number) m =>
    if m_number m <? number then (m_L0_lba m, m_number m) else (lba, number)) targets (m_L0_lba m, m_number m) in
  Some (lba, fold_left (fun count m => u64 (count + m_lba_count m)) targets 0).

(** One level of [MarkCompactedTablesAsDead], index/tropodb_compaction.cc:105-140. *)
Definition mark_dead vs c (i : Z) (targets : list SSZoneMetaData) edit : TropoVersionEdit :=
  match dead_range targets with
  | None => edit
  | Some (lba, count) =>
      let level := i + c_first_level c in
      let only_meta := (i =? 0) && (0 <? c_first_level c) && IsTrivialMove lba_size c in
      let edit := fold_left (fun e m => if only_meta then RemoveSSDefinitionOnlyMeta e level m else RemoveSSDefinition e level m)
        targets edit in
      if level =? 0 then
        let old := v_ss_deleted_range (current vs) in
        AddDeletedRange edit (if negb (fst old =? 0) then (fst old, u64 (count + snd old)) else (lba, count))
      else edit
  end.

(** [TropoCompaction::MarkCompactedTablesAsDead], index/tropodb_compaction.cc:103-142 *)
Definition MarkCompactedTablesAsDead vs c edit : TropoVersionEdit :=
  mark_dead vs c 1 (c_targets1 c) (mark_dead vs c 0 (c_targets0 c) edit).

(** ** The inputs *)

Abbreviation Child := (child (I := SSTableIteratorCompressed)).
Abbreviation zone_function mg := (GetLNIterator lba_size zone_cap fresh mg).

(** The iterator over the targets of one level. *)
Definition level_child (targets : list SSZoneMetaData) (level : Z) : option Child :=
  CLevel <$> newLNIterator (newZoneIterator targets level) true.

(** An iterator for every table of level 0, or one for the targets of the level. *)
Definition first_children vs c : option (list (option Child)) :=
  if c_first_level c =? 0 then
    mapM (M := option) (fun m => option_map (option_map CTable) (mg_NewIterator lba_size zone_cap (vs_ss_manager vs) 0 m))
      (c_targets0 c)
  else option_map (fun li => [Some li]) (level_child (c_targets0 c) (c_first_level c)).

(** [TropoCompaction::MakeCompactionIterator], index/tropodb_compaction.cc:151-184: the
    children of the merging iterator. *)
Definition MakeCompactionIterator vs c : option (list (option Child)) :=
  children ← first_children vs c;
  li ← level_child (c_targets1 c) (c_first_level c + 1);
  Some (children ++ [Some li]).

(** ** The merge *)

(** A compaction in progress: the version set, the builder that is filled, the
    builders that wait to be written, the edit and the keys seen. *)
Record run := mkRun {
  r_vs : VS;
  r_builder : TropoSSTableBuilder;
  r_queue : list TropoSSTableBuilder;
  r_edit : TropoVersionEdit;
  r_keys : key_state
}.

Definition with_meta (b : TropoSSTableBuilder) (m : SSZoneMetaData) : TropoSSTableBuilder :=
  SSTable.mkBuilder (sb_started b) (sb_buffer b) (sb_kv_pair_offsets b) (sb_kv_numbers b) (sb_counter b) (sb_use_encoding b)
    (sb_last_key b) m.

(** [TropoSSTableBuilder::Flush], table/tropodb_sstable_builder.cc:100-107, for a table of an upper
    level: the writer is 1 above level 1. *)
Definition Flush (mg : Manager) (level : Z) (b : TropoSSTableBuilder) : option (Status * Manager * SSZoneMetaData) :=
  write_table zone_cap mg lower_concurrency (sb_buffer b) (sb_meta b) (if level =? 1 then 0 else 1).

(** [TropoCompaction::FlushSSTable], index/tropodb_compaction.cc:234-283 *)
Definition FlushSSTable c (r : run) : option (Status * run) :=
  let level := c_first_level c + 1 in
  let '(number, vs) := NewSSNumber (r_vs r) in
  let b := Finalise (with_meta (r_builder r) (set_number (sb_meta (r_builder r)) number)) in
  if compaction_allow_deferring_writes then
    nb ← NewTropoSSTableBuilder zone_cap (vs_ss_manager vs) level fresh;
    Some (OK, mkRun vs nb (r_queue r ++ [b]) (r_edit r) (r_keys r))
  else
    '(s, mg, meta) ← Flush (vs_ss_manager vs) level b;
    let vs := set_ss_manager vs mg in
    let edit := if ok s then AddSSDefinition fresh (r_edit r) level meta else r_edit r in
    nb ← NewTropoSSTableBuilder zone_cap mg level meta;
    Some (s, mkRun vs nb (r_queue r) edit (r_keys r)).

(** The loop of [DeferCompactionWrite], index/tropodb_compaction.cc:188-229, over the queue: a table
    that cannot be written is reported to the log and left out of the edit. *)
Fixpoint DeferCompactionWrite (level : Z) (queue : list TropoSSTableBuilder) (mg : Manager) edit
    : option (Manager * TropoVersionEdit) :=
  match queue with
  | [] => Some (mg, edit)
  | b :: queue =>
      '(s, mg, meta) ← Flush mg level b;
      DeferCompactionWrite level queue mg (if ok s then AddSSDefinition fresh edit level meta else edit)
  end.

(** One entry of the loop of [DoCompaction], index/tropodb_compaction.cc:350-417. *)
Definition compact_entry c (r : run) (key value : bytes) : option (Status * run) :=
  let '(drop, ks) := drop_entry (c_first_level c) (vs_last_sequence (r_vs r)) (current (r_vs r)) (r_keys r) key in
  let r := mkRun (r_vs r) (r_builder r) (r_queue r) (r_edit r) ks in
  if drop : bool then Some (OK, r)
  else
    '(s, r) ←
      (if c_max_lba_count c <=? (GetSize (r_builder r) + EstimateSizeImpact key value + lba_size - 1) / lba_size
       then FlushSSTable c r else Some (OK, r));
    if negb (ok s) then Some (s, r)
    else Some (OK, mkRun (r_vs r) (SSTable.Apply (r_builder r) key value) (r_queue r) (r_edit r) (r_keys r)).

(** The loop of [DoCompaction] over the merging iterator. *)
Fixpoint compact_loop {I} `{!Iterator I} (fuel : nat) c (merger : I) (r : run) : option (Status * run) :=
  match fuel with
  | O => None
  | S fuel =>
      if i_Valid merger then
        value ← i_value merger;
        '(s, r) ← compact_entry c r (i_key merger) value;
        if negb (ok s) then Some (s, r)
        else merger ← i_Next merger; compact_loop fuel c merger r
      else Some (OK, r)
  end.

Definition init_keys c : key_state := mkKeys None kMaxSequenceNumber 0 (c_level_ptrs c).

(** [TropoCompaction::DoCompaction], index/tropodb_compaction.cc:307-454.  [fuel] bounds the entries
    of the inputs. *)
Definition DoCompaction (fuel : nat) vs c edit : option (Status * VS * TropoVersionEdit) :=
  let level := c_first_level c + 1 in
  let mg := vs_ss_manager vs in
  builder ← NewTropoSSTableBuilder zone_cap mg level fresh;
  children ← MakeCompactionIterator vs c;
  merger ← mi_SeekToFirst (Iterator0 := child_ops (zone_function mg))
    (newMerging (Iterator0 := child_ops (zone_function mg)) children);
  if negb (mi_Valid merger) then Some (Corruption, vs, edit)
  else
    '(s, r) ← compact_loop (Iterator0 := merging_ops (Iterator0 := child_ops (zone_function mg))) fuel c merger
      (mkRun vs builder [] edit (init_keys c));
    '(s, r) ← (if ok s && (0 <? GetSize (r_builder r)) then FlushSSTable c r else Some (s, r));
    '(mg, edit) ← DeferCompactionWrite level (r_queue r) (vs_ss_manager (r_vs r)) (r_edit r);
    Some (s, set_ss_manager (r_vs r) mg, edit).
End Compaction.

(** ** What a compaction keeps *)

Section Keep.
Context `{UserComparator}.
Context (first_level min_seq : Z) (v : TropoVersion).

Definition lower_levels : list Z := seqZ (first_level + 1) (level_count - (first_level + 1)).

(** No table of a level below can hold the user key. *)
Definition base_level (u : bytes) : bool :=
  forallb (fun lvl => forallb (fun m => negb (in_range u m)) (level_tables (v_ss v) lvl)) lower_levels.

Context (Hfirst : 0 <= first_level).
Context (Htables : forall lvl m, lvl ∈ lower_levels -> m ∈ level_tables (v_ss v) lvl ->
  cle InternalCompare (m_smallest m) (m_largest m)).
Context (Hsorted : forall lvl, lvl ∈ lower_levels ->
  StronglySorted (fun m m' => clt InternalCompare (m_largest m) (m_smallest m')) (level_tables (v_ss v) lvl)).

(** The tables before the pointer of each level are before the user key. *)
Definition ptrs_ok (ptrs : list nat) (u : bytes) : Prop :=
  length ptrs = Z.to_nat level_count /\
  forall lvl m i, lvl ∈ lower_levels -> (i < default 0%nat (ptrs !! Z.to_nat lvl))%nat ->
    level_tables (v_ss v) lvl !! i = Some m -> clt Compare (largest_user_key m) u.

Lemma ptrs_ok_mono ptrs u u' : ptrs_ok ptrs u -> cle Compare u u' -> ptrs_ok ptrs u'.
Proof. intros [Hl Hp] Hu. split; [done|]. intros lvl m i Hlvl Hi Hm. by eapply (clt_le_trans Compare), Hu; eauto. Qed.

Lemma in_range_iff u m : in_range u m = true <-> cle Compare (smallest_user_key m) u /\ cle Compare u (largest_user_key m).
Proof.
  unfold in_range. rewrite andb_true_iff, !negb_true_iff, !cmp_is_false.
  fold (clt Compare u (smallest_user_key m)). rewrite (nclt_le Compare). done.
Qed.

(** Of the tables from the first one that reaches the key, only that one can
    hold it. *)
Lemma first_reaching m ss u :
  cle InternalCompare (m_smallest m) (m_largest m) ->
  Forall (fun m' => clt InternalCompare (m_largest m) (m_smallest m')) ss -> cle Compare u (largest_user_key m) ->
  (exists x, x ∈ m :: ss /\ in_range u x = true) <-> cle Compare (smallest_user_key m) u.
Proof.
  intros Hm Hf Hle. split.
  - intros (x & Hx & [Hr _]%in_range_iff). apply elem_of_cons in Hx as [->|Hx]; [done|].
    rewrite Forall_forall in Hf. specialize (Hf x Hx).
    apply (clt_le InternalCompare), InternalCompare_ukey in Hf. apply InternalCompare_ukey in Hm.
    trans (largest_user_key m); [exact Hm|]. trans (smallest_user_key x); [exact Hf|exact Hr].
  - intros Hs. exists m. split; [left|by apply in_range_iff].
Qed.

Lemma level_has_key_spec ss ptr u :
  Forall (fun m => cle InternalCompare (m_smallest m) (m_largest m)) ss ->
  StronglySorted (fun m m' => clt InternalCompare (m_largest m) (m_smallest m')) ss ->
  let '(ptr', has) := level_has_key ss ptr u in
  (has = true <-> exists m, m ∈ ss /\ in_range u m = true) /\ (ptr <= ptr')%nat /\
  forall i m, (i < ptr' - ptr)%nat -> ss !! i = Some m -> clt Compare (largest_user_key m) u.
Proof.
  revert ptr. induction ss as [|m ss IH]; intros ptr Hw Hs; cbn [level_has_key].
  { split_and!; [|lia|done]. split; [done|]. intros (m & Hm & _). by apply not_elem_of_nil in Hm. }
  apply Forall_cons in Hw as [Hm Hw]. apply StronglySorted_inv in Hs as [Hs Hf].
  assert (Hstop : cle Compare u (largest_user_key m) ->
    (match Compare u (smallest_user_key m) with Lt => false | _ => true end = true <->
     exists x, x ∈ m :: ss /\ in_range u x = true)).
  { intros Hle. rewrite first_reaching by done. rewrite <-(nclt_le Compare). unfold clt. by destruct (Compare u _). }
  destruct (Compare u (largest_user_key m)) eqn:Ec.
  1, 2: (split_and!; [apply Hstop; unfold cle; rewrite Ec; done|lia|intros i x Hi; lia]).
  specialize (IH (S ptr) Hw Hs). destruct (level_has_key ss (S ptr) u) as [ptr' has].
  destruct IH as (Hhas & Hle & Hb). apply (cmp_gt_lt Compare) in Ec. split_and!; [|lia|].
  - rewrite Hhas. split; intros (x & Hx & Hr); exists x; (split; [|done]); [by right|].
    apply elem_of_cons in Hx as [->|Hx]; [|done]. apply in_range_iff in Hr as [_ Hr]. by apply (clt_nle Compare) in Ec.
  - intros [|i] x Hi Hx; [by injection Hx as <-|]. apply (Hb i); [lia|done].
Qed.

(** The search from the pointers finds what a search of all tables finds. *)
Lemma base_level_loop_spec levels ptrs u :
  ptrs_ok ptrs u -> levels ⊆ lower_levels ->
  let '(base, ptrs') := base_level_loop v levels ptrs u in
  ptrs_ok ptrs' u /\
  base = forallb (fun lvl => forallb (fun m => negb (in_range u m)) (level_tables (v_ss v) lvl)) levels.
Proof.
  revert ptrs. induction levels as [|lvl levels IH]; intros ptrs Hp Hsub; cbn [base_level_loop]; [done|].
  assert (Hlvl : lvl ∈ lower_levels) by (apply Hsub; left). pose proof Hp as [Hlen Hptr].
  set (ss := level_tables (v_ss v) lvl) in *. set (ptr := default 0%nat (ptrs !! Z.to_nat lvl)) in *.
  pose proof (level_has_key_spec (drop ptr ss) ptr u) as Hh.
  destruct (level_has_key (drop ptr ss) ptr u) as [ptr' has]. destruct Hh as (Hhas & Hle & Hb).
  { apply Forall_drop, Forall_forall. intros m Hm. by eapply Htables. }
  { specialize (Hsorted lvl Hlvl). fold ss in Hsorted. rewrite <-(take_drop ptr ss) in Hsorted.
    by apply StronglySorted_app_1_r in Hsorted. }
  assert (Hidx : (Z.to_nat lvl < length ptrs)%nat).
  { rewrite Hlen. apply elem_of_seqZ in Hlvl. lia. }
  assert (Hp' : ptrs_ok (<[Z.to_nat lvl := ptr']> ptrs) u).
  { split; [by rewrite length_insert|]. intros l m i Hl Hi Hm. destruct (decide (l = lvl)) as [->|Hne].
    - rewrite list_lookup_insert_eq in Hi by done. cbn in Hi. destruct (decide (i < ptr)%nat) as [Hlt|Hge].
      + by apply (Hptr lvl m i).
      + apply (Hb (i - ptr)%nat); [lia|]. rewrite lookup_drop. by replace (ptr + (i - ptr))%nat with i by lia.
    - rewrite list_lookup_insert_ne in Hi; [by apply (Hptr l m i)|].
      apply elem_of_seqZ in Hl, Hlvl. lia. }
  assert (Eh : forallb (fun m => negb (in_range u m)) ss = negb has).
  { apply eq_bool_prop_intro. rewrite !Is_true_true. rewrite negb_true_iff, forallb_forall. split.
    - intros Hall. destruct has; [|done]. destruct (proj1 Hhas eq_refl) as (m & Hm & Hr).
      assert (Hm' : m ∈ ss) by (eapply elem_of_sublist; [exact Hm|apply sublist_drop]).
      apply list_elem_of_In in Hm'. specialize (Hall m Hm'). by rewrite Hr in Hall.
    - intros -> m Hm%list_elem_of_In. apply negb_true_iff, not_true_is_false. intros Hr.
      apply list_elem_of_lookup in Hm as [i Hi]. destruct (decide (i < ptr)%nat) as [Hlt|Hge].
      + specialize (Hptr lvl m i Hlvl Hlt Hi). apply in_range_iff in Hr as [_ Hr]. by apply (clt_nle Compare) in Hptr.
      + assert (Hf : false = true) by (apply Hhas; exists m; split; [|done]; apply list_elem_of_lookup; exists (i - ptr)%nat;
          rewrite lookup_drop; by replace (ptr + (i - ptr))%nat with i by lia). done. }
  cbn [forallb]. fold ss. rewrite Eh. destruct has; cbn [negb andb]; [done|].
  apply IH; [done|]. intros x Hx. apply Hsub. by right.
Qed.

Lemma IsBaseLevelForKey_spec ptrs u :
  ptrs_ok ptrs u ->
  exists ptrs', IsBaseLevelForKey first_level v ptrs u = (base_level u, ptrs') /\ ptrs_ok ptrs' u.
Proof.
  intros Hp. pose proof (base_level_loop_spec lower_levels ptrs u Hp ltac:(done)) as Hs.
  unfold IsBaseLevelForKey. fold lower_levels. destruct (base_level_loop v lower_levels ptrs u) as [b ptrs'].
  destruct Hs as [? ->]. by exists ptrs'.
Qed.

(** The entries that are not dropped. *)
Fixpoint keep (ks : key_state) (kvs : list KV) : list KV :=
  match kvs with
  | [] => []
  | kv :: kvs =>
      let '(drop, ks) := drop_entry first_level min_seq v ks (fst kv) in
      if drop : bool then keep ks kvs else kv :: keep ks kvs
  end.

(** An entry that is not a deletion without anything left to delete. *)
Definition survives (kv : KV) : bool :=
  match ParseInternalKey (fst kv) with
  | Some p => negb ((pik_type p =? kTypeDeletion) && (pik_sequence p <=? min_seq) && base_level (ukey kv))
  | None => true
  end.

(** What the state says about the entries ahead. *)
Record keys_ok (ks : key_state) (kvs : list KV) : Prop := {
  ko_ptrs : forall kv, kv ∈ kvs -> ptrs_ok (ks_ptrs ks) (ukey kv);
  ko_user : forall u kv, ks_user_key ks = Some u -> kv ∈ kvs -> cle Compare u (ukey kv);
  ko_seq : forall u kv p, ks_user_key ks = Some u -> kv ∈ kvs -> ukey kv = u ->
    ParseInternalKey (fst kv) = Some p -> pik_sequence p <= ks_last_sequence ks
}.

Lemma parsed_fields k p :
  ParseInternalKey k = Some p -> pik_user_key p = ExtractUserKey k /\ pik_sequence p = Z.shiftr (ikey_num k) 8.
Proof.
  intros Hp. assert (Hk : is_ikey k).
  { unfold ParseInternalKey in Hp. unfold is_ikey. destruct (Z.ltb_spec (blen k) kNumInternalBytes); [done|lia]. }
  pose proof (ParseInternalKey_spec k Hk) as E. unfold UnPackSequenceAndType in E. rewrite Hp in E.
  destruct (IsExtendedValueType _); [|done]. by injection E as ->.
Qed.

Lemma kv_le_sequence a b pa pb :
  kv_le a b -> ukey a = ukey b -> ParseInternalKey (fst a) = Some pa -> ParseInternalKey (fst b) = Some pb ->
  pik_sequence pb <= pik_sequence pa.
Proof.
  intros Hle Hu [_ ->]%parsed_fields [_ ->]%parsed_fields. unfold kv_le, cle in Hle. rewrite InternalCompare_lex in Hle.
  unfold ukey in Hu. rewrite Hu, Compare_refl in Hle. cbn in Hle. unfold flip in Hle.
  assert (ikey_num (fst b) <= ikey_num (fst a)) by (destruct (Z.compare_spec (ikey_num (fst b)) (ikey_num (fst a))); [lia|lia|done]).
  rewrite !Z.shiftr_div_pow2 by lia. apply Z.div_le_mono; lia.
Qed.

(** One entry: when it is dropped, and the state behind it. *)
Lemma drop_entry_spec ks kv kvs p :
  keys_ok ks (kv :: kvs) -> StronglySorted kv_le (kv :: kvs) -> ParseInternalKey (fst kv) = Some p ->
  min_seq < kMaxSequenceNumber ->
  exists ptrs, drop_entry first_level min_seq v ks (fst kv) =
    ((bool_decide (ks_user_key ks = Some (ukey kv)) && (ks_last_sequence ks <=? min_seq)) || negb (survives kv),
     mkKeys (Some (ukey kv)) (pik_sequence p) (pik_sequence p) ptrs) /\
    keys_ok (mkKeys (Some (ukey kv)) (pik_sequence p) (pik_sequence p) ptrs) kvs.
Proof.
  intros [Hptr Huser Hseq] Hs Hp Hmin. apply StronglySorted_inv in Hs as [_ Hf]. rewrite Forall_forall in Hf.
  destruct (parsed_fields _ _ Hp) as [Hu _]. fold (ukey kv) in Hu. unfold drop_entry, survives. rewrite Hp, Hu.
  set (same := match ks_user_key ks with Some u => bool_decide (Compare (ukey kv) u = Eq) | None => false end).
  assert (Esame : same = bool_decide (ks_user_key ks = Some (ukey kv))).
  { unfold same. destruct (ks_user_key ks) as [u|]; [|done]. apply bool_decide_ext. split.
    - by intros ->%Compare_eq.
    - intros [= ->]. apply Compare_refl. }
  assert (Euser : (if same then ks_user_key ks else Some (ukey kv)) = Some (ukey kv)).
  { rewrite Esame. case_bool_decide; done. }
  rewrite Euser. destruct (IsBaseLevelForKey_spec (ks_ptrs ks) (ukey kv) (Hptr kv ltac:(left))) as (ptrs' & Eb & Hptr').
  assert (Hok : forall ptrs, ptrs_ok ptrs (ukey kv) -> keys_ok (mkKeys (Some (ukey kv)) (pik_sequence p) (pik_sequence p) ptrs) kvs).
  { intros ptrs Hpt. assert (Hle : forall kv', kv' ∈ kvs -> cle Compare (ukey kv) (ukey kv')).
    { intros kv' Hin. apply InternalCompare_ukey. by apply (Hf kv'). }
    constructor; cbn [ks_ptrs ks_user_key ks_last_sequence].
    - intros kv' Hin. eapply ptrs_ok_mono; [exact Hpt|by apply Hle].
    - intros u kv' [= <-] Hin. by apply Hle.
    - intros u kv' p' [= <-] Hin Hu' Hp'. by apply (kv_le_sequence kv kv'); [apply Hf| | |]. }
  assert (Hlast : ((if same then ks_last_sequence ks else kMaxSequenceNumber) <=? min_seq) = same && (ks_last_sequence ks <=? min_seq)).
  { destruct same; [done|]. cbn. apply Z.leb_gt. lia. }
  rewrite Hlast, <-Esame. destruct (same && (ks_last_sequence ks <=? min_seq)); cbn [orb].
  { eexists. split; [done|]. apply Hok, Hptr. left. }
  destruct ((pik_type p =? kTypeDeletion) && (pik_sequence p <=? min_seq)); cbn [andb negb].
  - rewrite Eb. exists ptrs'. rewrite negb_involutive. split; [done|]. by apply Hok.
  - eexists. split; [done|]. apply Hok, Hptr. left.
Qed.

Lemma table_lookup_cons kv kvs u :
  table_lookup (kv :: kvs) u = if decide (ukey kv = u) then Some kv else table_lookup kvs u.
Proof.
  unfold table_lookup. cbn [list_find]. case_decide; [done|]. destruct (list_find _ kvs) as [[i x]|]; done.
Qed.

Lemma keep_lookup ks kvs u :
  keys_ok ks kvs -> StronglySorted kv_le kvs -> Forall (fun kv => is_Some (ParseInternalKey (fst kv))) kvs ->
  min_seq < kMaxSequenceNumber ->
  table_lookup (keep ks kvs) u =
    if bool_decide (ks_user_key ks = Some u) && (ks_last_sequence ks <=? min_seq) then None
    else kv ← table_lookup kvs u; if survives kv then Some kv else None.
Proof.
  intros Hok Hs Hp Hmin. revert ks Hok. induction kvs as [|kv kvs IH]; intros ks Hok.
  { cbn. by destruct (_ && _). }
  apply Forall_cons in Hp as [[p Hp] Hps]. destruct (drop_entry_spec ks kv kvs p Hok Hs Hp Hmin) as (ptrs & E & Hok').
  cbn [keep]. rewrite E. pose proof Hs as Hs'. apply StronglySorted_inv in Hs' as [Hs' Hf]. specialize (IH Hs' Hps _ Hok').
  cbn [ks_user_key ks_last_sequence] in IH. rewrite table_lookup_cons.
  destruct (decide (ukey kv = u)) as [<-|Hne].
  - rewrite bool_decide_true in IH by done. cbn [andb] in IH.
    destruct (bool_decide (ks_user_key ks = Some (ukey kv)) && (ks_last_sequence ks <=? min_seq)) eqn:Ed; cbn [orb].
    + apply andb_true_iff in Ed as [Eu%bool_decide_eq_true Hle%Z.leb_le].
      rewrite (proj2 (Z.leb_le _ _)) in IH; [done|]. pose proof (ko_seq _ _ Hok _ kv p Eu ltac:(left) eq_refl Hp). lia.
    + obind. destruct (survives kv) eqn:Esv; cbn [negb]; [by rewrite table_lookup_cons, decide_True|].
      unfold survives in Esv. rewrite Hp in Esv. apply negb_false_iff, andb_true_iff in Esv as [[_ Hle]%andb_true_iff _].
      by rewrite Hle in IH.
  - rewrite bool_decide_false in IH by congruence. cbn [andb] in IH.
    assert (E2 : table_lookup (if (bool_decide (ks_user_key ks = Some (ukey kv)) && (ks_last_sequence ks <=? min_seq)) ||
      negb (survives kv) then keep (mkKeys (Some (ukey kv)) (pik_sequence p) (pik_sequence p) ptrs) kvs
      else kv :: keep (mkKeys (Some (ukey kv)) (pik_sequence p) (pik_sequence p) ptrs) kvs) u =
      table_lookup (keep (mkKeys (Some (ukey kv)) (pik_sequence p) (pik_sequence p) ptrs) kvs) u).
    { destruct (_ || _); [done|]. by rewrite table_lookup_cons, decide_False. }
    rewrite E2, IH. destruct (bool_decide (ks_user_key ks = Some u) && _) eqn:Ed; [|done].
    apply andb_true_iff in Ed as [Eu%bool_decide_eq_true _].
    assert (table_lookup kvs u = None) as ->; [|done]. apply table_lookup_None. intros kv' Hin Hu'.
    assert (Hlt : cle Compare (ukey kv) (ukey kv')) by (apply InternalCompare_ukey; rewrite Forall_forall in Hf; by apply Hf).
    rewrite Hu' in Hlt. pose proof (ko_user _ _ Hok _ kv Eu ltac:(left)) as Hge.
    apply Hne, Compare_eq. by apply (cmp_eq_le Compare).
Qed.
End Keep.

(** ** The loop over the entries *)

Section Loop.
Context `{UserComparator} {M L0 LN : Type} `{!CircularLog L0} `{!FragmentedLog LN}.
Context (lba_size zone_cap : Z) (fresh : SSZoneMetaData).
Context (HL : 0 < lba_size).

Abbreviation Manager := (TropoSSTableManager L0 LN).
Abbreviation VS := (TropoVersionSet M Manager).
Abbreviation Run := (run (M := M) (L0 := L0) (LN := LN)).
Implicit Types (vs : VS) (c : TropoCompaction) (r : Run).

(** The loop on the list of entries that the merging iterator yields. *)
Fixpoint compact_list c r (kvs : list KV) : option (Status * Run) :=
  match kvs with
  | [] => Some (OK, r)
  | kv :: kvs =>
      '(s, r) ← compact_entry lba_size zone_cap fresh c r (fst kv) (snd kv);
      if negb (ok s) then Some (s, r) else compact_list c r kvs
  end.

Lemma compact_loop_list {I} `{!Iterator I} `{!ForwardIterator I} fuel c (merger : I) r kvs :
  fi_rest merger kvs -> (length kvs < fuel)%nat ->
  compact_loop lba_size zone_cap fresh fuel c merger r = compact_list c r kvs.
Proof.
  revert merger r kvs. induction fuel as [|fuel IH]; intros merger r kvs Hr Hf; [lia|]. cbn [compact_loop].
  rewrite (fi_valid _ _ Hr). destruct kvs as [|kv kvs]; [done|]. destruct (fi_head _ _ _ Hr) as [-> ->]. obind.
  cbn [compact_list]. destruct (compact_entry _ _ _ c r _ _) as [[s r1]|]; obind; [|done].
  destruct (negb (ok s)); [done|]. destruct (fi_next _ _ _ Hr) as (m1 & -> & Hr1). obind.
  apply IH; [done|]. cbn in Hf. lia.
Qed.

(** A builder that was finished with the entries. *)
Record finished (b : TropoSSTableBuilder) (kvs : list KV) : Prop := {
  fn_image : sb_buffer b = table_image kvs;
  fn_nonempty : kvs <> [];
  fn_small : small_table kvs;
  fn_smallest : Some (m_smallest (sb_meta b)) = fst <$> head kvs;
  fn_largest : Some (m_largest (sb_meta b)) = fst <$> last kvs;
  fn_lbas : m_LN_lbas (sb_meta b) = m_LN_lbas fresh /\ m_LN_lba_region_sizes (sb_meta b) = m_LN_lba_region_sizes fresh
}.

(** The sizes of a table that is being built stay below the limit. *)
Definition fits c (kv : KV) : Prop :=
  small_kv kv /\ (EstimateSizeImpact (fst kv) (snd kv) + lba_size - 1) / lba_size < c_max_lba_count c.

(** The numbers of the tables finished so far. *)
Definition table_numbers (first_number : Z) (n : nat) : list Z := (fun i => u64 (first_number + i)) <$> seqZ 0 (Z.of_nat n).

(** The compaction has finished [tables] and is building [cur]. *)
Context (first_number : Z).
Record run_inv c r (tables : list (list KV)) (cur : list KV) : Prop := {
  ri_built : built (r_builder r) cur;
  ri_size : blen (body cur) < c_max_lba_count c * lba_size;
  ri_count : blen cur <= blen (body cur);
  ri_small : Forall small_kv cur;
  ri_arrays : m_LN_lbas (sb_meta (r_builder r)) = m_LN_lbas fresh /\
    m_LN_lba_region_sizes (sb_meta (r_builder r)) = m_LN_lba_region_sizes fresh;
  ri_queue : Forall2 finished (r_queue r) tables;
  ri_numbers : (fun b => m_number (sb_meta b)) <$> r_queue r = table_numbers first_number (length tables);
  ri_next : vs_ss_number (r_vs r) = u64 (first_number + blen tables)
}.

(** The version set up to its counter for table numbers. *)
Definition same_index vs vs' : Prop :=
  vs_last_sequence vs' = vs_last_sequence vs /\ vs_compact_pointer vs' = vs_compact_pointer vs /\
  vs_ss_number_l0 vs' = vs_ss_number_l0 vs.
Definition same_vs vs vs' : Prop :=
  vs_versions vs' = vs_versions vs /\ same_index vs vs' /\ vs_ss_manager vs' = vs_ss_manager vs.

Lemma blen_enc_kv sh kv : 0 <= sh <= blen (fst kv) ->
  3 <= blen (enc_kv sh kv) <= EstimateSizeImpact (fst kv) (snd kv).
Proof.
  intros Hsh. unfold enc_kv, EstimateSizeImpact. rewrite !blen_app, blen_zdrop.
  pose proof (blen_EncodeVarint32_bound sh). pose proof (blen_EncodeVarint32_bound (blen (fst kv) - sh)).
  pose proof (blen_EncodeVarint32_bound (blen (snd kv))). pose proof (blen_nonneg (snd kv)). lia.
Qed.

Lemma Apply_arrays b k v :
  m_LN_lbas (sb_meta (SSTable.Apply b k v)) = m_LN_lbas (sb_meta b) /\
  m_LN_lba_region_sizes (sb_meta (SSTable.Apply b k v)) = m_LN_lba_region_sizes (sb_meta b).
Proof.
  unfold SSTable.Apply. destruct (sb_started b), (sb_use_encoding b), (sb_counter b <? max_sstable_encoding); done.
Qed.

(** Adding an entry for which there is room. *)
Lemma apply_entry c r tables cur kv :
  c_max_lba_count c * lba_size < 2 ^ 32 -> run_inv c r tables cur -> small_kv kv ->
  (GetSize (r_builder r) + EstimateSizeImpact (fst kv) (snd kv) + lba_size - 1) / lba_size < c_max_lba_count c ->
  run_inv c (mkRun (r_vs r) (SSTable.Apply (r_builder r) (fst kv) (snd kv)) (r_queue r) (r_edit r) (r_keys r)) tables (cur ++ [kv]).
Proof.
  intros Hmax [Hb Hsz Hcnt Hsm Har Hq Hns Hnx] Hkv Hroom. destruct kv as [k v]. cbn [fst snd] in *.
  pose proof (body_snoc cur (k, v)) as Hbody.
  pose proof (blen_enc_kv _ (k, v) (shared_at_bounds (length cur) (last_key_of [] cur) (k, v))) as Henc. cbn [fst snd] in Henc.
  unfold GetSize in Hroom. rewrite (bu_buffer _ _ Hb) in Hroom.
  assert (Hsize : blen (body cur) + EstimateSizeImpact k v < c_max_lba_count c * lba_size)
    by (Z.to_euclidean_division_equations; nia).
  assert (Hnb : blen (body (cur ++ [(k, v)])) < c_max_lba_count c * lba_size) by (rewrite Hbody, blen_app; lia).
  assert (Hnc : blen (cur ++ [(k, v)]) <= blen (body (cur ++ [(k, v)]))).
  { rewrite Hbody, !blen_app. change (blen [(k, v)]) with 1. lia. }
  constructor; cbn [r_builder r_queue].
  - apply Apply_built; [done|]. split_and!; [apply Forall_app; split; [done|by constructor]|lia|lia].
  - done.
  - done.
  - apply Forall_app. split; [done|by constructor].
  - destruct (Apply_arrays (r_builder r) k v) as [-> ->]. done.
  - done.
  - done.
  - done.
Qed.

(** The manager can make builders for the level. *)
Definition can_build vs c : Prop :=
  NewTropoSSTableBuilder zone_cap (vs_ss_manager vs) (c_first_level c + 1) fresh = Some (SSTable.newBuilder fresh true).

Lemma new_builder_inv c r tables :
  0 < c_max_lba_count c -> r_builder r = SSTable.newBuilder fresh true -> Forall2 finished (r_queue r) tables ->
  (fun b => m_number (sb_meta b)) <$> r_queue r = table_numbers first_number (length tables) ->
  vs_ss_number (r_vs r) = u64 (first_number + blen tables) -> run_inv c r tables [].
Proof.
  intros Hpos Eb Hq Hns Hnx.
  constructor; rewrite ?Eb; [by constructor|change (blen (body [])) with 0; nia|done|constructor|done|done|done|done].
Qed.

Lemma table_numbers_snoc n : table_numbers first_number (S n) = table_numbers first_number n ++ [u64 (first_number + Z.of_nat n)].
Proof.
  unfold table_numbers. rewrite Nat2Z.inj_succ, <-Z.add_1_r, seqZ_app by lia. by rewrite fmap_app.
Qed.

(** Finishing the table that is being built. *)
Lemma FlushSSTable_spec c r tables cur :
  c_max_lba_count c * lba_size < 2 ^ 32 -> can_build (r_vs r) c -> run_inv c r tables cur -> cur <> [] ->
  exists r', FlushSSTable zone_cap fresh c r = Some (OK, r') /\ run_inv c r' (tables ++ [cur]) [] /\
    same_vs (r_vs r) (r_vs r') /\ r_edit r' = r_edit r /\ r_keys r' = r_keys r /\ r_builder r' = SSTable.newBuilder fresh true.
Proof.
  intros Hmax Hnew [Hb Hsz Hcnt Hsm Har Hq Hns Hnx] Hne. unfold FlushSSTable, NewSSNumber.
  change compaction_allow_deferring_writes with true. cbv iota zeta. unfold can_build in Hnew.
  change (vs_ss_manager (set_numbers (r_vs r) _ _ _)) with (vs_ss_manager (r_vs r)). rewrite Hnew. obind.
  eexists. split; [done|].
  assert (Hsmall : small_table cur) by (split_and!; [done|lia|lia]).
  set (b0 := with_meta (r_builder r) (set_number (sb_meta (r_builder r)) (vs_ss_number (r_vs r)))).
  assert (Hb0 : built b0 cur) by (destruct Hb; by constructor).
  assert (Hfin : finished (Finalise b0) cur).
  { constructor; [by apply Finalise_image|done|done| | |exact Har].
    - change (m_smallest (sb_meta (Finalise b0))) with (m_smallest (sb_meta (r_builder r))).
      rewrite (bu_smallest _ _ Hb Hne). by destruct cur.
    - change (m_largest (sb_meta (Finalise b0))) with (m_largest (sb_meta (r_builder r))).
      rewrite (bu_largest _ _ Hb Hne). unfold last_key_of. destruct (last cur) eqn:E; [done|]. by apply last_None in E. }
  split_and!; [|done|done|done|done].
  apply new_builder_inv; cbn [r_builder r_queue r_vs].
  - pose proof (blen_nonneg (body cur)). nia.
  - done.
  - apply Forall2_app; [done|]. constructor; [exact Hfin|constructor].
  - rewrite fmap_app, Hns, length_app, Nat.add_1_r, table_numbers_snoc. f_equal. cbn. f_equal. exact Hnx.
  - rewrite blen_app. change (blen [cur]) with 1. cbn. rewrite Hnx. unfold u64. rewrite Zplus_mod_idemp_l. f_equal. lia.
Qed.

(** One entry. *)
Lemma compact_entry_spec c r tables cur kv :
  c_max_lba_count c * lba_size < 2 ^ 32 -> can_build (r_vs r) c -> run_inv c r tables cur -> fits c kv ->
  let '(drop, ks) := drop_entry (c_first_level c) (vs_last_sequence (r_vs r)) (current (r_vs r)) (r_keys r) (fst kv) in
  exists r' tables' cur', compact_entry lba_size zone_cap fresh c r (fst kv) (snd kv) = Some (OK, r') /\
    run_inv c r' tables' cur' /\ same_vs (r_vs r) (r_vs r') /\ r_edit r' = r_edit r /\ r_keys r' = ks /\
    concat tables' ++ cur' = concat tables ++ cur ++ (if drop : bool then [] else [kv]).
Proof.
  intros Hmax Hnew Hinv [Hkv Hfit]. unfold compact_entry.
  destruct (drop_entry _ _ _ _ _) as [drop ks]. destruct drop.
  { eexists _, tables, cur. split; [done|]. destruct Hinv. split_and!; [by constructor|done|done|done|by rewrite app_nil_r]. }
  set (r0 := mkRun (r_vs r) (r_builder r) (r_queue r) (r_edit r) ks).
  assert (Hinv0 : run_inv c r0 tables cur) by (destruct Hinv; by constructor).
  destruct (Z.leb_spec (c_max_lba_count c) ((GetSize (r_builder r0) + EstimateSizeImpact (fst kv) (snd kv) + lba_size - 1) / lba_size))
    as [Hfull|Hroom].
  - assert (Hcur : cur <> []).
    { intros ->. unfold GetSize in Hfull. rewrite (bu_buffer _ _ (ri_built _ _ _ _ Hinv0)) in Hfull.
      change (blen (body [])) with 0 in Hfull. rewrite Z.add_0_l in Hfull. lia. }
    destruct (FlushSSTable_spec c r0 tables cur Hmax Hnew Hinv0 Hcur) as (r1 & -> & Hinv1 & Hvs & He & Hk & Hb). obind.
    cbn [ok negb]. eexists _, (tables ++ [cur]), ([] ++ [kv]). split; [done|]. cbn [r_vs r_edit r_keys].
    split_and!; [|done|done|done|by rewrite concat_app; cbn; rewrite app_nil_r, <-app_assoc].
    apply apply_entry; [done|done|done|]. rewrite Hb. unfold GetSize. change (blen (sb_buffer (SSTable.newBuilder fresh true))) with 0. by rewrite Z.add_0_l.
  - obind. cbn [ok negb]. eexists _, tables, (cur ++ [kv]). split; [done|]. cbn [r_vs r_edit r_keys].
    split_and!; [|done|done|done|done]. by apply apply_entry.
Qed.

Lemma same_vs_trans a b d : same_vs a b -> same_vs b d -> same_vs a d.
Proof. unfold same_vs, same_index. naive_solver congruence. Qed.

Lemma compact_list_spec c r tables cur kvs :
  c_max_lba_count c * lba_size < 2 ^ 32 -> can_build (r_vs r) c -> run_inv c r tables cur -> Forall (fits c) kvs ->
  exists r' tables' cur', compact_list c r kvs = Some (OK, r') /\ run_inv c r' tables' cur' /\ same_vs (r_vs r) (r_vs r') /\
    r_edit r' = r_edit r /\
    concat tables' ++ cur' = concat tables ++ cur ++
      keep (c_first_level c) (vs_last_sequence (r_vs r)) (current (r_vs r)) (r_keys r) kvs.
Proof.
  intros Hmax. revert r tables cur. induction kvs as [|kv kvs IH]; intros r tables cur Hnew Hinv Hfit; cbn [compact_list keep].
  { exists r, tables, cur. by rewrite app_nil_r. }
  apply Forall_cons in Hfit as [Hkv Hfit]. pose proof (compact_entry_spec c r tables cur kv Hmax Hnew Hinv Hkv) as He.
  destruct (drop_entry _ _ _ _ _) as [drop ks]. destruct He as (r1 & t1 & c1 & -> & Hinv1 & Hvs1 & He1 & Hk1 & Hc1). obind.
  cbn [ok negb]. pose proof Hvs1 as (Hver & [Hseq _] & Hmg).
  destruct (IH r1 t1 c1) as (r' & t' & c' & Hl & Hinv' & Hvs' & He' & Hc'); [by unfold can_build; rewrite Hmg|done|done|].
  exists r', t', c'. split_and!; [done|done|by eapply same_vs_trans|by rewrite He'|].
  rewrite Hc', Hk1, Hseq. unfold current. rewrite Hver, app_assoc, Hc1, <-!app_assoc. by destruct drop.
Qed.
End Loop.

(** ** The result of a compaction *)

Section Result.
Context `{UserComparator} {M L0 LN : Type} `{!CircularLog L0} `{!FragmentedLog LN}.
Context (lba_size zone_cap l0_min l0_max ln_min ln_max : Z).
Context `{!CircularLogLaws L0 lba_size (l0_min * zone_cap) (l0_max * zone_cap)}.
Context `{!FragmentedLogLaws LN (zone_cap * lba_size) ln_min ln_max}.
Context (HL : 0 < lba_size) (Hzc : 0 < zone_cap) (Hl0 : 0 <= l0_min <= l0_max) (Hln : 0 <= ln_min <= ln_max).
Context (Hbig0 : l0_max * zone_cap * lba_size < 2 ^ 60) (Hbig : ln_max * zone_cap * lba_size < 2 ^ 60).
Context (fresh : SSZoneMetaData) (H8 : length (m_LN_lbas fresh) = 8%nat) (H8' : length (m_LN_lba_region_sizes fresh) = 8%nat).

Abbreviation Manager := (TropoSSTableManager L0 LN).
Abbreviation VS := (TropoVersionSet M Manager).
Implicit Types (vs : VS) (c : TropoCompaction) (mg : Manager).
Abbreviation wf := (mg_wf l0_min l0_max ln_min ln_max).
Abbreviation store := (ln_store lba_size zone_cap ln_min ln_max).
Abbreviation stored_at := (stored_table lba_size zone_cap l0_min l0_max ln_min ln_max).
Abbreviation zone_function mg := (GetLNIterator lba_size zone_cap fresh mg).
Abbreviation stored := (SSZoneMetaData * regions * bytes)%type.

Lemma new_builder vs c : wf (vs_ss_manager vs) -> 0 <= c_first_level c < level_count - 1 -> can_build zone_cap fresh vs c.
Proof.
  intros Hwf Hl. unfold can_build, NewTropoSSTableBuilder. rewrite (proj2 (Z.leb_gt _ _)) by lia.
  erewrite on_table_ln; [done|exact Hwf|lia].
Qed.

(** What a write leaves of the table [t] with the number [n]: the table on the
    log, or nothing when it failed. *)
Definition written (n : Z) (t : list KV) (r : option stored) : Prop :=
  match r with
  | Some (m, ptrs, d) =>
      m_number m = n /\ d = table_image t /\ Some (m_smallest m) = fst <$> head t /\ Some (m_largest m) = fst <$> last t
  | None => True
  end.

Lemma Flush_spec mg level b t s mg' m sts :
  wf mg -> store (mg_ln mg) sts -> finished fresh b t -> Flush zone_cap mg level b = Some (s, mg', m) ->
  wf mg' /\ mg_l0 mg' = mg_l0 mg /\
  exists r, written (m_number (sb_meta b)) t r /\ store (mg_ln mg') (option_list r ++ sts) /\
    (if ok s then fst ∘ fst <$> r = Some m else r = None).
Proof.
  intros Hwf Hst [Him Hne Hsm Hs Hl [Ha Ha']]. unfold Flush, write_table.
  change lower_concurrency with (table_index 1 m). erewrite on_table_ln; [|exact Hwf|done].
  intros ([[s1 l1] m1] & Hw & [= <- <- <-])%bind_Some. split; [exact Hwf|]. split; [done|].
  pose proof (ln_write_keys _ _ _ _ _ _ _ _ Hw) as (En & Es & El). destruct (decide (s1 = OK)) as [->|Hok].
  - eapply ln_store_write in Hw as (ptrs & Hst'); [|exact HL|exact Hzc|exact Hln|exact Hbig|by rewrite Ha|by rewrite Ha'|exact Hst].
    exists (Some (m1, ptrs, sb_buffer b)). cbn. rewrite En, Es, El. done.
  - eapply ln_store_write_fail in Hw as [Hst' _]; [|exact Hok|exact Hst]. exists None. by destruct s1.
Qed.

(** The log finds room for a table within the eight regions of its metadata, or
    reports that it is full. *)
Definition placed : Prop :=
  forall (log : LN) b t w, finished fresh b t -> is_Some (ln_WriteSSTable zone_cap log (sb_buffer b) (sb_meta b) w).

Lemma Flush_total mg level b t : wf mg -> placed -> finished fresh b t -> is_Some (Flush zone_cap mg level b).
Proof.
  intros Hwf Hp Hf. unfold Flush, write_table. change lower_concurrency with (table_index 1 fresh).
  erewrite on_table_ln; [|exact Hwf|done].
  destruct (Hp (mg_ln mg) b t (if level =? 1 then 0 else 1) Hf) as [[[s l] m] E]. rewrite E. obind. by eexists.
Qed.

Lemma DeferCompactionWrite_spec level queue tables mg edit sts :
  wf mg -> placed -> store (mg_ln mg) sts -> Forall2 (finished fresh) queue tables ->
  exists mg' results, wf mg' /\ mg_l0 mg' = mg_l0 mg /\
    Forall3 written ((fun b => m_number (sb_meta b)) <$> queue) tables results /\
    store (mg_ln mg') (reverse (omap id results) ++ sts) /\
    DeferCompactionWrite zone_cap fresh level queue mg edit =
      Some (mg', fold_left (fun e r => AddSSDefinition fresh e level (fst (fst r))) (omap id results) edit).
Proof.
  intros Hwf Hp Hst Hf. revert mg edit sts Hwf Hst. induction Hf as [|b t queue tables Hb _ IH]; intros mg edit sts Hwf Hst;
    cbn [DeferCompactionWrite].
  { exists mg, []. split_and!; [done|done|constructor|done|done]. }
  destruct (Flush_total mg level b t Hwf Hp Hb) as [[[s mg1] m] Hfl]. rewrite Hfl. obind.
  destruct (Flush_spec _ _ _ _ _ _ _ _ Hwf Hst Hb Hfl) as (Hwf1 & E0 & r & Hr & Hst1 & Hm).
  destruct (IH mg1 (if ok s then AddSSDefinition fresh edit level m else edit) _ Hwf1 Hst1) as (mg' & rs & Hwf' & E0' & Hrs & Hst' & ->).
  exists mg', (r :: rs). split_and!; [done|by rewrite E0'|by constructor| |].
  - destruct r as [r|]; [|done]. change (omap id (Some r :: rs)) with (r :: omap id rs). by rewrite reverse_cons, <-app_assoc.
  - destruct (ok s), r as [[[m1 ptrs] d]|]; cbn in *; congruence.
Qed.

(** ** The inputs *)

(** The entries that the children of the merging iterator have. *)
Definition inputs c (kvss0 kvss1 : list (list KV)) : list (list KV) :=
  (if c_first_level c =? 0 then kvss0 else [concat kvss0]) ++ [concat kvss1].

Lemma level_child_over mg targets level kvss :
  wf mg -> 1 <= level < level_count -> NoDup (m_number <$> targets) -> Forall2 (stored_at mg level) targets kvss ->
  exists li, level_child targets level = Some li /\ child_over (zone_function mg) li (concat kvss).
Proof.
  intros Hwf Hl Hnd Hst.
  assert (Hok : scan_ok (zone_function mg) level targets (handle_of level <$> targets) kvss) by (by eapply stored_scan_ok).
  pose proof Hok as [H1 H2 H3 H4].
  destruct (newLNIterator_over (I := SSTableIteratorCompressed) level targets (handle_of level <$> targets) kvss H1 H2 true) as (li & E & Ho).
  exists (CLevel li). unfold level_child. rewrite E. split; [done|]. by exists level, targets, (handle_of level <$> targets), kvss.
Qed.

Lemma table_children_over mg targets kvss :
  wf mg -> Forall2 (stored_at mg 0) targets kvss ->
  exists its, mapM (M := option) (fun m => option_map (option_map CTable) (mg_NewIterator lba_size zone_cap mg 0 m)) targets =
    Some (Some <$> its) /\ Forall2 (child_over (zone_function mg)) its kvss.
Proof.
  intros Hwf. induction 1 as [|m kvs targets kvss (Hm & Hne & Hs & pad & Ht) _ (its & E & Hits)].
  { exists []. split; [done|constructor]. }
  destruct (mg_iterator lba_size zone_cap l0_min l0_max ln_min ln_max HL Hzc Hl0 Hln Hbig0 Hbig mg 0 m kvs pad Hwf)
    as (it & pad1 & Eit & Hti & Hok & _); [done|done|done|done|].
  exists (CTable it :: its). cbn [mapM]. rewrite Eit. cbn [option_map mbind option_bind]. rewrite E. split; [done|].
  constructor; [by exists pad1|done].
Qed.

Lemma children_over vs c kvss0 kvss1 :
  wf (vs_ss_manager vs) -> 0 <= c_first_level c < level_count - 1 ->
  NoDup (m_number <$> c_targets0 c) -> NoDup (m_number <$> c_targets1 c) ->
  Forall2 (stored_at (vs_ss_manager vs) (c_first_level c)) (c_targets0 c) kvss0 ->
  Forall2 (stored_at (vs_ss_manager vs) (c_first_level c + 1)) (c_targets1 c) kvss1 ->
  exists children, MakeCompactionIterator lba_size zone_cap vs c = Some (Some <$> children) /\
    Forall2 (child_over (zone_function (vs_ss_manager vs))) children (inputs c kvss0 kvss1).
Proof.
  intros Hwf Hl Hn0 Hn1 H0 H1.
  destruct (level_child_over _ _ (c_first_level c + 1) _ Hwf ltac:(lia) Hn1 H1) as (li1 & E1 & O1).
  assert (exists cs, first_children lba_size zone_cap vs c = Some (Some <$> cs) /\
    Forall2 (child_over (zone_function (vs_ss_manager vs))) cs (if c_first_level c =? 0 then kvss0 else [concat kvss0]))
    as (cs & E0 & O0).
  { unfold first_children. destruct (Z.eqb_spec (c_first_level c) 0) as [E|Hne].
    - rewrite E in H0. by apply table_children_over.
    - destruct (level_child_over _ _ (c_first_level c) _ Hwf ltac:(lia) Hn0 H0) as (li & E & O). exists [li]. rewrite E. split; [done|].
      by repeat constructor. }
  exists (cs ++ [li1]). unfold MakeCompactionIterator. rewrite E0. obind. rewrite E1. obind. rewrite fmap_app. split; [done|].
  apply Forall2_app; [done|]. by repeat constructor.
Qed.

(** ** The whole compaction *)

(** The inputs of the compaction are stored, with the entries [kvss0] and
    [kvss1], and each entry fits into a table. *)
Record compactable vs c (kvss0 kvss1 : list (list KV)) : Prop := {
  cp_wf : wf (vs_ss_manager vs);
  cp_level : 0 <= c_first_level c < level_count - 1;
  cp_numbers0 : NoDup (m_number <$> c_targets0 c);
  cp_numbers1 : NoDup (m_number <$> c_targets1 c);
  cp_stored0 : Forall2 (stored_at (vs_ss_manager vs) (c_first_level c)) (c_targets0 c) kvss0;
  cp_stored1 : Forall2 (stored_at (vs_ss_manager vs) (c_first_level c + 1)) (c_targets1 c) kvss1;
  cp_sorted : Forall (StronglySorted kv_lt) (inputs c kvss0 kvss1);
  cp_nonempty : concat (inputs c kvss0 kvss1) <> [];
  cp_fits : Forall (fits lba_size c) (concat (inputs c kvss0 kvss1));
  cp_limit : 0 < c_max_lba_count c /\ c_max_lba_count c * lba_size < 2 ^ 32;
  cp_number : is_u64 (vs_ss_number vs)
}.

(** The entries that the compaction writes. *)
Definition kept vs c kvss0 kvss1 : list KV :=
  keep (c_first_level c) (vs_last_sequence vs) (current vs) (init_keys c) (Iterators.merged (inputs c kvss0 kvss1)).

(** The merging iterator at its first entry. *)
Lemma merger_first vs c kvss0 kvss1 (zf := zone_function (vs_ss_manager vs)) :
  compactable vs c kvss0 kvss1 ->
  exists children mi, MakeCompactionIterator lba_size zone_cap vs c = Some children /\
    mi_SeekToFirst (Iterator0 := child_ops zf) (newMerging (Iterator0 := child_ops zf) children) = Some mi /\
    mi_Valid mi = true /\
    fi_rest (ForwardIterator := merging_forward (ForwardIterator0 := child_forward zf)) mi (Iterators.merged (inputs c kvss0 kvss1)).
Proof.
  intros [Hwf Hl Hn0 Hn1 H0 H1 Hs Hne _ _ _]. destruct (merged_spec _ Hs) as [_ Hperm].
  destruct (children_over vs c kvss0 kvss1 Hwf Hl Hn0 Hn1 H0 H1) as (children & E & Ho).
  destruct (fi_first (ForwardIterator := merging_forward (ForwardIterator0 := child_forward zf))
    (newMerging (Iterator0 := child_ops zf) (Some <$> children)) (Iterators.merged (inputs c kvss0 kvss1))) as (mi & Ei & Hr).
  { exists (inputs c kvss0 kvss1). split; [|done]. cbn [mi_children newMerging]. clear -Ho.
    induction Ho as [|x l cs ls Hc _ IH]; [constructor|]. constructor; [by exists x|done]. }
  exists (Some <$> children), mi. split_and!; [exact E|exact Ei| |exact Hr].
  pose proof (fi_valid (ForwardIterator := merging_forward (ForwardIterator0 := child_forward zf)) mi _ Hr) as Hv.
  cbn [i_Valid merging_ops] in Hv. rewrite Hv. destruct (Iterators.merged _); [|done].
  by apply Permutation_nil_l in Hperm.
Qed.

(** The flush of the last table. *)
Lemma final_flush n c (r : run (M := M) (L0 := L0) (LN := LN)) tables cur :
  c_max_lba_count c * lba_size < 2 ^ 32 -> can_build zone_cap fresh (r_vs r) c -> run_inv lba_size fresh n c r tables cur ->
  exists r' tables', (if ok OK && (0 <? GetSize (r_builder r)) then FlushSSTable zone_cap fresh c r else Some (OK, r)) = Some (OK, r') /\
    run_inv lba_size fresh n c r' tables' [] /\ concat tables' = concat tables ++ cur /\
    same_vs (r_vs r) (r_vs r') /\ r_edit r' = r_edit r.
Proof.
  intros Hlim Hb Hinv. pose proof (ri_count _ _ _ _ _ _ _ Hinv) as Hc. unfold GetSize.
  rewrite (bu_buffer _ _ (ri_built _ _ _ _ _ _ _ Hinv)). cbn [ok andb]. destruct cur as [|kv cur].
  - exists r, tables. by rewrite app_nil_r.
  - rewrite (proj2 (Z.ltb_lt _ _)) by (rewrite blen_cons in Hc; pose proof (blen_nonneg cur); lia).
    destruct (FlushSSTable_spec lba_size zone_cap fresh HL n c r tables (kv :: cur) Hlim Hb Hinv ltac:(done)) as (r' & E & Hi & Hvs & He & _).
    exists r', (tables ++ [kv :: cur]). split_and!; [done|done|by rewrite concat_app; cbn; rewrite app_nil_r|done|done].
Qed.

Lemma DoCompaction_tables fuel vs c edit kvss0 kvss1 :
  compactable vs c kvss0 kvss1 -> (length (concat (inputs c kvss0 kvss1)) < fuel)%nat ->
  exists queue tables vs1, same_vs vs vs1 /\ Forall2 (finished fresh) queue tables /\
    (fun b => m_number (sb_meta b)) <$> queue = table_numbers (vs_ss_number vs) (length tables) /\
    vs_ss_number vs1 = u64 (vs_ss_number vs + blen tables) /\ concat tables = kept vs c kvss0 kvss1 /\
    DoCompaction lba_size zone_cap fresh fuel vs c edit =
      ('(mg, edit) ← DeferCompactionWrite zone_cap fresh (c_first_level c + 1) queue (vs_ss_manager vs) edit;
       Some (OK, set_ss_manager vs1 mg, edit)).
Proof.
  intros Hcp Hfuel. destruct (merger_first _ _ _ _ Hcp) as (children & mi & Ech & Emi & Hv & Hr).
  destruct Hcp as [Hwf Hl _ _ _ _ Hs _ Hfit [Hpos Hlim] Hnum]. destruct (merged_spec _ Hs) as [_ Hperm].
  pose proof (new_builder vs c Hwf Hl) as Hb. unfold DoCompaction. rewrite Hb. obind. rewrite Ech. obind. rewrite Emi. obind.
  rewrite Hv. cbn [negb]. erewrite (compact_loop_list _ _ _ _ _ _ _ _ Hr); [|by rewrite Hperm].
  set (r0 := mkRun vs (SSTable.newBuilder fresh true) [] edit (init_keys c)).
  assert (Hinv0 : run_inv lba_size fresh (vs_ss_number vs) c r0 [] []).
  { apply new_builder_inv; [done|done|done|constructor|done|]. cbn. rewrite Z.add_0_r. symmetry. by apply u64_small. }
  destruct (compact_list_spec lba_size zone_cap fresh HL (vs_ss_number vs) c r0 [] [] (Iterators.merged (inputs c kvss0 kvss1)) Hlim Hb Hinv0)
    as (r1 & t1 & cur & -> & Hinv1 & Hvs1 & He1 & Hc1); [by rewrite Hperm|]. obind.
  assert (Hb1 : can_build zone_cap fresh (r_vs r1) c) by (destruct Hvs1 as (_ & _ & Hmg); unfold can_build; by rewrite Hmg).
  destruct (final_flush _ _ _ _ _ Hlim Hb1 Hinv1) as (r2 & t2 & -> & Hinv2 & Hc2 & Hvs2 & He2). obind.
  assert (Hvs : same_vs vs (r_vs r2)) by (by eapply same_vs_trans).
  exists (r_queue r2), t2, (r_vs r2). split_and!; [done|by eapply ri_queue|by eapply ri_numbers|by eapply ri_next|by rewrite Hc2, Hc1|].
  destruct Hvs as (_ & _ & ->). by rewrite He2, He1.
Qed.

(** ** What the compaction keeps *)

Lemma keep_sublist ks kvs first min_seq v : keep first min_seq v ks kvs `sublist_of` kvs.
Proof.
  revert ks. induction kvs as [|kv kvs IH]; intros ks; cbn [keep]; [done|].
  destruct (drop_entry _ _ _ _ _) as [drop ks']. destruct drop; [by apply sublist_cons|by apply sublist_skip].
Qed.

(** The newest entry of each user key, unless it is a deletion without anything
    left to delete. *)
Lemma kept_lookup vs c kvs0 kvss0 kvss1 u :
  version_ok (current vs) kvs0 -> compactable vs c kvss0 kvss1 -> c_level_ptrs c = replicate (Z.to_nat level_count) 0%nat ->
  Forall (fun kv => is_Some (ParseInternalKey (fst kv))) (concat (inputs c kvss0 kvss1)) ->
  vs_last_sequence vs < kMaxSequenceNumber ->
  table_lookup (kept vs c kvss0 kvss1) u =
    (kv ← table_lookup (Iterators.merged (inputs c kvss0 kvss1)) u;
     if survives (c_first_level c) (vs_last_sequence vs) (current vs) kv then Some kv else None).
Proof.
  intros Hv [_ Hl _ _ _ _ Hs _ _ _ _] Hptrs Hparse Hseq. destruct (merged_spec _ Hs) as [Hsorted Hperm].
  assert (Hlow : forall lvl, lvl ∈ lower_levels (c_first_level c) -> 1 <= lvl < level_count).
  { intros lvl [? ?]%elem_of_seqZ. lia. }
  unfold kept. rewrite keep_lookup; [done|lia| | | |done|by rewrite Hperm|done].
  - intros lvl m Hlvl Hm. eapply version_wf; [exact Hv| |exact Hm]. specialize (Hlow lvl Hlvl). lia.
  - intros lvl Hlvl. by apply (vo_ln _ _ Hv), Hlow.
  - constructor; cbn [init_keys ks_user_key]; [|done|done]. intros kv _. cbn. rewrite Hptrs. split; [done|].
    intros lvl m i Hlvl Hi _. specialize (Hlow lvl Hlvl). rewrite lookup_replicate_2 in Hi by lia. cbn in Hi. lia.
Qed.

(** The edit with the tables that were written. *)
Definition add_tables (level : Z) (edit : TropoVersionEdit) (results : list (option stored)) : TropoVersionEdit :=
  fold_left (fun e r => AddSSDefinition fresh e level (fst (fst r))) (omap id results) edit.

Lemma DoCompaction_result fuel vs c edit kvss0 kvss1 sts :
  compactable vs c kvss0 kvss1 -> placed -> store (mg_ln (vs_ss_manager vs)) sts ->
  (length (concat (inputs c kvss0 kvss1)) < fuel)%nat ->
  exists vs' tables results,
    DoCompaction lba_size zone_cap fresh fuel vs c edit =
      Some (OK, vs', add_tables (c_first_level c + 1) edit results) /\
    Forall3 written (table_numbers (vs_ss_number vs) (length tables)) tables results /\
    store (mg_ln (vs_ss_manager vs')) (reverse (omap id results) ++ sts) /\
    wf (vs_ss_manager vs') /\ mg_l0 (vs_ss_manager vs') = mg_l0 (vs_ss_manager vs) /\ vs_versions vs' = vs_versions vs /\
    vs_ss_number vs' = u64 (vs_ss_number vs + blen tables) /\
    Forall (fun t => t <> [] /\ small_table t) tables /\ concat tables = kept vs c kvss0 kvss1 /\ same_index vs vs'.
Proof.
  intros Hcp Hp Hst Hfuel. destruct (DoCompaction_tables _ _ _ edit _ _ Hcp Hfuel) as (queue & tables & vs1 & Hvs & Hq & Hn & Hnx & Hk & ->).
  destruct (DeferCompactionWrite_spec (c_first_level c + 1) queue tables _ edit sts (cp_wf _ _ _ _ Hcp) Hp Hst Hq)
    as (mg' & results & Hwf & E0 & Hw & Hst' & ->). obind. rewrite Hn in Hw.
  eexists _, tables, results. split; [done|]. split_and!; try done; [by destruct Hvs| |by destruct Hvs as (_ & ? & _)].
  clear -Hq. induction Hq as [|b t queue tables Hb _ IH]; constructor; [|done]. split; [by eapply fn_nonempty|by eapply fn_small].
Qed.

End Result.

(** ** Witness: level 1 into level 2 *)

Module CompactionWitness.
(** Blocks of 16 bytes, zones of 8 blocks; level 0 has the zones 0 to 2, the
    other levels the zones 3 to 10. *)
#[global] Instance l0_ops : CircularLog MemLog.t := MemLog.ops 16 0 24.
#[global] Instance l0_laws : CircularLogLaws MemLog.t 16 (0 * 8) (3 * 8) := MemLog.laws 16 0 24 ltac:(lia) ltac:(lia).
#[global] Instance ln_ops : FragmentedLog MemFrag.t := MemFrag.ops 128 3 11.
#[global] Instance ln_laws : FragmentedLogLaws MemFrag.t (8 * 16) 3 11 := MemFrag.laws 128 3 11 ltac:(lia).

Definition fresh : SSZoneMetaData := newSSZoneMetaData 77 (repeat 0 8) (repeat 0 8).
Definition kv (c s t : Z) : KV := (InternalKey [z2b c] s t, [z2b s]).
(** A newer value, a deletion of a key of level 2, and one of a key that it has not. *)
Definition upper : list KV := [kv 1 5 1; kv 2 6 0; kv 4 7 0].
Definition lower : list KV := [kv 1 1 1; kv 2 2 1; kv 3 3 1].

Definition meta (n : Z) (kvs : list KV) : SSZoneMetaData :=
  mkMeta 0 0 n 0 0 0 0 (repeat 0 8) (repeat 0 8) (blen kvs) 0 (default [] (fst <$> head kvs)) (default [] (fst <$> last kvs)).
Definition write (log : MemFrag.t) (n : Z) (kvs : list KV) : option (Status * MemFrag.t * SSZoneMetaData) :=
  ln_WriteSSTable 8 log (table_image kvs) (meta n kvs) 0.
Definition log1 : MemFrag.t := default ∅ (snd ∘ fst <$> write ∅ 1 upper).
Definition m1 : SSZoneMetaData := default (meta 1 upper) (snd <$> write ∅ 1 upper).
Definition log2 : MemFrag.t := default ∅ (snd ∘ fst <$> write log1 2 lower).
Definition m2 : SSZoneMetaData := default (meta 2 lower) (snd <$> write log1 2 lower).

Abbreviation Manager := (TropoSSTableManager MemLog.t MemFrag.t).
Definition mg : Manager := mkManager [MemLog.mk 0 []] log2 [(0, 3); (3, 11)].
Definition version : TropoVersion := mkVersion [[]; [m1]; [m2]; []; []; []] (repeat [] 6) (0, 0).
Definition kvs (l : Z) (m : SSZoneMetaData) : list KV := if m_number m =? 1 then upper else lower.
Definition vs : TropoVersionSet unit Manager := mkVersionSet [(version, 1)] (0, f64_of_Z 0) 10 3 0 (repeat [] 6) () mg.
Definition c : TropoCompaction := mkCompaction 1 3 (Some version) newEdit [m1] [m2] (replicate 6 0%nat) [] false.

Definition result (edit : TropoVersionEdit) : option (Status * TropoVersionSet unit Manager * TropoVersionEdit) :=
  DoCompaction (H := BytewiseComparator) 16 8 fresh 7 vs c edit.
End CompactionWitness.

Lemma CompactionWitness_store : exists p1 p2,
  ln_store 16 8 3 11 CompactionWitness.log2
    [(CompactionWitness.m2, p2, table_image CompactionWitness.lower); (CompactionWitness.m1, p1, table_image CompactionWitness.upper)].
Proof.
  destruct (ln_store_write 16 8 3 11 ltac:(lia) ltac:(lia) ltac:(lia) ltac:(lia) (∅ : MemFrag.t) []
    (table_image CompactionWitness.upper) (CompactionWitness.meta 1 CompactionWitness.upper) 0
    CompactionWitness.log1 CompactionWitness.m1) as (p1 & H1).
  { reflexivity. }
  { reflexivity. }
  { constructor; constructor. }
  { vm_compute. reflexivity. }
  destruct (ln_store_write 16 8 3 11 ltac:(lia) ltac:(lia) ltac:(lia) ltac:(lia) CompactionWitness.log1 _
    (table_image CompactionWitness.lower) (CompactionWitness.meta 2 CompactionWitness.lower) 0
    CompactionWitness.log2 CompactionWitness.m2 eq_refl eq_refl H1) as (p2 & H2).
  { vm_compute. reflexivity. }
  by exists p1, p2.
Qed.

(** A log of eight zones never needs more than eight regions. *)
Lemma CompactionWitness_placed : placed (LN := MemFrag.t) 8 CompactionWitness.fresh.
Proof.
  intros log b t w _. unfold ln_WriteSSTable. destruct (negb _); [done|].
  destruct (fl_Append log (sb_buffer b) w) as [[r ptrs] log'] eqn:Ea. destruct (negb _); [done|].
  assert (Hp : blen ptrs <= 8).
  { cbn [fl_Append CompactionWitness.ln_ops MemFrag.ops] in Ea. unfold MemFrag.append in Ea.
    destruct (_ <=? _); injection Ea as <- <- <-; [|rewrite blen_nil; lia].
    unfold MemFrag.singles, blen. rewrite length_map. unfold ztake. rewrite length_take.
    pose proof (length_filter (fun z => log !! z = None) (seqZ 3 (11 - 3))) as Hf. unfold MemFrag.free. rewrite length_seqZ in Hf. lia. }
  destruct (proj2 (record_regions_defined 8 ptrs (set_LN (sb_meta b) 0 (m_LN_lbas (sb_meta b)) (m_LN_lba_region_sizes (sb_meta b)) 0)
    ltac:(cbn; unfold max_lba_regions; lia)) ltac:(cbn; unfold max_lba_regions; lia)) as [m Hm].
  rewrite Hm. obind. by eexists.
Qed.

Lemma CompactionWitness_version :
  version_ok (H := BytewiseComparator) (current CompactionWitness.vs) CompactionWitness.kvs.
Proof. apply version_check_sound, (bool_decide_unpack _). by vm_compute. Qed.

Lemma CompactionWitness_small : small_table CompactionWitness.upper /\ small_table CompactionWitness.lower.
Proof. split; (split; [repeat constructor|split; reflexivity]). Qed.

Lemma CompactionWitness_table (m : SSZoneMetaData) (l : Z) (kvs : list KV) :
  (m, l, kvs) ∈ [(CompactionWitness.m1, 1, CompactionWitness.upper); (CompactionWitness.m2, 2, CompactionWitness.lower)] ->
  stored_table 16 8 0 3 3 11 CompactionWitness.mg l m kvs.
Proof.
  destruct CompactionWitness_store as (p1 & p2 & [Hs _]). apply Forall_cons in Hs as [H2 [H1 _]%Forall_cons].
  destruct CompactionWitness_small as [Su Sl].
  intros [[= -> -> ->]|[[= -> -> ->]|[]%not_elem_of_nil]%elem_of_cons]%elem_of_cons.
  - split_and!; [|discriminate|done|exists [], p1; by rewrite app_nil_r].
    constructor; apply (bool_decide_unpack _); by vm_compute.
  - split_and!; [|discriminate|done|exists [], p2; by rewrite app_nil_r].
    constructor; apply (bool_decide_unpack _); by vm_compute.
Qed.

Lemma CompactionWitness_fits : Forall (fits 16 CompactionWitness.c) (CompactionWitness.upper ++ CompactionWitness.lower).
Proof. repeat constructor. Qed.

Lemma CompactionWitness_compactable :
  compactable (H := BytewiseComparator) 16 8 0 3 3 11 CompactionWitness.vs CompactionWitness.c [CompactionWitness.upper] [CompactionWitness.lower].
Proof.
  constructor.
  - by split.
  - done.
  - apply NoDup_singleton.
  - apply NoDup_singleton.
  - constructor; [|constructor]. apply CompactionWitness_table. left.
  - constructor; [|constructor]. apply CompactionWitness_table. right. left.
  - unfold kv_lt. apply (bool_decide_unpack _). by vm_compute.
  - discriminate.
  - exact CompactionWitness_fits.
  - done.
  - done.
Qed.

