(* ===== verification/CompactionSafety.v ===== *)
(** * CompactionSafety: a compaction changes no answer

    The part of [impl/tropodb_impl_background.cc] that runs a compaction and
    installs its edit, and the theorem that ties the index, the compaction and the
    storage together: after the compaction the version is well formed, its tables
    are stored, and every key has the answer it had before. *)

From S2P Require Import Prelude Coding DbFormat Config SSTable SSTableIter VersionEdit Version Szd Iterators.
From S2P Require Import VersionBuilder Manifest VersionSet PickCompaction L0SSTable LNSSTable SSTableManager TableCache LNIterator Compaction.

(** ** Replacing tables by tables of the next level *)

Section Replace.
Context `{UserComparator}.
Context (v v' : TropoVersion) (kvs kvs' : Z -> SSZoneMetaData -> list KV).
Context (c : TropoCompaction) (min_seq : Z) (new : SSZoneMetaData -> Prop).
Abbreviation lvl := (c_first_level c).

(** The tables that the compaction replaces, and the entries that these have. *)
Definition target (l : Z) (m : SSZoneMetaData) : Prop :=
  (l = lvl /\ m ∈ c_targets0 c) \/ (l = lvl + 1 /\ m ∈ c_targets1 c).
Definition input (kv : KV) : Prop := exists l m, target l m /\ kv ∈ kvs l m.
Definition newest_input (kv : KV) : Prop := input kv /\ forall kv', input kv' -> ukey kv' = ukey kv -> kv_le kv kv'.
Definition stays (l : Z) (m : SSZoneMetaData) : Prop := m ∈ level_tables (v_ss v) l /\ ~ target l m.

(** The new tables hold entries of the replaced ones; of each user key the
    newest one, unless it is a deletion without anything left to delete. *)
Record replaces : Prop := {
  rp_tables : forall l m, 0 <= l < level_count -> m ∈ level_tables (v_ss v') l <-> (l = lvl + 1 /\ new m) \/ stays l m;
  rp_stays : forall l m, 0 <= l < level_count -> stays l m -> kvs' l m = kvs l m;
  rp_new : forall m, new m -> table_ok m (kvs' (lvl + 1) m);
  rp_inputs : forall m kv, new m -> kv ∈ kvs' (lvl + 1) m -> input kv;
  rp_kept : forall kv, newest_input kv ->
    (exists m, new m /\ kv ∈ kvs' (lvl + 1) m) \/
    (survives lvl min_seq v kv = false /\ forall m kv', new m -> kv' ∈ kvs' (lvl + 1) m -> ukey kv' <> ukey kv)
}.

Context (Hv : version_ok v kvs) (Hin : inputs_ok v c) (Hleave : leaves_newer kvs v c).
Context (Hlvl : 0 <= lvl < level_count - 1) (Hr : replaces).

Lemma target_table l m : target l m -> 0 <= l < level_count /\ lvl <= l <= lvl + 1 /\ m ∈ level_tables (v_ss v) l.
Proof.
  intros [[-> Hm]|[-> Hm]]; (split_and!; [lia|lia|lia|lia|]); [by apply (io_targets0 _ _ Hin)|by apply (io_targets1 _ _ Hin)].
Qed.

(** A table that stays on the level or above has newer entries than the inputs. *)
Lemma stays_newer l m kv kv' :
  0 <= l <= lvl -> stays l m -> kv ∈ kvs l m -> input kv' -> ukey kv = ukey kv' -> kv_lt kv kv'.
Proof.
  intros Hl [Hm Hnt] Hkv (l' & t & Ht & Hkv') Hu. destruct (target_table _ _ Ht) as (Hl' & Hl'' & Ht').
  destruct (decide (l < l')) as [Hlt|Hge].
  - by apply (vo_levels _ _ Hv l l' m t ltac:(lia) ltac:(lia) Hm Ht' kv kv').
  - assert (l = lvl) as -> by lia. assert (l' = lvl) as -> by lia. destruct Ht as [[_ Ht]|[? _]]; [|lia].
    apply (Hleave m t Hm); [|done..]. intros Hm'. apply Hnt. by left.
Qed.

(** An input is newer than what a table of the levels below has. *)
Lemma input_newer l m kv kv' :
  lvl + 1 < l < level_count -> m ∈ level_tables (v_ss v) l -> input kv -> kv' ∈ kvs l m -> ukey kv = ukey kv' -> kv_lt kv kv'.
Proof.
  intros Hl Hm (l' & t & Ht & Hkv) Hkv' Hu. destruct (target_table _ _ Ht) as (Hl' & Hl'' & Ht').
  by apply (vo_levels _ _ Hv l' l t m ltac:(lia) ltac:(lia) Ht' Hm kv kv').
Qed.

(** Every entry of the new version is one of the old version. *)
Lemma replaced_entry l m kv :
  0 <= l < level_count -> m ∈ level_tables (v_ss v') l -> kv ∈ kvs' l m ->
  (l = lvl + 1 /\ new m /\ input kv) \/ (stays l m /\ kv ∈ kvs l m).
Proof.
  intros Hl Hm Hkv. apply (rp_tables Hr) in Hm as [[-> Hm]|Hm]; [|right|done].
  - left. split_and!; [done|done|by eapply rp_inputs].
  - by rewrite <-(rp_stays Hr).
Qed.

Lemma replaced_old_entry l m kv :
  0 <= l < level_count -> m ∈ level_tables (v_ss v') l -> kv ∈ kvs' l m ->
  exists l0 m0, 0 <= l0 < level_count /\ m0 ∈ level_tables (v_ss v) l0 /\ kv ∈ kvs l0 m0.
Proof.
  intros Hl Hm Hkv. destruct (replaced_entry l m kv Hl Hm Hkv) as [(_ & _ & l0 & t & Ht & ?)|[[? _] ?]]; [|eauto].
  destruct (target_table _ _ Ht) as (? & _ & ?). eauto.
Qed.

Lemma replaced_levels l l' m m' :
  0 <= l < l' -> l' < level_count -> m ∈ level_tables (v_ss v') l -> m' ∈ level_tables (v_ss v') l' ->
  shadows (kvs' l m) (kvs' l' m').
Proof.
  intros Hl Hl' Hm Hm' kv kv' Hkv Hkv' Hu.
  destruct (replaced_entry l m kv ltac:(lia) Hm Hkv) as [(-> & _ & Hi)|[Hs Hk]];
    destruct (replaced_entry l' m' kv' ltac:(lia) Hm' Hkv') as [(-> & _ & Hi')|[Hs' Hk']].
  - lia.
  - by apply (input_newer l' m'); [lia|apply Hs'|..].
  - by apply (stays_newer l m); [lia|..].
  - destruct Hs as [Hs _], Hs' as [Hs' _]. by apply (vo_levels _ _ Hv l l' m m').
Qed.

Lemma replaced_version_ok :
  NoDup (m_number <$> level_tables (v_ss v') 0) ->
  (forall l, 1 <= l < level_count -> no_overlap (level_tables (v_ss v') l) = true) -> version_ok v' kvs'.
Proof.
  intros Hnd Hno.
  assert (Htab : forall l m, 0 <= l < level_count -> m ∈ level_tables (v_ss v') l -> table_ok m (kvs' l m)).
  { intros l m Hl [[-> Hm]|Hm]%(rp_tables Hr); [by apply (rp_new Hr)| |done]. rewrite (rp_stays Hr) by done.
    apply (vo_tables _ _ Hv); [done|apply Hm]. }
  constructor; [done|done| | |exact replaced_levels].
  - intros m m' Hm Hm' Hnew. apply (rp_tables Hr) in Hm as [[? _]|Hm], Hm' as [[? _]|Hm']; try lia.
    rewrite !(rp_stays Hr) by done. by apply (vo_l0 _ _ Hv); [apply Hm|apply Hm'|].
  - intros l Hl. apply no_overlap_sorted; [|by apply Hno]. intros m Hm. eapply table_ok_range, Htab; [|exact Hm]. lia.
Qed.

(** A user key that no table of the levels below can have. *)
Lemma base_level_entry l m kv :
  lvl + 1 <= l < level_count -> m ∈ level_tables (v_ss v) l -> kv ∈ kvs l m -> base_level lvl v (ukey kv) = false.
Proof.
  intros Hl Hm Hkv. apply not_true_is_false. intros Hb. unfold base_level in Hb. rewrite forallb_forall in Hb.
  specialize (Hb l ltac:(apply list_elem_of_In, elem_of_seqZ; lia)). rewrite forallb_forall in Hb.
  specialize (Hb m ltac:(by apply list_elem_of_In)). apply negb_true_iff in Hb.
  assert (in_range (ukey kv) m = true); [|congruence]. apply in_range_iff.
  destruct (table_bounds m (kvs l m) (vo_tables _ _ Hv l m ltac:(lia) Hm) kv Hkv) as [Hs Hlg].
  split; by apply InternalCompare_ukey.
Qed.

Lemma survives_false kv : survives lvl min_seq v kv = false -> key_answer kv = (NotFound, []) /\ base_level lvl v (ukey kv) = true.
Proof.
  unfold survives, key_answer. destruct (ParseInternalKey (fst kv)) as [p|]; [|done].
  intros [[Hd _]%andb_true_iff Hb]%negb_false_iff%andb_true_iff. by rewrite Hd.
Qed.

(** The newest entry of a key is dropped only when nothing of the key is left. *)
Lemma dropped_none kv l m kv' :
  newest v kvs (ukey kv) kv -> input kv -> survives lvl min_seq v kv = false ->
  (forall m kv', new m -> kv' ∈ kvs' (lvl + 1) m -> ukey kv' <> ukey kv) ->
  0 <= l < level_count -> m ∈ level_tables (v_ss v') l -> kv' ∈ kvs' l m -> ukey kv' <> ukey kv.
Proof.
  intros (_ & _ & Hall) Hi Hsv Hnone Hl Hm Hkv' Hu.
  destruct (replaced_entry l m kv' Hl Hm Hkv') as [(-> & Hn & _)|[Hs Hk]]; [by apply (Hnone m kv')|].
  destruct (decide (l <= lvl)) as [Hle|Hgt].
  - assert (Hlt : kv_lt kv' kv) by (apply (stays_newer l m); [lia|done..]).
    specialize (Hall l m kv' Hl (proj1 Hs) Hk Hu). by apply (clt_nle InternalCompare) in Hlt.
  - apply survives_false in Hsv as [_ Hb]. rewrite <-Hu in Hb.
    rewrite (base_level_entry l m kv') in Hb; [done|lia|apply Hs|done].
Qed.

(** The newest entry of a key is kept, or it is a deletion and the key has no entry any more. *)
Lemma replaced_newest kv :
  newest v kvs (ukey kv) kv ->
  (exists l m, 0 <= l < level_count /\ m ∈ level_tables (v_ss v') l /\ kv ∈ kvs' l m) \/
  (key_answer kv = (NotFound, []) /\
   forall l m kv', 0 <= l < level_count -> m ∈ level_tables (v_ss v') l -> kv' ∈ kvs' l m -> ukey kv' <> ukey kv).
Proof.
  intros Hn. pose proof Hn as ((l & m & Hl & Hm & Hkv) & _ & Hall).
  destruct (decide (m ∈ c_targets0 c /\ l = lvl \/ m ∈ c_targets1 c /\ l = lvl + 1)) as [Ht|Ht].
  - assert (Hi : input kv) by (exists l, m; split; [unfold target; tauto|done]).
    destruct (rp_kept Hr kv) as [(m' & Hn' & Hk)|[Hsv Hnone]].
    + split; [done|]. intros kv' (l' & m' & Ht' & Hk') Hu'. destruct (target_table _ _ Ht') as (? & _ & ?). by apply (Hall l' m').
    + left. exists (lvl + 1), m'. split_and!; [lia..| |done]. apply (rp_tables Hr); [lia|by left].
    + right. split; [by apply survives_false|]. intros l' m' kv'. by apply dropped_none.
  - assert (Hs : stays l m) by (split; [done|unfold target; tauto]).
    left. exists l, m. split_and!; [lia..| |by rewrite (rp_stays Hr)]. apply (rp_tables Hr); [done|by right].
Qed.

(** What the version answered, the new one answers. *)
Lemma replaced_answer u r : right_answer v kvs [] u r -> right_answer v' kvs' [] u r.
Proof.
  intros [(kv & Hn & ->)|[Hnone ->]].
  2: { right. split; [|done]. intros l m kv Hl Hm Hkv.
       destruct (replaced_old_entry l m kv Hl Hm Hkv) as (l0 & m0 & ? & ? & ?). by apply (Hnone l0 m0). }
  pose proof Hn as (_ & Hu & Hall). subst u. destruct (replaced_newest kv Hn) as [Hex|[-> Hnone]]; [left|by right].
  exists kv. split; [|done]. split_and!; [done|done|]. intros l2 m2 kv2 Hl2 Hm2 Hkv2.
  destruct (replaced_old_entry l2 m2 kv2 Hl2 Hm2 Hkv2) as (l0 & m0 & ? & ? & ?). by apply (Hall l0 m0).
Qed.
End Replace.

(** ** Installing the edit *)

Section Install.
Context `{UserComparator}.
Context (v : TropoVersion) (kvs : Z -> SSZoneMetaData -> list KV) (c : TropoCompaction).
Context (e : TropoVersionEdit) (news : list SSZoneMetaData).
Abbreviation lvl := (c_first_level c).

(** The edit removes the targets and adds the new tables to the next level. *)
Record edit_moves : Prop := {
  em_levels : edit_levels_ok e;
  em_new : ve_new_ss e = pair (lvl + 1) <$> news;
  em_deleted : forall l n, (l, n) ∈ ve_deleted_ss e <-> exists m, target c l m /\ m_number m = n
}.

(** The numbers of the tables, old and new. *)
Record numbers_ok : Prop := {
  nu_levels : forall l, 0 <= l < level_count -> NoDup (m_number <$> level_tables (v_ss v) l);
  nu_new : NoDup (m_number <$> news);
  nu_fresh : forall l m n, 0 <= l < level_count -> m ∈ level_tables (v_ss v) l -> n ∈ news -> m_number m <> m_number n
}.

Context (Hv : version_ok v kvs) (Hin : inputs_ok v c) (Hlvl : 0 <= lvl < level_count - 1).
Context (He : edit_moves) (Hnum : numbers_ok).

Lemma at_level_pair (l l' : Z) (ms : list SSZoneMetaData) :
  0 <= l -> map snd (at_level fst (Z.to_nat l) (pair l' <$> ms)) = if decide (l = l') then ms else [].
Proof.
  intros Hl. unfold at_level. rewrite Z2Nat.id by done. induction ms as [|m ms IH]; [by case_decide|].
  cbn [fmap list_fmap]. rewrite filter_cons. cbn [fst]. destruct (decide (l' = l)) as [->|Hne].
  - rewrite decide_True in IH |- * by done. cbn. by rewrite IH.
  - rewrite decide_False in IH |- * by congruence. done.
Qed.

Lemma moved_numbers l : 0 <= l -> new_numbers e l = if decide (l = lvl + 1) then m_number <$> news else [].
Proof. intros Hl. unfold new_numbers. rewrite (em_new He), at_level_pair by done. by case_decide. Qed.

Lemma moved_numbers_NoDup l : 0 <= l -> NoDup (new_numbers e l).
Proof. intros Hl. rewrite moved_numbers by done. case_decide; [apply Hnum|constructor]. Qed.

Lemma moved_numbers_fresh l m : 0 <= l < level_count -> m ∈ level_tables (v_ss v) l -> m_number m ∉ new_numbers e l.
Proof.
  intros Hl Hm. rewrite moved_numbers by lia. case_decide; [|apply not_elem_of_nil].
  intros (n & E & Hn)%list_elem_of_fmap. by apply (nu_fresh Hnum l m n).
Qed.

Lemma installed_tables l m :
  0 <= l < level_count ->
  m ∈ merged (edit_level e (Z.to_nat l)) (level_tables (v_ss v) l) <-> (l = lvl + 1 /\ m ∈ news) \/ stays v c l m.
Proof.
  intros Hl. rewrite merged_elem by (lia || by apply moved_numbers_NoDup; lia).
  assert (E : (l, m) ∈ ve_new_ss e <-> l = lvl + 1 /\ m ∈ news).
  { rewrite (em_new He), list_elem_of_fmap. naive_solver. }
  rewrite E. apply or_iff_compat_l. unfold stays. split; intros [Hm Hd]; (split; [done|]).
  - intros Ht. apply (moved_numbers_fresh l m Hl Hm), Hd, (em_deleted He). by exists m.
  - intros (t & Ht & Et)%(em_deleted He). exfalso. apply Hd.
    assert (t = m) as <-; [|done]. eapply (NoDup_fmap_inj_on m_number); [by apply (nu_levels Hnum l)| |done|done].
    by eapply target_table.
Qed.

Lemma installed_numbers l :
  0 <= l < level_count -> NoDup (m_number <$> merged (edit_level e (Z.to_nat l)) (level_tables (v_ss v) l)).
Proof.
  intros Hl. rewrite merged_perm, fmap_app. apply NoDup_app. split_and!.
  - eapply sublist_NoDup; [by apply (nu_levels Hnum l)|]. apply fmap_sublist, sublist_filter.
  - intros n (m & -> & [_ Hm]%list_elem_of_filter)%list_elem_of_fmap (m' & Em & [_ Hm']%list_elem_of_filter)%list_elem_of_fmap.
    apply (moved_numbers_fresh l m Hl Hm). rewrite Em. apply list_elem_of_fmap_2.
    by rewrite <-new_tables_perm by (apply moved_numbers_NoDup; lia).
  - eapply sublist_NoDup; [|apply fmap_sublist, sublist_filter]. rewrite new_tables_perm by (apply moved_numbers_NoDup; lia).
    apply moved_numbers_NoDup. lia.
Qed.

Context (Hsorted : StronglySorted before news).
Context (Hkeys : forall n, n ∈ news -> cle InternalCompare (m_smallest n) (m_largest n) /\
  exists a b, input kvs c a /\ input kvs c b /\ m_smallest n = fst a /\ m_largest n = fst b).

Lemma sorted_apart ss a b :
  StronglySorted before ss -> a ∈ ss -> b ∈ ss -> a <> b -> before a b \/ before b a.
Proof.
  intros Hs [i Hi]%list_elem_of_lookup [j Hj]%list_elem_of_lookup Hne.
  destruct (Nat.lt_total i j) as [Hlt|[->|Hlt]]; [left|congruence|right]; by eapply StronglySorted_lookup.
Qed.

(** The bounds of the inputs. *)
Lemma input_bounds kv : input kvs c kv -> exists t, t ∈ c_targets0 c ++ c_targets1 c /\
  cle InternalCompare (m_smallest t) (fst kv) /\ cle InternalCompare (fst kv) (m_largest t).
Proof.
  intros (l & t & Ht & Hkv). destruct (target_table v c Hin Hlvl l t Ht) as (Hl & _ & Hm). exists t. split.
  - apply elem_of_app. destruct Ht as [[_ ?]|[_ ?]]; tauto.
  - by apply (table_bounds t (kvs l t)), Hkv; apply (vo_tables _ _ Hv).
Qed.

Lemma news_apart m n : stays v c (lvl + 1) m -> n ∈ news -> before m n \/ before n m.
Proof.
  intros [Hm Hnt] Hn. destruct (Hkeys n Hn) as (_ & a & b & Ha & Hb & Ea & Eb). unfold before. rewrite Ea, Eb.
  assert (Hnt1 : m ∉ c_targets1 c) by (intros Ht; apply Hnt; by right).
  destruct (io_next _ _ Hin m Hm Hnt1) as [Hap|Hap].
  - left. destruct (input_bounds a Ha) as (t & Ht & Hs & _). by eapply (clt_le_trans InternalCompare), Hs; apply Hap.
  - right. destruct (input_bounds b Hb) as (t & Ht & _ & Hl). eapply (cle_lt_trans InternalCompare); [exact Hl|].
    by apply before_user, Hap.
Qed.

Lemma installed_no_overlap l :
  1 <= l < level_count -> no_overlap (merged (edit_level e (Z.to_nat l)) (level_tables (v_ss v) l)) = true.
Proof.
  intros Hl. apply no_overlap_apart.
  - apply merged_sorted. pose proof (vo_ln _ _ Hv l Hl) as Hs.
    pose proof (version_wf v kvs l Hv ltac:(lia)) as Hwf. revert Hs Hwf. generalize (level_tables (v_ss v) l).
    induction 1 as [|a ss Hs IH Hf]; intros Hwf; constructor; [apply IH; intros x Hx; apply Hwf; by right|].
    eapply Forall_impl; [exact Hf|]. intros b Hb. apply (clt_le BySmallestKey).
    assert (Hlt : clt InternalCompare (m_smallest a) (m_smallest b)).
    { eapply (cle_lt_trans InternalCompare); [|exact Hb]. apply Hwf. left. }
    unfold clt, BySmallestKey, cmp_lex in *. by rewrite Hlt.
  - apply installed_numbers; lia.
  - intros a [[_ Ha]|[Ha _]]%installed_tables; [by apply Hkeys| |lia]. by apply (version_wf v kvs l Hv ltac:(lia)).
  - intros a b Ha Hb Hne. apply installed_tables in Ha, Hb; [|lia..].
    assert (a <> b) by congruence. destruct Ha as [[-> Ha]|Ha], Hb as [[El Hb]|Hb].
    + by apply (sorted_apart news).
    + destruct (news_apart b a Hb Ha); tauto.
    + subst l. by apply news_apart.
    + apply (sorted_apart (level_tables (v_ss v) l)); [by apply (vo_ln _ _ Hv)|apply Ha|apply Hb|done].
Qed.

(** The edit can be applied, and the result. *)
Lemma installed cp :
  blen cp = level_count -> exists v' cp', apply_edit v cp e = Some (v', cp') /\
    (forall l m, 0 <= l < level_count -> m ∈ level_tables (v_ss v') l <-> (l = lvl + 1 /\ m ∈ news) \/ stays v c l m) /\
    (forall l, 0 <= l < level_count -> NoDup (m_number <$> level_tables (v_ss v') l)) /\
    (forall l, 1 <= l < level_count -> no_overlap (level_tables (v_ss v') l) = true).
Proof.
  intros Hcp. destruct (proj1 (apply_edit_spec v cp e (em_levels He) Hcp) installed_no_overlap) as [[v' cp'] Ha].
  exists v', cp'. split; [done|].
  assert (Hlv : forall l, 0 <= l < level_count ->
    level_tables (v_ss v') l = merged (edit_level e (Z.to_nat l)) (level_tables (v_ss v) l)).
  { intros l Hl. by destruct (apply_edit_level v cp e v' cp' l (em_levels He) Hcp Ha Hl). }
  split_and!.
  - intros l m Hl. rewrite Hlv by done. by apply installed_tables.
  - intros l Hl. rewrite Hlv by done. by apply installed_numbers.
  - intros l Hl. rewrite Hlv by lia. by apply installed_no_overlap.
Qed.
End Install.

(** ** Entries in strict order *)

Section Strict.
Context `{UserComparator}.

(** Two entries with different keys. *)
Definition kv_apart (a b : KV) : Prop := kv_lt a b \/ kv_lt b a.

Lemma shadows_kv_apart k k' a b : shadows k k' \/ shadows k' k -> a ∈ k -> b ∈ k' -> kv_apart a b.
Proof.
  intros Hsh Ha Hb. destruct (decide (ukey a = ukey b)) as [Hu|Hu].
  - destruct Hsh as [Hsh|Hsh]; [left|right]; by apply Hsh.
  - unfold kv_apart, kv_lt, clt. rewrite !InternalCompare_lex. unfold ukey in Hu. rewrite (cmp_opp (cmp := Compare) (ExtractUserKey (fst a))).
    destruct (Compare (ExtractUserKey (fst a)) (ExtractUserKey (fst b))) eqn:E; [by apply Compare_eq in E|by left|by right].
Qed.

Lemma kv_apart_sym a b : kv_apart a b -> kv_apart b a.
Proof. unfold kv_apart. tauto. Qed.

Lemma ForallOrdPairs_perm {A} (R : A -> A -> Prop) l k :
  (forall a b, R a b -> R b a) -> l ≡ₚ k -> ForallOrdPairs R l -> ForallOrdPairs R k.
Proof.
  intros Hsym. induction 1 as [|x l k Hp IH|x y l|l k m _ IH1 _ IH2]; intros Hl; [done| | |by apply IH2, IH1].
  - inversion Hl; subst. constructor; [by rewrite <-Hp|by apply IH].
  - inversion Hl as [|? ? Hy Hl']; subst. inversion Hl' as [|? ? Hx Hl'']; subst. apply Forall_cons in Hy as [Hyx Hy].
    constructor; [constructor; [by apply Hsym|done]|by constructor].
Qed.

Lemma ForallOrdPairs_app {A} (R : A -> A -> Prop) l k :
  ForallOrdPairs R l -> ForallOrdPairs R k -> (forall a b, a ∈ l -> b ∈ k -> R a b) -> ForallOrdPairs R (l ++ k).
Proof.
  induction 1 as [|a l Ha _ IH]; intros Hk Hlk; [done|]. cbn [app]. constructor.
  - apply Forall_app. split; [done|]. apply Forall_forall. intros b Hb. apply Hlk; [left|done].
  - apply IH; [done|]. intros x y Hx Hy. apply Hlk; [by right|done].
Qed.

Lemma sorted_pairs (l : list KV) : StronglySorted kv_lt l -> ForallOrdPairs kv_apart l.
Proof.
  induction 1 as [|a l _ IH Hf]; constructor; [|done]. eapply Forall_impl; [exact Hf|]. intros b Hb. by left.
Qed.

Lemma strictly_sorted (l : list KV) : StronglySorted kv_le l -> ForallOrdPairs kv_apart l -> StronglySorted kv_lt l.
Proof.
  induction 1 as [|a l _ IH Hf]; intros Hp; [constructor|]. inversion Hp as [|? ? Ha Hp']; subst. constructor; [by apply IH|].
  rewrite Forall_forall in *. intros b Hb. destruct (Ha b Hb) as [?|Hlt]; [done|].
  specialize (Hf b Hb). by apply (clt_nle InternalCompare) in Hlt.
Qed.

(** The merge of lists without common keys. *)
Lemma merged_strict ls :
  Forall (StronglySorted kv_lt) ls -> ForallOrdPairs kv_apart (concat ls) -> StronglySorted kv_lt (Iterators.merged ls).
Proof.
  intros Hs Hp. destruct (merged_spec ls Hs) as [Hle Hperm]. apply strictly_sorted; [done|].
  by eapply ForallOrdPairs_perm; [exact kv_apart_sym|symmetry|].
Qed.

(** The first entry of a user key in the list. *)
Lemma lookup_newest l kv :
  StronglySorted kv_lt l -> kv ∈ l -> (forall kv', kv' ∈ l -> ukey kv' = ukey kv -> kv_le kv kv') ->
  table_lookup l (ukey kv) = Some kv.
Proof.
  induction 1 as [|a l _ IH Hf]; intros Hkv Hmin; [by apply not_elem_of_nil in Hkv|]. rewrite table_lookup_cons.
  case_decide as Hu.
  - apply elem_of_cons in Hkv as [->|Hkv]; [done|]. specialize (Hmin a ltac:(left) Hu). rewrite Forall_forall in Hf.
    specialize (Hf kv Hkv). by apply (clt_nle InternalCompare) in Hf.
  - apply elem_of_cons in Hkv as [->|Hkv]; [done|]. apply IH; [done|]. intros kv' Hkv'. apply Hmin. by right.
Qed.

(** The tables of a level, one after the other. *)
Lemma concat_tables_sorted (kvs : SSZoneMetaData -> list KV) ms :
  StronglySorted before ms -> (forall m, m ∈ ms -> table_ok m (kvs m)) -> StronglySorted kv_lt (concat (kvs <$> ms)).
Proof.
  induction 1 as [|m ms _ IH Hf]; intros Hok; [constructor|]. cbn [fmap list_fmap concat].
  apply StronglySorted_app_2; [|apply (Hok m); left|apply IH; intros x Hx; apply Hok; by right].
  intros a b Ha Hb. apply list_elem_of_In, in_concat in Hb as (k & Hk & Hb). apply list_elem_of_In in Hk, Hb.
  apply list_elem_of_fmap in Hk as (m' & -> & Hm'). rewrite Forall_forall in Hf.
  destruct (table_bounds m (kvs m) (Hok m ltac:(left)) a Ha) as [_ H1].
  destruct (table_bounds m' (kvs m') (Hok m' ltac:(by right)) b Hb) as [H2 _].
  eapply (cle_lt_trans InternalCompare); [exact H1|]. eapply (clt_le_trans InternalCompare); [by apply Hf|exact H2].
Qed.
End Strict.

(** ** The edit of a compaction *)

Section Edit.
Context `{UserComparator} {M L0 LN : Type} `{!CircularLog L0} `{!FragmentedLog LN}.
Context (lba_size zone_cap : Z) (fresh : SSZoneMetaData).
Abbreviation VS := (TropoVersionSet M (TropoSSTableManager L0 LN)).
Implicit Types (vs : VS) (c : TropoCompaction) (e : TropoVersionEdit).

(** The compaction in [TropoDBImpl::BackgroundCompactionL0], impl/tropodb_impl_background.cc:289-313,
    and in the same way in [BackgroundCompaction]: the edit and its status. *)
Definition run_compaction (fuel : nat) vs c : option (Status * VS * TropoVersionEdit) :=
  let trivial := IsTrivialMove lba_size c in
  let edit := MarkCompactedTablesAsDead lba_size vs c newEdit in
  if trivial then DoTrivialMove lba_size zone_cap fresh vs c edit
  else DoCompaction lba_size zone_cap fresh fuel vs c edit.

(** What is the same in two edits up to the deleted tables. *)
Definition same_but_deleted e e' : Prop :=
  ve_new_ss e' = ve_new_ss e /\ ve_compact_pointers e' = ve_compact_pointers e.

Lemma remove_all (only_meta : bool) level ms e :
  level_ok level ->
  let e' := fold_left (fun e m => if only_meta then RemoveSSDefinitionOnlyMeta e level m else RemoveSSDefinition e level m) ms e in
  same_but_deleted e e' /\
  (forall l n, (l, n) ∈ ve_deleted_ss e' <-> (l = level /\ n ∈ m_number <$> ms) \/ (l, n) ∈ ve_deleted_ss e) /\
  (Forall (fun lm => level_ok (fst lm)) (ve_deleted_ss_pers e) -> Forall (fun lm => level_ok (fst lm)) (ve_deleted_ss_pers e')).
Proof.
  intros Hl. cbv zeta. revert e. induction ms as [|m ms IH]; intros e; cbn [fold_left fmap list_fmap].
  { split_and!; [done| |done]. intros l n. split; [by right|]. intros [[_ []%not_elem_of_nil]|?]; done. }
  set (e1 := if only_meta then RemoveSSDefinitionOnlyMeta e level m else RemoveSSDefinition e level m).
  destruct (IH e1) as ([E1 E2] & Hd & Hp).
  assert (Hs : same_but_deleted e e1) by (unfold e1; by destruct only_meta).
  assert (Hd1 : ve_deleted_ss e1 = {[ (level, m_number m) ]} ∪ ve_deleted_ss e) by (unfold e1; by destruct only_meta).
  destruct Hs as [E1' E2']. split_and!; [split; congruence| |].
  - intros l n. rewrite Hd, Hd1, elem_of_union, elem_of_singleton, elem_of_cons. naive_solver.
  - intros Hf. apply Hp. unfold e1. destruct only_meta; [done|]. apply Forall_app. split; [done|]. by constructor.
Qed.

Lemma mark_dead_spec vs c i targets e :
  level_ok (i + c_first_level c) ->
  let e' := mark_dead lba_size vs c i targets e in
  same_but_deleted e e' /\
  (forall l n, (l, n) ∈ ve_deleted_ss e' <-> (l = i + c_first_level c /\ n ∈ m_number <$> targets) \/ (l, n) ∈ ve_deleted_ss e) /\
  (Forall (fun lm => level_ok (fst lm)) (ve_deleted_ss_pers e) -> Forall (fun lm => level_ok (fst lm)) (ve_deleted_ss_pers e')).
Proof.
  intros Hl. cbv zeta. unfold mark_dead. destruct (dead_range targets) as [[lba count]|] eqn:Ed.
  2: { destruct targets as [|m targets].
       - split_and!; [done| |done]. intros l n. split; [by right|]. intros [[_ []%not_elem_of_nil]|?]; done.
       - unfold dead_range in Ed. cbn [head mbind option_bind] in Ed. by destruct (fold_left _ _ _). }
  set (b := (i =? 0) && (0 <? c_first_level c) && IsTrivialMove lba_size c).
  pose proof (remove_all b (i + c_first_level c) targets e Hl) as Hr. cbv zeta in Hr.
  by destruct (i + c_first_level c =? 0).
Qed.

Lemma MarkCompactedTablesAsDead_spec vs c :
  0 <= c_first_level c < level_count - 1 ->
  let e := MarkCompactedTablesAsDead lba_size vs c newEdit in
  ve_new_ss e = [] /\ ve_compact_pointers e = [] /\
  (forall l n, (l, n) ∈ ve_deleted_ss e <-> exists m, target c l m /\ m_number m = n) /\
  Forall (fun lm => level_ok (fst lm)) (ve_deleted_ss_pers e).
Proof.
  intros Hl. cbv zeta. unfold MarkCompactedTablesAsDead.
  destruct (mark_dead_spec vs c 0 (c_targets0 c) newEdit) as ([E1 E2] & Hd & Hp); [unfold level_ok; lia|].
  destruct (mark_dead_spec vs c 1 (c_targets1 c) (mark_dead lba_size vs c 0 (c_targets0 c) newEdit))
    as ([E1' E2'] & Hd' & Hp'); [unfold level_ok; lia|].
  split_and!; [by rewrite E1', E1|by rewrite E2', E2| |by apply Hp', Hp].
  intros l n. rewrite Hd', Hd, !list_elem_of_fmap. unfold target. cbn [ve_deleted_ss newEdit]. rewrite elem_of_empty.
  replace (1 + c_first_level c) with (c_first_level c + 1) by lia. replace (0 + c_first_level c) with (c_first_level c) by lia.
  naive_solver.
Qed.

(** The edit with tables added to it. *)
Lemma compaction_edit vs c e news :
  0 <= c_first_level c < level_count - 1 ->
  e = set_new_ss (MarkCompactedTablesAsDead lba_size vs c newEdit) (pair (c_first_level c + 1) <$> news) ->
  edit_moves c e news.
Proof.
  intros Hl ->. destruct (MarkCompactedTablesAsDead_spec vs c Hl) as (_ & Hcp & Hd & Hp).
  constructor; [|done|exact Hd]. split_and!; cbn [ve_compact_pointers ve_deleted_ss ve_deleted_ss_pers ve_new_ss set_new_ss].
  - by rewrite Hcp.
  - apply Forall_forall. intros [l n] (m & Ht & _)%elem_of_elements%Hd. unfold level_ok. cbn.
    destruct Ht as [[-> _]|[-> _]]; lia.
  - done.
  - apply Forall_fmap, Forall_forall. intros m _. unfold level_ok. cbn. lia.
Qed.

Lemma add_tables_spec level e results :
  add_tables fresh level e results =
  set_new_ss e (ve_new_ss e ++ ((fun r => (level, copy_definition fresh level (fst (fst r)))) <$> omap id results)).
Proof.
  unfold add_tables. generalize (omap id results). intros rs. revert e.
  induction rs as [|r rs IH]; intros e; cbn [fold_left fmap list_fmap].
  - rewrite app_nil_r. by destruct e.
  - rewrite IH. cbn [AddSSDefinition ve_new_ss set_new_ss]. by rewrite <-app_assoc.
Qed.
End Edit.

(** ** From the outcome of a compaction to the new version *)

Section Outcome.
Context `{UserComparator} {L0 LN : Type} `{!CircularLog L0} `{!FragmentedLog LN}.
Context (lba_size zone_cap l0_min l0_max ln_min ln_max : Z).
Context `{!CircularLogLaws L0 lba_size (l0_min * zone_cap) (l0_max * zone_cap)}.
Context `{!FragmentedLogLaws LN (zone_cap * lba_size) ln_min ln_max}.
Abbreviation Manager := (TropoSSTableManager L0 LN).
Implicit Types (mg : Manager).

(** The table is stored with its entries. *)
Definition on_device mg (l : Z) (m : SSZoneMetaData) (kvs : list KV) : Prop :=
  kvs <> [] /\ small_table kvs /\
  exists pad, mg_table lba_size zone_cap l0_min l0_max ln_min ln_max mg l m (table_image kvs ++ pad).

Context (v : TropoVersion) (kvs : Z -> SSZoneMetaData -> list KV) (c : TropoCompaction) (min_seq first_number : Z).
Abbreviation lvl := (c_first_level c).

(** A compaction that the index allows: the tables of the version have distinct
    numbers below the next one. *)
Record allowed : Prop := {
  al_version : version_ok v kvs;
  al_inputs : inputs_ok v c;
  al_leaves : leaves_newer kvs v c;
  al_level : 0 <= lvl < level_count - 1;
  al_numbers : forall l, 0 <= l < level_count -> NoDup (m_number <$> level_tables (v_ss v) l);
  al_below : forall l m, 0 <= l < level_count -> m ∈ level_tables (v_ss v) l -> m_number m < first_number;
  al_first : 0 <= first_number
}.

(** The compaction has made the tables [news] with the entries [tables]. *)
Record outcome mg (e : TropoVersionEdit) (news : list SSZoneMetaData) (tables : list (list KV)) : Prop := {
  oc_moves : edit_moves c e news;
  oc_numbers : m_number <$> news = seqZ first_number (blen news);
  oc_tables : Forall2 (fun m t => table_ok m t /\ on_device mg (lvl + 1) m t) news tables;
  oc_sorted : StronglySorted kv_lt (concat tables);
  oc_inputs : forall kv, kv ∈ concat tables -> input kvs c kv;
  oc_kept : forall kv, newest_input kvs c kv ->
    kv ∈ concat tables \/ (survives lvl min_seq v kv = false /\ forall kv', kv' ∈ concat tables -> ukey kv' <> ukey kv);
  oc_old : forall l m, 0 <= l < level_count -> stays v c l m -> on_device mg l m (kvs l m)
}.

(** The entries of the tables of the new version. *)
Definition new_kvs (tables : list (list KV)) (l : Z) (m : SSZoneMetaData) : list KV :=
  if (l =? lvl + 1) && (first_number <=? m_number m) then default [] (tables !! Z.to_nat (m_number m - first_number))
  else kvs l m.

Context (Hal : allowed).
Context (mg : Manager) (e : TropoVersionEdit) (news : list SSZoneMetaData) (tables : list (list KV)).
Context (Hoc : outcome mg e news tables).

Lemma news_lookup i m t :
  news !! i = Some m -> tables !! i = Some t -> new_kvs tables (lvl + 1) m = t.
Proof.
  intros Hm Ht. unfold new_kvs. rewrite Z.eqb_refl.
  assert (En : m_number m = first_number + Z.of_nat i).
  { assert (Hl : (m_number <$> news) !! i = Some (m_number m)) by (by rewrite list_lookup_fmap, Hm).
    rewrite (oc_numbers _ _ _ _ Hoc) in Hl. by apply lookup_seqZ in Hl as [-> _]. }
  rewrite (proj2 (Z.leb_le _ _)) by lia. cbn [andb]. replace (Z.to_nat (m_number m - first_number)) with i by lia. by rewrite Ht.
Qed.

Lemma news_elem m : m ∈ news -> exists t, t ∈ tables /\ new_kvs tables (lvl + 1) m = t /\ table_ok m t /\ on_device mg (lvl + 1) m t.
Proof.
  intros [i Hi]%list_elem_of_lookup. destruct (Forall2_lookup_l _ _ _ _ _ (oc_tables _ _ _ _ Hoc) Hi) as (t & Ht & Hok & Hd).
  exists t. split_and!; [by eapply list_elem_of_lookup_2|by eapply news_lookup|done|done].
Qed.

Lemma tables_elem kv : kv ∈ concat tables -> exists m, m ∈ news /\ kv ∈ new_kvs tables (lvl + 1) m.
Proof.
  intros Hkv. apply list_elem_of_In, in_concat in Hkv as (t & Ht & Hkv). apply list_elem_of_In in Ht, Hkv.
  apply list_elem_of_lookup in Ht as [i Hi]. destruct (Forall2_lookup_r _ _ _ _ _ (oc_tables _ _ _ _ Hoc) Hi) as (m & Hm & _).
  exists m. split; [by eapply list_elem_of_lookup_2|]. by rewrite (news_lookup i m t).
Qed.

Lemma concat_elem (kv : KV) t : t ∈ tables -> kv ∈ t -> kv ∈ concat tables.
Proof. intros Ht Hkv. apply list_elem_of_In, in_concat. exists t. split; by apply list_elem_of_In. Qed.

Lemma outcome_numbers : numbers_ok v news.
Proof.
  constructor.
  - by apply Hal.
  - rewrite (oc_numbers _ _ _ _ Hoc). apply NoDup_seqZ.
  - intros l m n Hl Hm Hn. pose proof (al_below Hal l m Hl Hm).
    assert (Hs : m_number n ∈ seqZ first_number (blen news)).
    { rewrite <-(oc_numbers _ _ _ _ Hoc). by apply list_elem_of_fmap_2. }
    apply elem_of_seqZ in Hs. lia.
Qed.

Lemma news_sorted : StronglySorted before news.
Proof.
  pose proof (oc_tables _ _ _ _ Hoc) as Ht. pose proof (oc_sorted _ _ _ _ Hoc) as Hs. clear Hoc.
  induction Ht as [|m t news' tables' [Hok _] Ht IH]; [constructor|]. cbn [concat] in Hs. constructor.
  - apply IH. by apply StronglySorted_app_1_r in Hs.
  - apply Forall_forall. intros m' [i Hi]%list_elem_of_lookup.
    destruct (Forall2_lookup_l _ _ _ _ _ Ht Hi) as (t' & Ht' & Hok' & _). unfold before.
    pose proof (to_last _ _ Hok) as El. destruct (last t) as [a|] eqn:Ea; [|done]. injection El as <-.
    pose proof (to_first _ _ Hok') as Ef. destruct (head t') as [b|] eqn:Eb; [|done]. injection Ef as <-.
    apply (StronglySorted_app_1_elem_of _ _ _ a b Hs).
    + apply last_Some in Ea as [k ->]. apply elem_of_app. right. left.
    + apply head_Some_elem_of in Eb. apply list_elem_of_In, in_concat. exists t'. split; apply list_elem_of_In; [|done].
      by eapply list_elem_of_lookup_2.
Qed.

Lemma news_keys n : n ∈ news -> cle InternalCompare (m_smallest n) (m_largest n) /\
  exists a b, input kvs c a /\ input kvs c b /\ m_smallest n = fst a /\ m_largest n = fst b.
Proof.
  intros Hn. destruct (news_elem n Hn) as (t & Ht & _ & Hok & _). split; [by eapply table_ok_range|].
  pose proof (to_last _ _ Hok) as El. destruct (last t) as [b|] eqn:Eb; [|done]. injection El as <-.
  pose proof (to_first _ _ Hok) as Ef. destruct (head t) as [a|] eqn:Ea; [|done]. injection Ef as <-.
  exists a, b. split_and!; [| |done|done]; apply (oc_inputs _ _ _ _ Hoc), (concat_elem _ t); try done.
  - by apply head_Some_elem_of.
  - apply last_Some in Eb as [k ->]. apply elem_of_app. right. left.
Qed.

Lemma stays_kvs l m : 0 <= l < level_count -> stays v c l m -> new_kvs tables l m = kvs l m.
Proof.
  intros Hl [Hm _]. unfold new_kvs. pose proof (al_below Hal l m Hl Hm). rewrite (proj2 (Z.leb_gt _ _)) by lia.
  by rewrite andb_false_r.
Qed.

Lemma outcome_replaces v' :
  (forall l m, 0 <= l < level_count -> m ∈ level_tables (v_ss v') l <-> (l = lvl + 1 /\ m ∈ news) \/ stays v c l m) ->
  replaces v v' kvs (new_kvs tables) c min_seq (fun m => m ∈ news).
Proof.
  intros Hlv. constructor.
  - exact Hlv.
  - intros l m Hl. by apply stays_kvs.
  - intros m Hm. by destruct (news_elem m Hm) as (t & _ & -> & ? & _).
  - intros m kv Hm Hkv. destruct (news_elem m Hm) as (t & Ht & E & _). rewrite E in Hkv.
    by apply (oc_inputs _ _ _ _ Hoc), (concat_elem _ t).
  - intros kv Hkv. destruct (oc_kept _ _ _ _ Hoc kv Hkv) as [Hk|[Hsv Hnone]]; [left; by apply tables_elem|right].
    split; [done|]. intros m kv' Hm Hkv'. destruct (news_elem m Hm) as (t & Ht & E & _). rewrite E in Hkv'.
    by apply Hnone, (concat_elem _ t).
Qed.

(** The new version is well formed, its tables are stored, and it answers as the
    old one. *)
Lemma outcome_safe cp :
  blen cp = level_count ->
  exists v' cp', apply_edit v cp e = Some (v', cp') /\ version_ok v' (new_kvs tables) /\
    (forall l m, 0 <= l < level_count -> m ∈ level_tables (v_ss v') l -> on_device mg l m (new_kvs tables l m)) /\
    forall u r, right_answer v kvs [] u r -> right_answer v' (new_kvs tables) [] u r.
Proof.
  intros Hcp. destruct Hal as [Hv Hin Hleave Hlvl _ _ _].
  destruct (installed v kvs c e news Hv Hin Hlvl (oc_moves _ _ _ _ Hoc) outcome_numbers news_sorted news_keys cp Hcp)
    as (v' & cp' & Ha & Hlv & Hnd & Hno).
  pose proof (outcome_replaces v' Hlv) as Hr. exists v', cp'. split_and!; [done| | |].
  - eapply replaced_version_ok; try done. by apply Hnd.
  - intros l m Hl Hm. apply Hlv in Hm as [[-> Hm]|Hm]; [|rewrite stays_kvs by done; by apply (oc_old _ _ _ _ Hoc)|done].
    by destruct (news_elem m Hm) as (t & _ & -> & _ & ?).
  - intros u r. by eapply replaced_answer.
Qed.
End Outcome.

(** ** The inputs of a compaction in the index *)

Section Inputs.
Context `{UserComparator}.
Context (v : TropoVersion) (kvs : Z -> SSZoneMetaData -> list KV) (c : TropoCompaction) (first_number : Z).
Context (Hal : allowed v kvs c first_number).
Context (Hdistinct : NoDup (m_number <$> c_targets0 c)).
Context (Horder0 : 0 < c_first_level c -> StronglySorted before (c_targets0 c)) (Horder1 : StronglySorted before (c_targets1 c)).
Abbreviation lvl := (c_first_level c).

Definition entries0 : list (list KV) := kvs lvl <$> c_targets0 c.
Definition entries1 : list (list KV) := kvs (lvl + 1) <$> c_targets1 c.

Lemma inputs_concat : concat (inputs c entries0 entries1) = concat entries0 ++ concat entries1.
Proof.
  unfold inputs. rewrite concat_app. cbn [concat]. rewrite app_nil_r. f_equal. destruct (lvl =? 0); [done|].
  cbn. by rewrite app_nil_r.
Qed.

Lemma concat_fmap_elem (f : SSZoneMetaData -> list KV) ms kv : kv ∈ concat (f <$> ms) <-> exists m, m ∈ ms /\ kv ∈ f m.
Proof.
  rewrite list_elem_of_In, in_concat. split.
  - intros (k & Hk & Hkv). apply list_elem_of_In in Hk, Hkv. apply list_elem_of_fmap in Hk as (m & -> & Hm). by exists m.
  - intros (m & Hm & Hkv). exists (f m). split; apply list_elem_of_In; [by apply list_elem_of_fmap_2|done].
Qed.

Lemma inputs_elem kv : kv ∈ concat (inputs c entries0 entries1) <-> input kvs c kv.
Proof.
  rewrite inputs_concat, elem_of_app. unfold entries0, entries1. rewrite !concat_fmap_elem. unfold input, target.
  naive_solver.
Qed.

Lemma target_ok l m : target c l m -> table_ok m (kvs l m).
Proof.
  intros Ht. destruct (target_table v c (al_inputs _ _ _ _ Hal) (al_level _ _ _ _ Hal) l m Ht) as (Hl & _ & Hm).
  by apply (vo_tables _ _ (al_version _ _ _ _ Hal)).
Qed.

Lemma inputs_sorted : Forall (StronglySorted kv_lt) (inputs c entries0 entries1).
Proof.
  apply Forall_app. split; [|constructor; [|constructor]].
  - destruct (Z.eqb_spec lvl 0) as [E|Hne].
    + unfold entries0. apply Forall_fmap, Forall_forall. intros m Hm. cbn. apply (target_ok lvl m). by left.
    + pose proof (al_level _ _ _ _ Hal). constructor; [|constructor]. apply concat_tables_sorted; [apply Horder0; lia|].
      intros m Hm. apply target_ok. by left.
  - apply concat_tables_sorted; [done|]. intros m Hm. apply target_ok. by right.
Qed.

(** Two tables of level 0: one is newer. *)
Lemma newer_total a b : m_number a <> m_number b -> newer a b \/ newer b a.
Proof.
  intros Hne. unfold newer, clt, recency_cmp, cmp_lex.
  destruct (Z.compare_spec (m_L0_number b) (m_L0_number a)); [|by left|].
  - rewrite (proj2 (Z.compare_eq_iff (m_L0_number a) _)) by done. destruct (Z.compare_spec (m_number b) (m_number a)); [done|by left|].
    right. by apply Z.compare_lt_iff.
  - right. by rewrite (proj2 (Z.compare_lt_iff _ _)).
Qed.

Lemma level0_pairs ms :
  lvl = 0 -> ms ⊆ c_targets0 c -> NoDup (m_number <$> ms) -> ForallOrdPairs kv_apart (concat (kvs lvl <$> ms)).
Proof.
  intros E. induction ms as [|m ms IH]; intros Hsub Hnd; [constructor|]. cbn [fmap list_fmap concat] in *.
  apply NoDup_cons in Hnd as [Hm Hnd]. apply ForallOrdPairs_app.
  - apply sorted_pairs, (target_ok lvl m). left. split; [done|]. apply Hsub. left.
  - apply IH; [set_solver|done].
  - intros a b Ha (m' & Hm' & Hb)%concat_fmap_elem.
    assert (H0 : forall x, x ∈ m :: ms -> x ∈ level_tables (v_ss v) 0).
    { intros x Hx. rewrite <-E. by apply (io_targets0 _ _ (al_inputs _ _ _ _ Hal)), Hsub. }
    pose proof (H0 m ltac:(left)) as Hm0. pose proof (H0 m' ltac:(by right)) as Hm0'. rewrite E in *.
    eapply shadows_kv_apart; [|exact Ha|exact Hb]. destruct (newer_total m m') as [Hn|Hn].
    + intros En. apply Hm. rewrite En. by apply list_elem_of_fmap_2.
    + left. by apply (vo_l0 _ _ (al_version _ _ _ _ Hal)).
    + right. by apply (vo_l0 _ _ (al_version _ _ _ _ Hal)).
Qed.

Lemma inputs_pairs : ForallOrdPairs kv_apart (concat (inputs c entries0 entries1)).
Proof.
  rewrite inputs_concat. pose proof (al_level _ _ _ _ Hal) as Hl. apply ForallOrdPairs_app.
  - destruct (decide (lvl = 0)) as [E|Hne]; [by apply level0_pairs|].
    apply sorted_pairs, concat_tables_sorted; [apply Horder0; lia|]. intros m Hm. apply target_ok. by left.
  - apply sorted_pairs, concat_tables_sorted; [done|]. intros m Hm. apply target_ok. by right.
  - intros a b (m & Hm & Ha)%concat_fmap_elem (m' & Hm' & Hb)%concat_fmap_elem.
    eapply shadows_kv_apart; [left|exact Ha|exact Hb].
    apply (vo_levels _ _ (al_version _ _ _ _ Hal)); [lia|lia|by apply (io_targets0 _ _ (al_inputs _ _ _ _ Hal))|].
    by apply (io_targets1 _ _ (al_inputs _ _ _ _ Hal)).
Qed.

Lemma inputs_parse : Forall (fun kv => is_Some (ParseInternalKey (fst kv))) (concat (inputs c entries0 entries1)).
Proof.
  apply Forall_forall. intros kv (l & m & Ht & Hkv)%inputs_elem. pose proof (to_keys _ _ (target_ok l m Ht)) as Hk.
  rewrite Forall_forall in Hk. by apply not_eq_None_Some, Hk.
Qed.

(** The newest input of a user key is the entry that the merge has first. *)
Lemma newest_input_lookup kv :
  newest_input kvs c kv -> table_lookup (Iterators.merged (inputs c entries0 entries1)) (ukey kv) = Some kv.
Proof.
  intros [Hi Hmin]. destruct (merged_spec _ inputs_sorted) as [_ Hperm]. apply lookup_newest.
  - apply merged_strict; [exact inputs_sorted|exact inputs_pairs].
  - rewrite Hperm. by apply inputs_elem.
  - intros kv' Hkv'. rewrite Hperm in Hkv'. by apply Hmin, inputs_elem.
Qed.
End Inputs.

(** ** Running a compaction *)

Section Run.
Context `{UserComparator} {M L0 LN : Type} `{!CircularLog L0} `{!FragmentedLog LN}.
Context (lba_size zone_cap l0_min l0_max ln_min ln_max : Z).
Context `{!CircularLogLaws L0 lba_size (l0_min * zone_cap) (l0_max * zone_cap)}.
Context `{!FragmentedLogLaws LN (zone_cap * lba_size) ln_min ln_max}.
Context (HL : 0 < lba_size) (Hzc : 0 < zone_cap) (Hl0 : 0 <= l0_min <= l0_max) (Hln : 0 <= ln_min <= ln_max).
Context (Hbig0 : l0_max * zone_cap * lba_size < 2 ^ 60) (Hbig : ln_max * zone_cap * lba_size < 2 ^ 60).
Context (fresh : SSZoneMetaData) (H8 : length (m_LN_lbas fresh) = 8%nat) (H8' : length (m_LN_lba_region_sizes fresh) = 8%nat).

Abbreviation Manager := (TropoSSTableManager L0 LN).
Abbreviation VS := (TropoVersionSet M Manager).
Implicit Types (vs : VS) (c : TropoCompaction) (mg : Manager).
Abbreviation wf := (mg_wf l0_min l0_max ln_min ln_max).
Abbreviation store := (ln_store lba_size zone_cap ln_min ln_max).
Abbreviation device := (on_device lba_size zone_cap l0_min l0_max ln_min ln_max).
Abbreviation stored := (SSZoneMetaData * regions * bytes)%type.

(** The table is one of those in the log; its metadata records the regions of that one,
    which may have been written for the table that it was moved from. *)
Definition in_store (sts : list stored) (m : SSZoneMetaData) (t : list KV) : Prop :=
  t <> [] /\ small_table t /\ exists m0 ptrs pad, (m0, ptrs, table_image t ++ pad) ∈ sts /\ records zone_cap m ptrs.

Lemma in_store_mono sts sts' m t : sts ⊆ sts' -> in_store sts m t -> in_store sts' m t.
Proof. intros Hs (Hne & Hsm & m0 & ptrs & pad & Hin & Hr). split_and!; [done|done|]. exists m0, ptrs, pad. by auto. Qed.

(** The state before the compaction: the tables of the current version are
    stored, and the entries of the inputs fit into tables. *)
Record ready vs c (kvs : Z -> SSZoneMetaData -> list KV) (sts : list stored) : Prop := {
  rd_allowed : allowed (current vs) kvs c (vs_ss_number vs);
  rd_targets : c_targets0 c <> [];
  rd_distinct0 : NoDup (m_number <$> c_targets0 c);
  rd_distinct1 : NoDup (m_number <$> c_targets1 c);
  rd_order0 : 0 < c_first_level c -> StronglySorted before (c_targets0 c);
  rd_order1 : StronglySorted before (c_targets1 c);
  rd_wf : wf (vs_ss_manager vs);
  rd_store : store (mg_ln (vs_ss_manager vs)) sts;
  rd_metas : forall l m, 0 <= l < level_count -> m ∈ level_tables (v_ss (current vs)) l -> meta_ok m;
  rd_stored0 : forall m, m ∈ level_tables (v_ss (current vs)) 0 -> device (vs_ss_manager vs) 0 m (kvs 0 m);
  rd_stored : forall l m, 1 <= l < level_count -> m ∈ level_tables (v_ss (current vs)) l -> in_store sts m (kvs l m);
  rd_fits : forall kv, input kvs c kv -> fits lba_size c kv;
  rd_limit : 0 < c_max_lba_count c /\ c_max_lba_count c * lba_size < 2 ^ 32;
  rd_ptrs : c_level_ptrs c = replicate (Z.to_nat level_count) 0%nat;
  rd_sequence : vs_last_sequence vs < kMaxSequenceNumber;
  rd_number : vs_ss_number vs + blen (concat (inputs c (entries0 kvs c) (entries1 kvs c))) < 2 ^ 64
}.

Lemma in_store_at log sts m t :
  store log sts -> in_store sts m t -> exists ptrs pad, ln_table_at lba_size zone_cap ln_min ln_max log m ptrs (table_image t ++ pad).
Proof.
  intros [Ht _] (_ & _ & m0 & ptrs & pad & Hin & Hr). rewrite Forall_forall in Ht. destruct (Ht _ Hin) as [Hh _].
  by exists ptrs, pad.
Qed.

Lemma store_device mg sts l m t : 1 <= l -> store (mg_ln mg) sts -> in_store sts m t -> device mg l m t.
Proof.
  intros Hl Hst Hin. destruct (in_store_at _ _ _ _ Hst Hin) as (ptrs & pad & Hat). destruct Hin as (Hne & Hsm & _).
  split_and!; [done|done|]. exists pad. unfold mg_table. rewrite (proj2 (Z.eqb_neq _ _)) by lia. by exists ptrs.
Qed.

Lemma ready_device vs c kvs sts l m :
  ready vs c kvs sts -> 0 <= l < level_count -> m ∈ level_tables (v_ss (current vs)) l -> device (vs_ss_manager vs) l m (kvs l m).
Proof.
  intros Hrd Hl Hm. destruct (decide (l = 0)) as [->|Hne]; [by apply Hrd|].
  eapply store_device; [lia|apply Hrd|]. apply Hrd; [lia|done].
Qed.

(** The tables that stay are stored afterwards when level 0 of the storage is
    the same and the log has kept its tables. *)
Lemma old_device vs c kvs sts sts' mg' l m :
  ready vs c kvs sts -> mg_l0 mg' = mg_l0 (vs_ss_manager vs) -> store (mg_ln mg') (sts' ++ sts) ->
  0 <= l < level_count -> m ∈ level_tables (v_ss (current vs)) l -> device mg' l m (kvs l m).
Proof.
  intros Hrd E0 Hst Hl Hm. destruct (decide (l = 0)) as [->|Hne].
  - destruct (rd_stored0 _ _ _ _ Hrd m Hm) as (? & ? & pad & Ht). split_and!; [done|done|]. exists pad.
    unfold mg_table in *. cbn [Z.eqb] in *. by rewrite E0.
  - eapply store_device; [lia|exact Hst|]. eapply in_store_mono; [|by apply (rd_stored _ _ _ _ Hrd); [lia|]].
    intros x Hx. apply elem_of_app. by right.
Qed.

Lemma ready_compactable vs c kvs sts :
  ready vs c kvs sts -> compactable lba_size zone_cap l0_min l0_max ln_min ln_max vs c (entries0 kvs c) (entries1 kvs c).
Proof.
  intros Hrd. pose proof (rd_allowed _ _ _ _ Hrd) as Hal. pose proof (al_level _ _ _ _ Hal) as Hl.
  assert (Hst : forall l ms, 0 <= l < level_count -> ms ⊆ level_tables (v_ss (current vs)) l ->
    Forall2 (stored_table lba_size zone_cap l0_min l0_max ln_min ln_max (vs_ss_manager vs) l) ms (kvs l <$> ms)).
  { intros l ms Hl' Hsub. induction ms as [|m ms IH]; constructor; [|apply IH; set_solver].
    assert (Hm : m ∈ level_tables (v_ss (current vs)) l) by (apply Hsub; left).
    split; [by eapply rd_metas|]. by eapply ready_device. }
  constructor; [apply Hrd|done|apply Hrd|apply Hrd| | | | | |apply Hrd|].
  - apply Hst; [lia|apply Hal].
  - apply Hst; [lia|apply Hal].
  - eapply inputs_sorted; [exact Hal|apply Hrd|apply Hrd].
  - destruct (c_targets0 c) as [|m ms] eqn:Et; [by apply (rd_targets _ _ _ _ Hrd) in Et|]. intros E.
    assert (Hm : target c (c_first_level c) m) by (left; split; [done|rewrite Et; left]).
    pose proof (to_first _ _ (target_ok _ _ _ _ Hal _ _ Hm)) as Hf. destruct (head (kvs (c_first_level c) m)) as [kv|] eqn:Eh; [|done].
    assert (Hi : input kvs c kv) by (exists (c_first_level c), m; split; [done|by apply head_Some_elem_of]).
    apply inputs_elem in Hi. rewrite E in Hi. by apply not_elem_of_nil in Hi.
  - apply Forall_forall. intros kv Hkv%inputs_elem. by apply Hrd.
  - pose proof (rd_number _ _ _ _ Hrd). pose proof (al_first _ _ _ _ Hal). unfold is_u64.
    pose proof (blen_nonneg (concat (inputs c (entries0 kvs c) (entries1 kvs c)))). lia.
Qed.

(** ** A compaction that merges *)

Lemma copy_definition_store sts l m t : 1 <= l -> in_store sts m t -> in_store sts (copy_definition fresh l m) t.
Proof.
  intros Hl (Hne & Hsm & m0 & ptrs & pad & Hin & Hr). split_and!; [done|done|]. exists m0, ptrs, pad. split; [done|].
  eapply records_copy; [exact Hr|..]; unfold copy_definition; by rewrite (proj2 (Z.eqb_neq _ _)) by lia.
Qed.

Lemma copy_definition_keys l m :
  m_number (copy_definition fresh l m) = m_number m /\ m_smallest (copy_definition fresh l m) = m_smallest m /\
  m_largest (copy_definition fresh l m) = m_largest m.
Proof. unfold copy_definition. by destruct (l =? 0). Qed.

Lemma length_omap_id {A} (rs : list (option A)) : (length (omap id rs) <= length rs)%nat.
Proof.
  induction rs as [|[r|] rs IH]; [done|..].
  - change (omap id (Some r :: rs)) with (r :: omap id rs). cbn. lia.
  - change (omap id (None :: rs)) with (omap id rs). cbn. lia.
Qed.

Lemma all_written {A} (rs : list (option A)) : length (omap id rs) = length rs -> rs = Some <$> omap id rs.
Proof.
  induction rs as [|[r|] rs IH]; intros E; [done|..].
  - change (omap id (Some r :: rs)) with (r :: omap id rs) in *. cbn in E |- *. f_equal. apply IH. lia.
  - change (omap id (None :: rs)) with (omap id rs) in E. cbn in E. pose proof (length_omap_id rs). lia.
Qed.

Lemma table_numbers_seqZ n k : 0 <= n -> n + Z.of_nat k <= 2 ^ 64 -> table_numbers n k = seqZ n (Z.of_nat k).
Proof.
  intros Hn Hk. apply list_eq. intros i. unfold table_numbers. rewrite list_lookup_fmap.
  destruct (decide (Z.of_nat i < Z.of_nat k)) as [Hlt|Hge].
  - rewrite !lookup_seqZ_lt by lia. cbn. rewrite u64_small; [done|]. unfold is_u64. lia.
  - rewrite !lookup_seqZ_ge by lia. done.
Qed.

Lemma length_concat_nonempty {A} (ts : list (list A)) : Forall (fun t => t <> []) ts -> (length ts <= length (concat ts))%nat.
Proof.
  induction 1 as [|t ts Ht _ IH]; [done|]. cbn. rewrite length_app. destruct t; [done|]. cbn. lia.
Qed.

Lemma written_tables ns ts (rs : list stored) :
  Forall3 written ns ts (Some <$> rs) ->
  (fun r => m_number (fst (fst r))) <$> rs = ns /\
  Forall2 (fun r t => snd r = table_image t /\ Some (m_smallest (fst (fst r))) = fst <$> head t /\
    Some (m_largest (fst (fst r))) = fst <$> last t) rs ts.
Proof.
  revert ns ts. induction rs as [|[[m q] d] rs IH]; intros ns ts Hw; inversion Hw; subst; cbn [fmap list_fmap]; [by split|].
  destruct (IH _ _ ltac:(eassumption)) as [<- ?].
  match goal with Hw : written _ _ _ |- _ => destruct Hw as (<- & ? & ? & ?) end. by split; [|constructor].
Qed.

(** The tables of a part of sorted entries. *)
Lemma concat_part_sorted (ts : list (list KV)) t : StronglySorted kv_lt (concat ts) -> t ∈ ts -> StronglySorted kv_lt t.
Proof.
  intros Hs Ht. apply list_elem_of_split in Ht as (l1 & l2 & ->). rewrite concat_app in Hs. cbn in Hs.
  by apply StronglySorted_app_1_r, StronglySorted_app_1_l in Hs.
Qed.

Definition new_metas (l : Z) (rs : list stored) : list SSZoneMetaData :=
  (fun r => copy_definition fresh l (fst (fst r))) <$> rs.

Lemma new_metas_tables vs c kvs sts sts' log rs tables :
  ready vs c kvs sts -> store log (reverse rs ++ sts') ->
  Forall2 (fun r t => snd r = table_image t /\ Some (m_smallest (fst (fst r))) = fst <$> head t /\
    Some (m_largest (fst (fst r))) = fst <$> last t) rs tables ->
  StronglySorted kv_lt (concat tables) -> (forall kv, kv ∈ concat tables -> input kvs c kv) ->
  Forall (fun t => t <> [] /\ small_table t) tables ->
  Forall2 (fun m t => table_ok m t /\ in_store (reverse rs ++ sts') m t) (new_metas (c_first_level c + 1) rs) tables.
Proof.
  intros Hrd Hst Hw Hs Hin Hsmall. pose proof (rd_allowed _ _ _ _ Hrd) as Hal. pose proof (al_level _ _ _ _ Hal) as Hl.
  unfold new_metas. apply Forall2_fmap_l. apply Forall2_same_length_lookup_2; [by eapply Forall2_length|].
  intros i [[m q] d] t Hr Ht. destruct (Forall2_lookup_lr _ _ _ _ _ _ Hw Hr Ht) as (Ed & Es & El). cbn [fst snd] in *.
  pose proof (list_elem_of_lookup_2 _ _ _ Ht) as Htin. rewrite Forall_forall in Hsmall. destruct (Hsmall t Htin) as [Hne Hsm].
  destruct (copy_definition_keys (c_first_level c + 1) m) as (_ & E1 & E2).
  assert (Hmem : (m, q, d) ∈ reverse rs ++ sts').
  { apply elem_of_app. left. apply elem_of_reverse. by eapply list_elem_of_lookup_2. }
  change (table_ok (copy_definition fresh (c_first_level c + 1) m) t /\
    in_store (reverse rs ++ sts') (copy_definition fresh (c_first_level c + 1) m) t). split.
  - constructor; [|by eapply concat_part_sorted|by rewrite E1|by rewrite E2].
    apply Forall_forall. intros kv Hkv. destruct (Hin kv) as (l & m0 & Htg & Hkv0).
    { apply list_elem_of_In, in_concat. exists t. split; by apply list_elem_of_In. }
    pose proof (to_keys _ _ (target_ok _ _ _ _ Hal _ _ Htg)) as Hk. rewrite Forall_forall in Hk. by apply Hk.
  - apply copy_definition_store; [lia|]. split_and!; [done|done|]. exists m, q, []. rewrite app_nil_r, <-Ed.
    split; [done|]. destruct Hst as [Hts _]. rewrite Forall_forall in Hts. by destruct (Hts _ Hmem).
Qed.

(** What a run does to the version set: it takes numbers and writes into the log of the upper levels. *)
Record ran vs vs' (sts : list stored) (news : list SSZoneMetaData) (tables : list (list KV)) : Prop := {
  rn_versions : vs_versions vs' = vs_versions vs;
  rn_index : same_index vs vs';
  rn_wf : wf (vs_ss_manager vs');
  rn_l0 : mg_l0 (vs_ss_manager vs') = mg_l0 (vs_ss_manager vs);
  rn_number : vs_ss_number vs' = vs_ss_number vs + blen tables;
  rn_bound : vs_ss_number vs' < 2 ^ 64;
  rn_store : exists sts', store (mg_ln (vs_ss_manager vs')) sts' /\ sts ⊆ sts' /\ Forall2 (in_store sts') news tables
}.

(** The entries that a merging compaction keeps. *)
Lemma kept_entries vs c kvs sts (k := kept vs c (entries0 kvs c) (entries1 kvs c)) :
  ready vs c kvs sts ->
  StronglySorted kv_lt k /\ (forall kv, kv ∈ k -> input kvs c kv) /\
  forall kv, newest_input kvs c kv ->
    kv ∈ k \/ (survives (c_first_level c) (vs_last_sequence vs) (current vs) kv = false /\ forall kv', kv' ∈ k -> ukey kv' <> ukey kv).
Proof.
  intros Hrd. pose proof Hrd as [Hal _ Hd0 _ Ho0 Ho1 _ _ _ _ _ _ _ Hptrs Hseq _].
  destruct (merged_spec _ (inputs_sorted _ _ _ _ Hal Ho0 Ho1)) as [_ Hperm].
  split_and!.
  - eapply StronglySorted_sublist; [apply keep_sublist|].
    apply merged_strict; [by eapply inputs_sorted|by eapply inputs_pairs].
  - intros kv Hkv. apply inputs_elem. rewrite <-Hperm. eapply elem_of_sublist; [exact Hkv|apply keep_sublist].
  - intros kv Hn. pose proof (newest_input_lookup _ _ _ _ Hal Hd0 Ho0 Ho1 kv Hn) as Hlk.
    assert (Hkl := kept_lookup _ _ _ _ _ _ _ H8 H8' vs c kvs _ _ (ukey kv) (al_version _ _ _ _ Hal)
      (ready_compactable _ _ _ _ Hrd) Hptrs (inputs_parse _ _ _ _ Hal) Hseq).
    fold k in Hkl. rewrite Hlk in Hkl. cbn [mbind option_bind] in Hkl. destruct (survives _ _ _ kv) eqn:Esv.
    + left. unfold table_lookup in Hkl. apply fmap_Some in Hkl as ([i kv0] & Hf & ->).
      apply list_find_Some in Hf as (Hi & _). by eapply list_elem_of_lookup_2.
    + right. split; [done|]. by apply table_lookup_None.
Qed.

Lemma merge_outcome fuel vs c kvs sts vs' e :
  ready vs c kvs sts -> placed zone_cap fresh -> (length (concat (inputs c (entries0 kvs c) (entries1 kvs c))) < fuel)%nat ->
  DoCompaction lba_size zone_cap fresh fuel vs c (MarkCompactedTablesAsDead lba_size vs c newEdit) = Some (OK, vs', e) ->
  vs_ss_number vs' = vs_ss_number vs + blen (ve_new_ss e) ->
  exists news tables, ran vs vs' sts news tables /\
    outcome lba_size zone_cap l0_min l0_max ln_min ln_max (current vs) kvs c (vs_last_sequence vs) (vs_ss_number vs)
      (vs_ss_manager vs') e news tables.
Proof.
  intros Hrd Hp Hfuel Hdo Hnum. pose proof (rd_allowed _ _ _ _ Hrd) as Hal. pose proof (al_level _ _ _ _ Hal) as Hl.
  pose proof (ready_compactable _ _ _ _ Hrd) as Hcp.
  destruct (DoCompaction_result lba_size zone_cap l0_min l0_max ln_min ln_max HL Hzc Hl0 Hln Hbig0 Hbig fresh H8 H8' fuel vs c
    (MarkCompactedTablesAsDead lba_size vs c newEdit) _ _ sts Hcp Hp (rd_store _ _ _ _ Hrd) Hfuel)
    as (vs1 & tables & results & E & Hw & Hst & Hwf & E0 & Ev & En & Hsmall & Hk & Hsame).
  rewrite E in Hdo. injection Hdo as <- <-. rewrite add_tables_spec in Hnum |- *.
  destruct (MarkCompactedTablesAsDead_spec lba_size vs c Hl) as (Em & _). cbv zeta in Em. rewrite Em in *. cbn [app ve_new_ss set_new_ss] in Hnum.
  destruct (kept_entries vs c kvs sts Hrd) as (Hs & Hin & Hkept). rewrite <-Hk in *.
  assert (Hlen : vs_ss_number vs + Z.of_nat (length tables) < 2 ^ 64).
  { pose proof (rd_number _ _ _ _ Hrd) as Hb. destruct (merged_spec _ (cp_sorted _ _ _ _ _ _ _ _ _ _ Hcp)) as [_ Hperm].
    assert (length (concat tables) <= length (concat (inputs c (entries0 kvs c) (entries1 kvs c))))%nat.
    { rewrite <-Hperm, Hk. apply sublist_length, keep_sublist. }
    assert (length tables <= length (concat tables))%nat.
    { apply length_concat_nonempty. eapply Forall_impl; [exact Hsmall|]. by intros t [? _]. }
    unfold blen in Hb. lia. }
  pose proof (al_first _ _ _ _ Hal) as Hf.
  rewrite u64_small in En by (unfold is_u64, blen; lia). rewrite En in Hnum. unfold blen in Hnum. rewrite length_fmap in Hnum.
  assert (Hlr : length tables = length results) by (clear -Hw; induction Hw; cbn; congruence).
  set (rs := omap id results) in *. assert (Hrs : results = Some <$> rs) by (apply all_written; fold rs; lia).
  rewrite Hrs in Hw. apply written_tables in Hw as [Hns Hw].
  pose proof (new_metas_tables _ _ _ _ _ _ _ _ Hrd Hst Hw Hs Hin Hsmall) as Hnew.
  exists (new_metas (c_first_level c + 1) rs), tables. split.
  { constructor; try done; [rewrite En; unfold blen; lia|]. exists (reverse rs ++ sts). split_and!; [done|set_solver|]. by eapply Forall2_impl; [exact Hnew|intros m t [_ ?]]. }
  constructor.
  - eapply compaction_edit; [done|]. unfold new_metas. by rewrite <-list_fmap_compose.
  - unfold new_metas. rewrite <-list_fmap_compose. unfold blen. rewrite length_fmap.
    transitivity ((fun r : stored => m_number (fst (fst r))) <$> rs).
    + apply list_fmap_ext. intros i r _. cbn. apply copy_definition_keys.
    + rewrite Hns, table_numbers_seqZ by lia. f_equal. lia.
  - eapply Forall2_impl; [exact Hnew|]. intros m t [Hok Hi]. split; [done|]. eapply store_device; [lia|exact Hst|done].
  - done.
  - done.
  - done.
  - intros l m Hl' [Hm _]. by eapply old_device.
Qed.

(** ** A compaction that moves a table *)

Lemma meta_copy_records m ptrs : records zone_cap m ptrs -> records zone_cap (meta_copy m) ptrs.
Proof. intros Hr. by eapply records_copy. Qed.

Lemma meta_copy_arrays m : meta_ok m -> length (m_LN_lbas (meta_copy m)) = 8%nat /\ length (m_LN_lba_region_sizes (meta_copy m)) = 8%nat.
Proof.
  intros Hm. pose proof (mo_regions _ Hm). pose proof (proj1 (mo_lbas _ Hm)). pose proof (proj1 (mo_sizes _ Hm)).
  unfold meta_copy. cbn [m_LN_lbas m_LN_lba_region_sizes]. unfold ztake, zdrop.
  rewrite !length_app, !length_take, !length_drop, length_replicate. lia.
Qed.

Lemma CopySSTable_spec vs c kvs sts t mg' meta :
  ready vs c kvs sts -> t ∈ c_targets0 c ->
  CopySSTable lba_size zone_cap (vs_ss_manager vs) (c_first_level c) (c_first_level c + 1) t fresh = Some (OK, mg', meta) ->
  wf mg' /\ mg_l0 mg' = mg_l0 (vs_ss_manager vs) /\ m_smallest meta = m_smallest t /\ m_largest meta = m_largest t /\
  exists sts', store (mg_ln mg') (sts' ++ sts) /\ in_store (sts' ++ sts) meta (kvs (c_first_level c) t).
Proof.
  intros Hrd Ht. pose proof (rd_allowed _ _ _ _ Hrd) as Hal. pose proof (al_level _ _ _ _ Hal) as Hl.
  pose proof (io_targets0 _ _ (al_inputs _ _ _ _ Hal) _ Ht) as Htv.
  pose proof (ready_device vs c kvs sts (c_first_level c) t Hrd ltac:(lia) Htv) as (Hne & Hsm & pad & Hd).
  unfold CopySSTable. destruct (Z.eqb_spec (c_first_level c) 0) as [El|Hn]; cbn [negb].
  - destruct (mg_read lba_size zone_cap l0_min l0_max ln_min ln_max HL Hzc Hl0 Hln Hbig0 Hbig (vs_ss_manager vs) (c_first_level c) t _
      (rd_wf _ _ _ _ Hrd) ltac:(lia) Hd) as (pad' & ->). obind. cbn [ok negb orb].
    assert (Hpos : blen ((table_image (kvs (c_first_level c) t) ++ pad) ++ pad') <> 0).
    { unfold table_image. rewrite !blen_app, !blen_EncodeFixed64. pose_blen. lia. }
    rewrite (proj2 (Z.eqb_neq _ _)) by exact Hpos. unfold write_table.
    replace (c_first_level c + 1) with (table_index 1 t) by (by rewrite El).
    erewrite on_table_ln; [|apply Hrd|done]. intros ([[s1 l1] m1] & Hw & [= -> <- <-])%bind_Some.
    pose proof (ln_write_keys _ _ _ _ _ _ _ _ Hw) as (_ & Es & Elg).
    destruct (meta_copy_arrays t) as [Ha Ha']; [by eapply (rd_metas _ _ _ _ Hrd); [|exact Htv]; lia|].
    eapply ln_store_write in Hw as (ptrs & Hst'); [|exact HL|exact Hzc|exact Hln|exact Hbig|done|done|apply Hrd].
    split_and!; [apply Hrd|done|exact Es|exact Elg|]. exists [(m1, ptrs, (table_image (kvs (c_first_level c) t) ++ pad) ++ pad')].
    split; [done|]. split_and!; [done|done|]. exists m1, ptrs, (pad ++ pad'). rewrite app_assoc. split; [left|].
    pose proof (ls_tables _ _ _ _ _ _ Hst') as Hts. by apply Forall_cons in Hts as [[_ ?] _].
  - intros [= <- <-]. split_and!; [apply Hrd|done|done|done|]. exists []. split; [apply Hrd|].
    destruct (rd_stored _ _ _ _ Hrd (c_first_level c) t ltac:(lia) Htv) as (_ & _ & m0 & ptrs & pad0 & Hin & Hr).
    split_and!; [done|done|]. exists m0, ptrs, pad0. split; [done|]. by apply meta_copy_records.
Qed.

Lemma trivial_targets c : IsTrivialMove lba_size c = true -> exists t, c_targets0 c = [t] /\ c_targets1 c = [].
Proof.
  unfold IsTrivialMove. intros [[H0%Nat.eqb_eq H1%Nat.eqb_eq]%andb_true_iff _]%andb_true_iff.
  destruct (c_targets0 c) as [|t [|]], (c_targets1 c); try done. by exists t.
Qed.

Lemma move_outcome vs c kvs sts vs' e :
  ready vs c kvs sts -> IsTrivialMove lba_size c = true ->
  DoTrivialMove lba_size zone_cap fresh vs c (MarkCompactedTablesAsDead lba_size vs c newEdit) = Some (OK, vs', e) ->
  exists news tables, ran vs vs' sts news tables /\
    outcome lba_size zone_cap l0_min l0_max ln_min ln_max (current vs) kvs c (vs_last_sequence vs) (vs_ss_number vs)
      (vs_ss_manager vs') e news tables.
Proof.
  intros Hrd Htr. destruct (trivial_targets c Htr) as (t & Et & Et1).
  pose proof (rd_allowed _ _ _ _ Hrd) as Hal. pose proof (al_level _ _ _ _ Hal) as Hl.
  assert (Ht : t ∈ c_targets0 c) by (rewrite Et; left). assert (Htg : target c (c_first_level c) t) by (by left).
  pose proof (target_ok _ _ _ _ Hal _ _ Htg) as Hok. unfold DoTrivialMove. rewrite Et. cbn [head]. obind.
  intros ([[s mg'] meta] & Hcopy & E)%bind_Some. destruct (negb (ok s)) eqn:Es; [by injection E as -> <- <-|].
  assert (s = OK) as -> by (by destruct s). injection E as <- <-.
  destruct (CopySSTable_spec _ _ _ _ _ _ _ Hrd Ht Hcopy) as (Hwf & E0 & Esm & Elg & sts' & Hst & Hat).
  destruct (ready_device vs c kvs sts _ t Hrd ltac:(split; [apply Hl|lia]) (io_targets0 _ _ (al_inputs _ _ _ _ Hal) _ Ht)) as (Hne & Hsm & _).
  set (m := copy_definition fresh (c_first_level c + 1) (set_number meta (vs_ss_number vs))).
  assert (Hinput : forall kv, kv ∈ kvs (c_first_level c) t <-> input kvs c kv).
  { intros kv. unfold input, target. rewrite Et, Et1. split; [intros Hkv; exists (c_first_level c), t; split; [left; split; [done|left]|done]|].
    intros (l & m' & [[-> ->%list_elem_of_singleton]|[_ Hm']] & Hkv); [done|by apply not_elem_of_nil in Hm']. }
  assert (Hm : in_store (sts' ++ sts) m (kvs (c_first_level c) t)).
  { apply copy_definition_store; [lia|]. destruct Hat as (? & ? & m0 & ptrs & pad & ? & [? ? ? ? ?]).
    split_and!; [done|done|]. exists m0, ptrs, pad. by split; [|constructor]. }
  exists [m], [kvs (c_first_level c) t]. split.
  { enough (vs_ss_number vs + 1 < 2 ^ 64).
    { pose proof (al_first _ _ _ _ Hal). constructor; try done; cbn; [|rewrite u64_small by word; done|].
      - by rewrite u64_small by word.
      - exists (sts' ++ sts). split_and!; [done|set_solver|constructor; [done|constructor]]. }
    pose proof (rd_number _ _ _ _ Hrd) as Hnum. pose proof (al_first _ _ _ _ Hal).
    destruct (kvs (c_first_level c) t) as [|kv ks]; [done|].
    assert (Hkv : kv ∈ concat (inputs c (entries0 kvs c) (entries1 kvs c))) by (apply inputs_elem, Hinput; left).
    destruct (concat _) as [|x l]; [by apply not_elem_of_nil in Hkv|]. rewrite blen_cons in Hnum. pose_blen. lia. }
  constructor.
  - eapply compaction_edit; [done|]. destruct (MarkCompactedTablesAsDead_spec lba_size vs c Hl) as (Em & _). cbv zeta in Em.
    unfold AddSSDefinition. by rewrite Em.
  - change (blen [m]) with 1. change (m_number <$> [m]) with [m_number m]. rewrite seqZ_cons by done. f_equal. apply copy_definition_keys.
  - constructor; [|constructor]. split.
    + destruct (copy_definition_keys (c_first_level c + 1) (set_number meta (vs_ss_number vs))) as (_ & E1 & E2).
      destruct Hok as [Hk Hso Hfi Hla]. constructor; [done|done|unfold m; rewrite E1; cbn; congruence|unfold m; rewrite E2; cbn; congruence].
    + eapply store_device; [lia|exact Hst|done].
  - cbn. rewrite app_nil_r. apply Hok.
  - cbn. rewrite app_nil_r. intros kv. apply Hinput.
  - cbn. rewrite app_nil_r. intros kv [Hi _]. left. by apply Hinput.
  - intros l x Hl' [Hx _]. by eapply old_device.
Qed.

(** What a compaction that reports success has done. *)
Lemma run_outcome fuel vs c kvs sts vs' e :
  ready vs c kvs sts -> placed zone_cap fresh -> (length (concat (inputs c (entries0 kvs c) (entries1 kvs c))) < fuel)%nat ->
  run_compaction lba_size zone_cap fresh fuel vs c = Some (OK, vs', e) ->
  vs_ss_number vs' = vs_ss_number vs + blen (ve_new_ss e) ->
  exists news tables, ran vs vs' sts news tables /\
    outcome lba_size zone_cap l0_min l0_max ln_min ln_max (current vs) kvs c (vs_last_sequence vs) (vs_ss_number vs)
      (vs_ss_manager vs') e news tables.
Proof.
  intros Hrd Hp Hfuel Hrun Hnum. unfold run_compaction in Hrun.
  destruct (IsTrivialMove lba_size c) eqn:Et; [by eapply move_outcome|by eapply merge_outcome].
Qed.

End Run.

(** ** Witness: the compaction of level 1 into level 2 *)

Module SafetyWitness.
Definition result : option (Status * TropoVersionSet unit CompactionWitness.Manager * TropoVersionEdit) :=
  run_compaction (H := BytewiseComparator) 16 8 CompactionWitness.fresh 7 CompactionWitness.vs CompactionWitness.c.
Definition vs' : TropoVersionSet unit CompactionWitness.Manager := match result with Some (_, v, _) => v | None => CompactionWitness.vs end.
Definition edit : TropoVersionEdit := match result with Some (_, _, e) => e | None => newEdit end.
End SafetyWitness.

Lemma SafetyWitness_level l m :
  0 <= l < level_count -> m ∈ level_tables (v_ss CompactionWitness.version) l ->
  (l = 1 /\ m = CompactionWitness.m1) \/ (l = 2 /\ m = CompactionWitness.m2).
Proof.
  change level_count with 6. intros Hl Hm.
  assert (l = 0 \/ l = 1 \/ l = 2 \/ l = 3 \/ l = 4 \/ l = 5) as [->|[->|[->|[->|[->| ->]]]]] by lia;
    try (by apply not_elem_of_nil in Hm); apply list_elem_of_singleton in Hm as ->; [by left|by right].
Qed.

Lemma SafetyWitness_allowed :
  allowed (H := BytewiseComparator) (current CompactionWitness.vs) CompactionWitness.kvs CompactionWitness.c 3.
Proof.
  change (current CompactionWitness.vs) with CompactionWitness.version. constructor.
  - exact CompactionWitness_version.
  - constructor.
    + intros m Hm. exact Hm.
    + intros m Hm. exact Hm.
    + intros m Hm Hn. destruct (Hn Hm).
    + intros _ m t [[? _]|[? _]]%SafetyWitness_level; done.
  - intros m t Hm Hn _. destruct (Hn Hm).
  - done.
  - intros l Hl. change level_count with 6 in Hl.
    assert (l = 0 \/ l = 1 \/ l = 2 \/ l = 3 \/ l = 4 \/ l = 5) as [->|[->|[->|[->|[->| ->]]]]] by lia; 
      (apply NoDup_singleton || constructor).
  - by intros l m Hl [[_ ->]|[_ ->]]%SafetyWitness_level.
  - done.
Qed.

Lemma SafetyWitness_ready : exists sts,
  ready (H := BytewiseComparator) 16 8 0 3 3 11 CompactionWitness.vs CompactionWitness.c CompactionWitness.kvs sts.
Proof.
  destruct CompactionWitness_store as (p1 & p2 & Hs). eexists. constructor; [exact SafetyWitness_allowed|..].
  - discriminate.
  - apply NoDup_singleton.
  - apply NoDup_singleton.
  - intros _. by repeat constructor.
  - by repeat constructor.
  - by split.
  - exact Hs.
  - intros l m Hl [[-> ->]|[-> ->]]%SafetyWitness_level; [| |done..];
      [eapply (CompactionWitness_table _ 1); left|eapply (CompactionWitness_table _ 2); right; left].
  - intros m Hm. by apply not_elem_of_nil in Hm.
  - destruct CompactionWitness_small as [Su Sl].
    intros l m Hl [[-> ->]|[-> ->]]%SafetyWitness_level; [| |lia..]; (split_and!; [discriminate|done|]).
    + exists CompactionWitness.m1, p1, []. rewrite app_nil_r. split; [right; left|].
      pose proof (ls_tables _ _ _ _ _ _ Hs) as Ht. apply Forall_cons in Ht as [_ Ht]. by apply Forall_cons in Ht as [[_ ?] _].
    + exists CompactionWitness.m2, p2, []. rewrite app_nil_r. split; [left|].
      pose proof (ls_tables _ _ _ _ _ _ Hs) as Ht. by apply Forall_cons in Ht as [[_ ?] _].
  - pose proof CompactionWitness_fits as Hf. rewrite Forall_forall in Hf.
    intros kv Hkv%inputs_elem. apply Hf. exact Hkv.
  - done.
  - reflexivity.
  - reflexivity.
  - vm_compute. reflexivity.
Qed.


(** ** A full log *)

Module FullWitness.
(** Another table has the six zones that were free. *)
Definition log : MemFrag.t :=
  default ∅ (snd ∘ fst <$> ln_WriteSSTable 8 CompactionWitness.log2 (repeat x00 700) (CompactionWitness.meta 9 []) 0).
Definition vs : TropoVersionSet unit CompactionWitness.Manager :=
  set_ss_manager CompactionWitness.vs (mkManager [MemLog.mk 0 []] log [(0, 3); (3, 11)]).
Definition result : option (Status * TropoVersionSet unit CompactionWitness.Manager * TropoVersionEdit) :=
  run_compaction (H := BytewiseComparator) 16 8 CompactionWitness.fresh 7 vs CompactionWitness.c.
End FullWitness.

(** C39: a merging compaction does not report that a table could not be
    written.  The deferred write only logs the failure, so with a full log the
    compaction ends with success, its edit removes the inputs and adds nothing,
    and a key that was there is not found in the version that it gives. *)
Theorem compaction_write_error_lost : exists vs' e v' cp',
  FullWitness.result = Some (OK, vs', e) /\
  apply_edit (H := BytewiseComparator) (current vs') (vs_compact_pointer vs') e = Some (v', cp') /\
  right_answer (H := BytewiseComparator) (current FullWitness.vs) CompactionWitness.kvs [] [x01] (OK, [x05]) /\
  forall kvs', right_answer (H := BytewiseComparator) v' kvs' [] [x01] (NotFound, []).
Proof.
  eexists _, _, _, _. split; [vm_compute; reflexivity|]. split; [vm_compute; reflexivity|]. split.
  - left. exists (CompactionWitness.kv 1 5 1). split; [|vm_compute; reflexivity]. split_and!.
    + exists 1, CompactionWitness.m1. split_and!; [done|done|left|left].
    + vm_compute. reflexivity.
    + assert (Hle : Forall (kv_le (H := BytewiseComparator) (CompactionWitness.kv 1 5 1)) (CompactionWitness.upper ++ CompactionWitness.lower)).
      { unfold kv_le. apply (bool_decide_unpack _). by vm_compute. }
      rewrite Forall_forall in Hle. intros l m kv' Hl [[_ ->]|[_ ->]]%SafetyWitness_level Hkv' _; [| |done..];
        apply Hle, elem_of_app; [by left|by right].
  - intros kvs'. right. split; [|done]. intros l m kv Hl Hm. change level_count with 6 in Hl.
    assert (l = 0 \/ l = 1 \/ l = 2 \/ l = 3 \/ l = 4 \/ l = 5) as [->|[->|[->|[->|[->| ->]]]]] by lia;
      by apply not_elem_of_nil in Hm.
Qed.
