(* ===== verification/L0Flush.v ===== *)
(** * L0Flush: writing a memtable to level 0

    [TropoL0SSTable::FlushMemTable] and [FlushSSTable] of
    [table/tropodb_l0_sstable.cc], and [TropoSSTableManager::FlushMemTable].  The
    memtable is the list of entries that its iterator yields.  The finished
    builders go to the worker thread of [DeferredWriter]; the model writes them
    one after the other when the host joins the worker, which is what every run of
    the two threads that comes back does. *)

From S2P Require Import Prelude Coding DbFormat Config SSTable SSTableIter VersionEdit Version Szd.
From S2P Require Import VersionBuilder VersionSet L0SSTable LNSSTable SSTableManager DeferredWriter Compaction CompactionSafety.

(** ** The flush *)

Section Flush.
Context {Log : Type} `{!CircularLog Log} (lba_size : Z) (fresh : SSZoneMetaData).

(** [TropoSSTableBuilder::Flush], table/tropodb_sstable_builder.cc:100-107, for a table
    of level 0, which has no writer number. *)
Definition l0_Flush (log : Log) (b : TropoSSTableBuilder) : Status * Log * SSZoneMetaData :=
  l0_WriteSSTable log (sb_buffer b) (sb_meta b).

(** A flush in progress: the builder that is filled, the builders that were handed
    to the worker, the log and the metadata of the written tables. *)
Record flush_run := mkFlush {
  fr_builder : TropoSSTableBuilder;
  fr_deferred : list TropoSSTableBuilder;
  fr_log : Log;
  fr_metas : list SSZoneMetaData
}.

Definition set_builder (r : flush_run) (b : TropoSSTableBuilder) : flush_run :=
  mkFlush b (fr_deferred r) (fr_log r) (fr_metas r).

(** [TropoL0SSTable::FlushSSTable], table/tropodb_l0_sstable.cc:111-145.  Without the
    worker the metadata is added whether the write succeeds or not. *)
Definition l0_FlushSSTable (r : flush_run) : Status * flush_run :=
  if flushes_allow_deferring_writes
  then (OK, mkFlush (fr_builder r) (fr_deferred r ++ [fr_builder r]) (fr_log r) (fr_metas r))
  else
    let '(s, log, meta) := l0_Flush (fr_log r) (fr_builder r) in
    (s, mkFlush (fr_builder r) (fr_deferred r) log (fr_metas r ++ [meta])).

(** The table has reached its size. *)
Definition table_full (b : TropoSSTableBuilder) (key value : bytes) : bool :=
  (max_bytes_sstable_l0 + lba_size - 1) / lba_size <=?
  (GetSize b + EstimateSizeImpact key value + lba_size - 1) / lba_size.

(** Finish the builder, flush it and start a new one. *)
Definition next_table (r : flush_run) : Status * flush_run :=
  let '(s, r) := l0_FlushSSTable (set_builder r (Finalise (fr_builder r))) in
  (s, set_builder r (l0_NewBuilder fresh)).

(** The loop of [FlushMemTable] over the memtable. *)
Fixpoint flush_loop (kvs : list KV) (r : flush_run) : Status * flush_run :=
  match kvs with
  | [] => (OK, r)
  | (key, value) :: kvs =>
      let r := set_builder r (SSTable.Apply (fr_builder r) key value) in
      if table_full (fr_builder r) key value then
        let '(s, r) := next_table r in if ok s then flush_loop kvs r else (s, r)
      else flush_loop kvs r
  end.

(** [TropoL0SSTable::FlushMemTable], table/tropodb_l0_sstable.cc:147-242.  The loop that
    sets the log number changes copies of the metadata only. *)
Definition l0_FlushMemTable (log : Log) (kvs : list KV) : Status * Log * list SSZoneMetaData :=
  match kvs with
  | [] => (Corruption, log, [])
  | _ =>
      let '(s, r) := flush_loop kvs (mkFlush (l0_NewBuilder fresh) [] log []) in
      let '(s, r) := if ok s && (0 <? GetSize (fr_builder r)) then next_table r else (s, r) in
      if flushes_allow_deferring_writes then
        let '(log, metas) := flush_all l0_Flush (fr_log r) (fr_deferred r) in (s, log, fr_metas r ++ metas)
      else (s, fr_log r, fr_metas r)
  end.
End Flush.

(** [TropoSSTableManager::FlushMemTable], table/tropodb_sstable_manager.cc:226-233.  [None] is the
    failed assertion on the number of the log. *)
Definition mg_FlushMemTable {L0 LN} `{!CircularLog L0} (lba_size : Z) (fresh : SSZoneMetaData)
    (mg : TropoSSTableManager L0 LN) (parallel_number : Z) (kvs : list KV)
    : option (Status * TropoSSTableManager L0 LN * list SSZoneMetaData) :=
  if parallel_number <? lower_concurrency then
    log ← mg_l0 mg !! Z.to_nat parallel_number;
    let '(s, log, metas) := l0_FlushMemTable lba_size fresh log kvs in
    Some (s, set_l0 mg parallel_number log, metas)
  else None.

(** ** The tables of a flush *)

Section Tables.
Context {Log : Type} `{!CircularLog Log} (lba_size : Z) (fresh : SSZoneMetaData) (HL : 0 < lba_size).
Abbreviation Run := (flush_run (Log := Log)).

(** The number of bytes at which a table is full. *)
Definition l0_limit : Z := (max_bytes_sstable_l0 + lba_size - 1) / lba_size * lba_size.

(** An entry that fits into a table of which all sizes are 32-bit numbers. *)
Definition l0_fits (kv : KV) : Prop :=
  small_kv kv /\ l0_limit + EstimateSizeImpact (fst kv) (snd kv) < 2 ^ 32.

(** The table of the entries [cur], the last of which is [kv], has reached its size. *)
Definition cut_here (cur : list KV) (kv : KV) : bool :=
  (max_bytes_sstable_l0 + lba_size - 1) / lba_size <=?
  (blen (body cur) + EstimateSizeImpact (fst kv) (snd kv) + lba_size - 1) / lba_size.

(** The reference: how a flush cuts the entries behind [cur] into tables. *)
Fixpoint cut (kvs cur : list KV) : list (list KV) :=
  match kvs with
  | [] => match cur with [] => [] | _ => [cur] end
  | kv :: kvs => if cut_here (cur ++ [kv]) kv then (cur ++ [kv]) :: cut kvs [] else cut kvs (cur ++ [kv])
  end.
Definition flush_tables (kvs : list KV) : list (list KV) := cut kvs [].

Lemma cut_concat kvs cur : concat (cut kvs cur) = cur ++ kvs.
Proof.
  revert cur. induction kvs as [|kv kvs IH]; intros cur; cbn; [destruct cur; cbn; by rewrite ?app_nil_r|].
  destruct (cut_here _ _); cbn; rewrite IH; [by rewrite <-app_assoc|by rewrite <-app_assoc].
Qed.

(** The flush has finished [tables] and is filling a builder with [cur]. *)
Record flush_inv (r : Run) (tables : list (list KV)) (cur : list KV) : Prop := {
  fi_built : built (fr_builder r) cur;
  fi_size : blen (body cur) < l0_limit;
  fi_count : blen cur <= blen (body cur);
  fi_small : small_table cur;
  fi_arrays : m_LN_lbas (sb_meta (fr_builder r)) = m_LN_lbas fresh /\
    m_LN_lba_region_sizes (sb_meta (fr_builder r)) = m_LN_lba_region_sizes fresh;
  fi_log_number : m_L0_log_number (sb_meta (fr_builder r)) = m_L0_log_number fresh;
  fi_queue : Forall2 (finished fresh) (fr_deferred r) tables;
  fi_queue_log : Forall (fun b => m_L0_log_number (sb_meta b) = m_L0_log_number fresh) (fr_deferred r)
}.

Lemma l0_limit_pos : 0 < l0_limit.
Proof. unfold l0_limit, max_bytes_sstable_l0. Z.to_euclidean_division_equations; nia. Qed.

Lemma Apply_log_number b k v : m_L0_log_number (sb_meta (SSTable.Apply b k v)) = m_L0_log_number (sb_meta b).
Proof. unfold SSTable.Apply. destruct (sb_started b), (sb_use_encoding b), (sb_counter b <? max_sstable_encoding); done. Qed.

(** One more entry in the builder; the table may be over the limit by it. *)
Lemma apply_l0 r tables cur k v :
  flush_inv r tables cur -> l0_fits (k, v) ->
  let r' := set_builder r (SSTable.Apply (fr_builder r) k v) in
  built (fr_builder r') (cur ++ [(k, v)]) /\ small_table (cur ++ [(k, v)]) /\
  blen (cur ++ [(k, v)]) <= blen (body (cur ++ [(k, v)])).
Proof.
  intros [Hb Hsz Hcnt Hsm Har Hln Hq Hql] [Hkv Hfit]. cbn [fst snd] in Hfit. cbv zeta. cbn.
  pose proof (body_snoc cur (k, v)) as Hbody.
  pose proof (blen_enc_kv _ (k, v) (shared_at_bounds (length cur) (last_key_of [] cur) (k, v))) as Henc. cbn [fst snd] in Henc.
  assert (Hnb : blen (body (cur ++ [(k, v)])) < 2 ^ 32) by (rewrite Hbody, blen_app; lia).
  assert (Hnc : blen (cur ++ [(k, v)]) <= blen (body (cur ++ [(k, v)]))).
  { rewrite Hbody, !blen_app. change (blen [(k, v)]) with 1. lia. }
  assert (Hs : small_table (cur ++ [(k, v)])).
  { split_and!; [apply Forall_app; split; [apply Hsm|by constructor]|lia|lia]. }
  split_and!; [by apply Apply_built|apply Hs..|done].
Qed.

Lemma finish_builder b cur :
  built b cur -> cur <> [] -> small_table cur ->
  m_LN_lbas (sb_meta b) = m_LN_lbas fresh /\ m_LN_lba_region_sizes (sb_meta b) = m_LN_lba_region_sizes fresh ->
  finished fresh (Finalise b) cur.
Proof.
  intros Hb Hne Hs Har. constructor; [by apply Finalise_image|done|done| | |exact Har].
  - change (m_smallest (sb_meta (Finalise b))) with (m_smallest (sb_meta b)).
    rewrite (bu_smallest _ _ Hb Hne). by destruct cur.
  - change (m_largest (sb_meta (Finalise b))) with (m_largest (sb_meta b)).
    rewrite (bu_largest _ _ Hb Hne). unfold last_key_of. destruct (last cur) eqn:E; [done|]. by apply last_None in E.
Qed.

Lemma next_table_inv r tables cur :
  built (fr_builder r) cur -> cur <> [] -> small_table cur ->
  m_LN_lbas (sb_meta (fr_builder r)) = m_LN_lbas fresh /\ m_LN_lba_region_sizes (sb_meta (fr_builder r)) = m_LN_lba_region_sizes fresh ->
  m_L0_log_number (sb_meta (fr_builder r)) = m_L0_log_number fresh ->
  Forall2 (finished fresh) (fr_deferred r) tables ->
  Forall (fun b => m_L0_log_number (sb_meta b) = m_L0_log_number fresh) (fr_deferred r) ->
  exists r', next_table fresh r = (OK, r') /\ flush_inv r' (tables ++ [cur]) [] /\
    fr_log r' = fr_log r /\ fr_metas r' = fr_metas r /\ fr_builder r' = l0_NewBuilder fresh.
Proof.
  intros Hb Hne Hs Har Hln Hq Hql. unfold next_table, l0_FlushSSTable. change flushes_allow_deferring_writes with true. cbv iota.
  eexists. split_and!; [done| |done|done|done]. pose proof l0_limit_pos. constructor; cbn.
  - by constructor.
  - done.
  - done.
  - by split_and!.
  - done.
  - done.
  - apply Forall2_app; [done|]. constructor; [by apply finish_builder|constructor].
  - apply Forall_app. split; [done|]. by constructor.
Qed.

Lemma flush_loop_inv kvs r tables cur :
  flush_inv r tables cur -> Forall l0_fits kvs ->
  exists r' tables' cur', flush_loop lba_size fresh kvs r = (OK, r') /\ flush_inv r' tables' cur' /\
    fr_log r' = fr_log r /\ fr_metas r' = fr_metas r /\ tables' ++ cut [] cur' = tables ++ cut kvs cur.
Proof.
  revert r tables cur. induction kvs as [|[k v] kvs IH]; intros r tables cur Hinv Hfit; cbn [flush_loop].
  { by exists r, tables, cur. }
  apply Forall_cons in Hfit as [Hkv Hfit]. destruct (apply_l0 r tables cur k v Hinv Hkv) as (Hb & Hs & Hnc).
  destruct Hinv as [Hb0 Hsz Hcnt Hsm Har Hln Hq Hql]. set (r1 := set_builder r _) in *. cbv zeta in *.
  assert (Har1 : m_LN_lbas (sb_meta (fr_builder r1)) = m_LN_lbas fresh /\
    m_LN_lba_region_sizes (sb_meta (fr_builder r1)) = m_LN_lba_region_sizes fresh)
    by (cbn; destruct (Apply_arrays (fr_builder r) k v) as [-> ->]; done).
  assert (Hln1 : m_L0_log_number (sb_meta (fr_builder r1)) = m_L0_log_number fresh)
    by (cbn; by rewrite Apply_log_number).
  assert (Efull : table_full lba_size (fr_builder r1) k v = cut_here (cur ++ [(k, v)]) (k, v)).
  { unfold table_full, cut_here, GetSize. by rewrite (bu_buffer _ _ Hb). }
  rewrite Efull. clear Efull. change (cut ((k, v) :: kvs) cur) with
    (if cut_here (cur ++ [(k, v)]) (k, v) then (cur ++ [(k, v)]) :: cut kvs [] else cut kvs (cur ++ [(k, v)])).
  destruct (cut_here (cur ++ [(k, v)]) (k, v)) eqn:Efull.
  - destruct (next_table_inv r1 tables (cur ++ [(k, v)])) as (r2 & -> & Hi2 & El & Em & _); [done|by destruct cur|done..|].
    cbn [ok]. destruct (IH r2 _ _ Hi2 Hfit) as (r' & t' & c' & -> & Hi' & El' & Em' & Ec').
    exists r', t', c'. split_and!; [done|done|by rewrite El', El|by rewrite Em', Em|].
    by rewrite Ec', <-app_assoc.
  - destruct (IH r1 tables (cur ++ [(k, v)])) as (r' & t' & c' & -> & Hi' & El' & Em' & Ec'); [|done|].
    + constructor; try done. unfold cut_here in Efull. apply Z.leb_gt in Efull. cbn [fst snd] in Efull.
      unfold l0_limit, EstimateSizeImpact in *. pose_blen.
      Z.to_euclidean_division_equations; nia.
    + by exists r', t', c'.
Qed.

(** What a flush hands to the worker: the memtable, cut into tables. *)
Lemma FlushMemTable_tables (log : Log) kvs :
  kvs <> [] -> Forall l0_fits kvs ->
  exists queue, l0_FlushMemTable lba_size fresh log kvs = (OK, fst (flush_all l0_Flush log queue), snd (flush_all l0_Flush log queue)) /\
    Forall2 (finished fresh) queue (flush_tables kvs) /\
    Forall (fun b => m_L0_log_number (sb_meta b) = m_L0_log_number fresh) queue.
Proof.
  intros Hne Hfit. unfold l0_FlushMemTable. destruct kvs as [|kv kvs]; [done|]. set (all := kv :: kvs) in *. clearbody all.
  assert (H0 : flush_inv (mkFlush (l0_NewBuilder fresh) [] log []) [] []).
  { pose proof l0_limit_pos. constructor; cbn; [by constructor|done|done|by split_and!|done|done|constructor|constructor]. }
  destruct (flush_loop_inv all _ _ _ H0 Hfit) as (r & tables & cur & -> & Hi & El & Em & Ec). cbn in El, Em, Ec.
  destruct Hi as [Hb Hsz Hcnt Hsm Har Hln Hq Hql]. cbn [ok andb]. change flushes_allow_deferring_writes with true. cbv iota.
  unfold GetSize. rewrite (bu_buffer _ _ Hb). destruct (Z.ltb_spec 0 (blen (body cur))) as [Hpos|Hz].
  - assert (Hcur : cur <> []) by (intros ->; change (blen (body [])) with 0 in Hpos; lia).
    destruct (next_table_inv r tables cur) as (r' & -> & [_ _ _ _ _ _ Hq' Hql'] & El' & Em' & _); try done.
    exists (fr_deferred r'). rewrite El', Em', El, Em. unfold flush_tables. rewrite <-Ec. split_and!; [|by destruct cur|done].
    by destruct (flush_all _ _ _).
  - assert (cur = []) as ->. { destruct cur as [|x cur]; [done|]. rewrite blen_cons in Hcnt. pose_blen. lia. }
    exists (fr_deferred r). rewrite El, Em. unfold flush_tables. rewrite <-Ec, app_nil_r. split_and!; [|done|done].
    by destruct (flush_all _ _ _).
Qed.
End Tables.

(** ** The tables on the log *)

Section Stored.
Context {Log : Type} `{!CircularLog Log} (lba_size min_head max_head : Z) `{!CircularLogLaws Log lba_size min_head max_head}.
Context (fresh : SSZoneMetaData).
Abbreviation at_log := (table_at lba_size min_head max_head).

(** The table of the entries [t] is on the log, described by [m]. *)
Record l0_stored (log : Log) (m : SSZoneMetaData) (t : list KV) : Prop := {
  ls_at : exists i bs pad, at_log log m i bs /\ concat bs = table_image t ++ pad;
  ls_smallest : Some (m_smallest m) = fst <$> head t;
  ls_largest : Some (m_largest m) = fst <$> last t;
  ls_log_number : m_L0_log_number m = m_L0_log_number fresh;
  ls_small : t <> [] /\ small_table t
}.

Definition keeps_tables (log log' : Log) : Prop := forall m i bs, at_log log m i bs -> at_log log' m i bs.

Lemma l0_stored_keeps log log' m t : keeps_tables log log' -> l0_stored log m t -> l0_stored log' m t.
Proof. intros Hk [(i & bs & pad & Ha & E) ? ? ? ?]. constructor; try done. exists i, bs, pad. split; [by apply Hk|done]. Qed.

Lemma l0_stored_count log m t : l0_stored log m t -> 0 < m_lba_count m.
Proof. intros [(i & bs & pad & Ha & _) _ _ _ _]. pose proof (table_at_range _ _ _ _ _ _ _ Ha). rewrite (ta_count _ _ _ _ _ _ _ Ha). lia. Qed.

Lemma table_image_nonempty t : table_image t <> [].
Proof. unfold table_image. intros [E _]%app_eq_nil. by apply (f_equal blen) in E. Qed.

Lemma l0_Flush_stored log b t log' m :
  finished fresh b t -> m_L0_log_number (sb_meta b) = m_L0_log_number fresh -> l0_Flush log b = (OK, log', m) ->
  l0_stored log' m t /\ keeps_tables log log'.
Proof.
  intros [Him Hne Hsm Hs Hl _] Hln Hw. unfold l0_Flush in Hw. rewrite Him in Hw.
  assert (Hlog : m_L0_log_number m = m_L0_log_number (sb_meta b)).
  { unfold l0_WriteSSTable in Hw. destruct (negb _); [done|].
    destruct (cl_Append log (table_image t)) as [[? ?] ?]. by injection Hw as _ _ <-. }
  eapply l0_write_table in Hw as (bs & pad & Hat & Hc & _ & (_ & Es & El) & Hk); [|apply table_image_nonempty].
  split; [|exact Hk]. constructor; [by eexists _, bs, pad|by rewrite Es|by rewrite El|congruence|done].
Qed.

Lemma flush_all_length (log : Log) queue : (length (snd (flush_all l0_Flush log queue)) <= length queue)%nat.
Proof.
  revert log. induction queue as [|b queue IH]; intros log; cbn; [lia|]. destruct (l0_Flush log b) as [[s log1] m].
  specialize (IH log1). destruct (flush_all l0_Flush log1 queue) as [log' ms]. cbn in *. destruct (ok s); cbn; lia.
Qed.

(** When no write failed, every table is on the log. *)
Lemma flush_all_stored log queue tables :
  Forall2 (finished fresh) queue tables -> Forall (fun b => m_L0_log_number (sb_meta b) = m_L0_log_number fresh) queue ->
  length (snd (flush_all l0_Flush log queue)) = length queue ->
  Forall2 (l0_stored (fst (flush_all l0_Flush log queue))) (snd (flush_all l0_Flush log queue)) tables /\
  keeps_tables log (fst (flush_all l0_Flush log queue)).
Proof.
  intros Hf. revert log. induction Hf as [|b t queue tables Hb Hf IH]; intros log Hln Hlen; cbn in *.
  { split; [constructor|by intros ?]. }
  apply Forall_cons in Hln as [Hbl Hln]. destruct (l0_Flush log b) as [[s log1] m] eqn:Ew.
  pose proof (flush_all_length log1 queue) as Hle. specialize (IH log1 Hln).
  destruct (flush_all l0_Flush log1 queue) as [log' ms] eqn:Er. cbn in *.
  destruct (ok s) eqn:Es; cbn in Hlen; [|lia]. assert (s = OK) as -> by (by destruct s).
  destruct (l0_Flush_stored _ _ _ _ _ Hb Hbl Ew) as [Hst Hk]. destruct (IH ltac:(lia)) as [Hms Hk'].
  split; [constructor; [by eapply l0_stored_keeps|done]|]. intros m' i bs H1. by apply Hk', Hk.
Qed.
End Stored.

(** ** The new tables in the index *)

Section Edit.
Context {M L0 LN : Type} (fresh : SSZoneMetaData).
Abbreviation VS := (TropoVersionSet M (TropoSSTableManager L0 LN)).

(** [TropoVersionSet::NewSSNumberL0], index/tropodb_version_set.h:57-57 *)
Definition NewSSNumberL0 (vs : VS) : Z * VS :=
  (vs_ss_number_l0 vs,
   set_numbers vs (vs_last_sequence vs) (vs_ss_number vs) (u64 (vs_ss_number_l0 vs + 1))).

Definition set_L0_number (m : SSZoneMetaData) (n : Z) : SSZoneMetaData :=
  mkMeta (m_refs m) (m_allowed_seeks m) (m_number m) (m_L0_lba m) (m_L0_log_number m) n (m_LN_lba_regions m)
    (m_LN_lbas m) (m_LN_lba_region_sizes m) (m_numbers m) (m_lba_count m) (m_smallest m) (m_largest m).

(** The loop of [CompactMemtable] over the metadata: a table that has blocks gets a
    number of its own and the number of the flush. *)
Fixpoint number_tables (vs : VS) (l0_number : Z) (metas : list SSZoneMetaData) (edit : TropoVersionEdit)
    : VS * TropoVersionEdit :=
  match metas with
  | [] => (vs, edit)
  | m :: metas =>
      if 0 <? m_lba_count m then
        let '(n, vs) := NewSSNumber vs in
        number_tables vs l0_number metas (AddSSDefinition fresh edit 0 (set_L0_number (set_number m n) l0_number))
      else number_tables vs l0_number metas edit
  end.

(** The metadata that is installed, for tables numbered from [n] on. *)
Definition numbered (l0_number n : Z) (metas : list SSZoneMetaData) : list SSZoneMetaData :=
  imap (fun i m => copy_definition fresh 0 (set_L0_number (set_number m (n + Z.of_nat i)) l0_number)) metas.

Lemma numbered_cons l0_number n m metas :
  numbered l0_number n (m :: metas) =
  copy_definition fresh 0 (set_L0_number (set_number m n) l0_number) :: numbered l0_number (n + 1) metas.
Proof.
  unfold numbered. cbn. rewrite Z.add_0_r. f_equal. apply imap_ext. intros i x _. cbn.
  by replace (n + Z.of_nat (S i)) with (n + 1 + Z.of_nat i) by lia.
Qed.

Lemma number_tables_spec vs l0_number metas e :
  Forall (fun m => 0 < m_lba_count m) metas -> 0 <= vs_ss_number vs -> vs_ss_number vs + blen metas < 2 ^ 64 ->
  number_tables vs l0_number metas e =
  (set_numbers vs (vs_last_sequence vs) (vs_ss_number vs + blen metas) (vs_ss_number_l0 vs),
   set_new_ss e (ve_new_ss e ++ (pair 0 <$> numbered l0_number (vs_ss_number vs) metas))).
Proof.
  intros Hc. revert vs e. induction Hc as [|m metas Hm Hc IH]; intros vs e H0 Hmax; cbn [number_tables].
  { change (blen []) with 0. cbn. rewrite Z.add_0_r, app_nil_r. by destruct vs, e. }
  rewrite blen_cons in Hmax. pose proof (blen_nonneg metas). rewrite (proj2 (Z.ltb_lt _ _) Hm). unfold NewSSNumber.
  rewrite u64_small by word. rewrite IH by (cbn; lia). rewrite numbered_cons, blen_cons. f_equal.
  - unfold set_numbers. cbn [vs_versions vs_compaction vs_last_sequence vs_ss_number vs_ss_number_l0 vs_compact_pointer
      vs_manifest vs_ss_manager]. f_equal. lia.
  - unfold AddSSDefinition. cbn [ve_new_ss set_new_ss vs_ss_number set_numbers fmap list_fmap]. by rewrite <-app_assoc.
Qed.
End Edit.

Section Install.
Context `{UserComparator}.
Context (v : TropoVersion) (kvs : Z -> SSZoneMetaData -> list KV) (first l0_number : Z).
Context (news : list SSZoneMetaData) (tables : list (list KV)).

(** [kv] is an entry of a table of the version. *)
Definition entry_in (v : TropoVersion) (kvs : Z -> SSZoneMetaData -> list KV) (kv : KV) : Prop :=
  exists l m, 0 <= l < level_count /\ m ∈ level_tables (v_ss v) l /\ kv ∈ kvs l m.

(** No user key has entries in two of the tables. *)
Definition unsplit (ts : list (list KV)) : Prop :=
  forall i j t t' kv kv', i <> j -> ts !! i = Some t -> ts !! j = Some t' -> kv ∈ t -> kv' ∈ t' -> ukey kv <> ukey kv'.

(** A flush that the index allows: the new tables have numbers of their own, the
    number of the flush is above those of the tables of level 0, and the entries
    are newer than those of the version. *)
Record flush_ok : Prop := {
  fo_tables : Forall2 table_ok news tables;
  fo_numbers : m_number <$> news = seqZ first (blen news);
  fo_l0 : forall m, m ∈ news -> m_L0_number m = l0_number;
  fo_below : forall l m, 0 <= l < level_count -> m ∈ level_tables (v_ss v) l -> m_number m < first;
  fo_l0_below : forall m, m ∈ level_tables (v_ss v) 0 -> m_L0_number m < l0_number;
  fo_newer : forall kv kv', kv ∈ concat tables -> entry_in v kvs kv' -> ukey kv = ukey kv' -> kv_lt kv kv';
  fo_unsplit : unsplit tables
}.

(** The entries of the tables of the new version. *)
Definition flushed_kvs (l : Z) (m : SSZoneMetaData) : list KV :=
  if first <=? m_number m then default [] (tables !! Z.to_nat (m_number m - first)) else kvs l m.

(** The edit adds the tables to level 0. *)
Definition adds_l0 (e : TropoVersionEdit) : Prop :=
  ve_new_ss e = pair 0 <$> news /\ ve_deleted_ss e = ∅ /\ ve_deleted_ss_pers e = [] /\ ve_compact_pointers e = [].

Context (Hv : version_ok v kvs) (Hok : flush_ok) (e : TropoVersionEdit) (He : adds_l0 e).
Context (Hlevels : forall l, 0 <= l < level_count -> NoDup (m_number <$> level_tables (v_ss v) l)).

Lemma new_lookup i m t : news !! i = Some m -> tables !! i = Some t -> flushed_kvs 0 m = t.
Proof.
  intros Hm Ht. unfold flushed_kvs.
  assert (En : m_number m = first + Z.of_nat i).
  { assert (Hl : (m_number <$> news) !! i = Some (m_number m)) by (by rewrite list_lookup_fmap, Hm).
    rewrite (fo_numbers Hok) in Hl. by apply lookup_seqZ in Hl as [-> _]. }
  rewrite (proj2 (Z.leb_le _ _)) by lia. replace (Z.to_nat (m_number m - first)) with i by lia. by rewrite Ht.
Qed.

Lemma old_kvs l m : 0 <= l < level_count -> m ∈ level_tables (v_ss v) l -> flushed_kvs l m = kvs l m.
Proof.
  intros Hl Hm. unfold flushed_kvs. pose proof (fo_below Hok l m Hl Hm).
  by rewrite (proj2 (Z.leb_gt first _)) by lia.
Qed.

Lemma new_table m : m ∈ news -> exists i t, news !! i = Some m /\ tables !! i = Some t /\ flushed_kvs 0 m = t /\ table_ok m t.
Proof.
  intros [i Hi]%list_elem_of_lookup. destruct (Forall2_lookup_l _ _ _ _ _ (fo_tables Hok) Hi) as (t & Ht & Htok).
  exists i, t. split_and!; [done..|by eapply new_lookup|done].
Qed.

Lemma in_tables (t : list KV) i kv : tables !! i = Some t -> kv ∈ t -> kv ∈ concat tables.
Proof.
  intros Ht%list_elem_of_lookup_2 Hkv. apply list_elem_of_In, in_concat. exists t. by rewrite <-!list_elem_of_In.
Qed.

Lemma new_numbers_level l : 0 <= l -> new_numbers e l = if decide (l = 0) then m_number <$> news else [].
Proof. intros Hl. unfold new_numbers. rewrite (proj1 He), at_level_pair by done. by case_decide. Qed.

Lemma new_numbers_NoDup l : 0 <= l -> NoDup (new_numbers e l).
Proof.
  intros Hl. rewrite new_numbers_level by done. case_decide; [|constructor]. rewrite (fo_numbers Hok). apply NoDup_seqZ.
Qed.

(** The other levels stay as they are. *)
Lemma merged_same l : 1 <= l -> merged (edit_level e (Z.to_nat l)) (level_tables (v_ss v) l) = level_tables (v_ss v) l.
Proof.
  intros Hl. destruct He as (En & Ed & _ & _). unfold merged, edit_level. cbn [added_ss]. rewrite En, at_level_pair, decide_False by lia.
  cbn [zone_set foldr]. assert (Hm : forall k, list_merge (cle BySmallestKey) k [] = k) by (by intros []). rewrite Hm.
  apply filter_all. intros m _. unfold live. cbn [deleted_ss]. rewrite Ed, elements_empty. set_solver.
Qed.

Lemma flush_edit_levels : edit_levels_ok e.
Proof.
  destruct He as (En & Ed & Ep & Ec). unfold edit_levels_ok. rewrite En, Ed, Ep, Ec, elements_empty. split_and!; try constructor.
  apply Forall_fmap, Forall_forall. intros m _. by split.
Qed.

Lemma apart_no_overlap ss :
  StronglySorted (fun m m' => clt InternalCompare (m_largest m) (m_smallest m')) ss -> no_overlap ss = true.
Proof.
  induction 1 as [|a ss Hs IH Hf]; [done|]. destruct ss as [|b ss]; [done|]. apply Forall_cons in Hf as [Hab _].
  change (bool_decide (InternalCompare (m_largest a) (m_smallest b) = Lt) && no_overlap (b :: ss) = true).
  by rewrite bool_decide_true, IH.
Qed.

Lemma flush_numbers_NoDup : NoDup (m_number <$> merged (edit_level e 0) (level_tables (v_ss v) 0)).
Proof.
  change 0%nat with (Z.to_nat 0). pose proof (new_numbers_NoDup 0 ltac:(lia)) as Hnd.
  rewrite merged_perm, fmap_app. apply NoDup_app. split_and!.
  - eapply sublist_NoDup; [by apply (Hlevels 0)|]. apply fmap_sublist, sublist_filter.
  - intros n (m & -> & [_ Hm]%list_elem_of_filter)%list_elem_of_fmap (m' & Em & [_ Hm']%list_elem_of_filter)%list_elem_of_fmap.
    assert (Hn : m_number m' ∈ new_numbers e 0) by (apply list_elem_of_fmap_2; by rewrite <-new_tables_perm).
    rewrite new_numbers_level, decide_True, (fo_numbers Hok), elem_of_seqZ in Hn by done.
    pose proof (fo_below Hok 0 m ltac:(done) Hm). lia.
  - eapply sublist_NoDup; [|apply fmap_sublist, sublist_filter]. by rewrite new_tables_perm.
Qed.

Lemma flush_installed cp :
  blen cp = level_count -> exists v' cp', apply_edit v cp e = Some (v', cp') /\
    (forall l m, 0 <= l < level_count -> m ∈ level_tables (v_ss v') l <-> (l = 0 /\ m ∈ news) \/ m ∈ level_tables (v_ss v) l) /\
    (forall l, 1 <= l < level_count -> level_tables (v_ss v') l = level_tables (v_ss v) l) /\
    NoDup (m_number <$> level_tables (v_ss v') 0) /\ cp' = cp.
Proof.
  intros Hcp. assert (Hno : forall l, 1 <= l < level_count -> no_overlap (merged (edit_level e (Z.to_nat l)) (level_tables (v_ss v) l)) = true).
  { intros l Hl. rewrite merged_same by lia. by apply apart_no_overlap, (vo_ln _ _ Hv). }
  destruct (proj1 (apply_edit_spec v cp e flush_edit_levels Hcp) Hno) as [[v' cp'] Ha]. exists v', cp'. split; [done|].
  assert (Hlv : forall l, 0 <= l < level_count ->
    level_tables (v_ss v') l = merged (edit_level e (Z.to_nat l)) (level_tables (v_ss v) l)).
  { intros l Hl. by destruct (apply_edit_level v cp e v' cp' l flush_edit_levels Hcp Ha Hl). }
  split_and!.
  - intros l m Hl. rewrite Hlv, merged_elem by (done || lia || by apply new_numbers_NoDup; lia).
    destruct He as (-> & -> & _ & _). rewrite list_elem_of_fmap. set_solver.
  - intros l Hl. rewrite Hlv by lia. apply merged_same. lia.
  - rewrite Hlv by done. apply flush_numbers_NoDup.
  - destruct (apply_edit_level v cp e v' cp' 0 flush_edit_levels Hcp Ha ltac:(done)) as (_ & _ & _ & _ & Hc & _).
    apply list_eq. intros i. rewrite Hc. destruct He as (_ & _ & _ & ->). cbn. by destruct (cp !! i).
Qed.

(** The new version is well formed, and has the entries of both. *)
Lemma flushed_version v' :
  (forall l m, 0 <= l < level_count -> m ∈ level_tables (v_ss v') l <-> (l = 0 /\ m ∈ news) \/ m ∈ level_tables (v_ss v) l) ->
  (forall l, 1 <= l < level_count -> level_tables (v_ss v') l = level_tables (v_ss v) l) ->
  NoDup (m_number <$> level_tables (v_ss v') 0) ->
  version_ok v' flushed_kvs /\ forall kv, entry_in v' flushed_kvs kv <-> kv ∈ concat tables \/ entry_in v kvs kv.
Proof.
  intros Hin Hln Hnd. split; [constructor|].
  - intros l m Hl [[-> Hm]|Hm]%Hin; [|rewrite old_kvs by done; by apply (vo_tables _ _ Hv)|done].
    by destruct (new_table m Hm) as (i & t & _ & _ & -> & ?).
  - done.
  - intros m m' Hm Hm' Hnew. apply Hin in Hm, Hm'; [|done..]. destruct Hm as [[_ Hm]|Hm], Hm' as [[_ Hm']|Hm'].
    + destruct (new_table m Hm) as (i & t & Hi & Ht & -> & _), (new_table m' Hm') as (j & t' & Hj & Ht' & -> & _).
      intros kv kv' Hkv Hkv' Hu. destruct (decide (i = j)) as [<-|Hne].
      * simplify_eq. unfold newer, clt, recency_cmp in Hnew. rewrite !Z.compare_refl in Hnew. done.
      * by destruct (fo_unsplit Hok i j t t' kv kv').
    + destruct (new_table m Hm) as (i & t & _ & Ht & -> & _). rewrite old_kvs by done. intros kv kv' Hkv Hkv' Hu.
      apply (fo_newer Hok); [by eapply in_tables|by exists 0, m'|done].
    + exfalso. pose proof (fo_l0_below Hok m Hm). pose proof (fo_l0 Hok m' Hm'). unfold newer, clt, recency_cmp in Hnew.
      destruct (Z.compare_spec (m_L0_number m') (m_L0_number m)); [lia|lia|done].
    + rewrite !old_kvs by done. by apply (vo_l0 _ _ Hv).
  - intros l Hl. rewrite Hln by done. by apply (vo_ln _ _ Hv).
  - intros l l' m m' Hl Hl' Hm Hm'. rewrite Hln in Hm' by lia. rewrite (old_kvs l') by (done || lia).
    apply Hin in Hm as [[-> Hm]|Hm]; [|rewrite old_kvs by (done || lia); by apply (vo_levels _ _ Hv)|lia].
    destruct (new_table m Hm) as (i & t & _ & Ht & -> & _). intros kv kv' Hkv Hkv' Hu.
    apply (fo_newer Hok); [by eapply in_tables|exists l', m'; split_and!; (done || lia)|done].
  - intros kv. split.
    + intros (l & m & Hl & Hm & Hkv). apply Hin in Hm as [[-> Hm]|Hm]; [left|right|done].
      * destruct (new_table m Hm) as (i & t & _ & Ht & E & _). rewrite E in Hkv. by eapply in_tables.
      * rewrite old_kvs in Hkv by done. by exists l, m.
    + intros [Hkv|(l & m & Hl & Hm & Hkv)].
      * apply list_elem_of_In, in_concat in Hkv as (t & Ht & Hkv). apply list_elem_of_In in Ht, Hkv.
        apply list_elem_of_lookup in Ht as [i Hi]. destruct (Forall2_lookup_r _ _ _ _ _ (fo_tables Hok) Hi) as (m & Hm & _).
        exists 0, m. split_and!; [done|done|apply Hin; [done|left; split; [done|by eapply list_elem_of_lookup_2]]|].
        by rewrite (new_lookup i m t).
      * exists l, m. split_and!; [lia|lia|apply Hin; [done|by right]|]. by rewrite old_kvs.
Qed.
End Install.
