(* ===== verification/Database.v ===== *)
(** * Database: the operations of TropoDB

    [tropodb_impl.h] and the files of [impl/]: the writes, the lookups, the flush of
    a memtable and the start of the store, over the components of the other files.

    A call that holds the mutex of the store is one step.  [MakeRoomForWrite] and
    [CompactMemtable] wait for other threads in loops: the condition that ends the
    loop is a guard of the step, and one round of the first loop that changes the
    store is a step of its own ([SwitchMemtable]).  [None] is the end of the process
    or undefined behaviour. *)

From Stdlib Require Import Floats.SpecFloat.
From S2P Require Import Prelude Coding DbFormat Config Committer SSTable SSTableIter VersionEdit Version Szd.
From S2P Require Import Wal WalManager WriteBatch Memtable VersionBuilder Manifest VersionSet.
From S2P Require Import L0SSTable LNSSTable SSTableManager TableCache Compaction L0Flush.

(** ** State *)

(** The members of [TropoDBImpl] that exist once for every writer of level 0,
    tropodb_impl.h:355-385. *)
Record stripe (WLog Rep : Type) := mkStripe {
  mem_ : MemTable (Rep := Rep);
  imm_ : option (MemTable (Rep := Rep));
  wal_man_ : TropoWALManager WLog;
  wal_ : option nat;
  wal_reserved_ : Z;
  bg_flush_scheduled_ : bool
}.
Arguments mkStripe {_ _}. Arguments mem_ {_ _}. Arguments imm_ {_ _}. Arguments wal_man_ {_ _}.
Arguments wal_ {_ _}. Arguments wal_reserved_ {_ _}. Arguments bg_flush_scheduled_ {_ _}.

(** [TropoDBImpl], tropodb_impl.h:350-385.  The manager of the tables is shared by the version set and the
    table cache. *)
Record TropoDBImpl (WLog Rep VS TC : Type) := mkDB {
  stripes : list (stripe WLog Rep);
  versions_ : VS;
  table_cache_ : TC;
  bg_error_ : Status;
  bg_compaction_l0_scheduled_ : bool;
  bg_compaction_scheduled_ : bool
}.
Arguments mkDB {_ _ _ _}. Arguments stripes {_ _ _ _}. Arguments versions_ {_ _ _ _}. Arguments table_cache_ {_ _ _ _}.
Arguments bg_error_ {_ _ _ _}. Arguments bg_compaction_l0_scheduled_ {_ _ _ _}. Arguments bg_compaction_scheduled_ {_ _ _ _}.

(** The number of logs of a manager. *)
Abbreviation N_wals := (Z.to_nat wal_manager_zone_count).

Section Database.
Context `{UserComparator} {M WLog L0 LN C Rep : Type}.
Context `{!ManifestOps M} `{!OnceLog WLog} `{!CircularLog L0} `{!FragmentedLog LN} `{!Cache C} `{!MemTableRep Rep}.
(** The name of the comparator, the geometry of the device, fresh metadata and
    memory, whether assertions are off, and the handlers of the memtable's inserter
    that are not modelled. *)
Context (name : bytes) (lba_size zone_cap : Z) (fresh : SSZoneMetaData) (mem_at : Z -> bytes) (NDEBUG : bool).
Context (rest : Handler (inserter (Rep := Rep))).
(** The memory that a memtable uses, [max_write_buffer_size_], and what a caller's
    variable for the status of an entry holds. *)
Context (usage : MemTable (Rep := Rep) -> Z) (max_write_buffer_size_ : Z) (status : EntryStatus).

Abbreviation Manager := (TropoSSTableManager L0 LN).
Abbreviation VS := (TropoVersionSet M Manager).
Abbreviation TC := (TropoTableCache C Manager).
Abbreviation DB := (TropoDBImpl WLog Rep VS TC).
Abbreviation Stripe := (stripe WLog Rep).
Implicit Types (db : DB) (st : Stripe) (vs : VS).

Definition set_stripe db (i : nat) st : DB :=
  mkDB (<[i := st]> (stripes db)) (versions_ db) (table_cache_ db) (bg_error_ db) (bg_compaction_l0_scheduled_ db)
    (bg_compaction_scheduled_ db).
Definition set_versions_ db vs : DB :=
  mkDB (stripes db) vs (table_cache_ db) (bg_error_ db) (bg_compaction_l0_scheduled_ db) (bg_compaction_scheduled_ db).
Definition set_cache db (tc : TC) : DB :=
  mkDB (stripes db) (versions_ db) tc (bg_error_ db) (bg_compaction_l0_scheduled_ db) (bg_compaction_scheduled_ db).
Definition set_error db (s : Status) : DB :=
  mkDB (stripes db) (versions_ db) (table_cache_ db) s (bg_compaction_l0_scheduled_ db) (bg_compaction_scheduled_ db).
Definition set_manager db (mg : Manager) : DB :=
  let tc := table_cache_ db in
  set_cache (set_versions_ db (set_ss_manager (versions_ db) mg)) (mkTableCache (tcs_cache tc) (tcs_heap tc) (tcs_next tc) mg).

Definition set_mem st m : Stripe := mkStripe m (imm_ st) (wal_man_ st) (wal_ st) (wal_reserved_ st) (bg_flush_scheduled_ st).
Definition set_imm st m : Stripe := mkStripe (mem_ st) m (wal_man_ st) (wal_ st) (wal_reserved_ st) (bg_flush_scheduled_ st).
Definition set_wal_man st m : Stripe := mkStripe (mem_ st) (imm_ st) m (wal_ st) (wal_reserved_ st) (bg_flush_scheduled_ st).
Definition set_wal_ st w : Stripe := mkStripe (mem_ st) (imm_ st) (wal_man_ st) w (wal_reserved_ st) (bg_flush_scheduled_ st).
Definition set_reserved st n : Stripe := mkStripe (mem_ st) (imm_ st) (wal_man_ st) (wal_ st) n (bg_flush_scheduled_ st).
Definition set_scheduled st b : Stripe := mkStripe (mem_ st) (imm_ st) (wal_man_ st) (wal_ st) (wal_reserved_ st) b.

(** ** When background work is needed *)

(** [ss_compact_treshold_force[0]], tropodb_config_default.h:77-82 *)
Definition treshold_force0 : f64 := f64_div (f64_of_Z 85) (f64_of_Z 100).

(** [a >= b] *)
Definition f64_ge (a b : f64) : bool := SFleb b a.

(** [TropoVersionSet::NumLevelZones], index/tropodb_version_set.h:59-62 *)
Definition NumLevelZones vs (level : Z) : Z := blen (level_tables (v_ss (current vs)) level).

(** [TropoVersionSet::NeedsL0CompactionForce], index/tropodb_version_set.h:92-96 *)
Definition NeedsL0CompactionForce vs : option bool :=
  f ← mg_GetFractionFilled lba_size zone_cap (vs_ss_manager vs) 0;
  Some (f64_ge (f64_div f treshold_force0) (f64_of_Z 1)).

(** [TropoSSTableManager::GetFractionFilledL0], table/tropodb_sstable_manager.cc:270-279 *)
Definition GetFractionFilledL0 (mg : Manager) (parallel_number : Z) : option f64 :=
  log ← mg_l0 mg !! Z.to_nat parallel_number;
  '(a, b) ← block_ranges zone_cap mg !! Z.to_nat parallel_number;
  Some (fraction (u64 (b - a)) (l0_SpaceAvailable log / lba_size)).

(** [TropoVersionSet::NeedsL0CompactionForceParallel], index/tropodb_version_set.h:98-102 *)
Definition NeedsL0CompactionForceParallel vs (parallel_number : Z) : option bool :=
  f ← GetFractionFilledL0 (vs_ss_manager vs) parallel_number;
  Some (f64_ge (f64_div f treshold_force0) (f64_of_Z 1)).

(** The loop of [NeedsL0Compaction] over the logs of level 0. *)
Fixpoint any_forced vs (logs : list Z) : option bool :=
  match logs with
  | [] => Some false
  | i :: logs => b ← NeedsL0CompactionForceParallel vs i; if (b : bool) then Some true else any_forced vs logs
  end.

(** [TropoVersionSet::NeedsL0Compaction], index/tropodb_version_set.h:78-90 *)
Definition NeedsL0Compaction vs : option bool :=
  force ← NeedsL0CompactionForce vs;
  if f64_gt (f64_of_Z (NumLevelZones vs 0)) (default (f64_of_Z 0) (ss_compact_treshold !! 0%nat)) || force
  then Some true else any_forced vs (seqZ 0 lower_concurrency).

(** [TropoVersionSet::NeedsCompaction], index/tropodb_version_set.h:72-76 *)
Definition NeedsCompaction vs : bool :=
  f64_ge (snd (vs_compaction vs)) (f64_of_Z 1) && negb (fst (vs_compaction vs) =? level_count + 1).

(** [TropoDBImpl::MaybeScheduleFlush], impl/tropodb_impl_background.cc:187-200 *)
Definition MaybeScheduleFlush db (i : nat) : option DB :=
  st ← stripes db !! i;
  if bg_flush_scheduled_ st then Some db
  else
    idle ← match imm_ st with Some _ => Some false | None => WALAvailable NDEBUG N_wals (wal_man_ st) end;
    if (idle : bool) then Some db else Some (set_stripe db i (set_scheduled st true)).

(** [TropoDBImpl::MaybeScheduleCompactionL0], impl/tropodb_impl_background.cc:366-378 *)
Definition MaybeScheduleCompactionL0 db : option DB :=
  if negb (ok (bg_error_ db)) || bg_compaction_l0_scheduled_ db then Some db
  else
    needs ← NeedsL0Compaction (versions_ db);
    Some (if (needs : bool)
          then mkDB (stripes db) (versions_ db) (table_cache_ db) (bg_error_ db) true (bg_compaction_scheduled_ db) else db).

(** [TropoDBImpl::MaybeScheduleCompaction], impl/tropodb_impl_background.cc:555-568 *)
Definition MaybeScheduleCompaction db (force : bool) : DB :=
  if negb (ok (bg_error_ db)) || bg_compaction_scheduled_ db || (negb force && negb (NeedsCompaction (versions_ db))) then db
  else mkDB (stripes db) (versions_ db) (table_cache_ db) (bg_error_ db) (bg_compaction_l0_scheduled_ db) true.

(** ** Writing *)

(** What one round of [MakeRoomForWrite] decides. *)
Inductive room := RoomError | RoomDelay | RoomOk | RoomWaitFlush | RoomWaitL0 | RoomWaitWAL | RoomSwitch.

(** The decision of a round of [MakeRoomForWrite], impl/tropodb_impl_client.cc:37-76.  The rounds that
    wait or sleep leave the data as it is. *)
Definition MakeRoomForWrite db (size : Z) (parallel_number : nat) (allow_delay : bool) : option room :=
  st ← stripes db !! parallel_number;
  if negb (ok (bg_error_ db)) then Some RoomError
  else if allow_delay && (L0_slow_down <? NumLevelZones (versions_ db) 0) then Some RoomDelay
  else
    fits ← (if ShouldScheduleFlush usage max_write_buffer_size_ (mem_ st) then Some false
            else c ← wal_ st; r ← wals_ (wal_man_ st) !! c; Some (wal_SpaceLeft_size lba_size (wr_wal r) size));
    if (fits : bool) then Some RoomOk
    else match imm_ st with
      | Some _ => Some RoomWaitFlush
      | None =>
          f ← NeedsL0CompactionForce (versions_ db);
          fp ← NeedsL0CompactionForceParallel (versions_ db) (Z.of_nat parallel_number);
          if (f : bool) || fp then Some RoomWaitL0
          else
            av ← WALAvailable NDEBUG N_wals (wal_man_ st);
            Some (if (av : bool) then RoomSwitch else RoomWaitWAL)
      end.

(** The last branch of [MakeRoomForWrite], impl/tropodb_impl_client.cc:76-107: a new log and a new
    memtable.  The statuses of [Sync] and [Close] are not looked at. *)
Definition SwitchMemtable db (parallel_number : nat) : option DB :=
  st ← stripes db !! parallel_number;
  let m := wal_man_ st in
  c ← wal_ st; r ← wals_ m !! c;
  '(_, w) ← Sync lba_size mem_at (wr_wal r);
  '(_, w) ← wal_Close lba_size mem_at w;
  '(_, wal, m) ← NewWAL lba_size mem_at NDEBUG N_wals (wal_Unref (set_wal m c w) c);
  j ← match wal with Some j => Some j | None => wal_ st end;
  let st := set_wal_ (set_wal_man st (wal_Ref m j)) (Some j) in
  let db := set_stripe db parallel_number (set_mem (set_imm st (Some (mem_ st))) newMemTable) in
  db ← MaybeScheduleFlush db parallel_number;
  MaybeScheduleCompactionL0 db.

(** The loop of [BuildBatchGroup] over the writers behind the first: the batch, and how many of them
    it covers.  [merged] tells whether [tmp_batch_] is in use.  A writer without a batch is covered
    all the same. *)
Fixpoint batch_group (writers : list (option bytes)) (first result : bytes) (merged : bool) (size max_size : Z)
    : option (bytes * nat) :=
  match writers with
  | [] => Some (result, 0%nat)
  | None :: writers => '(b, n) ← batch_group writers first result merged size max_size; Some (b, S n)
  | Some w :: writers =>
      let size := u64 (size + blen w) in
      if max_size <? size then Some (result, 0%nat)
      else
        result ← (if merged : bool then Some result else '(_, t) ← batch_Append newWriteBatch first; Some t);
        '(_, result) ← batch_Append result w;
        '(b, n) ← batch_group writers first result true size max_size;
        Some (b, S n)
  end.

(** [TropoDBImpl::BuildBatchGroup], impl/tropodb_impl_client.cc:113-158 *)
Definition BuildBatchGroup (space_available : Z) (first : bytes) (writers : list (option bytes)) : option (bytes * nat) :=
  let max_size := u64 (max_write_buffer_size_ - 512) in
  let max_size := if space_available <? max_size then space_available else max_size in
  batch_group writers first first false (blen first) max_size.

(** [TropoVersionSet::SetLastSequence], index/tropodb_version_set.h:52-55 *)
Definition VersionSet_SetLastSequence vs (s : Z) : option VS :=
  _ ← WriteBatch.assert NDEBUG (vs_last_sequence vs <=? s);
  Some (set_numbers vs s (vs_ss_number vs) (vs_ss_number_l0 vs)).

(** [TropoDBImpl::Write], impl/tropodb_impl_client.cc:160-257, for the writer at the front of the queue
    when there is room: [writers] are the ones behind it.  The results are the status that all the
    covered writers get, how many of those behind are covered, and the store. *)
Definition Write db (striped_index : nat) (sync : bool) (updates : bytes) (writers : list (option bytes))
    : option (Status * nat * DB) :=
  st ← stripes db !! striped_index;
  c ← wal_ st; r ← wals_ (wal_man_ st) !! c;
  '(write_batch, n) ← BuildBatchGroup (ol_SpaceAvailable (w_log (wr_wal r))) updates writers;
  let last_sequence := vs_last_sequence (versions_ db) in
  write_batch ← SetSequence write_batch (u64 (last_sequence + 1));
  count ← batch_Count write_batch;
  let last_sequence := u64 (last_sequence + count) in
  let st := set_reserved st (blen write_batch) in
  '(s, w) ← Append lba_size mem_at (wr_wal r) write_batch sync;
  let st := set_wal_man st (set_wal (wal_man_ st) c w) in
  '(s, mem) ← (if ok s then TropoMemtable_Write NDEBUG rest (mem_ st) write_batch else Some (s, mem_ st));
  vs ← VersionSet_SetLastSequence (versions_ db) last_sequence;
  Some (s, n, set_versions_ (set_stripe db striped_index (set_mem st mem)) vs).

(** [TropoDBImpl::Put], impl/tropodb_impl_client.cc:19-24: the batch that is written. *)
Definition Put_batch (key value : bytes) : option bytes := '(_, b) ← batch_Put newWriteBatch key value; Some b.

(** [TropoDBImpl::Delete], impl/tropodb_impl_client.cc:26-30 *)
Definition Delete_batch (key : bytes) : option bytes := '(_, b) ← batch_Delete newWriteBatch key; Some b.

(** ** Reading *)

(** What [Get] keeps while it asks the memtables: whether there was an answer, its number and value,
    and the variables [s], [tmp] and [seq_pot]. *)
Record get_state := mkGet { g_found : bool; g_seq : Z; g_value : bytes; g_s : Status; g_tmp : bytes; g_pot : Z }.

(** The answer of one memtable. *)
Definition take_answer (g : get_state) (r : bool * bytes * Status * Z) : bool * get_state :=
  let '(b, tmp, s, pot) := r in
  if b then
    if negb (g_found g) || (g_seq g <? pot) then (true, mkGet true pot tmp s tmp pot)
    else (true, mkGet true (g_seq g) (g_value g) s tmp pot)
  else (false, mkGet (g_found g) (g_seq g) (g_value g) s tmp pot).

(** The loop of [Get] over the memtables, impl/tropodb_impl_client.cc:286-307. *)
Fixpoint get_mems (sts : list Stripe) (lkey : LookupKey) (g : get_state) : get_state :=
  match sts with
  | [] => g
  | st :: sts =>
      let '(b, g) := take_answer g (TropoMemtable_Get (mem_ st) lkey (g_tmp g) (g_s g) (g_pot g)) in
      let g := if b then g else
        match imm_ st with
        | None => g
        | Some imm => snd (take_answer g (TropoMemtable_Get imm lkey (g_tmp g) (g_s g) (g_pot g)))
        end in
      get_mems sts lkey g
  end.

(** [TropoDBImpl::Get], impl/tropodb_impl_client.cc:259-323.  [garbage] is what the uninitialised
    sequence numbers hold. *)
Definition db_Get db (key : bytes) (garbage : Z) : option (Status * bytes * DB) :=
  let lkey := newLookupKey key (vs_last_sequence (versions_ db)) in
  let g := get_mems (stripes db) lkey (mkGet false garbage [] OK [] garbage) in
  if g_found g then Some (g_s g, g_value g, db)
  else
    '(tc, s, value) ← Get (TableCache0 := table_cache_ops lba_size zone_cap status) (table_cache_ db) (current (versions_ db)) lkey (g_value g);
    Some (s, value, set_cache db tc).

(** ** Flushing *)

(** The loop condition at the start of [CompactMemtable], impl/tropodb_impl_background.cc:55-56:
    whether there is space for the flush. *)
Definition flush_has_space db (i : nat) : option bool :=
  st ← stripes db !! i; imm ← imm_ st;
  space ← SpaceRemainingInBytesL0 (vs_ss_manager (versions_ db)) (Z.of_nat i);
  Some (negb (f64_gt (f64_mul (f64_of_Z (GetInternalSize imm)) (f64_div (f64_of_Z 12) (f64_of_Z 10))) (f64_of_Z space))).

(** [bg_error_ = s] when [s] is an error. *)
Definition note_error db (s : Status) : DB := if ok s then db else set_error db s.

(** The part of [CompactMemtable] that installs the tables, impl/tropodb_impl_background.cc:91-101. *)
Definition install_tables vs (metas : list SSZoneMetaData) : option (Status * VS) :=
  let '(l0_number, vs) := NewSSNumberL0 vs in
  let '(vs, edit) := number_tables fresh vs l0_number metas newEdit in
  '(s, vs, _) ← LogAndApply (SSTableManagerOps0 := manager_ops zone_cap) name lba_size fresh vs edit;
  Some (s, vs).

(** [TropoDBImpl::FlushL0SSTables], impl/tropodb_impl_background.cc:45-49.  The mutex is not held: other
    steps come between this one and the next. *)
Definition FlushL0SSTables db (parallel_number : nat) : option (Status * list SSZoneMetaData * DB) :=
  st ← stripes db !! parallel_number; imm ← imm_ st;
  '(s, mg, metas) ← mg_FlushMemTable lba_size fresh (vs_ss_manager (versions_ db)) (Z.of_nat parallel_number) (TropoMemtable_entries imm);
  Some (s, metas, set_manager db mg).

(** The rest of [CompactMemtable], impl/tropodb_impl_background.cc:84-122, with the mutex held again.
    Whatever happened, the memtable is dropped and the logs are reset. *)
Definition FinishFlush db (parallel_number : nat) (s : Status) (metas : list SSZoneMetaData) : option (Status * DB) :=
  st ← stripes db !! parallel_number; _ ← imm_ st;
  let db := note_error db s in
  db ← (if ok s && negb (length metas =? 0)%nat
        then '(s, vs) ← install_tables (versions_ db) metas; Some (note_error (set_versions_ db vs) s)
        else Some db);
  '(s, m) ← ResetOldWALs N_wals (wal_man_ st);
  Some (s, note_error (set_stripe db parallel_number (set_wal_man (set_imm st None) m)) s).

(** [TropoDBImpl::CompactMemtable], impl/tropodb_impl_background.cc:51-123, once there is space and when no
    other thread comes between. *)
Definition CompactMemtable db (parallel_number : nat) : option (Status * DB) :=
  '(s, metas, db) ← FlushL0SSTables db parallel_number;
  FinishFlush db parallel_number s metas.

(** [TropoDBImpl::BackgroundFlush], impl/tropodb_impl_background.cc:125-146 *)
Definition BackgroundFlush db (parallel_number : nat) : option DB :=
  st ← stripes db !! parallel_number;
  match imm_ st with
  | Some _ => '(_, db) ← CompactMemtable db parallel_number; Some db
  | None =>
      av ← WALAvailable NDEBUG N_wals (wal_man_ st);
      if (av : bool) then Some db
      else '(_, m) ← ResetOldWALs N_wals (wal_man_ st); Some (set_stripe db parallel_number (set_wal_man st m))
  end.

(** The end of [BackgroundFlushCall], impl/tropodb_impl_background.cc:168-177. *)
Definition FlushCallEnd db (parallel_number : nat) (shutdown_ : bool) : option DB :=
  st ← stripes db !! parallel_number;
  let db := set_stripe db parallel_number (set_scheduled st false) in
  if shutdown_ then Some db
  else
    db ← MaybeScheduleFlush db parallel_number;
    db ← MaybeScheduleCompactionL0 db;
    Some (MaybeScheduleCompaction db false).

(** [TropoDBImpl::BackgroundFlushCall], impl/tropodb_impl_background.cc:148-178 *)
Definition BackgroundFlushCall db (parallel_number : nat) (shutdown_ : bool) : option DB :=
  db ← (if ok (bg_error_ db) then BackgroundFlush db parallel_number else Some db);
  FlushCallEnd db parallel_number shutdown_.

(** ** Opening *)

(** What the replay of a log does with a batch.  An assertion that fails ends the process; it shows as an
    error here, and the theorems are about replays that succeed. *)
Definition replay_write (m : MemTable (Rep := Rep)) (b : bytes) : Status * MemTable (Rep := Rep) :=
  default (Corruption, m) (TropoMemtable_Write NDEBUG rest m b).

(** The loop of [Recover] over the managers of logs, impl/tropodb_impl.cc:343-345: the status is the last one. *)
Fixpoint recover_wals (sts : list Stripe) (s : Status) (old_seq : Z) : option (Status * list Stripe * Z) :=
  match sts with
  | [] => Some (s, [], old_seq)
  | st :: sts =>
      '(s, m, mem, old_seq) ← WALManager_Recover lba_size N_wals replay_write (wal_man_ st) (mem_ st) old_seq;
      '(s, sts, old_seq) ← recover_wals sts s old_seq;
      Some (s, set_mem (set_wal_man st m) mem :: sts, old_seq)
  end.

(** A round of the first loop of [RecoverBackgroundFlow] up to the wait, impl/tropodb_impl.cc:299-307; [false] when
    it has to wait for a flush. *)
Definition RecoverRoom db (i : nat) : option (bool * DB) :=
  st ← stripes db !! i;
  av ← WALAvailable NDEBUG N_wals (wal_man_ st);
  if (av : bool) then Some (true, db)
  else
    let db := if 0 <? GetInternalSize (mem_ st) then set_stripe db i (set_mem (set_imm st (Some (mem_ st))) newMemTable) else db in
    db ← MaybeScheduleFlush db i;
    Some (false, db).

(** The end of the round, impl/tropodb_impl.cc:311-312. *)
Definition RecoverAttach db (i : nat) : option DB :=
  st ← stripes db !! i;
  '(wal, m) ← GetCurrentWAL lba_size mem_at NDEBUG N_wals (wal_man_ st);
  j ← wal;
  Some (set_stripe db i (set_wal_ (set_wal_man st (wal_Ref m j)) (Some j))).

Fixpoint recover_flow (ids : list nat) db : option (bool * DB) :=
  match ids with
  | [] => Some (true, db)
  | i :: ids =>
      '(ready, db) ← RecoverRoom db i;
      if (ready : bool) then db ← RecoverAttach db i; recover_flow ids db else Some (false, db)
  end.

Fixpoint schedule_flushes (ids : list nat) db : option DB :=
  match ids with
  | [] => Some db
  | i :: ids => db ← MaybeScheduleFlush db i; schedule_flushes ids db
  end.

(** [TropoDBImpl::RecoverBackgroundFlow], impl/tropodb_impl.cc:295-320; [false] when it waits for a flush. *)
Definition RecoverBackgroundFlow db : option (bool * DB) :=
  let ids := seq 0 (length (stripes db)) in
  '(ready, db) ← recover_flow ids db;
  if (ready : bool) then
    db ← schedule_flushes ids db;
    db ← MaybeScheduleCompactionL0 db;
    Some (true, MaybeScheduleCompaction db false)
  else Some (false, db).

(** A recovered version set; the table cache shares its manager. *)
Definition adopt_versions db vs : DB :=
  let tc := table_cache_ db in
  set_cache (set_versions_ db vs) (mkTableCache (tcs_cache tc) (tcs_heap tc) (tcs_next tc) (vs_ss_manager vs)).

(** [TropoDBImpl::Recover], impl/tropodb_impl.cc:322-355.  [old_seq] is what the uninitialised variable
    holds, [ResetZNSDevice] the reset of the device. *)
Definition TropoDBImpl_Recover (ResetZNSDevice : DB -> Status * DB) (create_if_missing error_if_exists : bool) db (old_seq : Z)
    : option (Status * bool * DB) :=
  '(s, vs) ← Recover (SSTableManagerOps0 := manager_ops zone_cap) name lba_size fresh (versions_ db);
  let db := adopt_versions db vs in
  if negb (ok s) then
    Some (if create_if_missing then let '(s, db) := ResetZNSDevice db in (s, true, db) else (s, true, db))
  else if error_if_exists then Some (InvalidArgument, true, db)
  else
    '(s, sts, old_seq) ← recover_wals (stripes db) s old_seq;
    let db := mkDB sts (versions_ db) (table_cache_ db) (bg_error_ db) (bg_compaction_l0_scheduled_ db) (bg_compaction_scheduled_ db) in
    if negb (ok s) then Some (s, true, db)
    else
      vs ← VersionSet_SetLastSequence (versions_ db) old_seq;
      '(ready, db) ← RecoverBackgroundFlow (set_versions_ db vs);
      Some (s, ready, db).
End Database.

(** What a step of the store shows: the updates of a group that was written with its status, the answer
    of a lookup, the switch of the memtable with the status of the sync before it, and the two parts of a flush. *)
Inductive event :=
  | EWrite (sync : bool) (us : list update) (s : Status)
  | EGet (u : bytes) (s : Status) (v : bytes)
  | ESwitch (s : Status)
  | EFlush
  | EInstall.

(** ** What the store holds *)

Section Contents.
Context `{UserComparator} {M WLog L0 LN C Rep : Type}.
Context `{!ManifestOps M} `{!OnceLog WLog} `{!CircularLog L0} `{!FragmentedLog LN} `{!Cache C} `{!MemTableRep Rep}.
Abbreviation VS := (TropoVersionSet M (TropoSSTableManager L0 LN)).
Abbreviation TC := (TropoTableCache C (TropoSSTableManager L0 LN)).
Abbreviation DB := (TropoDBImpl WLog Rep VS TC).
Abbreviation Stripe := (stripe WLog Rep).
Abbreviation entries := (TropoMemtable_entries (Rep := Rep)).

(** The entries of a table, given those of each number. *)
Definition by_number (contents : Z -> list KV) (l : Z) (m : SSZoneMetaData) : list KV := contents (m_number m).

(** The entries in memory. *)
Definition in_memory (st : Stripe) : list KV := entries (mem_ st) ++ match imm_ st with Some imm => entries imm | None => [] end.

(** An entry of the store: in a memtable or in a table of the current version. *)
Definition db_entry (contents : Z -> list KV) (db : DB) (st : Stripe) (kv : KV) : Prop :=
  kv ∈ in_memory st \/ entry_in (current (versions_ db)) (by_number contents) kv.

(** The newest entry of a user key among those that satisfy [E]. *)
Definition newest_of (E : KV -> Prop) (u : bytes) (kv : KV) : Prop :=
  E kv /\ ukey kv = u /\ forall kv', E kv' -> ukey kv' = u -> kv_le kv kv'.

(** The value of an entry; [None] for a deletion. *)
Definition value_of (kv : KV) : option bytes :=
  match ParseInternalKey (fst kv) with
  | Some p => if pik_type p =? kTypeDeletion then None else Some (snd kv)
  | None => None
  end.

(** The entries [E] stand for the map [f]: a key has the value of its newest entry. *)
Definition stands_for (E : KV -> Prop) (f : bytes -> option bytes) : Prop :=
  forall u, (forall kv, newest_of E u kv -> f u = value_of kv) /\ ((forall kv, E kv -> ukey kv <> u) -> f u = None).

(** What a lookup has to return. *)
Definition answer (r : option bytes) : Status * bytes := match r with Some v => (OK, v) | None => (NotFound, []) end.

(** The updates of the abstract map. *)
Definition update_map (f : bytes -> option bytes) (u : update) (k : bytes) : option bytes :=
  match u with
  | UPut k' v => if decide (k = k') then Some v else f k
  | UDelete k' => if decide (k = k') then None else f k
  end.
Definition update_all (f : bytes -> option bytes) (us : list update) : bytes -> option bytes := fold_left update_map us f.

Lemma key_answer_value kv : key_answer kv = answer (value_of kv).
Proof. unfold key_answer, value_of. destruct (ParseInternalKey (fst kv)) as [p|]; [|done]. by destruct (pik_type p =? kTypeDeletion). Qed.

Lemma stands_for_ext (E E' : KV -> Prop) f : (forall kv, E kv <-> E' kv) -> stands_for E f -> stands_for E' f.
Proof.
  intros HE Hs u. destruct (Hs u) as [Hn Hno]. split.
  - intros kv (H1 & H2 & H3). apply Hn. split_and!; [by apply HE|done|]. intros kv' Hkv'%HE. by apply H3.
  - intros Hnone. apply Hno. intros kv Hkv%HE. by apply Hnone.
Qed.

(** A later number comes first. *)
Lemma later_kv_lt a b : ukey a = ukey b -> seq_of b < seq_of a -> kv_lt a b.
Proof.
  intros Hu Hs. unfold kv_lt, clt. rewrite InternalCompare_lex. unfold flip, ukey in *. rewrite Hu, Compare_refl. simpl.
  apply Z.compare_lt_iff. unfold seq_of in Hs. rewrite !Z.shiftr_div_pow2 in Hs by lia.
  destruct (Z.lt_ge_cases (ikey_num (fst b)) (ikey_num (fst a))) as [|Hge]; [done|].
  pose proof (Z.div_le_mono _ _ (2 ^ 8) ltac:(lia) Hge). lia.
Qed.

(** The first entry of a user key in a sorted list is its newest. *)
Lemma sorted_lookup_newest kvs u :
  StronglySorted kv_lt kvs ->
  match table_lookup kvs u with
  | Some kv => newest_of (fun kv => kv ∈ kvs) u kv
  | None => forall kv, kv ∈ kvs -> ukey kv <> u
  end.
Proof.
  induction 1 as [|x l Hs IH Hf]; [intros kv Hkv; by apply not_elem_of_nil in Hkv|]. rewrite table_lookup_cons.
  destruct (decide (ukey x = u)) as [<-|Hne].
  - split_and!; [by left|done|]. intros kv' [->|Hkv']%elem_of_cons _; [apply kv_le_refl|].
    rewrite Forall_forall in Hf. by apply kv_lt_le, Hf.
  - destruct (table_lookup l u) as [kv|].
    + destruct IH as (H1 & H2 & H3). split_and!; [by right|done|]. intros kv' [->|Hkv']%elem_of_cons Hu; [done|by apply H3].
    + intros kv [->|Hkv]%elem_of_cons; [done|by apply IH].
Qed.
End Contents.

(** ** The invariant *)

Section Invariant.
Context `{UserComparator} {M WLog L0 LN C Rep : Type}.
Context `{!ManifestOps M} `{!OnceLog WLog} `{!CircularLog L0} `{!FragmentedLog LN} `{!Cache C} `{!MemTableRep Rep}.
Context (name : bytes) (lba_size zone_cap : Z) (fresh : SSZoneMetaData) (mem_at : Z -> bytes) (NDEBUG : bool).
Context (rest : Handler (inserter (Rep := Rep))).
Context (usage : MemTable (Rep := Rep) -> Z) (max_write_buffer_size_ : Z) (status : EntryStatus).
Context `{!CacheLaws C} `{!MemTableRepLaws Rep} (l0_min l0_max ln_min ln_max : Z).
Context `{!CircularLogLaws L0 lba_size (l0_min * zone_cap) (l0_max * zone_cap)}.
Context `{!FragmentedLogLaws LN (zone_cap * lba_size) ln_min ln_max}.
Context (HL : 0 < lba_size) (Hzc : 0 < zone_cap) (Hl0 : 0 <= l0_min <= l0_max) (Hln : 0 <= ln_min <= ln_max).
Context (Hbig0 : l0_max * zone_cap * lba_size < 2 ^ 60) (Hbig : ln_max * zone_cap * lba_size < 2 ^ 60).
Context (Hcont : forall x, h_Continue rest x = true).

Abbreviation Manager := (TropoSSTableManager L0 LN).
Abbreviation VS := (TropoVersionSet M Manager).
Abbreviation TC := (TropoTableCache C Manager).
Abbreviation DB := (TropoDBImpl WLog Rep VS TC).
Abbreviation Stripe := (stripe WLog Rep).
Abbreviation entries := (TropoMemtable_entries (Rep := Rep)).
Abbreviation cached := (cached_table lba_size zone_cap l0_min l0_max ln_min ln_max).
Abbreviation cache_ok := (cache_inv l0_min l0_max ln_min ln_max).
Implicit Types (db : DB) (st : Stripe) (vs : VS) (contents : Z -> list KV).

(** The tables of the current version: well formed, on the device, and with
    numbers below the counters; numbers that were not given out have no entries. *)
Record tables_inv contents vs (tc : TC) : Prop := {
  ti_version : version_ok (current vs) (by_number contents);
  ti_numbers : forall l, 0 <= l < level_count -> NoDup (m_number <$> level_tables (v_ss (current vs)) l);
  ti_below : forall l m, 0 <= l < level_count -> m ∈ level_tables (v_ss (current vs)) l -> m_number m < vs_ss_number vs;
  ti_l0_below : forall m, m ∈ level_tables (v_ss (current vs)) 0 -> m_L0_number m < vs_ss_number_l0 vs;
  ti_unused : forall n, vs_ss_number vs <= n -> contents n = [];
  ti_counters : 0 <= vs_ss_number vs /\ 0 <= vs_ss_number_l0 vs;
  ti_tables : forall l m, 0 <= l < level_count -> m ∈ level_tables (v_ss (current vs)) l ->
    cached contents tc l m (contents (m_number m));
  ti_cache : cache_ok contents tc;
  ti_manager : tcs_ssmanager tc = vs_ss_manager vs;
  ti_pointers : blen (vs_compact_pointer vs) = level_count
}.

(** The memtables: what is in memory is newer than what is in the tables, and the
    memtable newer than the one that is being flushed. *)
Record memory_inv contents db st : Prop := {
  me_one : stripes db = [st];
  me_mem : mem_inv (mem_ st);
  me_first : mt_first_seqno (mem_ st) <= vs_last_sequence (versions_ db);
  me_imm : forall imm, imm_ st = Some imm -> mem_inv imm;
  me_last : 0 <= vs_last_sequence (versions_ db) <= kMaxSequenceNumber;
  me_seq : forall kv, db_entry contents db st kv -> seq_of kv <= vs_last_sequence (versions_ db);
  me_mem_imm : forall imm kv kv', imm_ st = Some imm -> kv ∈ entries (mem_ st) -> kv' ∈ entries imm -> seq_of kv' < seq_of kv;
  me_newer : forall kv kv', kv ∈ in_memory st -> entry_in (current (versions_ db)) (by_number contents) kv' ->
    ukey kv = ukey kv' -> kv_lt kv kv'
}.

Definition db_inv contents db st : Prop := tables_inv contents (versions_ db) (table_cache_ db) /\ memory_inv contents db st.

(** The store stands for the map [f]. *)
Definition db_map contents db st (f : bytes -> option bytes) : Prop := stands_for (db_entry contents db st) f.

(** What the steps of the store keep of its tables: new numbers for new tables, the upper
    levels, and level 0 up to tables with newer entries than those of the version. *)
Record grows contents vs contents' vs' : Prop := {
  gr_number : vs_ss_number vs <= vs_ss_number vs';
  gr_contents : forall n, n < vs_ss_number vs -> contents' n = contents n;
  gr_upper : forall l, 1 <= l < level_count -> level_tables (v_ss (current vs')) l = level_tables (v_ss (current vs)) l;
  gr_l0 : forall m, m ∈ level_tables (v_ss (current vs)) 0 -> m ∈ level_tables (v_ss (current vs')) 0;
  gr_new : forall m, m ∈ level_tables (v_ss (current vs')) 0 -> m ∈ level_tables (v_ss (current vs)) 0 \/
    (vs_ss_number vs <= m_number m /\ forall kv kv', kv ∈ contents' (m_number m) ->
       entry_in (current vs) (by_number contents) kv' -> ukey kv = ukey kv' -> kv_lt kv kv');
  gr_ln : mg_ln (vs_ss_manager vs') = mg_ln (vs_ss_manager vs);
  gr_versions : vs_versions vs' = vs_versions vs \/ vs_versions vs' = vs_versions (AppendVersion vs (current vs'))
}.

Lemma grows_same contents vs vs' :
  vs_ss_number vs' = vs_ss_number vs -> vs_versions vs' = vs_versions vs -> mg_ln (vs_ss_manager vs') = mg_ln (vs_ss_manager vs) ->
  grows contents vs contents vs'.
Proof. intros En Ev Em. constructor; try done; [by rewrite En|unfold current; rewrite Ev..|by left]; try done. by left. Qed.

(** ** Lookups *)

(** What lookups need of the memtables: an entry may also be in a table. *)
Record read_inv contents db st : Prop := {
  ri_one : stripes db = [st];
  ri_mem : mem_inv (mem_ st);
  ri_imm : forall imm, imm_ st = Some imm -> mem_inv imm;
  ri_last : 0 <= vs_last_sequence (versions_ db) <= kMaxSequenceNumber;
  ri_seq : forall kv, db_entry contents db st kv -> seq_of kv <= vs_last_sequence (versions_ db);
  ri_mem_imm : forall imm kv kv', imm_ st = Some imm -> kv ∈ entries (mem_ st) -> kv' ∈ entries imm -> seq_of kv' < seq_of kv;
  ri_newer : forall kv kv', kv ∈ in_memory st -> entry_in (current (versions_ db)) (by_number contents) kv' ->
    ukey kv = ukey kv' -> kv' ∈ in_memory st \/ kv_lt kv kv'
}.

Lemma memory_read contents db st : memory_inv contents db st -> read_inv contents db st.
Proof. intros []. constructor; try done. intros kv kv' Hk Hk' Hu. right. by apply me_newer0. Qed.

Lemma mem_get m u last tmp s q :
  mem_inv m -> valid_seq last -> (forall kv, kv ∈ entries m -> seq_of kv <= last) ->
  TropoMemtable_Get m (newLookupKey u last) tmp s q =
  mem_answer (table_lookup (entries m) u) tmp s (if IsEmpty m then q else kMaxSequenceNumber).
Proof.
  intros Hm Hl Hs. rewrite Get_spec by done. do 2 f_equal. by apply filter_all.
Qed.

(** The answer of a memtable that has the key. *)
Lemma mem_answer_found m u kv tmp s q :
  mem_inv m -> table_lookup (entries m) u = Some kv -> tmp = [] ->
  exists q', mem_answer (Some kv) tmp s q = (true, snd (answer (value_of kv)), fst (answer (value_of kv)), q').
Proof.
  intros [_ _ He] Hk ->. pose proof (sorted_lookup_newest (entries m) u (rep_sorted _)) as Hn. rewrite Hk in Hn.
  destruct Hn as (Hin & _ & _). rewrite Forall_forall in He. destruct (He kv Hin) as (q0 & up & -> & Hq).
  destruct (entry_of_parts q0 up Hq) as (_ & _ & Hp). unfold mem_answer, value_of. rewrite Hp. cbn [pik_type].
  eexists. destruct up; cbn; done.
Qed.

(** What the memtables answer. *)
Lemma get_mems_spec contents db st u g :
  read_inv contents db st -> g_found g = false -> g_tmp g = [] -> g_value g = [] ->
  let g' := get_mems (stripes db) (newLookupKey u (vs_last_sequence (versions_ db))) g in
  match table_lookup (entries (mem_ st)) u, imm_ st ≫= fun imm => table_lookup (entries imm) u with
  | Some kv, _ | None, Some kv => g_found g' = true /\ (g_s g', g_value g') = answer (value_of kv)
  | None, None => g_found g' = false /\ g_value g' = []
  end.
Proof.
  intros [Hone Hmem Himm Hlast Hseq _ _] Hgf Hgt Hgv. rewrite Hone. cbn [get_mems]. cbv zeta.
  assert (Hv : valid_seq (vs_last_sequence (versions_ db))) by (unfold valid_seq; lia).
  assert (Hs1 : forall kv, kv ∈ entries (mem_ st) -> seq_of kv <= vs_last_sequence (versions_ db))
    by (intros kv Hkv; apply Hseq; left; unfold in_memory; set_solver).
  rewrite (mem_get _ u _ _ _ _ Hmem Hv Hs1), Hgt.
  destruct (table_lookup (entries (mem_ st)) u) as [kv|] eqn:Em; cbn [mbind option_bind].
  { match goal with |- context [mem_answer (Some kv) [] _ ?q] =>
      destruct (mem_answer_found _ _ _ [] (g_s g) q Hmem Em eq_refl) as [q' ->] end.
    unfold take_answer. rewrite Hgf. cbn. by destruct (answer (value_of kv)). }
  cbn [mem_answer take_answer]. destruct (imm_ st) as [imm|] eqn:Ei; cbn [mbind option_bind]; [|done].
  assert (Hs2 : forall kv, kv ∈ entries imm -> seq_of kv <= vs_last_sequence (versions_ db))
    by (intros kv Hkv; apply Hseq; left; unfold in_memory; rewrite Ei; set_solver).
  cbn [g_tmp g_s g_pot]. rewrite (mem_get _ u _ _ _ _ (Himm _ eq_refl) Hv Hs2).
  destruct (table_lookup (entries imm) u) as [kv|] eqn:Em'; cbn [mbind option_bind].
  - match goal with |- context [mem_answer (Some kv) [] _ ?q] =>
      destruct (mem_answer_found _ _ _ [] (g_s g) q (Himm _ eq_refl) Em' eq_refl) as [q' ->] end.
    unfold take_answer. rewrite Hgf. cbn. by destruct (answer (value_of kv)).
  - cbn. by rewrite Hgf, Hgv.
Qed.

Lemma memory_newest contents db st u kv :
  read_inv contents db st ->
  (newest_of (fun kv => kv ∈ entries (mem_ st)) u kv \/
   (forall kv', kv' ∈ entries (mem_ st) -> ukey kv' <> u) /\
   exists imm, imm_ st = Some imm /\ newest_of (fun kv => kv ∈ entries imm) u kv) ->
  newest_of (db_entry contents db st) u kv.
Proof.
  intros [_ _ _ _ _ Hmi Hnew] Hn. unfold newest_of.
  assert (Hin : kv ∈ in_memory st /\ ukey kv = u /\ forall kv', kv' ∈ in_memory st -> ukey kv' = u -> kv_le kv kv').
  { unfold in_memory. destruct Hn as [(H1 & H2 & H3)|(Hno & imm & -> & H1 & H2 & H3)].
    - split_and!; [set_solver|done|]. intros kv' [Hk|Hk]%elem_of_app Hu; [by apply H3|].
      destruct (imm_ st) as [imm|] eqn:Ei; [|by apply not_elem_of_nil in Hk].
      apply kv_lt_le, later_kv_lt; [congruence|]. by eapply Hmi.
    - split_and!; [set_solver|done|]. intros kv' [Hk|Hk]%elem_of_app Hu; [|by apply H3]. by destruct (Hno kv'). }
  destruct Hin as (H1 & H2 & H3). split_and!; [by left|done|]. intros kv' [Hk|Hk] Hu; [by apply H3|].
  destruct (Hnew kv kv' H1 Hk ltac:(congruence)) as [Hin|Hlt]; [by apply H3|by apply kv_lt_le].
Qed.

(** The table cache over a manager that others share. *)
Definition shared_laws contents (mg : Manager) : TableCacheLaws (TableCache0 := table_cache_ops lba_size zone_cap status) TC.
Proof.
  refine {| tc_inv := fun tc => cache_ok contents tc /\ tcs_ssmanager tc = mg; tc_table := cached contents |}.
  intros tc m level kvs key value [Hinv Hmg] Ht.
  destruct (tc_get_ok lba_size zone_cap status l0_min l0_max ln_min ln_max HL Hzc Hl0 Hln Hbig0 Hbig contents tc m level kvs key value Hinv Ht)
    as (tc' & H1 & H2 & H3).
  exists tc'. split_and!; [done|congruence| |done]. intros l m' k. unfold cached_table. by rewrite H2.
Defined.

Lemma no_memory_entry contents db st u :
  read_inv contents db st -> table_lookup (entries (mem_ st)) u = None ->
  (imm_ st ≫= fun imm => table_lookup (entries imm) u) = None -> forall kv, kv ∈ in_memory st -> ukey kv <> u.
Proof.
  intros _ Hm Hi kv [Hkv|Hkv]%elem_of_app.
  - pose proof (sorted_lookup_newest (entries (mem_ st)) u (rep_sorted _)) as Hn. rewrite Hm in Hn. by apply Hn.
  - destruct (imm_ st) as [imm|]; [|by apply not_elem_of_nil in Hkv]. cbn in Hi.
    pose proof (sorted_lookup_newest (entries imm) u (rep_sorted _)) as Hn. rewrite Hi in Hn. by apply Hn.
Qed.

(** A lookup in the memtables finds the newest entry of the store. *)
Lemma memory_lookup contents db st u kv :
  read_inv contents db st ->
  table_lookup (entries (mem_ st)) u = Some kv \/
  (table_lookup (entries (mem_ st)) u = None /\ (imm_ st ≫= fun imm => table_lookup (entries imm) u) = Some kv) ->
  newest_of (db_entry contents db st) u kv.
Proof.
  intros Hm Hl. apply memory_newest; [done|]. pose proof (sorted_lookup_newest (entries (mem_ st)) u (rep_sorted _)) as Hn.
  destruct Hl as [E|[E E']]; rewrite E in Hn; [by left|right]. split; [done|].
  destruct (imm_ st) as [imm|]; [|done]. cbn in E'. exists imm. split; [done|].
  pose proof (sorted_lookup_newest (entries imm) u (rep_sorted _)) as Hn'. by rewrite E' in Hn'.
Qed.

Lemma set_cache_inv contents vs (tc tc' : TC) :
  cache_ok contents tc' -> tcs_ssmanager tc' = vs_ss_manager vs ->
  (forall l m k, cached contents tc l m k -> cached contents tc' l m k) ->
  tables_inv contents vs tc -> tables_inv contents vs tc'.
Proof. intros Hc Hm Hk []. constructor; try done. intros l m Hl Hm'. by apply Hk, ti_tables0. Qed.

Lemma db_Get_read contents db st f u garbage :
  tables_inv contents (versions_ db) (table_cache_ db) -> read_inv contents db st -> db_map contents db st f ->
  exists tc, db_Get lba_size zone_cap status db u garbage = Some (fst (answer (f u)), snd (answer (f u)), set_cache db tc) /\
    tables_inv contents (versions_ db) tc.
Proof.
  intros Ht Hm Hf. unfold db_Get. destruct (Hf u) as [Hnew Hnone].
  pose proof (get_mems_spec contents db st u (mkGet false garbage [] OK [] garbage) Hm eq_refl eq_refl eq_refl) as Hg.
  cbv zeta in Hg. set (g := get_mems _ _ _) in *.
  assert (Hfound : forall kv, table_lookup (entries (mem_ st)) u = Some kv \/
    (table_lookup (entries (mem_ st)) u = None /\ (imm_ st ≫= fun imm => table_lookup (entries imm) u) = Some kv) ->
    g_found g = true -> (g_s g, g_value g) = answer (value_of kv) ->
    exists tc, (if g_found g then Some (g_s g, g_value g, db) else
      '(tc, s, value) ← Get (TableCache0 := table_cache_ops lba_size zone_cap status) (table_cache_ db) (current (versions_ db))
        (newLookupKey u (vs_last_sequence (versions_ db))) (g_value g); Some (s, value, set_cache db tc)) =
      Some (fst (answer (f u)), snd (answer (f u)), set_cache db tc) /\ tables_inv contents (versions_ db) tc).
  { intros kv Hl Hgf Ha. exists (table_cache_ db). rewrite Hgf, (Hnew kv (memory_lookup _ _ _ _ _ Hm Hl)), <-Ha. cbn.
    split; [by destruct db|done]. }
  destruct (table_lookup (entries (mem_ st)) u) as [kv|] eqn:Em; [destruct Hg; by eapply Hfound; [left|..]|].
  destruct (imm_ st ≫= fun imm => table_lookup (entries imm) u) as [kv|] eqn:Ei; [destruct Hg; by eapply Hfound; [right|..]|].
  clear Hfound. destruct Hg as [-> ->]. pose proof (no_memory_entry _ _ _ _ Hm Em Ei) as Hno.
  destruct (Get_newest (TableCacheLaws0 := shared_laws contents (vs_ss_manager (versions_ db))) (current (versions_ db)) (by_number contents)
    (table_cache_ db) u (vs_last_sequence (versions_ db)) []) as (tc & [Hc Hmg] & Hk & Hans); [apply Ht|split; apply Ht|apply Ht|].
  exists tc. split; [|by apply (set_cache_inv contents _ (table_cache_ db))].
  destruct Hans as [(kv & ((l & m & Hl & Hlm & Hkv) & Hu & Hall) & ->)|[Hn ->]]; obind.
  - rewrite (Hnew kv), key_answer_value; [done|]. split_and!; [right; by exists l, m|done|].
    intros kv' [Hk'|(l' & m' & Hl' & Hm' & Hk')] Hu'; [by destruct (Hno kv' Hk')|by apply (Hall l' m')].
  - rewrite Hnone; [done|]. intros kv [Hk'|(l' & m' & Hl' & Hm' & Hk')]; [by apply Hno|by apply (Hn l' m')].
Qed.

Lemma db_Get_spec contents db st f u garbage :
  db_inv contents db st -> db_map contents db st f ->
  exists tc, db_Get lba_size zone_cap status db u garbage = Some (fst (answer (f u)), snd (answer (f u)), set_cache db tc) /\
    db_inv contents (set_cache db tc) st.
Proof.
  intros [Ht Hm] Hf. destruct (db_Get_read contents db st f u garbage Ht (memory_read _ _ _ Hm) Hf) as (tc & HG & Ht').
  exists tc. split; [done|]. split; [done|]. destruct Hm. by constructor.
Qed.

(** ** Writes *)

(** The batch of a writer is that of its updates; a writer without a batch has none. *)
Definition writes (w : option bytes) (us : list update) : Prop :=
  match w with Some b => exists q, b = batch_of q us | None => us = [] end.

Lemma batch_group_spec writers uss q0 us0 q us merged size max_size :
  Forall2 writes writers uss -> blen us + blen (concat uss) < 2 ^ 32 -> (merged = false -> q = q0 /\ us = us0) ->
  exists q' n, batch_group writers (batch_of q0 us0) (batch_of q us) merged size max_size =
    Some (batch_of q' (us ++ concat (take n uss)), n) /\ (n <= length writers)%nat.
Proof.
  intros Hw. revert q us merged size. induction Hw as [|w us1 writers uss Hw1 Hw IH]; intros q us merged size Hn Hm; cbn [batch_group].
  { exists q, 0%nat. cbn. by rewrite app_nil_r. }
  cbn [concat] in Hn. rewrite blen_app in Hn. pose proof (blen_nonneg us) as H1. pose proof (blen_nonneg us1) as H2. pose proof (blen_nonneg (concat uss)) as H3.
  destruct w as [b|]; cbn in Hw1.
  - destruct Hw1 as [q1 ->]. destruct (max_size <? _); [exists q, 0%nat; cbn; rewrite app_nil_r; split; [done|lia]|].
    assert (Hr : exists q2, (if merged then Some (batch_of q us) else '(_, t) ← batch_Append newWriteBatch (batch_of q0 us0); Some t) =
      Some (batch_of q2 us)).
    { destruct merged; [by exists q|]. destruct (Hm eq_refl) as [-> ->]. exists 0.
      rewrite newWriteBatch_of, batch_Append_spec by (change (blen []) with 0; lia). done. }
    destruct Hr as [q2 ->]. obind. rewrite batch_Append_spec by lia. obind.
    destruct (IH q2 (us ++ us1) true (u64 (size + blen (batch_of q1 us1)))) as (q' & n & -> & Hle); [rewrite blen_app; lia|done|].
    obind. exists q', (S n). cbn. rewrite <-app_assoc. split; [done|]. lia.
  - subst us1. change (blen []) with 0 in Hn. destruct (IH q us merged size ltac:(lia) Hm) as (q' & n & -> & Hle). obind.
    exists q', (S n). cbn. split; [done|]. lia.
Qed.

Lemma entries_from_app seq us us' : entries_from seq (us ++ us') = entries_from seq us ++ entries_from (seq + blen us) us'.
Proof.
  revert seq. induction us as [|u us IH]; intros seq; [change (blen []) with 0; cbn; by rewrite Z.add_0_r|].
  cbn. rewrite IH, blen_cons. do 3 f_equal. lia.
Qed.

Lemma value_of_entry seq u :
  0 < seq <= kMaxSequenceNumber -> value_of (entry_of seq u) = match u with UPut _ v => Some v | UDelete _ => None end.
Proof. intros Hs. unfold value_of. destruct (entry_of_parts seq u Hs) as (_ & _ & ->). by destruct u. Qed.

(** Entries with later numbers update the map. *)
Lemma stands_for_update (E : KV -> Prop) f seq u :
  0 < seq <= kMaxSequenceNumber -> (forall kv, E kv -> seq_of kv < seq) -> stands_for E f ->
  stands_for (fun kv => kv = entry_of seq u \/ E kv) (update_map f u).
Proof.
  intros Hs Hlt Hf k. destruct (entry_of_parts seq u Hs) as (Eseq & Ekey & _). set (new := entry_of seq u) in *.
  assert (Hmap : update_map f u k = if decide (k = update_key u) then value_of new else f k).
  { unfold new. rewrite value_of_entry by done. by destruct u. }
  rewrite Hmap. destruct (decide (k = update_key u)) as [->|Hne].
  - split.
    + intros kv (H1 & H2 & H3). destruct H1 as [->|H1]; [done|]. exfalso.
      assert (Hlt' : kv_lt new kv) by (apply later_kv_lt; [congruence|rewrite Eseq; by apply Hlt]).
      specialize (H3 new (or_introl eq_refl) Ekey). by apply (clt_nle InternalCompare) in Hlt'.
    + intros Hno. by destruct (Hno new (or_introl eq_refl)).
  - destruct (Hf k) as [Hnew Hnone]. split.
    + intros kv (H1 & H2 & H3). apply Hnew. split_and!; [|done|].
      * destruct H1 as [->|?]; [congruence|done].
      * intros kv' Hk'. apply H3. by right.
    + intros Hno. apply Hnone. intros kv Hk. apply Hno. by right.
Qed.

Lemma stands_for_updates us (E : KV -> Prop) f seq :
  0 < seq -> seq + blen us <= kMaxSequenceNumber + 1 -> (forall kv, E kv -> seq_of kv < seq) -> stands_for E f ->
  stands_for (fun kv => kv ∈ entries_from seq us \/ E kv) (update_all f us).
Proof.
  revert E f seq. induction us as [|u us IH]; intros E f seq Hs Hmax Hlt Hf.
  { eapply stands_for_ext; [|exact Hf]. intros kv. split; [by right|]. intros [Hk%not_elem_of_nil|]; done. }
  rewrite blen_cons in Hmax. pose proof (blen_nonneg us).
  pose proof (stands_for_update E f seq u ltac:(lia) Hlt Hf) as Hf1.
  assert (Hlt1 : forall kv, kv = entry_of seq u \/ E kv -> seq_of kv < seq + 1).
  { intros kv [->|Hk]; [destruct (entry_of_parts seq u ltac:(lia)) as (-> & _); lia|specialize (Hlt kv Hk); lia]. }
  pose proof (IH _ _ (seq + 1) ltac:(lia) ltac:(lia) Hlt1 Hf1) as Hf2.
  eapply stands_for_ext; [|exact Hf2]. intros kv. cbn. rewrite elem_of_cons. tauto.
Qed.

(** The store with another memtable and sequence number. *)
Definition rewritten db st (db' : DB) (st' : Stripe) (last : Z) : Prop :=
  stripes db' = [st'] /\ imm_ st' = imm_ st /\ table_cache_ db' = table_cache_ db /\
  versions_ db' = set_numbers (versions_ db) last (vs_ss_number (versions_ db)) (vs_ss_number_l0 (versions_ db)).

Lemma rewritten_entry contents db st db' st' last us seq kv :
  rewritten db st db' st' last -> entries (mem_ st') ≡ₚ entries_from seq us ++ entries (mem_ st) ->
  db_entry contents db' st' kv <-> kv ∈ entries_from seq us \/ db_entry contents db st kv.
Proof.
  intros (_ & Ei & _ & Ev) Hp. unfold db_entry, in_memory. rewrite Ei, Ev, Hp, !elem_of_app.
  change (current (set_numbers (versions_ db) last _ _)) with (current (versions_ db)). tauto.
Qed.

Lemma rewritten_inv contents db st f db' st' last us :
  db_inv contents db st -> db_map contents db st f -> rewritten db st db' st' last ->
  mem_inv (mem_ st') -> mt_first_seqno (mem_ st') <= last ->
  entries (mem_ st') ≡ₚ entries_from (vs_last_sequence (versions_ db) + 1) us ++ entries (mem_ st) ->
  vs_last_sequence (versions_ db) + blen us <= last <= kMaxSequenceNumber ->
  db_inv contents db' st' /\ db_map contents db' st' (update_all f us).
Proof.
  intros [Ht Hm] Hf Hrw Hmem' Hfirst Hp Hlast. pose proof (blen_nonneg us) as Hus.
  assert (Hent : forall kv, db_entry contents db' st' kv <->
    kv ∈ entries_from (vs_last_sequence (versions_ db) + 1) us \/ db_entry contents db st kv) by (intros; by eapply rewritten_entry).
  destruct Hrw as (Est & Ei & Etc & Ev). destruct Hm as [Hone Hmem Hfst Himm Hl Hseq Hmi Hnew].
  assert (Hfrom : forall kv, kv ∈ entries_from (vs_last_sequence (versions_ db) + 1) us ->
    vs_last_sequence (versions_ db) < seq_of kv <= last).
  { intros kv (i & u & Hi & ->)%entries_from_elem. apply lookup_lt_Some in Hi.
    assert (Z.of_nat i < blen us) by (unfold blen; lia).
    destruct (entry_of_parts (vs_last_sequence (versions_ db) + 1 + Z.of_nat i) u ltac:(lia)) as (-> & _). lia. }
  split; [split|].
  - rewrite Ev, Etc. destruct Ht. by constructor.
  - constructor; [done|done| | | | | |].
    + by rewrite Ev.
    + by rewrite Ei.
    + rewrite Ev. cbn. lia.
    + rewrite Ev. cbn. intros kv [Hk|Hk]%Hent; [by apply Hfrom|]. specialize (Hseq kv Hk). lia.
    + rewrite Ei. intros imm kv kv' E Hk Hk'. rewrite Hp, elem_of_app in Hk. destruct Hk as [Hk|Hk]; [|by eapply Hmi].
      assert (seq_of kv' <= vs_last_sequence (versions_ db)).
      { apply Hseq. left. unfold in_memory. rewrite E. set_solver. }
      specialize (Hfrom kv Hk). lia.
    + rewrite Ev. change (current (set_numbers (versions_ db) last _ _)) with (current (versions_ db)).
      intros kv kv' Hk Hk' Hu. unfold in_memory in Hk. rewrite Hp, Ei, <-app_assoc, elem_of_app in Hk.
      destruct Hk as [Hk|Hk]; [|by apply Hnew]. apply later_kv_lt; [done|].
      assert (seq_of kv' <= vs_last_sequence (versions_ db)) by (apply Hseq; by right). specialize (Hfrom kv Hk). lia.
  - eapply stands_for_ext; [intros kv; symmetry; apply Hent|]. apply stands_for_updates; [lia|lia| |done].
    intros kv Hk. specialize (Hseq kv Hk). lia.
Qed.

(** *** The write itself *)

Context `{!OnceLogLaws WLog} (HL16 : 16 <= lba_size <= 2 ^ 24) (Hmem : forall n, 0 <= n -> blen (mem_at n) = n).

(** The current log of the stripe, with its entries. *)
Definition current_wal st (c : nat) (r : wal_ref WLog) (es : list (Z * bytes)) : Prop :=
  wal_ st = Some c /\ wals_ (wal_man_ st) !! c = Some r /\ wal_holds lba_size (wr_wal r) es.

(** The group: the batches of the first writers, in order. *)
Lemma BuildBatchGroup_spec space q0 us0 writers uss :
  Forall2 writes writers uss -> blen (us0 ++ concat uss) < 2 ^ 32 ->
  exists q n us', BuildBatchGroup max_write_buffer_size_ space (batch_of q0 us0) writers = Some (batch_of q (us0 ++ concat (take n uss)), n) /\
    (n <= length writers)%nat /\ us0 ++ concat uss = (us0 ++ concat (take n uss)) ++ us'.
Proof.
  intros Hws Hn. rewrite blen_app in Hn. unfold BuildBatchGroup.
  destruct (batch_group_spec writers uss q0 us0 q0 us0 false (blen (batch_of q0 us0))
    (if space <? u64 (max_write_buffer_size_ - 512) then space else u64 (max_write_buffer_size_ - 512))
    Hws Hn (fun _ => conj eq_refl eq_refl)) as (q & n & -> & Hle).
  exists q, n, (concat (drop n uss)). split_and!; [done|done|]. by rewrite <-app_assoc, <-concat_app, take_drop.
Qed.

(** The memtable takes a batch whose numbers follow [last]. *)
Lemma write_memtable m last us :
  mem_inv m -> (forall kv, kv ∈ entries m -> seq_of kv <= last) -> mt_first_seqno m <= last -> 0 <= last ->
  Forall update_fits us -> blen us < 2 ^ 32 -> last + blen us <= kMaxSequenceNumber ->
  exists m', TropoMemtable_Write NDEBUG rest m (batch_of (last + 1) us) = Some (OK, m') /\ mem_inv m' /\
    entries m' ≡ₚ entries_from (last + 1) us ++ entries m /\ mt_first_seqno m' <= last + blen us.
Proof.
  intros Hm Hs Hf H0' Hfits Hn Hmax.
  destruct (Memtable.Write_spec NDEBUG rest Hcont us m (last + 1)) as (m' & Hw & Hi & Hp & Hfirst); [done|done|lia|lia|lia| |right; lia|].
  { intros kv Hkv. left. specialize (Hs kv Hkv). lia. }
  exists m'. split_and!; [done..|]. pose proof (blen_nonneg us). destruct Hfirst as [->|[E0 E1]]; [lia|].
  destruct us as [|u us]; [|rewrite blen_cons in *; pose_blen; lia].
  apply (mi_first _ Hm) in E0. cbn in Hp. rewrite E0 in Hp. apply Permutation_nil_r in Hp.
  rewrite (proj2 (mi_first _ Hi) Hp). lia.
Qed.

(** The numbers of a group that is written. *)
Lemma group_numbers (last : Z) (us : list update) :
  0 <= last -> last + blen us <= kMaxSequenceNumber -> u64 (last + 1) = last + 1 /\ u64 (last + blen us) = last + blen us.
Proof.
  intros Hl Hmax. pose proof (blen_nonneg us).
  assert (kMaxSequenceNumber = 2 ^ 56 - 1) by (unfold kMaxSequenceNumber; by rewrite Z.shiftl_1_l).
  by rewrite !u64_small by word.
Qed.

(** What the callers of [Write] have to observe. *)
Record group_ok vs us0 (writers : list (option bytes)) (uss : list (list update)) : Prop := {
  go_writers : Forall2 writes writers uss;
  go_fits : Forall update_fits (us0 ++ concat uss);
  go_count : blen (us0 ++ concat uss) < 2 ^ 32;
  go_last : vs_last_sequence vs + blen (us0 ++ concat uss) <= kMaxSequenceNumber;
  go_record : 22 + blen (batch_of 0 (us0 ++ concat uss)) <= max_record lba_size
}.

(** The size of a part of the group. *)
Lemma record_part q us us' :
  22 + blen (batch_of 0 (us ++ us')) <= max_record lba_size -> 22 + blen (batch_of q us) <= max_record lba_size.
Proof.
  intros Hrec. rewrite batch_of_length in *. unfold enc_updates in Hrec |- *. rewrite fmap_app, concat_app, blen_app in Hrec. pose_blen. lia.
Qed.

(** A write, given what the log answers. *)
Lemma db_Write_result contents db st f c r sync q0 us0 writers uss :
  db_inv contents db st -> db_map contents db st f -> wal_ st = Some c -> wals_ (wal_man_ st) !! c = Some r ->
  group_ok (versions_ db) us0 writers uss ->
  exists n, (n <= length writers)%nat /\ let us := us0 ++ concat (take n uss) in
  let b := batch_of (vs_last_sequence (versions_ db) + 1) us in
  22 + blen b <= max_record lba_size /\
  (Forall update_fits us /\ blen us < 2 ^ 32 /\ vs_last_sequence (versions_ db) + blen us <= kMaxSequenceNumber) /\
  match Append lba_size mem_at (wr_wal r) b sync with
  | None => Write lba_size mem_at NDEBUG rest max_write_buffer_size_ db 0 sync (batch_of q0 us0) writers = None
  | Some (s, w) => exists db' st',
      Write lba_size mem_at NDEBUG rest max_write_buffer_size_ db 0 sync (batch_of q0 us0) writers = Some (s, n, db') /\
      db_inv contents db' st' /\ db_map contents db' st' (if ok s then update_all f us else f) /\
      wal_ st' = Some c /\ wal_man_ st' = set_wal (wal_man_ st) c w /\ imm_ st' = imm_ st /\
      versions_ db' = set_numbers (versions_ db) (vs_last_sequence (versions_ db) + blen us) (vs_ss_number (versions_ db))
        (vs_ss_number_l0 (versions_ db)) /\
      (s = OK -> entries (mem_ st') ≡ₚ entries_from (vs_last_sequence (versions_ db) + 1) us ++ entries (mem_ st))
  end.
Proof.
  intros Hinv Hf Hw Hr [Hws Hfits Hn Hlast Hrec]. pose proof Hinv as [Ht [Hone Hmm Hfst _ Hl Hseq _ _]].
  unfold Write. rewrite Hone. cbn [lookup list_lookup]. obind. rewrite Hw. obind. rewrite Hr. obind.
  destruct (BuildBatchGroup_spec (ol_SpaceAvailable (w_log (wr_wal r))) q0 us0 writers uss Hws Hn) as (q & n & us' & -> & Hle & Hpre).
  exists n. split; [done|]. cbv zeta. obind. set (us := us0 ++ concat (take n uss)) in *. rewrite Hpre in Hfits, Hrec, Hn, Hlast.
  rewrite blen_app in Hn, Hlast. apply Forall_app in Hfits as [Hfits _].
  pose proof (blen_nonneg us) as Hz. pose proof (blen_nonneg us') as Hz'. set (last := vs_last_sequence (versions_ db)) in *.
  destruct (group_numbers last us ltac:(lia) ltac:(lia)) as [E1 E2].
  rewrite E1, batch_of_SetSequence. obind. rewrite batch_of_Count by lia. obind. rewrite E2. split; [by eapply record_part|]. split; [split_and!; [done|lia..]|].
  destruct (Append lba_size mem_at (wr_wal r) (batch_of (last + 1) us) sync) as [[s w]|]; obind; [|done].
  assert (Hvs : VersionSet_SetLastSequence NDEBUG (versions_ db) (last + blen us) =
    Some (set_numbers (versions_ db) (last + blen us) (vs_ss_number (versions_ db)) (vs_ss_number_l0 (versions_ db)))).
  { unfold VersionSet_SetLastSequence, WriteBatch.assert. rewrite (proj2 (Z.leb_le _ _)) by lia. by rewrite orb_true_r. }
  assert (Hrw : forall mem, let st' := set_mem (set_wal_man (set_reserved st (blen (batch_of (last + 1) us))) (set_wal (wal_man_ st) c w)) mem in
    rewritten db st (set_versions_ (set_stripe db 0 st') (set_numbers (versions_ db) (last + blen us) (vs_ss_number (versions_ db))
      (vs_ss_number_l0 (versions_ db)))) st' (last + blen us)).
  { intros mem. split_and!; [cbn; by rewrite Hone|done|done|done]. }
  destruct (ok s) eqn:Es.
  - destruct (write_memtable (mem_ st) last us) as (m' & Hwr & Hi' & Hp & Hfirst); [done| |done|lia|done|lia|lia|].
    { intros kv Hkv. apply Hseq. left. unfold in_memory. set_solver. }
    cbn [mem_ set_wal_man set_reserved]. rewrite Hwr. obind. rewrite Hvs. obind.
    destruct (rewritten_inv contents db st f _ _ _ us Hinv Hf (Hrw m') Hi' Hfirst Hp ltac:(lia)) as [G1 G2].
    assert (s = OK) as -> by (by destruct s). eexists _, _. split; [done|]. split; [exact G1|]. split; [exact G2|]. done.
  - obind. rewrite Hvs. obind.
    destruct (rewritten_inv contents db st f _ _ _ [] Hinv Hf (Hrw (mem_ st)) Hmm) as [G1 G2];
      [cbn; lia|done|change (blen []) with 0; fold last; lia|].
    eexists _, _. split; [done|]. split; [exact G1|]. split; [exact G2|]. split_and!; try done. by intros ->.
Qed.

(** A write to a log in order returns; its log holds the batch when it succeeds. *)
Lemma db_Write_spec contents db st f c r es q0 us0 writers uss :
  db_inv contents db st -> db_map contents db st f -> current_wal st c r es -> group_ok (versions_ db) us0 writers uss ->
  exists s n db' st', Write lba_size mem_at NDEBUG rest max_write_buffer_size_ db 0 false (batch_of q0 us0) writers = Some (s, n, db') /\
    (n <= length writers)%nat /\ db_inv contents db' st' /\
    db_map contents db' st' (if ok s then update_all f (us0 ++ concat (take n uss)) else f) /\
    (s = OK -> exists r', current_wal st' c r'
      (es ++ [(w_sequence_nr (wr_wal r), batch_of (vs_last_sequence (versions_ db) + 1) (us0 ++ concat (take n uss)))])).
Proof.
  intros Hinv Hf (Hw & Hr & Hes) Hg. destruct (db_Write_result _ _ _ _ c r false q0 us0 writers uss Hinv Hf Hw Hr Hg) as (n & Hle & Hsize & _ & HW).
  cbv zeta in Hsize, HW. destruct (Append_spec lba_size HL16 mem_at Hmem _ _ _ Hes Hsize) as (s & w & Ha & Hq & Hok). rewrite Ha in HW.
  destruct HW as (db' & st' & HW & Hinv' & Hf' & Hw' & Hm' & _). exists s, n, db', st'. split_and!; try done.
  intros Hs. exists (mkRef w (wr_refs r)). split_and!; [done| |by apply Hok]. rewrite Hm'. cbn.
  by rewrite lookup_alter_wal, decide_True, Hr.
Qed.

(** ** Flushes *)

Context (Hfresh : m_L0_log_number fresh = 0).
Abbreviation stored := (l0_stored lba_size (l0_min * zone_cap) (l0_max * zone_cap) fresh).
Abbreviation keeps := (keeps_tables lba_size (l0_min * zone_cap) (l0_max * zone_cap)).
Abbreviation tables_of := (flush_tables lba_size).

(** A flush that wrote all its tables. *)
Lemma mg_flush_stored (mg : Manager) log kvs :
  mg_l0 mg = [log] -> kvs <> [] -> Forall (l0_fits lba_size) kvs ->
  exists log' metas, mg_FlushMemTable lba_size fresh mg 0 kvs = Some (OK, set_l0 mg 0 log', metas) /\
    (length metas <= length (tables_of kvs))%nat /\
    (length metas = length (tables_of kvs) -> Forall2 (stored log') metas (tables_of kvs) /\ keeps log log').
Proof.
  intros Hlog Hne Hfit. unfold mg_FlushMemTable. rewrite (proj2 (Z.ltb_lt 0 _)) by done. rewrite Hlog. change (([log] : list L0) !! Z.to_nat 0) with (Some log). obind.
  destruct (FlushMemTable_tables lba_size fresh HL log kvs Hne Hfit) as (queue & -> & Hq & Hql).
  eexists _, _. split; [done|]. rewrite <-(Forall2_length _ _ _ Hq). split; [apply flush_all_length|]. by apply flush_all_stored.
Qed.

(** The metadata as it is installed describes the same table. *)
Lemma numbered_lookup l0_number n metas i m' :
  numbered fresh l0_number n metas !! i = Some m' -> exists m, metas !! i = Some m /\
    m' = copy_definition fresh 0 (set_L0_number (set_number m (n + Z.of_nat i)) l0_number).
Proof. unfold numbered. rewrite list_lookup_imap. destruct (metas !! i) as [m|]; [|done]. intros [= <-]. by exists m. Qed.

Lemma numbered_stored log l0_number n metas tables :
  Forall2 (stored log) metas tables -> Forall2 (stored log) (numbered fresh l0_number n metas) tables.
Proof.
  intros Hf. apply Forall2_same_length_lookup. unfold numbered at 1. rewrite length_imap. split; [by eapply Forall2_length|].
  intros i m' t (m & Hm & ->)%numbered_lookup Ht. destruct (Forall2_lookup_lr _ _ _ _ _ _ Hf Hm Ht) as [(j & bs & pad & [Hb Hl Hc Hn] & E) ? ? ? ?].
  constructor; try done. exists j, bs, pad. split; [|done]. by constructor.
Qed.

Lemma numbered_numbers l0_number n metas :
  m_number <$> numbered fresh l0_number n metas = seqZ n (blen (numbered fresh l0_number n metas)) /\
  (forall m, m ∈ numbered fresh l0_number n metas -> m_L0_number m = l0_number /\ n <= m_number m < n + blen metas) /\
  blen (numbered fresh l0_number n metas) = blen metas.
Proof.
  assert (Hlen : blen (numbered fresh l0_number n metas) = blen metas) by (unfold blen, numbered; by rewrite length_imap).
  split_and!; [| |done].
  - apply list_eq. intros i. rewrite Hlen, list_lookup_fmap.
    destruct (numbered fresh l0_number n metas !! i) as [m'|] eqn:E.
    + apply lookup_lt_Some in E as Hlt. apply numbered_lookup in E as (m & Hm & ->). cbn. symmetry. apply lookup_seqZ.
      split; [done|]. apply lookup_lt_Some in Hm. unfold blen. lia.
    + symmetry. apply lookup_seqZ_ge. apply lookup_ge_None in E. unfold blen in *. lia.
  - intros m' [i Hi]%list_elem_of_lookup. apply numbered_lookup in Hi as (m & Hm & ->). cbn. split; [done|].
    apply lookup_lt_Some in Hm. unfold blen. lia.
Qed.

(** The tables of a memtable are well formed. *)
Lemma stored_table_ok log m t kvs :
  stored log m t -> (exists ts, concat ts = kvs /\ t ∈ ts) -> StronglySorted kv_lt kvs -> Forall entry_ok kvs -> table_ok m t.
Proof.
  intros [_ Hs Hl _ [Hne _]] (ts & <- & (ts1 & ts2 & ->)%list_elem_of_split) Hsort Hok. rewrite concat_app in Hsort, Hok. cbn in Hsort, Hok.
  apply StronglySorted_app_1_r, StronglySorted_app_1_l in Hsort. apply Forall_app in Hok as [_ [Hok _]%Forall_app].
  constructor; [|done|by rewrite Hs|by rewrite Hl]. eapply Forall_impl; [exact Hok|]. intros kv (q & u & -> & Hq).
  destruct (entry_of_parts q u Hq) as (_ & _ & ->). done.
Qed.

(** The entries of each number after a flush of the tables [ts] under the numbers from [first] on. *)
Definition flushed contents (first : Z) (ts : list (list KV)) (n : Z) : list KV :=
  if first <=? n then default [] (ts !! Z.to_nat (n - first)) else contents n.

(** What a flush needs: entries of a memtable that fit into tables, newer than those of the version, no
    user key in two of the tables, and numbers that do not overflow. *)
Record flushable contents vs (kvs : list KV) : Prop := {
  fl_nonempty : kvs <> [];
  fl_fits : Forall (l0_fits lba_size) kvs;
  fl_sorted : StronglySorted kv_lt kvs;
  fl_entries : Forall entry_ok kvs;
  fl_newer : forall kv kv', kv ∈ kvs -> entry_in (current vs) (by_number contents) kv' -> ukey kv = ukey kv' -> kv_lt kv kv';
  fl_unsplit : unsplit (tables_of kvs);
  fl_numbers : vs_ss_number vs + blen (tables_of kvs) < 2 ^ 64 /\ vs_ss_number_l0 vs + 1 < 2 ^ 64
}.

(** The manager with another log of level 0. *)
Lemma set_l0_tables (mg : Manager) log log' l m d :
  mg_l0 mg = [log] -> keeps log log' ->
  mg_table lba_size zone_cap l0_min l0_max ln_min ln_max mg l m d ->
  mg_table lba_size zone_cap l0_min l0_max ln_min ln_max (set_l0 mg 0 log') l m d.
Proof.
  intros Hlog Hk. unfold mg_table. destruct (l =? 0); [|done]. intros (Hn & log0 & i & bs & pad & E & Ht & Ec).
  rewrite Hlog in E. injection E as <-. split; [done|]. exists log', i, bs, pad. split_and!; [by cbn; rewrite Hlog|by apply Hk|done].
Qed.

Lemma set_l0_inv contents vs tc log log' :
  tables_inv contents vs tc -> mg_l0 (vs_ss_manager vs) = [log] -> keeps log log' ->
  tables_inv contents (set_ss_manager vs (set_l0 (vs_ss_manager vs) 0 log'))
    (mkTableCache (tcs_cache tc) (tcs_heap tc) (tcs_next tc) (set_l0 (vs_ss_manager vs) 0 log')).
Proof.
  intros [] Hlog Hk. constructor; try done.
  - intros l m Hl Hm. destruct (ti_tables0 l m Hl Hm) as (? & ? & ? & ? & pad & Hmg). split_and!; [done..|]. exists pad.
    eapply set_l0_tables; [done|done|]. by rewrite <-ti_manager0.
  - destruct ti_cache0 as [[Hw1 Hw2] Hn Hc Hi]. rewrite ti_manager0 in Hw1, Hw2. constructor; try done.
    split; [|done]. cbn. by rewrite Hlog.
Qed.

Lemma stored_mg_table (mg : Manager) log m t :
  mg_l0 mg = [log] -> stored log m t ->
  exists pad, mg_table lba_size zone_cap l0_min l0_max ln_min ln_max mg 0 m (table_image t ++ pad).
Proof.
  intros Hlog [(i & bs & pad & Ht & E) _ _ Hn _]. exists pad. unfold mg_table. cbn [Z.eqb]. split; [congruence|].
  exists log, i, bs, []. split_and!; [by rewrite Hlog|done|by rewrite app_nil_r].
Qed.

Lemma flush_ok_of contents vs tc log' metas kvs :
  tables_inv contents vs tc -> flushable contents vs kvs -> Forall2 (stored log') metas (tables_of kvs) ->
  flush_ok (current vs) (by_number contents) (vs_ss_number vs) (vs_ss_number_l0 vs)
    (numbered fresh (vs_ss_number_l0 vs) (vs_ss_number vs) metas) (tables_of kvs).
Proof.
  intros Ht Hfl Hst. destruct (numbered_numbers (vs_ss_number_l0 vs) (vs_ss_number vs) metas) as (Hn & Hm & Hlen).
  pose proof (cut_concat lba_size kvs []) as Hcat. change (concat (tables_of kvs) = kvs) in Hcat.
  constructor.
  - pose proof (numbered_stored log' (vs_ss_number_l0 vs) (vs_ss_number vs) metas _ Hst) as Hst'.
    apply Forall2_same_length_lookup. split; [by eapply Forall2_length|]. intros i m t Hi Hti.
    eapply stored_table_ok; [by eapply (Forall2_lookup_lr _ _ _ _ _ _ Hst')| |apply Hfl|apply Hfl].
    exists (tables_of kvs). split; [done|]. by eapply list_elem_of_lookup_2.
  - done.
  - intros m Hin. by apply Hm.
  - apply Ht.
  - apply Ht.
  - rewrite Hcat. apply Hfl.
  - apply Hfl.
Qed.

Lemma flushed_cache contents vs tc ts :
  tables_inv contents vs tc -> cache_ok (flushed contents (vs_ss_number vs) ts) tc.
Proof.
  intros Ht. pose proof (ti_cache _ _ _ Ht) as [Hwf Hn Hk Hit]. constructor; [done|done|done|].
  intros n a Hu Ha. destruct (Hit n a Hu Ha) as [Hr Hi]. unfold flushed.
  destruct (Z.leb_spec (vs_ss_number vs) n) as [Hle|]; [|done]. rewrite (ti_unused _ _ _ Ht n Hle) in Hr. by destruct Hr.
Qed.

Lemma flushed_elem contents vs kvs n kv :
  vs_ss_number vs <= n -> kv ∈ flushed contents (vs_ss_number vs) (tables_of kvs) n -> kv ∈ kvs.
Proof.
  intros Hn. unfold flushed. rewrite (proj2 (Z.leb_le _ _)) by done. destruct (_ !! _) as [t|] eqn:Et; [|by intros ?%not_elem_of_nil].
  intros Hk. pose proof (cut_concat lba_size kvs []) as Hcat. change (concat (tables_of kvs) = kvs) in Hcat. rewrite <-Hcat.
  apply list_elem_of_In, in_concat. exists t. split; apply list_elem_of_In; [by eapply list_elem_of_lookup_2|done].
Qed.

(** The tables of the new version are on the device. *)
Lemma flushed_cached contents vs tc log metas kvs l m :
  tables_inv contents vs tc -> flushable contents vs kvs -> mg_l0 (vs_ss_manager vs) = [log] ->
  Forall2 (stored log) metas (tables_of kvs) -> 0 <= l < level_count ->
  (l = 0 /\ m ∈ numbered fresh (vs_ss_number_l0 vs) (vs_ss_number vs) metas) \/ m ∈ level_tables (v_ss (current vs)) l ->
  let c' := flushed contents (vs_ss_number vs) (tables_of kvs) in
  cached c' tc l m (c' (m_number m)).
Proof.
  intros Ht Hfl Hlog Hst Hl Hm. cbv zeta. split; [done|]. destruct Hm as [[-> Hm]|Hm].
  - apply list_elem_of_lookup in Hm as [i Hi].
    pose proof (numbered_stored log (vs_ss_number_l0 vs) (vs_ss_number vs) metas _ Hst) as Hst'.
    destruct (Forall2_lookup_l _ _ _ _ _ Hst' Hi) as (t & Hti & Hs). apply numbered_lookup in Hi as (m0 & Hm0 & Em).
    assert (En : m_number m = vs_ss_number vs + Z.of_nat i) by (by rewrite Em).
    assert (Ec : flushed contents (vs_ss_number vs) (tables_of kvs) (m_number m) = t).
    { unfold flushed. rewrite En, (proj2 (Z.leb_le _ _)) by lia. rewrite Z.add_simpl_l, Nat2Z.id. by rewrite Hti. }
    rewrite Ec. apply lookup_lt_Some in Hti as Hlt. pose proof (fl_numbers _ _ _ Hfl) as [Hnum _]. unfold blen in Hnum.
    pose proof (ti_counters _ _ _ Ht) as [H1 _].
    assert (Hsort : StronglySorted kv_lt t).
    { eapply to_sorted, (stored_table_ok log m t kvs Hs); [|apply Hfl|apply Hfl]. exists (tables_of kvs). split; [apply cut_concat|].
      by eapply list_elem_of_lookup_2. }
    split_and!; [word|split_and!; [apply Hs|apply Hs|done]|done|]. eapply stored_mg_table; [|done]. by rewrite (ti_manager _ _ _ Ht).
  - destruct (ti_tables _ _ _ Ht l m Hl Hm) as (_ & Hu & Hr & Hlev & pad & Hmg). pose proof (ti_below _ _ _ Ht l m Hl Hm) as Hb.
    assert (Ec : flushed contents (vs_ss_number vs) (tables_of kvs) (m_number m) = contents (m_number m)).
    { unfold flushed. by rewrite (proj2 (Z.leb_gt (vs_ss_number vs) _)) by lia. }
    rewrite Ec. split_and!; [done|done|done|]. by exists pad.
Qed.

(** The tables of a flush, installed in the version. *)
Lemma install_tables_spec contents vs tc log metas kvs vs' :
  tables_inv contents vs tc -> flushable contents vs kvs -> mg_l0 (vs_ss_manager vs) = [log] ->
  Forall2 (stored log) metas (tables_of kvs) ->
  install_tables name lba_size zone_cap fresh vs metas = Some (OK, vs') ->
  tables_inv (flushed contents (vs_ss_number vs) (tables_of kvs)) vs' tc /\
  vs_last_sequence vs' = vs_last_sequence vs /\ vs_ss_manager vs' = vs_ss_manager vs /\
  grows contents vs (flushed contents (vs_ss_number vs) (tables_of kvs)) vs' /\
  forall kv, entry_in (current vs') (by_number (flushed contents (vs_ss_number vs) (tables_of kvs))) kv <->
    kv ∈ kvs \/ entry_in (current vs) (by_number contents) kv.
Proof.
  intros Ht Hfl Hlog Hst Hins. pose proof (flush_ok_of _ _ _ _ _ _ Ht Hfl Hst) as Hok.
  pose proof (fl_numbers _ _ _ Hfl) as [Hn1 Hn2]. pose proof (ti_counters _ _ _ Ht) as [Hc1 Hc2].
  destruct (numbered_numbers (vs_ss_number_l0 vs) (vs_ss_number vs) metas) as (_ & Hm & _).
  assert (Hlen : blen metas = blen (tables_of kvs)) by (unfold blen; by rewrite (Forall2_length _ _ _ Hst)).
  assert (Hcat : concat (tables_of kvs) = kvs) by apply (cut_concat lba_size kvs []).
  unfold install_tables, NewSSNumberL0 in Hins. cbn [vs_ss_number_l0 set_ss_manager] in Hins.
  rewrite number_tables_spec in Hins; [|eapply Forall_lookup_2; intros i m Hi; destruct (Forall2_lookup_l _ _ _ _ _ Hst Hi) as (t & _ & Hs);
    by eapply l0_stored_count|cbn; lia|cbn; lia].
  apply bind_Some in Hins as ([[s vs1] e'] & Hlog' & [= -> ->]).
  pose proof (LogAndApply_versions _ _ _ _ _ _ _ Hlog') as Ever.
  apply LogAndApply_spec in Hlog' as (-> & Eseq & En & En0 & Emg & v & Hap & Hcur). destruct (Hcur eq_refl) as [<- _]. clear Hcur.
  cbn in Eseq, En, En0, Emg. rewrite u64_small in En0 by word.
  match type of Hap with apply_edit _ _ ?e = _ => set (e0 := e) in Hap end.
  assert (He : adds_l0 (numbered fresh (vs_ss_number_l0 vs) (vs_ss_number vs) metas) e0) by (by split_and!).
  change (apply_edit (current vs) (vs_compact_pointer vs) e0 = Some (current vs', vs_compact_pointer vs')) in Hap. clearbody e0.
  destruct (flush_installed _ _ _ _ _ _ (ti_version _ _ _ Ht) Hok e0 He (ti_numbers _ _ _ Ht) _ (ti_pointers _ _ _ Ht))
    as (v & cp & Hap' & Hin & Hsame & Hnd & Ecp).
  rewrite Hap' in Hap. injection Hap as -> ->.
  destruct (flushed_version _ _ _ _ _ _ (ti_version _ _ _ Ht) Hok _ Hin Hsame Hnd) as [Hv' Hent].
  rewrite Hcat in Hent. split; [|split_and!; [done|done| |done]].
  2: { constructor; [pose_blen; lia| |done|intros m Hm0; apply Hin; [done|by right]| |by rewrite Emg|by right].
       - intros n Hn. unfold flushed. by rewrite (proj2 (Z.leb_gt _ _)) by lia.
       - intros m [[_ Hn]|Hn]%Hin; [right|by left|done]. destruct (Hm m Hn) as [_ Hn']. split; [lia|]. intros kv kv' Hk.
         apply (fl_newer _ _ _ Hfl). eapply (flushed_elem _ vs); [|done]. lia. }
  constructor.
  - exact Hv'.
  - intros l Hl. destruct (decide (l = 0)) as [->|]; [done|]. rewrite Hsame by lia. by apply (ti_numbers _ _ _ Ht).
  - intros l m Hl [[_ Hn]|Hn]%Hin; [|pose proof (ti_below _ _ _ Ht l m Hl Hn); pose_blen; lia|done]. destruct (Hm m Hn). lia.
  - intros m [[_ Hn]|Hn]%Hin; [|pose proof (ti_l0_below _ _ _ Ht m Hn); lia|done]. destruct (Hm m Hn). lia.
  - intros n Hn. unfold flushed. pose proof (blen_nonneg metas). rewrite (proj2 (Z.leb_le _ _)) by lia.
    rewrite lookup_ge_None_2; [done|]. unfold blen in *. lia.
  - pose_blen. lia.
  - intros l m Hl Hn%Hin; [|done]. by eapply flushed_cached.
  - by apply flushed_cache.
  - rewrite Emg. apply Ht.
  - rewrite Ecp. apply Ht.
Qed.

(** The tables of [imm] are on the device and wait to be installed. *)
Record flush_pending vs (imm : MemTable (Rep := Rep)) (s : Status) (metas : list SSZoneMetaData) : Prop := {
  fp_ok : s = OK;
  fp_nonempty : entries imm <> [];
  fp_fits : Forall (l0_fits lba_size) (entries imm);
  fp_unsplit : unsplit (tables_of (entries imm));
  fp_stored : exists log, mg_l0 (vs_ss_manager vs) = [log] /\ Forall2 (stored log) metas (tables_of (entries imm))
}.

Lemma one_l0_log contents vs tc : tables_inv contents vs tc -> exists log, mg_l0 (vs_ss_manager vs) = [log].
Proof.
  intros Ht. pose proof (ci_wf _ _ _ _ _ _ (ti_cache _ _ _ Ht)) as [Hw _]. rewrite (ti_manager _ _ _ Ht) in Hw.
  destruct (mg_l0 (vs_ss_manager vs)) as [|log [|]]; [done| |done]. by exists log.
Qed.

(** The unlocked part of a flush: it returns, and when the device took every
    table they wait to be installed; nothing else has changed. *)
Lemma FlushL0SSTables_spec contents db st f imm :
  db_inv contents db st -> db_map contents db st f -> imm_ st = Some imm ->
  entries imm <> [] -> Forall (l0_fits lba_size) (entries imm) -> unsplit (tables_of (entries imm)) ->
  exists metas db', FlushL0SSTables lba_size fresh db 0 = Some (OK, metas, db') /\
    (length metas <= length (tables_of (entries imm)))%nat /\
    (length metas = length (tables_of (entries imm)) ->
      flush_pending (versions_ db') imm OK metas /\ db_inv contents db' st /\ db_map contents db' st f) /\
    vs_last_sequence (versions_ db') = vs_last_sequence (versions_ db) /\
    (forall kv, db_entry contents db st kv <-> db_entry contents db' st kv) /\
    grows contents (versions_ db) contents (versions_ db').
Proof.
  intros [Ht Hm] Hf Hi Hne Hfit Hu. destruct (one_l0_log _ _ _ Ht) as [log Hlog].
  destruct (mg_flush_stored _ _ _ Hlog Hne Hfit) as (log' & metas & Hfl & Hle & Hall).
  exists metas, (set_manager db (set_l0 (vs_ss_manager (versions_ db)) 0 log')). unfold FlushL0SSTables.
  rewrite (me_one _ _ _ Hm). cbn [lookup list_lookup]. obind. rewrite Hi. obind. change (Z.of_nat 0) with 0. rewrite Hfl. obind.
  split_and!; [done|done| |done|done|by apply grows_same]. intros E. destruct (Hall E) as [Hst Hk]. split_and!.
  - constructor; try done. exists log'. split; [cbn; by rewrite Hlog|done].
  - split; [by eapply set_l0_inv|]. destruct Hm. by constructor.
  - exact Hf.
Qed.

Lemma imm_flushable contents db st imm s metas :
  db_inv contents db st -> imm_ st = Some imm -> flush_pending (versions_ db) imm s metas ->
  vs_ss_number (versions_ db) + blen metas < 2 ^ 64 -> vs_ss_number_l0 (versions_ db) + 1 < 2 ^ 64 ->
  flushable contents (versions_ db) (entries imm).
Proof.
  intros [Ht Hm] Hi [_ Hne Hfit Hu (log & _ & Hst)] Hn1 Hn2. constructor; try done.
  - apply rep_sorted.
  - apply (me_imm _ _ _ Hm _ Hi).
  - intros kv kv' Hk. apply (me_newer _ _ _ Hm). unfold in_memory. rewrite Hi. set_solver.
  - apply Forall2_length in Hst. unfold blen in *. lia.
Qed.

(** The memory after its older part has moved to the tables. *)
Lemma flushed_memory contents contents' db st imm db' st' :
  memory_inv contents db st -> imm_ st = Some imm ->
  stripes db' = [st'] -> mem_ st' = mem_ st -> imm_ st' = None ->
  vs_last_sequence (versions_ db') = vs_last_sequence (versions_ db) ->
  (forall kv, entry_in (current (versions_ db')) (by_number contents') kv <->
    kv ∈ entries imm \/ entry_in (current (versions_ db)) (by_number contents) kv) ->
  memory_inv contents' db' st' /\ forall kv, db_entry contents db st kv <-> db_entry contents' db' st' kv.
Proof.
  intros [Hone Hmm Hfst Himm Hl Hseq Hmi Hnew] Hi Est Em Ei El Hent.
  assert (Hsame : forall kv, db_entry contents db st kv <-> db_entry contents' db' st' kv).
  { intros kv. unfold db_entry, in_memory. rewrite Em, Ei, Hi, Hent, !elem_of_app, elem_of_nil. tauto. }
  split; [|done]. constructor.
  - done.
  - by rewrite Em.
  - by rewrite Em, El.
  - by rewrite Ei.
  - by rewrite El.
  - intros kv Hk%Hsame. rewrite El. by apply Hseq.
  - by rewrite Ei.
  - unfold in_memory. rewrite Em, Ei, app_nil_r. intros kv kv' Hk [Hk'|Hk']%Hent Hu.
    + apply later_kv_lt; [done|]. by eapply Hmi.
    + apply Hnew; [unfold in_memory; set_solver|done|done].
Qed.

(** The locked part: when the log of versions takes the edit, the store answers
    as before. *)
Lemma FinishFlush_spec contents db st f imm s0 metas vs' s m :
  db_inv contents db st -> db_map contents db st f -> imm_ st = Some imm -> flush_pending (versions_ db) imm s0 metas ->
  vs_ss_number (versions_ db) + blen metas < 2 ^ 64 -> vs_ss_number_l0 (versions_ db) + 1 < 2 ^ 64 ->
  install_tables name lba_size zone_cap fresh (versions_ db) metas = Some (OK, vs') ->
  ResetOldWALs N_wals (wal_man_ st) = Some (s, m) ->
  exists db', FinishFlush name lba_size zone_cap fresh db 0 s0 metas = Some (s, db') /\
    let contents' := flushed contents (vs_ss_number (versions_ db)) (tables_of (entries imm)) in
    let st' := set_wal_man (set_imm st None) m in
    db_inv contents' db' st' /\ db_map contents' db' st' f /\
    vs_last_sequence (versions_ db') = vs_last_sequence (versions_ db) /\
    (forall kv, db_entry contents db st kv <-> db_entry contents' db' st' kv) /\
    grows contents (versions_ db) contents' (versions_ db').
Proof.
  intros Hinv Hf Hi Hp Hn1 Hn2 Hins Hreset. pose proof (imm_flushable _ _ _ _ _ _ Hinv Hi Hp Hn1 Hn2) as Hfl.
  destruct Hinv as [Ht Hm]. destruct Hp as [-> Hne _ _ (log & Hlog & Hst)].
  destruct (install_tables_spec _ _ _ _ _ _ _ Ht Hfl Hlog Hst Hins) as (Ht' & El & Emg & Hgr & Hent).
  assert (Hlen : (length metas =? 0)%nat = false).
  { apply Nat.eqb_neq. rewrite (Forall2_length _ _ _ Hst). intros E%nil_length_inv. apply Hne.
    pose proof (cut_concat lba_size (entries imm) []) as Hcat. change (concat (tables_of (entries imm)) = entries imm) in Hcat.
    by rewrite <-Hcat, E. }
  unfold FinishFlush. rewrite (me_one _ _ _ Hm). cbn [lookup list_lookup]. obind. rewrite Hi. obind. rewrite Hlen. cbn [ok negb andb note_error].
  rewrite Hins. obind. rewrite Hreset. obind. eexists. split; [done|]. cbv zeta.
  set (st' := set_wal_man (set_imm st None) m). set (db1 := set_stripe (set_versions_ db vs') 0 st').
  destruct (flushed_memory contents _ db st imm db1 st' Hm Hi ltac:(cbn; by rewrite (me_one _ _ _ Hm)) eq_refl eq_refl El Hent) as [Hm' Hsame].
  assert (Hf' : db_map (flushed contents (vs_ss_number (versions_ db)) (tables_of (entries imm))) db1 st' f) by (by eapply stands_for_ext).
  unfold note_error. destruct (ok s); [done|]. destruct Hm'. split; [by split; [|constructor]|]. split_and!; [exact Hf'|done|exact Hsame|done].
Qed.

(** ** The switch to a new memtable *)

(** The same store but for the flags of the background work. *)
Record same_data db st db' st' : Prop := {
  sd_stripes : stripes db' = [st'];
  sd_mem : mem_ st' = mem_ st;
  sd_imm : imm_ st' = imm_ st;
  sd_man : wal_man_ st' = wal_man_ st;
  sd_wal : wal_ st' = wal_ st;
  sd_versions : versions_ db' = versions_ db;
  sd_cache : table_cache_ db' = table_cache_ db
}.

Lemma same_data_trans db1 st1 db2 st2 db3 st3 : same_data db1 st1 db2 st2 -> same_data db2 st2 db3 st3 -> same_data db1 st1 db3 st3.
Proof. intros [] []. constructor; congruence. Qed.

Lemma same_data_inv contents db st f db' st' :
  same_data db st db' st' -> db_inv contents db st -> db_map contents db st f ->
  db_inv contents db' st' /\ db_map contents db' st' f.
Proof.
  intros [E1 E2 E3 _ _ E6 E7] [Ht []] Hf.
  assert (Hent : forall kv, db_entry contents db st kv <-> db_entry contents db' st' kv)
    by (intros; unfold db_entry, in_memory; by rewrite E2, E3, E6).
  split; [split; [by rewrite E6, E7|]|by eapply stands_for_ext].
  constructor; unfold in_memory; rewrite ?E2, ?E3, ?E6; try done. intros kv Hk%Hent. by apply me_seq0.
Qed.

Lemma MaybeScheduleFlush_same db st db' :
  stripes db = [st] -> MaybeScheduleFlush NDEBUG db 0 = Some db' -> exists st', same_data db st db' st'.
Proof.
  intros Hone. unfold MaybeScheduleFlush. rewrite Hone. cbn [lookup list_lookup]. obind.
  assert (Hid : same_data db st db st) by (by constructor).
  destruct (bg_flush_scheduled_ st); [intros [= <-]; by exists st|]. intros ([|] & _ & [= <-])%bind_Some; [by exists st|].
  eexists. constructor; [cbn; by rewrite Hone|done..].
Qed.

Lemma MaybeScheduleCompactionL0_same db st db' :
  stripes db = [st] -> MaybeScheduleCompactionL0 lba_size zone_cap db = Some db' -> same_data db st db' st.
Proof.
  intros Hone. unfold MaybeScheduleCompactionL0. destruct (negb _ || _); [intros [= <-]; by constructor|].
  intros ([|] & _ & [= <-])%bind_Some; by constructor.
Qed.

(** The old memtable becomes the one to flush; the store answers as before. *)
Lemma switched_inv contents db st f db' st' :
  db_inv contents db st -> db_map contents db st f -> imm_ st = None ->
  stripes db' = [st'] -> mem_ st' = newMemTable -> imm_ st' = Some (mem_ st) ->
  versions_ db' = versions_ db -> table_cache_ db' = table_cache_ db ->
  db_inv contents db' st' /\ db_map contents db' st' f.
Proof.
  intros [Ht [Hone Hmm Hfst Himm Hl Hseq Hmi Hnew]] Hf Hi Est Em Ei Ev Ec. destruct newMemTable_inv as [Hn Hemp].
  assert (Hmem' : in_memory st' = in_memory st) by (unfold in_memory; by rewrite Em, Ei, Hi, Hemp, app_nil_r).
  assert (Hent : forall kv, db_entry contents db st kv <-> db_entry contents db' st' kv)
    by (intros; unfold db_entry; by rewrite Hmem', Ev).
  split; [split; [by rewrite Ev, Ec|]|by eapply stands_for_ext]. constructor.
  - done.
  - by rewrite Em.
  - rewrite Em, Ev. cbn. lia.
  - rewrite Ei. by intros ? [= <-].
  - by rewrite Ev.
  - rewrite Ev. intros kv Hk%Hent. by apply Hseq.
  - rewrite Em, Hemp. by intros ? ? ? _ Hk%not_elem_of_nil.
  - by rewrite Hmem', Ev.
Qed.

Lemma SwitchMemtable_spec contents db st f db' :
  db_inv contents db st -> db_map contents db st f -> imm_ st = None ->
  SwitchMemtable lba_size zone_cap mem_at NDEBUG db 0 = Some db' ->
  exists st' c r s1 w1 s2 w2 s3 o m j, db_inv contents db' st' /\ db_map contents db' st' f /\
    mem_ st' = newMemTable /\ imm_ st' = Some (mem_ st) /\
    versions_ db' = versions_ db /\ wal_ st = Some c /\ wals_ (wal_man_ st) !! c = Some r /\
    Sync lba_size mem_at (wr_wal r) = Some (s1, w1) /\ wal_Close lba_size mem_at w1 = Some (s2, w2) /\
    NewWAL lba_size mem_at NDEBUG N_wals (wal_Unref (set_wal (wal_man_ st) c w2) c) = Some (s3, o, m) /\
    j = default c o /\ wal_man_ st' = wal_Ref m j /\ wal_ st' = Some j.
Proof.
  intros Hinv Hf Hi. pose proof Hinv as [_ Hm]. unfold SwitchMemtable. rewrite (me_one _ _ _ Hm). cbn [lookup list_lookup]. obind.
  intros (c & Hc & (r & Hr & ([s1 w1] & Hs & ([s2 w2] & Hcl & ([[s3 o] m] & HN & (j & Hj & HM)%bind_Some)%bind_Some)%bind_Some)%bind_Some)%bind_Some)%bind_Some.
  apply bind_Some in HM as (db2 & H1 & H2). set (st1 := set_mem _ _) in H1. set (db1 := set_stripe db 0 st1) in H1.
  assert (Hone1 : stripes db1 = [st1]) by (cbn; by rewrite (me_one _ _ _ Hm)).
  destruct (MaybeScheduleFlush_same db1 st1 db2 Hone1 H1) as [st2 Hsd1].
  pose proof (same_data_trans _ _ _ _ _ _ Hsd1 (MaybeScheduleCompactionL0_same db2 st2 db' (sd_stripes _ _ _ _ Hsd1) H2)) as Hsd.
  destruct (switched_inv contents db st f db1 st1 Hinv Hf Hi Hone1 eq_refl eq_refl eq_refl eq_refl) as [Hinv1 Hf1].
  destruct (same_data_inv _ _ _ _ _ _ Hsd Hinv1 Hf1) as [Hinv2 Hf2].
  exists st2, c, r, s1, w1, s2, w2, s3, o, m, j. destruct Hsd as [_ -> -> -> -> -> _]. split_and!; try done.
  destruct o; cbn in Hj |- *; congruence.
Qed.

(** ** The logs *)

(** A group that was written, with its first number. *)
Abbreviation group := (Z * list update)%type.
Definition batch_bytes (g : group) : bytes := batch_of g.1 g.2.
Definition batch_entries (g : group) : list KV := entries_from g.1 g.2.

Record group_fits (g : group) : Prop := {
  gf_updates : Forall update_fits g.2;
  gf_count : blen g.2 < 2 ^ 32;
  gf_numbers : 0 < g.1 /\ g.1 + blen g.2 <= kMaxSequenceNumber + 1
}.

(** The groups have numbers from [lo] up to [hi], in order. *)
Fixpoint groups_in (lo : Z) (gs : list group) (hi : Z) : Prop :=
  match gs with
  | [] => lo <= hi
  | g :: gs => lo <= g.1 /\ group_fits g /\ groups_in (g.1 + blen g.2) gs hi
  end.

Lemma groups_in_app lo gs gs' hi : groups_in lo (gs ++ gs') hi <-> exists mid, groups_in lo gs mid /\ groups_in mid gs' hi.
Proof.
  revert lo. induction gs as [|g gs IH]; intros lo; cbn.
  - split; [intros Hg; by exists lo|]. intros (mid & Hle & Hg). destruct gs' as [|g gs']; cbn in *; [lia|]. split_and!; [lia|apply Hg..].
  - rewrite IH. split; [intros (H1 & H2 & mid & H3 & H4); by exists mid|]. intros (mid & (H1 & H2 & H3) & H4). split_and!; [done..|by exists mid].
Qed.

Lemma groups_in_le lo gs hi : groups_in lo gs hi -> lo <= hi.
Proof.
  revert lo. induction gs as [|g gs IH]; intros lo; cbn; [done|]. intros (H1 & _ & H2%IH). pose proof (blen_nonneg g.2). lia.
Qed.

Lemma batch_entries_seq g kv : group_fits g -> kv ∈ batch_entries g -> g.1 <= seq_of kv < g.1 + blen g.2.
Proof.
  intros [_ _ Hn] (i & u & Hi & ->)%entries_from_elem. apply lookup_lt_Some in Hi.
  assert (Z.of_nat i < blen g.2) by (unfold blen; lia).
  destruct (entry_of_parts (g.1 + Z.of_nat i) u ltac:(lia)) as (-> & _). lia.
Qed.

Lemma groups_in_fits lo gs hi : groups_in lo gs hi -> Forall group_fits gs.
Proof. revert lo. induction gs as [|g gs IH]; intros lo; cbn; [done|]. intros (_ & H1 & H2). constructor; [done|by eapply IH]. Qed.

Lemma groups_in_seq lo gs hi kv : groups_in lo gs hi -> kv ∈ concat (batch_entries <$> gs) -> lo <= seq_of kv < hi.
Proof.
  revert lo. induction gs as [|g gs IH]; intros lo; cbn; [intros _ Hk%not_elem_of_nil; done|].
  intros (H1 & H2 & H3) [Hk|Hk]%elem_of_app.
  - apply batch_entries_seq in Hk; [|done]. apply groups_in_le in H3. lia.
  - apply (IH _ H3) in Hk. pose proof (blen_nonneg g.2). lia.
Qed.

(** The bytes of a group determine its entries. *)
Lemma batch_bytes_entries g g' : group_fits g -> group_fits g' -> batch_bytes g = batch_bytes g' -> batch_entries g ≡ₚ batch_entries g'.
Proof.
  assert (Hw : forall g, group_fits g -> exists m', TropoMemtable_Write true rest newMemTable (batch_bytes g) = Some (OK, m') /\
    entries m' ≡ₚ batch_entries g).
  { intros g0 [H1 H2 H3]. destruct newMemTable_inv as [Hn He].
    destruct (Memtable.Write_spec true rest Hcont g0.2 newMemTable g0.1) as (m' & Hm' & _ & Hp & _); [done|done|done|lia|lia| |by left|].
    - rewrite He. by intros kv Hk%not_elem_of_nil.
    - exists m'. split; [done|]. by rewrite Hp, He, app_nil_r. }
  intros (m1 & E1 & <-)%Hw (m2 & E2 & <-)%Hw E. rewrite E, E2 in E1. by injection E1 as ->.
Qed.

Section Logs.
Context `{!ReliableLog WLog}.

(** The logs hold the groups [gss], among them those of the memtable ([gs]) and
    of the one being flushed ([igs]); they are the entries of the store with
    numbers from [lo] on. *)
Record logged contents db st (gs : list group) (igs : option (list group)) (segs : list (list bytes)) (gss : list group) (lo : Z) : Prop := {
  lg_client : client_inv lba_size N_wals (mkClient (wal_man_ st) (batch_bytes <$> gs) ((fun l : list group => batch_bytes <$> l) <$> igs)) segs;
  lg_current : wal_ st = current_wal_ (wal_man_ st);
  lg_mem : entries (mem_ st) ≡ₚ concat (batch_entries <$> gs);
  lg_imm : match imm_ st, igs with
           | Some imm, Some l => entries imm ≡ₚ concat (batch_entries <$> l) | None, None => True | _, _ => False end;
  lg_fits : Forall group_fits (gs ++ default [] igs);
  lg_logs : concat segs = batch_bytes <$> gss;
  lg_groups : groups_in lo gss (vs_last_sequence (versions_ db) + 1);
  lg_all : forall kv, db_entry contents db st kv /\ lo <= seq_of kv <-> kv ∈ concat (batch_entries <$> gss)
}.
Definition is_logged contents db st : Prop := exists gs igs segs gss lo, logged contents db st gs igs segs gss lo.

Lemma elem_of_groups kv (gs : list group) : kv ∈ concat (batch_entries <$> gs) <-> exists g, g ∈ gs /\ kv ∈ batch_entries g.
Proof.
  rewrite list_elem_of_In, in_concat. setoid_rewrite <-list_elem_of_In. split.
  - intros (l & (g & -> & Hg)%list_elem_of_fmap & Hk). by exists g.
  - intros (g & Hg & Hk). exists (batch_entries g). split; [|done]. by apply list_elem_of_fmap_2.
Qed.

(** Groups whose batches are in the logs have their entries there. *)
Lemma covered_entries (gs gss : list group) lo hi kv :
  Forall group_fits gs -> groups_in lo gss hi -> (batch_bytes <$> gs) ⊆+ (batch_bytes <$> gss) ->
  kv ∈ concat (batch_entries <$> gs) -> kv ∈ concat (batch_entries <$> gss).
Proof.
  intros Hf Hg Hs (g & Hin & Hk)%elem_of_groups. apply groups_in_fits in Hg. rewrite Forall_forall in Hf, Hg.
  assert (Hb : batch_bytes g ∈ batch_bytes <$> gss).
  { eapply elem_of_submseteq; [|exact Hs]. by apply list_elem_of_fmap_2. }
  apply list_elem_of_fmap in Hb as (g' & E & Hg'). apply elem_of_groups. exists g'. split; [done|].
  by rewrite <-(batch_bytes_entries g g' (Hf _ Hin) (Hg _ Hg') E).
Qed.

(** Everything in memory is in the logs. *)
Lemma memory_logged contents db st gs igs segs gss lo kv :
  logged contents db st gs igs segs gss lo -> kv ∈ in_memory st -> kv ∈ concat (batch_entries <$> gss).
Proof.
  intros [Hc _ Hm Hi Hf Hl Hg _] Hk.
  apply (covered_entries (gs ++ default [] igs) gss lo _ _ Hf Hg).
  - pose proof (covers_all _ _ (ci_covers _ _ _ _ Hc)) as Hs. cbn [cl_mem cl_imm] in Hs. rewrite Hl in Hs. rewrite fmap_app.
    by destruct igs.
  - rewrite fmap_app, concat_app, elem_of_app. unfold in_memory in Hk. rewrite elem_of_app, Hm in Hk. destruct Hk as [Hk|Hk]; [by left|right].
    destruct (imm_ st) as [imm|], igs as [igs|]; try done. by rewrite Hi in Hk.
Qed.

Lemma logged_ext contents contents' db st db' st' :
  is_logged contents db st -> mem_ st' = mem_ st -> imm_ st' = imm_ st -> wal_man_ st' = wal_man_ st -> wal_ st' = wal_ st ->
  vs_last_sequence (versions_ db') = vs_last_sequence (versions_ db) ->
  (forall kv, db_entry contents db st kv <-> db_entry contents' db' st' kv) -> is_logged contents' db' st'.
Proof.
  intros (gs & igs & segs & gss & lo & []) E1 E2 E3 E4 E5 Hent. exists gs, igs, segs, gss, lo.
  constructor; rewrite ?E1, ?E2, ?E3, ?E4, ?E5; try done. intros kv. by rewrite <-Hent.
Qed.

Lemma enough_wals : (5 <= N_wals)%nat.
Proof. by apply Nat.leb_le. Qed.

(** A write whose append succeeds is logged. *)
Lemma write_logged contents db st db' st' c r us w :
  is_logged contents db st -> wal_ st = Some c -> wals_ (wal_man_ st) !! c = Some r ->
  group_fits (vs_last_sequence (versions_ db) + 1, us) ->
  22 + blen (batch_of (vs_last_sequence (versions_ db) + 1) us) <= max_record lba_size ->
  Append lba_size mem_at (wr_wal r) (batch_of (vs_last_sequence (versions_ db) + 1) us) false = Some (OK, w) ->
  wal_ st' = Some c -> wal_man_ st' = set_wal (wal_man_ st) c w -> imm_ st' = imm_ st ->
  versions_ db' = set_numbers (versions_ db) (vs_last_sequence (versions_ db) + blen us) (vs_ss_number (versions_ db))
    (vs_ss_number_l0 (versions_ db)) ->
  entries (mem_ st') ≡ₚ entries_from (vs_last_sequence (versions_ db) + 1) us ++ entries (mem_ st) ->
  is_logged contents db' st'.
Proof.
  intros (gs & igs & segs & gss & lo & [Hc Hcur Hm Hi Hf Hl Hg Hall]) Hw Hr Hfit Hsize Ha Ew Eman Ei Ev Hp.
  set (g := (vs_last_sequence (versions_ db) + 1, us)) in *. rewrite Hcur in Hw.
  destruct (append_inv lba_size HL16 mem_at Hmem N_wals enough_wals _ _ _ _ _ _ _ _ Hc Hw Hr Hsize Ha) as (segs' & Hc' & Hl').
  exists (gs ++ [g]), igs, segs', (gss ++ [g]), lo. constructor.
  - rewrite Eman, fmap_app. exact Hc'.
  - by rewrite Ew, Eman.
  - rewrite Hp, Hm, fmap_app, concat_app. cbn. rewrite app_nil_r. apply Permutation_app_comm.
  - by rewrite Ei.
  - apply Forall_app in Hf as [Hf1 Hf2]. rewrite !Forall_app. repeat split; [done|by constructor|done].
  - by rewrite Hl', Hl, fmap_app.
  - apply groups_in_app. eexists. split; [exact Hg|]. rewrite Ev. cbn. split_and!; [lia|done|lia].
  - intros kv. rewrite fmap_app, concat_app, elem_of_app, <-Hall. cbn. rewrite app_nil_r.
    assert (Hent : db_entry contents db' st' kv <-> kv ∈ batch_entries g \/ db_entry contents db st kv).
    { unfold db_entry, in_memory. rewrite Ei, Ev, Hp, !elem_of_app.
      change (current (set_numbers (versions_ db) _ _ _)) with (current (versions_ db)). tauto. }
    rewrite Hent. split; [tauto|]. intros [?|Hk]; [tauto|]. split; [by left|].
    pose proof (batch_entries_seq g kv Hfit Hk). apply groups_in_le in Hg. cbn in *. lia.
Qed.

(** The switch keeps the logs of both memtables. *)
Lemma switch_logged contents db st db' st' c r w1 s2 w2 s3 o m j :
  is_logged contents db st -> imm_ st = None -> wal_ st = Some c -> wals_ (wal_man_ st) !! c = Some r ->
  Sync lba_size mem_at (wr_wal r) = Some (OK, w1) -> wal_Close lba_size mem_at w1 = Some (s2, w2) ->
  NewWAL lba_size mem_at NDEBUG N_wals (wal_Unref (set_wal (wal_man_ st) c w2) c) = Some (s3, o, m) ->
  j = default c o -> wal_man_ st' = wal_Ref m j -> wal_ st' = Some j ->
  mem_ st' = newMemTable -> imm_ st' = Some (mem_ st) -> versions_ db' = versions_ db -> is_logged contents db' st'.
Proof.
  intros (gs & igs & segs & gss & lo & [Hc Hcur Hm Hi Hf Hl Hg Hall]) Ei Hw Hr Hs Hcl HN Hj Eman Ew Em Ei' Ev.
  rewrite Ei in Hi. destruct igs; [done|]. rewrite Hcur in Hw.
  destruct (switch_spec lba_size HL16 mem_at Hmem NDEBUG N_wals enough_wals _ _ _ _ _ _ Hc Hw Hr Hs)
    as (s & w2' & j' & m' & Hcl' & HN' & _ & _ & Hcur' & segs' & Hc' & Hl').
  rewrite Hcl in Hcl'. injection Hcl' as <- <-. rewrite HN in HN'. injection HN' as -> -> <-. cbn in Hj. subst j'.
  destruct newMemTable_inv as [_ Hemp].
  exists [], (Some gs), segs', gss, lo. constructor; try done.
  - by rewrite Eman.
  - by rewrite Ew, Eman, Hcur'.
  - by rewrite Em, Hemp.
  - by rewrite Ei'.
  - cbn in Hf |- *. by rewrite app_nil_r in Hf.
  - by rewrite Hl', Hl.
  - by rewrite Ev.
  - intros kv. rewrite <-Hall. unfold db_entry, in_memory. by rewrite Em, Ei', Ei, Ev, Hemp, app_nil_r.
Qed.

(** The reset after a flush keeps the logs of the memtable. *)
Lemma flushed_logged contents db st imm contents' db' s m :
  is_logged contents db st -> imm_ st = Some imm -> ResetOldWALs N_wals (wal_man_ st) = Some (s, m) ->
  vs_last_sequence (versions_ db') = vs_last_sequence (versions_ db) ->
  (forall kv, db_entry contents db st kv <-> db_entry contents' db' (set_wal_man (set_imm st None) m) kv) ->
  is_logged contents' db' (set_wal_man (set_imm st None) m).
Proof.
  intros (gs & igs & segs & gss & lo & [Hc Hcur Hm Hi Hf Hl Hg Hall]) Ei HR El Hent. rewrite Ei in Hi. destruct igs as [igs|]; [|done].
  destruct (flushed_inv lba_size N_wals enough_wals _ _ _ _ _ _ Hc HR) as (segs' & Hc' & Hcur' & bs & Hbs).
  rewrite Hl in Hbs. apply fmap_app_inv in Hbs as (gss1 & gss2 & _ & Hl2 & ->).
  apply groups_in_app in Hg as (mid & Hg1 & Hg2).
  exists gs, None, segs', gss2, mid. constructor; try done.
  - cbn. by rewrite Hcur, Hcur'.
  - cbn. apply Forall_app in Hf as [Hf _]. by rewrite app_nil_r.
  - by rewrite El.
  - intros kv. rewrite <-Hent. pose proof (groups_in_seq _ _ _ kv Hg1) as H1. pose proof (groups_in_seq _ _ _ kv Hg2) as H2.
    specialize (Hall kv). rewrite fmap_app, concat_app, elem_of_app in Hall. apply groups_in_le in Hg1. split.
    + intros [Hk Hlo]. destruct (proj1 Hall) as [Hk'|]; [split; [done|lia]| |done]. specialize (H1 Hk'). lia.
    + intros Hk. specialize (H2 Hk). split; [|lia]. by apply Hall; right.
Qed.

(** *** Replay *)

(** The numbers of a group. *)
Definition group_seqs (g : group) : list Z := seqZ g.1 (blen g.2).

Lemma groups_in_NoDup lo gs hi : groups_in lo gs hi -> NoDup (concat (group_seqs <$> gs)).
Proof.
  assert (Hin : forall gs lo n, groups_in lo gs hi -> n ∈ concat (group_seqs <$> gs) -> lo <= n).
  { induction gs0 as [|g gs0 IH]; intros lo0 n; cbn; [intros _ Hn%not_elem_of_nil; done|].
    intros (H1 & _ & H2) [Hn%elem_of_seqZ|Hn]%elem_of_app; [lia|]. pose proof (IH _ _ H2 Hn). pose proof (blen_nonneg g.2). lia. }
  revert lo. induction gs as [|g gs IH]; intros lo; cbn; [intros _; constructor|]. intros (_ & _ & H2). apply NoDup_app. split_and!.
  - apply NoDup_seqZ.
  - intros n Hn%elem_of_seqZ Hn'. pose proof (Hin _ _ _ H2 Hn'). lia.
  - by eapply IH.
Qed.

(** Groups with distinct numbers, replayed in any order. *)
Lemma replay_groups gs m seq :
  NDEBUG = true -> mem_inv m -> Forall group_fits gs -> 0 <= seq ->
  NoDup (concat (group_seqs <$> gs)) -> (forall kv, kv ∈ entries m -> seq_of kv ∉ concat (group_seqs <$> gs)) ->
  exists m', write_batches (replay_write NDEBUG rest) (batch_bytes <$> gs) m seq =
      Some (OK, m', fold_left (fun s (g : group) => Z.max s (g.1 + blen g.2 - 1)) gs seq) /\
    mem_inv m' /\ entries m' ≡ₚ concat (batch_entries <$> gs) ++ entries m.
Proof.
  intros Hnd. revert m seq. induction gs as [|g gs IH]; intros m seq Hm Hf Hs Hdis Hout; [by exists m|].
  apply Forall_cons in Hf as [[H1 H2 H3] Hf]. cbn in Hdis. apply NoDup_app in Hdis as (_ & Hd & Hdis). pose proof (blen_nonneg g.2) as Hz.
  assert (Hmax : kMaxSequenceNumber = 2 ^ 56 - 1) by (unfold kMaxSequenceNumber; by rewrite Z.shiftl_1_l).
  destruct (Memtable.Write_spec NDEBUG rest Hcont g.2 m g.1) as (m1 & HW & Hm1 & Hp1 & _); [done|done|done|lia|lia| |by left|].
  { intros kv Hk. specialize (Hout kv Hk). cbn in Hout. rewrite elem_of_app in Hout. unfold group_seqs in Hout. rewrite elem_of_seqZ in Hout. lia. }
  cbn [fmap list_fmap write_batches]. change (batch_bytes g) with (batch_of g.1 g.2). unfold SetContents. rewrite (proj2 (Z.leb_le _ _)) by (rewrite batch_of_length; pose_blen; lia).
  obind. cbn [ok negb]. unfold replay_write at 1. rewrite HW. cbn [default ok negb].
  rewrite batch_of_Sequence by word. obind. rewrite batch_of_Count by done. obind. rewrite u64_small by word.
  replace (if seq <? g.1 + blen g.2 - 1 then g.1 + blen g.2 - 1 else seq) with (Z.max seq (g.1 + blen g.2 - 1))
    by (destruct (Z.ltb_spec seq (g.1 + blen g.2 - 1)); lia).
  destruct (IH m1 (Z.max seq (g.1 + blen g.2 - 1)) Hm1 Hf ltac:(lia) Hdis) as (m' & Hw & Hm' & Hp').
  { intros kv Hk. rewrite Hp1, elem_of_app in Hk. destruct Hk as [Hk|Hk].
    - apply Hd. apply elem_of_seqZ. by apply (batch_entries_seq g).
    - specialize (Hout kv Hk). cbn in Hout. rewrite elem_of_app in Hout. tauto. }
  exists m'. split_and!; [done|done|]. rewrite Hp', Hp1. cbn. rewrite <-app_assoc, !app_assoc. f_equiv. apply Permutation_app_comm.
Qed.

Lemma concat_fmap_perm {A B} (h : A -> list B) l l' : l ≡ₚ l' -> concat (h <$> l) ≡ₚ concat (h <$> l').
Proof.
  induction 1 as [|x l l' _ IH|x y l|l1 l2 l3 _ IH1 _ IH2]; cbn; [done|by f_equiv| |by etrans].
  rewrite !app_assoc. f_equiv. apply Permutation_app_comm.
Qed.

(** The largest number of the groups. *)
Lemma last_number (gs : list group) seq hi :
  let n := fold_left (fun s (g : group) => Z.max s (g.1 + blen g.2 - 1)) gs seq in
  seq <= n /\ (forall g, g ∈ gs -> g.1 + blen g.2 - 1 <= n) /\
  (seq <= hi -> (forall g, g ∈ gs -> g.1 + blen g.2 - 1 <= hi) -> n <= hi).
Proof.
  cbv zeta. revert seq. induction gs as [|g gs IH]; intros seq; cbn [fold_left].
  - split_and!; [done|by intros g Hg%not_elem_of_nil|done].
  - destruct (IH (Z.max seq (g.1 + blen g.2 - 1))) as (H1 & H2 & H3). split_and!; [lia| |].
    + intros g' [->|Hg]%elem_of_cons; [lia|by apply H2].
    + intros Hs Hg. apply H3; [specialize (Hg g ltac:(by left)); lia|]. intros g' Hg'. apply Hg. by right.
Qed.

Lemma groups_in_last lo gs hi g : groups_in lo gs hi -> g ∈ gs -> g.1 + blen g.2 <= hi.
Proof.
  revert lo. induction gs as [|g' gs IH]; intros lo; cbn; [intros _ Hg%not_elem_of_nil; done|].
  intros (_ & _ & H2) [->|Hg]%elem_of_cons; [by apply groups_in_le in H2|by eapply IH].
Qed.

(** The memtable and the sequence number that the replay of the logs gives:
    the entries of the store with numbers from [lo] on, at least those in memory. *)
Record replayed contents db st (lo seq : Z) (mem : MemTable (Rep := Rep)) (seq' : Z) : Prop := {
  re_mem : mem_inv mem;
  re_entries : forall kv, kv ∈ entries mem <-> db_entry contents db st kv /\ lo <= seq_of kv;
  re_memory : forall kv, kv ∈ in_memory st -> kv ∈ entries mem;
  re_seq : seq <= seq' /\ (seq <= vs_last_sequence (versions_ db) -> seq' <= vs_last_sequence (versions_ db));
  re_last : forall kv, kv ∈ entries mem -> seq_of kv <= seq'
}.

(** The device after a crash: the current log was synced, everything else is lost. *)
Definition crashed st (c : nat) (w : TropoWAL WLog) : TropoWALManager WLog :=
  restart lba_size mem_at N_wals (wal_Unref (set_wal (wal_man_ st) c w) c).

Lemma replay_logs contents db st c r w seq :
  NDEBUG = true -> is_logged contents db st -> wal_ st = Some c -> wals_ (wal_man_ st) !! c = Some r ->
  Sync lba_size mem_at (wr_wal r) = Some (OK, w) -> 0 <= seq ->
  exists m mem seq' lo, WALManager_Recover lba_size N_wals (replay_write NDEBUG rest) (crashed st c w) newMemTable seq = Some (OK, m, mem, seq') /\
    replayed contents db st lo seq mem seq' /\
    (Forall ref_closed (wals_ m) /\ current_wal_ m = None /\ (0 < wal_tail_ m < N_wals)%nat /\ exists segs, mgr_holds lba_size N_wals m segs).
Proof.
  intros Hnd (gs & igs & segs & gss & lo & Hlog) Hw Hr Hs H0. pose proof Hlog as [Hc Hcur _ _ _ Hl Hg Hall]. rewrite Hcur in Hw.
  destruct (restart_spec lba_size HL16 mem_at Hmem N_wals enough_wals (replay_write NDEBUG rest) _ _ _ _ _ _ _ newMemTable seq Hc Hw Hr Hs)
    as (order & Ho & Hrep).
  rewrite Hl in Ho. apply Permutation_map_inv in Ho as (gss' & -> & Hp). change (map batch_bytes gss') with (batch_bytes <$> gss') in Hrep.
  destruct newMemTable_inv as [Hn Hemp].
  destruct (replay_groups gss' newMemTable seq) as (mem & Hwb & Hm & Hpe); [done|done|by rewrite <-Hp; eapply groups_in_fits|done| | |].
  { rewrite <-(concat_fmap_perm _ _ _ Hp). by eapply groups_in_NoDup. }
  { rewrite Hemp. by intros kv Hk%not_elem_of_nil. }
  rewrite Hwb in Hrep. destruct Hrep as (m & HR & HP). destruct (HP eq_refl) as (Hcl & Hcm & Ht & segs' & Hh & _).
  rewrite Hemp, app_nil_r, <-(concat_fmap_perm _ _ _ Hp) in Hpe.
  destruct (last_number gss' seq (vs_last_sequence (versions_ db))) as (Hs1 & Hs2 & Hs3).
  eexists m, mem, _, lo. split; [exact HR|]. split; [|split; [done|]; split; [done|]; split; [done|]; by exists segs']. constructor; [done| | |split; [done|]|].
  - intros kv. by rewrite Hpe, Hall.
  - intros kv Hk. rewrite Hpe. by eapply memory_logged.
  - intros Hle. apply Hs3; [done|]. intros g Hin. rewrite <-Hp in Hin. pose proof (groups_in_last _ _ _ _ Hg Hin). lia.
  - intros kv Hk. rewrite Hpe in Hk. apply elem_of_groups in Hk as (g & Hin & Hk). pose proof (groups_in_fits _ _ _ Hg) as Hf.
    rewrite Forall_forall in Hf. pose proof (batch_entries_seq g kv (Hf _ Hin) Hk). rewrite Hp in Hin. specialize (Hs2 g Hin). lia.
Qed.

(** A store over the replayed memtable and the same tables can be read as before. *)
Lemma replayed_read contents db st f lo seq mem seq' db' st' :
  db_inv contents db st -> db_map contents db st f -> replayed contents db st lo seq mem seq' ->
  in_memory st <> [] -> 0 <= seq <= vs_last_sequence (versions_ db) ->
  stripes db' = [st'] -> in_memory st' ≡ₚ entries mem -> mem_inv (mem_ st') -> (forall imm, imm_ st' = Some imm -> mem_inv imm /\ entries (mem_ st') = []) ->
  current (versions_ db') = current (versions_ db) -> vs_last_sequence (versions_ db') = seq' ->
  read_inv contents db' st' /\ db_map contents db' st' f.
Proof.
  intros [_ Hm] Hf [_ Hent Hmemo [Hs1 Hs2] Hlast] Hne Hseq Hone Hmem' Hmm Himm Ec El.
  assert (Hin : forall kv, kv ∈ in_memory st' <-> db_entry contents db st kv /\ lo <= seq_of kv) by (intros kv; by rewrite Hmem').
  assert (Hsame : forall kv, db_entry contents db st kv <-> db_entry contents db' st' kv).
  { intros kv. unfold db_entry at 2. rewrite Ec, Hin. split; [|intros [[]|]; [done|by right]].
    intros [Hk|Hk]; [|by right]. left. by apply Hent, Hmemo. }
  assert (Hlo : exists kv0, kv0 ∈ entries mem /\ lo <= seq_of kv0).
  { destruct (in_memory st) as [|kv0 l]; [done|]. exists kv0. pose proof (Hmemo kv0 ltac:(by left)) as Hk. split; [done|]. apply (Hent kv0), Hk. }
  split; [|by eapply stands_for_ext]. constructor; [done|done|by intros imm Hi; apply Himm| | | |].
  - rewrite El. pose proof (me_last _ _ _ Hm). lia.
  - rewrite El. intros kv Hk%Hsame. destruct (Z.le_gt_cases lo (seq_of kv)) as [Hle|Hgt]; [by apply Hlast, Hent|].
    destruct Hlo as (kv0 & Hk0 & Hlo). specialize (Hlast kv0 Hk0). lia.
  - intros imm kv kv' Hi Hk. destruct (Himm _ Hi) as [_ E]. rewrite E in Hk. by apply not_elem_of_nil in Hk.
  - rewrite Ec. intros kv kv' [Hk Hlk]%Hin Hk' Hu. destruct (Z.le_gt_cases lo (seq_of kv')) as [Hle|Hgt].
    + left. apply Hin. split; [by right|done].
    + right. apply later_kv_lt; [done|lia].
Qed.

(** *** The start of the background work *)

Lemma WALAvailable_total (m : TropoWALManager WLog) : NDEBUG = true -> exists b, WALAvailable NDEBUG N_wals m = Some b.
Proof. intros ->. unfold WALAvailable, assert_false. repeat case_match; obind; by eexists. Qed.

Lemma NeedsL0Compaction_total vs :
  mg_wf l0_min l0_max ln_min ln_max (vs_ss_manager vs) -> exists b, NeedsL0Compaction lba_size zone_cap vs = Some b.
Proof.
  intros [Hl Hz]. unfold NeedsL0Compaction, NeedsL0CompactionForce, mg_GetFractionFilled. cbn [Z.leb Z.eqb Z.compare level_count]. obind.
  case_match; [by eexists|]. change (seqZ 0 lower_concurrency) with [0]. cbn [any_forced].
  unfold NeedsL0CompactionForceParallel, GetFractionFilledL0, block_ranges. rewrite Hz.
  destruct (mg_l0 (vs_ss_manager vs)) as [|log ?]; [done|]. change (Z.to_nat 0) with 0%nat. cbn. case_match; by eexists.
Qed.

Lemma schedule_total db st :
  NDEBUG = true -> stripes db = [st] -> mg_wf l0_min l0_max ln_min ln_max (vs_ss_manager (versions_ db)) ->
  (exists db' st', MaybeScheduleFlush NDEBUG db 0 = Some db' /\ same_data db st db' st') /\
  exists db', MaybeScheduleCompactionL0 lba_size zone_cap db = Some db' /\ same_data db st db' st.
Proof.
  intros Hnd Hone Hwf. split.
  - assert (exists db', MaybeScheduleFlush NDEBUG db 0 = Some db') as [db' Hdb].
    { unfold MaybeScheduleFlush. rewrite Hone. cbn [lookup list_lookup]. obind. case_match; [by eexists|].
      destruct (imm_ st); [obind; by eexists|]. destruct (WALAvailable_total (wal_man_ st) Hnd) as [[] ->]; obind; by eexists. }
    destruct (MaybeScheduleFlush_same _ _ _ Hone Hdb) as [st' Hsd]. by exists db', st'.
  - assert (exists db', MaybeScheduleCompactionL0 lba_size zone_cap db = Some db') as [db' Hdb].
    { unfold MaybeScheduleCompactionL0. case_match; [by eexists|]. destruct (NeedsL0Compaction_total _ Hwf) as [b ->]. obind. by eexists. }
    exists db'. split; [done|]. by eapply MaybeScheduleCompactionL0_same.
Qed.

(** [RecoverBackgroundFlow] leaves the memtable, or makes it the one to flush. *)
Lemma RecoverBackgroundFlow_spec db st segs :
  NDEBUG = true -> stripes db = [st] -> imm_ st = None -> mg_wf l0_min l0_max ln_min ln_max (vs_ss_manager (versions_ db)) ->
  Forall ref_closed (wals_ (wal_man_ st)) -> current_wal_ (wal_man_ st) = None -> (0 < wal_tail_ (wal_man_ st) < N_wals)%nat ->
  mgr_holds lba_size N_wals (wal_man_ st) segs ->
  exists ready db' st', RecoverBackgroundFlow lba_size zone_cap mem_at NDEBUG db = Some (ready, db') /\ stripes db' = [st'] /\
    versions_ db' = versions_ db /\ table_cache_ db' = table_cache_ db /\
    ((mem_ st' = mem_ st /\ imm_ st' = None) \/
     (mem_ st' = newMemTable /\ imm_ st' = Some (mem_ st) /\ 0 < GetInternalSize (mem_ st))).
Proof.
  intros Hnd Hone Hi Hwf Hcl Hcur Ht Hh. unfold RecoverBackgroundFlow. rewrite Hone. cbn [length seq recover_flow]. unfold RecoverRoom.
  rewrite Hone. cbn [lookup list_lookup]. obind. destruct (WALAvailable_total (wal_man_ st) Hnd) as [av Hav]. rewrite Hav. obind. destruct av.
  - obind. unfold RecoverAttach. rewrite Hone. cbn [lookup list_lookup]. obind.
    assert (Hn : (length segs + 2 <= N_wals)%nat).
    { pose proof (mh_count _ _ _ _ Hh). destruct (decide (length segs + 1 = N_wals)%nat) as [E|]; [|lia].
      by rewrite (WALAvailable_full lba_size NDEBUG N_wals enough_wals (wal_man_ st) segs) in Hav. }
    destruct (GetCurrentWAL_spec lba_size HL16 mem_at Hmem NDEBUG N_wals enough_wals (wal_man_ st) segs Hh Hcl Hcur ltac:(lia) Hn) as (j & m' & segs' & -> & _).
    obind. set (st1 := set_wal_ _ _). set (db1 := set_stripe db 0 st1). cbn [schedule_flushes].
    assert (Hone1 : stripes db1 = [st1]) by (cbn; by rewrite Hone).
    destruct (schedule_total db1 st1 Hnd Hone1 Hwf) as [(db2 & st2 & -> & Hsd) _]. obind.
    destruct (schedule_total db2 st2 Hnd (sd_stripes _ _ _ _ Hsd)) as [_ (db3 & -> & Hsd')]; [by rewrite (sd_versions _ _ _ _ Hsd)|]. obind.
    destruct (same_data_trans _ _ _ _ _ _ Hsd Hsd') as [E1 E2 E3 _ _ E6 E7].
    exists true, (MaybeScheduleCompaction db3 false), st2. unfold MaybeScheduleCompaction. rewrite E2, E3.
    case_match; cbn; (split; [done|]; split_and!; [done|done|done|by left]).
  - match goal with |- context [if 0 <? ?a then ?x else ?y] => set (db1 := if 0 <? a then x else y) end.
    assert (exists st1, stripes db1 = [st1] /\ versions_ db1 = versions_ db /\ table_cache_ db1 = table_cache_ db /\
      ((mem_ st1 = mem_ st /\ imm_ st1 = None) \/
       (mem_ st1 = newMemTable /\ imm_ st1 = Some (mem_ st) /\ 0 < GetInternalSize (mem_ st)))) as (st1 & H1 & H2 & H3 & H4).
    { unfold db1. destruct (Z.ltb_spec 0 (GetInternalSize (mem_ st))); [|by exists st; split_and!; try done; left].
      eexists. cbn. rewrite Hone. split_and!; [done|done|done|by right]. }
    clearbody db1. destruct (schedule_total db1 st1 Hnd H1) as [(db2 & st2 & -> & [E1 E2 E3 _ _ E6 E7]) _]; [by rewrite H2|]. obind.
    exists false, db2, st2. split_and!; [done|done|congruence|congruence|]. by rewrite E2, E3.
Qed.

End Logs.

(** ** Runs *)

(** The result of [FlushL0SSTables] while the background thread has not taken the mutex again. *)
Abbreviation Pending := (option (Status * list SSZoneMetaData)).
Abbreviation space_for := (MakeRoomForWrite lba_size zone_cap NDEBUG usage max_write_buffer_size_).

(** The steps of the store.  A flush is one that the device completes and whose
    tables do not separate the entries of a user key; writers and readers come
    between its two parts. *)
Inductive db_step : DB * Pending -> event -> DB * Pending -> Prop :=
  | step_Write db p st allow_delay sync q0 us0 writers uss s n db' :
      stripes db !! 0%nat = Some st ->
      space_for db (u64 (blen (batch_of q0 us0) + wal_reserved_ st)) 0%nat allow_delay = Some RoomOk ->
      group_ok (versions_ db) us0 writers uss ->
      Write lba_size mem_at NDEBUG rest max_write_buffer_size_ db 0 sync (batch_of q0 us0) writers = Some (s, n, db') ->
      db_step (db, p) (EWrite sync (us0 ++ concat (take n uss)) s) (db', p)
  | step_Get db p u garbage s v db' :
      db_Get lba_size zone_cap status db u garbage = Some (s, v, db') -> db_step (db, p) (EGet u s v) (db', p)
  | step_Switch db p st size allow_delay c r s w db' :
      stripes db !! 0%nat = Some st ->
      space_for db size 0%nat allow_delay = Some RoomSwitch ->
      wal_ st = Some c -> wals_ (wal_man_ st) !! c = Some r -> Sync lba_size mem_at (wr_wal r) = Some (s, w) ->
      SwitchMemtable lba_size zone_cap mem_at NDEBUG db 0 = Some db' ->
      db_step (db, p) (ESwitch s) (db', p)
  | step_Flush db st imm s metas db' :
      stripes db !! 0%nat = Some st -> imm_ st = Some imm -> ok (bg_error_ db) = true -> bg_flush_scheduled_ st = true ->
      flush_has_space db 0 = Some true ->
      entries imm <> [] -> Forall (l0_fits lba_size) (entries imm) -> unsplit (tables_of (entries imm)) ->
      FlushL0SSTables lba_size fresh db 0 = Some (s, metas, db') -> length metas = length (tables_of (entries imm)) ->
      db_step (db, None) EFlush (db', Some (s, metas))
  | step_Install db s metas vs' s' db' shutdown_ db'' :
      vs_ss_number (versions_ db) + blen metas < 2 ^ 64 -> vs_ss_number_l0 (versions_ db) + 1 < 2 ^ 64 ->
      install_tables name lba_size zone_cap fresh (versions_ db) metas = Some (OK, vs') ->
      FinishFlush name lba_size zone_cap fresh db 0 s metas = Some (s', db') ->
      FlushCallEnd lba_size zone_cap NDEBUG db' 0 shutdown_ = Some db'' ->
      db_step (db, Some (s, metas)) EInstall (db'', None).

Inductive db_run : DB * Pending -> list event -> DB * Pending -> Prop :=
  | run_done x : db_run x [] x
  | run_step x e y es z : db_step x e y -> db_run y es z -> db_run x (e :: es) z.

(** The map after an event, and the answer that it has to show. *)
Definition event_map (f : bytes -> option bytes) (e : event) : bytes -> option bytes :=
  match e with EWrite _ us s => if ok s then update_all f us else f | _ => f end.
Definition event_ok (f : bytes -> option bytes) (e : event) : Prop :=
  match e with EGet u s v => (s, v) = answer (f u) | _ => True end.
Fixpoint events_ok (f : bytes -> option bytes) (es : list event) : Prop :=
  match es with [] => True | e :: es => event_ok f e /\ events_ok (event_map f e) es end.

(** What waits to be installed belongs to the memtable that is flushed. *)
Definition pending_inv db st (p : Pending) : Prop :=
  match p with None => True | Some (s, metas) => exists imm, imm_ st = Some imm /\ flush_pending (versions_ db) imm s metas end.

Lemma pending_same db st db' st' p :
  imm_ st' = imm_ st -> vs_ss_manager (versions_ db') = vs_ss_manager (versions_ db) -> pending_inv db st p -> pending_inv db' st' p.
Proof.
  intros Ei Em. destruct p as [[s metas]|]; [|done]. intros (imm & Hi & []). exists imm. split; [congruence|].
  constructor; try done. by rewrite Em.
Qed.

Lemma FlushCallEnd_same db st shutdown_ db' :
  stripes db = [st] -> FlushCallEnd lba_size zone_cap NDEBUG db 0 shutdown_ = Some db' -> exists st', same_data db st db' st'.
Proof.
  intros Hone. unfold FlushCallEnd. rewrite Hone. cbn [lookup list_lookup]. obind.
  set (db1 := set_stripe db 0 (set_scheduled st false)).
  assert (Hone1 : stripes db1 = [set_scheduled st false]) by (cbn; by rewrite Hone).
  assert (H1 : same_data db st db1 (set_scheduled st false)) by (by constructor).
  destruct shutdown_; [intros [= <-]; by eexists|].
  intros (db2 & [st2 H2]%(MaybeScheduleFlush_same _ _ _ Hone1) & (db3 & H3 & [= <-])%bind_Some)%bind_Some.
  apply (MaybeScheduleCompactionL0_same _ st2) in H3; [|apply H2].
  pose proof (same_data_trans _ _ _ _ _ _ (same_data_trans _ _ _ _ _ _ H1 H2) H3) as H4.
  exists st2. unfold MaybeScheduleCompaction. case_match; [done|]. destruct H4. by constructor.
Qed.

(** A switch starts without a memtable that is being flushed. *)
Lemma switch_no_imm db st size allow_delay :
  stripes db = [st] -> space_for db size 0%nat allow_delay = Some RoomSwitch -> imm_ st = None.
Proof.
  intros Hone. unfold MakeRoomForWrite. rewrite Hone. cbn [lookup list_lookup]. obind.
  destruct (negb _); [done|]. destruct (allow_delay && _); [done|]. intros ([|] & _ & H1)%bind_Some; [done|]. by destruct (imm_ st).
Qed.

(** A write or the end of a flush that returned has found the logs. *)
Lemma Write_log db st sync b writers x :
  stripes db = [st] -> Write lba_size mem_at NDEBUG rest max_write_buffer_size_ db 0 sync b writers = Some x ->
  exists c r, wal_ st = Some c /\ wals_ (wal_man_ st) !! c = Some r.
Proof.
  intros Hone. unfold Write. rewrite Hone. cbn [lookup list_lookup]. obind.
  intros (c & Hc & (r & Hr & _)%bind_Some)%bind_Some. by exists c, r.
Qed.

Lemma FinishFlush_log db st s metas x :
  stripes db = [st] -> FinishFlush name lba_size zone_cap fresh db 0 s metas = Some x ->
  exists s' m, ResetOldWALs N_wals (wal_man_ st) = Some (s', m).
Proof.
  intros Hone. unfold FinishFlush. rewrite Hone. cbn [lookup list_lookup]. obind.
  intros (imm & _ & (db1 & _ & ([s' m] & HR & _)%bind_Some)%bind_Some)%bind_Some. by exists s', m.
Qed.

(** The events of a store whose appends and syncs succeed, without synchronous writes. *)
Definition event_good (e : event) : Prop :=
  match e with EWrite sync _ s => sync = false /\ s = OK | ESwitch s => s = OK | _ => True end.

(** What a step keeps, for a state given by its tables and its stripe. *)
Definition step_keeps f contents (x : DB * Pending) st (e : event) (y : DB * Pending) : Prop :=
  event_ok f e /\ exists contents' st', db_inv contents' y.1 st' /\ db_map contents' y.1 st' (event_map f e) /\
    pending_inv y.1 st' y.2 /\ grows contents (versions_ x.1) contents' (versions_ y.1) /\
    (forall n kv, kv ∈ contents' n -> kv ∈ contents n \/ exists imm, imm_ st = Some imm /\ kv ∈ entries imm) /\
    (ReliableLog WLog -> event_good e -> is_logged contents x.1 st -> is_logged contents' y.1 st').

Lemma step_write_keeps contents db p st f allow_delay sync q0 us0 writers uss s n db' :
  db_inv contents db st -> db_map contents db st f -> pending_inv db st p ->
  space_for db (u64 (blen (batch_of q0 us0) + wal_reserved_ st)) 0%nat allow_delay = Some RoomOk ->
  group_ok (versions_ db) us0 writers uss ->
  Write lba_size mem_at NDEBUG rest max_write_buffer_size_ db 0 sync (batch_of q0 us0) writers = Some (s, n, db') ->
  step_keeps f contents (db, p) st (EWrite sync (us0 ++ concat (take n uss)) s) (db', p).
Proof.
  intros Hinv Hf Hp _ Hg HW. split; [done|]. destruct (Write_log _ _ _ _ _ _ (me_one _ _ _ (proj2 Hinv)) HW) as (c & r & Hc & Hr).
  destruct (db_Write_result _ _ _ _ c r sync q0 us0 writers uss Hinv Hf Hc Hr Hg) as (n' & _ & Hsize & (Hfit & Hn & Hmax) & HR). cbv zeta in HR.
  destruct (Append _ _ _ _ _) as [[s0 w]|] eqn:Ha; [|congruence]. destruct HR as (db0 & st' & HW' & Hinv' & Hf' & Ew & Eman & Ei & Ev & Hent).
  rewrite HW in HW'. injection HW' as <- <- <-. exists contents, st'. split_and!; [done|done| | |by left|].
  - apply (pending_same db st); [done|cbn [fst]; by rewrite Ev|done].
  - cbn [fst]. rewrite Ev. by apply grows_same.
  - intros HRel [-> ->] Hl. eapply (write_logged contents db st db' st' c r _ w Hl Hc Hr); [|done|exact Ha|done|done|done|done|by apply Hent].
    pose proof (me_last _ _ _ (proj2 Hinv)). constructor; cbn [fst snd]; [done|done|lia].
Qed.

Lemma db_step_keeps contents x st f e y :
  db_step x e y -> db_inv contents x.1 st -> db_map contents x.1 st f -> pending_inv x.1 st x.2 -> step_keeps f contents x st e y.
Proof.
  intros Hstep Hinv Hf Hp. pose proof Hinv as [_ Hm]. pose proof (me_one _ _ _ Hm) as Hone.
  destruct Hstep as [db p st0 allow sync q0 us0 writers uss s n db' Hst Hroom Hg HW|db p u garbage s v db' HG
    |db p st0 size allow c r s w db' Hst Hroom Hc Hr Hs HS|db st0 imm s metas db' Hst Hi _ _ _ Hne Hfit Hu HF Hlen
    |db s metas vs' s' db' shutdown_ db'' Hn1 Hn2 Hins HF HE]; cbn [fst snd] in *; try (rewrite Hone in Hst; injection Hst as <-).
  - by eapply step_write_keeps.
  - destruct (db_Get_spec _ _ _ _ u garbage Hinv Hf) as (tc & HG' & Hinv'). rewrite HG in HG'. injection HG' as -> -> ->.
    split; [cbn; by destruct (answer (f u))|]. exists contents, st. split_and!; [done|done|by eapply pending_same|by apply grows_same|by left|].
    intros _ _ Hl. by eapply logged_ext.
  - split; [done|]. pose proof (switch_no_imm _ _ _ _ Hone Hroom) as Hi.
    destruct (SwitchMemtable_spec _ _ _ _ _ Hinv Hf Hi HS) as (st' & c' & r' & s1 & w1 & s2 & w2 & s3 & o & m & j & Hinv' & Hf' & Em & Ei & Ev
      & Hc' & Hr' & Hs' & Hcl & HN & Hj & Eman & Ew).
    rewrite Hc in Hc'. injection Hc' as <-. rewrite Hr in Hr'. injection Hr' as <-. rewrite Hs in Hs'. injection Hs' as <- <-.
    exists contents, st'. split_and!; [done|done| |cbn [fst]; rewrite Ev; by apply grows_same|by left|].
    + destruct p as [[]|]; [|done]. destruct Hp as (? & ? & _). congruence.
    + cbn. intros HRel -> Hl. by eapply (switch_logged contents db st db' st' c r w s2 w2 s3 o m j Hl).
  - split; [done|]. destruct (FlushL0SSTables_spec _ _ _ _ _ Hinv Hf Hi Hne Hfit Hu) as (metas0 & db0 & HF' & _ & Hall & El & Hent & Hgr).
    rewrite HF in HF'. injection HF' as -> <- <-. destruct (Hall Hlen) as (Hpend & Hinv' & Hf').
    exists contents, st. split_and!; [done|done|by exists imm|done|by left|]. intros _ _ Hl. by eapply logged_ext.
  - split; [done|]. destruct Hp as (imm & Hi & Hpend). destruct (FinishFlush_log _ _ _ _ _ Hone HF) as (s2 & m & HR).
    destruct (FinishFlush_spec _ _ _ _ _ _ _ _ _ _ Hinv Hf Hi Hpend Hn1 Hn2 Hins HR) as (db2 & HF' & Hinv' & Hf' & El & Hent & Hgr).
    rewrite HF in HF'. injection HF' as -> <-. destruct (FlushCallEnd_same _ _ _ _ (me_one _ _ _ (proj2 Hinv')) HE) as [st' Hsd].
    destruct (same_data_inv _ _ _ _ _ _ Hsd Hinv' Hf') as [Hinv2 Hf2]. eexists _, st'. split_and!; [done|done|done|cbn [fst]; by rewrite (sd_versions _ _ _ _ Hsd)| |].
    { intros n kv Hk. destruct (decide (vs_ss_number (versions_ db) <= n)) as [Hle|Hgt]; [right; exists imm; split; [done|by eapply flushed_elem]|left].
      unfold flushed in Hk. by rewrite (proj2 (Z.leb_gt _ _)) in Hk by lia. }
    intros HRel _ Hl. pose proof (flushed_logged _ _ _ _ _ _ _ _ Hl Hi HR El Hent) as Hl'. destruct Hsd as [_ E1 E2 E3 E4 E5 _].
    eapply logged_ext; [exact Hl'|done..|cbn [fst]; by rewrite E5|]. intros kv. unfold db_entry, in_memory. cbn [fst]. by rewrite E1, E2, E5.
Qed.

(** The relation between a state of a run and the abstract map; [durable] also asks that
    the logs hold what is in memory. *)
Definition represents (x : DB * Pending) (f : bytes -> option bytes) : Prop :=
  exists contents st, db_inv contents x.1 st /\ db_map contents x.1 st f /\ pending_inv x.1 st x.2.
Definition durable (x : DB * Pending) (f : bytes -> option bytes) : Prop :=
  exists contents st, db_inv contents x.1 st /\ db_map contents x.1 st f /\ pending_inv x.1 st x.2 /\ is_logged contents x.1 st.

Lemma run_represents x es y f : db_run x es y -> represents x f -> events_ok f es /\ represents y (fold_left event_map es f).
Proof.
  intros Hrun. revert f. induction Hrun as [x|x e y es z Hs _ IH]; intros f Hx; [by split|]. cbn [events_ok fold_left].
  destruct Hx as (contents & st & Hinv & Hf & Hp).
  destruct (db_step_keeps _ _ _ _ _ _ Hs Hinv Hf Hp) as (Hok & contents' & st' & Hinv' & Hf' & Hp' & _ & _ & _).
  destruct (IH (event_map f e)) as [H1 H2]; [by exists contents', st'|]. done.
Qed.

Lemma run_durable `{!ReliableLog WLog} x es y f : db_run x es y -> Forall event_good es -> durable x f -> durable y (fold_left event_map es f).
Proof.
  intros Hrun. revert f. induction Hrun as [x|x e y es z Hs _ IH]; intros f Hg Hx; [done|]. cbn [fold_left].
  apply Forall_cons in Hg as [Hg1 Hg2]. destruct Hx as (contents & st & Hinv & Hf & Hp & Hl).
  destruct (db_step_keeps _ _ _ _ _ _ Hs Hinv Hf Hp) as (Hok & contents' & st' & Hinv' & Hf' & Hp' & _ & _ & Hl').
  apply IH; [done|]. exists contents', st'. split_and!; [done..|by apply Hl'].
Qed.

(** *** Reopening *)

(** The contents of the numbers that the recovered version set has given out. *)
Definition trim contents (k n : Z) : list KV := if n <? k then contents n else [].

(** The store after a crash, before [Recover]: the version set recovers the current version and numbers
    above those of its tables, the cache is empty. *)
Record reopened vs (m : TropoWALManager WLog) (db0 : DB) (vs1 : VS) : Prop := {
  ro_stripes : stripes db0 = [mkStripe newMemTable None m None 0 false];
  ro_recover : Recover (SSTableManagerOps0 := manager_ops zone_cap) name lba_size fresh (versions_ db0) = Some (OK, vs1);
  ro_current : current vs1 = current vs;
  ro_manager : vs_ss_manager vs1 = vs_ss_manager vs;
  ro_numbers : forall l m, 0 <= l < level_count -> m ∈ level_tables (v_ss (current vs1)) l -> m_number m < vs_ss_number vs1;
  ro_l0_numbers : forall m, m ∈ level_tables (v_ss (current vs1)) 0 -> m_L0_number m < vs_ss_number_l0 vs1;
  ro_counters : 0 <= vs_ss_number vs1 /\ 0 <= vs_ss_number_l0 vs1;
  ro_pointers : blen (vs_compact_pointer vs1) = level_count;
  ro_cache : forall k a, ~ cache_has (tcs_cache (table_cache_ db0)) k a
}.

Lemma trim_entries contents v k kv :
  (forall l m, 0 <= l < level_count -> m ∈ level_tables (v_ss v) l -> m_number m < k) ->
  entry_in v (by_number (trim contents k)) kv <-> entry_in v (by_number contents) kv.
Proof.
  intros Hk. unfold entry_in, by_number, trim. split; intros (l & m & Hl & Hm & Hkv); exists l, m; split_and!; try lia; try done.
  - by rewrite (proj2 (Z.ltb_lt _ _) (Hk l m Hl Hm)) in Hkv.
  - by rewrite (proj2 (Z.ltb_lt _ _) (Hk l m Hl Hm)).
Qed.

Lemma reopened_tables contents vs tc m db0 vs1 seq :
  tables_inv contents vs tc -> reopened vs m db0 vs1 ->
  tables_inv (trim contents (vs_ss_number vs1)) (set_numbers vs1 seq (vs_ss_number vs1) (vs_ss_number_l0 vs1))
    (table_cache_ (adopt_versions db0 vs1)).
Proof.
  intros Ht [_ _ Ec Em Hn Hn0 Hc Hp Hcache].
  assert (Hcm : tcs_ssmanager (table_cache_ (adopt_versions db0 vs1)) = vs_ss_manager vs) by exact Em.
  assert (Htrim : forall l m, 0 <= l < level_count -> m ∈ level_tables (v_ss (current vs)) l ->
    trim contents (vs_ss_number vs1) (m_number m) = contents (m_number m)).
  { intros l m0 Hl Hm. unfold trim. rewrite Ec in Hn. by rewrite (proj2 (Z.ltb_lt _ _) (Hn l m0 Hl Hm)). }
  constructor; change (current (set_numbers vs1 seq _ _)) with (current vs1); rewrite ?Ec; try done.
  - destruct (ti_version _ _ _ Ht) as [V1 V2 V3 V4 V5]. constructor; unfold by_number; try done.
    + intros l m0 Hl Hm. rewrite (Htrim l m0) by done. exact (V1 l m0 Hl Hm).
    + intros m1 m2 H1 H2. rewrite (Htrim 0 m1), (Htrim 0 m2) by done. exact (V3 m1 m2 H1 H2).
    + intros l l' m1 m2 Hl Hl' H1 H2. rewrite (Htrim l m1), (Htrim l' m2) by (done || lia). exact (V5 l l' m1 m2 Hl Hl' H1 H2).
  - apply Ht.
  - by rewrite <-Ec.
  - by rewrite <-Ec.
  - intros n Hn'. unfold trim. cbn in Hn'. by rewrite (proj2 (Z.ltb_ge _ _)) by lia.
  - intros l m0 Hl Hm. destruct (ti_tables _ _ _ Ht l m0 Hl Hm) as (_ & H1 & H2 & H3 & pad & H4). rewrite (Htrim l m0) by done.
    split_and!; [by rewrite (Htrim l m0)|done|done|done|]. exists pad. by rewrite Hcm, <-(ti_manager _ _ _ Ht).
  - constructor.
    + rewrite Hcm, <-(ti_manager _ _ _ Ht). apply (ti_cache _ _ _ Ht).
    + by intros k a ?%Hcache.
    + by intros k k' a ?%Hcache.
    + by intros n a _ ?%Hcache.
Qed.

(** The recovered store can be read as the one before the crash. *)
Lemma Recover_read `{!ReliableLog WLog} contents db st f c r w seq db0 vs1 reset create_if_missing :
  NDEBUG = true -> db_inv contents db st -> db_map contents db st f -> is_logged contents db st ->
  wal_ st = Some c -> wals_ (wal_man_ st) !! c = Some r -> Sync lba_size mem_at (wr_wal r) = Some (OK, w) ->
  in_memory st <> [] -> 0 <= seq <= vs_last_sequence (versions_ db) -> reopened (versions_ db) (crashed st c w) db0 vs1 ->
  exists ready db' contents' st',
    TropoDBImpl_Recover name lba_size zone_cap fresh mem_at NDEBUG rest reset create_if_missing false db0 seq = Some (OK, ready, db') /\
    tables_inv contents' (versions_ db') (table_cache_ db') /\ read_inv contents' db' st' /\ db_map contents' db' st' f.
Proof.
  intros Hnd Hinv Hf Hl Hw Hr Hs Hne Hseq Hro.
  destruct (replay_logs contents db st c r w seq Hnd Hl Hw Hr Hs ltac:(lia)) as (m & mem & seq' & lo & HR & Hrep & Hcl & Hcur & Ht & segs & Hh).
  pose proof Hinv as [Hti _]. pose proof (reopened_tables _ _ _ _ _ _ seq' Hti Hro) as Hti'.
  unfold TropoDBImpl_Recover. rewrite (ro_recover _ _ _ _ Hro). obind. cbn [ok negb stripes adopt_versions set_cache set_versions_].
  rewrite (ro_stripes _ _ _ _ Hro). cbn [recover_wals wal_man_ mem_]. rewrite HR. obind. cbn [ok negb versions_].
  unfold VersionSet_SetLastSequence, WriteBatch.assert. rewrite Hnd. cbn [orb]. obind. rewrite <-Hnd.
  match goal with |- context [RecoverBackgroundFlow _ _ _ _ ?d] => set (db1 := d) end.
  destruct (RecoverBackgroundFlow_spec db1 _ segs Hnd eq_refl eq_refl) as (ready & db' & st' & -> & Hone & Ev & Ec & Hmm); [|done..|].
  { pose proof (ci_wf _ _ _ _ _ _ (ti_cache _ _ _ Hti')) as Hwf. by rewrite (ti_manager _ _ _ Hti') in Hwf. }
  obind. exists ready, db', (trim contents (vs_ss_number vs1)), st'. split; [done|]. rewrite Ev, Ec. split; [exact Hti'|].
  assert (Hread : read_inv contents db' st' /\ db_map contents db' st' f).
  { apply (replayed_read contents db st f lo seq mem seq' db' st' Hinv Hf Hrep Hne Hseq Hone).
    - destruct newMemTable_inv as [_ He]. unfold in_memory. destruct Hmm as [[-> ->]|(-> & -> & _)]; cbn; by rewrite ?app_nil_r, ?He.
    - destruct Hmm as [[-> _]|(-> & _)]; [apply Hrep|apply newMemTable_inv].
    - intros imm. destruct Hmm as [[_ ->]|(-> & -> & _)]; [done|]. intros [= <-]. split; [apply Hrep|apply newMemTable_inv].
    - rewrite Ev. exact (ro_current _ _ _ _ Hro).
    - by rewrite Ev. }
  assert (Hent : forall kv, entry_in (current (versions_ db')) (by_number (trim contents (vs_ss_number vs1))) kv <->
    entry_in (current (versions_ db')) (by_number contents) kv).
  { intros kv. apply trim_entries. rewrite Ev. exact (ro_numbers _ _ _ _ Hro). }
  destruct Hread as [[] Hf']. split; [|eapply stands_for_ext; [|exact Hf']; intros kv; unfold db_entry; by rewrite Hent].
  constructor; try done; [intros kv [Hk|Hk%Hent]; apply ri_seq0; [by left|by right]|]. intros kv kv' Hk Hk'%Hent. by apply ri_newer0.
Qed.

(** A store without tables and with an empty memtable stands for the empty map. *)
Lemma empty_state db st :
  stripes db = [st] -> mem_ st = newMemTable -> imm_ st = None ->
  (forall l, 0 <= l < level_count -> level_tables (v_ss (current (versions_ db))) l = []) ->
  0 <= vs_last_sequence (versions_ db) <= kMaxSequenceNumber -> 0 <= vs_ss_number (versions_ db) -> 0 <= vs_ss_number_l0 (versions_ db) ->
  blen (vs_compact_pointer (versions_ db)) = level_count ->
  mg_wf l0_min l0_max ln_min ln_max (vs_ss_manager (versions_ db)) -> tcs_ssmanager (table_cache_ db) = vs_ss_manager (versions_ db) ->
  (forall k a, ~ cache_has (tcs_cache (table_cache_ db)) k a) ->
  (forall kv, ~ db_entry (fun _ => []) db st kv) /\ db_inv (fun _ => []) db st /\ db_map (fun _ => []) db st (fun _ => None).
Proof.
  intros Hone Hm Hi Hno Hlast Hn Hn0 Hp Hwf Hmg Hcache. destruct newMemTable_inv as [Hn' Hemp].
  assert (Hent : forall kv, ~ db_entry (fun _ => []) db st kv).
  { intros kv [Hk|(l & m & Hl & Hlm & _)]; [|rewrite Hno in Hlm by done; by apply not_elem_of_nil in Hlm].
    unfold in_memory in Hk. rewrite Hm, Hi, Hemp in Hk. by apply not_elem_of_nil in Hk. }
  assert (Hin : forall l m, 0 <= l < level_count -> m ∉ level_tables (v_ss (current (versions_ db))) l).
  { intros l m Hl. rewrite Hno by done. apply not_elem_of_nil. }
  split; [done|]. split; [split|].
  - constructor; try done; [|intros l Hl; rewrite Hno by done; constructor|by intros l m Hl ?%Hin|by intros m ?%Hin|by intros l m Hl ?%Hin|].
    + constructor; [by intros l m Hl ?%Hin|rewrite Hno by done; constructor|by intros m m' ?%Hin| |by intros l l' m m' Hl Hl' ?%Hin; [|lia]].
      intros l Hl. rewrite Hno by lia. constructor.
    + constructor; [by rewrite Hmg|by intros k a ?%Hcache|by intros k k' a ?%Hcache|by intros n a _ ?%Hcache].
  - constructor; [done|by rewrite Hm|rewrite Hm; cbn; lia|by rewrite Hi|done|by intros kv ?%Hent|by rewrite Hi|].
    intros kv kv' Hk. by destruct (Hent kv (or_introl Hk)).
  - intros u. split; [|done]. by intros kv [?%Hent _].
Qed.

(** A new store, without tables and with empty logs, stands for the empty map, which its logs hold. *)
Lemma start_state db st :
  stripes db = [st] -> mem_ st = newMemTable -> imm_ st = None -> wal_ st = current_wal_ (wal_man_ st) ->
  client_start lba_size mem_at NDEBUG N_wals (mkClient (wal_man_ st) [] None) ->
  (forall l, 0 <= l < level_count -> level_tables (v_ss (current (versions_ db))) l = []) ->
  0 <= vs_last_sequence (versions_ db) <= kMaxSequenceNumber -> 0 <= vs_ss_number (versions_ db) -> 0 <= vs_ss_number_l0 (versions_ db) ->
  blen (vs_compact_pointer (versions_ db)) = level_count ->
  mg_wf l0_min l0_max ln_min ln_max (vs_ss_manager (versions_ db)) -> tcs_ssmanager (table_cache_ db) = vs_ss_manager (versions_ db) ->
  (forall k a, ~ cache_has (tcs_cache (table_cache_ db)) k a) ->
  db_inv (fun _ => []) db st /\ db_map (fun _ => []) db st (fun _ => None) /\ is_logged (fun _ => []) db st.
Proof.
  intros Hone Hm Hi Hw Hc Hno Hlast Hn Hn0 Hp Hwf Hmg Hcache. destruct newMemTable_inv as [_ Hemp].
  destruct (start_inv lba_size HL16 mem_at Hmem NDEBUG N_wals enough_wals _ Hc) as (segs & Hcl & Hcat).
  destruct (empty_state db st Hone Hm Hi Hno Hlast Hn Hn0 Hp Hwf Hmg Hcache) as (Hent & Hinv & Hmap). split_and!; [done|done|].
  exists [], None, segs, [], (vs_last_sequence (versions_ db) + 1). constructor; try done; [by rewrite Hm, Hemp|by rewrite Hi|apply Z.le_refl|].
  intros kv. split; [by intros [?%Hent _]|by intros ?%not_elem_of_nil].
Qed.

Lemma start_durable db st :
  stripes db = [st] -> mem_ st = newMemTable -> imm_ st = None -> wal_ st = current_wal_ (wal_man_ st) ->
  client_start lba_size mem_at NDEBUG N_wals (mkClient (wal_man_ st) [] None) ->
  (forall l, 0 <= l < level_count -> level_tables (v_ss (current (versions_ db))) l = []) ->
  0 <= vs_last_sequence (versions_ db) <= kMaxSequenceNumber -> 0 <= vs_ss_number (versions_ db) -> 0 <= vs_ss_number_l0 (versions_ db) ->
  blen (vs_compact_pointer (versions_ db)) = level_count ->
  mg_wf l0_min l0_max ln_min ln_max (vs_ss_manager (versions_ db)) -> tcs_ssmanager (table_cache_ db) = vs_ss_manager (versions_ db) ->
  (forall k a, ~ cache_has (tcs_cache (table_cache_ db)) k a) -> durable (db, None) (fun _ => None).
Proof.
  intros H1 H2 H3 H4 H5 H6 H7 H8 H9 H10 H11 H12 H13. exists (fun _ => []), st.
  destruct (start_state db st H1 H2 H3 H4 H5 H6 H7 H8 H9 H10 H11 H12 H13) as (Ha & Hb & Hc). by split_and!.
Qed.




(** C32: a flush that fails loses its memtable.  When [FlushL0SSTables] has
    reported an error, [CompactMemtable] still drops the memtable and resets the
    logs: the store keeps the entries of the other memtable and of the tables only,
    and the status that is returned is that of the reset. *)
Theorem flush_error_drops contents db st imm s metas s' m :
  stripes db = [st] -> imm_ st = Some imm -> ok s = false -> ResetOldWALs N_wals (wal_man_ st) = Some (s', m) ->
  exists db' st', FinishFlush name lba_size zone_cap fresh db 0 s metas = Some (s', db') /\
    stripes db' = [st'] /\ imm_ st' = None /\ wal_man_ st' = m /\ versions_ db' = versions_ db /\
    bg_error_ db' = (if ok s' then s else s') /\
    forall kv, db_entry contents db' st' kv <-> kv ∈ entries (mem_ st) \/ entry_in (current (versions_ db)) (by_number contents) kv.
Proof.
  intros Hone Hi Hs HR. unfold FinishFlush. rewrite Hone. cbn [lookup list_lookup]. obind. rewrite Hi. obind. rewrite Hs. cbn [andb]. obind.
  rewrite HR. obind. eexists _, (set_wal_man (set_imm st None) m). split; [done|].
  unfold note_error. rewrite Hs. destruct (ok s'); cbn; rewrite Hone; cbn; split_and!; try done; intros kv; unfold db_entry, in_memory; cbn;
    by rewrite app_nil_r.
Qed.

(** The sequence number can be lost in a restart.  When the logs hold no
    batch at the crash, [Recover] takes the sequence number from a variable that
    nothing has set: in a release build it becomes the last sequence number of the
    store, whatever the version set recovered; in a debug build a smaller one fails
    an assertion. *)
Theorem recover_forgets_sequence `{!ReliableLog WLog} contents db st segs c r w db0 vs1 seq reset create_if_missing :
  tables_inv contents (versions_ db) (table_cache_ db) ->
  client_inv lba_size N_wals (mkClient (wal_man_ st) [] None) segs -> concat segs = [] ->
  current_wal_ (wal_man_ st) = Some c -> wals_ (wal_man_ st) !! c = Some r -> Sync lba_size mem_at (wr_wal r) = Some (OK, w) ->
  reopened (versions_ db) (crashed st c w) db0 vs1 ->
  let recovered := TropoDBImpl_Recover name lba_size zone_cap fresh mem_at NDEBUG rest reset create_if_missing false db0 seq in
  if NDEBUG then exists ready db', recovered = Some (OK, ready, db') /\ vs_last_sequence (versions_ db') = seq
  else seq < vs_last_sequence vs1 -> recovered = None.
Proof.
  intros Hti Hc Hcat Hw Hr Hs Hro. cbv zeta.
  destruct (restart_spec lba_size HL16 mem_at Hmem N_wals enough_wals (replay_write NDEBUG rest) _ _ _ _ _ _ _ newMemTable seq Hc Hw Hr Hs)
    as (order & Ho & Hrep).
  rewrite Hcat in Ho. apply Permutation_nil_r in Ho as ->. cbn in Hrep. destruct Hrep as (m & HR & HP).
  destruct (HP eq_refl) as (Hcl & Hcur & Ht & segs' & Hh & _). pose proof (reopened_tables _ _ _ _ _ _ seq Hti Hro) as Hti'.
  unfold TropoDBImpl_Recover. rewrite (ro_recover _ _ _ _ Hro). obind. cbn [ok negb stripes adopt_versions set_cache set_versions_].
  rewrite (ro_stripes _ _ _ _ Hro). cbn [recover_wals wal_man_ mem_].
  unfold crashed. rewrite HR. obind. cbn [ok negb versions_]. unfold VersionSet_SetLastSequence, WriteBatch.assert.
  destruct NDEBUG eqn:Hnd; cbn [orb].
  - obind. match goal with |- context [RecoverBackgroundFlow _ _ _ _ ?d] => set (db1 := d) end. rewrite <-Hnd.
    destruct (RecoverBackgroundFlow_spec db1 _ segs' Hnd eq_refl eq_refl) as (ready & db' & st' & -> & _ & Ev & _); [|done..|].
    { pose proof (ci_wf _ _ _ _ _ _ (ti_cache _ _ _ Hti')) as Hwf. by rewrite (ti_manager _ _ _ Hti') in Hwf. }
    obind. exists ready, db'. split; [done|]. by rewrite Ev.
  - intros Hlt. by rewrite (proj2 (Z.leb_gt _ _)) by (cbn; lia).
Qed.
End Invariant.

(** ** A run *)

(** Blocks of 64 bytes, zones of four blocks, eight zones for level 0 and twelve for the others. *)
Module DbWitness.
#[global] Instance l0_ops : CircularLog MemLog.t := MemLog.ops 64 0 32.
#[global] Instance l0_laws : CircularLogLaws MemLog.t 64 (0 * 4) (8 * 4) := MemLog.laws 64 0 32 ltac:(lia) ltac:(lia).
#[global] Instance ln_ops : FragmentedLog MemFrag.t := MemFrag.ops 256 8 20.
#[global] Instance ln_laws : FragmentedLogLaws MemFrag.t (4 * 64) 8 20 := MemFrag.laws 256 8 20 ltac:(lia).
#[global] Instance cache_ops : Cache MemCache.t := MemCache.ops 4.

Abbreviation Mg := (TropoSSTableManager MemLog.t MemFrag.t).
Abbreviation Db := (TropoDBImpl RevLog.t ListRep.t (TropoVersionSet (TropoManifest MemLog.t) Mg) (TropoTableCache MemCache.t Mg)).

Definition name : bytes := [x63].
Definition fresh : SSZoneMetaData := newSSZoneMetaData 0 (repeat 0 8) (repeat 0 8).
(** The memtable is full when it has an entry. *)
Definition usage (m : MemTable (Rep := ListRep.t)) : Z := 1000 * GetInternalSize m.
Definition buffer : Z := 1000.

Definition manager : Mg := mkManager [MemLog.mk 0 []] (∅ : MemFrag.t) [(0, 8); (8, 20)].
Definition logs : list RevLog.t := replicate N_wals (RevLog.mk 4096 []).
Definition opened := Eval vm_compute in default (None, manage 64 zero_mem N_wals logs) (GetCurrentWAL 64 zero_mem true N_wals (manage 64 zero_mem N_wals logs)).
Definition wal0 : nat := default 0%nat opened.1.
Definition st0 : stripe RevLog.t ListRep.t := mkStripe newMemTable None (wal_Ref opened.2 wal0) (Some wal0) 0 false.
Definition vs0 : TropoVersionSet (TropoManifest MemLog.t) Mg := newVersionSet 0 0 (newManifest 64 (MemLog.mk 0 [])) manager.
Definition db0 : Db := mkDB [st0] vs0 (mkTableCache ([] : MemCache.t) ∅ 0 manager) OK false false.

Definition us1 : list update := [UPut [x61] [x01]; UPut [x62] [x02]].
Definition us2 : list update := [UDelete [x61]; UPut [x63] [x03]].
Definition write (db : Db) (us : list update) : Db :=
  default db (snd <$> Write (MemTableRep0 := ListRep.ops) 64 zero_mem true refuse_rest buffer db 0 false (batch_of 0 us) []).

(** A write, the switch, the first part of the flush, a write, the second part. *)
Definition db1 : Db := Eval vm_compute in write db0 us1.
Definition db2 : Db := Eval vm_compute in default db1 (SwitchMemtable 64 4 zero_mem true db1 0).
Definition flushed2 := Eval vm_compute in default (IOError, [], db2) (FlushL0SSTables 64 fresh db2 0).
Definition db3 : Db := Eval vm_compute in flushed2.2.
Definition metas : list SSZoneMetaData := Eval vm_compute in flushed2.1.2.
Definition db4 : Db := Eval vm_compute in write db3 us2.
Definition vs5 := Eval vm_compute in default (IOError, versions_ db4) (install_tables name 64 4 fresh (versions_ db4) metas).
Definition finished := Eval vm_compute in default (IOError, db4) (FinishFlush name 64 4 fresh db4 0 OK metas).
Definition db5 : Db := Eval vm_compute in default db4 (FlushCallEnd 64 4 true finished.2 0 false).
Definition got5 := Eval vm_compute in default (IOError, [], db5) (db_Get 64 4 notfound db5 [x62] 0).
Definition db6 : Db := Eval vm_compute in got5.2.

Definition events : list event :=
  [EWrite false us1 OK; ESwitch OK; EFlush; EWrite false us2 OK; EInstall; EGet [x62] OK [x02]].

Lemma fits vs us :
  Forall update_fits us -> blen us < 2 ^ 32 -> vs_last_sequence vs + blen us <= kMaxSequenceNumber ->
  22 + blen (batch_of 0 us) <= max_record 64 -> group_ok (M := TropoManifest MemLog.t) (L0 := MemLog.t) (LN := MemFrag.t) 64 vs us [] [].
Proof. intros H1 H2 H3 H4. constructor; cbn [concat]; rewrite ?app_nil_r; [constructor|done..]. Qed.

Definition wref (db : Db) : wal_ref RevLog.t :=
  default (mkRef (newWAL 64 zero_mem (RevLog.mk 4096 []) true true true) 0)
    (st ← stripes db !! 0%nat; c ← wal_ st; wals_ (wal_man_ st) !! c).
Definition synced (db : Db) : TropoWAL RevLog.t := default (wr_wal (wref db)) (snd <$> Sync 64 zero_mem (wr_wal (wref db))).

Definition stripe_of (db : Db) : stripe RevLog.t ListRep.t := default st0 (stripes db !! 0%nat).
Definition imm_of (db : Db) : MemTable (Rep := ListRep.t) := default newMemTable (imm_ (stripe_of db)).

Lemma unsplit_one t : unsplit [t].
Proof. intros i j t1 t2 kv kv' Hij Hi Hj. apply lookup_lt_Some in Hi, Hj. cbn in *. lia. Qed.

Lemma one_table : flush_tables 64 (TropoMemtable_entries (MemTableRep0 := ListRep.ops) (imm_of db2)) =
  [TropoMemtable_entries (MemTableRep0 := ListRep.ops) (imm_of db2)].
Proof. by vm_compute. Qed.

Lemma db_ran : db_run name 64 4 fresh zero_mem true refuse_rest usage buffer notfound (db0, None) events (db6, None).
Proof.
  eapply run_step; [|eapply run_step; [|eapply run_step; [|eapply run_step; [|eapply run_step; [|eapply run_step; [|apply run_done]]]]]].
  - apply (step_Write name 64 4 fresh zero_mem true refuse_rest usage buffer notfound db0 None st0 true false 0 us1 [] [] OK 0 db1).
    + done.
    + by vm_compute.
    + apply fits; [repeat constructor; vm_compute; congruence|by vm_compute..].
    + by vm_compute.
  - apply (step_Switch name 64 4 fresh zero_mem true refuse_rest usage buffer notfound db1 None (stripe_of db1) 0 true wal0 (wref db1) OK (synced db1) db2).
    + done.
    + by vm_compute.
    + by vm_compute.
    + by vm_compute.
    + by vm_compute.
    + by vm_compute.
  - apply (step_Flush name 64 4 fresh zero_mem true refuse_rest usage buffer notfound db2 (stripe_of db2) (imm_of db2) OK metas db3).
    + by vm_compute.
    + by vm_compute.
    + done.
    + done.
    + by vm_compute.
    + by vm_compute.
    + repeat constructor; vm_compute; congruence.
    + rewrite one_table. apply unsplit_one.
    + by vm_compute.
    + by rewrite one_table.
  - apply (step_Write name 64 4 fresh zero_mem true refuse_rest usage buffer notfound db3 (Some (OK, metas)) (stripe_of db3) true false 0 us2 [] [] OK 0 db4).
    + done.
    + by vm_compute.
    + apply fits; [repeat constructor; vm_compute; congruence|by vm_compute..].
    + by vm_compute.
  - by apply (step_Install name 64 4 fresh zero_mem true refuse_rest usage buffer notfound db4 OK metas vs5.2 OK finished.2 false db5); vm_compute.
  - by apply (step_Get name 64 4 fresh zero_mem true refuse_rest usage buffer notfound db5 None [x62] 0 OK [x02] db6); vm_compute.
Qed.

Lemma db_started : durable 64 4 fresh 0 8 8 20 (db0, None) (fun _ => None).
Proof.
  apply (start_durable 64 4 fresh zero_mem true 0 8 8 20 ltac:(lia) zero_mem_length db0 st0); try done.
  - apply (start 64 zero_mem true N_wals logs wal0 opened.2); [done|by repeat constructor|by vm_compute].
  - intros l Hl. change level_count with 6 in Hl.
    assert (l = 0 \/ l = 1 \/ l = 2 \/ l = 3 \/ l = 4 \/ l = 5) as [->|[->|[->|[->|[->| ->]]]]] by lia; done.
  - intros k a. apply not_elem_of_nil.
Qed.

Lemma start_represents : represents 64 4 fresh 0 8 8 20 (db0, None) (fun _ => None).
Proof. destruct db_started as (contents & st & H1 & H2 & H3 & _). by exists contents, st. Qed.

(** The process dies after a sync; the store is opened again. *)
Definition st6 : stripe RevLog.t ListRep.t := stripe_of db6.
Definition wal6 : nat := Eval vm_compute in default 0%nat (wal_ st6).
Definition reopen : Db :=
  mkDB [mkStripe newMemTable None (crashed 64 zero_mem st6 wal6 (synced db6)) None 0 false]
    (newVersionSet 0 0 (newManifest 64 (mf_log (vs_manifest (versions_ db6)))) (vs_ss_manager (versions_ db6)))
    (mkTableCache ([] : MemCache.t) ∅ 0 (vs_ss_manager (versions_ db6))) OK false false.
Definition vs7 := Eval vm_compute in
  default (IOError, versions_ db6) (Recover (SSTableManagerOps0 := manager_ops 4) name 64 fresh (versions_ reopen)).

Lemma reopen_ok : reopened name 64 4 fresh (versions_ db6) (crashed 64 zero_mem st6 wal6 (synced db6)) reopen vs7.2.
Proof.
  assert (Hlev : forall l m, 0 <= l < level_count -> m ∈ level_tables (v_ss (current vs7.2)) l -> m_number m < 1 /\ m_L0_number m < 1).
  { intros l m Hl. change level_count with 6 in Hl.
    assert (l = 0 \/ 1 <= l) as [->|H1] by lia.
    - vm_compute level_tables. intros [->|Hm%not_elem_of_nil]%elem_of_cons; done.
    - assert (l = 1 \/ l = 2 \/ l = 3 \/ l = 4 \/ l = 5) as [->|[->|[->|[->| ->]]]] by lia; by intros Hm%not_elem_of_nil. }
  constructor; try (by vm_compute).
  - intros l m Hl Hm. by apply (Hlev l m).
  - intros m Hm. by apply (Hlev 0 m).
  - intros k a. apply not_elem_of_nil.
Qed.

(** The new store is opened again before anything is written. *)
Definition reopen0 : Db :=
  mkDB [mkStripe newMemTable None (crashed 64 zero_mem st0 wal0 (synced db0)) None 0 false]
    (newVersionSet 0 0 (newManifest 64 (mf_log (vs_manifest vs0))) manager) (mkTableCache ([] : MemCache.t) ∅ 0 manager) OK false false.
Definition vs1 := Eval vm_compute in
  default (IOError, vs0) (Recover (SSTableManagerOps0 := manager_ops 4) name 64 fresh (versions_ reopen0)).

Lemma reopen0_ok : reopened name 64 4 fresh vs0 (crashed 64 zero_mem st0 wal0 (synced db0)) reopen0 vs1.2.
Proof.
  assert (Hlev : forall l m, 0 <= l < level_count -> m ∉ level_tables (v_ss (current vs1.2)) l).
  { intros l m Hl. change level_count with 6 in Hl.
    assert (l = 0 \/ l = 1 \/ l = 2 \/ l = 3 \/ l = 4 \/ l = 5) as [->|[->|[->|[->|[->| ->]]]]] by lia; apply not_elem_of_nil. }
  constructor; try (by vm_compute).
  - by intros l m Hl ?%Hlev.
  - by intros m ?%Hlev.
  - intros k a. apply not_elem_of_nil.
Qed.

Lemma start_logs : exists segs, client_inv 64 N_wals (mkClient (wal_man_ st0) [] None) segs /\ concat segs = [].
Proof.
  apply (start_inv 64 ltac:(lia) zero_mem zero_mem_length true N_wals enough_wals).
  apply (start 64 zero_mem true N_wals logs wal0 opened.2); [done|by repeat constructor|by vm_compute].
Qed.
End DbWitness.




Lemma flush_error_drops_witness :
  exists db' st', FinishFlush DbWitness.name 64 4 DbWitness.fresh DbWitness.db2 0 IOError [] = Some (OK, db') /\
    stripes db' = [st'] /\ forall kv, db_entry (MemTableRep0 := ListRep.ops) (fun _ => []) db' st' kv <->
      kv ∈ TropoMemtable_entries (MemTableRep0 := ListRep.ops) (mem_ (DbWitness.stripe_of DbWitness.db2)) \/
      entry_in (current (versions_ DbWitness.db2)) (by_number (fun _ => [])) kv.
Proof.
  destruct (flush_error_drops (MemTableRep0 := ListRep.ops) DbWitness.name 64 4 DbWitness.fresh (fun _ => []) DbWitness.db2
    (DbWitness.stripe_of DbWitness.db2) (DbWitness.imm_of DbWitness.db2) IOError [] OK
    (default (wal_man_ DbWitness.st0) (snd <$> ResetOldWALs N_wals (wal_man_ (DbWitness.stripe_of DbWitness.db2)))))
    as (db' & st' & HF & Hone & _ & _ & _ & _ & Hent).
  - by vm_compute.
  - by vm_compute.
  - done.
  - by vm_compute.
  - exact (ex_intro _ db' (ex_intro _ st' (conj HF (conj Hone Hent)))).
Defined.

Lemma recover_forgets_sequence_witness :
  exists ready db', TropoDBImpl_Recover (MemTableRep0 := ListRep.ops) DbWitness.name 64 4 DbWitness.fresh zero_mem true refuse_rest
      (fun db => (OK, db)) false false DbWitness.reopen0 12345 = Some (OK, ready, db') /\ vs_last_sequence (versions_ db') = 12345.
Proof.
  destruct DbWitness.db_started as (contents & st & [Hti _] & _). destruct DbWitness.start_logs as (segs & Hc & Hcat).
  exact (recover_forgets_sequence DbWitness.name 64 4 DbWitness.fresh zero_mem true refuse_rest 0 8 8 20 ltac:(lia) zero_mem_length
    contents DbWitness.db0 DbWitness.st0 segs DbWitness.wal0 (DbWitness.wref DbWitness.db0) (DbWitness.synced DbWitness.db0)
    DbWitness.reopen0 DbWitness.vs1.2 12345 (fun db => (OK, db)) false Hti Hc Hcat eq_refl eq_refl eq_refl DbWitness.reopen0_ok).
Defined.
