(* ===== verification/DBIter.v ===== *)
(** * DBIter: the iterator over user keys

    [table/iterators/db_iter.cc] and the random numbers of [util/random.h].  The
    iterator turns the entries of an internal iterator into the pairs that a snapshot
    sees: of every user key the newest entry with a number that is not larger than
    that of the snapshot, unless it is a deletion.  It moves in both directions.

    The internal iterator is a parameter with the laws [CursorIterator], a position in
    a sorted list of entries; [ListIterator] has them.  [dbiter_refines_map] says
    that the iterator moves like a cursor over the keys of the map that the snapshot
    stands for. *)

From Stdlib Require Import Zpow_facts Znumtheory.
From S2P Require Import Prelude Coding DbFormat Config SSTable SSTableIter Version WriteBatch Memtable Iterators Database.

(** ** Random numbers *)

(** [Random], util/random.h:25-30 *)
Definition rnd_M : Z := 2147483647.
Definition rnd_A : Z := 16807.

(** [Random::GoodSeed], util/random.h:34-34 *)
Definition GoodSeed (s : Z) : Z := if Z.land s rnd_M =? 0 then 1 else Z.land s rnd_M.

(** [Random::Next], util/random.h:44-62 *)
Definition rnd_Next (seed_ : Z) : Z :=
  let product := u64 (seed_ * rnd_A) in
  let seed_ := u32 (u64 (Z.shiftr product 31 + Z.land product rnd_M)) in
  if rnd_M <? seed_ then u32 (seed_ - rnd_M) else seed_.

(** [Random::Uniform], util/random.h:68-68: the number, and the next state. *)
Definition Uniform (seed_ n : Z) : Z * Z := let seed_ := rnd_Next seed_ in (seed_ mod n, seed_).

(** [DBIter::RandomCompactionPeriod], table/iterators/db_iter.cc:105-105 *)
Definition RandomCompactionPeriod (rnd : Z) : Z * Z := Uniform rnd (2 * 100).

(** ** The iterator *)

(** [DBIter], table/iterators/db_iter.cc:107-117.  The capacity of the strings is left out. *)
Record DBIter (I : Type) := mkDBIter {
  d_iter : I;
  d_sequence : Z;
  d_status : Status;
  d_saved_key : bytes;
  d_saved_value : bytes;
  d_direction : Direction;
  d_valid : bool;
  d_rnd : Z;
  d_bytes_until_read_sampling : Z
}.
Arguments mkDBIter {I}.
Arguments d_iter {I}.
Arguments d_sequence {I}.
Arguments d_status {I}.
Arguments d_saved_key {I}.
Arguments d_saved_value {I}.
Arguments d_direction {I}.
Arguments d_valid {I}.
Arguments d_rnd {I}.
Arguments d_bytes_until_read_sampling {I}.

Section Operations.
Context `{UserComparator} {I : Type} `{!Iterator I}.
Implicit Types d : DBIter I.

(** [DBIter::DBIter], table/iterators/db_iter.cc:47-56 *)
Definition newDBIter (iter : I) (s seed : Z) : DBIter I :=
  let '(n, rnd) := RandomCompactionPeriod (GoodSeed seed) in
  mkDBIter iter s OK [] [] kForward false rnd n.

Definition set_iter d (it : I) : DBIter I :=
  mkDBIter it (d_sequence d) (d_status d) (d_saved_key d) (d_saved_value d) (d_direction d) (d_valid d)
    (d_rnd d) (d_bytes_until_read_sampling d).
Definition set_saved d (key value : bytes) : DBIter I :=
  mkDBIter (d_iter d) (d_sequence d) (d_status d) key value (d_direction d) (d_valid d)
    (d_rnd d) (d_bytes_until_read_sampling d).
Definition set_move d (dir : Direction) (valid : bool) : DBIter I :=
  mkDBIter (d_iter d) (d_sequence d) (d_status d) (d_saved_key d) (d_saved_value d) dir valid
    (d_rnd d) (d_bytes_until_read_sampling d).
Definition set_sample d (s : Status) (rnd bytes_until : Z) : DBIter I :=
  mkDBIter (d_iter d) (d_sequence d) s (d_saved_key d) (d_saved_value d) (d_direction d) (d_valid d) rnd bytes_until.

Definition set_saved_key d (key : bytes) : DBIter I := set_saved d key (d_saved_value d).

(** [DBIter::key], table/iterators/db_iter.cc:63-66 *)
Definition dbi_key d : option bytes :=
  if d_valid d then
    Some (match d_direction d with kForward => ExtractUserKey (i_key (d_iter d)) | kReverse => d_saved_key d end)
  else None.

(** [DBIter::value], table/iterators/db_iter.cc:67-70 *)
Definition dbi_value d : option bytes :=
  if d_valid d then match d_direction d with kForward => i_value (d_iter d) | kReverse => Some (d_saved_value d) end
  else None.

(** [DBIter::status], table/iterators/db_iter.cc:71-77 *)
Definition dbi_status d : Status := if ok (d_status d) then i_status (d_iter d) else d_status d.

(** The loop of [ParseKey], table/iterators/db_iter.cc:124-127. *)
Fixpoint sample (fuel : nat) (rnd bytes_until bytes_read : Z) : option (Z * Z) :=
  match fuel with
  | O => None
  | S fuel =>
      if bytes_until <? bytes_read then
        let '(n, rnd) := RandomCompactionPeriod rnd in sample fuel rnd (u64 (bytes_until + n)) bytes_read
      else Some (rnd, bytes_until)
  end.

(** Bounds the rounds of every loop. *)
Context (fuel : nat).

(** [DBIter::ParseKey], table/iterators/db_iter.cc:120-137 *)
Definition ParseKey d : option (option ParsedInternalKey * DBIter I) :=
  let k := i_key (d_iter d) in
  v ← i_value (d_iter d);
  let bytes_read := u64 (blen k + blen v) in
  '(rnd, bytes_until) ← sample fuel (d_rnd d) (d_bytes_until_read_sampling d) bytes_read;
  let bytes_until := bytes_until - bytes_read in
  Some (match ParseInternalKey k with
        | None => (None, set_sample d Corruption rnd bytes_until)
        | Some ikey => (Some ikey, set_sample d (d_status d) rnd bytes_until)
        end).

(** The entry that the condition of the two loops accepts,
    [ParseKey(&ikey) && ikey.sequence <= sequence_]. *)
Definition visible d (parsed : option ParsedInternalKey) : option ParsedInternalKey :=
  ikey ← parsed; if pik_sequence ikey <=? d_sequence d then Some ikey else None.

(** The loop of [FindNextUserEntry], table/iterators/db_iter.cc:184-211; [skip] is [saved_key_]. *)
Fixpoint find_next (n : nat) d (skipping : bool) : option (DBIter I) :=
  match n with
  | O => None
  | S n =>
      '(parsed, d) ← ParseKey d;
      let next d skipping :=
        it ← i_Next (d_iter d);
        let d := set_iter d it in
        if i_Valid it then find_next n d skipping else Some (set_move (set_saved_key d []) (d_direction d) false) in
      match visible d parsed with
      | None => next d skipping
      | Some ikey =>
          if pik_type ikey =? kTypeDeletion then next (set_saved_key d (pik_user_key ikey)) true
          else if pik_type ikey =? kTypeValue then
            if skipping && bool_decide (cle Compare (pik_user_key ikey) (d_saved_key d)) then next d skipping
            else Some (set_move (set_saved_key d []) (d_direction d) true)
          else next d skipping
      end
  end.

(** [DBIter::FindNextUserEntry], table/iterators/db_iter.cc:180-212 *)
Definition FindNextUserEntry d (skipping : bool) : option (DBIter I) :=
  if i_Valid (d_iter d) && bool_decide (d_direction d = kForward) then find_next fuel d skipping else None.

(** The loop of [FindPrevUserEntry], table/iterators/db_iter.cc:246-269, with [value_type]. *)
Fixpoint find_prev (n : nat) d (value_type : ValueType) : option (DBIter I * ValueType) :=
  match n with
  | O => None
  | S n =>
      '(parsed, d) ← ParseKey d;
      let prev d value_type :=
        it ← i_Prev (d_iter d);
        let d := set_iter d it in
        if i_Valid it then find_prev n d value_type else Some (d, value_type) in
      match visible d parsed with
      | None => prev d value_type
      | Some ikey =>
          if negb (value_type =? kTypeDeletion) && bool_decide (clt Compare (pik_user_key ikey) (d_saved_key d))
          then Some (d, value_type)
          else if pik_type ikey =? kTypeDeletion then prev (set_saved d [] []) (pik_type ikey)
          else
            raw_value ← i_value (d_iter d);
            prev (set_saved d (ExtractUserKey (i_key (d_iter d))) raw_value) (pik_type ikey)
      end
  end.

(** [DBIter::FindPrevUserEntry], table/iterators/db_iter.cc:241-281 *)
Definition FindPrevUserEntry d : option (DBIter I) :=
  if bool_decide (d_direction d = kReverse) then
    '(d, value_type) ← (if i_Valid (d_iter d) then find_prev fuel d kTypeDeletion else Some (d, kTypeDeletion));
    Some (if value_type =? kTypeDeletion then set_move (set_saved d [] []) kForward false
          else set_move d (d_direction d) true)
  else None.

(** [DBIter::Next], table/iterators/db_iter.cc:144-178 *)
Definition dbi_Next d : option (DBIter I) :=
  if d_valid d then
    d ← match d_direction d with
        | kReverse =>
            it ← (if i_Valid (d_iter d) then i_Next (d_iter d) else i_SeekToFirst (d_iter d));
            Some (set_move (set_iter d it) kForward (d_valid d))
        | kForward =>
            let d := set_saved_key d (ExtractUserKey (i_key (d_iter d))) in
            it ← i_Next (d_iter d);
            Some (set_iter d it)
        end;
    if i_Valid (d_iter d) then FindNextUserEntry d true
    else Some (set_move (set_saved_key d []) (d_direction d) false)
  else None.

(** The loop of [Prev], table/iterators/db_iter.cc:222-235: whether an entry of an earlier key was
    found. *)
Fixpoint prev_key (n : nat) d : option (bool * DBIter I) :=
  match n with
  | O => None
  | S n =>
      it ← i_Prev (d_iter d);
      let d := set_iter d it in
      if negb (i_Valid it) then Some (false, set_move (set_saved d [] []) (d_direction d) false)
      else if bool_decide (clt Compare (ExtractUserKey (i_key it)) (d_saved_key d)) then Some (true, d)
      else prev_key n d
  end.

(** [DBIter::Prev], table/iterators/db_iter.cc:214-239 *)
Definition dbi_Prev d : option (DBIter I) :=
  if d_valid d then
    match d_direction d with
    | kForward =>
        if i_Valid (d_iter d) then
          '(more, d) ← prev_key fuel (set_saved_key d (ExtractUserKey (i_key (d_iter d))));
          if (more : bool) then FindPrevUserEntry (set_move d kReverse (d_valid d)) else Some d
        else None
    | kReverse => FindPrevUserEntry d
    end
  else None.

(** [DBIter::Seek], table/iterators/db_iter.cc:283-295 *)
Definition dbi_Seek d (target : bytes) : option (DBIter I) :=
  let d := set_move d kForward (d_valid d) in
  let d := set_saved d (AppendInternalKey [] (mkPIK target (d_sequence d) kValueTypeForSeek)) [] in
  it ← i_Seek (d_iter d) (d_saved_key d);
  let d := set_iter d it in
  if i_Valid it then FindNextUserEntry d false else Some (set_move d kForward false).

(** [DBIter::SeekForPrev], table/iterators/db_iter.cc:139-142 *)
Definition dbi_SeekForPrev d (target : bytes) : option (DBIter I) :=
  d ← dbi_Seek d target; dbi_Prev d.

(** [DBIter::SeekToFirst], table/iterators/db_iter.cc:297-306 *)
Definition dbi_SeekToFirst d : option (DBIter I) :=
  let d := set_saved (set_move d kForward (d_valid d)) (d_saved_key d) [] in
  it ← i_SeekToFirst (d_iter d);
  let d := set_iter d it in
  if i_Valid it then FindNextUserEntry d false else Some (set_move d kForward false).

(** [DBIter::SeekToLast], table/iterators/db_iter.cc:308-313 *)
Definition dbi_SeekToLast d : option (DBIter I) :=
  let d := set_saved (set_move d kReverse (d_valid d)) (d_saved_key d) [] in
  it ← i_SeekToLast (d_iter d);
  FindPrevUserEntry (set_iter d it).
End Operations.

(** ** Sampling ends *)

(** A state of the generator: [rnd_M] is a fixed point, the other states are on one cycle. *)
Definition rnd_ok (r : Z) : Prop := 0 < r <= rnd_M.

Lemma GoodSeed_ok s : rnd_ok (GoodSeed s).
Proof.
  unfold rnd_ok, GoodSeed. assert (E : Z.land s rnd_M = s mod 2 ^ 31) by exact (Z.land_ones s 31 ltac:(lia)).
  rewrite E. unfold rnd_M.
  pose proof (Z.mod_pos_bound s (2 ^ 31) ltac:(lia)). destruct (Z.eqb_spec (s mod 2 ^ 31) 0); lia.
Qed.

Lemma rnd_Next_M : rnd_Next rnd_M = rnd_M.
Proof. done. Qed.

Lemma rnd_Next_mod r : 0 < r < rnd_M -> rnd_Next r = (rnd_A * r) mod rnd_M /\ 0 < rnd_Next r < rnd_M.
Proof.
  intros Hr. assert (E : rnd_Next r = (rnd_A * r) mod rnd_M).
  { unfold rnd_Next, rnd_M, rnd_A in *. rewrite (u64_small (r * 16807)) by word. set (p := r * 16807).
    assert (El : Z.land p 2147483647 = p mod 2 ^ 31) by exact (Z.land_ones p 31 ltac:(lia)).
    rewrite El, Z.shiftr_div_pow2 by lia.
    pose proof (Z.div_mod p (2 ^ 31) ltac:(lia)) as Ep. pose proof (Z.mod_pos_bound p (2 ^ 31) ltac:(lia)).
    assert (0 <= p / 2 ^ 31 < 16807) by (split; [apply Z.div_pos|apply Z.div_lt_upper_bound]; lia).
    rewrite u64_small, u32_small by word. rewrite (Z.mul_comm 16807 r). fold p.
    assert (Hne : p mod 2147483647 <> 0).
    { intros E%Z.mod_divide; [|done]. unfold p in E. rewrite Z.mul_comm in E.
      apply Z.gauss in E; [|done]. apply Z.divide_pos_le in E; lia. }
    set (s := p / 2 ^ 31 + p mod 2 ^ 31) in *.
    assert (Es : p mod 2147483647 = s mod 2147483647).
    { rewrite Ep. replace (2 ^ 31 * (p / 2 ^ 31) + p mod 2 ^ 31) with (s + (p / 2 ^ 31) * 2147483647) by (unfold s; lia).
      by rewrite Z.mod_add. }
    rewrite Es in *. destruct (Z.ltb_spec 2147483647 s).
    - rewrite u32_small by (unfold s in *; word). symmetry. rewrite <-(Z.mod_add s (-1)) by lia. apply Z.mod_small. unfold s in *. lia.
    - symmetry. apply Z.mod_small. destruct (decide (s = 2147483647)) as [Eq|]; [by rewrite Eq in Hne|]. unfold s in *. lia. }
  split; [done|]. rewrite E. pose proof (Z.mod_pos_bound (rnd_A * r) rnd_M ltac:(done)).
  destruct (decide ((rnd_A * r) mod rnd_M = 0)) as [E0|]; [|lia]. apply Z.mod_divide in E0; [|done].
  apply Z.gauss in E0; [|done]. apply Z.divide_pos_le in E0; lia.
Qed.

Lemma rnd_Next_ok r : rnd_ok r -> rnd_ok (rnd_Next r).
Proof.
  unfold rnd_ok. intros Hr. destruct (decide (r = rnd_M)) as [->|]; [by rewrite rnd_Next_M|].
  pose proof (rnd_Next_mod r ltac:(lia)). lia.
Qed.

Lemma rnd_iter_mod k r : 0 < r < rnd_M -> Nat.iter k rnd_Next r = (rnd_A ^ Z.of_nat k * r) mod rnd_M.
Proof.
  intros Hr. enough (Nat.iter k rnd_Next r = (rnd_A ^ Z.of_nat k * r) mod rnd_M /\ 0 < Nat.iter k rnd_Next r < rnd_M) by tauto.
  induction k as [|k [IH IHr]]; [rewrite Z.mul_1_l, Z.mod_small by lia; done|].
  destruct (rnd_Next_mod _ IHr) as [E Hn]. change (Nat.iter (S k) rnd_Next r) with (rnd_Next (Nat.iter k rnd_Next r)).
  split; [|done]. rewrite E, IH, Nat2Z.inj_succ, Z.pow_succ_r by lia.
  rewrite Zmult_mod_idemp_r. f_equal. lia.
Qed.

(** Half of the cycle. *)
Definition half_cycle : Z := (rnd_M - 1) / 2.

Lemma rnd_half : rnd_A ^ half_cycle mod rnd_M = rnd_M - 1.
Proof. rewrite <-Zpow_mod_correct by done. by vm_compute. Qed.

(** Half a cycle after [r] comes [rnd_M - r], so one of the two is not a multiple of 200. *)
Lemma rnd_not_zero r : rnd_ok r ->
  exists k, (k <= Z.to_nat half_cycle)%nat /\ Nat.iter (S k) rnd_Next r mod (2 * 100) <> 0.
Proof.
  intros Hr. destruct (decide (r = rnd_M)) as [->|Hne]; [exists 0%nat; split; [lia|done]|].
  destruct (rnd_Next_mod r) as [_ Hn]; [unfold rnd_ok in Hr; lia|].
  destruct (decide (rnd_Next r mod (2 * 100) = 0)) as [E0|]; [|exists 0%nat; split; [lia|done]].
  exists (Z.to_nat half_cycle). split; [done|]. set (r1 := rnd_Next r) in *.
  assert (Ei : Nat.iter (S (Z.to_nat half_cycle)) rnd_Next r = rnd_M - r1).
  { rewrite Nat.iter_succ_r. fold r1. rewrite rnd_iter_mod by done. rewrite Z2Nat.id by (by vm_compute).
    rewrite <-Zmult_mod_idemp_l, rnd_half. replace ((rnd_M - 1) * r1) with (rnd_M - r1 + (r1 - 1) * rnd_M) by lia.
    rewrite Z.mod_add by done. apply Z.mod_small. lia. }
  rewrite Ei. apply Z.mod_divide in E0 as [q Eq]; [|done]. rewrite Eq.
  replace (rnd_M - q * (2 * 100)) with (rnd_M + (- q) * (2 * 100)) by lia. by rewrite Z.mod_add.
Qed.

(** The rounds that are enough for [n] bytes. *)
Definition sample_fuel (n : nat) : nat := n * S (Z.to_nat half_cycle) + 1.

Lemma sample_ends (n : nat) : forall r b b_read fuel,
  rnd_ok r -> 0 <= b -> b_read <= b + Z.of_nat n -> b_read < 2 ^ 63 -> b < 2 ^ 64 -> (sample_fuel n <= fuel)%nat ->
  exists r' b', sample fuel r b b_read = Some (r', b') /\ rnd_ok r' /\ b_read <= b' < 2 ^ 64 /\ 0 <= b'.
Proof.
  unfold sample_fuel. generalize (Z.to_nat half_cycle) rnd_not_zero. intros N Hnz.
  induction n as [|n IH]; intros r b b_read fuel Hr Hb Hread Hlt Hb64 Hf.
  - destruct fuel; [lia|]. cbn. rewrite (proj2 (Z.ltb_ge _ _)) by lia. exists r, b. split_and!; done || lia.
  - destruct (Hnz r Hr) as (k & Hk & Hnz'). assert (Hf' : (n * S N + 1 + S k <= fuel)%nat) by lia. clear Hf Hk.
    revert r b fuel Hr Hb Hb64 Hread Hf' Hnz'. induction k as [|k IHk]; intros r b fuel Hr Hb Hb64 Hread Hf Hz; (destruct fuel as [|fuel]; [lia|]); cbn [sample];
      (destruct (Z.ltb_spec b b_read); [|exists r, b; split_and!; done || lia]); unfold RandomCompactionPeriod, Uniform;
      pose proof (rnd_Next_ok r Hr) as Hr'; pose proof (Z.mod_pos_bound (rnd_Next r) (2 * 100) ltac:(lia));
      rewrite u64_small by word.
    + apply IH; [done|lia|cbn in Hz; lia|done|lia|lia].
    + destruct (decide (rnd_Next r mod (2 * 100) = 0)) as [E0|].
      * rewrite E0. apply IHk; [done|lia|lia|lia|lia|]. by rewrite <-Nat.iter_succ_r.
      * apply IH; [done|lia|lia|done|lia|lia].
Qed.

(** ** The internal iterator *)

(** The position [n], if there is an entry. *)
Definition at_index (kvs : list KV) (n : nat) : option nat := (fun _ => n) <$> kvs !! n.

Lemma at_index_bound kvs n n' : at_index kvs n = Some n' -> (n' < length kvs)%nat.
Proof. unfold at_index. destruct (kvs !! n) eqn:E; intros [= <-]. by eapply lookup_lt_Some. Qed.

(** The first entry that is not before [k]. *)
Definition seek_index `{UserComparator} (kvs : list KV) (k : bytes) : option nat :=
  fst <$> list_find (fun kv => cle InternalCompare k (fst kv)) kvs.

(** What the iterator relies on: [ci_at it kvs p] for an iterator at the position [p] of
    the entries [kvs], which is invalid at no position. *)
Class CursorIterator `{UserComparator} (I : Type) `{!Iterator I} := {
  ci_at : I -> list KV -> option nat -> Prop;
  ci_valid : forall it kvs p, ci_at it kvs p -> i_Valid it = bool_decide (is_Some p);
  ci_entry : forall it kvs n, ci_at it kvs (Some n) ->
    exists kv, kvs !! n = Some kv /\ i_key it = fst kv /\ i_value it = Some (snd kv);
  ci_status : forall it kvs p, ci_at it kvs p -> i_status it = OK;
  ci_first : forall it kvs p, ci_at it kvs p ->
    exists it', i_SeekToFirst it = Some it' /\ ci_at it' kvs (at_index kvs 0);
  ci_last : forall it kvs p, ci_at it kvs p ->
    exists it', i_SeekToLast it = Some it' /\ ci_at it' kvs (at_index kvs (pred (length kvs)));
  ci_seek : forall it kvs p k, ci_at it kvs p ->
    exists it', i_Seek it k = Some it' /\ ci_at it' kvs (seek_index kvs k);
  ci_next : forall it kvs n, ci_at it kvs (Some n) ->
    exists it', i_Next it = Some it' /\ ci_at it' kvs (at_index kvs (S n));
  ci_prev : forall it kvs n, ci_at it kvs (Some n) ->
    exists it', i_Prev it = Some it' /\ ci_at it' kvs (match n with O => None | S n => Some n end)
}.

(** A list of entries with a position. *)
Record ListIterator := mkListIterator { li_entries : list KV; li_pos : option nat }.

Definition li_entry (it : ListIterator) : option KV := n ← li_pos it; li_entries it !! n.

#[global] Instance list_iterator_ops `{UserComparator} : Iterator ListIterator := {|
  i_Valid it := bool_decide (is_Some (li_pos it));
  i_key it := match li_entry it with Some kv => fst kv | None => [] end;
  i_value it := snd <$> li_entry it;
  i_status _ := OK;
  i_SeekToFirst it := Some (mkListIterator (li_entries it) (at_index (li_entries it) 0));
  i_SeekToLast it := Some (mkListIterator (li_entries it) (at_index (li_entries it) (pred (length (li_entries it)))));
  i_Seek it k := Some (mkListIterator (li_entries it) (seek_index (li_entries it) k));
  i_Next it := n ← li_pos it; Some (mkListIterator (li_entries it) (at_index (li_entries it) (S n)));
  i_Prev it := n ← li_pos it; Some (mkListIterator (li_entries it) (match n with O => None | S n => Some n end))
|}.

Definition list_at (it : ListIterator) (kvs : list KV) (p : option nat) : Prop :=
  li_entries it = kvs /\ li_pos it = p /\ forall n, p = Some n -> (n < length kvs)%nat.

#[global] Instance list_cursor `{UserComparator} : CursorIterator ListIterator.
Proof.
  refine {| ci_at := list_at |}; cbn; unfold list_at.
  - by intros it kvs p (_ & -> & _).
  - intros it kvs n (<- & E & Hn). destruct (lookup_lt_is_Some_2 (li_entries it) n (Hn n eq_refl)) as [kv Hkv].
    exists kv. unfold li_entry. rewrite E. obind. by rewrite Hkv.
  - done.
  - intros it kvs p (<- & E & _). eexists. split_and!; [done..|]. apply at_index_bound.
  - intros it kvs p (<- & E & _). eexists. split_and!; [done..|]. apply at_index_bound.
  - intros it kvs p k (<- & E & _). eexists. split_and!; [done..|]. cbn. intros n. unfold seek_index.
    destruct (list_find _ _) as [[j kv]|] eqn:Ef; intros [= <-]. apply list_find_Some in Ef as (Hl & _). by eapply lookup_lt_Some.
  - intros it kvs n (<- & E & _). rewrite E. obind. eexists. split_and!; [done..|]. apply at_index_bound.
  - intros it kvs n (<- & E & Hn). rewrite E. obind. eexists. split_and!; [done..|]. cbn. specialize (Hn n eq_refl).
    destruct n; intros n' [= <-]. lia.
Defined.

(** ** A cursor over a map *)

Inductive dbi_op :=
  | O_SeekToFirst
  | O_SeekToLast
  | O_Seek (target : bytes)
  | O_SeekForPrev (target : bytes)
  | O_Next
  | O_Prev.

Section Cursor.
Context `{UserComparator} (f : bytes -> option bytes).

(** The least key of the map with [P], and the greatest one. *)
Definition is_least (P : bytes -> Prop) (o : option bytes) : Prop :=
  match o with
  | Some u => is_Some (f u) /\ P u /\ forall u', is_Some (f u') -> P u' -> cle Compare u u'
  | None => forall u', is_Some (f u') -> ~ P u'
  end.
Definition is_greatest (P : bytes -> Prop) (o : option bytes) : Prop :=
  match o with
  | Some u => is_Some (f u) /\ P u /\ forall u', is_Some (f u') -> P u' -> cle Compare u' u
  | None => forall u', is_Some (f u') -> ~ P u'
  end.

(** The cursor is at a key of the map or at none.  [SeekForPrev] is [Seek] and [Prev], so
    it does not stop at its target. *)
Inductive cursor_step : option bytes -> dbi_op -> option bytes -> Prop :=
  | cs_first o o' : is_least (fun _ => True) o' -> cursor_step o O_SeekToFirst o'
  | cs_last o o' : is_greatest (fun _ => True) o' -> cursor_step o O_SeekToLast o'
  | cs_seek o t o' : is_least (cle Compare t) o' -> cursor_step o (O_Seek t) o'
  | cs_seek_prev o t u o' :
      is_least (cle Compare t) (Some u) -> is_greatest (fun u' => clt Compare u' u) o' -> cursor_step o (O_SeekForPrev t) o'
  | cs_next u o' : is_least (clt Compare u) o' -> cursor_step (Some u) O_Next o'
  | cs_prev u o' : is_greatest (fun u' => clt Compare u' u) o' -> cursor_step (Some u) O_Prev o'.

(** The operations that need a valid iterator. *)
Inductive cursor_stops : option bytes -> dbi_op -> Prop :=
  | st_next : cursor_stops None O_Next
  | st_prev : cursor_stops None O_Prev
  | st_seek_prev o t : is_least (cle Compare t) None -> cursor_stops o (O_SeekForPrev t).

(** What is seen at a key. *)
Definition cursor_sees (o : option bytes) : option KV * Status := (u ← o; v ← f u; Some (u, v), OK).

Inductive cursor_run : option bytes -> list dbi_op -> option (list (option KV * Status)) -> Prop :=
  | cr_nil o : cursor_run o [] (Some [])
  | cr_stop o op ops : cursor_stops o op -> cursor_run o (op :: ops) None
  | cr_cons o op ops o' r : cursor_step o op o' -> cursor_run o' ops r -> cursor_run o (op :: ops) (cons (cursor_sees o') <$> r).
End Cursor.

Section Run.
Context `{UserComparator} {I : Type} `{!Iterator I} (fuel : nat).

Definition dbi_step (d : DBIter I) (op : dbi_op) : option (DBIter I) :=
  match op with
  | O_SeekToFirst => dbi_SeekToFirst fuel d
  | O_SeekToLast => dbi_SeekToLast fuel d
  | O_Seek t => dbi_Seek fuel d t
  | O_SeekForPrev t => dbi_SeekForPrev fuel d t
  | O_Next => dbi_Next fuel d
  | O_Prev => dbi_Prev fuel d
  end.

(** [Valid], [key], [value] and [status]. *)
Definition dbi_sees (d : DBIter I) : option (option KV * Status) :=
  if d_valid d then k ← dbi_key d; v ← dbi_value d; Some (Some (k, v), dbi_status d) else Some (None, dbi_status d).

Fixpoint dbi_run (d : DBIter I) (ops : list dbi_op) : option (list (option KV * Status)) :=
  match ops with
  | [] => Some []
  | op :: ops => d ← dbi_step d op; s ← dbi_sees d; r ← dbi_run d ops; Some (s :: r)
  end.
End Run.

(** ** The entries that a snapshot sees *)

Section Snapshot.
Context `{UserComparator} (kvs : list KV) (s : Z) (f : bytes -> option bytes).
Hypothesis (Hsort : StronglySorted kv_lt kvs).
Hypothesis (Hf : stands_for (fun kv => kv ∈ kvs /\ seq_of kv <= s) f).

(** The entry [i] is the newest one of its key that the snapshot sees, and a put. *)
Definition live (i : nat) (kv : KV) : Prop :=
  kvs !! i = Some kv /\ seq_of kv <= s /\ is_Some (value_of kv) /\
  forall j kv', (j < i)%nat -> kvs !! j = Some kv' -> ukey kv' = ukey kv -> ~ seq_of kv' <= s.

Lemma keys_mono i j a b : (i <= j)%nat -> kvs !! i = Some a -> kvs !! j = Some b -> cle Compare (ukey a) (ukey b).
Proof.
  intros Hij Ha Hb. destruct (decide (i = j)) as [->|]; [replace b with a by congruence; reflexivity|].
  assert (Hlt : kv_lt a b) by (apply (StronglySorted_lookup kv_lt kvs i j); done || lia).
  unfold kv_lt, clt in Hlt. rewrite InternalCompare_lex in Hlt. unfold cle, ukey. by destruct (Compare _ _).
Qed.

Lemma live_value i kv : live i kv -> f (ukey kv) = value_of kv.
Proof.
  intros (Hi & Hs & _ & Hno). apply (proj1 (Hf (ukey kv))). split_and!; [by eapply list_elem_of_lookup_2|done..|].
  intros kv' [(j & Hj)%list_elem_of_lookup Hs'] Hu. destruct (decide (j < i)%nat) as [Hlt|]; [by edestruct Hno|].
  destruct (decide (j = i)) as [->|]; [replace kv' with kv by congruence; apply kv_le_refl|].
  apply kv_lt_le, (StronglySorted_lookup kv_lt kvs i j); done || lia.
Qed.

Lemma live_of_value u : is_Some (f u) -> exists i kv, live i kv /\ ukey kv = u.
Proof.
  intros Hu. destruct (Hf u) as [Hnew Hnone].
  destruct (list_find (fun kv => ukey kv = u /\ seq_of kv <= s) kvs) as [[i kv]|] eqn:E.
  - apply list_find_Some in E as (Hi & [Hk Hs] & Hmin). exists i, kv. split; [|done].
    assert (Hl : forall j kv', (j < i)%nat -> kvs !! j = Some kv' -> ukey kv' = ukey kv -> ~ seq_of kv' <= s).
    { intros j kv' Hj Hkv' Hu' Hs'. apply (Hmin j kv' Hkv' Hj). split; [congruence|done]. }
    split_and!; [done..| |done]. rewrite <-(Hnew kv); [done|]. split_and!; [by eapply list_elem_of_lookup_2|done..|].
    intros kv' [(j & Hj)%list_elem_of_lookup Hs'] Hu'. destruct (decide (j < i)%nat) as [Hlt|]; [exfalso; eapply Hl; eauto; congruence|].
    destruct (decide (j = i)) as [->|]; [replace kv' with kv by congruence; apply kv_le_refl|].
    apply kv_lt_le, (StronglySorted_lookup kv_lt kvs i j); done || lia.
  - apply list_find_None in E. rewrite Hnone in Hu; [by apply is_Some_None in Hu|].
    intros kv [Hin Hs] Hk. rewrite Forall_forall in E. by apply (E kv Hin).
Qed.

Lemma least_live (P : bytes -> Prop) i kv :
  live i kv -> P (ukey kv) -> (forall j kv', (j < i)%nat -> live j kv' -> ~ P (ukey kv')) -> is_least f P (Some (ukey kv)).
Proof.
  intros Hl HP Hno. split_and!; [rewrite (live_value _ _ Hl); apply Hl|done|].
  intros u' (j & kv' & Hl' & <-)%live_of_value HP'. apply (keys_mono i j); [|apply Hl|apply Hl'].
  destruct (decide (j < i)%nat); [by edestruct Hno|lia].
Qed.

Lemma greatest_live (P : bytes -> Prop) i kv :
  live i kv -> P (ukey kv) -> (forall j kv', (i < j)%nat -> live j kv' -> ~ P (ukey kv')) -> is_greatest f P (Some (ukey kv)).
Proof.
  intros Hl HP Hno. split_and!; [rewrite (live_value _ _ Hl); apply Hl|done|].
  intros u' (j & kv' & Hl' & <-)%live_of_value HP'. apply (keys_mono j i); [|apply Hl'|apply Hl].
  destruct (decide (i < j)%nat); [by edestruct Hno|lia].
Qed.

Lemma none_live (P : bytes -> Prop) : (forall j kv, live j kv -> ~ P (ukey kv)) -> forall u, is_Some (f u) -> ~ P u.
Proof. intros Hno u (j & kv & Hl & <-)%live_of_value. by apply Hno with j. Qed.
End Snapshot.

(** ** The loops *)

Section Loops.
Context `{UserComparator} {I : Type} `{!Iterator I} `{!CursorIterator I}.
Context (kvs : list KV) (s : Z) (f : bytes -> option bytes) (size fuel : nat).
Hypothesis (Hsort : StronglySorted kv_lt kvs).
Hypothesis (Hok : Forall entry_ok kvs).
Hypothesis (Hsize : Forall (fun kv => blen (fst kv) + blen (snd kv) <= Z.of_nat size) kvs).
Hypothesis (Hsize63 : Z.of_nat size < 2 ^ 63).
Hypothesis (Hf : stands_for (fun kv => kv ∈ kvs /\ seq_of kv <= s) f).
Hypothesis (Hfuel : (length kvs < fuel /\ sample_fuel size <= fuel)%nat).
Implicit Types d : DBIter I.

(** Of an entry the iterator uses the parsed key. *)
Lemma entry_parsed i kv : kvs !! i = Some kv ->
  exists t, ParseInternalKey (fst kv) = Some (mkPIK (ukey kv) (seq_of kv) t) /\
    (t = kTypeValue /\ value_of kv = Some (snd kv) \/ t = kTypeDeletion /\ value_of kv = None).
Proof.
  intros Hi. destruct (Forall_lookup_1 _ _ _ _ Hok Hi) as (q & up & -> & Hq).
  destruct (entry_of_parts q up Hq) as (-> & -> & Hp). unfold value_of. rewrite Hp.
  eexists. split; [done|]. destruct up; [left|right]; done.
Qed.

(** The fields that a move keeps, and the position of the internal iterator. *)
Record at_pos d (p : option nat) : Prop := mkAtPos {
  ap_sequence : d_sequence d = s;
  ap_status : d_status d = OK;
  ap_rnd : rnd_ok (d_rnd d);
  ap_bytes : 0 <= d_bytes_until_read_sampling d < 2 ^ 64;
  ap_iter : ci_at (d_iter d) kvs p
}.

Lemma at_pos_valid d p : at_pos d p -> i_Valid (d_iter d) = bool_decide (is_Some p).
Proof. intros Hp. apply (ci_valid _ _ _ (ap_iter _ _ Hp)). Qed.

Lemma at_pos_saved d p k v : at_pos d p -> at_pos (set_saved d k v) p.
Proof. intros []. by constructor. Qed.

Lemma at_pos_move d p dir v : at_pos d p -> at_pos (set_move d dir v) p.
Proof. intros []. by constructor. Qed.

Lemma at_pos_iter d p it p' : at_pos d p -> ci_at it kvs p' -> at_pos (set_iter d it) p'.
Proof. intros [] ?. by constructor. Qed.

Lemma ParseKey_spec d i kv : at_pos d (Some i) -> kvs !! i = Some kv ->
  exists t r b,
    ParseKey fuel d = Some (Some (mkPIK (ukey kv) (seq_of kv) t), set_sample d (d_status d) r b) /\
    at_pos (set_sample d (d_status d) r b) (Some i) /\ i_value (d_iter d) = Some (snd kv) /\ ExtractUserKey (i_key (d_iter d)) = ukey kv /\
    (t = kTypeValue /\ value_of kv = Some (snd kv) \/ t = kTypeDeletion /\ value_of kv = None).
Proof.
  intros [Hs Hst Hr Hb Hc] Hi. destruct (ci_entry _ _ _ Hc) as (kv' & Hi' & Ek & Ev).
  assert (kv' = kv) as -> by congruence. destruct (entry_parsed i kv Hi) as (t & Hp & Ht).
  pose proof (Forall_lookup_1 _ _ _ _ Hsize Hi) as Hb'. cbn in Hb'. pose proof (blen_nonneg (fst kv)). pose proof (blen_nonneg (snd kv)).
  destruct (sample_ends size (d_rnd d) (d_bytes_until_read_sampling d) (blen (fst kv) + blen (snd kv)) fuel) as (r & b & Es & Hr' & Hb1 & Hb2);
    [done|lia|lia|lia|lia|lia|].
  exists t, r, (b - (blen (fst kv) + blen (snd kv))). split_and!; [| |done| |done].
  - unfold ParseKey. rewrite Ek, Ev. obind. rewrite u64_small by word. rewrite Es. obind. by rewrite Hp.
  - constructor; cbn; done || lia.
  - by rewrite Ek.
Qed.

(** No entry before [i] that the snapshot sees is between the position and [i]. *)
Definition just_before (p : option nat) (i : nat) (u : bytes) : Prop :=
  (forall m kv, (match p with Some j => j < m | None => True end)%nat -> (m < i)%nat -> kvs !! m = Some kv -> ~ seq_of kv <= s) /\
  match p with Some j => (j < i)%nat /\ exists kv, kvs !! j = Some kv /\ clt Compare (ukey kv) u | None => True end.

(** The iterator is at the key [u] of the map, or at none. *)
Definition at_key d (o : option bytes) : Prop :=
  exists p, at_pos d p /\
  match o with
  | None => d_valid d = false
  | Some u =>
      d_valid d = true /\ exists i kv, live kvs s i kv /\ ukey kv = u /\
        match d_direction d with
        | kForward => p = Some i
        | kReverse => d_saved_key d = u /\ value_of kv = Some (d_saved_value d) /\ just_before p i u
        end
  end.

Section Forward.
Context (P : bytes -> Prop) `{HP : forall u, Decision (P u)}.

(** The invariant of [find_next] at the entry [i]: the live entries before do not have [P],
    and exactly those entries are skipped that do not have it or come after an entry of their
    key that the snapshot sees. *)
Record next_inv (i : nat) (skipping : bool) (skip : bytes) : Prop := mkNextInv {
  ni_none : forall j kv, (j < i)%nat -> live kvs s j kv -> ~ P (ukey kv);
  ni_skip : forall m kv, (i <= m)%nat -> kvs !! m = Some kv -> seq_of kv <= s ->
    skipping = true /\ cle Compare (ukey kv) skip <->
    ~ P (ukey kv) \/ exists j kv', (j < i)%nat /\ kvs !! j = Some kv' /\ seq_of kv' <= s /\ ukey kv' = ukey kv;
  ni_order : forall m kv u, (i <= m)%nat -> kvs !! m = Some kv -> seq_of kv <= s -> ~ P u -> cle Compare u (ukey kv)
}.

Lemma next_inv_invisible i kv skipping skip :
  next_inv i skipping skip -> kvs !! i = Some kv -> ~ seq_of kv <= s -> next_inv (S i) skipping skip.
Proof.
  intros [Hn Hs Ho] Hi Hv. constructor.
  - intros j kv' Hj Hl. destruct (decide (j = i)) as [->|]; [|apply (Hn j); [lia|done]].
    destruct Hl as (Hi' & Hs' & _). by replace kv' with kv in * by congruence.
  - intros m kv' Hm Hkv Hs'. rewrite (Hs m kv') by (done || lia). split; (intros [?|(j & kv'' & Hj & Hkv'' & Hs'' & Hu)]; [by left|right]).
    + exists j, kv''. split_and!; done || lia.
    + exists j, kv''. split_and!; [|done..]. destruct (decide (j = i)) as [->|]; [by replace kv'' with kv in * by congruence|lia].
  - intros m kv' u Hm. apply Ho. lia.
Qed.

Lemma next_inv_hidden i kv skipping skip :
  next_inv i skipping skip -> kvs !! i = Some kv -> seq_of kv <= s -> skipping = true /\ cle Compare (ukey kv) skip ->
  next_inv (S i) skipping skip.
Proof.
  intros [Hn Hs Ho] Hi Hv Hh. pose proof Hh as Hh'. apply (Hs i) in Hh' as Hh'; [|done..]. constructor.
  - intros j kv' Hj Hl. destruct (decide (j = i)) as [->|]; [|apply (Hn j); [lia|done]].
    destruct Hl as (Hi' & Hs' & _ & Hl). replace kv' with kv in * by congruence.
    destruct Hh' as [?|(j & kv'' & Hj' & Hkv'' & Hs'' & Hu)]; [done|]. by edestruct Hl.
  - intros m kv' Hm Hkv Hs'. rewrite (Hs m kv') by (done || lia). split; (intros [?|(j & kv'' & Hj & Hkv'' & Hs'' & Hu)]; [by left|]).
    + right. exists j, kv''. split_and!; done || lia.
    + destruct (decide (j = i)) as [->|]; [|right; exists j, kv''; split_and!; done || lia].
      replace kv'' with kv in * by congruence. by rewrite <-Hu.
  - intros m kv' u Hm. apply Ho. lia.
Qed.

Lemma next_inv_deletion i kv skipping skip :
  next_inv i skipping skip -> kvs !! i = Some kv -> seq_of kv <= s -> value_of kv = None -> next_inv (S i) true (ukey kv).
Proof.
  intros [Hn Hs Ho] Hi Hv Hd. constructor.
  - intros j kv' Hj Hl. destruct (decide (j = i)) as [->|]; [|apply (Hn j); [lia|done]].
    destruct Hl as (Hi' & _ & [? Hl] & _). congruence.
  - intros m kv' Hm Hkv Hs'. pose proof (keys_mono kvs Hsort i m kv kv' ltac:(lia) Hi Hkv) as Hle. split.
    + intros [_ Hge]. right. exists i, kv. split_and!; [lia|done..|].
      apply Compare_eq. destruct (Compare (ukey kv) (ukey kv')) eqn:Ec; [done| |done].
      unfold cle in Hge. rewrite cmp_opp, Ec in Hge. done.
    + intros [HnP|(j & kv'' & Hj & Hkv'' & Hs'' & Hu)]; (split; [done|]); [apply (Ho i); done || lia|].
      rewrite <-Hu. apply (keys_mono kvs Hsort j i); done || lia.
  - intros m kv' u Hm. apply Ho. lia.
Qed.

Lemma find_next_spec n : forall i d skipping,
  at_pos d (Some i) -> d_direction d = kForward -> (i < length kvs <= i + n)%nat -> next_inv i skipping (d_saved_key d) ->
  exists d' o, find_next fuel n d skipping = Some d' /\ at_key d' o /\ is_least f P o.
Proof.
  induction n as [|n IH]; intros i d skipping Hp Hdir Hn Hinv; [lia|].
  destruct (lookup_lt_is_Some_2 kvs i) as [kv Hi]; [lia|].
  destruct (ParseKey_spec d i kv Hp Hi) as (t & r & b & Ep & Hp' & Ev & Ek & Ht). cbn [find_next]. rewrite Ep. obind.
  set (d1 := set_sample d (d_status d) r b) in *.
  assert (Hnext : forall sk d2, at_pos d2 (Some i) -> d_direction d2 = kForward -> next_inv (S i) sk (d_saved_key d2) ->
    exists d' o, (it ← i_Next (d_iter d2);
      if i_Valid it then find_next fuel n (set_iter d2 it) sk
      else Some (set_move (set_saved_key (set_iter d2 it) []) (d_direction d2) false)) = Some d' /\ at_key d' o /\ is_least f P o).
  { intros sk d2 Hp2 Hd2 Hinv2. destruct (ci_next _ _ _ (ap_iter _ _ Hp2)) as (it & -> & Hit). obind. rewrite (ci_valid _ _ _ Hit).
    pose proof (at_pos_iter _ _ _ _ Hp2 Hit) as Hp3. unfold at_index in *. destruct (kvs !! S i) as [kv'|] eqn:Ei; cbn in *.
    - apply (IH (S i)); [done..| |done]. apply lookup_lt_Some in Ei. lia.
    - eexists _, None. split_and!; [done| |].
      + exists None. split; [|done]. by apply at_pos_move, at_pos_saved.
      + refine (none_live kvs s f Hsort Hf P _). intros j kv' Hl. apply (ni_none _ _ _ Hinv2 j); [|done].
        destruct Hl as [Hl%lookup_lt_Some _]. apply lookup_ge_None_1 in Ei. lia. }
  unfold visible. obind. rewrite (ap_sequence _ _ Hp'). cbn [pik_sequence pik_type pik_user_key].
  destruct (Z.leb_spec (seq_of kv) s) as [Hvis|Hvis]; [|by apply Hnext; [..|eapply next_inv_invisible; [done..|lia]]].
  cbn [pik_type pik_user_key]. destruct Ht as [[-> Hval]|[-> Hval]].
  - change (kTypeValue =? kTypeDeletion) with false. change (kTypeValue =? kTypeValue) with true. cbv iota.
    destruct (skipping && bool_decide (cle Compare (ukey kv) (d_saved_key d1))) eqn:Eh.
    + apply andb_true_iff in Eh as [Eh1 Eh2%bool_decide_eq_true]. apply Hnext; [done..|]. by eapply next_inv_hidden.
    + assert (Hvisible : ~ (~ P (ukey kv) \/ exists j kv', (j < i)%nat /\ kvs !! j = Some kv' /\ seq_of kv' <= s /\ ukey kv' = ukey kv)).
      { intros Hh. apply (ni_skip _ _ _ Hinv i kv) in Hh as [-> Hh]; [|done..]. cbn in Eh. by apply bool_decide_eq_false in Eh. }
      assert (Hl : live kvs s i kv).
      { split_and!; [done..|by rewrite Hval|]. intros j kv' Hj Hkv' Hu Hs'. apply Hvisible. right. by exists j, kv'. }
      eexists _, (Some (ukey kv)). split_and!; [done| |].
      * exists (Some i). split; [by apply at_pos_move, at_pos_saved|]. split; [done|]. exists i, kv. cbn. rewrite Hdir. done.
      * apply (least_live kvs s f Hsort Hf P i kv); [done| |apply (ni_none _ _ _ Hinv)].
        destruct (decide (P (ukey kv))); [done|]. exfalso. apply Hvisible. by left.
  - change (kTypeDeletion =? kTypeDeletion) with true. cbv iota. apply Hnext; [by apply at_pos_saved|done|]. by eapply next_inv_deletion.
Qed.

Lemma FindNextUserEntry_spec i d skipping :
  at_pos d (Some i) -> d_direction d = kForward -> next_inv i skipping (d_saved_key d) ->
  exists d' o, FindNextUserEntry fuel d skipping = Some d' /\ at_key d' o /\ is_least f P o.
Proof.
  intros Hp Hdir Hinv. unfold FindNextUserEntry. rewrite (at_pos_valid _ _ Hp), Hdir.
  destruct (ci_entry _ _ _ (ap_iter _ _ Hp)) as (kv & Hi & _). apply lookup_lt_Some in Hi.
  apply (find_next_spec fuel i); [done..|lia|done].
Qed.
End Forward.

Section Backward.
Context (Q : bytes -> Prop).

(** A candidate of [find_prev] when the entries from [k] on have been visited: the snapshot sees no
    entry between [k] and it, and no later live entry has [Q]. *)
Definition candidate (k : nat) (key value : bytes) (c : nat) : Prop :=
  exists kv, (k <= c)%nat /\ kvs !! c = Some kv /\ seq_of kv <= s /\ ukey kv = key /\ value_of kv = Some value /\ Q key /\
    (forall m kv', (k <= m < c)%nat -> kvs !! m = Some kv' -> ~ seq_of kv' <= s) /\
    forall m kv', (c < m)%nat -> live kvs s m kv' -> ~ Q (ukey kv').

(** The invariant of [find_prev]. *)
Definition prev_inv (k : nat) (vt : ValueType) (key value : bytes) : Prop :=
  vt = kTypeDeletion /\ (forall m kv, (k <= m)%nat -> live kvs s m kv -> ~ Q (ukey kv)) \/
  vt = kTypeValue /\ exists c, candidate k key value c.

Lemma prev_inv_invisible k kv vt key value :
  prev_inv (S k) vt key value -> kvs !! k = Some kv -> ~ seq_of kv <= s -> prev_inv k vt key value.
Proof.
  intros Hinv Hk Hv. destruct Hinv as [[-> Hn]|[-> (c & kv' & Hc & Hkv' & Hs & Hu & Hval & HQ & Hno & Hn)]]; [left|right]; (split; [done|]).
  - intros m kv' Hm Hl. destruct (decide (m = k)) as [->|]; [|apply (Hn m); [lia|done]].
    destruct Hl as (Hk' & Hs' & _). by replace kv' with kv in * by congruence.
  - exists c, kv'. split_and!; [lia|done..| |done]. intros m kv'' Hm Hkv''. destruct (decide (m = k)) as [->|]; [by replace kv'' with kv by congruence|].
    apply (Hno m); [lia|done].
Qed.

(** A live entry behind [k] with its key is behind the candidate, if there is one. *)
Lemma prev_inv_later k kv vt key value :
  prev_inv (S k) vt key value -> kvs !! k = Some kv -> seq_of kv <= s ->
  (vt = kTypeValue -> ukey kv = key) -> forall m kv', (k < m)%nat -> live kvs s m kv' -> ~ Q (ukey kv').
Proof.
  intros Hinv Hk Hv Hkey m kv' Hm Hl. destruct Hinv as [[-> Hn]|[-> (c & kvc & Hc & Hkvc & Hs & Hu & Hval & HQ & Hno & Hn)]]; [by apply (Hn m)|].
  destruct (decide (c < m)%nat); [by apply (Hn m)|]. destruct Hl as (Hkv' & Hs' & _ & Hfirst). intros _.
  destruct (decide (m = c)) as [->|]; [|by apply (Hno m kv'); [lia|..]].
  apply (Hfirst k kv); [lia|done| |done]. rewrite (Hkey eq_refl), <-Hu. congruence.
Qed.

Lemma prev_inv_deletion k kv vt key value :
  prev_inv (S k) vt key value -> kvs !! k = Some kv -> seq_of kv <= s -> (vt = kTypeValue -> ukey kv = key) ->
  value_of kv = None -> prev_inv k kTypeDeletion [] [].
Proof.
  intros Hinv Hk Hv Hkey Hd. left. split; [done|]. intros m kv' Hm Hl.
  destruct (decide (m = k)) as [->|]; [|apply (prev_inv_later k kv vt key value Hinv Hk Hv Hkey m); [lia|done]].
  destruct Hl as (Hk' & _ & [v Hl] & _). congruence.
Qed.

Lemma prev_inv_value k kv vt key value :
  prev_inv (S k) vt key value -> kvs !! k = Some kv -> seq_of kv <= s -> (vt = kTypeValue -> ukey kv = key) ->
  value_of kv = Some (snd kv) -> Q (ukey kv) -> prev_inv k kTypeValue (ukey kv) (snd kv).
Proof.
  intros Hinv Hk Hv Hkey Hval HQ. right. split; [done|]. exists k, kv. split_and!; [done..| |].
  - intros m kv' Hm. lia.
  - by apply (prev_inv_later k kv vt key value).
Qed.

(** The result of the loop: all live entries are without [Q], or the candidate is live and the
    internal iterator just before it. *)
Definition prev_done d (vt : ValueType) : Prop :=
  vt = kTypeDeletion /\ (exists p, at_pos d p) /\ (forall m kv, live kvs s m kv -> ~ Q (ukey kv)) \/
  vt = kTypeValue /\ exists p c kv, at_pos d p /\ live kvs s c kv /\ ukey kv = d_saved_key d /\ value_of kv = Some (d_saved_value d) /\
    Q (ukey kv) /\ just_before p c (ukey kv) /\ forall m kv', (c < m)%nat -> live kvs s m kv' -> ~ Q (ukey kv').

Lemma prev_inv_0 d vt : at_pos d None -> prev_inv 0 vt (d_saved_key d) (d_saved_value d) -> prev_done d vt.
Proof.
  intros Hp [[-> Hn]|[-> (c & kv & Hc & Hkv & Hs & Hu & Hval & HQ & Hno & Hn)]]; [left|right]; (split; [done|]).
  - split; [by exists None|]. intros m kv. apply Hn. lia.
  - exists None, c, kv. rewrite Hu. split_and!; [done| |done..| |done].
    + split_and!; [done..|by rewrite Hval|]. intros j kv' Hj Hkv' _. apply (Hno j kv'); [lia|done].
    + split; [|done]. intros m kv' _ Hm. apply Hno. lia.
Qed.

Lemma prev_inv_break d j kv : at_pos d (Some j) -> kvs !! j = Some kv -> clt Compare (ukey kv) (d_saved_key d) ->
  prev_inv (S j) kTypeValue (d_saved_key d) (d_saved_value d) -> prev_done d kTypeValue.
Proof.
  intros Hp Hj Hlt [[? _]|[_ (c & kvc & Hc & Hkv & Hs & Hu & Hval & HQ & Hno & Hn)]]; [done|]. right. split; [done|].
  exists (Some j), c, kvc. rewrite Hu. split_and!; [done| |done..| |done].
  - split_and!; [done..|by rewrite Hval|]. intros m kv' Hm Hkv' Hu'. destruct (decide (m <= j)%nat) as [Hle|]; [|apply (Hno m kv'); [lia|done]].
    pose proof (keys_mono kvs Hsort m j kv' kv Hle Hkv' Hj) as Hk. rewrite Hu', Hu in Hk. exfalso. unfold cle, clt in *.
    rewrite cmp_opp, Hlt in Hk. done.
  - split; [|split; [lia|by exists kv]]. intros m kv' Hm Hmc. apply Hno. lia.
Qed.

Lemma find_prev_spec n : forall j d vt,
  at_pos d (Some j) -> (j < n)%nat -> prev_inv (S j) vt (d_saved_key d) (d_saved_value d) ->
  (forall m kv, (m <= j)%nat -> kvs !! m = Some kv -> Q (ukey kv)) ->
  exists d' vt', find_prev fuel n d vt = Some (d', vt') /\ d_direction d' = d_direction d /\ prev_done d' vt'.
Proof.
  induction n as [|n IH]; intros j d vt Hp Hn Hinv HQ; [lia|].
  destruct (ci_entry _ _ _ (ap_iter _ _ Hp)) as (kv & Hj & _).
  destruct (ParseKey_spec d j kv Hp Hj) as (t & r & b & Ep & Hp' & Ev & Ek & Ht). cbn [find_prev]. rewrite Ep. obind.
  set (d1 := set_sample d (d_status d) r b) in *.
  assert (Hprev : forall vt2 d2, at_pos d2 (Some j) -> d_direction d2 = d_direction d -> prev_inv j vt2 (d_saved_key d2) (d_saved_value d2) ->
    exists d' vt', (it ← i_Prev (d_iter d2);
      if i_Valid it then find_prev fuel n (set_iter d2 it) vt2 else Some (set_iter d2 it, vt2)) = Some (d', vt') /\
      d_direction d' = d_direction d /\ prev_done d' vt').
  { intros vt2 d2 Hp2 Hd2 Hinv2. destruct (ci_prev _ _ _ (ap_iter _ _ Hp2)) as (it & -> & Hit). obind. rewrite (ci_valid _ _ _ Hit).
    pose proof (at_pos_iter _ _ _ _ Hp2 Hit) as Hp3. destruct j as [|j]; cbn in *.
    - eexists _, _. split_and!; [done..|]. by apply prev_inv_0.
    - destruct (IH j (set_iter d2 it) vt2) as (d' & vt' & E & Hd' & Hdone); [done|lia|done|intros m kv' Hm; apply HQ; lia|].
      exists d', vt'. by rewrite Hd'. }
  unfold visible. obind. rewrite (ap_sequence _ _ Hp'). cbn [pik_sequence].
  destruct (Z.leb_spec (seq_of kv) s) as [Hvis|Hvis]; [|by apply Hprev; [..|eapply prev_inv_invisible; [done..|lia]]].
  cbn [pik_type pik_user_key].
  destruct (negb (vt =? kTypeDeletion) && bool_decide (clt Compare (ukey kv) (d_saved_key d1))) eqn:Eb.
  - apply andb_true_iff in Eb as [Eb1 Eb2%bool_decide_eq_true]. destruct Hinv as [[-> _]|[-> Hinv]]; [done|].
    eexists _, _. split_and!; [done..|]. apply (prev_inv_break d1 j kv); [done..|]. by right.
  - assert (Hkey : vt = kTypeValue -> ukey kv = d_saved_key d).
    { intros ->. cbn in Eb. apply bool_decide_eq_false in Eb. destruct Hinv as [[? _]|[_ (c & kvc & Hc & Hkvc & _ & Hu & _)]]; [done|].
      pose proof (keys_mono kvs Hsort j c kv kvc ltac:(lia) Hj Hkvc) as Hle. rewrite Hu in Hle. apply Compare_eq.
      unfold cle, clt in *. cbn in Eb. by destruct (Compare _ _). }
    destruct Ht as [[-> Hval]|[-> Hval]].
    + change (kTypeValue =? kTypeDeletion) with false. cbv iota. cbn [d1 set_sample d_iter]. rewrite Ev. obind. rewrite Ek.
      apply Hprev; [by apply (at_pos_saved d1)|done|]. eapply prev_inv_value; try done. by apply (HQ j).
    + change (kTypeDeletion =? kTypeDeletion) with true. cbv iota. apply Hprev; [by apply at_pos_saved|done|]. by eapply prev_inv_deletion.
Qed.

Lemma prev_done_at_key d vt : d_direction d = kReverse -> prev_done d vt ->
  exists o, at_key (if vt =? kTypeDeletion then set_move (set_saved d [] []) kForward false else set_move d (d_direction d) true) o /\
    is_greatest f Q o.
Proof.
  intros Hd [(-> & (p & Hp) & Hn)|(-> & p & c & kv & Hp & Hl & Hu & Hval & HQc & Hjb & Hn)].
  - exists None. split; [|exact (none_live kvs s f Hsort Hf Q Hn)]. exists p. split; [|done]. by apply at_pos_move, at_pos_saved.
  - exists (Some (ukey kv)). split; [|by apply (greatest_live kvs s f Hsort Hf Q c)].
    exists p. split; [by apply at_pos_move|]. split; [done|]. exists c, kv. cbn. rewrite Hd. split_and!; done.
Qed.

(** [p] is the last position that may have a live entry with [Q]. *)
Lemma FindPrevUserEntry_spec p d :
  at_pos d p -> d_direction d = kReverse ->
  (forall m kv, (match p with Some j => j < m | None => True end)%nat -> live kvs s m kv -> ~ Q (ukey kv)) ->
  (forall m kv, (match p with Some j => m <= j | None => False end)%nat -> kvs !! m = Some kv -> Q (ukey kv)) ->
  exists d' o, FindPrevUserEntry fuel d = Some d' /\ at_key d' o /\ is_greatest f Q o.
Proof.
  intros Hp Hdir Hno HQ. unfold FindPrevUserEntry. rewrite (bool_decide_eq_true_2 _ Hdir), (at_pos_valid _ _ Hp).
  destruct p as [j|]; cbn [bool_decide].
  - rewrite bool_decide_eq_true_2 by done.
    destruct (find_prev_spec fuel j d kTypeDeletion) as (d' & vt' & E & Hd & Hdone); [done| | |done|].
    + destruct (ci_entry _ _ _ (ap_iter _ _ Hp)) as (kv & Hi & _). apply lookup_lt_Some in Hi. lia.
    + left. split; [done|]. intros m kv Hm. apply Hno. lia.
    + rewrite E. obind. rewrite Hdir in Hd. destruct (prev_done_at_key d' vt' Hd Hdone) as (o & Ho & Hg). by eexists _, o.
  - rewrite bool_decide_eq_false_2 by (by intros [? ?]). obind.
    destruct (prev_done_at_key d kTypeDeletion Hdir) as (o & Ho & Hg); [|by eexists _, o].
    left. split_and!; [done|by exists None|]. intros m kv. by apply Hno.
Qed.
End Backward.

Lemma prev_key_spec n : forall i d,
  at_pos d (Some i) -> (i < n)%nat ->
  (forall m kv, (i <= m)%nat -> kvs !! m = Some kv -> cle Compare (d_saved_key d) (ukey kv)) ->
  exists more d', prev_key n d = Some (more, d') /\ d_direction d' = d_direction d /\
    if more : bool then
      exists j, at_pos d' (Some j) /\
        (forall m kv, (m <= j)%nat -> kvs !! m = Some kv -> clt Compare (ukey kv) (d_saved_key d)) /\
        (forall m kv, (j < m)%nat -> kvs !! m = Some kv -> cle Compare (d_saved_key d) (ukey kv))
    else at_pos d' None /\ d_valid d' = false /\ forall m kv, kvs !! m = Some kv -> cle Compare (d_saved_key d) (ukey kv).
Proof.
  induction n as [|n IH]; intros i d Hp Hi Hge; [lia|]. cbn [prev_key].
  destruct (ci_prev _ _ _ (ap_iter _ _ Hp)) as (it & -> & Hit). obind. rewrite (ci_valid _ _ _ Hit).
  pose proof (at_pos_iter _ _ _ _ Hp Hit) as Hp'. destruct i as [|i]; cbn [bool_decide is_Some negb].
  - rewrite bool_decide_eq_false_2 by (by intros [? ?]). cbn [negb]. eexists _, _. split; [done|]. split; [done|]. cbn. split_and!; [|done|].
    + by apply at_pos_move, at_pos_saved.
    + intros m kv. apply Hge. lia.
  - rewrite bool_decide_eq_true_2 by done. cbn [negb]. destruct (ci_entry _ _ _ Hit) as (kv & Hkv & -> & _). fold (ukey kv).
    destruct (decide (clt Compare (ukey kv) (d_saved_key d))) as [Hlt|Hnlt].
    + rewrite bool_decide_eq_true_2 by done. eexists _, _. split; [done|]. split; [done|]. cbn. exists i. split_and!; [done| |].
      * intros m kv' Hm Hkv'. apply (cle_lt_trans Compare _ (ukey kv)); [|done]. by apply (keys_mono kvs Hsort m i).
      * intros m kv' Hm. apply Hge. lia.
    + rewrite bool_decide_eq_false_2 by done. apply (IH i (set_iter d it)); [done|lia|]. cbn.
      intros m kv' Hm Hkv'. destruct (decide (m = i)) as [->|]; [|apply (Hge m); [lia|done]].
      replace kv' with kv by congruence. by apply nclt_le in Hnlt; [|apply Compare_laws].
Qed.

(** *** The operations *)

Lemma live_bound i kv : live kvs s i kv -> (i < length kvs)%nat.
Proof. intros [Hl _]. by eapply lookup_lt_Some. Qed.

Lemma at_index_None n j kv : at_index kvs n = None -> kvs !! j = Some kv -> (j < n)%nat.
Proof. unfold at_index. intros E Hj%lookup_lt_Some. destruct (kvs !! n) eqn:En; [done|]. apply lookup_ge_None_1 in En. lia. Qed.

Lemma at_index_Some n j : at_index kvs n = Some j -> j = n.
Proof. unfold at_index. destruct (kvs !! n); [by intros [= <-]|done]. Qed.

(** The internal iterator has moved forward to [p]. *)
Lemma forward_spec (P : bytes -> Prop) `{HP : forall u, Decision (P u)} d p skipping o0 :
  at_pos d p -> d_direction d = kForward ->
  match p with
  | Some i => next_inv P i skipping (d_saved_key d)
  | None => forall j kv, live kvs s j kv -> ~ P (ukey kv)
  end ->
  at_pos o0 p -> d_valid o0 = false ->
  exists d' o, (if i_Valid (d_iter d) then FindNextUserEntry fuel d skipping else Some o0) = Some d' /\ at_key d' o /\ is_least f P o.
Proof.
  intros Hp Hdir Hinv Hp0 Hv0. rewrite (at_pos_valid _ _ Hp). destruct p as [i|].
  - rewrite bool_decide_eq_true_2 by done. by apply (FindNextUserEntry_spec P i).
  - rewrite bool_decide_eq_false_2 by (by intros [? ?]). exists o0, None. split_and!; [done|by exists None|].
    exact (none_live kvs s f Hsort Hf P Hinv).
Qed.

Lemma dbi_SeekToFirst_spec d p : at_pos d p ->
  exists d' o, dbi_SeekToFirst fuel d = Some d' /\ at_key d' o /\ is_least f (fun _ => True) o.
Proof.
  intros Hp. unfold dbi_SeekToFirst. destruct (ci_first _ _ _ (ap_iter _ _ Hp)) as (it & E & Hit). cbn [set_saved set_move d_iter]. rewrite E. obind.
  set (d1 := set_iter _ it). assert (Hp1 : at_pos d1 (at_index kvs 0)) by (by apply at_pos_iter with p; [apply at_pos_saved, at_pos_move|]).
  apply (forward_spec (fun _ => True) d1 (at_index kvs 0)); [done..| |by apply at_pos_move|done].
  destruct (at_index kvs 0) as [i|] eqn:Ei.
  - apply at_index_Some in Ei as ->. constructor; [intros; lia| |done]. intros m kv Hm Hkv Hs.
    split; [by intros [? _]|]. intros [?|(j & kv' & Hj & _)]; [tauto|lia].
  - intros j kv [Hl _]. apply (at_index_None 0 j) in Hl; [lia|done].
Qed.

Lemma dbi_Seek_spec d p t : valid_seq s -> at_pos d p ->
  exists d' o, dbi_Seek fuel d t = Some d' /\ at_key d' o /\ is_least f (cle Compare t) o.
Proof.
  intros Hvs Hp. unfold dbi_Seek. cbn [set_saved set_move d_iter d_saved_key d_sequence].
  destruct (ci_seek _ _ _ (AppendInternalKey [] (mkPIK t (d_sequence d) kValueTypeForSeek)) (ap_iter _ _ Hp)) as (it & E & Hit).
  rewrite E. obind. set (d1 := set_iter _ it). rewrite (ap_sequence _ _ Hp) in Hit. change (AppendInternalKey [] (mkPIK t s kValueTypeForSeek)) with (InternalKey t s kValueTypeForSeek) in Hit.
  assert (Hcmp : forall j kv, kvs !! j = Some kv -> cle InternalCompare (InternalKey t s kValueTypeForSeek) (fst kv) <->
    clt Compare t (ukey kv) \/ ukey kv = t /\ seq_of kv <= s).
  { intros j kv Hj. apply seek_key_le; [by eapply Forall_lookup_1|done]. }
  apply (forward_spec (cle Compare t) d1 (seek_index kvs (InternalKey t s kValueTypeForSeek))); [|done| | |done];
    [by apply at_pos_iter with p; [apply at_pos_saved, at_pos_move|]| |by apply at_pos_move, at_pos_iter with p; [apply at_pos_saved, at_pos_move|]].
  assert (Hbefore : forall i j kv, (forall j kv, kvs !! j = Some kv -> (j < i)%nat -> ~ cle InternalCompare (InternalKey t s kValueTypeForSeek) (fst kv)) ->
    (j < i)%nat -> kvs !! j = Some kv -> seq_of kv <= s -> clt Compare (ukey kv) t).
  { intros i j kv Hmin Hj Hkv Hs. specialize (Hmin j kv Hkv Hj). rewrite (Hcmp j kv Hkv) in Hmin. unfold clt.
    destruct (Compare (ukey kv) t) eqn:Ec; [|done|]; exfalso; apply Hmin; [right; split; [by apply Compare_eq|done]|left; by apply cmp_gt_lt in Ec; [|apply Compare_laws]]. }
  unfold seek_index. destruct (list_find _ kvs) as [[i kvi]|] eqn:Ef; cbn [fmap option_fmap option_map fst].
  - apply list_find_Some in Ef as (Hi & Hle & Hmin).
    assert (Hge : forall m kv, (i <= m)%nat -> kvs !! m = Some kv -> cle Compare t (ukey kv)).
    { intros m kv Hm Hkv. trans (ukey kvi); [|by apply (keys_mono kvs Hsort i m)].
      apply (Hcmp i kvi Hi) in Hle as [?|[-> _]]; [by apply clt_le|reflexivity]. }
    constructor.
    + intros j kv Hj Hl Ht. apply (clt_nle Compare) in Ht; [done|]. apply (Hbefore i j); [done..|apply Hl|apply Hl].
    + intros m kv Hm Hkv Hs. split; [by intros [? _]|]. intros [Hn|(j & kv' & Hj & Hkv' & Hs' & Hu)]; [by destruct Hn; apply (Hge m)|].
      pose proof (Hbefore i j kv' Hmin Hj Hkv' Hs') as Hlt. rewrite Hu in Hlt. apply (clt_nle Compare) in Hlt. destruct Hlt. by apply (Hge m).
    + intros m kv u Hm Hkv Hs Hu. trans t; [|by apply (Hge m)]. destruct (total (cle Compare) t u); [done|done].
  - apply list_find_None in Ef. intros j kv Hl Ht. apply (clt_nle Compare) in Ht; [done|].
    apply (Hbefore (length kvs) j); [|by eapply live_bound|apply Hl|apply Hl].
    intros j' kv' Hj' _. rewrite Forall_forall in Ef. apply Ef. by eapply list_elem_of_lookup_2.
Qed.

Lemma dbi_SeekToLast_spec d p : at_pos d p ->
  exists d' o, dbi_SeekToLast fuel d = Some d' /\ at_key d' o /\ is_greatest f (fun _ => True) o.
Proof.
  intros Hp. unfold dbi_SeekToLast. destruct (ci_last _ _ _ (ap_iter _ _ Hp)) as (it & E & Hit). cbn [set_saved set_move d_iter]. rewrite E. obind.
  apply (FindPrevUserEntry_spec (fun _ => True) (at_index kvs (pred (length kvs)))); [by apply at_pos_iter with p; [apply at_pos_saved, at_pos_move|]|done| |done].
  intros m kv Hm Hl%live_bound. destruct (at_index kvs _) as [j|] eqn:Ej.
  - apply at_index_Some in Ej as ->. lia.
  - unfold at_index in Ej. destruct (kvs !! pred _) eqn:En; [done|]. apply lookup_ge_None_1 in En. lia.
Qed.

Lemma dbi_Next_spec d u : at_key d (Some u) ->
  exists d' o, dbi_Next fuel d = Some d' /\ at_key d' o /\ is_least f (clt Compare u) o.
Proof.
  intros (p & Hp & Hv & i & kv & Hl & <- & Hd). unfold dbi_Next. rewrite Hv.
  assert (Hafter : forall m kv', (i <= m)%nat -> kvs !! m = Some kv' -> cle Compare (ukey kv) (ukey kv')).
  { intros m kv' Hm Hkv'. apply (keys_mono kvs Hsort i m); [done|apply Hl|done]. }
  assert (Hinv : forall k,
    (forall m kv', (k <= m)%nat -> kvs !! m = Some kv' -> seq_of kv' <= s -> (i <= m)%nat) ->
    (forall m kv', (m < k)%nat -> kvs !! m = Some kv' -> cle Compare (ukey kv') (ukey kv)) ->
    next_inv (clt Compare (ukey kv)) k true (ukey kv)).
  { intros k Hk1 Hk2. constructor.
    - intros j kv' Hj Hl' Hlt. apply (clt_nle Compare) in Hlt. destruct Hlt. apply (Hk2 j); [done|apply Hl'].
    - intros m kv' Hm Hkv' Hs. split.
      + intros [_ Hle]. left. intros Hlt. by apply (clt_nle Compare) in Hlt.
      + intros [Hn|(j & kv'' & Hj & Hkv'' & _ & Hu)]; (split; [done|]); [by apply nclt_le in Hn; [|apply Compare_laws]|].
        rewrite <-Hu. by apply (Hk2 j).
    - intros m kv' u Hm Hkv' Hs Hn. trans (ukey kv); [by apply nclt_le in Hn; [|apply Compare_laws]|].
      apply (Hafter m); [|done]. by apply (Hk1 m kv'). }
  destruct (d_direction d) eqn:Ed.
  - subst p. destruct (ci_next _ _ _ (ap_iter _ _ Hp)) as (it & E & Hit). cbn [set_saved_key set_saved d_iter]. rewrite E. obind.
    destruct (ci_entry _ _ _ (ap_iter _ _ Hp)) as (kv' & Hkv' & Ek & _). assert (kv' = kv) as -> by (destruct Hl; congruence).
    rewrite Ek. fold (ukey kv). set (d1 := set_iter _ it).
    assert (Hp1 : at_pos d1 (at_index kvs (S i))) by (by apply at_pos_iter with (Some i); [apply at_pos_saved|]).
    apply (forward_spec (clt Compare (ukey kv)) d1 (at_index kvs (S i))); [done..| |by apply at_pos_move, at_pos_saved|done].
    destruct (at_index kvs (S i)) as [k|] eqn:Ei.
    + apply at_index_Some in Ei as ->. apply Hinv; [intros; lia|]. intros m kv' Hm Hkv''.
      apply (keys_mono kvs Hsort m i); [lia|done|apply Hl].
    + intros j kv' Hl' Hlt. apply (clt_nle Compare) in Hlt. destruct Hlt. apply (keys_mono kvs Hsort j i); [|apply Hl'|apply Hl].
      pose proof (at_index_None _ j kv' Ei (proj1 Hl')). lia.
  - destruct Hd as (Hk & Hval & Hno & Hbef). rewrite (at_pos_valid _ _ Hp).
    assert (Hmove : exists it k, (if bool_decide (is_Some p) then i_Next (d_iter d) else i_SeekToFirst (d_iter d)) = Some it /\
      ci_at it kvs (Some k) /\ (k <= i)%nat /\ k = match p with Some j => S j | None => O end).
    { destruct p as [j|].
      - destruct (ci_next _ _ _ (ap_iter _ _ Hp)) as (it & E & Hit). exists it, (S j). split_and!; [done| |lia|done].
        unfold at_index in Hit. destruct (lookup_lt_is_Some_2 kvs (S j)) as [? Hsj]; [apply live_bound in Hl; lia|]. by rewrite Hsj in Hit.
      - destruct (ci_first _ _ _ (ap_iter _ _ Hp)) as (it & E & Hit). exists it, 0%nat. split_and!; [done| |lia|done].
        unfold at_index in Hit. destruct (lookup_lt_is_Some_2 kvs 0) as [? Hsj]; [apply live_bound in Hl; lia|]. by rewrite Hsj in Hit. }
    destruct Hmove as (it & k & E & Hit & Hki & Ek). rewrite E. obind. cbn [set_iter set_move d_iter].
    rewrite (ci_valid _ _ _ Hit), bool_decide_eq_true_2 by done.
    apply (FindNextUserEntry_spec (clt Compare (ukey kv)) k); [by apply at_pos_move, at_pos_iter with p|done|]. cbn. rewrite Hk. apply Hinv.
    + intros m kv' Hm Hkv' Hs. destruct (decide (i <= m)%nat); [done|]. exfalso. apply (Hno m kv'); [|lia|done..]. destruct p; [lia|done].
    + intros m kv' Hm Hkv'. destruct p as [j|]; [|lia]. destruct Hbef as (Hj & kvj & Hkvj & Hlt). apply clt_le.
      apply (cle_lt_trans Compare _ (ukey kvj)); [|done]. apply (keys_mono kvs Hsort m j); [lia|done..].
Qed.

Lemma dbi_Prev_spec d u : at_key d (Some u) ->
  exists d' o, dbi_Prev fuel d = Some d' /\ at_key d' o /\ is_greatest f (fun u' => clt Compare u' u) o.
Proof.
  intros (p & Hp & Hv & i & kv & Hl & <- & Hd). unfold dbi_Prev. rewrite Hv.
  assert (Hafter : forall m kv', (i <= m)%nat -> kvs !! m = Some kv' -> cle Compare (ukey kv) (ukey kv')).
  { intros m kv' Hm Hkv'. apply (keys_mono kvs Hsort i m); [done|apply Hl|done]. }
  destruct (d_direction d) eqn:Ed.
  - subst p. rewrite (at_pos_valid _ _ Hp), bool_decide_eq_true_2 by done.
    destruct (ci_entry _ _ _ (ap_iter _ _ Hp)) as (kv' & Hkv' & Ek & _). assert (kv' = kv) as -> by (destruct Hl; congruence).
    rewrite Ek. fold (ukey kv). apply live_bound in Hl as Hb.
    destruct (prev_key_spec fuel i (set_saved_key d (ukey kv))) as (more & d' & -> & Hd' & Hmore); [by apply at_pos_saved|lia|done|].
    obind. cbn [set_saved_key set_saved d_saved_key] in Hmore. destruct more.
    + destruct Hmore as (j & Hj & Hlt & Hge).
      apply (FindPrevUserEntry_spec (fun u' => clt Compare u' (ukey kv)) (Some j)); [by apply at_pos_move|done| |done].
      intros m kv' Hm Hl' Hlt'. apply (clt_nle Compare) in Hlt'. destruct Hlt'. apply (Hge m); [done|apply Hl'].
    + destruct Hmore as (Hp' & Hv' & Hge). exists d', None. split_and!; [done|by exists None|].
      refine (none_live kvs s f Hsort Hf (fun u' => clt Compare u' (ukey kv)) _).
      intros j kv' Hl' Hlt'. apply (clt_nle Compare) in Hlt'. destruct Hlt'. apply (Hge j), Hl'.
  - destruct Hd as (Hk & Hval & Hno & Hbef).
    apply (FindPrevUserEntry_spec (fun u' => clt Compare u' (ukey kv)) p); [done..| |].
    + intros m kv' Hm Hl' Hlt'. apply (clt_nle Compare) in Hlt'. destruct Hlt'. apply (Hafter m); [|apply Hl'].
      destruct (decide (i <= m)%nat); [done|]. exfalso. apply (Hno m kv'); [done|lia|apply Hl'|apply Hl'].
    + intros m kv' Hm Hkv'. destruct p as [j|]; [|done]. destruct Hbef as (Hj & kvj & Hkvj & Hlt).
      apply (cle_lt_trans Compare _ (ukey kvj)); [|done]. by apply (keys_mono kvs Hsort m j).
Qed.

Lemma at_key_invalid d : at_key d None -> d_valid d = false.
Proof. by intros (p & _ & Hv). Qed.

Lemma dbi_step_spec d o op : valid_seq s -> at_key d o ->
  dbi_step fuel d op = None /\ cursor_stops f o op \/
  exists d' o', dbi_step fuel d op = Some d' /\ at_key d' o' /\ cursor_step f o op o'.
Proof.
  intros Hvs Hd. pose proof Hd as (p & Hp & _). destruct op as [| |t|t| |]; cbn [dbi_step].
  - right. destruct (dbi_SeekToFirst_spec d p Hp) as (d' & o' & E & Hd' & Ho'). exists d', o'. split_and!; [done..|by constructor].
  - right. destruct (dbi_SeekToLast_spec d p Hp) as (d' & o' & E & Hd' & Ho'). exists d', o'. split_and!; [done..|by constructor].
  - right. destruct (dbi_Seek_spec d p t Hvs Hp) as (d' & o' & E & Hd' & Ho'). exists d', o'. split_and!; [done..|by constructor].
  - unfold dbi_SeekForPrev. destruct (dbi_Seek_spec d p t Hvs Hp) as (d1 & [u|] & -> & Hd1 & Ho1); obind.
    + right. destruct (dbi_Prev_spec d1 u Hd1) as (d' & o' & E & Hd' & Ho'). exists d', o'. split_and!; [done..|by econstructor].
    + left. split; [|by constructor]. unfold dbi_Prev. by rewrite (at_key_invalid _ Hd1).
  - destruct o as [u|].
    + right. destruct (dbi_Next_spec d u Hd) as (d' & o' & E & Hd' & Ho'). exists d', o'. split_and!; [done..|by constructor].
    + left. split; [|by constructor]. unfold dbi_Next. by rewrite (at_key_invalid _ Hd).
  - destruct o as [u|].
    + right. destruct (dbi_Prev_spec d u Hd) as (d' & o' & E & Hd' & Ho'). exists d', o'. split_and!; [done..|by constructor].
    + left. split; [|by constructor]. unfold dbi_Prev. by rewrite (at_key_invalid _ Hd).
Qed.

Lemma at_key_sees d o : at_key d o -> dbi_sees d = Some (cursor_sees f o).
Proof.
  intros (p & Hp & Hd). unfold dbi_sees, dbi_status, cursor_sees. rewrite (ap_status _ _ Hp). cbn [ok]. rewrite (ci_status _ _ _ (ap_iter _ _ Hp)).
  destruct o as [u|]; [|by rewrite Hd]. destruct Hd as (Hv & i & kv & Hl & <- & Hd). unfold dbi_key, dbi_value. rewrite Hv. obind.
  rewrite (live_value kvs s f Hsort Hf i kv Hl). destruct (d_direction d).
  - subst p. destruct (ci_entry _ _ _ (ap_iter _ _ Hp)) as (kv' & Hkv' & -> & ->). assert (kv' = kv) as -> by (destruct Hl; congruence). obind.
    destruct (entry_parsed i kv Hkv') as (t & _ & [[_ ->]|[_ E]]); [done|]. destruct Hl as (_ & _ & [v Hl] & _). congruence.
  - destruct Hd as (-> & -> & _). done.
Qed.

Lemma dbi_run_spec ops : forall d o, valid_seq s -> at_key d o -> cursor_run f o ops (dbi_run fuel d ops).
Proof.
  induction ops as [|op ops IH]; intros d o Hvs Hd; cbn [dbi_run]; [constructor|].
  destruct (dbi_step_spec d o op Hvs Hd) as [[-> Hstop]|(d' & o' & -> & Hd' & Hstep)]; obind; [by constructor|].
  rewrite (at_key_sees d' o' Hd'). obind. pose proof (cr_cons f o op ops o' _ Hstep (IH d' o' Hvs Hd')) as Hr.
  by destruct (dbi_run fuel d' ops).
Qed.

Lemma newDBIter_at_key it p seed : ci_at it kvs p -> at_key (newDBIter it s seed) None.
Proof.
  clear Hfuel. intros Hc. unfold newDBIter, RandomCompactionPeriod, Uniform. exists p. split; [|done].
  pose proof (rnd_Next_ok _ (GoodSeed_ok seed)). pose proof (Z.mod_pos_bound (rnd_Next (GoodSeed seed)) (2 * 100) ltac:(lia)).
  constructor; cbn; done || lia.
Qed.
End Loops.

(** The map that a snapshot of sorted entries stands for. *)
Definition snapshot_map (kvs : list KV) (s : Z) (u : bytes) : option bytes :=
  table_lookup (filter (fun kv => seq_of kv <= s) kvs) u ≫= value_of.

Lemma snapshot_map_stands `{UserComparator} kvs s :
  StronglySorted kv_lt kvs -> stands_for (fun kv => kv ∈ kvs /\ seq_of kv <= s) (snapshot_map kvs s).
Proof.
  intros Hsort. apply (stands_for_ext (fun kv => kv ∈ filter (fun kv => seq_of kv <= s) kvs)).
  { intros kv. rewrite list_elem_of_filter. tauto. }
  intros u. unfold snapshot_map.
  assert (Hs : StronglySorted kv_lt (filter (fun kv => seq_of kv <= s) kvs)) by (by apply StronglySorted_filter).
  pose proof (sorted_lookup_newest _ u Hs) as Hn.
  destruct (table_lookup _ u) as [kv|]; cbn.
  - split; [|intros Hno; by destruct (Hno kv (proj1 Hn) (proj1 (proj2 Hn)))].
    intros kv' (Hin' & Hu' & Hle'). destruct Hn as (Hin & Hu & Hle). f_equal.
    destruct (StronglySorted_trichotomy kv_lt _ kv kv' Hs Hin Hin') as [?|[Hlt|Hlt]]; [done|..];
      apply (clt_nle InternalCompare) in Hlt; destruct Hlt; [by apply Hle'|by apply Hle].
  - split; [|done]. intros kv' (Hin & Hu & _). by destruct (Hn kv' Hin).
Qed.


Module DBIterWitness.
Definition key (x : byte) : bytes := [x].

(** Key 1 was put twice, key 2 put and deleted, key 3 put, and key 4 put after the snapshot. *)
Definition kvs : list KV := [
  entry_of 3 (UPut (key x01) [x31]); entry_of 1 (UPut (key x01) [x30]);
  entry_of 4 (UDelete (key x02)); entry_of 2 (UPut (key x02) [x32]);
  entry_of 5 (UPut (key x03) [x33]); entry_of 6 (UPut (key x04) [x34]) ].

Definition start : DBIter ListIterator := newDBIter (mkListIterator kvs None) 5 301.

Lemma kvs_sorted : StronglySorted kv_lt kvs.
Proof. repeat constructor. Qed.

Lemma kvs_ok : Forall entry_ok kvs.
Proof. unfold kvs. repeat (apply Forall_cons; split; [eexists _, _; split; [reflexivity|by vm_compute]|]). constructor. Qed.

Lemma kvs_small : Forall (fun kv => blen (fst kv) + blen (snd kv) < 2 ^ 62) kvs.
Proof. unfold kvs. repeat (apply Forall_cons; split; [by vm_compute|]). constructor. Qed.
End DBIterWitness.

