(* ===== verification/ThreadPool.v ===== *)
(** * ThreadPool: the helper threads of compactions and the pool that runs them

    A compaction schedules its helpers, the deferred writer and the prefetchers of its
    input levels, in the thread pool with low priority ([index/tropodb_compaction.cc],
    [table/iterators/sstable_ln_iterator.cc]); a compaction of an upper level itself runs
    in this pool as well ([impl/tropodb_impl_background.cc]).  The constructor of the
    database sets the number of its threads ([impl/tropodb_impl.cc]).  The pool starts its
    jobs in the order in which they were scheduled, each in a thread of its own, as long as
    it has threads ([util/threadpool_imp.cc]).

    A helper does not end before its compaction tells it to: the prefetcher when the
    iterator is destroyed, the writer when the last table was handed over.  So a
    compaction waits for a helper only until the helper has a thread ([Prefetch] and
    [DeferredWriter] treat what the two do then), and gives the thread back when it ends
    the helper. *)

From S2P Require Import Prelude Config.

(** ** The threads *)

(** [low_level_threads_], impl/tropodb_impl.cc:66-67 *)
Definition low_level_threads_ : Z :=
  1 + Z.b2z compaction_allow_prefetching + Z.b2z compaction_allow_deferring_writes.

(** The jobs with low priority of the compaction [c]: its main thread, the deferred writer and the
    prefetcher of one of the two inputs. *)
Inductive job := Main (c : nat) | Writer (c : nat) | Fetcher (c i : nat).

#[global] Instance job_eq_dec : EqDecision job.
Proof. solve_decision. Defined.

Definition owner (j : job) : nat := match j with Main c | Writer c | Fetcher c _ => c end.

(** What a compaction does with its helpers: [env_->Schedule], a wait that only the running helper ends,
    and the request to end with the wait until the helper has ended. *)
Inductive act := Schedule (j : job) | Await (j : job) | Join (j : job).

(** The inputs whose iterator has a prefetcher: the levels above 0 with more than one table.
    [LNIterator::LNIterator], table/iterators/sstable_ln_iterator.cc:144-162 *)
Definition prefetched (first_level n0 n1 : Z) : list nat :=
  (if (0 <? first_level) && (1 <? n0) && compaction_allow_prefetching then [0%nat] else []) ++
  (if (1 <? n1) && compaction_allow_prefetching then [1%nat] else []).

(** [TropoCompaction::DoCompaction], index/tropodb_compaction.cc:431-455, with the calls of
    [env_->Schedule] before: the writer is scheduled, then the iterators are made; in the order [passes] the merge goes from one table
    of a prefetched input to the next one, then the writer is joined and the iterators are
    destroyed. *)
Definition compaction_script (c : nat) (first_level n0 n1 : Z) (passes : list nat) : list act :=
  let fetchers := Fetcher c <$> prefetched first_level n0 n1 in
  Schedule (Writer c) :: (Schedule <$> fetchers) ++ ((fun i => Await (Fetcher c i)) <$> passes) ++
  Join (Writer c) :: (Join <$> fetchers).

(** The pool and the compactions: whether the main thread is a job of the pool, and what it still has
    to do. *)
Record pool := mkPool {
  queue_ : list job;
  running : list job;
  mains : list (bool * option (list act))
}.

(** A thread of the pool takes the next job: [ThreadPoolImpl::Impl::BGThread], util/threadpool_imp.cc:212-216 *)
Definition pool_run (limit : Z) (st : pool) : option pool :=
  match queue_ st with
  | j :: q => if blen (running st) <? limit then Some (mkPool q (j :: running st) (mains st)) else None
  | [] => None
  end.

Definition ends (st : pool) (j : job) : list job := filter (fun x => x <> j) (running st).

(** [ThreadPoolImpl::Impl::Submit], util/threadpool_imp.cc:360-366 *)
Definition Submit (q : list job) (j : job) : list job := q ++ [j].

(** The compaction [c] does its next action, if it can. *)
Definition main_go (c : nat) (st : pool) : option pool :=
  '(low, o) ← mains st !! c; script ← o;
  if low && negb (bool_decide (Main c ∈ running st)) then None
  else
    let next q r o := Some (mkPool q r (<[c := (low, o)]> (mains st))) in
    match script with
    | [] => next (queue_ st) (ends st (Main c)) None
    | Schedule j :: s => next (Submit (queue_ st) j) (running st) (Some s)
    | Await j :: s => if bool_decide (j ∈ running st) then next (queue_ st) (running st) (Some s) else None
    | Join j :: s => if bool_decide (j ∈ running st) then next (queue_ st) (ends st j) (Some s) else None
    end.

Inductive step (limit : Z) (st st' : pool) : Prop :=
  | step_pool : pool_run limit st = Some st' -> step limit st st'
  | step_main c : main_go c st = Some st' -> step limit st st'.

Definition finished (st : pool) : Prop := Forall (fun m => snd m = None) (mains st).
Definition stuck (limit : Z) (st : pool) : Prop := forall st', ~ step limit st st'.

(** A compaction: whether its main thread has low priority, and its inputs. *)
Record compaction_run := mkRun {
  cr_first_level : Z;
  cr_n0 : Z;
  cr_n1 : Z;
  cr_passes : list nat
}.
Definition cr_low (r : compaction_run) : bool := negb (cr_first_level r =? 0).
Definition cr_script (c : nat) (r : compaction_run) : list act :=
  compaction_script c (cr_first_level r) (cr_n0 r) (cr_n1 r) (cr_passes r).
Definition cr_fetched (r : compaction_run) : list nat := prefetched (cr_first_level r) (cr_n0 r) (cr_n1 r).
(** The merge reads its inputs to the end. *)
Definition run_ok (r : compaction_run) : Prop := forall i, i ∈ cr_passes r <-> i ∈ cr_fetched r.

(** The compactions of the upper levels have been scheduled, [impl/tropodb_impl_background.cc:567],
    those of level 0 run in the other pool. *)
Definition start (rs : list compaction_run) : pool :=
  mkPool (concat (imap (fun c r => if cr_low r then [Main c] else []) rs)) []
    (imap (fun c r => (cr_low r, Some (cr_script c r))) rs).

(** The threads that a compaction takes in this pool. *)
Definition threads_of (r : compaction_run) : Z := Z.b2z (cr_low r) + 1 + blen (cr_fetched r).

(** ** With enough threads every compaction ends *)

Section Enough.

(** The actions of [c] are about jobs of [c] that are in the pool when they are needed. *)
Fixpoint wf_script (c : nat) (known : list job) (s : list act) : Prop :=
  match s with
  | [] => True
  | Schedule j :: s => owner j = c /\ j <> Main c /\ wf_script c (j :: known) s
  | Await j :: s => owner j = c /\ j <> Main c /\ j ∈ known /\ wf_script c known s
  | Join j :: s => owner j = c /\ j <> Main c /\ j ∈ known /\ wf_script c (filter (fun x => x <> j) known) s
  end.

Lemma wf_mono c known known' s :
  (forall j, owner j = c -> j ∈ known -> j ∈ known') -> wf_script c known s -> wf_script c known' s.
Proof.
  revert known known'. induction s as [|[j|j|j] s IH]; intros known known' Hk; [done|..]; cbn.
  - intros (Ho & Hm & Hs). split_and!; [done|done|]. eapply IH; [|exact Hs]. intros x Hx [-> | Hin]%elem_of_cons; [left|right; auto].
  - intros (Ho & Hm & Hin & Hs). split_and!; eauto.
  - intros (Ho & Hm & Hin & Hs). split_and!; [done|done|auto|]. eapply IH; [|exact Hs].
    intros x Hx [? ?]%list_elem_of_filter. apply list_elem_of_filter. auto.
Qed.

(** The helpers that a main thread has not scheduled yet, and the steps that it has left. *)
Fixpoint schedules (s : list act) : nat :=
  match s with [] => 0 | Schedule _ :: s => S (schedules s) | _ :: s => schedules s end.
Definition to_schedule (m : bool * option (list act)) : nat := match snd m with Some s => schedules s | None => 0 end.
Definition acts_left (m : bool * option (list act)) : nat := match snd m with Some s => 2 * length s + 1 | None => 0 end.

Lemma sum_insert {A} (f : A -> nat) (l : list A) c x y :
  l !! c = Some x -> (sum_list_with f (<[c := y]> l) + f x = sum_list_with f l + f y)%nat.
Proof.
  revert c. induction l as [|z l IH]; intros [|c] Hc; [done|done| |].
  - injection Hc as ->. cbn. lia.
  - specialize (IH c Hc). change (<[S c := y]> (z :: l)) with (z :: <[c := y]> l). cbn [sum_list_with]. lia.
Qed.

Record pool_inv (limit : Z) (st : pool) : Prop := {
  pv_room : Z.of_nat (length (queue_ st) + length (running st) + sum_list_with to_schedule (mains st)) <= limit;
  pv_mains : forall c low s, mains st !! c = Some (low, Some s) ->
    wf_script c (queue_ st ++ running st) s /\ (low = true -> Main c ∈ queue_ st ++ running st)
}.

Definition steps_left (st : pool) : nat := (length (queue_ st) + sum_list_with acts_left (mains st))%nat.

Lemma ends_length st j : (length (ends st j) <= length (running st))%nat.
Proof. apply length_filter. Qed.

Lemma ends_shorter st j : j ∈ running st -> (length (ends st j) < length (running st))%nat.
Proof.
  intros Hj. unfold ends. induction (running st) as [|x l IH]; [by apply not_elem_of_nil in Hj|].
  rewrite filter_cons. case_decide as Hx; cbn.
  - apply elem_of_cons in Hj as [-> | Hj]; [done|]. specialize (IH Hj). lia.
  - pose proof (length_filter (fun x => x <> j) l). lia.
Qed.

Lemma pool_step_inv limit st st' : step limit st st' -> pool_inv limit st -> pool_inv limit st' /\ (steps_left st' < steps_left st)%nat.
Proof.
  intros [Hp|c Hm] [Hroom Hmains].
  - unfold pool_run in Hp. destruct (queue_ st) as [|j q] eqn:Eq; [done|]. case_match; [|done]. injection Hp as <-.
    unfold steps_left. cbn. rewrite Eq. cbn in *. split; [|lia]. constructor; cbn; [lia|]. intros c low s Hc.
    destruct (Hmains c low s Hc) as [Hw Hin]. split; [|intros Hl; specialize (Hin Hl); set_solver].
    eapply wf_mono; [|exact Hw]. set_solver.
  - apply bind_Some in Hm as ([low o] & Hc & (s & -> & Hm)%bind_Some). destruct (low && _) eqn:El; [done|].
    destruct (Hmains c low s Hc) as [Hw Hin].
    assert (Hgo : forall q r o', st' = mkPool q r (<[c := (low, o')]> (mains st)) ->
      (length q + length r + to_schedule (low, o') <= length (queue_ st) + length (running st) + to_schedule (low, Some s))%nat ->
      (length q + acts_left (low, o') < length (queue_ st) + acts_left (low, Some s))%nat ->
      (forall j, j ∈ queue_ st ++ running st -> owner j <> c -> j ∈ q ++ r) ->
      (forall s', o' = Some s' -> wf_script c (q ++ r) s' /\ (low = true -> Main c ∈ q ++ r)) ->
      pool_inv limit st' /\ (steps_left st' < steps_left st)%nat).
    { intros q r o' -> H1 H2 Hoth Hself. pose proof (sum_insert to_schedule _ _ _ (low, o') Hc). pose proof (sum_insert acts_left _ _ _ (low, o') Hc).
      unfold steps_left. cbn [queue_ mains]. split; [|lia]. constructor; cbn [queue_ running mains]; [lia|]. intros c' low' s'.
      destruct (decide (c' = c)) as [-> | Hne].
      - rewrite list_lookup_insert_eq by (by eapply lookup_lt_Some). intros [= <- ->]. by apply Hself.
      - rewrite list_lookup_insert_ne by done. intros Hc'. destruct (Hmains _ _ _ Hc') as [Hw' Hin'].
        split; [|intros Hl; apply Hoth; [auto|done]]. eapply wf_mono; [|exact Hw']. intros j Ho Hj. apply Hoth; [done|congruence]. }
    clear Hmains Hroom. destruct s as [|[j|j|j] s]; cbn in Hw.
    + injection Hm as <-. pose proof (ends_length st (Main c)). eapply Hgo; [done|cbn; lia|cbn; lia| |done].
      intros j Hj Ho. apply elem_of_app in Hj as [Hj|Hj]; [set_solver|]. apply elem_of_app. right. apply list_elem_of_filter.
      split; [|done]. by intros ->.
    + unfold Submit in Hm. injection Hm as <-. destruct Hw as (Ho & Hne & Hw). eapply Hgo; [done|rewrite length_app; cbn; lia|rewrite length_app; cbn; lia|set_solver|].
      intros s' [= <-]. split; [|intros Hl; specialize (Hin Hl); set_solver]. eapply wf_mono; [|exact Hw]. set_solver.
    + case_bool_decide as Hr; [|done]. injection Hm as <-. destruct Hw as (Ho & Hne & Hk & Hw).
      eapply Hgo; [done|cbn; lia|cbn; lia|done|]. by intros s' [= <-].
    + case_bool_decide as Hr; [|done]. injection Hm as <-. destruct Hw as (Ho & Hne & Hk & Hw). pose proof (ends_length st j).
      assert (Hkeep : forall x, x ∈ queue_ st ++ running st -> x <> j -> x ∈ queue_ st ++ ends st j).
      { intros x Hx Hxj. apply elem_of_app in Hx as [Hx|Hx]; [set_solver|]. apply elem_of_app. right. by apply list_elem_of_filter. }
      eapply Hgo; [done|cbn; lia|cbn; lia|intros x Hx Hxo; apply Hkeep; [done|congruence]|].
      intros s' [= <-]. split; [|intros Hl; apply Hkeep; [auto|congruence]]. eapply wf_mono; [|exact Hw].
      intros x Hx [Hxj Hx']%list_elem_of_filter. by apply Hkeep.
Qed.

(** Every job of the pool can have a thread, so no main thread waits forever. *)
Lemma some_main_moves limit st : pool_inv limit st -> (exists st', step limit st st') \/ finished st.
Proof.
  intros [Hroom Hmains]. destruct (decide (finished st)) as [Hf|Hf]; [by right|left].
  apply not_Forall_Exists in Hf; [|intros; apply _]. apply Exists_exists in Hf as ([low o] & Hin & Ho). cbn in Ho.
  apply list_elem_of_lookup in Hin as [c Hc]. destruct o as [s|]; [|done]. destruct (Hmains _ _ _ Hc) as [Hw Hm].
  assert (Hpool : forall j, j ∈ queue_ st -> exists st', step limit st st').
  { intros j Hj. destruct (queue_ st) as [|j' q] eqn:Eq; [by apply not_elem_of_nil in Hj|]. eexists. apply step_pool. unfold pool_run.
    rewrite Eq, (proj2 (Z.ltb_lt _ _)); [done|]. unfold blen. cbn in Hroom. lia. }
  assert (Hgo : forall st', main_go c st = Some st' -> exists st', step limit st st') by (intros st' ?; eexists; by eapply step_main).
  destruct (decide (low = true /\ Main c ∉ running st)) as [[Hl Hr]|Hr].
  { apply (Hpool (Main c)). specialize (Hm Hl). apply elem_of_app in Hm as [?|?]; done. }
  unfold main_go in Hgo. rewrite Hc in Hgo. cbn in Hgo.
  assert (low && negb (bool_decide (Main c ∈ running st)) = false) as E.
  { destruct low; [|done]. cbn. apply negb_false_iff, bool_decide_eq_true. destruct (decide (Main c ∈ running st)); [done|]. by destruct Hr. }
  rewrite E in Hgo. destruct s as [|[j|j|j] s]; [by eapply Hgo|by eapply Hgo|..]; destruct Hw as (_ & _ & Hk & _);
    (destruct (decide (j ∈ running st)); [rewrite bool_decide_eq_true_2 in Hgo by done; by eapply Hgo|apply (Hpool j)]; set_solver).
Qed.

Lemma pool_run_inv limit n st st' :
  relations.nsteps (step limit) n st st' -> pool_inv limit st -> pool_inv limit st' /\ (n + steps_left st' <= steps_left st)%nat.
Proof.
  induction 1 as [st|n x y z Hxy _ IH]; intros Hi; [split; [done|lia]|].
  destruct (pool_step_inv _ _ _ Hxy Hi) as [Hy Hn]. destruct (IH Hy) as [Hz Hn']. split; [done|lia].
Qed.

(** ** The scripts *)

Lemma sum_imap {A B} (f : nat -> A -> B) (g : B -> nat) (h : A -> nat) l :
  (forall i x, g (f i x) = h x) -> sum_list_with g (imap f l) = sum_list_with h l.
Proof. revert f. induction l as [|x l IH]; intros f Hf; [done|]. rewrite imap_cons. cbn [sum_list_with]. by rewrite Hf, (IH (f ∘ S)) by (intros; apply Hf). Qed.

Lemma length_concat_sum {A} (ls : list (list A)) : length (concat ls) = sum_list_with length ls.
Proof. induction ls as [|l ls IH]; [done|]. cbn. by rewrite length_app, IH. Qed.

Lemma schedules_app s t : schedules (s ++ t) = (schedules s + schedules t)%nat.
Proof. induction s as [|[] s IH]; cbn; congruence. Qed.
Lemma schedules_map (js : list job) : schedules (Schedule <$> js) = length js.
Proof. induction js as [|j js IH]; cbn; congruence. Qed.
Lemma schedules_none {A} (f : A -> act) (l : list A) : (forall x, schedules [f x] = 0%nat) -> schedules (f <$> l) = 0%nat.
Proof. intros Hf. induction l as [|x l IH]; [done|]. specialize (Hf x). cbn in *. by destruct (f x). Qed.

Lemma cr_schedules c r : schedules (cr_script c r) = S (length (cr_fetched r)).
Proof.
  unfold cr_script, compaction_script. cbn. rewrite !schedules_app, schedules_map, length_fmap. cbn.
  rewrite (schedules_none Join), (schedules_none (fun i => Await (Fetcher c i))) by done. unfold cr_fetched. lia.
Qed.

Lemma wf_schedules c known js s :
  Forall (fun j => owner j = c /\ j <> Main c) js -> wf_script c (rev_append js known) s -> wf_script c known ((Schedule <$> js) ++ s).
Proof.
  intros Hjs. revert known. induction Hjs as [|j js [Ho Hm] _ IH]; intros known; cbn; [done|]. intros Hs. split_and!; [done|done|]. by apply IH.
Qed.

Lemma wf_awaits c known js s :
  Forall (fun j => owner j = c /\ j <> Main c /\ j ∈ known) js -> wf_script c known s -> wf_script c known ((Await <$> js) ++ s).
Proof. intros Hjs Hs. induction Hjs as [|j js (Ho & Hm & Hk) _ IH]; cbn; [done|]. by split_and!. Qed.

Lemma wf_joins c known js :
  NoDup js -> Forall (fun j => owner j = c /\ j <> Main c /\ j ∈ known) js -> wf_script c known (Join <$> js).
Proof.
  intros Hnd. revert known. induction Hnd as [|j js Hj Hnd IH]; intros known Hjs; cbn; [done|]. apply Forall_cons in Hjs as [(Ho & Hm & Hk) Hjs].
  split_and!; [done..|]. apply IH. rewrite Forall_forall in Hjs |- *. intros x Hx. destruct (Hjs x Hx) as (? & ? & ?). split_and!; [done|done|].
  apply list_elem_of_filter. split; [|done]. by intros ->.
Qed.

Lemma prefetched_NoDup a b n : NoDup (prefetched a b n).
Proof. unfold prefetched. repeat case_match; repeat constructor; set_solver. Qed.

Lemma cr_wf c r known : run_ok r -> wf_script c known (cr_script c r).
Proof.
  intros Hok. unfold cr_script, compaction_script. cbn. split_and!; [done|done|]. apply wf_schedules.
  { apply Forall_fmap, Forall_forall. done. }
  rewrite rev_append_rev. change (fun i => Await (Fetcher c i)) with (Await ∘ Fetcher c). rewrite list_fmap_compose.
  assert (Hin : forall i, i ∈ prefetched (cr_first_level r) (cr_n0 r) (cr_n1 r) -> forall l, Fetcher c i ∈ rev (Fetcher c <$> prefetched (cr_first_level r) (cr_n0 r) (cr_n1 r)) ++ l).
  { intros i Hi l. apply elem_of_app. left. apply list_elem_of_In, in_rev. rewrite rev_involutive. apply list_elem_of_In. by apply list_elem_of_fmap_2. }
  apply wf_awaits.
  { apply Forall_fmap, Forall_forall. intros i Hi. cbn. split_and!; [done|done|]. apply Hin. by apply Hok. }
  cbn. split_and!; [done|done|set_solver|]. apply wf_joins; [apply NoDup_fmap_2; [by intros ? ? [=]|apply prefetched_NoDup]|].
  apply Forall_fmap, Forall_forall. intros i Hi. cbn. split_and!; [done|done|]. apply list_elem_of_filter. split; [done|]. by apply Hin.
Qed.

Definition threads (rs : list compaction_run) : Z := foldr (fun r n => threads_of r + n) 0 rs.

Lemma start_room rs :
  Z.of_nat (length (queue_ (start rs)) + sum_list_with to_schedule (mains (start rs))) = threads rs.
Proof.
  cbn. rewrite length_concat_sum, (sum_imap _ _ (fun r => if cr_low r then 1 else 0)%nat) by (by intros i r; destruct (cr_low r)).
  rewrite (sum_imap _ _ (fun r => S (length (cr_fetched r)))) by (intros i r; apply cr_schedules).
  induction rs as [|r rs IH]; [done|]. unfold threads in *. cbn [sum_list_with foldr]. rewrite <-IH. unfold threads_of, blen.
  destruct (cr_low r); cbn; lia.
Qed.

Lemma start_pool limit rs : Forall run_ok rs -> threads rs <= limit -> pool_inv limit (start rs).
Proof.
  intros Hok Hlim. constructor.
  - pose proof (start_room rs). change (length (running (start rs))) with 0%nat. lia.
  - intros c low s Hc. cbn in Hc. rewrite list_lookup_imap in Hc. apply fmap_Some in Hc as (r & Hr & [= -> ->]).
    split; [apply cr_wf; by eapply Forall_lookup_1|]. intros Hl. cbn. rewrite app_nil_r. apply list_elem_of_In, in_concat. exists [Main c].
    split; [|by left]. apply list_elem_of_In, list_elem_of_lookup. exists c. by rewrite list_lookup_imap, Hr; cbn; rewrite Hl.
Qed.
End Enough.

(** ** With fewer threads a compaction never ends *)

Section TooFew.
Context (limit : Z) (r : compaction_run) (Hok : run_ok r) (Hlow : cr_low r = true) (Hfew : limit < threads_of r).

(** Nothing has been joined, and whom the compaction has waited for has a thread. *)
Definition not_joined (st : pool) : Prop :=
  blen (running st) <= limit /\ exists done todo,
    (Schedule (Writer 0) :: (Schedule <$> (Fetcher 0 <$> cr_fetched r)) ++ ((fun i => Await (Fetcher 0 i)) <$> cr_passes r)) = done ++ todo /\
    mains st = [(true, Some (todo ++ Join (Writer 0) :: (Join <$> (Fetcher 0 <$> cr_fetched r))))] /\
    forall j, Await j ∈ done -> j ∈ running st.

Lemma not_joined_step st st' : step limit st st' -> not_joined st -> not_joined st'.
Proof.
  intros Hs (Hlen & done & todo & Hscript & Hm & Hrun). destruct Hs as [Hp|c Hc].
  - unfold pool_run in Hp. destruct (queue_ st) as [|j q]; [done|]. destruct (Z.ltb_spec (blen (running st)) limit); [|done].
    injection Hp as <-. split; cbn; [rewrite blen_cons; lia|]. exists done, todo. split_and!; [done..|]. intros j' Hj. right. by apply Hrun.
  - unfold main_go in Hc. rewrite Hm in Hc. destruct c as [|c]; [|done]. cbn [lookup list_lookup mbind option_bind andb] in Hc.
    destruct (bool_decide (Main 0 ∈ running st)) eqn:Hmain; [|done]. apply bool_decide_eq_true in Hmain. cbn [negb] in Hc. destruct todo as [|a todo].
    + exfalso. cbn [app] in Hc. case_bool_decide as Hw; [|done]. rewrite app_nil_r in Hscript.
      assert (Hsub : Main 0 :: Writer 0 :: (Fetcher 0 <$> cr_fetched r) ⊆+ running st).
      { apply NoDup_submseteq; [repeat constructor; [set_solver..|apply NoDup_fmap_2; [by intros ? ? [=]|apply prefetched_NoDup]]|].
        intros j [-> | [-> | (i & -> & Hi)%list_elem_of_fmap]%elem_of_cons]%elem_of_cons; [done|done|]. apply Hrun. rewrite <-Hscript.
        apply elem_of_cons. right. apply elem_of_app. right. apply (list_elem_of_fmap_2 (fun i => Await (Fetcher 0 i))). by apply Hok. }
      apply submseteq_length in Hsub. cbn in Hsub. rewrite length_fmap in Hsub. unfold threads_of, blen in *. rewrite Hlow in Hfew. cbn in Hfew. lia.
    + cbn [app] in Hc. destruct a as [j|j|j].
      * injection Hc as <-. split; [done|]. exists (done ++ [Schedule j]), todo. rewrite <-app_assoc. split_and!; [done|done|].
        cbn. intros j' [Hj|Hj%list_elem_of_singleton]%elem_of_app; [by apply Hrun|done].
      * case_bool_decide as Hj; [|done]. injection Hc as <-. split; [done|]. exists (done ++ [Await j]), todo. rewrite <-app_assoc. split_and!; [done|done|].
        cbn. intros j' [Hj'|Hj']%elem_of_app; [by apply Hrun|]. apply list_elem_of_singleton in Hj' as [= ->]. done.
      * exfalso. assert (Hin : Join j ∈ done ++ Join j :: todo) by set_solver. rewrite <-Hscript in Hin. clear -Hin. set_solver.
Qed.

Lemma never_finished st : 0 <= limit -> rtc (step limit) (start [r]) st -> ~ finished st.
Proof.
  intros H0 Hrun. assert (Hnj : not_joined st).
  { remember (start [r]) as st0. assert (not_joined st0); [subst st0|clear Heqst0; induction Hrun; [done|]; by eauto using not_joined_step].
    split; cbn; [done|]. eexists [], _. split; [done|]. rewrite Hlow. split; [|set_solver].
    unfold cr_script, compaction_script. cbn. by rewrite <-app_assoc. }
  destruct Hnj as (_ & done & todo & _ & Hm & _). unfold finished. rewrite Hm. intros Hf%Forall_cons. by destruct Hf.
Qed.
End TooFew.

(** A run that is given by who goes on: the pool, or a compaction. *)
Fixpoint exec (limit : Z) (choices : list (option nat)) (st : pool) : option pool :=
  match choices with
  | [] => Some st
  | x :: choices => st ← (match x with None => pool_run limit st | Some c => main_go c st end); exec limit choices st
  end.

Lemma exec_run limit choices st st' :
  exec limit choices st = Some st' -> relations.nsteps (step limit) (length choices) st st'.
Proof.
  revert st. induction choices as [|x choices IH]; intros st; cbn; [intros [= ->]; constructor|].
  intros (st1 & H1 & H2)%bind_Some. eapply nsteps_l; [|by apply IH]. destruct x; [by eapply step_main|by apply step_pool].
Qed.

Lemma stuck_check limit st :
  pool_run limit st = None -> forallb (fun c => match main_go c st with None => true | _ => false end) (seq 0 (length (mains st))) = true ->
  stuck limit st.
Proof.
  intros Hp Hm st' [E|c E]; [congruence|]. unfold main_go in E at 1. destruct (mains st !! c) as [m|] eqn:Hc; [|done].
  rewrite forallb_forall in Hm. specialize (Hm c). rewrite in_seq in Hm. apply lookup_lt_Some in Hc as Hlt. specialize (Hm ltac:(lia)).
  unfold main_go in Hm. rewrite Hc in Hm. by rewrite E in Hm.
Qed.

(** C28: the pool with low priority is large enough when it has a thread for every main
    thread, writer and prefetcher of the compactions: however the threads are scheduled,
    some thread can go on until every compaction has ended, after a bounded number of
    steps. *)
Theorem low_pool_enough limit rs n st :
  Forall run_ok rs -> threads rs <= limit -> relations.nsteps (step limit) n (start rs) st ->
  ((exists st', step limit st st') \/ finished st) /\ (n <= steps_left (start rs))%nat.
Proof.
  intros Hrs Hlim Hrun. destruct (pool_run_inv _ _ _ _ Hrun (start_pool limit rs Hrs Hlim)) as [Hinv Hn].
  split; [by apply some_main_moves|lia].
Qed.

(** A compaction of level 0 and one of level 1, each with two tables in the level below. *)
Definition two_runs : list compaction_run := [mkRun 0 2 2 [1%nat]; mkRun 1 1 2 [1%nat]].
Definition two_choices : list (option nat) :=
  [None; Some 0; None; Some 1; None; Some 0; Some 1]%nat.

(** C36: the three threads of the pool are too few.  A compaction of an upper level
    with more than one table on both levels never ends, however long it runs: it has a
    thread itself, its writer and one prefetcher have the others, and it waits for the
    second prefetcher.  A compaction of level 0 and one of an upper level block each other
    when their writers have the two threads that are left and both wait for a
    prefetcher. *)
Theorem low_pool_deadlock r st :
  run_ok r -> 0 < cr_first_level r -> 1 < cr_n0 r -> 1 < cr_n1 r -> rtc (step low_level_threads_) (start [r]) st ->
  ~ finished st /\
  Forall run_ok two_runs /\ exists st', rtc (step low_level_threads_) (start two_runs) st' /\ ~ finished st' /\ stuck low_level_threads_ st'.
Proof.
  intros Hr Hl H0 H1 Hrun. split; [|split].
  - eapply (never_finished low_level_threads_ r); [done| | |done|done].
    + unfold cr_low. by rewrite (proj2 (Z.eqb_neq _ _)) by lia.
    + unfold threads_of, cr_low, cr_fetched, prefetched. rewrite (proj2 (Z.eqb_neq _ _)) by lia.
      by rewrite !(proj2 (Z.ltb_lt _ _)) by lia.
  - do 2 (constructor; [by intros i|]). constructor.
  - destruct (exec low_level_threads_ two_choices (start two_runs)) as [st'|] eqn:E; [|done]. exists st'.
    split; [apply rtc_nsteps; eexists; by eapply exec_run|]. vm_compute in E. injection E as <-. split; [by intros [? _]%Forall_cons|by apply stuck_check].
Qed.

Module PoolWitness.
(** Two tables on both levels; the merge passes both boundaries. *)
Definition run : compaction_run := mkRun 1 2 2 [0; 1]%nat.
Definition choices : list (option nat) :=
  [None; Some 0; Some 0; Some 0; None; None; None; Some 0; Some 0; Some 0; Some 0; Some 0; Some 0]%nat.
Definition ended : pool := Eval vm_compute in default (start [run]) (exec 4 choices (start [run])).
Definition blocked : pool := Eval vm_compute in default (start [run]) (exec low_level_threads_ (take 6 choices) (start [run])).

Lemma run_is_ok : run_ok run.
Proof. intros i. cbn. set_solver. Qed.
End PoolWitness.

Lemma low_pool_enough_witness :
  finished PoolWitness.ended /\ (13 <= steps_left (start [PoolWitness.run]))%nat.
Proof.
  split; [by repeat constructor|].
  exact (proj2 (low_pool_enough 4 [PoolWitness.run] 13 PoolWitness.ended ltac:(constructor; [apply PoolWitness.run_is_ok|constructor])
    ltac:(by vm_compute) (exec_run 4 PoolWitness.choices (start [PoolWitness.run]) PoolWitness.ended eq_refl))).
Defined.

Lemma low_pool_deadlock_witness : ~ finished PoolWitness.blocked.
Proof.
  exact (proj1 (low_pool_deadlock PoolWitness.run PoolWitness.blocked PoolWitness.run_is_ok ltac:(by vm_compute) ltac:(by vm_compute) ltac:(by vm_compute)
    (rtc_nsteps_2 6 _ _ (exec_run low_level_threads_ (take 6 PoolWitness.choices) (start [PoolWitness.run]) PoolWitness.blocked eq_refl)))).
Defined.
