(* ===== verification/BackgroundCompaction.v ===== *)
(** * BackgroundCompaction: the two compaction threads

    The compactions of [impl/tropodb_impl_background.cc].  One thread compacts level 0
    and one the levels above it.  Each picks its tables with the mutex held, works
    without the mutex and takes it again to install its edit and to reclaim tables.
    The threads keep out of each other's way by [reserved_comp_], the tables of the
    running compactions, and by [reserve_claimed_], the claim of a thread that waits
    to come first.

    The first part gives the operations, cut where the mutex is released; the second
    part the transition system of the two threads, in which other threads may do
    anything to the rest of the store. *)

From S2P Require Import Prelude Coding DbFormat Config SSTable VersionEdit Version Szd Memtable Wal WalManager WriteBatch.
From S2P Require Import VersionBuilder Manifest VersionSet PickCompaction L0SSTable LNSSTable SSTableManager TableCache.
From S2P Require Import Compaction CompactionSafety L0Flush Database.

#[export] Instance TropoVersion_eq_dec : EqDecision TropoVersion.
Proof. solve_decision. Defined.

(** The reservations of [TropoDBImpl], tropodb_impl.h:383-384, beside the rest of the store:
    the tables of the running compaction of level 0, of the one above, and who has
    claimed to come next (0 or 1, and -1 for nobody). *)
Record background (DB : Type) := mkBackground {
  bg_db : DB;
  reserved_comp_0 : list SSZoneMetaData;
  reserved_comp_1 : list SSZoneMetaData;
  reserve_claimed_ : Z
}.
Arguments mkBackground {_}. Arguments bg_db {_}. Arguments reserved_comp_0 {_}. Arguments reserved_comp_1 {_}.
Arguments reserve_claimed_ {_}.

(** What a round of the loop before a compaction decides: to wait, or to run the
    compaction with a reference to the current version. *)
Inductive round := Waits | Runs (c : TropoCompaction) (v : TropoVersion).

Section Background.
Context `{UserComparator} {M WLog L0 LN C Rep : Type}.
Context `{!ManifestOps M} `{!OnceLog WLog} `{!CircularLog L0} `{!FragmentedLog LN} `{!Cache C} `{!MemTableRep Rep}.
Context (name : bytes) (lba_size zone_cap : Z) (fresh : SSZoneMetaData).

Abbreviation Manager := (TropoSSTableManager L0 LN).
Abbreviation VS := (TropoVersionSet M Manager).
Abbreviation TC := (TropoTableCache C Manager).
Abbreviation DB := (TropoDBImpl WLog Rep VS TC).
Abbreviation Bg := (background DB).
Implicit Types (db : DB) (vs : VS) (bg : Bg) (c : TropoCompaction).

(** What [PickCompaction] asks of the manager; the logs it names exist. *)
#[local] Instance manager_space : SSTableSpace Manager := {|
  sp_SpaceRemainingLN := mg_SpaceRemainingLN lba_size;
  sp_SpaceRemainingL0 mg i := default 0 (mg_SpaceRemainingL0 lba_size mg i);
  sp_GetFractionFilled mg level := default (f64_of_Z 0) (mg_GetFractionFilled lba_size zone_cap mg level)
|}.

(** ** References to versions *)

(** [RefCounter::Unref], ref_counter.h:18-23, for a version; the last reference takes it from the list. *)
Fixpoint unref_version (v : TropoVersion) (versions : list (TropoVersion * Z)) : list (TropoVersion * Z) :=
  match versions with
  | [] => []
  | (v', n) :: versions =>
      if decide (v' = v) then (if n - 1 <=? 0 then versions else (v', n - 1) :: versions)
      else (v', n) :: unref_version v versions
  end.
Definition Unref vs (v : TropoVersion) : VS := set_versions vs (unref_version v (vs_versions vs)).

(** [TropoCompaction::~TropoCompaction], index/tropodb_compaction.cc:36-40 *)
Definition delete_compaction vs c : VS := match c_version c with Some v => Unref vs v | None => vs end.

Definition set_bg_db bg db : Bg := mkBackground db (reserved_comp_0 bg) (reserved_comp_1 bg) (reserve_claimed_ bg).
Definition set_bg_versions bg vs : Bg := set_bg_db bg (set_versions_ (bg_db bg) vs).
Definition set_reserved_0 bg l : Bg := mkBackground (bg_db bg) l (reserved_comp_1 bg) (reserve_claimed_ bg).
Definition set_reserved_1 bg l : Bg := mkBackground (bg_db bg) (reserved_comp_0 bg) l (reserve_claimed_ bg).
Definition set_claimed bg z : Bg := mkBackground (bg_db bg) (reserved_comp_0 bg) (reserved_comp_1 bg) z.

(** ** Reclaiming *)

(** [TropoDBImpl::RemoveObsoleteZonesL0], impl/tropodb_impl_background.cc:202-210 *)
Definition RemoveObsoleteZonesL0 db : option (Status * DB) :=
  '(s, vs) ← ReclaimStaleSSTablesL0 (SSTableManagerOps0 := manager_ops zone_cap) name lba_size fresh (versions_ db);
  Some (s, set_manager (set_versions_ db vs) (vs_ss_manager vs)).

(** [TropoDBImpl::RemoveObsoleteZonesLN], impl/tropodb_impl_background.cc:384-392 *)
Definition RemoveObsoleteZonesLN db : option (Status * DB) :=
  '(s, vs) ← ReclaimStaleSSTablesLN (SSTableManagerOps0 := manager_ops zone_cap) name lba_size fresh (versions_ db);
  Some (s, set_manager (set_versions_ db vs) (vs_ss_manager vs)).

(** ** The compaction of level 0 *)

(** The start of [BackgroundCompactionL0], impl/tropodb_impl_background.cc:236-261; [true] when a compaction is
    needed. *)
Definition CompactionL0Begin db : option (bool * DB) :=
  needs ← NeedsL0Compaction lba_size zone_cap (versions_ db);
  if negb (needs : bool) then Some (false, db)
  else if OnlyNeedDeletes (versions_ db) 0 then
    '(s, db) ← RemoveObsoleteZonesL0 db; Some (false, note_error db s)
  else Some (true, db).

(** A round of the loop of [BackgroundCompactionL0], impl/tropodb_impl_background.cc:269-292, and what
    follows it before the mutex is released. *)
Definition CompactionL0Round bg : option (round * Bg) :=
  '(c, vs) ← PickCompaction lba_size (versions_ (bg_db bg)) 0 (reserved_comp_1 bg);
  if (reserve_claimed_ bg =? 1) || HasOverlapWithOtherCompaction c (reserved_comp_1 bg) then
    Some (Waits, set_claimed (set_bg_versions bg (delete_compaction vs c))
                   (if reserve_claimed_ bg =? -1 then 0 else reserve_claimed_ bg))
  else
    Some (Runs c (current vs),
          set_reserved_0 (set_claimed (set_bg_versions bg (ref_current vs))
            (if reserve_claimed_ bg =? 0 then -1 else reserve_claimed_ bg)) (GetCompactionTargets c)).

(** The work of a compaction, which is the same for both threads; the mutex is not held. *)
Definition CompactionWork (fuel : nat) bg c : option (Status * TropoVersionEdit * Bg) :=
  '(s, vs, edit) ← run_compaction lba_size zone_cap fresh fuel (versions_ (bg_db bg)) c;
  Some (s, edit, set_bg_db bg (set_manager (set_versions_ (bg_db bg) vs) (vs_ss_manager vs))).

(** [delete c] and [current->Unref()] after a compaction, impl/tropodb_impl_background.cc:315-322. *)
Definition CompactionRelease db c (v : TropoVersion) : DB :=
  set_versions_ db (Unref (delete_compaction (versions_ db) c) v).

(** A compaction that worked releases the version and installs its edit, impl/tropodb_impl_background.cc:333-335. *)
Definition CompactionInstall db c (v : TropoVersion) (edit : TropoVersionEdit) : option (Status * DB) :=
  let db := CompactionRelease db c v in
  '(s, vs, _) ← LogAndApply (SSTableManagerOps0 := manager_ops zone_cap) name lba_size fresh (versions_ db) edit;
  Some (s, set_versions_ db vs).

(** The end of [BackgroundCompactionL0], impl/tropodb_impl_background.cc:315-364, with the status and the
    edit of the compaction. *)
Definition CompactionL0End bg c (v : TropoVersion) (s : Status) (edit : TropoVersionEdit) : option Bg :=
  if negb (ok s) then Some (set_bg_db (set_reserved_0 bg []) (set_error (CompactionRelease (bg_db bg) c v) s))
  else
    '(s, db) ← CompactionInstall (bg_db bg) c v edit;
    let bg := set_reserved_0 bg [] in
    if negb (ok s) then Some (set_bg_db bg (set_error db s))
    else '(s, db) ← RemoveObsoleteZonesL0 db; Some (set_bg_db bg (note_error db s)).

(** The end of [BackgroundCompactionL0Call], impl/tropodb_impl_background.cc:224-233. *)
Definition CompactionL0CallEnd db (shutdown_ : bool) : option DB :=
  let db := mkDB (stripes db) (versions_ db) (table_cache_ db) (bg_error_ db) false (bg_compaction_scheduled_ db) in
  if shutdown_ then Some db
  else db ← MaybeScheduleCompactionL0 lba_size zone_cap db; Some (MaybeScheduleCompaction db false).

(** [TropoDBImpl::BackgroundCompactionL0], impl/tropodb_impl_background.cc:236-364, when it does not have to wait and
    no other thread comes between. *)
Definition BackgroundCompactionL0 (fuel : nat) bg : option Bg :=
  '(go, db) ← CompactionL0Begin (bg_db bg);
  let bg := set_bg_db bg db in
  if negb (go : bool) then Some bg
  else
    '(r, bg) ← CompactionL0Round bg;
    match r with
    | Waits => None
    | Runs c v => '(s, edit, bg) ← CompactionWork fuel bg c; CompactionL0End bg c v s edit
    end.

(** [TropoDBImpl::BackgroundCompactionL0Call], impl/tropodb_impl_background.cc:212-234 *)
Definition BackgroundCompactionL0Call (fuel : nat) bg (shutdown_ : bool) : option Bg :=
  bg ← (if ok (bg_error_ (bg_db bg)) then BackgroundCompactionL0 fuel bg else Some bg);
  db ← CompactionL0CallEnd (bg_db bg) shutdown_;
  Some (set_bg_db bg db).

(** ** The compaction of the other levels *)

(** [TropoVersion::CompactionLevel], index/tropodb_version.h:56-56 *)
Definition CompactionLevel vs : Z := fst (vs_compaction vs).

(** The start of [BackgroundCompaction], impl/tropodb_impl_background.cc:394-423. *)
Definition CompactionBegin db : option (bool * DB) :=
  let level := CompactionLevel (versions_ db) in
  if level_count <=? level then Some (false, db)
  else if OnlyNeedDeletes (versions_ db) level then
    '(s, db) ← RemoveObsoleteZonesLN db;
    Some (false, note_error (set_versions_ db (RecalculateScore lba_size (versions_ db))) s)
  else Some (true, db).

(** A round of the loop of [BackgroundCompaction], impl/tropodb_impl_background.cc:430-453, and what follows
    it before the mutex is released. *)
Definition CompactionRound bg : option (round * Bg) :=
  '(c, vs) ← PickCompaction lba_size (versions_ (bg_db bg)) (CompactionLevel (versions_ (bg_db bg))) (reserved_comp_0 bg);
  if (reserve_claimed_ bg =? 0) || HasOverlapWithOtherCompaction c (reserved_comp_0 bg) || c_busy c then
    Some (Waits, set_claimed (set_bg_versions bg (delete_compaction vs c))
                   (if reserve_claimed_ bg =? -1 then 1 else reserve_claimed_ bg))
  else
    Some (Runs c (current vs),
          set_reserved_1 (set_claimed (set_bg_versions bg (ref_current vs))
            (if reserve_claimed_ bg =? 1 then -1 else reserve_claimed_ bg)) (GetCompactionTargets c)).

(** The end of [BackgroundCompaction], impl/tropodb_impl_background.cc:474-525.  When the compaction itself
    failed, the reservation stays. *)
Definition CompactionEnd bg c (v : TropoVersion) (s : Status) (edit : TropoVersionEdit) : option Bg :=
  if negb (ok s) then Some (set_bg_db bg (set_error (CompactionRelease (bg_db bg) c v) s))
  else
    '(s, db) ← CompactionInstall (bg_db bg) c v edit;
    let bg := set_reserved_1 bg [] in
    if negb (ok s) then Some (set_bg_db bg (set_error db s))
    else
      '(s, db) ← RemoveObsoleteZonesLN db;
      Some (set_bg_db bg (note_error (set_versions_ db (RecalculateScore lba_size (versions_ db))) s)).

(** The end of [BackgroundCompactionCall], impl/tropodb_impl_background.cc:539-548. *)
Definition CompactionCallEnd db (shutdown_ : bool) : DB :=
  let db := mkDB (stripes db) (versions_ db) (table_cache_ db) (bg_error_ db) (bg_compaction_l0_scheduled_ db) false in
  if shutdown_ then db else MaybeScheduleCompaction db false.

(** [TropoDBImpl::BackgroundCompaction], impl/tropodb_impl_background.cc:394-525, when it does not have to wait and no
    other thread comes between. *)
Definition BackgroundCompaction (fuel : nat) bg : option Bg :=
  '(go, db) ← CompactionBegin (bg_db bg);
  let bg := set_bg_db bg db in
  if negb (go : bool) then Some bg
  else
    '(r, bg) ← CompactionRound bg;
    match r with
    | Waits => None
    | Runs c v => '(s, edit, bg) ← CompactionWork fuel bg c; CompactionEnd bg c v s edit
    end.

(** [TropoDBImpl::BackgroundCompactionCall], impl/tropodb_impl_background.cc:527-549 *)
Definition BackgroundCompactionCall (fuel : nat) bg (shutdown_ : bool) : option Bg :=
  bg ← (if ok (bg_error_ (bg_db bg)) then BackgroundCompaction fuel bg else Some bg);
  Some (set_bg_db bg (CompactionCallEnd (bg_db bg) shutdown_)).

(** ** Closing *)

(** [TropoDBImpl::AnyFlushScheduled], impl/tropodb_impl.cc:404-411 *)
Definition AnyFlushScheduled db : bool := existsb bg_flush_scheduled_ (stripes db).

(** The condition that [Close] and the destructor wait for, impl/tropodb_impl.cc:417-418. *)
Definition jobs_left db : bool :=
  bg_compaction_l0_scheduled_ db || bg_compaction_scheduled_ db || AnyFlushScheduled db.

(** ** The two threads *)

(** A thread: between two calls, waiting for the signal of the other thread, woken by
    it but without the mutex, or at work. *)
Inductive phase := Idle | Waiting | Woken | Running (c : TropoCompaction) (v : TropoVersion).

Record threads := mkThreads { th_bg : Bg; th_0 : phase; th_1 : phase }.

(** [SignalAll] of the condition variable that the thread waits for. *)
Definition wake (p : phase) : phase := match p with Waiting => Woken | p => p end.
(** A call picks when there is no error, a woken thread in any case. *)
Definition can_pick bg (p : phase) : Prop := (p = Idle /\ ok (bg_error_ (bg_db bg)) = true) \/ p = Woken.

(** The phase after a round. *)
Definition after_round (r : round) : phase := match r with Waits => Waiting | Runs c v => Running c v end.

(** What the other threads, and the two while they work, may do to the store; which
    compactions of the upper levels may fail; and what holds of the store when the
    thread of the upper levels picks. *)
Context (env : DB -> DB -> Prop) (may_fail : Prop) (picks_from : VS -> Prop).

(** A step takes a thread from one release of the mutex to the next.  A call that finds
    nothing to compact, or an error, ends at once; every call ends with the signals. *)
Inductive step : threads -> threads -> Prop :=
  | step_env bg db t0 t1 : env (bg_db bg) db -> step (mkThreads bg t0 t1) (mkThreads (set_bg_db bg db) t0 t1)
  | step_wakeup_0 bg t1 : step (mkThreads bg Waiting t1) (mkThreads bg Woken t1)
  | step_wakeup_1 bg t0 : step (mkThreads bg t0 Waiting) (mkThreads bg t0 Woken)
  | step_skip_0 bg t1 : step (mkThreads bg Idle t1) (mkThreads bg Idle (wake t1))
  | step_skip_1 bg t0 : step (mkThreads bg t0 Idle) (mkThreads bg (wake t0) Idle)
  | step_round_0 bg t0 t1 r bg' :
      can_pick bg t0 -> CompactionL0Round bg = Some (r, bg') -> step (mkThreads bg t0 t1) (mkThreads bg' (after_round r) t1)
  | step_round_1 bg t0 t1 r bg' :
      can_pick bg t1 -> picks_from (versions_ (bg_db bg)) -> CompactionRound bg = Some (r, bg') ->
      step (mkThreads bg t0 t1) (mkThreads bg' t0 (after_round r))
  | step_end_0 bg c v t1 s edit bg' :
      CompactionL0End bg c v s edit = Some bg' -> step (mkThreads bg (Running c v) t1) (mkThreads bg' Idle (wake t1))
  | step_end_1 bg t0 c v s edit bg' :
      (ok s = false -> may_fail) -> CompactionEnd bg c v s edit = Some bg' ->
      step (mkThreads bg t0 (Running c v)) (mkThreads bg' (wake t0) Idle).

(** Nothing is reserved or claimed before the first compaction. *)
Definition start db : threads := mkThreads (mkBackground db [] [] (-1)) Idle Idle.

(** Two lists of tables without a common number. *)
Definition apart_tables (a b : list SSZoneMetaData) : Prop := forall x y, x ∈ a -> y ∈ b -> m_number x <> m_number y.

Lemma targets_apart c metas :
  HasOverlapWithOtherCompaction c metas = false -> apart_tables (GetCompactionTargets c) metas.
Proof.
  unfold HasOverlapWithOtherCompaction. intros Ho x y Hx Hy E.
  apply not_true_iff_false in Ho. apply Ho, existsb_exists. exists y. split; [by apply list_elem_of_In|].
  apply orb_true_iff. apply elem_of_app in Hx as [Hx|Hx]; [left|right]; apply existsb_exists; exists x;
    (split; [by apply list_elem_of_In|]); by apply Z.eqb_eq.
Qed.

(** What a round does to the reservations. *)
Lemma CompactionL0Round_spec bg r bg' :
  CompactionL0Round bg = Some (r, bg') ->
  reserved_comp_1 bg' = reserved_comp_1 bg /\
  match r with
  | Waits => reserved_comp_0 bg' = reserved_comp_0 bg /\
      reserve_claimed_ bg' = (if reserve_claimed_ bg =? -1 then 0 else reserve_claimed_ bg) /\
      (reserve_claimed_ bg = 1 \/ reserved_comp_1 bg <> [])
  | Runs c v => reserved_comp_0 bg' = GetCompactionTargets c /\ reserve_claimed_ bg <> 1 /\
      reserve_claimed_ bg' = (if reserve_claimed_ bg =? 0 then -1 else reserve_claimed_ bg) /\
      apart_tables (GetCompactionTargets c) (reserved_comp_1 bg)
  end.
Proof.
  intros ([c vs] & _ & Hr)%bind_Some. destruct (_ || _) eqn:Ew in Hr; injection Hr as <- <-; cbn; split_and!; try done.
  - apply orb_true_iff in Ew as [Ew|Ew]; [left; by apply Z.eqb_eq|right]. intros E. by rewrite E in Ew.
  - intros E. rewrite E in Ew. by cbn in Ew.
  - apply orb_false_iff in Ew as [_ Ew]. by apply targets_apart.
Qed.

Lemma CompactionRound_spec bg r bg' :
  CompactionRound bg = Some (r, bg') ->
  reserved_comp_0 bg' = reserved_comp_0 bg /\
  match r with
  | Waits => reserved_comp_1 bg' = reserved_comp_1 bg /\
      reserve_claimed_ bg' = (if reserve_claimed_ bg =? -1 then 1 else reserve_claimed_ bg) /\
      (reserve_claimed_ bg = 0 \/ reserved_comp_0 bg <> [] \/
       exists c vs', PickCompaction lba_size (versions_ (bg_db bg)) (CompactionLevel (versions_ (bg_db bg))) [] = Some (c, vs') /\ c_busy c = true)
  | Runs c v => reserved_comp_1 bg' = GetCompactionTargets c /\ reserve_claimed_ bg <> 0 /\
      reserve_claimed_ bg' = (if reserve_claimed_ bg =? 1 then -1 else reserve_claimed_ bg) /\
      apart_tables (GetCompactionTargets c) (reserved_comp_0 bg)
  end.
Proof.
  intros ([c vs] & Hp & Hr)%bind_Some. destruct (_ || c_busy c) eqn:Ew in Hr; injection Hr as <- <-; cbn; split_and!; try done.
  - apply orb_true_iff in Ew as [[Ew|Ew]%orb_true_iff|Ew]; [left; by apply Z.eqb_eq|right..].
    + left. intros E. by rewrite E in Ew.
    + destruct (reserved_comp_0 bg) as [|m l]; [right|by left]. by exists c, vs.
  - intros E. rewrite E in Ew. by cbn in Ew.
  - apply orb_false_iff in Ew as [[_ Ew]%orb_false_iff _]. by apply targets_apart.
Qed.

(** What the end of a compaction does to them. *)
Lemma CompactionL0End_spec bg c v s edit bg' :
  CompactionL0End bg c v s edit = Some bg' ->
  reserved_comp_0 bg' = [] /\ reserved_comp_1 bg' = reserved_comp_1 bg /\ reserve_claimed_ bg' = reserve_claimed_ bg.
Proof.
  unfold CompactionL0End. destruct (negb (ok s)); [by intros [= <-]|].
  intros ([s1 db1] & _ & Hr)%bind_Some. destruct (negb (ok s1)); [by injection Hr as <-|].
  by apply bind_Some in Hr as ([s2 db2] & _ & [= <-]).
Qed.

Lemma CompactionEnd_spec bg c v s edit bg' :
  CompactionEnd bg c v s edit = Some bg' ->
  reserved_comp_0 bg' = reserved_comp_0 bg /\ reserve_claimed_ bg' = reserve_claimed_ bg /\
  reserved_comp_1 bg' = if ok s then [] else reserved_comp_1 bg.
Proof.
  unfold CompactionEnd. destruct (ok s); cbn [negb]; [|by intros [= <-]].
  intros ([s1 db1] & _ & Hr)%bind_Some. destruct (negb (ok s1)); [by injection Hr as <-|].
  by apply bind_Some in Hr as ([s2 db2] & _ & [= <-]).
Qed.

(** The reservations are those of the running compactions, and a claim is that of a
    thread that waits. *)
Definition holds (p : phase) (reserved : list SSZoneMetaData) : Prop :=
  match p with Running c _ => reserved = GetCompactionTargets c | _ => True end.
Definition waits (p : phase) : Prop := p = Waiting \/ p = Woken.

Record exclusive_inv (t : threads) : Prop := {
  ei_0 : holds (th_0 t) (reserved_comp_0 (th_bg t));
  ei_1 : holds (th_1 t) (reserved_comp_1 (th_bg t));
  ei_apart : apart_tables (reserved_comp_0 (th_bg t)) (reserved_comp_1 (th_bg t))
}.

Lemma apart_tables_sym a b : apart_tables a b -> apart_tables b a.
Proof. intros Hab x y Hx Hy E. by apply (Hab y x). Qed.
Lemma apart_tables_nil_l a : apart_tables [] a.
Proof. intros x y Hx. by apply not_elem_of_nil in Hx. Qed.
Lemma apart_tables_nil_r a : apart_tables a [].
Proof. apply apart_tables_sym, apart_tables_nil_l. Qed.
Lemma holds_wake p l : holds p l -> holds (wake p) l.
Proof. by destruct p. Qed.

Lemma step_exclusive t t' : step t t' -> exclusive_inv t -> exclusive_inv t'.
Proof.
  intros Hs [H0 H1 Ha]. destruct Hs; cbn in *; try by constructor; cbn; try apply holds_wake.
  - apply CompactionL0Round_spec in H3 as [E1 Hr]. destruct r as [|c v].
    + destruct Hr as (E0 & _). constructor; cbn; [done|by rewrite E1|by rewrite E0, E1].
    + destruct Hr as (E0 & _ & _ & Hap). constructor; cbn; [done|by rewrite E1|by rewrite E0, E1].
  - apply CompactionRound_spec in H4 as [E0 Hr]. destruct r as [|c v].
    + destruct Hr as (E1 & _). constructor; cbn; [by rewrite E0|done|by rewrite E0, E1].
    + destruct Hr as (E1 & _ & _ & Hap). constructor; cbn; [by rewrite E0|done|]. rewrite E0, E1. by apply apart_tables_sym.
  - apply CompactionL0End_spec in H2 as (E0 & E1 & _). constructor; cbn; [done|apply holds_wake; by rewrite E1|].
    rewrite E0. apply apart_tables_nil_l.
  - apply CompactionEnd_spec in H3 as (E0 & _ & E1). constructor; cbn; [apply holds_wake; by rewrite E0|done|].
    rewrite E0, E1. destruct (ok s); [apply apart_tables_nil_r|done].
Qed.

(** *** Progress *)

Definition running (p : phase) : Prop := match p with Running _ _ => True | _ => False end.

(** A reservation is that of a running compaction, and a thread that waits does so for
    the other one. *)
Record progress_inv (t : threads) : Prop := {
  pi_claim_0 : reserve_claimed_ (th_bg t) = 0 -> waits (th_0 t);
  pi_claim_1 : reserve_claimed_ (th_bg t) = 1 -> waits (th_1 t);
  pi_claim : reserve_claimed_ (th_bg t) = -1 \/ reserve_claimed_ (th_bg t) = 0 \/ reserve_claimed_ (th_bg t) = 1;
  pi_reserved_0 : reserved_comp_0 (th_bg t) <> [] -> running (th_0 t);
  pi_reserved_1 : reserved_comp_1 (th_bg t) <> [] -> running (th_1 t);
  pi_waits_0 : th_0 t = Waiting -> reserve_claimed_ (th_bg t) = 1 \/ running (th_1 t);
  pi_waits_1 : th_1 t = Waiting -> reserve_claimed_ (th_bg t) = 0 \/ running (th_0 t)
}.

(** A pick of a level that has tables is not busy when nothing is reserved. *)
Lemma finish_pick_busy vs c L0index max_lba_c c' vs' :
  finish_pick vs c L0index max_lba_c = Some (c', vs') -> c_busy c' = c_busy c.
Proof.
  assert (Hs : forall vs c, SetupOtherInputs vs c = Some (c', vs') -> c_busy c' = c_busy c).
  { unfold SetupOtherInputs. intros vs0 c0 (ts & _ & ([a b] & _ & (t1 & _ & (t2 & _ & ([x y] & _ & (g & _ & [= <- _])%bind_Some)%bind_Some)%bind_Some)%bind_Some)%bind_Some)%bind_Some. done. }
  unfold finish_pick. case_match; [|by intros E%Hs].
  intros ([a b] & _ & (o & _ & E%Hs)%bind_Some)%bind_Some. done.
Qed.

Lemma PickCompaction_busy vs level c vs' :
  level_tables (v_ss (current vs)) level <> [] -> PickCompaction lba_size vs level [] = Some (c, vs') -> c_busy c = false.
Proof.
  intros Hne. unfold PickCompaction. destruct (level =? 0).
  { destruct (pick_l0 _ _) as [[n i] [|]]; cbn [negb]; [|by intros [= <- _]].
    intros (m & _ & Hf)%bind_Some. by apply finish_pick_busy in Hf. }
  intros (cp & _ & Hr)%bind_Some. destruct (pick_ln _ _ _ _); [by apply finish_pick_busy in Hr|].
  destruct (level =? 1).
  - destruct (level_tables _ level) as [|m ss]; [done|]. cbn in Hr. by apply finish_pick_busy in Hr.
  - destruct (level_tables _ level) as [|m ss]; [done|]. by apply finish_pick_busy in Hr.
Qed.

(** What a pick changes of the version set: a reference to the current version, and a
    compaction pointer. *)
Record picked vs c vs' : Prop := {
  pk_compaction : vs_compaction vs' = vs_compaction vs;
  pk_sequence : vs_last_sequence vs' = vs_last_sequence vs;
  pk_number : vs_ss_number vs' = vs_ss_number vs;
  pk_number_l0 : vs_ss_number_l0 vs' = vs_ss_number_l0 vs;
  pk_manifest : vs_manifest vs' = vs_manifest vs;
  pk_manager : vs_ss_manager vs' = vs_ss_manager vs;
  pk_pointer : length (vs_compact_pointer vs') = length (vs_compact_pointer vs);
  pk_versions : (vs_versions vs' = vs_versions vs /\ c_version c = None) \/
    (vs_versions vs' = vs_versions (ref_current vs) /\ c_version c = Some (current vs))
}.

Lemma ref_current_fields vs :
  vs_compaction (ref_current vs) = vs_compaction vs /\ vs_last_sequence (ref_current vs) = vs_last_sequence vs /\
  vs_ss_number (ref_current vs) = vs_ss_number vs /\ vs_ss_number_l0 (ref_current vs) = vs_ss_number_l0 vs /\
  vs_manifest (ref_current vs) = vs_manifest vs /\ vs_ss_manager (ref_current vs) = vs_ss_manager vs /\
  vs_compact_pointer (ref_current vs) = vs_compact_pointer vs.
Proof. unfold ref_current. by destruct (last (vs_versions vs)) as [[v n]|]. Qed.

Lemma finish_pick_frame vs c L0index max_lba_c c' vs' : finish_pick vs c L0index max_lba_c = Some (c', vs') -> picked vs c' vs'.
Proof.
  assert (Hs : forall c, SetupOtherInputs (ref_current vs) c = Some (c', vs') -> c_version c = Some (current vs) -> picked vs c' vs').
  { unfold SetupOtherInputs. intros c0 (ts & _ & ([a b] & _ & (t1 & _ & (t2 & _ & ([x y] & _ & (g & _ & [= <- <-])%bind_Some)%bind_Some)%bind_Some)%bind_Some)%bind_Some)%bind_Some Hv.
    destruct (ref_current_fields vs) as (F1 & F2 & F3 & F4 & F5 & F6 & F7). constructor; cbn; try done.
    - by rewrite length_insert, F7.
    - by right. }
  unfold finish_pick. case_match; [|by intros E%Hs].
  intros ([a b] & _ & (o & _ & E%Hs)%bind_Some)%bind_Some; [done|done].
Qed.

Lemma PickCompaction_frame vs level busy c vs' : PickCompaction lba_size vs level busy = Some (c, vs') -> picked vs c vs'.
Proof.
  assert (Hsame : forall c, c_version c = None -> picked vs c vs) by (intros c0 Hc; constructor; try done; by left).
  unfold PickCompaction. destruct (level =? 0).
  { destruct (pick_l0 _ _) as [[n i] [|]]; cbn [negb]; [|intros [= <- <-]; by apply Hsame].
    intros (m & _ & Hf)%bind_Some. by apply finish_pick_frame in Hf. }
  intros (cp & _ & Hr)%bind_Some. destruct (pick_ln _ _ _ _); [by apply finish_pick_frame in Hr|].
  destruct (level =? 1).
  - destruct (pick_wrapped _ _); [by apply finish_pick_frame in Hr|]. injection Hr as <- <-. by apply Hsame.
  - destruct (level_tables _ level) as [|m ss]; [|by apply finish_pick_frame in Hr]. injection Hr as <- <-. by apply Hsame.
Qed.

(** Versions in the list have references. *)
Definition refs_ok vs : Prop := vs_versions vs <> [] /\ Forall (fun x => 0 < snd x) (vs_versions vs).

Lemma unref_version_last l v n :
  Forall (fun x : TropoVersion * Z => 0 < snd x) l -> 0 < n ->
  exists l' n', unref_version v (l ++ [(v, n + 1)]) = l' ++ [(v, n')] /\ Forall (fun x => 0 < snd x) l' /\ 0 < n'.
Proof.
  intros Hl Hn. induction Hl as [|[v' k] l Hk Hl IH]; cbn [app unref_version].
  - rewrite decide_True by done. exists [], n. rewrite (proj2 (Z.leb_gt _ _)) by lia. split_and!; [|constructor|done].
    by replace (n + 1 - 1) with n by lia.
  - cbn in Hk. destruct (decide (v' = v)) as [->|Hne].
    + destruct (Z.leb_spec (k - 1) 0); [exists l, (n + 1); split_and!; [done|done|lia]|].
      exists ((v, k - 1) :: l), (n + 1). split_and!; [done|constructor; [cbn; lia|done]|lia].
    + destruct IH as (l' & n' & -> & Hl' & Hn'). exists ((v', k) :: l'), n'. split_and!; [done|by constructor|done].
Qed.

Lemma last_decompose {A} (l : list A) x : last l = Some x -> l = removelast l ++ [x].
Proof. intros [k ->]%last_Some. by rewrite removelast_last. Qed.

(** Dropping a picked compaction leaves the current version. *)
Lemma delete_picked vs c vs' :
  refs_ok vs -> picked vs c vs' -> refs_ok (delete_compaction vs' c) /\ current (delete_compaction vs' c) = current vs /\
    vs_compaction (delete_compaction vs' c) = vs_compaction vs.
Proof.
  intros [Hne Hpos] Hp. unfold delete_compaction. destruct (pk_versions _ _ _ Hp) as [[Ev ->]|[Ev ->]].
  { unfold refs_ok, current. rewrite Ev. split_and!; [done|done|done|apply Hp]. }
  destruct (last (vs_versions vs)) as [[v n]|] eqn:El; [|by apply last_None in El].
  assert (Ec : current vs = v) by (unfold current; by rewrite El).
  pose proof (last_decompose _ _ El) as Ed. unfold ref_current in Ev. rewrite El in Ev. cbn in Ev.
  rewrite Ed in Hpos. apply Forall_app in Hpos as [Hpos Hn]. apply Forall_cons in Hn as [Hn _]. cbn in Hn.
  destruct (unref_version_last _ v n Hpos Hn) as (l' & n' & E & Hl' & Hn').
  rewrite Ec. unfold Unref, refs_ok, current. cbn. rewrite Ev, E. split_and!; [by destruct l'|apply Forall_app; split; [done|by repeat constructor]|by rewrite last_snoc|apply Hp].
Qed.

Section Progress.
Context (Hfail : ~ may_fail).
Context (Hpick : forall vs, picks_from vs -> level_tables (v_ss (current vs)) (CompactionLevel vs) <> []).

Lemma waits_wake p : waits p -> waits (wake p).
Proof. intros [-> | ->]; by right. Qed.
Lemma wake_not_waiting p : wake p <> Waiting.
Proof. by destruct p. Qed.
Lemma running_wake p : running (wake p) <-> running p.
Proof. by destruct p. Qed.
Lemma can_pick_running bg p : can_pick bg p -> ~ running p.
Proof. intros [[-> _] | ->] []. Qed.

Lemma round_0_progress bg t0 t1 r bg' :
  progress_inv (mkThreads bg t0 t1) -> can_pick bg t0 -> CompactionL0Round bg = Some (r, bg') ->
  progress_inv (mkThreads bg' (after_round r) t1).
Proof.
  intros [C0 C1 Cl R0 R1 W0 W1] Hc%can_pick_running [E1 Hr]%CompactionL0Round_spec. cbn in *. destruct r as [|c v]; cbn [after_round].
  - destruct Hr as (E0 & Ec & Hw). constructor; cbn; rewrite ?E0, ?E1, ?Ec; try done.
    + by left.
    + intros E. apply C1. destruct (Z.eqb_spec (reserve_claimed_ bg) (-1)); [done|exact E].
    + destruct (Z.eqb_spec (reserve_claimed_ bg) (-1)); [|done]. by right; left.
    + intros E. destruct (Hc (R0 E)).
    + intros _. destruct Hw as [Hw|Hw]; [left; by rewrite Hw|right; by apply R1].
    + intros E. destruct (W1 E) as [Hz|Hz]; [left; by rewrite Hz|]. destruct (Hc Hz).
  - destruct Hr as (E0 & Hne & Ec & _). constructor; cbn; rewrite ?E0, ?E1, ?Ec; try done.
    + by destruct (Z.eqb_spec (reserve_claimed_ bg) 0).
    + destruct (Z.eqb_spec (reserve_claimed_ bg) 0); [done|exact C1].
    + destruct (Z.eqb_spec (reserve_claimed_ bg) 0); [by left|done].
    + by right.
Qed.

Lemma round_1_progress bg t0 t1 r bg' :
  progress_inv (mkThreads bg t0 t1) -> can_pick bg t1 -> picks_from (versions_ (bg_db bg)) -> CompactionRound bg = Some (r, bg') ->
  progress_inv (mkThreads bg' t0 (after_round r)).
Proof.
  intros [C0 C1 Cl R0 R1 W0 W1] Hc%can_pick_running Hp [E0 Hr]%CompactionRound_spec. cbn in *. destruct r as [|c v]; cbn [after_round].
  - destruct Hr as (E1 & Ec & Hw). constructor; cbn; rewrite ?E0, ?E1, ?Ec; try done.
    + intros E. apply C0. destruct (Z.eqb_spec (reserve_claimed_ bg) (-1)); [done|exact E].
    + by left.
    + destruct (Z.eqb_spec (reserve_claimed_ bg) (-1)); [|done]. by right; right.
    + intros E. destruct (Hc (R1 E)).
    + intros E. destruct (W0 E) as [Hz|Hz]; [left; by rewrite Hz|]. destruct (Hc Hz).
    + intros _. destruct Hw as [Hw|[Hw|(c & vs & Hpc & Hb)]]; [left; by rewrite Hw|right; by apply R0|exfalso].
      by rewrite (PickCompaction_busy _ _ _ _ (Hpick _ Hp) Hpc) in Hb.
  - destruct Hr as (E1 & Hne & Ec & _). constructor; cbn; rewrite ?E0, ?E1, ?Ec; try done.
    + destruct (Z.eqb_spec (reserve_claimed_ bg) 1); [done|exact C0].
    + by destruct (Z.eqb_spec (reserve_claimed_ bg) 1).
    + destruct (Z.eqb_spec (reserve_claimed_ bg) 1); [by left|done].
    + by right.
Qed.

Lemma step_progress t t' : step t t' -> progress_inv t -> progress_inv t'.
Proof.
  intros Hstep Hinv. pose proof Hinv as [C0 C1 Cl R0 R1 W0 W1].
  destruct Hstep as [ | | | | | bg t0 t1 r bg' Hc Hr | bg t0 t1 r bg' Hc Hp Hr | bg c v t1 s e bg' Hr | bg t0 c v s e bg' Hs Hr ];
    cbn in *; try done.
  - constructor; cbn; try done. intros E. by right.
  - constructor; cbn; try done. intros E. by right.
  - constructor; cbn; try done; [intros E; by apply waits_wake, C1|by rewrite running_wake|intros E; by apply wake_not_waiting in E].
  - constructor; cbn; try done; [intros E; by apply waits_wake, C0|by rewrite running_wake|intros E; by apply wake_not_waiting in E].
  - by eapply round_0_progress.
  - by eapply round_1_progress.
  - apply CompactionL0End_spec in Hr as (E0 & E1 & Ec). constructor; cbn; rewrite ?E0, ?E1, ?Ec; try done.
    + intros E. by destruct (C0 E).
    + intros E. by apply waits_wake, C1.
    + by rewrite running_wake.
    + intros E. by apply wake_not_waiting in E.
  - apply CompactionEnd_spec in Hr as (E0 & Ec & E1). destruct (ok s) eqn:Eok; [|by destruct (Hfail (Hs eq_refl))].
    constructor; cbn; rewrite ?E0, ?E1, ?Ec; try done.
    + intros E. by apply waits_wake, C0.
    + intros E. by destruct (C1 E).
    + by rewrite running_wake.
    + intros E. by apply wake_not_waiting in E.
Qed.
End Progress.

Lemma run_invariant (I : threads -> Prop) t t' :
  (forall t t', step t t' -> I t -> I t') -> rtc step t t' -> I t -> I t'.
Proof. intros Hs. induction 1 as [|t t1 t' H1 _ IH]; [done|]. intros Ht. by eapply IH, Hs. Qed.

Lemma start_exclusive db : exclusive_inv (start db).
Proof. constructor; [done|done|]. apply apart_tables_nil_l. Qed.

Lemma start_progress db : progress_inv (start db).
Proof. constructor; try done. by left. Qed.

(** C12: the two compaction threads keep out of each other's way and do not block
    each other.  Whatever the other threads do: (1) compactions that run at the same
    time share no table; and, as long as no compaction of the upper levels fails and
    the level that is picked has tables, (2) a thread that waits does so for one that
    is at work or has just been woken, so they never wait for each other; (3) a thread
    that has claimed to come next does: the other one does not start before, and when
    it is not at work the round of the waiting thread runs. *)
Theorem compactions_exclusive db t :
  rtc step (start db) t ->
  (forall c0 v0 c1 v1, th_0 t = Running c0 v0 -> th_1 t = Running c1 v1 ->
     apart_tables (GetCompactionTargets c0) (GetCompactionTargets c1)) /\
  (~ may_fail -> (forall vs, picks_from vs -> level_tables (v_ss (current vs)) (CompactionLevel vs) <> []) ->
     (th_0 t = Waiting -> running (th_1 t) \/ th_1 t = Woken) /\
     (th_1 t = Waiting -> running (th_0 t) \/ th_0 t = Woken) /\
     (forall r bg, reserve_claimed_ (th_bg t) = 0 ->
        (CompactionRound (th_bg t) = Some (r, bg) -> r = Waits) /\
        (CompactionL0Round (th_bg t) = Some (r, bg) -> ~ running (th_1 t) -> r <> Waits)) /\
     (forall r bg, reserve_claimed_ (th_bg t) = 1 ->
        (CompactionL0Round (th_bg t) = Some (r, bg) -> r = Waits))).
Proof.
  intros Hrun. split.
  - destruct (run_invariant exclusive_inv _ _ step_exclusive Hrun (start_exclusive db)) as [H0 H1 Ha].
    intros c0 v0 c1 v1 E0 E1. rewrite E0 in H0. rewrite E1 in H1. cbn in *. by rewrite H0, H1 in Ha.
  - intros Hfail Hpick.
    destruct (run_invariant progress_inv _ _ (step_progress Hfail Hpick) Hrun (start_progress db)) as [C0 C1 _ _ R1 W0 W1]. split_and!.
    + intros E. destruct (W0 E) as [Hc|]; [right|by left]. destruct (C1 Hc) as [E1|]; [|done].
      destruct (W1 E1) as [Hc'|Hr]; [by rewrite Hc in Hc'|by rewrite E in Hr].
    + intros E. destruct (W1 E) as [Hc|]; [right|by left]. destruct (C0 Hc) as [E0|]; [|done].
      destruct (W0 E0) as [Hc'|Hr]; [by rewrite Hc in Hc'|by rewrite E in Hr].
    + intros r bg Hc. split.
      * intros [_ Hr]%CompactionRound_spec. destruct r; [done|]. by destruct Hr as (_ & ? & _).
      * intros [_ Hr]%CompactionL0Round_spec Hn ->. destruct Hr as (_ & _ & [Hz|Hz]); [by rewrite Hc in Hz|by apply Hn, R1].
    + intros r bg Hc [_ Hr]%CompactionL0Round_spec. destruct r; [done|]. by destruct Hr as (_ & ? & _).
Qed.

(** ** A compaction that fails *)

(** The pick of level 0 looks at the current version and the manager only. *)
Lemma pick_l0_same vs1 vs2 busy :
  current vs1 = current vs2 -> vs_ss_manager vs1 = vs_ss_manager vs2 ->
  fst <$> PickCompaction lba_size vs1 0 busy = fst <$> PickCompaction lba_size vs2 0 busy.
Proof.
  intros Hc Hm. unfold PickCompaction. rewrite Hc, Hm. cbn [Z.eqb].
  destruct (pick_l0 _ _) as [[number i] [|]]; cbn [negb]; [|done].
  destruct (level_tables _ _ !! i) as [m|]; [|done]. cbn [mbind option_bind].
  assert (Hr : forall vs : VS, current (ref_current vs) = current vs).
  { intros vs. unfold ref_current. destruct (last (vs_versions vs)) as [[v n]|] eqn:El; [|done].
    unfold current. cbn. by rewrite last_snoc, El. }
  unfold finish_pick, SetupOtherInputs. rewrite !Hr, Hc. cbn [c_first_level set_version set_targets0 newCompaction Z.eqb].
  repeat (match goal with |- context [@mbind option _ _ _ ?f ?m] => destruct m as [?|]; cbn [mbind option_bind]; [|done] end || case_match);
    done.
Qed.

(** The compaction of level 0 that would be picked shares a table with the reservation
    [metas], and an error has been noted. *)
Definition clashes (metas : list SSZoneMetaData) db : Prop :=
  ok (bg_error_ db) = false /\ refs_ok (versions_ db) /\
  forall c, fst <$> PickCompaction lba_size (versions_ db) 0 metas = Some c -> HasOverlapWithOtherCompaction c metas = true.

Lemma CompactionL0Round_clashes bg r bg' :
  clashes (reserved_comp_1 bg) (bg_db bg) -> CompactionL0Round bg = Some (r, bg') ->
  r = Waits /\ clashes (reserved_comp_1 bg) (bg_db bg').
Proof.
  intros (He & Hrefs & Hc) ([c vs] & Hp & Hr)%bind_Some. rewrite (Hc c), orb_true_r in Hr by (by rewrite Hp).
  injection Hr as <- <-. split; [done|]. apply PickCompaction_frame in Hp.
  destruct (delete_picked _ _ _ Hrefs Hp) as (H1 & H2 & H3). split_and!; [done|done|]. intros c'.
  rewrite (pick_l0_same _ (versions_ (bg_db bg))); [apply Hc|done|].
  cbn. rewrite <- (pk_manager _ _ _ Hp). unfold delete_compaction. by destruct (c_version c).
Qed.

Definition blocked (metas : list SSZoneMetaData) (t : threads) : Prop :=
  clashes metas (bg_db (th_bg t)) /\ reserved_comp_1 (th_bg t) = metas /\ th_1 t = Idle /\ ~ running (th_0 t).

Lemma step_blocked metas t t' :
  (forall db db', clashes metas db -> env db db' -> clashes metas db') -> step t t' -> blocked metas t -> blocked metas t'.
Proof.
  intros Henv Hstep (Hc & Er & Ei & Hn). unfold blocked.
  destruct Hstep as [ | | | | | bg1 t0 t1 r bg2 Hp Hr | bg1 t0 t1 r bg2 Hp Hf Hr | | ]; cbn in *; try done.
  - split_and!; try done. by eapply Henv.
  - subst. by split_and!.
  - split_and!; try done. by rewrite running_wake.
  - pose proof Hr as Hr'. apply CompactionL0Round_spec in Hr' as [E1 _]. rewrite <- Er in *.
    destruct (CompactionL0Round_clashes _ _ _ Hc Hr) as [-> Hc']. by split_and!; [..|intros []].
  - destruct Hp as [[-> Hok] | ->]; [|done]. destruct Hc as [He _]. by rewrite He in Hok.
Qed.

(** C35: a compaction of the upper levels that fails keeps its reservation, and a
    compaction of level 0 that needs one of its tables waits for ever.  The error is
    kept, so no further compaction of the upper levels starts; as long as the pick of
    level 0 needs a reserved table, the thread that waited never runs, so the wait of
    [Close] and of the destructor for the scheduled compaction does not end either. *)
Theorem failed_compaction_blocks bg c v s edit bg' t' :
  CompactionEnd bg c v s edit = Some bg' -> ok s = false ->
  (forall db db', clashes (reserved_comp_1 bg) db -> env db db' -> clashes (reserved_comp_1 bg) db') ->
  clashes (reserved_comp_1 bg) (bg_db bg') -> rtc step (mkThreads bg' (wake Waiting) Idle) t' ->
  bg_error_ (bg_db bg') = s /\ reserved_comp_1 (th_bg t') = reserved_comp_1 bg /\ ~ running (th_0 t').
Proof.
  intros Hend Hs Henv Hcl Hrun. split.
  { unfold CompactionEnd in Hend. rewrite Hs in Hend. by injection Hend as <-. }
  apply CompactionEnd_spec in Hend as (_ & _ & E1). rewrite Hs in E1.
  destruct (run_invariant _ _ _ (fun t t' => step_blocked _ t t' Henv) Hrun) as (_ & Er & _ & Hn); [|done].
  by split_and!; try intros [].
Qed.
End Background.

(** ** Witnesses *)

Module ThreadsWitness.
Import DbWitness.
#[local] Existing Instance BytewiseComparator.
Abbreviation Bg := (background Db).

(** Table [n] with the user keys from [lo] to [hi]. *)
Definition meta (n lo hi : Z) : SSZoneMetaData :=
  mkMeta 0 0 n 0 0 n 0 (repeat 0 8) (repeat 0 8) 2 1 (InternalKey [z2b lo] n 1) (InternalKey [z2b hi] n 1).
Definition store (version : TropoVersion) : Db :=
  set_versions_ db0 (mkVersionSet [(version, 1)] (1, f64_of_Z 1) 100 10 10 (replicate 6 []) (vs_manifest vs0) manager).
Definition before (db : Db) : Bg := mkBackground db [] [] (-1).

(** The tables of level 0 and of level 1 have different keys. *)
Definition v_apart : TropoVersion :=
  mkVersion [[meta 5 3 11]; [meta 1 1 2]; [meta 2 1 1; meta 3 2 2; meta 4 10 12]; []; []; []] (replicate 6 []) (0, 0).
Definition r1 : option (round * Bg) := Eval vm_compute in CompactionL0Round 64 4 (before (store v_apart)).
Definition bg1 : Bg := default (before (store v_apart)) (snd <$> r1).
Definition r2 : option (round * Bg) := Eval vm_compute in CompactionRound 64 4 bg1.
Definition bg2 : Bg := default bg1 (snd <$> r2).
Definition compaction_of (r : option (round * Bg)) : TropoCompaction :=
  match r with Some (Runs c _, _) => c | _ => newCompaction 64 0 end.

(** The table of level 0 overlaps that of level 1. *)
Definition v_clash : TropoVersion := mkVersion [[meta 5 1 3]; [meta 1 1 2]; []; []; []; []] (replicate 6 []) (0, 0).
Definition r3 : option (round * Bg) := Eval vm_compute in CompactionRound 64 4 (before (store v_clash)).
Definition bg3 : Bg := default (before (store v_clash)) (snd <$> r3).
Definition r4 : option (round * Bg) := Eval vm_compute in CompactionL0Round 64 4 bg3.
Definition bg4 : Bg := default bg3 (snd <$> r4).
Definition bg5 : Bg := Eval vm_compute in default bg4 (CompactionEnd name 64 4 fresh bg4 (compaction_of r3) v_clash IOError newEdit).
Definition r6 : option (round * Bg) := Eval vm_compute in CompactionL0Round 64 4 bg5.
Definition bg6 : Bg := default bg5 (snd <$> r6).
End ThreadsWitness.

Lemma compactions_exclusive_witness :
  exists c0 v0 c1 v1,
    rtc (step DbWitness.name 64 4 DbWitness.fresh (fun _ _ => False) False (fun vs => level_tables (v_ss (current vs)) (CompactionLevel vs) <> []))
      (start (ThreadsWitness.store ThreadsWitness.v_apart)) (mkThreads ThreadsWitness.bg2 (Running c0 v0) (Running c1 v1)) /\
    m_number <$> GetCompactionTargets c0 = [5] /\ m_number <$> GetCompactionTargets c1 = [1; 2; 3] /\
    apart_tables (GetCompactionTargets c0) (GetCompactionTargets c1).
Proof.
  exists (ThreadsWitness.compaction_of ThreadsWitness.r1), ThreadsWitness.v_apart,
    (ThreadsWitness.compaction_of ThreadsWitness.r2), ThreadsWitness.v_apart.
  match goal with |- ?R /\ _ => assert (Hrun : R) end.
  { eapply rtc_l; [|eapply rtc_l; [|apply rtc_refl]].
    - apply (step_round_0 _ _ _ _ _ _ _ _ _ _ (Runs (ThreadsWitness.compaction_of ThreadsWitness.r1) ThreadsWitness.v_apart) ThreadsWitness.bg1).
      + by left.
      + by vm_compute.
    - apply (step_round_1 _ _ _ _ _ _ _ _ _ _ (Runs (ThreadsWitness.compaction_of ThreadsWitness.r2) ThreadsWitness.v_apart)).
      + by left.
      + by vm_compute.
      + by vm_compute. }
  split_and!; [exact Hrun|reflexivity|reflexivity|].
  exact (proj1 (compactions_exclusive _ _ _ _ _ _ _ _ _ Hrun) _ _ _ _ eq_refl eq_refl).
Defined.

Lemma failed_compaction_blocks_witness :
  exists t, rtc (step DbWitness.name 64 4 DbWitness.fresh (fun _ _ => False) True (fun _ => True))
      (mkThreads ThreadsWitness.bg5 (wake Waiting) Idle) t /\
    bg_error_ (bg_db ThreadsWitness.bg5) = IOError /\ m_number <$> reserved_comp_1 (th_bg t) = [1] /\
    th_0 t = Waiting /\ ~ running (th_0 t).
Proof.
  exists (mkThreads ThreadsWitness.bg6 Waiting Idle).
  match goal with |- ?R /\ _ => assert (Hrun : R) end.
  { eapply rtc_l; [|apply rtc_refl].
    apply (step_round_0 _ _ _ _ _ _ _ _ _ _ Waits ThreadsWitness.bg6); [by right|by vm_compute]. }
  destruct (failed_compaction_blocks DbWitness.name 64 4 DbWitness.fresh (fun _ _ => False) True (fun _ => True) ThreadsWitness.bg4
    (ThreadsWitness.compaction_of ThreadsWitness.r3) ThreadsWitness.v_clash IOError newEdit ThreadsWitness.bg5
    (mkThreads ThreadsWitness.bg6 Waiting Idle)) as (He & Hr & Hn).
  - by vm_compute.
  - reflexivity.
  - by intros db db' _ [].
  - split_and!; [reflexivity|split; [done|repeat constructor]|]. intros c. vm_compute. by intros [= <-].
  - exact Hrun.
  - split_and!; [exact Hrun|exact He|reflexivity|reflexivity|exact Hn].
Defined.

(** ** Pointers into an older version *)

Module StaleWitness.
Import DbWitness ThreadsWitness.
#[local] Existing Instance BytewiseComparator.
Definition c0 : TropoCompaction := compaction_of r1.
Definition c1 : TropoCompaction := compaction_of r2.
(** The compaction of the upper levels merges its three tables into one. *)
Definition edit : TropoVersionEdit := AddSSDefinition fresh (MarkCompactedTablesAsDead 64 (versions_ (bg_db bg2)) c1 newEdit) 2 (meta 9 1 2).
Definition v_after : TropoVersion := Eval vm_compute in default v_apart (fst <$> apply_edit v_apart (replicate 6 []) edit).
(** Deletions in the table of level 0, of keys that levels 1 and 2 do not have and that level 2 has. *)
Definition del (k : Z) : bytes := InternalKey [z2b k] 50 0.
End StaleWitness.

