(* ===== verification/CompactingStore.v ===== *)
(** * CompactingStore: the store while compactions run

    The refinement of [Database], with compactions.  A compaction picks its inputs with
    the mutex held, merges or moves them without it, and installs its edit with the
    mutex held again; writes, lookups, switches and flushes come between these parts,
    and a flush may install tables in the version that the compaction started from.
    One compaction runs at a time.

    The first part shows that what [PickCompaction] returns is what a compaction needs;
    the second part that the run leaves the store as it is and that the edit can be
    applied to the version that is current when the compaction ends; the third part
    puts the steps together. *)

From S2P Require Import Prelude Coding DbFormat Config SSTable SSTableIter VersionEdit Version Szd Memtable Wal WalManager WriteBatch.
From S2P Require Import VersionBuilder Manifest VersionSet PickCompaction L0SSTable LNSSTable SSTableManager TableCache.
From S2P Require Import Compaction CompactionSafety L0Flush Database BackgroundCompaction.

(** ** The inputs of a compaction *)

Section Picked.
Context `{UserComparator} {M S : Type} `{!SSTableSpace S}.
Context (lba_size : Z).
Abbreviation VS := (TropoVersionSet M S).
Implicit Types (vs : VS) (c : TropoCompaction).

Lemma sorted_snoc (cs : list SSZoneMetaData) k b :
  is_largest cs k -> clt InternalCompare k (m_smallest b) -> StronglySorted before cs -> StronglySorted before (cs ++ [b]).
Proof.
  intros [_ Hk] Hlt Hs. assert (Hall : forall m, m ∈ cs -> before m b).
  { intros m Hm. apply (cle_lt_trans InternalCompare _ k); [by apply Hk|done]. }
  clear Hk. induction Hs as [|x cs Hs IH Hx]; cbn; [repeat constructor|]. constructor.
  - apply IH. intros m Hm. apply Hall. by right.
  - apply Forall_app. split; [done|]. constructor; [|constructor]. apply Hall. left.
Qed.

Lemma boundary_loop_sorted fuel ss cs k cs' :
  wf_tables ss -> is_largest cs k -> StronglySorted before cs -> boundary_loop fuel ss cs k = Some cs' -> StronglySorted before cs'.
Proof.
  intros Hwf. revert cs k. induction fuel as [|fuel IH]; intros cs k Hk Hs; [done|]. cbn [boundary_loop].
  pose proof (FindSmallestBoundarySS_spec ss k) as Hb. destruct (FindSmallestBoundarySS ss k) as [b|]; [|by intros [= <-]].
  destruct Hb as (Hin & [Hlt _]%is_boundary_iff & _). intros Hl. eapply IH; [|by eapply sorted_snoc|exact Hl].
  by apply (is_largest_snoc cs b k); [| |apply Hwf].
Qed.

Lemma AddBoundaryInputs_sorted ss cs cs' :
  wf_tables ss -> StronglySorted before cs -> AddBoundaryInputs ss cs = Some cs' -> StronglySorted before cs'.
Proof.
  intros Hwf Hs. unfold AddBoundaryInputs. destruct cs as [|m cs]; [by intros [= <-]|].
  destruct (FindLargestKey_spec (m :: cs)) as (k & -> & Hk); [done|]. by apply boundary_loop_sorted.
Qed.

(** Tables of a level in order have different numbers. *)
Lemma sorted_numbers ss ts :
  wf_tables ss -> NoDup (m_number <$> ss) -> StronglySorted before ts -> ts ⊆ ss -> NoDup (m_number <$> ts).
Proof.
  intros Hwf Hnd Hs. induction Hs as [|m ts Hs IH Hm]; intros Hsub; [constructor|]. cbn. constructor; [|apply IH; set_solver].
  intros (m' & E & Hm')%list_elem_of_fmap. rewrite Forall_forall in Hm. specialize (Hm m' Hm').
  assert (m' = m) as -> by (apply (NoDup_fmap_inj_on m_number ss); set_solver).
  apply (smallest_before_irrefl (m_largest m) m); [by apply Hwf, Hsub; left|apply (cle_refl InternalCompare)|done].
Qed.

(** What [SetupOtherInputs] keeps, and the order of what it adds. *)
Lemma SetupOtherInputs_fields vs c c' vs' kvs :
  version_ok (current vs) kvs -> 0 <= c_first_level c < level_count - 1 -> SetupOtherInputs vs c = Some (c', vs') ->
  AddBoundaryInputs (level_tables (v_ss (current vs)) (c_first_level c)) (c_targets0 c) = Some (c_targets0 c') /\
  StronglySorted before (c_targets1 c') /\ c_first_level c' = c_first_level c /\ c_max_lba_count c' = c_max_lba_count c /\
  c_level_ptrs c' = c_level_ptrs c /\ c_version c' = c_version c.
Proof.
  intros Hv Hl. unfold SetupOtherInputs.
  intros (t0 & E0 & ([lo hi] & _ & (t1 & E1 & (t1' & E1' & ([a b] & _ & (g & _ & [= <- _])%bind_Some)%bind_Some)%bind_Some)%bind_Some)%bind_Some)%bind_Some.
  split_and!; try done. cbn. eapply AddBoundaryInputs_sorted; [| |exact E1'].
  - eapply version_wf; [done|lia].
  - destruct (GetOverlappingInputs_closed (current vs) (c_first_level c + 1) lo hi ltac:(lia)) as (res & E & Hs & _).
    rewrite E1 in E. injection E as <-. eapply StronglySorted_sublist; [exact Hs|]. apply (vo_ln _ _ Hv). lia.
Qed.

(** A pick that finds something ends with [finish_pick]. *)
Lemma PickCompaction_finish vs level busy c vs' :
  PickCompaction lba_size vs level busy = Some (c, vs') -> c_targets0 c <> [] ->
  exists m n mx, m ∈ level_tables (v_ss (current vs)) level /\
    finish_pick vs (set_targets0 (newCompaction lba_size level) [m]) n mx = Some (c, vs') /\
    (level = 0 -> n = m_number m /\ mx = Z.min (sp_SpaceRemainingLN (vs_ss_manager vs)) max_lbas_compaction_l0).
Proof.
  unfold PickCompaction. destruct (Z.eqb_spec level 0) as [->|Hl].
  - pose proof (pick_l0_spec (vs_ss_manager vs) (level_tables (v_ss (current vs)) 0)) as Hp.
    destruct (pick_l0 _ _) as [[n i] [|]]; cbn [negb]; [|by intros [= <- _]]. destruct Hp as (m & Hm & <- & _).
    rewrite Hm. obind. intros Hf _. exists m, (m_number m), (Z.min (sp_SpaceRemainingLN (vs_ss_manager vs)) max_lbas_compaction_l0).
    split_and!; [by eapply list_elem_of_lookup_2|done|done].
  - intros (cp & _ & Hr)%bind_Some Hne. destruct (pick_ln _ _ _ _) as [m|] eqn:Ep.
    { apply list_find_snd_elem in Ep as [Hm _]. by eexists m, _, _. }
    destruct (level =? 1).
    + destruct (pick_wrapped _ _) as [m|] eqn:Ew; [|by injection Hr as <- _].
      apply list_find_snd_elem in Ew as [Hm _]. by eexists m, _, _.
    + destruct (level_tables _ level) as [|m ss]; [by injection Hr as <- _|]. eexists m, _, _. split_and!; [left|exact Hr|done].
Qed.

Lemma finish_pick_nonempty vs c n mx c' vs' : finish_pick vs c n mx = Some (c', vs') -> c_targets0 c' <> [].
Proof.
  assert (Hs : forall vs c, SetupOtherInputs vs c = Some (c', vs') -> c_targets0 c' <> []).
  { unfold SetupOtherInputs. intros vs0 c0.
    intros (t0 & _ & ([lo hi] & Hr & (t1 & _ & (t2 & _ & ([a b] & _ & (g & _ & [= <- _])%bind_Some)%bind_Some)%bind_Some)%bind_Some)%bind_Some)%bind_Some.
    cbn. by destruct t0. }
  unfold finish_pick. case_match; [|apply Hs]. intros ([a b] & _ & (o & _ & E)%bind_Some)%bind_Some. by eapply Hs.
Qed.

(** With tables on the level and none of them busy there is something to pick. *)
Lemma pick_nonempty vs level c vs' :
  level_tables (v_ss (current vs)) level <> [] -> PickCompaction lba_size vs level [] = Some (c, vs') -> c_targets0 c <> [].
Proof.
  intros Hne. unfold PickCompaction. destruct (Z.eqb_spec level 0) as [->|Hl].
  - pose proof (pick_l0_spec (vs_ss_manager vs) (level_tables (v_ss (current vs)) 0)) as Hp.
    destruct (pick_l0 _ _) as [[n i] [|]]; cbn [negb]; [|done]. intros (m & _ & Hf)%bind_Some. by eapply finish_pick_nonempty.
  - intros (cp & _ & Hr)%bind_Some. destruct (pick_ln _ _ _ _); [by eapply finish_pick_nonempty|].
    destruct (level_tables _ level) as [|m ss]; [done|]. change (pick_wrapped [] (m :: ss)) with (Some m) in Hr.
    destruct (level =? 1); by eapply finish_pick_nonempty.
Qed.

(** What is known of a compaction that was picked from the version [v]. *)
Record picked_inputs (v : TropoVersion) (kvs : Z -> SSZoneMetaData -> list KV) (level : Z) c : Prop := {
  pi_level : c_first_level c = level;
  pi_inputs : inputs_ok v c;
  pi_leaves : leaves_newer kvs v c;
  pi_distinct0 : NoDup (m_number <$> c_targets0 c);
  pi_distinct1 : NoDup (m_number <$> c_targets1 c);
  pi_order0 : 0 < c_first_level c -> StronglySorted before (c_targets0 c);
  pi_order1 : StronglySorted before (c_targets1 c);
  pi_max : c_max_lba_count c = (max_bytes_sstable_ + lba_size - 1) / lba_size;
  pi_ptrs : c_level_ptrs c = replicate (Z.to_nat level_count) 0%nat
}.

Lemma finish_pick_fields vs m n mx c vs' kvs level :
  version_ok (current vs) kvs -> 0 <= level < level_count - 1 ->
  finish_pick vs (set_targets0 (newCompaction lba_size level) [m]) n mx = Some (c, vs') ->
  StronglySorted before (c_targets1 c) /\ (0 < level -> StronglySorted before (c_targets0 c)) /\ c_first_level c = level /\
  c_max_lba_count c = (max_bytes_sstable_ + lba_size - 1) / lba_size /\
  c_level_ptrs c = replicate (Z.to_nat level_count) 0%nat /\ c_version c = Some (current vs).
Proof.
  intros Hv Hl. unfold finish_pick.
  change (c_first_level (set_version (set_targets0 (newCompaction lba_size level) [m]) (current vs))) with level.
  rewrite <-(current_ref_current vs) in Hv. destruct (Z.eqb_spec level 0) as [->|Hne].
  - intros ([a b] & _ & (o & _ & Hf)%bind_Some)%bind_Some.
    by apply (SetupOtherInputs_fields _ _ _ _ kvs) in Hf as (_ & H1 & H2 & H3 & H4 & H5).
  - intros Hf. apply (SetupOtherInputs_fields _ _ _ _ kvs) in Hf as (H0 & H1 & H2 & H3 & H4 & H5); [|done|done].
    split_and!; try done. intros _. eapply AddBoundaryInputs_sorted; [|repeat constructor|exact H0].
    eapply version_wf; [done|cbn; lia].
Qed.

(** Tables that share a user key touch. *)
Lemma shared_touch m t km kt kv kv' :
  table_ok m km -> table_ok t kt -> kv ∈ km -> kv' ∈ kt -> ukey kv = ukey kv' -> tables_touch t m.
Proof.
  intros Hm Ht Hk Hk' E. destruct (table_bounds m km Hm kv Hk) as [A1%InternalCompare_ukey A2%InternalCompare_ukey].
  destruct (table_bounds t kt Ht kv' Hk') as [B1%InternalCompare_ukey B2%InternalCompare_ukey]. unfold ukey in E. rewrite E in *.
  split; [by trans (ExtractUserKey (fst kv'))|by trans (ExtractUserKey (fst kv'))].
Qed.

(** All tables of level 0 fit into one compaction. *)
Definition l0_fits_compaction vs : Prop :=
  Forall (fun m => 0 <= m_lba_count m) (level_tables (v_ss (current vs)) 0) /\
  total_lbas (level_tables (v_ss (current vs)) 0) <= Z.min (sp_SpaceRemainingLN (vs_ss_manager vs)) max_lbas_compaction_l0.

Lemma picked_inputs_ok vs level busy c vs' kvs :
  version_ok (current vs) kvs -> (forall l, 0 <= l < level_count -> NoDup (m_number <$> level_tables (v_ss (current vs)) l)) ->
  blen (vs_compact_pointer vs) = level_count -> 0 <= level < level_count - 1 -> (level = 0 -> l0_fits_compaction vs) ->
  PickCompaction lba_size vs level busy = Some (c, vs') -> c_targets0 c <> [] -> picked_inputs (current vs) kvs level c.
Proof.
  intros Hv Hnd Hcp Hl Hfit Hp Hne. destruct (PickCompaction_finish _ _ _ _ _ Hp Hne) as (m & n & mx & Hm & Hf & H0).
  destruct (finish_pick_fields _ _ _ _ _ _ kvs level Hv Hl Hf) as (F1 & F2 & F3 & F4 & F5 & _).
  assert (Hd1 : inputs_ok (current vs) c -> NoDup (m_number <$> c_targets1 c)).
  { intros Hin. eapply (sorted_numbers (level_tables (v_ss (current vs)) (level + 1))); [by eapply version_wf; [|lia]|apply Hnd; lia|done|].
    rewrite <-F3. apply Hin. }
  destruct (decide (level = 0)) as [->|Hz].
  - destruct (H0 eq_refl) as [-> ->]. destruct (Hfit eq_refl) as [Hnn Htot].
    pose proof (total_lbas_sublist [] _ ltac:(apply sublist_nil_l) Hnn) as Hpos.
    destruct (finish_pick_l0 vs (newCompaction lba_size 0) m kvs (Z.min (sp_SpaceRemainingLN (vs_ss_manager vs)) max_lbas_compaction_l0) Hv)
      as (c' & vs1 & E & _ & _ & Hin & Hd & Hcl); try done. { unfold max_lbas_compaction_l0 in *. word. }
    rewrite Hf in E. injection E as <- <-. constructor; try done; [|by apply Hd1|rewrite F3; lia].
    intros x t Hx Hxn Ht kv kv' Hk Hk' E. rewrite F3 in *. exfalso. apply Hxn, (Hcl t x Ht Hx).
    eapply (shared_touch x t _ _ kv kv'); [by apply (vo_tables _ _ Hv)|apply (vo_tables _ _ Hv 0); [lia|]|done..].
    rewrite <-F3. by apply Hin.
  - destruct (finish_pick_ln vs (newCompaction lba_size level) m kvs n mx Hv) as (c' & vs1 & E & _ & _ & Hin & Hlv & _); try done; [cbn; lia|].
    rewrite Hf in E. injection E as <- <-. constructor; try done; [|by apply Hd1|by rewrite F3].
    eapply (sorted_numbers (level_tables (v_ss (current vs)) level)); [by eapply version_wf; [|lia]|apply Hnd; lia|apply F2; lia|].
    rewrite <-F3. apply Hin.
Qed.
End Picked.

(** ** References to versions *)

(** The number of references that the list counts for a version. *)
Definition refs_to (v : TropoVersion) (l : list (TropoVersion * Z)) : Z :=
  foldr (fun x n => (if decide (x.1 = v) then x.2 else 0) + n) 0 l.

Definition counted (l : list (TropoVersion * Z)) : Prop := Forall (fun x => 0 < x.2) l.

Lemma refs_to_app v l k : refs_to v (l ++ k) = refs_to v l + refs_to v k.
Proof. unfold refs_to. induction l as [|x l IH]; cbn; [done|]. rewrite IH. lia. Qed.

Lemma refs_to_pos v l : counted l -> 0 <= refs_to v l.
Proof. unfold refs_to. induction 1 as [|x l Hx _ IH]; cbn; [done|]. destruct (decide _); lia. Qed.

Lemma unref_counted v l : counted l -> counted (unref_version v l).
Proof.
  induction 1 as [|[w n] l Hx Hl IH]; cbn; [constructor|]. cbn in Hx.
  destruct (decide _); [|by constructor]. destruct (Z.leb_spec (n - 1) 0); [done|]. constructor; [cbn; lia|done].
Qed.

Lemma unref_refs v l : counted l -> refs_to v l - 1 <= refs_to v (unref_version v l).
Proof.
  unfold refs_to. induction 1 as [|[w n] l Hx Hl IH]; cbn; [lia|]. cbn in *. destruct (decide (w = v)) as [->|Hne].
  - destruct (Z.leb_spec (n - 1) 0); [lia|]. cbn. rewrite decide_True by done. lia.
  - cbn. rewrite decide_False by done. lia.
Qed.

Lemma unref_last v l w n :
  counted (l ++ [(w, n)]) -> (w = v -> 2 <= refs_to v (l ++ [(w, n)])) ->
  exists l' n', unref_version v (l ++ [(w, n)]) = l' ++ [(w, n')].
Proof.
  intros Hc. induction l as [|[a k] l IH]; cbn; intros Hr.
  - destruct (decide (w = v)) as [E|]; [|by exists [], n]. specialize (Hr E). cbn in Hr. exists [], (n - 1).
    by rewrite (proj2 (Z.leb_gt _ _)) by lia.
  - cbn in Hc. apply Forall_cons in Hc as [Hk Hc]. cbn in Hk. destruct (decide (a = v)) as [->|Hne].
    + destruct (k - 1 <=? 0); [by exists l, n|]. by exists ((v, k - 1) :: l), n.
    + destruct (IH Hc) as (l' & n' & ->); [exact Hr|]. by exists ((a, k) :: l'), n'.
Qed.

Section Refs.
Context {M L0 LN : Type}.
Abbreviation VS := (TropoVersionSet M (TropoSSTableManager L0 LN)).
Implicit Types (vs : VS).

(** Beside the reference that the version set has to the current version there are [k] references to [v]. *)
Record refs_held vs (v : TropoVersion) (k : Z) : Prop := {
  rh_current : exists l n, vs_versions vs = l ++ [(current vs, n)];
  rh_counted : counted (vs_versions vs);
  rh_refs : k + (if decide (current vs = v) then 1 else 0) <= refs_to v (vs_versions vs)
}.

Lemma refs_held_ok vs v k : refs_held vs v k -> refs_ok vs.
Proof. intros [(l & n & E) Hc _]. split; [by rewrite E; destruct l|done]. Qed.

Lemma refs_ok_held vs : refs_ok vs <-> refs_held vs (current vs) 0.
Proof.
  split.
  - intros [Hne Hc]. destruct (last (vs_versions vs)) as [[v n]|] eqn:El; [|by apply last_None in El].
    pose proof (last_decompose _ _ El) as Ed. assert (Ec : current vs = v) by (unfold current; by rewrite El).
    constructor; [by rewrite Ec; eexists _, n|done|]. rewrite decide_True by done. rewrite Ed, refs_to_app, Ec. cbn.
    rewrite decide_True by done. rewrite Ed in Hc. apply Forall_app in Hc as [Hc Hn]. apply Forall_cons in Hn as [Hn _]. cbn in Hn.
    pose proof (refs_to_pos v _ Hc). lia.
  - by apply refs_held_ok.
Qed.

Lemma current_of vs l v n : vs_versions vs = l ++ [(v, n)] -> current vs = v.
Proof. intros E. unfold current. by rewrite E, last_snoc. Qed.

Lemma Unref_held vs v k : 0 <= k -> refs_held vs v (k + 1) -> refs_held (Unref vs v) v k /\ current (Unref vs v) = current vs.
Proof.
  intros Hk [(l & n & E) Hc Hr]. destruct (unref_last v l (current vs) n) as (l' & n' & E').
  { by rewrite <-E. }
  { intros Ev. rewrite <-E. rewrite decide_True in Hr by done. lia. }
  rewrite <-E in E'. assert (Ec : current (Unref vs v) = current vs) by (by eapply current_of).
  split; [|done]. constructor; rewrite ?Ec.
  - by exists l', n'.
  - by apply unref_counted.
  - cbn [Unref set_versions vs_versions]. pose proof (unref_refs v _ Hc). lia.
Qed.

Lemma ref_current_held vs v k : refs_held vs v k -> v = current vs -> refs_held (ref_current vs) v (k + 1).
Proof.
  intros [(l & n & E) Hc Hr] ->. rewrite E in Hc, Hr. rewrite decide_True in Hr by done. rewrite refs_to_app in Hr. cbn in Hr.
  rewrite decide_True in Hr by done. apply Forall_app in Hc as [Hc Hn]. apply Forall_cons in Hn as [Hn _]. cbn in Hn.
  assert (Ev : vs_versions (ref_current vs) = l ++ [(current vs, n + 1)]).
  { unfold ref_current. rewrite E, last_snoc. cbn. by rewrite removelast_last. }
  constructor; rewrite ?current_ref_current, Ev.
  - by exists l, (n + 1).
  - apply Forall_app. split; [done|]. constructor; [cbn; lia|constructor].
  - rewrite decide_True, refs_to_app by done. cbn. rewrite decide_True by done. lia.
Qed.

Lemma Append_held vs vs' v k :
  vs_versions vs' = vs_versions (AppendVersion vs (current vs')) -> 0 <= k -> refs_held vs v k -> refs_held vs' v k.
Proof.
  intros E' Hk [(l & n & E) Hc Hr]. unfold AppendVersion in E'. rewrite E, last_snoc, removelast_last in E'. cbn in E'.
  rewrite E in Hc, Hr. apply Forall_app in Hc as [Hc Hn]. apply Forall_cons in Hn as [Hn _]. cbn in Hn.
  rewrite refs_to_app in Hr. cbn in Hr. constructor.
  - by eexists _, 1.
  - rewrite E'. apply Forall_app. split; [|by repeat constructor]. apply Forall_app. split; [done|].
    destruct (Z.eqb_spec (n - 1) 0); repeat constructor. cbn. lia.
  - rewrite E', !refs_to_app. cbn. assert (Hx : refs_to v (if n - 1 =? 0 then [] else [(current vs, n - 1)]) =
      if decide (current vs = v) then n - 1 else 0).
    { destruct (Z.eqb_spec (n - 1) 0); cbn; destruct (decide _); lia. }
    rewrite Hx. destruct (decide (current vs = v)), (decide (current vs' = v)); lia.
Qed.

Lemma refs_held_same vs vs' v k : vs_versions vs' = vs_versions vs -> refs_held vs v k -> refs_held vs' v k.
Proof.
  intros E [H1 H2 H3]. assert (Ec : current vs' = current vs) by (unfold current; by rewrite E).
  constructor; rewrite ?Ec, E; done.
Qed.
End Refs.

(** ** What the version stands for *)

Section Entries.
Context `{UserComparator}.
Implicit Types (v : TropoVersion) (kvs : Z -> SSZoneMetaData -> list KV).

Lemma least_entry (l : list KV) : l <> [] -> exists kv, kv ∈ l /\ forall kv', kv' ∈ l -> kv_le kv kv'.
Proof.
  unfold kv_le. induction l as [|a l IH]; [done|]. intros _. destruct l as [|b l].
  { exists a. split; [left|]. intros kv' ->%list_elem_of_singleton. apply (cle_refl InternalCompare). }
  destruct (IH ltac:(done)) as (x & Hx & Hmin). destruct (decide (clt InternalCompare (fst x) (fst a))) as [Hlt|Hle%(nclt_le InternalCompare)].
  - exists x. split; [by right|]. intros kv' [->|Hk]%elem_of_cons; [by apply (clt_le InternalCompare)|by apply Hmin].
  - exists a. split; [left|]. intros kv' [->|Hk]%elem_of_cons; [apply (cle_refl InternalCompare)|].
    trans (fst x); [exact Hle|by apply Hmin].
Qed.

(** A user key has a newest entry, or it has none. *)
Lemma newest_or_none v kvs u : (exists kv, newest v kvs u kv) \/ (forall kv, entry_in v kvs kv -> ukey kv <> u).
Proof.
  set (all := filter (fun kv => ukey kv = u) (concat ((fun l => concat (kvs l <$> level_tables (v_ss v) l)) <$> seqZ 0 level_count))).
  assert (Hall : forall kv, kv ∈ all <-> entry_in v kvs kv /\ ukey kv = u).
  { intros kv. unfold all. rewrite list_elem_of_filter, list_elem_of_In, in_concat. split.
    - intros [Hu (k & Hk & Hkv)]. split; [|done]. apply list_elem_of_In in Hk. apply list_elem_of_fmap in Hk as (l & -> & Hl%elem_of_seqZ).
      apply list_elem_of_In, concat_fmap_elem in Hkv as (m & Hm & Hkv). exists l, m. split_and!; [lia..|done|done].
    - intros [(l & m & Hl & Hm & Hkv) Hu]. split; [done|]. eexists. split.
      + apply list_elem_of_In, list_elem_of_fmap. exists l. split; [done|]. apply elem_of_seqZ. lia.
      + apply list_elem_of_In, concat_fmap_elem. by exists m. }
  destruct (decide (all = [])) as [E|Hne].
  - right. intros kv He Hu. assert (Hk : kv ∈ all) by (by apply Hall). rewrite E in Hk. by apply not_elem_of_nil in Hk.
  - left. destruct (least_entry all Hne) as (kv & [He Hu]%Hall & Hmin).
    exists kv. split_and!; [exact He|done|]. intros l m kv' Hl Hm Hk Hu'. apply Hmin, Hall. split; [by exists l, m|done].
Qed.

(** Tables that are replaced as a compaction does it, under newer entries in memory. *)
Lemma stands_for_replaced v v' kvs c min_seq new (mem : KV -> Prop) f :
  version_ok v kvs -> inputs_ok v c -> leaves_newer kvs v c -> 0 <= c_first_level c < level_count - 1 ->
  replaces v v' kvs kvs c min_seq new ->
  (forall kv kv', mem kv -> entry_in v kvs kv' -> ukey kv = ukey kv' -> kv_lt kv kv') ->
  stands_for (fun kv => mem kv \/ entry_in v kvs kv) f -> stands_for (fun kv => mem kv \/ entry_in v' kvs kv) f.
Proof.
  intros Hv Hin Hleave Hl Hr Hmem Hf u.
  assert (Hold : forall kv, entry_in v' kvs kv -> entry_in v kvs kv).
  { intros kv (l & m & Hl' & Hm & Hk). eapply replaced_old_entry; [done|done|exact Hr|done..]. }
  assert (Hdec : forall kv, newest v kvs u kv -> (forall k, mem k -> ukey k <> u) ->
    f u = value_of kv /\ (entry_in v' kvs kv \/ (value_of kv = None /\ forall k, entry_in v' kvs k -> ukey k <> u))).
  { intros kv Hn Hno. pose proof Hn as (He & Hu & Hall). split.
    - apply Hf. split_and!; [by right|done|]. intros kv' [Hk|(l & m & ? & ? & ?)] Hu'; [by destruct (Hno kv')|by apply (Hall l m)].
    - rewrite <-Hu in Hn. destruct (replaced_newest _ _ _ _ _ _ _ Hv Hin Hleave Hl Hr kv Hn) as [Hex|[Ha Hnone]]; [by left|right].
      rewrite key_answer_value in Ha. split; [by destruct (value_of kv)|]. intros k (l & m & ? & ? & ?). rewrite <-Hu. by apply (Hnone l m). }
  destruct (Hf u) as [Hf1 Hf2]. split.
  - intros kv ([Hk|Hk] & Hu & Hmin).
    + apply Hf1. split_and!; [by left|done|]. intros kv' [Hk'|Hk'] Hu'; [by apply Hmin; [left|]|].
      apply (clt_le InternalCompare), Hmem; [done|done|congruence].
    + assert (Hno : forall k, mem k -> ukey k <> u).
      { intros k Hm Hku. pose proof (Hmem k kv Hm (Hold _ Hk) ltac:(congruence)) as Hlt.
        by apply (clt_nle InternalCompare) in Hlt; apply Hlt, Hmin; [left|]. }
      destruct (newest_or_none v kvs u) as [[kv0 Hn]|Hnv]; [|by destruct (Hnv kv (Hold _ Hk))].
      destruct (Hdec kv0 Hn Hno) as [_ [Hin0|[_ Hnone]]]; [|by destruct (Hnone kv Hk)]. destruct Hn as (_ & Hu0 & Hall).
      apply Hf1. split_and!; [right; auto|done|]. intros kv' [Hk'|(l & m & ? & ? & ?)] Hu'; [by destruct (Hno kv')|].
      unfold kv_le. trans (fst kv0); [by apply Hmin; [right|]|by apply (Hall l m)].
  - intros Hno. assert (Hnm : forall k, mem k -> ukey k <> u) by (intros k Hk; apply Hno; by left).
    destruct (newest_or_none v kvs u) as [[kv0 Hn]|Hnv]; [|by apply Hf2; intros kv [?|?]; auto].
    destruct (Hdec kv0 Hn Hnm) as [-> [Hin0|[Hnone _]]]; [|done]. destruct Hn as (_ & Hu0 & _). by destruct (Hno kv0 (or_intror Hin0)).
Qed.
End Entries.

(** ** The tables while a compaction runs *)

Section Store.
Context `{UserComparator} {M WLog L0 LN C Rep : Type}.
Context `{!ManifestOps M} `{!OnceLog WLog} `{!CircularLog L0} `{!FragmentedLog LN} `{!Cache C} `{!MemTableRep Rep}.
Context (name : bytes) (lba_size zone_cap : Z) (fresh : SSZoneMetaData) (mem_at : Z -> bytes) (NDEBUG : bool).
Context (rest : Handler (inserter (Rep := Rep))).
Context (usage : MemTable (Rep := Rep) -> Z) (max_write_buffer_size_ : Z) (status : EntryStatus).
Context `{!CacheLaws C} `{!MemTableRepLaws Rep} (l0_min l0_max ln_min ln_max : Z).
Context `{!CircularLogLaws L0 lba_size (l0_min * zone_cap) (l0_max * zone_cap)}.
Context `{!FragmentedLogLaws LN (zone_cap * lba_size) ln_min ln_max}.
Context (HL : 0 < lba_size) (Hzc : 0 < zone_cap) (Hl0 : 0 <= l0_min <= l0_max) (Hln : 0 <= ln_min <= ln_max).
Context (Hbig0 : l0_max * zone_cap * lba_size < 2 ^ 60) (Hbig : ln_max * zone_cap * lba_size < 2 ^ 60).
Context (H8 : length (m_LN_lbas fresh) = 8%nat) (H8' : length (m_LN_lba_region_sizes fresh) = 8%nat).

Abbreviation Manager := (TropoSSTableManager L0 LN).
Abbreviation VS := (TropoVersionSet M Manager).
Abbreviation TC := (TropoTableCache C Manager).
Abbreviation DB := (TropoDBImpl WLog Rep VS TC).
Abbreviation Stripe := (stripe WLog Rep).
Abbreviation store := (ln_store lba_size zone_cap ln_min ln_max).
Abbreviation stored := (SSZoneMetaData * regions * bytes)%type.
Abbreviation tables_ok := (tables_inv lba_size zone_cap l0_min l0_max ln_min ln_max).
Implicit Types (db : DB) (st : Stripe) (vs : VS) (c : TropoCompaction) (contents : Z -> list KV) (sts : list stored).

(** The tables of the upper levels are among those in the log. *)
Record upper_inv contents vs sts : Prop := {
  ui_store : store (mg_ln (vs_ss_manager vs)) sts;
  ui_tables : forall l m, 1 <= l < level_count -> m ∈ level_tables (v_ss (current vs)) l ->
    in_store zone_cap sts m (contents (m_number m))
}.

(** A compaction that has run and waits to be installed: the inputs are in the current
    version, and the new tables [news] with the numbers from [first] on hold what is
    left of their entries. *)
Record compaction_ran contents vs c (v : TropoVersion) (e : TropoVersionEdit) sts (news : list SSZoneMetaData) (first min_seq : Z) : Prop := {
  cr_level : 0 <= c_first_level c < level_count - 1;
  cr_version : c_version c = Some v;
  cr_refs : refs_held vs v 2;
  cr_moves : edit_moves c e news;
  cr_inputs : inputs_ok (current vs) c;
  cr_leaves : leaves_newer (by_number contents) (current vs) c;
  cr_first : 0 <= first;
  cr_below : first + blen news <= vs_ss_number vs;
  cr_u64 : first + blen news < 2 ^ 64;
  cr_others : forall l m, 0 <= l < level_count -> m ∈ level_tables (v_ss (current vs)) l ->
    m_number m < first \/ first + blen news <= m_number m;
  cr_numbers : m_number <$> news = seqZ first (blen news);
  cr_tables : forall m, m ∈ news -> table_ok m (contents (m_number m)) /\ in_store zone_cap sts m (contents (m_number m));
  cr_sorted : StronglySorted before news;
  cr_keys : forall n, n ∈ news -> cle InternalCompare (m_smallest n) (m_largest n) /\
    exists a b, input (by_number contents) c a /\ input (by_number contents) c b /\ m_smallest n = fst a /\ m_largest n = fst b;
  cr_only : forall m kv, m ∈ news -> kv ∈ contents (m_number m) -> input (by_number contents) c kv;
  cr_kept : forall kv, newest_input (by_number contents) c kv ->
    (exists m, m ∈ news /\ kv ∈ contents (m_number m)) \/
    (survives (c_first_level c) min_seq (current vs) kv = false /\ forall m kv', m ∈ news -> kv' ∈ contents (m_number m) -> ukey kv' <> ukey kv)
}.

Lemma news_number contents vs c v e sts news first min_seq m :
  compaction_ran contents vs c v e sts news first min_seq -> m ∈ news -> first <= m_number m < first + blen news.
Proof.
  intros Hr Hm. assert (Hn : m_number m ∈ seqZ first (blen news)) by (rewrite <-(cr_numbers _ _ _ _ _ _ _ _ _ Hr); by apply list_elem_of_fmap_2).
  apply elem_of_seqZ in Hn. lia.
Qed.

(** The inputs of a compaction have the same entries when their tables have. *)
Lemma input_ext (kvs kvs' : Z -> SSZoneMetaData -> list KV) c kv :
  (forall l m, target c l m -> kvs' l m = kvs l m) -> input kvs c kv <-> input kvs' c kv.
Proof. intros Hk. split; intros (l & m & Ht & Hkv); exists l, m; (split; [done|]); [rewrite Hk|rewrite <-Hk]; done. Qed.

(** The levels above 0 decide which deletions survive. *)
Lemma survives_upper lvl min_seq v v' kv :
  0 <= lvl -> (forall l, 1 <= l < level_count -> level_tables (v_ss v') l = level_tables (v_ss v) l) ->
  survives lvl min_seq v' kv = survives lvl min_seq v kv.
Proof.
  intros Hl Hup. unfold survives. destruct (ParseInternalKey (fst kv)) as [p|]; [|done]. do 2 f_equal.
  unfold base_level. apply eq_true_iff_eq. rewrite !forallb_forall.
  assert (Hlv : forall l, In l (lower_levels lvl) -> level_tables (v_ss v') l = level_tables (v_ss v) l).
  { intros l Hin%list_elem_of_In%elem_of_seqZ. apply Hup. lia. }
  split; intros Ha l Hin; specialize (Ha l Hin); rewrite (Hlv l Hin) in *; done.
Qed.

(** A step of the rest of the store: flushes add tables to level 0. *)
Lemma grows_upper contents vs contents' vs' tc sts :
  tables_ok contents vs tc -> grows contents vs contents' vs' -> upper_inv contents vs sts -> upper_inv contents' vs' sts.
Proof.
  intros Ht Hg [Hs Hu]. constructor; [by rewrite (gr_ln _ _ _ _ Hg)|]. intros l m Hl Hm. rewrite (gr_upper _ _ _ _ Hg) in Hm by done.
  rewrite (gr_contents _ _ _ _ Hg); [by eapply Hu|]. eapply (ti_below _ _ _ _ _ _ _ _ _ Ht); [|exact Hm]. lia.
Qed.

Lemma grows_refs contents vs contents' vs' v k : 0 <= k -> grows contents vs contents' vs' -> refs_held vs v k -> refs_held vs' v k.
Proof.
  intros Hk Hg. destruct (gr_versions _ _ _ _ Hg) as [E|E]; [by apply refs_held_same|by apply Append_held].
Qed.

Lemma grows_inputs contents vs contents' vs' tc c :
  tables_ok contents vs tc -> grows contents vs contents' vs' -> 0 <= c_first_level c < level_count - 1 ->
  inputs_ok (current vs) c -> leaves_newer (by_number contents) (current vs) c ->
  inputs_ok (current vs') c /\ leaves_newer (by_number contents') (current vs') c /\
  forall l m, target c l m -> by_number contents' l m = by_number contents l m.
Proof.
  intros Ht Hg Hl Hin Hleave.
  assert (Htar : forall l m, target c l m -> 0 <= l < level_count /\ m ∈ level_tables (v_ss (current vs)) l).
  { intros l m Htg. destruct (target_table _ _ Hin Hl l m Htg) as (? & _ & ?). done. }
  assert (Hsame : forall l m, 0 <= l < level_count -> m ∈ level_tables (v_ss (current vs)) l -> by_number contents' l m = by_number contents l m).
  { intros l m Hl' Hm. apply (gr_contents _ _ _ _ Hg). by eapply (ti_below _ _ _ _ _ _ _ _ _ Ht). }
  split_and!.
  - destruct Hin as [I0 I1 I2 I3]. constructor.
    + intros m Hm%I0. destruct (decide (c_first_level c = 0)) as [E|]; [rewrite E in *; by apply (gr_l0 _ _ _ _ Hg)|].
      rewrite (gr_upper _ _ _ _ Hg) by lia. done.
    + rewrite (gr_upper _ _ _ _ Hg) by lia. done.
    + rewrite (gr_upper _ _ _ _ Hg) by lia. done.
    + intros Hlt. rewrite (gr_upper _ _ _ _ Hg) by lia. by apply I3.
  - intros m t Hm Hn Hti. assert (Htg : target c (c_first_level c) t) by (by left). destruct (Htar _ _ Htg) as [_ Htv].
    rewrite (Hsame _ t) by (done || lia). destruct (decide (m ∈ level_tables (v_ss (current vs)) (c_first_level c))) as [Hold|Hnew].
    + rewrite (Hsame _ m) by (done || lia). by apply Hleave.
    + destruct (decide (c_first_level c = 0)) as [E|]; [|by rewrite (gr_upper _ _ _ _ Hg) in Hm by lia].
      rewrite E in *. destruct (gr_new _ _ _ _ Hg m Hm) as [?|[_ Hnewer]]; [done|]. intros kv kv' Hk Hk' Hu.
      apply Hnewer; [done| |done]. exists 0, t. split_and!; [lia..|done|done].
  - intros l m Htg. destruct (Htar _ _ Htg). by apply Hsame.
Qed.

Lemma grows_ran contents vs contents' vs' tc c v e sts news first min_seq :
  tables_ok contents vs tc -> grows contents vs contents' vs' ->
  compaction_ran contents vs c v e sts news first min_seq -> compaction_ran contents' vs' c v e sts news first min_seq.
Proof.
  intros Ht Hg Hr. pose proof Hr as [Hl Hv Hrefs Hmv Hin Hleave Hf Hb Hu Ho Hn Htab Hs Hk Hon Hkept].
  destruct (grows_inputs _ _ _ _ _ _ Ht Hg Hl Hin Hleave) as (Hin' & Hleave' & Htar).
  assert (Hnew : forall m, m ∈ news -> contents' (m_number m) = contents (m_number m)).
  { intros m Hm. apply (gr_contents _ _ _ _ Hg). pose proof (news_number _ _ _ _ _ _ _ _ _ _ Hr Hm). lia. }
  assert (Hinp : forall kv, input (by_number contents) c kv <-> input (by_number contents') c kv) by (intros kv; by apply input_ext).
  pose proof (gr_number _ _ _ _ Hg). constructor; try done; try lia.
  - by eapply grows_refs.
  - intros l m Hl' Hm. destruct (decide (l = 0)) as [->|Hne]; [|rewrite (gr_upper _ _ _ _ Hg) in Hm by lia; by eapply Ho].
    destruct (gr_new _ _ _ _ Hg m Hm) as [Hold|[Hnum _]]; [by eapply Ho|right; lia].
  - intros m Hm. rewrite Hnew by done. by apply Htab.
  - intros n Hnn. destruct (Hk n Hnn) as (? & a & b & Ha & Hb' & ?). split; [done|]. exists a, b. by rewrite <-!Hinp.
  - intros m kv Hm. rewrite Hnew by done. rewrite <-Hinp. by apply Hon.
  - intros kv [Hi Hmin]. destruct (Hkept kv) as [(m & Hm & Hkm)|[Hsv Hnone]].
    + split; [by apply Hinp|]. intros kv' Hk'. by apply Hmin, Hinp.
    + left. exists m. by rewrite Hnew.
    + right. split; [rewrite <-Hsv; apply survives_upper; [lia|by apply Hg]|]. intros m kv' Hm. rewrite Hnew by done. by apply Hnone.
Qed.

(** ** Picking and running *)

Context (HL16 : 16 <= lba_size <= 2 ^ 24).
#[local] Instance space_of : SSTableSpace Manager := manager_space lba_size zone_cap.

(** The entry fits into a table of the upper levels. *)
Definition entry_small (kv : KV) : Prop := small_kv kv /\ EstimateSizeImpact (fst kv) (snd kv) <= max_bytes_sstable_ - lba_size.
Definition contents_small contents : Prop := forall n kv, kv ∈ contents n -> entry_small kv.

Lemma entry_small_fits c kv :
  c_max_lba_count c = (max_bytes_sstable_ + lba_size - 1) / lba_size -> entry_small kv -> fits lba_size c kv.
Proof.
  intros Em [Hs He]. split; [done|]. rewrite Em. replace (max_bytes_sstable_ + lba_size - 1) with (max_bytes_sstable_ - 1 + 1 * lba_size) by lia.
  rewrite Z.div_add by lia. assert ((EstimateSizeImpact kv.1 kv.2 + lba_size - 1) / lba_size <= (max_bytes_sstable_ - 1) / lba_size); [|lia].
  apply Z.div_le_mono; lia.
Qed.

(** What the fields of the program guarantee: the widths of the metadata, and counters far from their end. *)
Record counters_ok vs : Prop := {
  co_metas : forall l m, 0 <= l < level_count -> m ∈ level_tables (v_ss (current vs)) l -> meta_ok m;
  co_sequence : vs_last_sequence vs < kMaxSequenceNumber;
  co_number : vs_ss_number vs < 2 ^ 30
}.

Lemma numbers_bound (ms : list SSZoneMetaData) N :
  NoDup (m_number <$> ms) -> (forall m, m ∈ ms -> 0 <= m_number m < N) -> 0 <= N -> blen ms <= N.
Proof.
  intros Hnd Hb HN. assert (Hs : m_number <$> ms ⊆+ seqZ 0 N).
  { apply NoDup_submseteq; [done|]. intros n (m & -> & Hm)%list_elem_of_fmap. apply elem_of_seqZ. specialize (Hb m Hm). lia. }
  apply submseteq_length in Hs. rewrite length_fmap, length_seqZ in Hs. unfold blen. lia.
Qed.

Lemma blen_concat_bound (ls : list (list KV)) B : Forall (fun l => blen l <= B) ls -> blen (concat ls) <= blen ls * B.
Proof. induction 1 as [|l ls Hl _ IH]; cbn; [by rewrite blen_nil|]. rewrite blen_app, blen_cons. lia. Qed.

Lemma targets_bound contents vs tc l (ms : list SSZoneMetaData) :
  tables_ok contents vs tc -> counters_ok vs -> 0 <= l < level_count -> ms ⊆ level_tables (v_ss (current vs)) l -> NoDup (m_number <$> ms) ->
  blen (concat (by_number contents l <$> ms)) <= 2 ^ 30 * 2 ^ 32.
Proof.
  intros Ht Hc Hl Hsub Hnd. assert (Hn : blen ms <= 2 ^ 30).
  { apply numbers_bound; [done| |done]. intros m Hm%Hsub. pose proof (ti_below _ _ _ _ _ _ _ _ _ Ht l m Hl Hm).
    pose proof (co_number _ Hc). destruct (ti_tables _ _ _ _ _ _ _ _ _ Ht l m Hl Hm) as (_ & Hu & _). word. }
  pose proof (blen_concat_bound (by_number contents l <$> ms) (2 ^ 32)) as Hb.
  assert (Hf : Forall (fun l => blen l <= 2 ^ 32) (by_number contents l <$> ms)).
  { apply Forall_fmap, Forall_forall. intros m Hm%Hsub. cbn.
    destruct (ti_tables _ _ _ _ _ _ _ _ _ Ht l m Hl Hm) as (_ & _ & (_ & (_ & _ & ?) & _) & _). unfold by_number. lia. }
  specialize (Hb Hf). unfold blen in Hb at 2. rewrite length_fmap in Hb. fold (blen ms) in Hb. nia.
Qed.

(** The version set after a pick and with the reference of the thread. *)
Lemma picked_state vs c vs1 : picked vs c vs1 ->
  current (ref_current vs1) = current vs /\ vs_last_sequence (ref_current vs1) = vs_last_sequence vs /\
  vs_ss_number (ref_current vs1) = vs_ss_number vs /\ vs_ss_number_l0 (ref_current vs1) = vs_ss_number_l0 vs /\
  vs_ss_manager (ref_current vs1) = vs_ss_manager vs /\ blen (vs_compact_pointer (ref_current vs1)) = blen (vs_compact_pointer vs).
Proof.
  intros [P1 P2 P3 P4 P5 P6 P7 P8]. destruct (ref_current_fields vs1) as (F1 & F2 & F3 & F4 & F5 & F6 & F7).
  rewrite current_ref_current, F2, F3, F4, F6, F7. split_and!; try congruence; [|unfold blen; by rewrite P7].
  destruct P8 as [[E _]|[E _]]; [unfold current; by rewrite E|]. rewrite <-(current_ref_current vs). unfold current. by rewrite E.
Qed.

Lemma picked_ready contents vs tc sts level busy c vs1 :
  tables_ok contents vs tc -> upper_inv contents vs sts -> contents_small contents -> counters_ok vs ->
  0 <= level < level_count - 1 -> (level = 0 -> l0_fits_compaction vs) ->
  PickCompaction lba_size vs level busy = Some (c, vs1) -> c_targets0 c <> [] ->
  ready lba_size zone_cap l0_min l0_max ln_min ln_max (ref_current vs1) c (by_number contents) sts.
Proof.
  intros Ht Hup Hsm Hco Hl Hfit Hp Hne.
  destruct (picked_inputs_ok _ _ _ _ _ _ _ (ti_version _ _ _ _ _ _ _ _ _ Ht) (ti_numbers _ _ _ _ _ _ _ _ _ Ht)
    (ti_pointers _ _ _ _ _ _ _ _ _ Ht) Hl Hfit Hp Hne) as [Elv Hin Hleave Hd0 Hd1 Ho0 Ho1 Hmax Hptrs].
  apply PickCompaction_frame in Hp. destruct (picked_state _ _ _ Hp) as (Ec & Eseq & En & En0 & Emg & _).
  assert (Hdev : forall l m, 0 <= l < level_count -> m ∈ level_tables (v_ss (current vs)) l ->
    on_device lba_size zone_cap l0_min l0_max ln_min ln_max (vs_ss_manager vs) l m (by_number contents l m)).
  { intros l m Hl' Hm. destruct (ti_tables _ _ _ _ _ _ _ _ _ Ht l m Hl' Hm) as (_ & _ & (? & ? & _) & _ & Hpad).
    rewrite (ti_manager _ _ _ _ _ _ _ _ _ Ht) in Hpad. by split_and!. }
  constructor; rewrite ?Ec, ?Eseq, ?En, ?Emg; try done.
  - constructor; [apply Ht|done|done|by rewrite Elv|apply Ht|apply Ht|apply Ht].
  - rewrite <-(ti_manager _ _ _ _ _ _ _ _ _ Ht). apply (ti_cache _ _ _ _ _ _ _ _ _ Ht).
  - apply Hup.
  - apply Hco.
  - intros m Hm. by apply Hdev.
  - intros l m Hl' Hm. by eapply ui_tables.
  - intros kv (l & m & _ & Hkv). apply entry_small_fits; [done|]. by eapply Hsm.
  - rewrite Hmax. split; [apply Z.div_str_pos; unfold max_bytes_sstable_; lia|].
    pose proof (Z.mul_div_le (max_bytes_sstable_ + lba_size - 1) lba_size ltac:(lia)). unfold max_bytes_sstable_ in *. lia.
  - apply Hco.
  - rewrite inputs_concat. unfold entries0, entries1. rewrite blen_app.
    pose proof (targets_bound _ _ _ (c_first_level c) (c_targets0 c) Ht Hco ltac:(lia) (io_targets0 _ _ Hin) Hd0).
    pose proof (targets_bound _ _ _ (c_first_level c + 1) (c_targets1 c) Ht Hco ltac:(lia) (io_targets1 _ _ Hin) Hd1).
    pose proof (co_number _ Hco). lia.
Qed.

Lemma version_ok_ext v (kvs kvs' : Z -> SSZoneMetaData -> list KV) :
  (forall l m, 0 <= l < level_count -> m ∈ level_tables (v_ss v) l -> kvs' l m = kvs l m) -> version_ok v kvs -> version_ok v kvs'.
Proof.
  intros Hk [V1 V2 V3 V4 V5]. constructor; [|done| |done|].
  - intros l m Hl Hm. rewrite Hk by done. by apply V1.
  - intros m m' Hm Hm'. rewrite !Hk by done. by apply V3.
  - intros l l' m m' Hl Hl' Hm Hm'. rewrite !Hk by (done || lia). by apply V5.
Qed.

Lemma entry_in_ext v (kvs kvs' : Z -> SSZoneMetaData -> list KV) kv :
  (forall l m, 0 <= l < level_count -> m ∈ level_tables (v_ss v) l -> kvs' l m = kvs l m) -> entry_in v kvs' kv <-> entry_in v kvs kv.
Proof. intros Hk. split; intros (l & m & Hl & Hm & Hkv); exists l, m; (split_and!; [lia..|done|]); [rewrite <-Hk|rewrite Hk]; done. Qed.

Context (Hplaced : placed (LN := LN) zone_cap fresh).
Abbreviation outcome_of := (outcome lba_size zone_cap l0_min l0_max ln_min ln_max).
Abbreviation ran_to := (ran lba_size zone_cap l0_min l0_max ln_min ln_max).

(** The tables of the version are still stored after the run. *)
Lemma ran_device contents vs tc sts vs2 vs3 news tables sts' l m :
  tables_ok contents vs tc -> upper_inv contents vs sts -> vs_ss_manager vs2 = vs_ss_manager vs -> sts ⊆ sts' ->
  store (mg_ln (vs_ss_manager vs3)) sts' -> ran_to vs2 vs3 sts news tables ->
  0 <= l < level_count -> m ∈ level_tables (v_ss (current vs)) l ->
  exists pad, mg_table lba_size zone_cap l0_min l0_max ln_min ln_max (vs_ss_manager vs3) l m (table_image (contents (m_number m)) ++ pad).
Proof.
  intros Ht Hup Emg Hsub Hst Hran Hl Hm. destruct (ti_tables _ _ _ _ _ _ _ _ _ Ht l m Hl Hm) as (_ & _ & _ & _ & pad & Hmg).
  rewrite (ti_manager _ _ _ _ _ _ _ _ _ Ht) in Hmg. destruct (decide (l = 0)) as [->|Hne].
  - exists pad. unfold mg_table in *. cbn [Z.eqb] in *. by rewrite (rn_l0 _ _ _ _ _ _ _ _ _ _ _ Hran), Emg.
  - assert (Hin : in_store zone_cap sts' m (contents (m_number m))).
    { eapply in_store_mono; [exact Hsub|]. apply (ui_tables _ _ _ Hup l); [lia|exact Hm]. }
    assert (Hd : on_device lba_size zone_cap l0_min l0_max ln_min ln_max (vs_ss_manager vs3) l m (contents (m_number m))).
    { eapply store_device; [exact H8|exact H8'| |exact Hst|exact Hin]. lia. }
    by destruct Hd as (_ & _ & ?).
Qed.

Lemma ran_tables contents vs tc sts vs2 vs3 news tables :
  tables_ok contents vs tc -> upper_inv contents vs sts ->
  current vs2 = current vs -> vs_last_sequence vs2 = vs_last_sequence vs -> vs_ss_number vs2 = vs_ss_number vs ->
  vs_ss_number_l0 vs2 = vs_ss_number_l0 vs -> vs_ss_manager vs2 = vs_ss_manager vs -> blen (vs_compact_pointer vs2) = level_count ->
  ran_to vs2 vs3 sts news tables ->
  let tc' := mkTableCache (tcs_cache tc) (tcs_heap tc) (tcs_next tc) (vs_ss_manager vs3) in
  tables_ok (flushed contents (vs_ss_number vs) tables) vs3 tc'.
Proof.
  intros Ht Hup Ec Eseq En En0 Emg Ecp Hran. cbv zeta. pose proof Hran as [Rv (R1 & R2 & R3) Rwf Rl0 Rn _ (sts' & Hst & Hsub & _)].
  assert (Ec3 : current vs3 = current vs) by (rewrite <-Ec; unfold current; by rewrite Rv).
  assert (Hold : forall l m, 0 <= l < level_count -> m ∈ level_tables (v_ss (current vs)) l ->
    flushed contents (vs_ss_number vs) tables (m_number m) = contents (m_number m)).
  { intros l m Hl Hm. pose proof (ti_below _ _ _ _ _ _ _ _ _ Ht l m Hl Hm). unfold flushed. by rewrite (proj2 (Z.leb_gt _ _)) by lia. }
  pose proof (blen_nonneg tables) as Hpos. pose proof (ti_counters _ _ _ _ _ _ _ _ _ Ht) as [Hc1 Hc2].
  constructor; rewrite ?Ec3.
  - eapply version_ok_ext; [|apply Ht]. intros l m Hl Hm. by apply (Hold l).
  - apply Ht.
  - intros l m Hl Hm. pose proof (ti_below _ _ _ _ _ _ _ _ _ Ht l m Hl Hm). lia.
  - intros m Hm. rewrite R3, En0. by apply Ht.
  - intros n Hn. unfold flushed. rewrite (proj2 (Z.leb_le _ _)) by lia. rewrite lookup_ge_None_2; [done|]. unfold blen in *. lia.
  - lia.
  - intros l m Hl Hm. rewrite (Hold l) by done. destruct (ti_tables _ _ _ _ _ _ _ _ _ Ht l m Hl Hm) as (_ & Hu & Hr & Hlev & _).
    split_and!; [by rewrite (Hold l)|done|done|done|]. by eapply ran_device.
  - destruct (flushed_cache _ _ _ _ _ _ _ _ _ tables Ht) as [_ F2 F3 F4]. by constructor.
  - done.
  - by rewrite R2, Ecp.
Qed.

(** The entries of the new tables. *)
Lemma outcome_contents contents v c min_seq first mg e news tables m t i :
  outcome_of v (by_number contents) c min_seq first mg e news tables -> news !! i = Some m -> tables !! i = Some t ->
  m_number m = first + Z.of_nat i /\ flushed contents first tables (m_number m) = t.
Proof.
  intros Hoc Hm Ht. assert (En : m_number m = first + Z.of_nat i).
  { assert (Hl : (m_number <$> news) !! i = Some (m_number m)) by (by rewrite list_lookup_fmap, Hm).
    rewrite (oc_numbers _ _ _ _ _ _ _ _ _ _ _ _ _ _ _ Hoc) in Hl. by apply lookup_seqZ in Hl as [-> _]. }
  split; [done|]. unfold flushed. rewrite En, (proj2 (Z.leb_le _ _)) by lia. rewrite Z.add_simpl_l, Nat2Z.id. by rewrite Ht.
Qed.

Lemma outcome_elem contents v c min_seq first mg e news tables m :
  outcome_of v (by_number contents) c min_seq first mg e news tables -> m ∈ news ->
  exists i t, news !! i = Some m /\ tables !! i = Some t /\ flushed contents first tables (m_number m) = t /\ table_ok m t.
Proof.
  intros Hoc [i Hi]%list_elem_of_lookup.
  destruct (Forall2_lookup_l _ _ _ _ _ (oc_tables _ _ _ _ _ _ _ _ _ _ _ _ _ _ _ Hoc) Hi) as (t & Ht & Hok & _).
  exists i, t. split_and!; [done|done|by eapply outcome_contents|done].
Qed.

Lemma outcome_entry contents v c min_seq first mg e news tables kv :
  outcome_of v (by_number contents) c min_seq first mg e news tables ->
  kv ∈ concat tables <-> exists m, m ∈ news /\ kv ∈ flushed contents first tables (m_number m).
Proof.
  intros Hoc. rewrite list_elem_of_In, in_concat. split.
  - intros (t & [i Hi]%list_elem_of_In%list_elem_of_lookup & Hk%list_elem_of_In).
    destruct (Forall2_lookup_r _ _ _ _ _ (oc_tables _ _ _ _ _ _ _ _ _ _ _ _ _ _ _ Hoc) Hi) as (m & Hm & _).
    exists m. split; [by eapply list_elem_of_lookup_2|]. by rewrite (proj2 (outcome_contents _ _ _ _ _ _ _ _ _ _ _ _ Hoc Hm Hi)).
  - intros (m & Hm & Hk). destruct (outcome_elem _ _ _ _ _ _ _ _ _ _ Hoc Hm) as (i & t & _ & Ht & E & _).
    exists t. rewrite E in Hk. split; apply list_elem_of_In; [by eapply list_elem_of_lookup_2|done].
Qed.

Lemma outcome_ran contents vs tc sts c vs2 vs3 e news tables :
  tables_ok contents vs tc -> upper_inv contents vs sts -> counters_ok vs ->
  allowed (current vs) (by_number contents) c (vs_ss_number vs) ->
  c_version c = Some (current vs) -> refs_held vs2 (current vs) 2 ->
  current vs2 = current vs -> vs_ss_number vs2 = vs_ss_number vs ->
  vs_ss_number vs + blen tables < 2 ^ 64 -> ran_to vs2 vs3 sts news tables ->
  outcome_of (current vs) (by_number contents) c (vs_last_sequence vs) (vs_ss_number vs) (vs_ss_manager vs3) e news tables ->
  let contents' := flushed contents (vs_ss_number vs) tables in
  exists sts', upper_inv contents' vs3 sts' /\
    compaction_ran contents' vs3 c (current vs) e sts' news (vs_ss_number vs) (vs_last_sequence vs).
Proof.
  intros Ht Hup Hco Hal Hcv Hrefs Ec En H64 Hran Hoc. cbv zeta. pose proof Hran as [Rv _ Rwf Rl0 Rn _ (sts' & Hst & Hsub & Hnew)].
  set (contents' := flushed contents (vs_ss_number vs) tables).
  assert (Ec3 : current vs3 = current vs) by (rewrite <-Ec; unfold current; by rewrite Rv).
  assert (Hold : forall l m, 0 <= l < level_count -> m ∈ level_tables (v_ss (current vs)) l -> by_number contents' l m = by_number contents l m).
  { intros l m Hl Hm. pose proof (ti_below _ _ _ _ _ _ _ _ _ Ht l m Hl Hm). unfold by_number, contents', flushed.
    by rewrite (proj2 (Z.leb_gt _ _)) by lia. }
  pose proof Hal as [_ Hin Hleave Hl _ _ _].
  assert (Htar : forall l m, target c l m -> by_number contents' l m = by_number contents l m).
  { intros l m Htg. destruct (target_table _ _ Hin Hl l m Htg) as (? & _ & ?). by apply Hold. }
  assert (Hinp : forall kv, input (by_number contents) c kv <-> input (by_number contents') c kv) by (intros kv; by apply input_ext).
  assert (Hlen : blen news = blen tables) by (unfold blen; by rewrite (Forall2_length _ _ _ Hnew)).
  exists sts'. split.
  { constructor; [done|]. rewrite Ec3. intros l m Hl' Hm. specialize (Hold l m ltac:(lia) Hm). unfold by_number in Hold. rewrite Hold.
    eapply in_store_mono; [exact Hsub|]. by apply (ui_tables _ _ _ Hup l). }
  constructor; rewrite ?Ec3, ?Hlen; try done.
  - by apply (refs_held_same vs2).
  - apply Hoc.
  - intros m t Hm Hn Htt. rewrite !Hold; [by apply Hleave|lia|by apply Hin|lia|done].
  - apply Ht.
  - rewrite Rn, En. lia.
  - intros l m Hl' Hm. left. by eapply (ti_below _ _ _ _ _ _ _ _ _ Ht).
  - rewrite <-Hlen. apply Hoc.
  - intros m Hm. destruct (outcome_elem _ _ _ _ _ _ _ _ _ _ Hoc Hm) as (i & t & Hi & Hti & E & Hok).
    unfold contents'. rewrite E. split; [done|]. by apply (Forall2_lookup_lr _ _ _ _ _ _ Hnew Hi Hti).
  - by eapply news_sorted.
  - intros n Hn. destruct (news_keys _ _ _ _ _ _ _ _ _ _ _ _ _ _ _ Hoc n Hn) as (? & a & b & Ha & Hb & ?).
    split; [done|]. exists a, b. by rewrite <-!Hinp.
  - intros m kv Hm Hk. apply Hinp, (oc_inputs _ _ _ _ _ _ _ _ _ _ _ _ _ _ _ Hoc). apply (outcome_entry _ _ _ _ _ _ _ _ _ _ Hoc). by exists m.
  - intros kv [Hi Hmin]. destruct (oc_kept _ _ _ _ _ _ _ _ _ _ _ _ _ _ _ Hoc kv) as [Hk|[Hsv Hnone]].
    + split; [by apply Hinp|]. intros kv' Hk'. by apply Hmin, Hinp.
    + left. by apply (outcome_entry _ _ _ _ _ _ _ _ _ _ Hoc).
    + right. split; [done|]. intros m kv' Hm Hk'. apply Hnone, (outcome_entry _ _ _ _ _ _ _ _ _ _ Hoc). by exists m.
Qed.

(** ** Installing *)

(** Giving back the references leaves the version set as it is. *)
Lemma release_same contents vs c v e sts news first min_seq :
  compaction_ran contents vs c v e sts news first min_seq ->
  let vs1 := Unref (delete_compaction vs c) v in
  refs_held vs1 v 0 /\ current vs1 = current vs /\ vs_last_sequence vs1 = vs_last_sequence vs /\ vs_ss_number vs1 = vs_ss_number vs /\
  vs_ss_number_l0 vs1 = vs_ss_number_l0 vs /\ vs_ss_manager vs1 = vs_ss_manager vs /\ vs_compact_pointer vs1 = vs_compact_pointer vs.
Proof.
  intros Hr. cbv zeta. unfold delete_compaction. rewrite (cr_version _ _ _ _ _ _ _ _ _ Hr).
  destruct (Unref_held vs v 1 ltac:(lia) (cr_refs _ _ _ _ _ _ _ _ _ Hr)) as [H1 E1].
  destruct (Unref_held (Unref vs v) v 0 ltac:(lia) H1) as [H2 E2]. split_and!; try done. congruence.
Qed.

(** The version that the edit gives. *)
Lemma ran_installed contents vs tc c v e sts news first min_seq q cp :
  tables_ok contents vs tc -> compaction_ran contents vs c v e sts news first min_seq -> blen cp = level_count ->
  exists v' cp', apply_edit (current vs) cp (SetLastSequence e q) = Some (v', cp') /\ blen cp' = level_count /\
    version_ok v' (by_number contents) /\ (forall l, 0 <= l < level_count -> NoDup (m_number <$> level_tables (v_ss v') l)) /\
    (forall l m, 0 <= l < level_count ->
       m ∈ level_tables (v_ss v') l <-> (l = c_first_level c + 1 /\ m ∈ news) \/ stays (current vs) c l m) /\
    replaces (current vs) v' (by_number contents) (by_number contents) c min_seq (fun m => m ∈ news).
Proof.
  intros Ht Hr Hcp. pose proof Hr as [Hl _ _ Hmv Hin Hleave Hf Hb Hu Ho Hn Htab Hs Hk Hon Hkept].
  assert (Hmv' : edit_moves c (SetLastSequence e q) news) by (destruct Hmv as [[? [? [? ?]]] ? ?]; by constructor).
  assert (Hnum : numbers_ok (current vs) news).
  { constructor; [apply Ht|rewrite Hn; apply NoDup_seqZ|]. intros l m n Hl' Hm Hnn. pose proof (news_number _ _ _ _ _ _ _ _ _ _ Hr Hnn).
    destruct (Ho l m Hl' Hm); lia. }
  destruct (installed _ _ _ _ _ (ti_version _ _ _ _ _ _ _ _ _ Ht) Hin Hl Hmv' Hnum Hs Hk cp Hcp) as (v' & cp' & Ha & Hlv & Hnd & Hno).
  assert (Hrep : replaces (current vs) v' (by_number contents) (by_number contents) c min_seq (fun m => m ∈ news)).
  { constructor; [exact Hlv|done|by intros m Hm; apply Htab|by intros m kv Hm; apply Hon|exact Hkept]. }
  exists v', cp'. split_and!; [done|by rewrite (apply_edit_pointers _ _ _ _ _ Ha)| |done|done|done].
  eapply replaced_version_ok; [apply Ht|done|done|done|exact Hrep|by apply Hnd|done].
Qed.

Lemma install_keeps contents vs tc sts c v e news first min_seq vs' e' :
  tables_ok contents vs tc -> upper_inv contents vs sts -> compaction_ran contents vs c v e sts news first min_seq ->
  LogAndApply (SSTableManagerOps0 := manager_ops zone_cap) name lba_size fresh (Unref (delete_compaction vs c) v) e = Some (OK, vs', e') ->
  tables_ok contents vs' tc /\ upper_inv contents vs' sts /\ refs_ok vs' /\
  vs_last_sequence vs' = vs_last_sequence vs /\ vs_ss_manager vs' = vs_ss_manager vs /\
  replaces (current vs) (current vs') (by_number contents) (by_number contents) c min_seq (fun m => m ∈ news).
Proof.
  intros Ht Hup Hr Hlog. destruct (release_same _ _ _ _ _ _ _ _ _ Hr) as (Hh & Ec & Eseq & En & En0 & Emg & Ecp).
  pose proof (LogAndApply_versions _ _ _ _ _ _ _ Hlog) as Hver.
  apply LogAndApply_spec in Hlog as (-> & Eseq' & En' & En0' & Emg' & v' & Hap & Hcur). destruct (Hcur eq_refl) as [Ev' _]. clear Hcur.
  rewrite Ec, Ecp in Hap.
  destruct (ran_installed _ _ _ _ _ _ _ _ _ _ (vs_last_sequence (Unref (delete_compaction vs c) v)) _ Ht Hr (ti_pointers _ _ _ _ _ _ _ _ _ Ht))
    as (v1 & cp1 & Hap' & Hcp & Hv & Hnd & Hlv & Hrep).
  rewrite Hap in Hap'. injection Hap' as <- <-. subst v'. pose proof Hr as [Hl _ _ _ _ _ Hf Hb Hu _ _ Htab _ _ _ _].
  split_and!; [|constructor| |congruence|congruence|done].
  - constructor; try done.
    + intros l m Hl' [[-> Hm]|[Hm _]]%Hlv; [|rewrite En', En; by eapply (ti_below _ _ _ _ _ _ _ _ _ Ht)|done].
      pose proof (news_number _ _ _ _ _ _ _ _ _ _ Hr Hm). lia.
    + intros m [[? _]|[Hm _]]%Hlv; [lia| |done]. rewrite En0', En0. by eapply (ti_l0_below _ _ _ _ _ _ _ _ _ Ht).
    + intros n Hn. apply (ti_unused _ _ _ _ _ _ _ _ _ Ht). lia.
    + rewrite En', En, En0', En0. apply Ht.
    + intros l m Hl' [[-> Hm]|[Hm _]]%Hlv; [|by apply (ti_tables _ _ _ _ _ _ _ _ _ Ht)|done].
      destruct (Htab m Hm) as [Hok Hin]. pose proof (news_number _ _ _ _ _ _ _ _ _ _ Hr Hm).
      assert (Hd : on_device lba_size zone_cap l0_min l0_max ln_min ln_max (vs_ss_manager vs) (c_first_level c + 1) m (contents (m_number m))).
      { eapply store_device; [exact H8|exact H8'| |apply Hup|exact Hin]. lia. }
      destruct Hd as (? & ? & Hpad). split_and!; [done|word|split_and!; [done|done|apply Hok]|lia|].
      by rewrite (ti_manager _ _ _ _ _ _ _ _ _ Ht).
    + apply Ht.
    + rewrite Emg', Emg. apply Ht.
  - rewrite Emg', Emg. apply Hup.
  - intros l m Hl' [[-> Hm]|[Hm _]]%Hlv; [by apply Htab|by apply (ui_tables _ _ _ Hup l)|lia].
  - by apply (refs_held_ok _ v 0), (Append_held _ _ _ 0 Hver).
Qed.

(** ** The steps *)

Context `{!OnceLogLaws WLog} (Hmem : forall n, 0 <= n -> blen (mem_at n) = n) (Hfresh : m_L0_log_number fresh = 0).
Context (Hcont : forall x, h_Continue rest x = true).
Abbreviation entries := (TropoMemtable_entries (Rep := Rep)).
Abbreviation Pending := (option (Status * list SSZoneMetaData)).
Abbreviation inv := (db_inv lba_size zone_cap l0_min l0_max ln_min ln_max).
Abbreviation pending_ok := (pending_inv lba_size zone_cap fresh l0_min l0_max).

(** The compaction that has run and has not taken the mutex again, with the version that it refers to. *)
Abbreviation Compacting := (option (TropoCompaction * TropoVersion * TropoVersionEdit)).

Inductive store_event := SEvent (e : event) | SCompact (level : Z) | SInstall | SEnd.

(** The entries that a flush takes are not larger than a table. *)
Definition imm_small db : Prop := forall st imm, stripes db = [st] -> imm_ st = Some imm -> Forall entry_small (entries imm).

(** The work of a compaction, with as much fuel as it needs. *)
Definition works_to (bg : background DB) c (r : Status * TropoVersionEdit * background DB) : Prop :=
  exists n, forall fuel, (n <= fuel)%nat -> CompactionWork lba_size zone_cap fresh fuel bg c = Some r.

(** Every table that took a number was written. *)
Definition all_written db db' (e : TropoVersionEdit) : Prop :=
  vs_ss_number (versions_ db') = vs_ss_number (versions_ db) + blen (ve_new_ss e).

Inductive store_step : DB * Pending * Compacting -> store_event -> DB * Pending * Compacting -> Prop :=
  | store_other db p q e db' p' :
      db_step name lba_size zone_cap fresh mem_at NDEBUG rest usage max_write_buffer_size_ status (db, p) e (db', p') -> imm_small db ->
      store_step (db, p, q) (SEvent e) (db', p', q)
  | store_compact_0 db p c v bg1 e bg2 :
      ok (bg_error_ db) = true -> CompactionL0Begin name lba_size zone_cap fresh db = Some (true, db) ->
      counters_ok (versions_ db) -> l0_fits_compaction (versions_ db) ->
      CompactionL0Round lba_size zone_cap (mkBackground db [] [] (-1)) = Some (Runs c v, bg1) ->
      works_to bg1 c (OK, e, bg2) -> all_written db (bg_db bg2) e ->
      store_step (db, p, None) (SCompact 0) (bg_db bg2, p, Some (c, v, e))
  | store_compact_n db p c v bg1 e bg2 :
      ok (bg_error_ db) = true -> CompactionBegin name lba_size zone_cap fresh db = Some (true, db) ->
      counters_ok (versions_ db) -> 1 <= CompactionLevel (versions_ db) < level_count - 1 ->
      CompactionRound lba_size zone_cap (mkBackground db [] [] (-1)) = Some (Runs c v, bg1) ->
      works_to bg1 c (OK, e, bg2) -> all_written db (bg_db bg2) e ->
      store_step (db, p, None) (SCompact (CompactionLevel (versions_ db))) (bg_db bg2, p, Some (c, v, e))
  | store_install db p c v e db' :
      CompactionInstall name lba_size zone_cap fresh db c v e = Some (OK, db') -> store_step (db, p, Some (c, v, e)) SInstall (db', p, None)
  | store_end_0 db p shutdown_ db' :
      CompactionL0CallEnd lba_size zone_cap db shutdown_ = Some db' -> store_step (db, p, None) SEnd (db', p, None)
  | store_end_n db p shutdown_ : store_step (db, p, None) SEnd (CompactionCallEnd db shutdown_, p, None).

Inductive store_run : DB * Pending * Compacting -> list store_event -> DB * Pending * Compacting -> Prop :=
  | store_done x : store_run x [] x
  | store_more x e y es z : store_step x e y -> store_run y es z -> store_run x (e :: es) z.

(** The events that clients see. *)
Definition client_events (es : list store_event) : list event := omap (fun e => match e with SEvent e => Some e | _ => None end) es.

(** The relation between the store and the map. *)
Definition store_represents (x : DB * Pending * Compacting) (f : bytes -> option bytes) : Prop :=
  exists contents st sts, inv contents x.1.1 st /\ db_map contents x.1.1 st f /\ pending_ok x.1.1 st x.1.2 /\
    upper_inv contents (versions_ x.1.1) sts /\ contents_small contents /\
    match x.2 with
    | None => refs_ok (versions_ x.1.1)
    | Some (c, v, e) => exists news first min_seq, compaction_ran contents (versions_ x.1.1) c v e sts news first min_seq
    end.

(** The memtables stay newer than the tables when these lose entries. *)
Lemma memory_fewer contents db st contents' db' :
  memory_inv contents db st -> stripes db' = stripes db -> vs_last_sequence (versions_ db') = vs_last_sequence (versions_ db) ->
  (forall kv, entry_in (current (versions_ db')) (by_number contents') kv -> entry_in (current (versions_ db)) (by_number contents) kv) ->
  memory_inv contents' db' st.
Proof.
  intros [M1 M2 M3 M4 M5 M6 M7 M8] Es El He. constructor; rewrite ?Es, ?El; try done.
  - intros kv [Hk|Hk]; apply M6; [by left|right; by apply He].
  - intros kv kv' Hk Hk'. apply M8; [done|by apply He].
Qed.

Lemma pending_l0 db db' st p :
  mg_l0 (vs_ss_manager (versions_ db')) = mg_l0 (vs_ss_manager (versions_ db)) -> pending_ok db st p -> pending_ok db' st p.
Proof. intros E. destruct p as [[s metas]|]; [|done]. intros (imm & Hi & []). exists imm. split; [done|]. constructor; try done. by rewrite E. Qed.

Lemma set_ss_manager_id vs : set_ss_manager vs (vs_ss_manager vs) = vs.
Proof. by destruct vs. Qed.

Lemma contents_small_run contents v c min_seq first mg e news tables :
  outcome_of v (by_number contents) c min_seq first mg e news tables -> contents_small contents -> contents_small (flushed contents first tables).
Proof.
  intros Hoc Hs n kv Hk. unfold flushed in Hk. destruct (first <=? n); [|by eapply Hs].
  destruct (tables !! Z.to_nat (n - first)) as [t|] eqn:Et; [|by apply not_elem_of_nil in Hk]. cbn in Hk.
  assert (Hc : kv ∈ concat tables).
  { apply list_elem_of_In, in_concat. exists t. split; apply list_elem_of_In; [by eapply list_elem_of_lookup_2|done]. }
  apply (oc_inputs _ _ _ _ _ _ _ _ _ _ _ _ _ _ _ Hoc) in Hc as (l & m & _ & Hm). by eapply Hs.
Qed.

(** A pick and the run of the compaction, for both threads. *)
Lemma compact_keeps contents db st f p sts level c vs1 e bg1 bg2 :
  inv contents db st -> db_map contents db st f -> pending_ok db st p -> upper_inv contents (versions_ db) sts ->
  contents_small contents -> refs_ok (versions_ db) -> counters_ok (versions_ db) ->
  0 <= level < level_count - 1 -> (level = 0 -> l0_fits_compaction (versions_ db)) ->
  level_tables (v_ss (current (versions_ db))) level <> [] ->
  PickCompaction lba_size (versions_ db) level [] = Some (c, vs1) -> bg_db bg1 = set_versions_ db (ref_current vs1) ->
  works_to bg1 c (OK, e, bg2) -> all_written db (bg_db bg2) e ->
  store_represents (bg_db bg2, p, Some (c, current vs1, e)) f.
Proof.
  intros [Ht Hm] Hf Hp Hup Hsm Hrefs Hco Hl Hfit Hne Hpick Ebg [n0 Hwork] Hall.
  pose proof (pick_nonempty _ _ _ _ _ Hne Hpick) as Htar.
  pose proof (picked_ready _ _ _ _ _ _ _ _ Ht Hup Hsm Hco Hl Hfit Hpick Htar) as Hrd.
  pose proof (PickCompaction_frame _ _ _ _ _ _ _ Hpick) as Hpk. destruct (picked_state _ _ _ Hpk) as (Ec & Eseq & En & En0 & Emg & Ecp).
  destruct (PickCompaction_finish _ _ _ _ _ _ Hpick Htar) as (m & n & mx & _ & Hfin & _).
  destruct (finish_pick_fields _ _ _ _ _ _ _ _ level (ti_version _ _ _ _ _ _ _ _ _ Ht) Hl Hfin) as (_ & _ & _ & _ & _ & Hcv).
  assert (Ec1 : current vs1 = current (versions_ db)) by (rewrite <-Ec; by rewrite current_ref_current).
  set (vs2 := ref_current vs1) in *.
  set (fuel := (n0 + S (length (concat (inputs c (entries0 (by_number contents) c) (entries1 (by_number contents) c)))))%nat).
  specialize (Hwork fuel ltac:(lia)). unfold CompactionWork in Hwork. rewrite Ebg in Hwork. cbn [versions_ set_versions_] in Hwork.
  apply bind_Some in Hwork as ([[s vs3] e'] & Hrun & Hw). injection Hw as -> -> <-.
  unfold all_written in Hall. cbn in Hall. rewrite <-En in Hall.
  destruct (run_outcome lba_size zone_cap l0_min l0_max ln_min ln_max HL Hzc Hl0 Hln Hbig0 Hbig fresh H8 H8' fuel vs2 c _ sts vs3 e Hrd Hplaced
    ltac:(lia) Hrun Hall) as (news & tables & Hran & Hoc).
  rewrite Ec, Eseq, En in Hoc.
  assert (Hh2 : refs_held vs2 (current (versions_ db)) 2).
  { destruct (pk_versions _ _ _ Hpk) as [[_ E]|[E _]]; [by rewrite Hcv in E|].
    apply (ref_current_held vs1 _ 1); [|done].
    apply (refs_held_same _ _ _ _ E), (ref_current_held _ _ 0); [by apply refs_ok_held|done]. }
  pose proof Hran as [Rv (R1 & R2 & R3) Rwf Rl0 Rn Rb _].
  assert (Htab := ran_tables _ _ _ _ _ _ _ _ Ht Hup Ec Eseq En En0 Emg (eq_trans Ecp (ti_pointers _ _ _ _ _ _ _ _ _ Ht)) Hran). cbv zeta in Htab.
  assert (Ec3 : current vs3 = current (versions_ db)) by (rewrite <-Ec; unfold current; by rewrite Rv).
  assert (H64 : vs_ss_number (versions_ db) + blen tables < 2 ^ 64) by (rewrite <-En, <-Rn; done).
  destruct (outcome_ran _ _ _ _ _ _ _ _ _ _ Ht Hup Hco ltac:(rewrite <-Ec, <-En; apply Hrd) Hcv Hh2 Ec En H64 Hran Hoc) as (sts' & Hup' & Hcr).
  assert (Hsame : forall kv, entry_in (current vs3) (by_number (flushed contents (vs_ss_number (versions_ db)) tables)) kv <->
    entry_in (current (versions_ db)) (by_number contents) kv).
  { intros kv. rewrite Ec3. apply entry_in_ext. intros l x Hl' Hx. pose proof (ti_below _ _ _ _ _ _ _ _ _ Ht l x Hl' Hx).
    unfold by_number, flushed. by rewrite (proj2 (Z.leb_gt _ _)) by lia. }
  exists (flushed contents (vs_ss_number (versions_ db)) tables), st, sts'. cbn [fst snd]. unfold set_manager. cbn.
  rewrite set_ss_manager_id. split_and!; [split|..].
  - exact Htab.
  - apply (memory_fewer contents db); [done|done|cbn; congruence|]. intros kv. by apply Hsame.
  - eapply stands_for_ext; [|exact Hf]. intros kv. unfold db_entry. cbn. by rewrite Hsame.
  - apply (pending_l0 db); [cbn; congruence|done].
  - exact Hup'.
  - by eapply contents_small_run.
  - exists news, (vs_ss_number (versions_ db)), (vs_last_sequence (versions_ db)). by rewrite Ec1.
Qed.

(** Another step of the store. *)
Lemma other_keeps db p q e db' p' f :
  db_step name lba_size zone_cap fresh mem_at NDEBUG rest usage max_write_buffer_size_ status (db, p) e (db', p') -> imm_small db ->
  store_represents (db, p, q) f -> event_ok f e /\ store_represents (db', p', q) (event_map f e).
Proof.
  intros Hstep Hsm (contents & st & sts & Hinv & Hf & Hp & Hup & Hcs & Hq). cbn [fst snd] in *.
  destruct (db_step_keeps name lba_size zone_cap fresh mem_at NDEBUG rest usage max_write_buffer_size_ status l0_min l0_max ln_min ln_max
    HL Hzc Hl0 Hln Hbig0 Hbig Hcont HL16 Hmem Hfresh contents (db, p) st f e (db', p') Hstep Hinv Hf Hp)
    as (Hok & contents' & st' & Hinv' & Hf' & Hp' & Hgr & Hnew & _). cbn [fst snd] in *.
  split; [done|]. exists contents', st', sts. destruct Hinv as [Ht Hm]. split_and!; try done; cbn [fst snd].
  - by eapply grows_upper.
  - intros n kv [Hk|(imm & Hi & Hk)]%Hnew; [by eapply Hcs|]. specialize (Hsm st imm (me_one _ _ _ Hm) Hi). rewrite Forall_forall in Hsm. by apply Hsm.
  - destruct q as [[[c v] ed]|].
    + destruct Hq as (news & first & min_seq & Hr). exists news, first, min_seq. by eapply grows_ran.
    + eapply refs_held_ok, (grows_refs _ _ _ _ _ 0 ltac:(lia) Hgr). by apply refs_ok_held.
Qed.

(** The end of a compaction. *)
Lemma install_step_keeps db p c v e db' f :
  CompactionInstall name lba_size zone_cap fresh db c v e = Some (OK, db') ->
  store_represents (db, p, Some (c, v, e)) f -> store_represents (db', p, None) f.
Proof.
  intros ([[s vs'] e'] & Hlog & [= -> <-])%bind_Some (contents & st & sts & [Ht Hm] & Hf & Hp & Hup & Hcs & news & first & min_seq & Hr).
  cbn [fst snd versions_ CompactionRelease set_versions_] in *.
  destruct (install_keeps _ _ _ _ _ _ _ _ _ _ _ _ Ht Hup Hr Hlog) as (Ht' & Hup' & Hrefs & Eseq & Emg & Hrep).
  pose proof Hr as [Hl _ _ _ Hin Hleave _ _ _ _ _ _ _ _ _ _]. pose proof (ti_version _ _ _ _ _ _ _ _ _ Ht) as Hv.
  exists contents, st, sts. cbn [fst snd versions_ set_versions_ CompactionRelease]. split_and!; [split|..]; try done.
  - apply (memory_fewer contents db); [done|done|done|]. intros kv (l & m & Hl' & Hmm & Hk). cbn in Hmm.
    eapply replaced_old_entry; [done|done|exact Hrep|done..].
  - unfold db_map, db_entry in *. cbn. eapply stands_for_replaced; [done|done|done|done|exact Hrep|apply Hm|done].
  - apply (pending_l0 db); [cbn; by rewrite Emg|done].
Qed.

(** Only the flags of the background work change. *)
Lemma flags_keep db db' p f :
  stripes db' = stripes db -> versions_ db' = versions_ db -> table_cache_ db' = table_cache_ db ->
  store_represents (db, p, None) f -> store_represents (db', p, None) f.
Proof.
  intros Es Ev Et (contents & st & sts & [Ht Hm] & Hf & Hp & Hup & Hcs & Hrefs). cbn [fst snd] in *.
  exists contents, st, sts. cbn [fst snd]. rewrite Ev. split_and!; [split; rewrite ?Ev, ?Et|..]; try done.
  - destruct Hm. constructor; rewrite ?Es, ?Ev; try done. unfold db_entry. by rewrite Ev.
  - unfold db_map, db_entry in *. by rewrite Ev.
  - apply (pending_l0 db); [by rewrite Ev|done].
Qed.

Lemma L0CallEnd_flags db shutdown_ db' :
  CompactionL0CallEnd lba_size zone_cap db shutdown_ = Some db' ->
  stripes db' = stripes db /\ versions_ db' = versions_ db /\ table_cache_ db' = table_cache_ db.
Proof.
  unfold CompactionL0CallEnd. destruct shutdown_; [by intros [= <-]|]. intros (db1 & H1 & [= <-])%bind_Some.
  unfold MaybeScheduleCompactionL0 in H1. unfold MaybeScheduleCompaction. cbn in H1.
  destruct (_ || _) in H1; [injection H1 as <-|apply bind_Some in H1 as ([|] & _ & [= <-])]; by case_match.
Qed.

Definition store_map (f : bytes -> option bytes) (e : store_event) : bytes -> option bytes :=
  match e with SEvent e => event_map f e | _ => f end.
Definition store_event_ok (f : bytes -> option bytes) (e : store_event) : Prop :=
  match e with SEvent e => event_ok f e | _ => True end.

Lemma store_step_keeps x e y f : store_step x e y -> store_represents x f -> store_event_ok f e /\ store_represents y (store_map f e).
Proof.
  intros Hstep Hx. destruct Hstep as [db p q e db' p' Hs Hsm|db p c v bg1 e bg2 Hok Hb Hco Hfit Hround Hw Hall
    |db p c v bg1 e bg2 Hok Hb Hco Hlv Hround Hw Hall|db p c v e db' Hi|db p sh db' He|db p sh]; cbn [store_event_ok store_map].
  - by eapply other_keeps.
  - split; [done|]. destruct Hx as (contents & st & sts & Hinv & Hf & Hp & Hup & Hcs & Hrefs). cbn [fst snd] in *.
    unfold CompactionL0Round in Hround. apply bind_Some in Hround as ([c0 vs1] & Hpick & Hr). cbn [bg_db reserved_comp_0 reserved_comp_1 reserve_claimed_] in Hpick, Hr.
    destruct (_ || _) in Hr; [done|]. injection Hr as <- <- <-.
    refine (compact_keeps contents db st f p sts 0 _ vs1 e _ bg2 Hinv Hf Hp Hup Hcs Hrefs Hco _ (fun _ => Hfit) _ Hpick _ Hw Hall); [by vm_compute| |done].
    unfold CompactionL0Begin in Hb. apply bind_Some in Hb as ([|] & _ & Hb); [|done]. cbn [negb] in Hb.
    unfold OnlyNeedDeletes in Hb. intros E. rewrite E in Hb. cbn in Hb. by apply bind_Some in Hb as ([? ?] & _ & [=]).
  - split; [done|]. destruct Hx as (contents & st & sts & Hinv & Hf & Hp & Hup & Hcs & Hrefs). cbn [fst snd] in *.
    unfold CompactionRound in Hround. apply bind_Some in Hround as ([c0 vs1] & Hpick & Hr). cbn [bg_db reserved_comp_0 reserved_comp_1 reserve_claimed_] in Hpick, Hr.
    destruct (_ || _) in Hr; [done|]. injection Hr as <- <- <-.
    refine (compact_keeps contents db st f p sts _ _ vs1 e _ bg2 Hinv Hf Hp Hup Hcs Hrefs Hco _ _ _ Hpick _ Hw Hall); [lia|lia| |done].
    unfold CompactionBegin in Hb. destruct (level_count <=? _); [done|].
    unfold OnlyNeedDeletes in Hb. intros E. rewrite E in Hb. cbn in Hb. by apply bind_Some in Hb as ([? ?] & _ & [=]).
  - split; [done|]. by eapply install_step_keeps.
  - split; [done|]. apply L0CallEnd_flags in He as (? & ? & ?). by eapply flags_keep.
  - split; [done|]. apply (flags_keep db); [..|done]; unfold CompactionCallEnd, MaybeScheduleCompaction; (destruct sh; [|case_match]); done.
Qed.

End Store.


(** ** Witness: two flushes, a compaction of level 0 with a write in between *)

Module StoreWitness.
#[local] Existing Instance BytewiseComparator.
(** Blocks of 64 bytes, zones of 4 blocks; level 0 has the zones 0 to 3, the other levels the zones 4 to 11. *)
#[global] Instance l0_ops : CircularLog MemLog.t := MemLog.ops 64 0 16.
#[global] Instance l0_laws : CircularLogLaws MemLog.t 64 (0 * 4) (4 * 4) := MemLog.laws 64 0 16 ltac:(lia) ltac:(lia).
#[global] Instance ln_ops : FragmentedLog MemFrag.t := MemFrag.ops 256 4 12.
#[global] Instance ln_laws : FragmentedLogLaws MemFrag.t (4 * 64) 4 12 := MemFrag.laws 256 4 12 ltac:(lia).
#[global] Instance cache_ops : Cache MemCache.t := MemCache.ops 4.

Abbreviation Mg := (TropoSSTableManager MemLog.t MemFrag.t).
Abbreviation Db := (TropoDBImpl RevLog.t ListRep.t (TropoVersionSet (TropoManifest MemLog.t) Mg) (TropoTableCache MemCache.t Mg)).
Import DbWitness (name, fresh, usage, buffer, st0, fits, stripe_of, imm_of, wref, synced, unsplit_one).

Definition manager : Mg := mkManager [MemLog.mk 0 []] (∅ : MemFrag.t) [(0, 4); (4, 12)].
Definition vs0 : TropoVersionSet (TropoManifest MemLog.t) Mg := newVersionSet 0 0 (newManifest 64 (MemLog.mk 0 [])) manager.
Definition db0 : Db := mkDB [st0] vs0 (mkTableCache ([] : MemCache.t) ∅ 0 manager) OK false false.

Definition us1 : list update := [UPut [x61] (replicate 400 x01); UPut [x62] [x02]].
Definition us2 : list update := [UPut [x61] (replicate 330 x02); UDelete [x62]].
Definition us3 : list update := [UPut [x63] [x03]].

Definition write (db : Db) (us : list update) : Db :=
  default db (snd <$> Write (MemTableRep0 := ListRep.ops) 64 zero_mem true refuse_rest buffer db 0 false (batch_of 0 us) []).
Definition switch (db : Db) : Db := default db (SwitchMemtable 64 4 zero_mem true db 0).
Definition flush (db : Db) : Status * list SSZoneMetaData * Db := default (IOError, [], db) (FlushL0SSTables 64 fresh db 0).
Definition install (db : Db) (metas : list SSZoneMetaData) : Status * TropoVersionSet (TropoManifest MemLog.t) Mg :=
  default (IOError, versions_ db) (install_tables name 64 4 fresh (versions_ db) metas).
Definition finish (db : Db) (metas : list SSZoneMetaData) : Status * Db := default (IOError, db) (FinishFlush name 64 4 fresh db 0 OK metas).
Definition flush_end (db : Db) : Db := default db (FlushCallEnd 64 4 true db 0 false).

Definition db1 : Db := Eval vm_compute in write db0 us1.
Definition db2 : Db := Eval vm_compute in switch db1.
Definition fl2 := Eval vm_compute in flush db2.
Definition fin3 := Eval vm_compute in finish fl2.2 fl2.1.2.
Definition db4 : Db := Eval vm_compute in flush_end fin3.2.
Definition db5 : Db := Eval vm_compute in write db4 us2.
Definition db6 : Db := Eval vm_compute in switch db5.
Definition fl6 := Eval vm_compute in flush db6.
Definition fin7 := Eval vm_compute in finish fl6.2 fl6.1.2.
Definition db8 : Db := Eval vm_compute in flush_end fin7.2.

(** The compaction. *)
Definition picked8 : option (round * background Db) := Eval vm_compute in CompactionL0Round 64 4 (mkBackground db8 [] [] (-1)).
Definition c8 : TropoCompaction := Eval vm_compute in match picked8 with Some (Runs c _, _) => c | _ => newCompaction 64 0 end.
Definition v8 : TropoVersion := Eval vm_compute in match picked8 with Some (Runs _ v, _) => v | _ => newVersion end.
Definition bg8 : background Db := Eval vm_compute in default (mkBackground db8 [] [] (-1)) (snd <$> picked8).
Definition worked8 := Eval vm_compute in default (IOError, newEdit, bg8) (CompactionWork 64 4 fresh 10 bg8 c8).
Definition e9 : TropoVersionEdit := Eval vm_compute in worked8.1.2.
Definition db9 : Db := Eval vm_compute in bg_db worked8.2.
Definition db10 : Db := Eval vm_compute in write db9 us3.
Definition db11 : Db := Eval vm_compute in default db10 (snd <$> CompactionInstall name 64 4 fresh db10 c8 v8 e9).
Definition got11 := Eval vm_compute in default (IOError, [], db11) (db_Get 64 4 notfound db11 [x61] 0).
Definition db12 : Db := Eval vm_compute in got11.2.

Definition events : list store_event :=
  [SEvent (EWrite false us1 OK); SEvent (ESwitch OK); SEvent EFlush; SEvent EInstall;
   SEvent (EWrite false us2 OK); SEvent (ESwitch OK); SEvent EFlush; SEvent EInstall;
   SCompact 0; SEvent (EWrite false us3 OK); SInstall; SEvent (EGet [x61] OK (replicate 330 x02))].

Definition wal_of (db : Db) : nat := default 0%nat (wal_ (stripe_of db)).

Lemma one_table_2 : flush_tables 64 (TropoMemtable_entries (MemTableRep0 := ListRep.ops) (imm_of db2)) =
  [TropoMemtable_entries (MemTableRep0 := ListRep.ops) (imm_of db2)].
Proof. by vm_compute. Qed.

Lemma one_table_6 : flush_tables 64 (TropoMemtable_entries (MemTableRep0 := ListRep.ops) (imm_of db6)) =
  [TropoMemtable_entries (MemTableRep0 := ListRep.ops) (imm_of db6)].
Proof. by vm_compute. Qed.

Lemma no_imm (db : Db) : imm_ (stripe_of db) = None -> imm_small (MemTableRep0 := ListRep.ops) 64 db.
Proof. intros E st imm Hst Hi. unfold stripe_of in E. rewrite Hst in E. cbn in E. congruence. Qed.

Lemma small_imm (db : Db) :
  Forall (entry_small 64) (TropoMemtable_entries (MemTableRep0 := ListRep.ops) (imm_of db)) -> imm_small (MemTableRep0 := ListRep.ops) 64 db.
Proof. intros E st imm Hst Hi. unfold imm_of, stripe_of in E. rewrite Hst in E. cbn in E. by rewrite Hi in E. Qed.

Lemma work8 : works_to 64 4 fresh bg8 c8 (OK, e9, worked8.2).
Proof. exists 10%nat. intros fuel (k & ->)%Nat.le_sum. by vm_compute. Qed.

Abbreviation run := (store_run (MemTableRep0 := ListRep.ops) name 64 4 fresh zero_mem true refuse_rest usage buffer notfound).

(** A write of a client, and the three parts of a flush. *)
Ltac write_step db us db' :=
  apply store_other; [|by apply no_imm];
  apply (step_Write name 64 4 fresh zero_mem true refuse_rest usage buffer notfound db None (stripe_of db) true false 0 us [] [] OK 0 db');
  [done|by vm_compute|apply fits; [repeat constructor; vm_compute; congruence|by vm_compute..]|by vm_compute].
Ltac switch_step db db' :=
  apply store_other; [|by apply no_imm];
  by apply (step_Switch name 64 4 fresh zero_mem true refuse_rest usage buffer notfound
    db None (stripe_of db) 0 true (wal_of db) (wref db) OK (synced db) db'); vm_compute.
Ltac flush_step db fl one :=
  apply store_other; [|apply small_imm; repeat constructor; vm_compute; congruence];
  apply (step_Flush name 64 4 fresh zero_mem true refuse_rest usage buffer notfound db (stripe_of db) (imm_of db) OK (fl.1.2) (fl.2));
  [by vm_compute|by vm_compute|done|done|by vm_compute|by vm_compute|repeat constructor; vm_compute; congruence
  |rewrite one; apply unsplit_one|by vm_compute|by rewrite one].
Ltac install_step fl fin db' :=
  apply store_other; [|apply small_imm; repeat constructor; vm_compute; congruence];
  by apply (step_Install name 64 4 fresh zero_mem true refuse_rest usage buffer notfound
    (fl.2) OK (fl.1.2) (install fl.2 fl.1.2).2 OK (fin.2) false db'); vm_compute.

Lemma first_flush es y : run (db4, None, None) es y -> run (db0, None, None) (take 4 events ++ es) y.
Proof.
  intros Hrun. eapply store_more; [write_step db0 us1 db1|]. eapply store_more; [switch_step db1 db2|].
  eapply store_more; [flush_step db2 fl2 one_table_2|]. eapply store_more; [install_step fl2 fin3 db4|done].
Qed.

Lemma second_flush es y : run (db8, None, None) es y -> run (db4, None, None) (take 4 (drop 4 events) ++ es) y.
Proof.
  intros Hrun. eapply store_more; [write_step db4 us2 db5|]. eapply store_more; [switch_step db5 db6|].
  eapply store_more; [flush_step db6 fl6 one_table_6|]. eapply store_more; [install_step fl6 fin7 db8|done].
Qed.

(** The two tables of level 0. *)
Lemma counters8 : counters_ok (versions_ db8).
Proof.
  constructor; [|by vm_compute..]. intros l m Hl Hm. change level_count with 6 in Hl.
  assert (l = 0 \/ l = 1 \/ l = 2 \/ l = 3 \/ l = 4 \/ l = 5) as [-> | [-> | [-> | [-> | [-> | ->]]]]] by lia;
    vm_compute in Hm; [|by apply not_elem_of_nil in Hm..].
  apply elem_of_cons in Hm as [-> | Hm]; [|apply elem_of_cons in Hm as [-> | Hm]; [|by apply not_elem_of_nil in Hm]].
  all: constructor; cbn; try (split; [done|]); repeat constructor; try lia; vm_compute; congruence.
Qed.

Lemma compacted : run (db8, None, None) (drop 8 events) (db12, None, None).
Proof.
  eapply store_more.
  { apply (store_compact_0 name 64 4 fresh zero_mem true refuse_rest usage buffer notfound db8 None c8 v8 bg8 e9 worked8.2);
      [done|by vm_compute|apply counters8| |by vm_compute|apply work8|by vm_compute].
    split; [repeat constructor; vm_compute; congruence|by vm_compute]. }
  eapply store_more; [write_step db9 us3 db10|].
  eapply store_more; [apply (store_install _ _ _ _ _ _ _ _ _ _ db10 None c8 v8 e9 db11); by vm_compute|].
  eapply store_more; [|apply store_done]. apply store_other; [|by apply no_imm].
  by apply (step_Get name 64 4 fresh zero_mem true refuse_rest usage buffer notfound db11 None [x61] 0 OK (replicate 330 x02) db12); vm_compute.
Qed.

Lemma store_ran : run (db0, None, None) events (db12, None, None).
Proof. apply (first_flush (drop 4 events)), (second_flush (drop 8 events)), compacted. Qed.

(** A table of the eight zones has at most eight regions. *)
Lemma store_placed : placed (LN := MemFrag.t) 4 fresh.
Proof.
  intros log b t w _. unfold ln_WriteSSTable. destruct (negb _); [done|].
  destruct (fl_Append log (sb_buffer b) w) as [[r ptrs] log'] eqn:Ea. destruct (negb _); [done|].
  assert (Hp : blen ptrs <= 8).
  { cbn [fl_Append ln_ops MemFrag.ops] in Ea. unfold MemFrag.append in Ea.
    destruct (_ <=? _); injection Ea as <- <- <-; [|rewrite blen_nil; lia].
    unfold MemFrag.singles, blen. rewrite length_map. unfold ztake. rewrite length_take.
    pose proof (length_filter (fun z => log !! z = None) (seqZ 4 (12 - 4))) as Hf. unfold MemFrag.free. rewrite length_seqZ in Hf. lia. }
  destruct (proj2 (record_regions_defined 4 ptrs (set_LN (sb_meta b) 0 (m_LN_lbas (sb_meta b)) (m_LN_lba_region_sizes (sb_meta b)) 0)
    ltac:(cbn; unfold max_lba_regions; lia)) ltac:(cbn; unfold max_lba_regions; lia)) as [m Hm].
  rewrite Hm. obind. by eexists.
Qed.

Lemma store_started : store_represents 64 4 fresh 0 4 4 12 (db0, None, None) (fun _ => None).
Proof.
  assert (Hno : forall l, 0 <= l < level_count -> level_tables (v_ss (current (versions_ db0))) l = []).
  { intros l Hl. change level_count with 6 in Hl.
    by assert (l = 0 \/ l = 1 \/ l = 2 \/ l = 3 \/ l = 4 \/ l = 5) as [-> | [-> | [-> | [-> | [-> | ->]]]]] by lia. }
  destruct (Database.start_state 64 4 zero_mem true 0 4 4 12 ltac:(lia) zero_mem_length db0 st0) as (Hinv & Hmap & _); try done.
  { apply (WalManager.start 64 zero_mem true N_wals DbWitness.logs DbWitness.wal0 DbWitness.opened.2); [done|by repeat constructor|by vm_compute]. }
  { intros k a. apply not_elem_of_nil. }
  exists (fun _ => []), st0, []. cbn [fst snd]. split_and!; try done.
  - constructor; [|intros l m Hl]. 
    + split; [constructor|constructor].
    + rewrite Hno by lia. by intros ?%not_elem_of_nil.
  - by intros n kv ?%not_elem_of_nil.
  - split; [done|by repeat constructor].
Qed.
End StoreWitness.

