(* ===== verification/Opening.v ===== *)
(** * Opening: creating, opening and destroying a store

    [impl/tropodb_impl.cc]: the check of the options, the division of the zones of the
    device over the components, the construction of the components, [Open] with the
    recovery of [Database], and [DestroyDB].

    The device and the constructors of its logs belong to the device library and are
    parameters.  [None] is a failed assertion or undefined behaviour. *)

From S2P Require Import Prelude Coding DbFormat Config SSTable SSTableIter VersionEdit Version Szd Memtable Wal WalManager WriteBatch.
From S2P Require Import VersionBuilder Manifest VersionSet PickCompaction L0SSTable LNSSTable SSTableManager TableCache.
From S2P Require Import Compaction CompactionSafety L0Flush Database BackgroundCompaction CompactingStore.

(** ** The device and the options *)

(** What TropoDB reads of [SZD::DeviceInfo]. *)
Record DeviceInfo := mkInfo {
  di_lba_size : Z;
  di_zone_size : Z;
  di_zone_cap : Z;
  di_min_lba : Z;
  di_max_lba : Z
}.

(** The device: the outcome of [Init], of [Open] for a range of zones, and of the registration of a
    channel and its end. *)
Record SZDDevice := mkDevice {
  dv_Init : SZDStatus;
  dv_Open : Z -> Z -> SZDStatus;
  dv_info : DeviceInfo;
  dv_register_channel : SZDStatus;
  dv_unregister_channel : SZDStatus
}.

(** What TropoDB reads of [DBOptions]. *)
Record DBOptions := mkOptions {
  db_paths : Z;
  use_tropodb_impl : bool;
  create_if_missing : bool;
  error_if_exists : bool
}.

(** [TropoDBImpl::ValidateOptions], impl/tropodb_impl.cc:155-164 *)
Definition ValidateOptions (o : DBOptions) : Status :=
  if 1 <? db_paths o then NotSupported
  else if negb (use_tropodb_impl o) then NotSupported
  else OK.

(** [TropoDBImpl::OpenZNSDevice], impl/tropodb_impl.cc:166-184 *)
Definition OpenZNSDevice (dv : SZDDevice) : Status :=
  if negb (ok (FromStatus (dv_Init dv))) then IOError
  else if negb (ok (FromStatus (dv_Open dv min_zone max_zone))) then IOError
  else OK.

(** ** The division of the zones *)

(** The zones of a component: the first one, and the one after the last. *)
Abbreviation zones := (Z * Z)%type.

Record layout := mkLayout {
  ly_manifest : zones;
  ly_wals : list zones;
  ly_tables : option (list zones)
}.

(** The loop over the managers of the logs: their zones, and the next free zone. *)
Fixpoint wal_layout (n : nat) (zone_head zone_step : Z) : list zones * Z :=
  match n with
  | O => ([], zone_head)
  | S n =>
      let '(zs, head) := wal_layout n (u64 (zone_head + zone_step)) zone_step in
      ((zone_head, u64 (zone_step + zone_head)) :: zs, head)
  end.

(** The zones of [InitDB], impl/tropodb_impl.cc:222-264. *)
Definition zone_layout (info : DeviceInfo) : layout :=
  let zone_head := di_min_lba info / di_zone_size info in
  let zone_step := manifest_zones in
  let manifest := (zone_head, u64 (zone_head + zone_step)) in
  let zone_head := u64 (zone_head + zone_step) in
  let zone_step := wal_count * zones_foreach_wal / lower_concurrency in
  let '(wals, zone_head) := wal_layout (Z.to_nat lower_concurrency) zone_head zone_step in
  let zone_step := u64 (di_max_lba info / di_zone_size info - zone_head - 1) in
  mkLayout manifest wals (NewTropoDBSSTableManager zone_head (u64 (zone_head + zone_step))).

(** The zones that the store takes from the first one on, before those of the upper levels. *)
Definition fixed_zones : Z := manifest_zones + wal_count * zones_foreach_wal.

(** The zones follow each other. *)
Fixpoint division_ok (first last : Z) (zs : list zones) : bool :=
  match zs with
  | [] => first =? last
  | (a, b) :: zs => (a =? first) && (a <=? b) && division_ok b last zs
  end.

Lemma zone_layout_spec info first last :
  di_min_lba info / di_zone_size info = first -> di_max_lba info / di_zone_size info = last ->
  0 <= first -> 0 < last -> first + 300 < 2 ^ 64 -> last < 2 ^ 64 ->
  zone_layout info = mkLayout (first, first + manifest_zones) [(first + manifest_zones, first + fixed_zones)]
    (if last - 1 <? first + fixed_zones + level_count * min_ss_zone_count then None
     else Some [(first + fixed_zones, first + fixed_zones + L0_zones); (first + fixed_zones + L0_zones, last - 1)]).
Proof.
  intros Ef El H0 H1 H2 H3. unfold zone_layout. rewrite Ef, El. change (Z.to_nat lower_concurrency) with 1%nat.
  change (wal_count * zones_foreach_wal / lower_concurrency) with 160. unfold fixed_zones, manifest_zones. change (wal_count * zones_foreach_wal) with 160.
  cbn [wal_layout]. rewrite (u64_small (first + 4)) by word. rewrite (u64_small (160 + (first + 4))), (u64_small (first + 4 + 160)) by word.
  assert (E : u64 (first + 4 + 160 + u64 (last - (first + 4 + 160) - 1)) = last - 1).
  { unfold u64. rewrite Zplus_mod_idemp_r, Z.mod_small; lia. }
  rewrite E. rewrite manager_ranges by (unfold L0_zones; lia). f_equal; [f_equal; f_equal; lia|].
  replace (first + 4 + 160) with (first + (4 + 160)) by lia. done.
Qed.

Section Opening.
Context `{UserComparator} {ML WLog L0 LN C Rep : Type}.
Context `{!CircularLog ML} `{!OnceLog WLog} `{!CircularLog L0} `{!FragmentedLog LN} `{!Cache C} `{!MemTableRep Rep} `{!SZDBuffer}.
(** The name of the comparator, fresh metadata and memory, whether assertions are off, and the
    handlers of the memtable's inserter that are not modelled. *)
Context (name : bytes) (fresh : SSZoneMetaData) (mem_at : Z -> bytes) (NDEBUG : bool) (rest : Handler (inserter (Rep := Rep))).
(** The device, and the constructors of its logs over a range of zones and of the cache. *)
Context (dv : SZDDevice) (new_manifest_log : Z -> Z -> ML) (new_wal_log : Z -> Z -> WLog) (new_l0_log : Z -> Z -> L0).
Context (new_ln_log : Z -> Z -> LN) (new_cache : Z -> C).

Abbreviation info := (dv_info dv).
Abbreviation Manager := (TropoSSTableManager L0 LN).
Abbreviation VS := (TropoVersionSet (TropoManifest ML) Manager).
Abbreviation TC := (TropoTableCache C Manager).
Abbreviation DB := (TropoDBImpl WLog Rep VS TC).
Implicit Types (db : DB).

(** The blocks of the manifest. *)
Definition manifest_first : Z := u64 (fst (ly_manifest (zone_layout info)) * di_zone_cap info).
Definition manifest_last : Z := u64 (snd (ly_manifest (zone_layout info)) * di_zone_cap info).

#[local] Instance opening_manifest : ManifestOps (TropoManifest ML) :=
  manifest_ops (di_lba_size info) manifest_first manifest_last (di_zone_cap info).

(** [TropoSSTableManager::TropoSSTableManager], table/tropodb_sstable_manager.cc:20-46 *)
Definition newSSTableManager (ranges : list zones) : Manager :=
  let '(a, b) := default (0, 0) (ranges !! Z.to_nat lower_concurrency) in
  mkManager ((fun '(a, b) => new_l0_log a b) <$> take (Z.to_nat lower_concurrency) ranges) (new_ln_log a b) ranges.

(** [TropoDBImpl::InitDB], impl/tropodb_impl.cc:205-293.  [seq] and [n0] are what the members of the
    version set happen to hold that its constructor does not set. *)
Definition InitDB (seq n0 : Z) : option (Status * option DB) :=
  let ly := zone_layout info in
  let manifest := newManifest manifest_last (new_manifest_log (fst (ly_manifest ly)) (snd (ly_manifest ly))) in
  wal_mans ← mapM (fun '(a, b) => newWALManager (di_lba_size info) mem_at NDEBUG N_wals new_wal_log a b) (ly_wals ly);
  match ly_tables ly with
  | None => Some (Corruption, None)
  | Some ranges =>
      let mg := newSSTableManager ranges in
      let stripes := (fun m => mkStripe newMemTable None m None 0 false) <$> wal_mans in
      let table_cache := mkTableCache (new_cache (1024 * 1024 * 4)) ∅ 0 mg in
      Some (OK, Some (mkDB stripes (newVersionSet seq n0 manifest mg) table_cache OK false false))
  end.

(** ** Opening and destroying *)

(** The reset of all zones by a channel of the device. *)
Context (ResetAllZones : DB -> SZDStatus * DB).

(** [TropoDBImpl::ResetZNSDevice], impl/tropodb_impl.cc:186-203 *)
Definition ResetZNSDevice db : Status * DB :=
  let s := FromStatus (dv_register_channel dv) in
  let '(s, db) := if ok s then let '(r, db) := ResetAllZones db in (FromStatus r, db) else (s, db) in
  let s := if ok s then FromStatus (dv_unregister_channel dv) else s in
  (if ok s then OK else IOError, db).

(** [TropoDBImpl::Open], impl/tropodb_impl.cc:357-402: the status, the store with the size of its write
    buffer, and [false] when [Recover] waits for a flush.  [buffers] are the sizes of the write buffers of
    the column families. *)
Definition Open (o : DBOptions) (buffers : list Z) (seq n0 old_seq : Z) : option (Status * bool * option (DB * Z)) :=
  let s := ValidateOptions o in
  if negb (ok s) then Some (s, true, None)
  else
    let max_write_buffer_size := foldl Z.max 0 buffers in
    let s := OpenZNSDevice dv in
    if negb (ok s) then Some (s, true, None)
    else
      '(s, odb) ← InitDB seq n0;
      if negb (ok s) then Some (s, true, None)
      else
        db ← odb;
        '(s, ready, db) ← TropoDBImpl_Recover name (di_lba_size info) (di_zone_cap info) fresh mem_at NDEBUG rest
          ResetZNSDevice (create_if_missing o) (error_if_exists o) db old_seq;
        Some (s, ready, if ok s then Some (db, max_write_buffer_size) else None).

(** [TropoDBImpl::DestroyDB], impl/tropodb_impl.cc:437-459 *)
Definition DestroyDB (seq n0 : Z) : option (Status * option DB) :=
  let s := OpenZNSDevice dv in
  if negb (ok s) then Some (s, None)
  else
    '(s, odb) ← InitDB seq n0;
    if negb (ok s) then Some (s, odb)
    else db ← odb; let '(s, db) := ResetZNSDevice db in Some (s, Some db).

(** ** A device that is large enough *)

(** The first zone of the device and the one after the last, with room for the store. *)
Record device_zones (first last : Z) : Prop := {
  dz_first : di_min_lba info / di_zone_size info = first;
  dz_last : di_max_lba info / di_zone_size info = last;
  dz_range : 0 <= first < last;
  dz_u64 : last < 2 ^ 60
}.

Lemma InitDB_layout first last :
  device_zones first last ->
  zone_layout info = mkLayout (first, first + manifest_zones) [(first + manifest_zones, first + fixed_zones)]
    (if last - 1 <? first + fixed_zones + level_count * min_ss_zone_count then None
     else Some [(first + fixed_zones, first + fixed_zones + L0_zones); (first + fixed_zones + L0_zones, last - 1)]).
Proof. intros [Ef El Hr Hu]. apply zone_layout_spec; [done|done|lia..]. Qed.

(** The store that [InitDB] makes. *)
Definition initial_db (seq n0 first last : Z) : DB :=
  let mg := newSSTableManager [(first + fixed_zones, first + fixed_zones + L0_zones); (first + fixed_zones + L0_zones, last - 1)] in
  mkDB [mkStripe newMemTable None (manage (di_lba_size info) mem_at N_wals (wal_ranges N_wals new_wal_log (first + manifest_zones) zones_foreach_wal))
      None 0 false]
    (newVersionSet seq n0 (newManifest manifest_last (new_manifest_log first (first + manifest_zones))) mg)
    (mkTableCache (new_cache (1024 * 1024 * 4)) ∅ 0 mg) OK false false.

Lemma InitDB_spec seq n0 first last :
  device_zones first last ->
  InitDB seq n0 = Some (if last - 1 <? first + fixed_zones + level_count * min_ss_zone_count then (Corruption, None)
                        else (OK, Some (initial_db seq n0 first last))).
Proof.
  intros Hd. unfold InitDB. rewrite (InitDB_layout _ _ Hd). cbn [ly_manifest ly_wals ly_tables mapM mbind option_bind fst snd].
  unfold newWALManager. assert (first + fixed_zones - (first + manifest_zones) = 160) as -> by (change fixed_zones with 164; change manifest_zones with 4; lia).
  change (160 mod Z.of_nat N_wals =? 0) with true. change (160 / Z.of_nat N_wals) with zones_foreach_wal. obind. cbn [mapM mbind option_bind].
  by destruct (_ <? _).
Qed.

(** C29: the division of the device.  [InitDB] fails with Corruption exactly when fewer
    than 194 zones are left without the last zone of the device, which is never used.
    Otherwise the manifest, the logs, level 0 and the upper levels get their zones one
    after the other; they fill the range from the first zone to the last but one
    exactly when it has 264 zones.  Between the two numbers the store opens with a level
    0 that reaches beyond the device and upper levels that begin behind their end. *)
Theorem zone_division seq n0 first last :
  device_zones first last ->
  let zs := ly_manifest (zone_layout info) :: ly_wals (zone_layout info) ++ default [] (ly_tables (zone_layout info)) in
  (last - 1 < first + 194 -> InitDB seq n0 = Some (Corruption, None)) /\
  (first + 194 <= last - 1 ->
     (exists db, InitDB seq n0 = Some (OK, Some db) /\ ly_tables (zone_layout info) = Some (mg_zones (vs_ss_manager (versions_ db)))) /\
     (division_ok first (last - 1) zs = true <-> first + 264 <= last - 1)).
Proof.
  intros Hd. cbv zeta. rewrite (InitDB_spec _ _ _ _ Hd), (InitDB_layout _ _ Hd). cbn [ly_manifest ly_wals ly_tables].
  change fixed_zones with 164. change (level_count * min_ss_zone_count) with 30. change L0_zones with 100. change manifest_zones with 4.
  split; [intros Hlt; by rewrite (proj2 (Z.ltb_lt _ _)) by lia|]. intros Hge. rewrite (proj2 (Z.ltb_ge _ _)) by lia.
  split; [by eexists|]. cbn [default from_option id app division_ok]. rewrite !Z.eqb_refl, !(proj2 (Z.leb_le _ _)) by lia. cbn [andb].
  rewrite andb_true_r, Z.leb_le. lia.
Qed.

(** ** Opening a device without a manifest *)

Lemma newVersion_tables l : level_tables (v_ss newVersion) l = [].
Proof.
  unfold level_tables. destruct (v_ss newVersion !! Z.to_nat l) as [x|] eqn:E; [|done]. by apply lookup_replicate in E as [-> _].
Qed.

(** The background flow leaves the versions alone. *)
Lemma schedule_flush_versions db i db' : MaybeScheduleFlush NDEBUG db i = Some db' -> versions_ db' = versions_ db.
Proof.
  intros (st & _ & Hf)%bind_Some. destruct (bg_flush_scheduled_ st); [by injection Hf as <-|].
  apply bind_Some in Hf as ([|] & _ & [= <-]); done.
Qed.

Lemma schedule_flushes_versions ids db db' : schedule_flushes NDEBUG ids db = Some db' -> versions_ db' = versions_ db.
Proof.
  revert db. induction ids as [|i ids IH]; intros db; cbn; [by intros [= ->]|]. intros (db1 & H1 & H2)%bind_Some.
  rewrite (IH _ H2). by eapply schedule_flush_versions.
Qed.

Lemma recover_flow_versions ids db ready db' :
  recover_flow (di_lba_size info) mem_at NDEBUG ids db = Some (ready, db') -> versions_ db' = versions_ db.
Proof.
  revert db. induction ids as [|i ids IH]; intros db; cbn; [by intros [= _ ->]|]. intros ([r db1] & H1 & H2)%bind_Some.
  assert (E1 : versions_ db1 = versions_ db).
  { apply bind_Some in H1 as (st & _ & ([|] & _ & H1)%bind_Some); [by injection H1 as _ <-|].
    apply bind_Some in H1 as (db2 & H1%schedule_flush_versions & [= _ <-]). rewrite H1. by destruct (_ <? _). }
  destruct r; [|by injection H2 as _ <-]. apply bind_Some in H2 as (db2 & H2 & H3). rewrite (IH _ H3), <-E1.
  apply bind_Some in H2 as (st & _ & ([wal m] & _ & (j & _ & [= <-])%bind_Some)%bind_Some). done.
Qed.

Lemma flow_versions db ready db' :
  RecoverBackgroundFlow (di_lba_size info) (di_zone_cap info) mem_at NDEBUG db = Some (ready, db') -> versions_ db' = versions_ db.
Proof.
  intros ([r db1] & H1%recover_flow_versions & H2)%bind_Some. destruct r; [|by injection H2 as _ <-].
  apply bind_Some in H2 as (db2 & H2%schedule_flushes_versions & (db3 & H3 & [= _ <-])%bind_Some).
  assert (E3 : versions_ db3 = versions_ db2).
  { unfold MaybeScheduleCompactionL0 in H3. destruct (_ || _); [by injection H3 as <-|]. by apply bind_Some in H3 as ([|] & _ & [= <-]). }
  unfold MaybeScheduleCompaction. destruct (_ || _); cbn; congruence.
Qed.


(** ** Opening a new device *)

Context `{!CacheLaws C} `{!MemTableRepLaws Rep} `{!OnceLogLaws WLog} `{!ReliableLog WLog}.
Context (first last : Z) (Hd : device_zones first last) (Hz : first + 264 <= last - 1).
Abbreviation lba_size := (di_lba_size info).
Abbreviation zone_cap := (di_zone_cap info).
Context `{!CircularLogLaws L0 lba_size ((first + 164) * zone_cap) ((first + 264) * zone_cap)}.
Context `{!FragmentedLogLaws LN (zone_cap * lba_size) (first + 264) (last - 1)}.
Context (HL16 : 16 <= lba_size <= 2 ^ 24) (Hmem : forall n, 0 <= n -> blen (mem_at n) = n).

(** The logs of the device are empty, and so is the new cache. *)
Record new_device : Prop := {
  nd_wals : Forall (fun l => ol_chunks l = [] /\ ol_synced l) (wal_ranges N_wals new_wal_log (first + manifest_zones) zones_foreach_wal);
  nd_manifest : exists s m', mo_Recover (newManifest manifest_last (new_manifest_log first (first + manifest_zones))) = Some (s, m') /\ ok s = false;
  nd_cache : forall k a, ~ cache_has (new_cache (1024 * 1024 * 4)) k a
}.

(** The logs of a new device have nothing to replay. *)
Lemma recover_new_wals seq :
  new_device ->
  exists m segs, WALManager_Recover lba_size N_wals (replay_write NDEBUG rest)
      (manage lba_size mem_at N_wals (wal_ranges N_wals new_wal_log (first + manifest_zones) zones_foreach_wal)) newMemTable seq =
      Some (OK, m, newMemTable, seq) /\
    Forall ref_closed (wals_ m) /\ current_wal_ m = None /\ (0 < wal_tail_ m < N_wals)%nat /\ mgr_holds lba_size N_wals m segs.
Proof.
  intros [Hw _ _]. assert (Hlen : length (wal_ranges N_wals new_wal_log (first + manifest_zones) zones_foreach_wal) = N_wals) by (unfold wal_ranges; by rewrite length_fmap, length_seq).
  destruct (manage_holds lba_size HL16 mem_at Hmem N_wals enough_wals _ Hlen Hw) as (Hm & Hc & E).
  destruct (WalManager.Recover_spec lba_size HL16 mem_at Hmem N_wals rl_pointers rl_read (replay_write NDEBUG rest) _ _ newMemTable seq Hm Hc)
    as (order & Ho & Hrep); [left; by apply Nat.leb_le|by apply Nat.ltb_lt|].
  rewrite E in Hrep. apply Permutation_nil_r in Ho as ->. cbn in Hrep. destruct Hrep as (m & HR & HP).
  destruct (HP eq_refl) as (H1 & H2 & H3 & segs' & H4 & _). by exists m, segs'.
Qed.

(** The manager that the recovery leaves has its two logs. *)
Lemma recover_logs_length (logs : list L0) : length (snd (recover_logs logs)) = length logs.
Proof.
  induction logs as [|log logs IH]; [done|]. cbn [recover_logs]. destruct (l0_Recover log) as [s log1]. destruct (negb (ok s)); [done|].
  destruct (recover_logs logs) as [s' logs']. cbn in *. by rewrite IH.
Qed.

Lemma recovered_manager (mg mg' : Manager) :
  mg_Recover mg [] = (OK, mg') -> mg_wf (first + 164) (first + 264) (first + 264) (last - 1) mg ->
  mg_wf (first + 164) (first + 264) (first + 264) (last - 1) mg'.
Proof.
  intros Hr [Hl Hzs]. unfold mg_Recover, mg_RecoverL0 in Hr. pose proof (recover_logs_length (mg_l0 mg)) as Hlen.
  destruct (recover_logs (mg_l0 mg)) as [s logs]. cbn in Hlen. rewrite Hl in Hlen. destruct (ok s) eqn:Es.
  - cbn in Hr. by injection Hr as <-.
  - by injection Hr as -> _.
Qed.

End Opening.

(** ** Witness: a device of 273 zones of four blocks *)

Module OpenWitness.
#[local] Existing Instance BytewiseComparator.
Import DbWitness (name, fresh).
Definition device : SZDDevice := mkDevice Success (fun _ _ => Success) (mkInfo 64 4 4 0 (4 * 273)) Success Success.
Definition options : DBOptions := mkOptions 1 true false false.

(** The logs: of the manifest, of level 0, of the upper levels. *)
Definition ml_ops : CircularLog MemLog.t := MemLog.ops 64 0 16.
Definition l0_ops : CircularLog MemLog.t := MemLog.ops 64 656 1056.
Definition l0_laws : @CircularLogLaws MemLog.t l0_ops 64 ((0 + 164) * 4) ((0 + 264) * 4) := MemLog.laws 64 656 1056 ltac:(lia) ltac:(lia).
Definition ln_ops : FragmentedLog MemFrag.t := MemFrag.ops 256 264 272.
Definition ln_laws : @FragmentedLogLaws MemFrag.t ln_ops (4 * 64) (0 + 264) (273 - 1) := MemFrag.laws 256 264 272 ltac:(lia).
#[local] Existing Instances ln_ops DbWitness.cache_ops.

Definition initial (blocks : list bytes) :=
  @initial_db MemLog.t RevLog.t MemLog.t MemFrag.t MemCache.t ListRep.t ListRep.ops zero_mem device (fun _ _ => MemLog.mk 0 blocks)
    (fun _ _ => RevLog.mk 4096 []) (fun _ _ => MemLog.mk 0 []) (fun _ _ => ∅) (fun _ => []) 0 0 0 273.
Definition versions (blocks : list bytes) :=
  Recover (ManifestOps0 := @opening_manifest MemLog.t ml_ops _ device)
    (SSTableManagerOps0 := @manager_ops _ _ l0_ops ln_ops (di_zone_cap (dv_info device)))
    name (di_lba_size (dv_info device)) fresh (versions_ (initial blocks)).
Definition opened (o : DBOptions) (blocks : list bytes) :=
  @Open _ MemLog.t RevLog.t MemLog.t MemFrag.t MemCache.t ListRep.t ml_ops _ l0_ops ln_ops ListRep.ops _ name fresh zero_mem true refuse_rest device
    (fun _ _ => MemLog.mk 0 blocks) (fun _ _ => RevLog.mk 4096 []) (fun _ _ => MemLog.mk 0 []) (fun _ _ => ∅) (fun _ => [])
    (fun db => (Success, db)) o [100; 50] 0 0 7.

(** Nothing on the device. *)
Definition vs_new := Eval vm_compute in default (IOError, versions_ (initial [])) (versions []).
(** The only block of the manifest is not a CURRENT record. *)
Definition damaged : list bytes := [replicate 64 x00].
Definition vs_damaged := Eval vm_compute in default (IOError, versions_ (initial [])) (versions damaged).
Definition recovered (blocks : list bytes) :=
  @mo_Recover _ (@opening_manifest MemLog.t ml_ops _ device) (newManifest (manifest_last device) (MemLog.mk 0 blocks)).
Definition lost := Eval vm_compute in default (IOError, newManifest 0 (MemLog.mk 0 [])) (recovered damaged).

Lemma versions_new : versions [] = Some (OK, vs_new.2).
Proof. by vm_compute. Qed.

Lemma versions_damaged : versions damaged = Some (OK, vs_damaged.2).
Proof. by vm_compute. Qed.

Lemma lost_damaged : recovered damaged = Some (NotFound, lost.2).
Proof. by vm_compute. Qed.

Lemma device_ok : device_zones device 0 273.
Proof. by constructor. Qed.

Lemma device_new :
  new_device (ML := MemLog.t) (CircularLog0 := ml_ops) device (fun _ _ => MemLog.mk 0 []) (fun _ _ => RevLog.mk 4096 []) (fun _ => [] : MemCache.t) 0.
Proof.
  constructor; [by repeat constructor| |intros k a; apply not_elem_of_nil]. by eexists _, _.
Qed.
End OpenWitness.

Lemma zone_division_witness :
  InitDB (Rep := ListRep.t) (MemTableRep0 := ListRep.ops) zero_mem true (mkDevice Success (fun _ _ => Success) (mkInfo 64 4 4 0 400) Success Success)
    (fun _ _ => MemLog.mk 0 []) (fun _ _ => RevLog.mk 4096 []) (fun _ _ => MemLog.mk 0 []) (fun _ _ => (∅ : MemFrag.t)) (fun _ => [] : MemCache.t) 0 0 =
  Some (Corruption, None).
Proof.
  refine (proj1 (zone_division zero_mem true (mkDevice Success (fun _ _ => Success) (mkInfo 64 4 4 0 400) Success Success)
    (fun _ _ => MemLog.mk 0 []) (fun _ _ => RevLog.mk 4096 []) (fun _ _ => MemLog.mk 0 []) (fun _ _ => (∅ : MemFrag.t)) (fun _ => [] : MemCache.t)
    0 0 0 100 ltac:(by constructor)) _).
  done.
Defined.


